(* ===== verification/_CoqProject ===== *)
-Q . S2P
Prelude.v
GoErrors.v
GoStrings.v
GoFloat.v
Retry.v
Message.v
World.v
Postgres.v
Lifecycle.v
PostgresLogic.v
PostgresFacts.v
Demo.v
Fleet.v
FleetSafety.v
FleetInvariants.v
Leases.v
PostgresClaim.v
PostgresEnqueue.v
PostgresBatch.v
PostgresAck.v
PostgresAdmin.v
Effects.v
Registry.v
Engine.v
EngineFacts.v
EngineDispatch.v
EngineConc.v
EngineOwes.v
EngineConcFacts.v
EngineSim.v
EngineDrain.v
DrainTermination.v
Client.v
Spans.v
Worker.v
Listen.v
WorkerLife.v
WorkerSim.v
WorkerShutdown.v
Metrics.v
EndToEnd.v
Delivery.v
Janitor.v
HttpHandler.v
GrpcHandler.v
Cockroach.v
MySQL.v
MySQLFacts.v
MySQLFleet.v
MySQLOps.v
MySQLClaim.v
MySQLEnqueue.v
Migrations.v
Calendar.v
Partitions.v
LeaderLocks.v
Codecs.v
TypedDelivery.v
Observe.v
GoFlag.v
Ctl.v
CtlFacts.v
Suite.v
Bench.v
