(* ===== verification/Prelude.v ===== *)
(** * Verification of tickr: transactional outbox messaging for Go

    tickr stores messages in a database table and delivers them to handlers at
    least once.  A producer's [Client] inserts a row, optionally in its own
    transaction; worker processes claim due rows under a lease, run the
    registered handler and acknowledge the attempt; background jobs, elected
    by leader locks, reclaim expired leases and purge old rows.  This library
    models the producer, the worker, the three storage adapters with their
    migrations, the built-in handlers, the metrics and tracing back ends, the
    codecs and the admin command from their Go source and proves what each
    promises and that they fit together.

    ** Three kinds of programs

    Code below the Storage interface is a [World.prog]: a tree of atomic
    actions, one per SQL statement, clock reading or random draw, on a [World]
    (the committed database, the caller's open transaction, a tick).  A
    statement is a function of the database; faults (before or after taking
    effect), row locks of others, enumeration orders, clocks and generated
    UUIDs come from an [Env] indexed by the tick.  [run] executes a program
    alone; [Fleet.fleet_step] interleaves the actions of any number of them,
    with crashes, time and the caller's transaction.

    Code above the interface is an [Effects.eprog]: a program over its effects
    (storage calls, clocks, metrics, alerts, handler invocations, channels,
    goroutine starts).  [every ok p P] quantifies over all answers of the
    outside; [erun] runs a program against given answers, and file EndToEnd
    runs the engine with the adapter answering its storage calls.

    Concurrent code is a transition system whose goroutines are such programs:
    [EngineConc.sys_step] interleaves the run loop, the handler goroutines, the
    flusher and the goroutine of drain over the shared channels, wait group
    and flags; [WorkerLife.worker_step] puts it under Start and Stop with the
    background loops and the listener.  A step that is not enabled is an
    operation that blocks.

    ** Files and the code they model

    - Prelude (this file): time, int64 wrap-around, strings, a state monad,
      list, sorting and map lemmas, the tactics [bools] and friends.
    - GoErrors (errors.go): error values and errors.Is/As over wrapped and
      joined errors.  GoStrings: the functions of package strings and strconv
      the code uses.  GoFloat, Retry (retry.go): float64 by the Standard
      Library's IEEE 754 specification, and the backoff computed in it.
    - Message (message.go, storage.go): statuses, messages, parameters.
    - World, Postgres (storage/postgres/postgres.go, with the tables of its
      migrations): the SQL constants as statements (Module SQL) and the methods
      of Store.  Lifecycle: the abstract specification, a labelled step
      relation on one row ([row_step]) that refines the documented status
      machine, whose edges [life_step] lists one by one; and what the
      operations promise of the columns, without the statements' functions
      ([can_claim], [leased_as], [ended], [ends_attempt]).  PostgresLogic: the
      API as data ([op], [op_prog]), the labels each operation may put on a row
      ([op_label]) and the class [SqlLogic], by which an invariant checked once
      per statement holds for every operation.  PostgresFacts: every statement
      implements the specification.
    - Fleet, FleetSafety, FleetInvariants, Leases: any number of processes over
      one database.  A step names its actor ([fleet_step]); a run is the list
      of its steps ([fleet_trace]).  Simulation of the lifecycle step by step,
      fencing of stale workers, no loss, key and history uniqueness, exclusive
      leases.
    - PostgresClaim, PostgresEnqueue, PostgresBatch, PostgresAck,
      PostgresAdmin: the functional specification of each operation, and the
      transactional outbox.
    - Effects (storage.go, notifier.go, observe.go): storage calls and effects.
      Registry (registry.go, handler.go, handler_typed.go).  Engine (engine.go)
      with EngineFacts (attempts and their acknowledgement) and EngineDispatch
      (polling, dispatch, lease extension, the ack flusher).  Client
      (client.go).  Spans: the tracing calls of engine and client.  Worker
      (worker.go) with Janitor.
    - EngineConc (engine.go: newEngine, run, drain, semaphore, ackFlusher): the
      engine's goroutines as a transition system.  EngineOwes: what each
      goroutine owes the shared state, as a discipline its programs follow on
      every path.  EngineConcFacts: the invariant of all reachable states.
      EngineSim: schedules as functions.  EngineDrain, DrainTermination: the
      theorems.
    - Listen (postgres.go: Listen), WorkerLife (worker.go: Start, Stop, the
      background loops), WorkerSim (schedules), WorkerShutdown (theorems).
    - Metrics (metrics/prom, metrics/otel): the samples of the two back ends.
    - HttpHandler (handlers/http), GrpcHandler (handlers/grpc): the built-in
      handlers.  Cockroach (storage/cockroach): the wrapper of the PostgreSQL
      adapter and its leader-lock table.
    - MySQL (storage/mysql/mysql.go and its migration): column types and the
      SQL constants (Module Stmt), the transactions with deadlocks and the
      caller's snapshot, the methods of Store.  MySQLFacts, MySQLFleet: the
      invariant, and the simulation of MySQL's own lifecycle ([mysql_life]) step
      by step for any number of processes.  MySQLOps, MySQLClaim, MySQLEnqueue:
      the operations.
    - Migrations: the runners of the three adapters.  Calendar, Partitions:
      package time's dates and formats, and the monthly partitions.
      LeaderLocks: the session locks of PostgreSQL and MySQL.
    - EndToEnd, Delivery, TypedDelivery, Janitor: engine and worker running on
      the adapter, with typed handlers in TypedDelivery; the class [FulfilsClaim]
      is the interface between them.
    - Codecs (codec/json, codec/proto).  Observe (observe.go, tracing/otel, the
      tracing calls of client.go): alerts, and tracers over a store of headers
      maps, since Go maps are shared by reference.
    - GoFlag: package flag with the parsers it uses.  Ctl, CtlFacts
      (cmd/tickrctl): the command line, the commands over the adapter.
    - Suite (storage/internal/storagetest/suite.go): the repository's conformance
      suite over the class [StorageImpl], run on the models of the adapters.
      Bench (bench.go): the load of the benchmarks.
    - Demo: one concrete environment, at which theorems with hypotheses are
      applied.

    Definitions have the names of the code where Rocq allows it: Fail is
    [Fail_], Stats the method is [GetStats], lookup is [lookup_handler], the
    generic functions On and OnBatch are [typed_On] and [typed_OnBatch], New of
    tracing/otel is [otel_New].

    ** What is proved

    Safety over all interleavings, faults and crashes (Fleet files): a step
    leaves a row's status and attempt alone or is one edge of the status
    machine, one that the operation acting promises; once a row has left an
    attempt for good (a release at shutdown gives the attempt back) an
    acknowledgement of it changes nothing, until a requeue; a message that
    disappears does so at a step of a purge, completed before its cutoff;
    leases, completion times and attempt counters are well formed;
    idempotency keys are unique (unpartitioned schema) and so are history
    sequence numbers; while a lease lasts, the first step that changes the row
    speaks for its attempt or its owner.  Function of each operation, on
    every branch, in terms of the columns: what
    Claim returns and leases, what Enqueue stores, duplicates, atomicity of
    the outbox and of BatchSucceed, acknowledgements, reclaim, purge, requeue,
    statistics, history.  The engine, on every path: each claimed message is
    disposed of once, each attempt acknowledged once as its result calls for,
    the last attempt is final, leases are extended or the attempt cancelled,
    the flusher loses nothing, polling backs off within bounds.  Together:
    an attempt run on the adapter settles the message's row, the adapter's
    Claim keeps the promise the engine needs, a janitor tick ends and removes
    exactly the outdated rows; a queue settles within the attempts its messages
    have left, but a message that kills its workers is retried for ever; a typed
    handler gets what the producer encoded, and a payload that does not decode is
    dead-lettered at once.  The
    built-in handlers classify responses as
    documented, and CockroachDB's leader lock is exclusive while it lasts.
    Concurrency, for every interleaving: at most PoolSize handlers run and at
    most MaxInflight of a type; no goroutine panics on a channel or the wait
    group; drain always ends, and when it ends without error nothing posted is
    lost; when Start returns nothing of the worker is left; the in-flight
    gauge counts the running attempts.  MySQL: rows stay typed and every
    step is an edge of its lifecycle; completed rows keep their last lease;
    acknowledgements are fenced by the owner (and only by it), and are lost in
    a deadlock that their code does not report.
    On PostgreSQL a run of the migrations executes a prefix of the pending
    scripts in name order, each whole and recorded, all of them when it
    reports no error; partitions are
    dropped only when their whole range is before the cutoff; session locks
    are exclusive.  Traces: a message's consumer joins the span of the last message
    of its batch that shares its headers map, and on every path each span is ended
    once, with the result of its work.  The command drain stops in time and
    tells the truth.  The models pass the repository's conformance suite.
    Arithmetic: the backoff's bounds and its agreement with an integer
    specification, whole-second leases, the overflow of Retry-After.

    ** Bounds and fuel

    [Worker.purge_loop] takes fuel for the loop "until a batch comes back
    short"; [Janitor.janitor_leaves] shows that more than the number of rows is
    enough.  [Engine.chunks] is given the number of messages, enough since a
    chunk is never empty.  [WorkerLife.loop_tick] gives the purge loops any
    fuel; a tick that would run out of it takes no step.  [Ctl.drain_loop] takes
    fuel for its polling; [CtlFacts.drain_stops_with_right_verdict] shows that the
    rounds that fit before the deadline, and one, are enough.  The parsers of
    GoFlag are given the length of their input, of which every step consumes
    some.  [Suite.claim_loop] polls at most a hundred times.  [Bench.load] has one
    round more than messages; [Bench.load_stores] shows that it ends.  Loops over received
    inputs ([ackFlusher],
    [extendBatchLoop]) recurse on the inputs.  Durations are unbounded integers
    except where the code can overflow (the doubling in [next_delay], the
    backoff in [NextDelay], the seconds of [parseRetryAfter]), which is written
    out.

    ** Modelling decisions and limits

    - Times keep nanoseconds in the database, whose columns keep microseconds;
      the JSON round trip of headers is the identity (UTF-8 strings assumed);
      nil and empty payloads are not distinguished.
    - One caller transaction is open at a time; it contains inserts only, which
      is all the adapter does in it.  Its commit fails when a unique index would
      be violated.  The transaction of BatchSucceed is one atomic action.
    - MySQL: texts are compared by a parameter (the collation's sort keys), the
      server is in strict mode, the adapter's own transactions are atomic
      actions that may be broken by a deadlock at any statement, and only the
      caller's transaction reads from a snapshot.
    - Migrations: the effect of a script is a parameter; file names hold no
      white space.  Partition bounds are printed in a session whose time zone
      is UTC; dates follow the proleptic Gregorian calendar.
    - In the transition systems a handler is one step that returns; the lease
      extender and the alert goroutines are effects, not goroutines; the sizes
      of channels and the semaphores are those of the code, the timer and the
      grace period may fire at any time.  Reads and writes of [w.cancel] are
      atomic there, which they are not in the code.
    - Metrics: the libraries are outside; histogram buckets and descriptions
      are left out.
    - Equal history times may be deleted in any order by a limited purge; the
      model fixes the enumeration order there.
    - Log lines carry no state and are left out.  In the programs of the engine
      and the client a span is an effect without a context, and the effect
      [InjectHeaders] answers with any headers; Observe has the tracing calls of
      the client with contexts and shared headers maps.  Handlers,
      dead-letter predicates, user retry policies, codecs, the UUID and gRPC
      libraries, the HTTP client and http.ParseTime are parameters.
    - Reading Retry-After trims ASCII white space only.
    - tickrctl: its standard error, the alignment of its tables and the texts of
      time.Parse's errors are left out; the database changes under a drain as a
      parameter says.
    - Delivery runs the attempts of a poll one after another, which the frame of
      each attempt allows; their concurrency is EngineConc's.
    - Not modelled: the examples; the comparisons of benchmarks/ and the timed part
      of the drain benchmark, which run a worker for as long as it takes. *)

From stdpp Require Export prelude gmap strings sorting pretty.
From Stdlib Require Export ZArith Lia.

#[global] Open Scope Z_scope.

(** ** Time and durations

    [time.Time] is an instant in nanoseconds counted from Go's zero time, so
    [IsZero] is a test against 0; [time.Duration] is an int64 count of
    nanoseconds. *)

Abbreviation Time := Z (only parsing).
Abbreviation Duration := Z (only parsing).

Definition Nanosecond : Duration := 1.
Definition Microsecond : Duration := 1000.
Definition Millisecond : Duration := 1000000.
Definition Second : Duration := 1000000000.
Definition Minute : Duration := 60 * Second.
Definition Hour : Duration := 60 * Minute.

Definition IsZero (t : Time) : bool := t =? 0.

(** ** Machine integers *)

Definition int64_min : Z := - 2 ^ 63.
Definition int64_max : Z := 2 ^ 63 - 1.
Definition in_int64 (z : Z) : bool := (int64_min <=? z) && (z <=? int64_max).

(** Two's-complement wrap-around of a 64-bit signed operation. *)
Definition wrap64 (z : Z) : Z := (z + 2 ^ 63) mod 2 ^ 64 - 2 ^ 63.

(** PostgreSQL's INT columns are 32-bit: storing a value outside raises. *)
Definition int4_max : Z := 2147483647.

Lemma wrap64_id z : in_int64 z = true → wrap64 z = z.
Proof.
  unfold in_int64, wrap64, int64_min, int64_max. intros H.
  rewrite Z.mod_small; lia.
Qed.

Lemma wrap64_range z : in_int64 (wrap64 z) = true.
Proof.
  unfold in_int64, wrap64, int64_min, int64_max.
  pose proof (Z.mod_pos_bound (z + 2 ^ 63) (2 ^ 64)). lia.
Qed.

(** ** Strings *)

Abbreviation bytes := string (only parsing).

(** SQL's [NULLIF(s, '')], also the Go idiom of passing [nil] for "". *)
Definition nullif_empty (s : string) : option string :=
  if bool_decide (s = ""%string) then None else Some s.

(** Reading a nullable text column back into a Go string. *)
Definition coalesce_empty (o : option string) : string := default ""%string o.

Lemma coalesce_nullif s : coalesce_empty (nullif_empty s) = s.
Proof. unfold nullif_empty. by case_bool_decide; simplify_eq/=. Qed.

(** ** A state monad

    Stateful Go code is written in the state monad over the state it mutates;
    [x ← c; k] is stdpp's notation for [mbind]. *)

Definition State (S A : Type) : Type := S → A * S.

#[export] Instance State_ret S : MRet (State S) := λ A a s, (a, s).
#[export] Instance State_bind S : MBind (State S) := λ A B k c s,
  let '(a, s') := c s in k a s'.

(** Run [f] on every element in order. *)
Fixpoint for_each {S A} (f : A → State S unit) (l : list A) : State S unit :=
  match l with
  | [] => mret ()
  | x :: l => _ ← f x; for_each f l
  end.

Lemma for_each_app {S A} (f : A → State S unit) l1 l2 s :
  for_each f (l1 ++ l2) s = for_each f l2 (for_each f l1 s).2.
Proof.
  revert s. induction l1 as [|x l1 IH]; intros s; [done|].
  cbn. unfold mbind, State_bind. destruct (f x s) as [u s']. apply IH.
Qed.

(** An invariant of the body is an invariant of the loop. *)
Lemma for_each_inv {S A} (I : S → Prop) (f : A → State S unit) l s :
  (∀ x s, x ∈ l → I s → I (f x s).2) → I s → I (for_each f l s).2.
Proof.
  revert s. induction l as [|x l IH]; intros s Hf Hs; [done|].
  cbn. unfold mbind, State_bind.
  destruct (f x s) as [u s'] eqn:E. apply IH.
  - intros y t Hy. apply Hf. by right.
  - change s' with ((u, s').2). rewrite <- E. apply Hf; [by left|done].
Qed.

(** ** Ordering by a key pair, as [ORDER BY process_at, id] *)

Definition key_le (a b : Time * string) : Prop :=
  a.1 < b.1 ∨ (a.1 = b.1 ∧ String.leb a.2 b.2 = true).

#[export] Instance key_le_dec : RelDecision key_le.
Proof. intros a b. unfold key_le. apply _. Defined.

#[export] Instance key_le_total : Total key_le.
Proof.
  intros [t1 i1] [t2 i2]. unfold key_le; simpl.
  destruct (Z.lt_trichotomy t1 t2) as [?|[->|?]]; [by left; left| |by right; left].
  destruct (String.leb_total i1 i2); [left|right]; by right.
Qed.

Lemma leb_cons a s b t : String.leb (String a s) (String b t) = true ↔
  (Ascii.N_of_ascii a < Ascii.N_of_ascii b)%N ∨
  (Ascii.N_of_ascii a = Ascii.N_of_ascii b ∧ String.leb s t = true).
Proof.
  unfold String.leb. simpl. unfold Ascii.compare.
  destruct (N.compare_spec (Ascii.N_of_ascii a) (Ascii.N_of_ascii b)) as [E|E|E].
  - rewrite E. destruct (s ?= t)%string; (split; [auto|]); intros [?|[_ ?]]; try done; lia.
  - split; [by left|done].
  - split; [done|]. intros [?|[? _]]; lia.
Qed.

Lemma leb_trans s1 s2 s3 :
  String.leb s1 s2 = true → String.leb s2 s3 = true → String.leb s1 s3 = true.
Proof.
  revert s2 s3. induction s1 as [|a s1 IH]; intros [|b s2] [|c s3]; try done.
  rewrite !leb_cons. intros [?|[? ?]] [?|[? ?]]; try (left; lia). right. split; [lia|eauto].
Qed.

#[export] Instance key_le_trans : Transitive key_le.
Proof.
  intros a b c. unfold key_le. intros [?|[? ?]] [?|[? ?]]; try (left; lia).
  right. split; [lia|by eapply leb_trans].
Qed.

Lemma key_le_antisym a b : key_le a b → key_le b a → a = b.
Proof.
  destruct a, b. unfold key_le; simpl. intros [?|[? ?]] [?|[? ?]]; try lia.
  subst. f_equal. by apply String.leb_antisym.
Qed.

(** The first [n] of a sorted list come before the rest. *)
Lemma take_sorted_before {A} (R : relation A) n l x y :
  StronglySorted R l → x ∈ take n l → y ∈ drop n l → R x y.
Proof.
  intros Hs Hx Hy. rewrite <- (take_drop n l) in Hs.
  eapply StronglySorted_app_1_elem_of in Hs; eauto.
Qed.

(** ORDER BY R LIMIT n: an element left out comes after all of a full page. *)
Lemma sorted_limit_rest {A} (R : relation A) `{!RelDecision R, !Total R, !Transitive R} n l x :
  x ∈ l → x ∉ take n (merge_sort R l) →
  length (take n (merge_sort R l)) = n ∧ ∀ y, y ∈ take n (merge_sort R l) → R y x.
Proof.
  intros Hin Hn. rewrite <- (merge_sort_Permutation R l), <- (take_drop n (merge_sort R l)) in Hin.
  apply elem_of_app in Hin as [Hin|Hd]; [done|]. split.
  - rewrite length_take. apply list_elem_of_lookup in Hd as [k Hk].
    apply lookup_lt_Some in Hk. rewrite length_drop in Hk. lia.
  - intros y Hy. eapply take_sorted_before; [|done|done]. by apply StronglySorted_merge_sort.
Qed.

(** ORDER BY a number. *)
Definition le_on {A} (f : A → Z) (a b : A) : Prop := f a ≤ f b.

#[export] Instance le_on_dec {A} (f : A → Z) : RelDecision (le_on f).
Proof. intros a b. unfold le_on. apply _. Defined.

#[export] Instance le_on_total {A} (f : A → Z) : Total (le_on f).
Proof. intros a b. unfold le_on. lia. Qed.

#[export] Instance le_on_trans {A} (f : A → Z) : Transitive (le_on f).
Proof. intros a b c. unfold le_on. lia. Qed.

(** ** Lists *)

Lemma take_Z_length {A} (n : Z) (l : list A) :
  0 ≤ n → Z.of_nat (length (take (Z.to_nat n) l)) ≤ n.
Proof. intros. rewrite length_take. lia. Qed.

Lemma elem_of_take_1 {A} n (l : list A) x : x ∈ take n l → x ∈ l.
Proof.
  intros H. rewrite <- (take_drop n l). apply elem_of_app. by left.
Qed.

Lemma omap_length_le {A B} (f : A → option B) (l : list A) :
  (length (omap f l) <= length l)%nat.
Proof.
  induction l as [|x l IH]; [done|]. change (omap f (x :: l)) with
    (match f x with Some y => y :: omap f l | None => omap f l end).
  destruct (f x); simpl length; lia.
Qed.

(** ** Sums *)

Definition zsum {A} (f : A → Z) (l : list A) : Z := foldr (λ x acc, f x + acc) 0 l.

Lemma zsum_app {A} (f : A → Z) l l' : zsum f (l ++ l') = zsum f l + zsum f l'.
Proof. induction l as [|x l IH]; simpl; lia. Qed.

Lemma zsum_insert {A} (f : A → Z) l i x y :
  l !! i = Some x → zsum f (<[i := y]> l) = zsum f l - f x + f y.
Proof.
  revert i. induction l as [|z l IH]; intros [|i]; simpl; try done.
  - intros [= ->]. lia.
  - intros H. rewrite (IH i H). lia.
Qed.

Lemma zsum_nonneg {A} (f : A → Z) l : (∀ x, 0 ≤ f x) → 0 ≤ zsum f l.
Proof. intros Hf. induction l as [|x l IH]; simpl; [lia|]. specialize (Hf x). lia. Qed.

Lemma zsum_lookup {A} (f : A → Z) l i x : (∀ x, 0 ≤ f x) → l !! i = Some x → f x ≤ zsum f l.
Proof.
  intros Hf. revert i. induction l as [|z l IH]; intros [|i]; simpl; try done.
  - intros [= ->]. pose proof (zsum_nonneg f l Hf). lia.
  - intros H. pose proof (IH i H). pose proof (Hf z). lia.
Qed.

Lemma zsum_le {A B} (f : A → Z) (g : B → Z) (R : A → B → Prop) l l' :
  (∀ x y, R x y → f x ≤ g y) → Forall2 R l l' → zsum f l ≤ zsum g l'.
Proof. intros Hf. induction 1 as [|x y l l' Hxy _ IH]; simpl; [lia|]. specialize (Hf x y Hxy). lia. Qed.

Lemma zsum_nonneg_in {A} (f : A → Z) l : (∀ x, x ∈ l → 0 ≤ f x) → 0 ≤ zsum f l.
Proof.
  induction l as [|x l IH]; intros H; simpl; [done|].
  pose proof (H x ltac:(left)). assert (0 ≤ zsum f l); [|lia]. apply IH. intros y Hy. apply H. by right.
Qed.

Lemma zsum_perm {A} (f : A → Z) l l' : l ≡ₚ l' → zsum f l = zsum f l'.
Proof. induction 1; simpl; lia. Qed.

Lemma zsum_map_delete `{Countable K} {A} (f : K * A → Z) k (m : gmap K A) :
  zsum f (map_to_list m) = from_option (λ x, f (k, x)) 0 (m !! k) + zsum f (map_to_list (delete k m)).
Proof.
  destruct (m !! k) as [x|] eqn:E; simpl; [|by rewrite delete_id].
  rewrite <- (zsum_perm f ((k, x) :: map_to_list (delete k m))); [done|]. by apply map_to_list_delete.
Qed.

Lemma zsum_map_insert `{Countable K} {A} (f : K * A → Z) k x (m : gmap K A) :
  zsum f (map_to_list (<[k := x]> m)) = f (k, x) + zsum f (map_to_list (delete k m)).
Proof. rewrite (zsum_map_delete f k), lookup_insert_eq, delete_insert_eq. done. Qed.

Lemma zsum_positive {A} (f : A → Z) l : zsum f l ≠ 0 → ∃ i x, l !! i = Some x ∧ f x ≠ 0.
Proof.
  induction l as [|x l IH]; simpl; [done|]. intros H. destruct (decide (f x = 0)) as [E|E].
  - destruct IH as (i & y & ? & ?); [lia|]. by exists (S i), y.
  - by exists 0%nat, x.
Qed.

(** ** Automation *)

Create HintDb tickr.
#[export] Hint Resolve coalesce_nullif wrap64_range elem_of_take_1 : tickr.

(** Split every boolean conjunction, and turn boolean tests into
    propositions. *)
Ltac bools :=
  repeat match goal with
  | H : _ && _ = true |- _ => apply andb_true_iff in H as [? ?]
  | H : _ || _ = false |- _ => apply orb_false_iff in H as [? ?]
  | H : negb _ = true |- _ => apply negb_true_iff in H
  | H : bool_decide _ = true |- _ => apply bool_decide_eq_true_1 in H
  | H : bool_decide _ = false |- _ => apply bool_decide_eq_false_1 in H
  end.
