(* ===== verification/GoErrors.v ===== *)
(** * Error values (errors.go) and the part of Go's [errors] they use

    A Go [error] is an inductive value; a nil error is [None] of
    [option error].  [errors.As] and [errors.Is] walk the tree of wrapped
    errors in pre-order, so the package's sentinels ([DeadLetter],
    [RetryAfter], [Skip], [ErrDuplicate]) are recognised below any number of
    wrappers. *)

From S2P Require Import Prelude.

(** ** Formatting used in error texts *)

Module GoFmt.

Definition digit (n : Z) : string := pretty n.

(** [fmtFrac]: the fraction of [v / 10^prec] without trailing zeros, and the
    integer part. *)
Fixpoint fmtFrac_go (prec : nat) (print : bool) (acc : string) (v : Z) : string * Z :=
  match prec with
  | O => ((if print then "." ++ acc else "")%string, v)
  | S p =>
    let d := v mod 10 in
    let print := print || negb (d =? 0) in
    fmtFrac_go p print (if print then digit d ++ acc else acc)%string (v / 10)
  end.

Definition fmtFrac (v : Z) (prec : nat) : string * Z := fmtFrac_go prec false "" v.

(** [time.Duration.String], the rendering of [%s] in [retryAfterErr.Error]. *)
Definition Duration_String (d : Duration) : string :=
  let u := Z.abs d in
  let body :=
    if u =? 0 then "0s"%string
    else if u <? Second then
      if u <? Microsecond then (pretty u ++ "ns")%string
      else
        let '(prec, unit_) :=
          if u <? Millisecond then (3%nat, "µs"%string) else (6%nat, "ms"%string) in
        let '(frac, n) := fmtFrac u prec in (pretty n ++ frac ++ unit_)%string
    else
      let '(frac, n) := fmtFrac u 9 in
      let secs := (pretty (n mod 60) ++ frac ++ "s")%string in
      let m := n / 60 in
      if 0 <? m then
        let mins := (pretty (m mod 60) ++ "m" ++ secs)%string in
        let h := m / 60 in
        if 0 <? h then (pretty h ++ "h" ++ mins)%string else mins
      else secs in
  if d <? 0 then ("-" ++ body)%string else body.

Definition hex_digit (n : nat) : string :=
  match String.get n "0123456789abcdef" with
  | Some c => String c ""
  | None => ""
  end.

(** [strconv.Quote] ([%q]).  Bytes from 0x80 up are copied, as Quote does for
    printable UTF-8. *)
Definition quote_char (c : Ascii.ascii) : string :=
  let n := Ascii.nat_of_ascii c in
  let bs := String (Ascii.ascii_of_nat 92) in
  if bool_decide (n = 34%nat) then bs (String c "")
  else if bool_decide (n = 92%nat) then bs (String c "")
  else if bool_decide (n = 7%nat) then bs "a"
  else if bool_decide (n = 8%nat) then bs "b"
  else if bool_decide (n = 12%nat) then bs "f"
  else if bool_decide (n = 10%nat) then bs "n"
  else if bool_decide (n = 13%nat) then bs "r"
  else if bool_decide (n = 9%nat) then bs "t"
  else if bool_decide (n = 11%nat) then bs "v"
  else if bool_decide (n < 32 ∨ n = 127)%nat then
    bs ("x" ++ hex_digit (n / 16) ++ hex_digit (n mod 16))%string
  else String c "".

Fixpoint quote_body (s : string) : string :=
  match s with
  | EmptyString => ""
  | String c s => (quote_char c ++ quote_body s)%string
  end.

Definition dquote : string := String (Ascii.ascii_of_nat 34) "".

Definition Quote (s : string) : string := (dquote ++ quote_body s ++ dquote)%string.

End GoFmt.

(** ** Error values *)

Inductive error : Type :=
| errorString (text : string)                       (* errors.New, fmt.Errorf without %w *)
| wrapError (text : string) (err : error)           (* fmt.Errorf with one %w *)
| joinError (errs : list error)                     (* errors.Join *)
| sentinel (text : string)                          (* package-level error variable *)
| ErrDuplicate (existingID eventType key : string)
| retryAfterErr (delay : Duration) (err : option error)
| deadLetterErr (err : option error)
| skipErr (reason : string)
| MySQLError (number : Z) (text : string)           (* *mysql.MySQLError and its text *)
| statusError (code : Z) (text : string).           (* gRPC status error and its text *)

Definition context_Canceled : error := sentinel "context canceled".
Definition context_DeadlineExceeded : error := sentinel "context deadline exceeded".
Definition pgx_ErrNoRows : error := sentinel "no rows in result set".
Definition sql_ErrNoRows : error := sentinel "sql: no rows in result set".

Fixpoint join_lines (l : list string) : string :=
  match l with
  | [] => ""
  | [x] => x
  | x :: l => (x ++ String (Ascii.ascii_of_nat 10) (join_lines l))%string
  end.

(** The [Error] methods. *)
Fixpoint Error (e : error) : string :=
  match e with
  | errorString t => t
  | wrapError t _ => t
  | joinError es => join_lines (map Error es)
  | sentinel t => t
  | ErrDuplicate id et key =>
    ("tickr: duplicate idempotency key " ++ GoFmt.Quote key ++ " for event type "
      ++ GoFmt.Quote et ++ " (existing id " ++ id ++ ")")%string
  | retryAfterErr d None => ("tickr: retry after " ++ GoFmt.Duration_String d)%string
  | retryAfterErr d (Some err) =>
    ("tickr: retry after " ++ GoFmt.Duration_String d ++ ": " ++ Error err)%string
  | deadLetterErr None => "tickr: dead-letter requested"%string
  | deadLetterErr (Some err) => ("tickr: dead-letter: " ++ Error err)%string
  | skipErr r => if bool_decide (r = ""%string) then "tickr: skipped"%string
                 else ("tickr: skipped: " ++ r)%string
  | MySQLError _ t => t
  | statusError _ t => t
  end.

(** [fmt.Errorf] with a trailing [: %w]. *)
Definition Errorf_w (pfx : string) (e : error) : error :=
  wrapError (pfx ++ ": " ++ Error e)%string e.

(** ** [errors.As] and [errors.Is]

    [find_err p e] is the first error of the tree below [e], in pre-order,
    that [p] accepts. *)
Fixpoint find_err {A} (p : error → option A) (e : error) : option A :=
  match p e with
  | Some a => Some a
  | None =>
    match e with
    | wrapError _ e' => find_err p e'
    | joinError es =>
      (fix go l := match l with
                   | [] => None
                   | e' :: l => match find_err p e' with
                                | Some a => Some a
                                | None => go l
                                end
                   end) es
    | retryAfterErr _ (Some e') => find_err p e'
    | deadLetterErr (Some e') => find_err p e'
    | _ => None
    end
  end.

(** On a nil error [errors.As] and [errors.Is] report false. *)
Definition errors_As {A} (p : error → option A) (e : option error) : option A :=
  e ≫= find_err p.

Definition as_duplicate (e : error) : option (string * string * string) :=
  match e with ErrDuplicate id et k => Some (id, et, k) | _ => None end.
Definition as_retryAfter (e : error) : option Duration :=
  match e with retryAfterErr d _ => Some d | _ => None end.
Definition as_deadLetter (e : error) : option unit :=
  match e with deadLetterErr _ => Some tt | _ => None end.
Definition as_skip (e : error) : option unit :=
  match e with skipErr _ => Some tt | _ => None end.
Definition is_sentinel (name : string) (e : error) : option unit :=
  match e with
  | sentinel n => if bool_decide (n = name) then Some tt else None
  | _ => None
  end.

Definition isSome {A} (o : option A) : bool := match o with Some _ => true | None => false end.

Definition errors_Is (e : option error) (name : string) : bool :=
  isSome (errors_As (is_sentinel name) e).

Definition is_Canceled (e : option error) : bool := errors_Is e "context canceled".
Definition is_NoRows (e : option error) : bool := errors_Is e "no rows in result set".

(** ** errors.go *)

Definition IsDuplicate (e : option error) : bool := isSome (errors_As as_duplicate e).

Definition RetryAfter (delay : Duration) (err : option error) : error :=
  let err := match err with None => errorString "retry requested" | Some e => e end in
  retryAfterErr delay (Some err).

Definition ExtractRetryAfter (err : option error) : Duration * bool :=
  match errors_As as_retryAfter err with
  | Some d => (d, true)
  | None => (0, false)
  end.

Definition DeadLetter (err : option error) : error :=
  let err := match err with None => errorString "dead-lettered" | Some e => e end in
  deadLetterErr (Some err).

Definition IsDeadLetter (err : option error) : bool := isSome (errors_As as_deadLetter err).

Definition Skip (reason : string) : error := skipErr reason.

Definition IsSkip (err : option error) : bool := isSome (errors_As as_skip err).

(** ** Lemmas *)

(** A chain of wrappers around [e]: any mix of [fmt.Errorf("...%w")],
    [DeadLetter], [RetryAfter] and [errors.Join] with [e] somewhere inside. *)
Inductive wraps : error → error → Prop :=
| wraps_here e : wraps e e
| wraps_wrap t e e' : wraps e e' → wraps (wrapError t e) e'
| wraps_join es e e' : e ∈ es → wraps e e' → wraps (joinError es) e'
| wraps_retry d e e' : wraps e e' → wraps (retryAfterErr d (Some e)) e'
| wraps_dead e e' : wraps e e' → wraps (deadLetterErr (Some e)) e'.

#[export] Hint Constructors wraps : tickr.

(** Induction on errors with a hypothesis for every joined error. *)
Lemma error_ind_strong (P : error → Prop) :
  (∀ t, P (errorString t)) →
  (∀ t e, P e → P (wrapError t e)) →
  (∀ es, Forall P es → P (joinError es)) →
  (∀ t, P (sentinel t)) →
  (∀ i t k, P (ErrDuplicate i t k)) →
  (∀ d oe, (∀ e, oe = Some e → P e) → P (retryAfterErr d oe)) →
  (∀ oe, (∀ e, oe = Some e → P e) → P (deadLetterErr oe)) →
  (∀ r, P (skipErr r)) →
  (∀ n m, P (MySQLError n m)) →
  (∀ c m, P (statusError c m)) →
  ∀ e, P e.
Proof.
  intros H1 H2 H3 H4 H5 H6 H7 H8 H9 H10. fix IH 1. intros [].
  - apply H1.
  - apply H2, IH.
  - apply H3. induction errs as [|e es IHes]; constructor; [apply IH|apply IHes].
  - apply H4.
  - apply H5.
  - apply H6. destruct err as [e|]; intros ? [= <-]. apply IH.
  - apply H7. destruct err as [e|]; intros ? [= <-]. apply IH.
  - apply H8.
  - apply H9.
  - apply H10.
Qed.

Lemma find_err_join {A} (p : error → option A) es :
  p (joinError es) = None →
  find_err p (joinError es) = head (omap (find_err p) es).
Proof.
  intros Hp. simpl. rewrite Hp. clear Hp.
  induction es as [|e es IH]; [done|]. simpl. destruct (find_err p e); [done|]. apply IH.
Qed.

Lemma head_omap_Some {A B} (f : A → option B) l :
  isSome (head (omap f l)) = true ↔ ∃ x, x ∈ l ∧ isSome (f x) = true.
Proof.
  induction l as [|x l IH]; simpl.
  - split; [done|]. by intros (? & ?%elem_of_nil & _).
  - destruct (f x) eqn:E; simpl.
    + split; [|done]. intros _. exists x. rewrite E. split; [by left|done].
    + rewrite IH. split; intros (y & Hy & Hf); exists y; split; try done.
      * by right.
      * apply elem_of_cons in Hy as [->|]; [by rewrite E in Hf|done].
Qed.

(** [find_err] finds a match exactly when some wrapped error matches. *)
Lemma find_err_Some {A} (p : error → option A) e :
  isSome (find_err p e) = true ↔ ∃ e', wraps e e' ∧ isSome (p e') = true.
Proof.
  split.
  - induction e using error_ind_strong; intros Hf.
    all: match type of Hf with isSome (find_err _ ?e0) = true =>
      destruct (p e0) eqn:Hp; [exists e0; rewrite Hp; auto with tickr|] end.
    all: try (rewrite find_err_join in Hf by done); simpl in Hf; try rewrite Hp in Hf; try done.
    + destruct (IHe Hf) as (e' & ? & ?). eauto with tickr.
    + apply head_omap_Some in Hf as (x & Hx & Hf).
      rewrite Forall_forall in H. destruct (H x Hx Hf) as (e' & ? & ?). eauto with tickr.
    + destruct oe as [e|]; [|done]. destruct (H e eq_refl Hf) as (e' & ? & ?). eauto with tickr.
    + destruct oe as [e|]; [|done]. destruct (H e eq_refl Hf) as (e' & ? & ?). eauto with tickr.
  - intros (e' & Hw & Hp). induction Hw as [e|t e e' Hw IH|es e e' Hin Hw IH|d e e' Hw IH|e e' Hw IH].
    + destruct (p e) eqn:E; [|done]. destruct e; simpl; by rewrite E.
    + simpl. destruct (p (wrapError t e)); [done|]. by apply IH.
    + destruct (p (joinError es)) eqn:E; [simpl; by rewrite E|].
      rewrite find_err_join by done. apply head_omap_Some. eauto.
    + simpl. destruct (p (retryAfterErr d (Some e))); [done|]. by apply IH.
    + simpl. destruct (p (deadLetterErr (Some e))); [done|]. by apply IH.
Qed.

(** The first match of a chain of single wrappers is the outermost one. *)
Lemma find_err_here {A} (p : error → option A) e a : p e = Some a → find_err p e = Some a.
Proof. intros H. destruct e; simpl; by rewrite H. Qed.

(** The sentinels of errors.go are recognised below any tree of wrappers
    ([fmt.Errorf] with [%w], [errors.Join], other sentinels), and only there:
    [IsDeadLetter] holds exactly of the errors that contain one built by
    [DeadLetter], [IsSkip] of those that contain one built by [Skip],
    [IsDuplicate] of those that contain an [ErrDuplicate], and
    [ExtractRetryAfter] reports a delay exactly for those that contain one
    built by [RetryAfter]. *)
Theorem sentinels_found_iff_wrapped (e : error) :
  (IsDeadLetter (Some e) = true ↔ ∃ c, wraps e (deadLetterErr c)) ∧
  (IsSkip (Some e) = true ↔ ∃ r, wraps e (skipErr r)) ∧
  (IsDuplicate (Some e) = true ↔ ∃ i t k, wraps e (ErrDuplicate i t k)) ∧
  ((ExtractRetryAfter (Some e)).2 = true ↔ ∃ d c, wraps e (retryAfterErr d c)).
Proof.
  unfold IsDeadLetter, IsSkip, IsDuplicate, ExtractRetryAfter, errors_As; simpl.
  rewrite !find_err_Some. split_and!.
  - split; [intros ([] & ? & ?)|intros (c & ?)]; simpl in *; try done; eauto.
  - split; [intros ([] & ? & ?)|intros (c & ?)]; simpl in *; try done; eauto.
  - split; [intros ([] & ? & ?)|intros (i & t & k & ?)]; simpl in *; try done; eauto.
  - transitivity (isSome (find_err as_retryAfter e) = true); [by destruct (find_err _ e)|].
    rewrite find_err_Some.
    split; [intros ([] & ? & ?)|intros (d & c & ?)]; simpl in *; try done; eauto.
Qed.
