(* ===== verification/GoStrings.v ===== *)
(** * The functions of Go's [strings] package that the adapters use

    Byte strings; [TrimSpace] knows the white space of ASCII only. *)

From S2P Require Import Prelude.
From Stdlib Require Import Ascii.

#[local] Open Scope string_scope.

(** ** Concatenation *)

Lemma app_empty_r s : s ++ "" = s.
Proof. induction s as [|c s IH]; [done|]. change (String c (s ++ "") = String c s). by rewrite IH. Qed.

Lemma string_app_assoc a b c : a ++ (b ++ c) = (a ++ b) ++ c.
Proof. induction a as [|x a IH]; [done|]. change (String x (a ++ (b ++ c)) = String x ((a ++ b) ++ c)). by rewrite IH. Qed.

(** ** TrimSpace *)

(** White space of ASCII: \t \n \v \f \r and the blank. *)
Definition is_space (a : ascii) : bool :=
  let n := N_of_ascii a in ((9 <=? n)%N && (n <=? 13)%N) || (n =? 32)%N.

Fixpoint drop_space (l : list ascii) : list ascii :=
  match l with a :: l' => if is_space a then drop_space l' else l | [] => [] end.

Definition TrimSpace (s : string) : string :=
  String.string_of_list_ascii
    (rev (drop_space (rev (drop_space (String.list_ascii_of_string s))))).

Lemma TrimSpace_space c s : is_space c = true → TrimSpace (String c s) = TrimSpace s.
Proof. unfold TrimSpace. simpl. by intros ->. Qed.

Lemma TrimSpace_spaces pre s :
  Forall (λ c, is_space c = true) (String.list_ascii_of_string pre) →
  TrimSpace (pre ++ s) = TrimSpace s.
Proof.
  induction pre as [|c pre IH]; [done|]. intros [Hc Hp]%Forall_cons.
  change (String c pre ++ s) with (String c (pre ++ s)).
  rewrite TrimSpace_space by done. auto.
Qed.

(** ** Split and Join by one byte *)

Fixpoint Split (sep : ascii) (s : string) : list string :=
  match s with
  | EmptyString => [""]
  | String c s =>
    if ascii_dec c sep then "" :: Split sep s
    else match Split sep s with
         | x :: xs => String c x :: xs
         | [] => [String c ""]
         end
  end.

Fixpoint Join (sep : ascii) (l : list string) : string :=
  match l with
  | [] => ""
  | [x] => x
  | x :: xs => x ++ String sep (Join sep xs)
  end.

(** A byte occurs in a string. *)
Fixpoint has_byte (c : ascii) (s : string) : bool :=
  match s with
  | EmptyString => false
  | String d s => if ascii_dec d c then true else has_byte c s
  end.

Lemma has_byte_app c a b : has_byte c (a ++ b) = has_byte c a || has_byte c b.
Proof.
  induction a as [|d a IH]; [done|]. change (String d a ++ b) with (String d (a ++ b)).
  simpl. destruct (ascii_dec d c); [done|]. apply IH.
Qed.

Lemma Split_not_nil sep s : Split sep s ≠ [].
Proof. destruct s as [|c s]; simpl; [done|]. destruct (ascii_dec c sep); [done|]. by destruct (Split sep s). Qed.

Lemma Join_Split sep s : Join sep (Split sep s) = s.
Proof.
  induction s as [|c s IH]; [done|]. simpl.
  pose proof (Split_not_nil sep s). destruct (Split sep s) as [|x xs] eqn:E; [done|].
  destruct (ascii_dec c sep) as [->|].
  - change (String sep (Join sep (x :: xs)) = String sep s). by rewrite IH.
  - rewrite <- IH. by destruct xs.
Qed.

Lemma Split_no_sep sep s x : x ∈ Split sep s → has_byte sep x = false.
Proof.
  revert x. induction s as [|c s IH]; intros x; simpl.
  - by intros ->%list_elem_of_singleton.
  - destruct (ascii_dec c sep) as [->|Hne].
    + intros [->|Hx]%elem_of_cons; auto.
    + pose proof (Split_not_nil sep s). destruct (Split sep s) as [|y ys]; [done|].
      intros [->|Hx]%elem_of_cons; [|apply IH; by right].
      simpl. destruct (ascii_dec c sep); [done|]. apply IH. by left.
Qed.

(** A piece without the separator is split off as it is. *)
Lemma Split_cons sep x s :
  has_byte sep x = false → Split sep (x ++ String sep s) = x :: Split sep s.
Proof.
  induction x as [|c x IH]; simpl; [by destruct (ascii_dec sep sep)|].
  destruct (ascii_dec c sep); [done|]. intros H. by rewrite (IH H).
Qed.

Lemma Split_one sep x : has_byte sep x = false → Split sep x = [x].
Proof.
  induction x as [|c x IH]; simpl; [done|].
  destruct (ascii_dec c sep); [done|]. intros H. by rewrite (IH H).
Qed.

(** ** Index, HasSuffix

    [IndexCut sub s] is [s] cut at the first occurrence of [sub]: what comes
    before it ([s[:i]]) and after it ([s[i+len(sub):]]). *)

Fixpoint strip_prefix (sub s : string) : option string :=
  match sub, s with
  | EmptyString, _ => Some s
  | String a sub, String b s => if ascii_dec a b then strip_prefix sub s else None
  | String _ _, EmptyString => None
  end.

Fixpoint IndexCut (sub s : string) : option (string * string) :=
  match strip_prefix sub s with
  | Some rest => Some ("", rest)
  | None =>
    match s with
    | EmptyString => None
    | String c s => (λ br : string * string, (String c br.1, br.2)) <$> IndexCut sub s
    end
  end.

Definition Contains (s sub : string) : bool :=
  match IndexCut sub s with Some _ => true | None => false end.

Fixpoint HasSuffix (s suf : string) : bool :=
  if bool_decide (s = suf) then true
  else match s with EmptyString => false | String _ s => HasSuffix s suf end.

Lemma strip_prefix_app sub s : strip_prefix sub (sub ++ s) = Some s.
Proof. induction sub as [|c sub IH]; [done|]. simpl. by destruct (ascii_dec c c). Qed.

Lemma strip_prefix_Some sub s rest : strip_prefix sub s = Some rest → s = sub ++ rest.
Proof.
  revert s. induction sub as [|c sub IH]; intros s; simpl; [by intros [= ->]|].
  destruct s as [|d s]; [done|]. destruct (ascii_dec c d) as [->|]; [|done].
  intros H. simpl. by rewrite (IH s H).
Qed.

Lemma IndexCut_Some sub s b r : IndexCut sub s = Some (b, r) → s = b ++ sub ++ r.
Proof.
  revert b r. induction s as [|c s IH]; intros b r; simpl.
  - destruct (strip_prefix sub "") eqn:E; [|done]. intros [= <- <-]. by apply strip_prefix_Some in E.
  - destruct (strip_prefix sub (String c s)) eqn:E.
    + intros [= <- <-]. by apply strip_prefix_Some in E.
    + destruct (IndexCut sub s) as [[b' r']|] eqn:E'; [|done]. simpl. intros [= <- <-].
      by rewrite (IH b' r' eq_refl).
Qed.

(** The first occurrence of one byte. *)
Lemma IndexCut_byte c b r :
  has_byte c b = false → IndexCut (String c "") (b ++ String c r) = Some (b, r).
Proof.
  induction b as [|d b IH]; simpl.
  - by destruct (ascii_dec c c).
  - destruct (ascii_dec d c) as [->|Hne]; [done|]. intros H.
    destruct (ascii_dec c d) as [->|]; [done|]. by rewrite (IH H).
Qed.

(** ** Decimal digits *)

#[local] Open Scope Z_scope.

Definition digit_of (c : ascii) : option Z :=
  let n := Z.of_N (N_of_ascii c) in
  if (48 <=? n) && (n <=? 57) then Some (n - 48) else None.

Definition digit_char (d : Z) : ascii := ascii_of_N (48 + Z.to_N d).

Lemma digit_of_char d : 0 ≤ d < 10 → digit_of (digit_char d) = Some d.
Proof.
  intros Hd.
  assert (d = 0 ∨ d = 1 ∨ d = 2 ∨ d = 3 ∨ d = 4 ∨ d = 5 ∨ d = 6 ∨ d = 7 ∨ d = 8 ∨ d = 9) as Hc by lia.
  by destruct_or! Hc; subst d.
Qed.

(** Two and four digits, as %02d and %04d print numbers that fit. *)
Definition pad2 (z : Z) : string :=
  String (digit_char (z / 10)) (String (digit_char (z mod 10)) "")%string.

Definition pad4 (z : Z) : string :=
  if (0 <=? z) && (z <? 10000) then (pad2 (z / 100) ++ pad2 (z mod 100))%string else pretty z.

(** No byte but a digit occurs in printed numbers. *)
Lemma digit_char_not c d : digit_of c = None → 0 ≤ d < 10 → digit_char d ≠ c.
Proof. intros Hc Hd <-. by rewrite digit_of_char in Hc. Qed.

Lemma has_byte_pad2 c n : digit_of c = None → 0 ≤ n < 100 → has_byte c (pad2 n) = false.
Proof.
  intros Hc Hn. unfold pad2. cbn [has_byte].
  destruct (ascii_dec _ c) as [E|_].
  { exfalso. eapply digit_char_not; [exact Hc| |exact E].
    split; [apply Z.div_pos; lia|apply Z.div_lt_upper_bound; lia]. }
  destruct (ascii_dec _ c) as [E|_]; [|done].
  exfalso. eapply digit_char_not; [exact Hc| |exact E]. apply Z.mod_pos_bound. lia.
Qed.

Lemma has_byte_pad4 c n : digit_of c = None → 0 ≤ n < 10000 → has_byte c (pad4 n) = false.
Proof.
  intros Hc Hn. unfold pad4. assert (((0 <=? n) && (n <? 10000)) = true) as -> by lia.
  rewrite has_byte_app, !has_byte_pad2; try done.
  - apply Z.mod_pos_bound. lia.
  - split; [apply Z.div_pos; lia|apply Z.div_lt_upper_bound; lia].
Qed.

(** The first occurrence of a text whose first byte does not occur before it. *)
Lemma IndexCut_first c sub b r :
  has_byte c b = false → IndexCut (String c sub) (b ++ (String c sub ++ r))%string = Some (b, r).
Proof.
  induction b as [|d b IH]; intros Hb.
  - change (EmptyString ++ (String c sub ++ r))%string with (String c (sub ++ r))%string. simpl.
    destruct (ascii_dec c c); [|done]. by rewrite strip_prefix_app.
  - change (String d b ++ (String c sub ++ r))%string with (String d (b ++ (String c sub ++ r)))%string.
    cbn [has_byte] in Hb. destruct (ascii_dec d c) as [|Hne]; [done|].
    cbn [IndexCut strip_prefix]. destruct (ascii_dec c d) as [->|_]; [done|]. by rewrite (IH Hb).
Qed.

Lemma digit_char_inj d e : 0 ≤ d < 10 → 0 ≤ e < 10 → digit_char d = digit_char e → d = e.
Proof. intros Hd He E. apply (f_equal digit_of) in E. rewrite !digit_of_char in E by done. congruence. Qed.

Lemma pad2_inj a b r r' : 0 ≤ a < 100 → 0 ≤ b < 100 →
  (pad2 a ++ r)%string = (pad2 b ++ r')%string → a = b ∧ r = r'.
Proof.
  intros Ha Hb E. unfold pad2 in E.
  change (String (digit_char (a / 10)) (String (digit_char (a mod 10)) r) =
          String (digit_char (b / 10)) (String (digit_char (b mod 10)) r')) in E.
  injection E as E1 E2 E3. split; [|done].
  apply digit_char_inj in E1; [|split; [apply Z.div_pos; lia|apply Z.div_lt_upper_bound; lia]..].
  apply digit_char_inj in E2; [|apply Z.mod_pos_bound; lia..].
  rewrite (Z.div_mod a 10), (Z.div_mod b 10) by lia. congruence.
Qed.

Lemma pad4_inj a b r r' : 0 ≤ a < 10000 → 0 ≤ b < 10000 →
  (pad4 a ++ r)%string = (pad4 b ++ r')%string → a = b ∧ r = r'.
Proof.
  intros Ha Hb. unfold pad4.
  assert (((0 <=? a) && (a <? 10000)) = true) as -> by lia.
  assert (((0 <=? b) && (b <? 10000)) = true) as -> by lia.
  rewrite <- !string_app_assoc.
  intros [E1 E]%pad2_inj; [|split; [apply Z.div_pos; lia|apply Z.div_lt_upper_bound; lia]..].
  apply pad2_inj in E as [E2 ->]; [|apply Z.mod_pos_bound; lia..].
  split; [|done]. rewrite (Z.div_mod a 100), (Z.div_mod b 100) by lia. congruence.
Qed.
