(* ===== verification/GoFloat.v ===== *)
(** * float64 arithmetic

    The Standard Library's executable IEEE 754 specification ([SpecFloat]) at
    binary64: 53 bits of precision, exponents up to 1024.  Rounding, overflow
    to infinity and NaN behave as in Go.  Go leaves the conversion of an
    out-of-range float64 to an int64 to the implementation: it is the
    parameter [oob]. *)

From Stdlib Require Export Floats.SpecFloat.
From S2P Require Import Prelude.

(** ** float64 *)

Abbreviation float64 := spec_float (only parsing).

Definition f64_of_int (z : Z) : float64 := binary_normalize 53 1024 z 0 false.
Definition f64_mul : float64 → float64 → float64 := SFmul 53 1024.
Definition f64_add : float64 → float64 → float64 := SFadd 53 1024.
Definition f64_sub : float64 → float64 → float64 := SFsub 53 1024.
Definition f64_div : float64 → float64 → float64 := SFdiv 53 1024.
Definition f64_ltb : float64 → float64 → bool := SFltb.

(** [math.Pow(2, float64(k))] for an int [k ≥ 0]: the power of two, exactly,
    or +Inf from 2^1024 on. *)
Definition math_Pow2 (k : Z) : float64 :=
  if k <? 1024 then S754_finite false (2 ^ 52) (k - 52) else S754_infinity false.

(** The value of a finite float64 truncated towards zero. *)
Definition f64_trunc (f : float64) : option Z :=
  match f with
  | S754_zero _ => Some 0
  | S754_finite s m e =>
    let v := if 0 <=? e then Z.pos m * 2 ^ e else Z.pos m / 2 ^ (- e) in
    Some (if s then - v else v)
  | S754_infinity _ | S754_nan => None
  end.

(** The conversion [int64(f)]. *)
Definition f64_to_int64 (oob : float64 → Z) (f : float64) : Z :=
  match f64_trunc f with
  | Some z => if in_int64 z then z else oob f
  | None => oob f
  end.

(** What amd64 (CVTTSD2SQ) and arm64 (FCVTZS) do out of range. *)
Definition oob_amd64 (_ : float64) : Z := int64_min.
Definition oob_arm64 (f : float64) : Z :=
  match f with
  | S754_infinity false | S754_finite false _ _ => int64_max
  | S754_infinity true | S754_finite true _ _ => int64_min
  | _ => 0
  end.

Definition f64_0 : float64 := S754_zero false.
Definition f64_1 : float64 := f64_of_int 1.
Definition f64_2 : float64 := f64_of_int 2.

(** [time.Duration.Seconds] *)
Definition Duration_Seconds (d : Duration) : float64 :=
  let sec := Z.quot d Second in
  let nsec := Z.rem d Second in
  f64_add (f64_of_int sec) (f64_div (f64_of_int nsec) (f64_of_int Second)).

(** ** Exactness of the multiplication by a power of two *)

Lemma shr_1_even m : 0 ≤ m →
  shr_1 (Build_shr_record (2 * m) false false) = Build_shr_record m false false.
Proof. destruct m; [done|done|lia]. Qed.

(** Shifting out zero bits is exact. *)
Lemma shr_exact (p : positive) m : 0 ≤ m →
  SpecFloat.iter_pos shr_1 p (Build_shr_record (m * 2 ^ Z.pos p) false false)
  = Build_shr_record m false false.
Proof.
  revert m. induction p as [p IH|p IH|]; intros m Hm; cbn [SpecFloat.iter_pos].
  - replace (m * 2 ^ Z.pos p~1) with (2 * (m * 2 ^ Z.pos p * 2 ^ Z.pos p)).
    + rewrite shr_1_even by lia. rewrite IH by lia. by apply IH.
    + rewrite (Pos2Z.inj_xI p). replace (2 * Z.pos p + 1) with (Z.pos p + Z.pos p + 1) by lia.
      rewrite !Z.pow_add_r by lia. lia.
  - replace (m * 2 ^ Z.pos p~0) with (m * 2 ^ Z.pos p * 2 ^ Z.pos p).
    + rewrite IH by lia. by apply IH.
    + rewrite (Pos2Z.inj_xO p). replace (2 * Z.pos p) with (Z.pos p + Z.pos p) by lia.
      rewrite Z.pow_add_r by lia. lia.
  - rewrite Z.pow_1_r, Z.mul_comm. by apply shr_1_even.
Qed.

Lemma shr_exact_Z n m e : 0 ≤ n → 0 ≤ m →
  shr (Build_shr_record (m * 2 ^ n) false false) e n = (Build_shr_record m false false, e + n).
Proof.
  intros Hn Hm. destruct n as [|p|p]; [|by cbn; rewrite shr_exact|lia].
  cbn. by rewrite Z.mul_1_r, Z.add_0_r.
Qed.

Lemma digits2_pos_spec m :
  2 ^ (Z.pos (digits2_pos m) - 1) ≤ Z.pos m < 2 ^ Z.pos (digits2_pos m).
Proof.
  induction m as [m IH|m IH|]; cbn [digits2_pos]; [| |done].
  all: rewrite Pos2Z.inj_succ; set (d := Z.pos (digits2_pos m)) in *.
  all: replace (Z.succ d - 1) with ((d - 1) + 1) by lia.
  all: assert (0 ≤ d - 1) by (unfold d; lia).
  all: rewrite Z.pow_succ_r, Z.pow_add_r by lia; lia.
Qed.

Lemma digits2_unique m d : 2 ^ (d - 1) ≤ Z.pos m < 2 ^ d → 0 < d → Zdigits2 (Z.pos m) = d.
Proof.
  intros H Hd. cbn. pose proof (digits2_pos_spec m) as Hs.
  set (k := Z.pos (digits2_pos m)) in *.
  assert (k - 1 < d) by (apply (Z.pow_lt_mono_r_iff 2); lia).
  assert (d - 1 < k) by (apply (Z.pow_lt_mono_r_iff 2); lia). lia.
Qed.

(** Rounding a product whose low bits are zero is exact: a 53-bit mantissa [m]
    followed by [n] zero bits. *)
Lemma round_exact m n e :
  2 ^ 52 ≤ m < 2 ^ 53 → 0 ≤ n → -1074 ≤ e + n →
  binary_round_aux 53 1024 false (m * 2 ^ n) e loc_Exact =
    if e + n <=? 971 then S754_finite false (Z.to_pos m) (e + n) else S754_infinity false.
Proof.
  intros Hm Hn He. unfold binary_round_aux, shr_fexp.
  assert (∀ k ex, 0 ≤ k → -1074 ≤ ex + k → fexp 53 1024 (Zdigits2 (m * 2 ^ k) + ex) - ex = k) as Hf.
  { intros k ex Hk Hex. assert (Zdigits2 (m * 2 ^ k) = 53 + k) as ->.
    - destruct (m * 2 ^ k) as [|q|q] eqn:E; [nia| |nia].
      apply digits2_unique; [|lia]. rewrite <- E.
      replace (53 + k - 1) with (52 + k) by lia. rewrite !Z.pow_add_r by lia. nia.
    - unfold fexp, SpecFloat.emin. lia. }
  rewrite Hf by lia. cbn [shr_record_of_loc].
  rewrite shr_exact_Z by lia. cbn [shr_m loc_of_shr_record round_nearest_even].
  specialize (Hf 0 (e + n)). rewrite Z.mul_1_r in Hf. rewrite Hf by lia. cbn.
  destruct m as [|q|q]; [lia| |lia]. done.
Qed.

(** float64(b) is exact for [0 < b < 2^53]: [b] scaled to a 53-bit mantissa. *)
Lemma f64_of_int_exact b : 0 < b < 2 ^ 53 →
  ∃ s, 0 ≤ s ≤ 52 ∧ 2 ^ 52 ≤ b * 2 ^ s < 2 ^ 53 ∧
       f64_of_int b = S754_finite false (Z.to_pos (b * 2 ^ s)) (- s).
Proof.
  intros Hb. destruct b as [|b|b]; [lia| |lia].
  pose proof (digits2_pos_spec b) as Hs. set (d := Z.pos (digits2_pos b)) in *.
  assert (1 ≤ d) by (unfold d; lia).
  assert (d ≤ 53).
  { assert (d - 1 < 53); [|lia]. apply (Z.pow_lt_mono_r_iff 2); lia. }
  exists (53 - d). split; [lia|].
  assert (2 ^ 53 = 2 ^ d * 2 ^ (53 - d)) as E1 by (rewrite <- Z.pow_add_r by lia; f_equal; lia).
  assert (2 ^ 52 = 2 ^ (d - 1) * 2 ^ (53 - d)) as E2 by (rewrite <- Z.pow_add_r by lia; f_equal; lia).
  assert (0 < 2 ^ (53 - d)) by lia.
  assert (2 ^ 52 ≤ Z.pos b * 2 ^ (53 - d) < 2 ^ 53) as Hr by nia. split; [done|].
  unfold f64_of_int, binary_normalize, binary_round. fold d.
  assert (shl_align b 0 (fexp 53 1024 (d + 0)) = (Z.to_pos (Z.pos b * 2 ^ (53 - d)), - (53 - d))) as ->.
  { unfold fexp, SpecFloat.emin, shl_align.
    replace (Z.max (d + 0 - 53) (3 - 1024 - 53) - 0) with (d - 53) by lia.
    destruct (d - 53) eqn:E; [|lia|].
    - replace (53 - d) with 0 by lia. rewrite Z.mul_1_r. done.
    - f_equal; [|lia]. replace (53 - d) with (Z.pos p) by lia.
      apply Pos2Z.inj. rewrite Z2Pos.id by lia.
      change (PosDef.Pos.iter xO b p) with (shift_pos p b).
      rewrite shift_pos_correct. rewrite Z.mul_comm. done. }
  pose proof (round_exact (Z.pos b * 2 ^ (53 - d)) 0 (- (53 - d))) as Hx.
  rewrite Z.mul_1_r, Z.add_0_r in Hx. rewrite Z2Pos.id by lia. rewrite Hx by lia.
  by replace (- (53 - d) <=? 971) with true by lia.
Qed.

(** float64(b) * 2^k, truncated: the exact product, when it is an int64. *)
Lemma mul_pow2_trunc oob b k : 0 < b < 2 ^ 53 → 0 ≤ k →
  f64_to_int64 oob (f64_mul (f64_of_int b) (math_Pow2 k)) = b * 2 ^ k ∧ b * 2 ^ k ≤ int64_max ∨
  (∃ f, f64_to_int64 oob (f64_mul (f64_of_int b) (math_Pow2 k)) = oob f) ∧ int64_max < b * 2 ^ k.
Proof.
  intros Hb Hk. destruct (f64_of_int_exact b Hb) as (s & Hs & Hm & ->).
  assert (1024 ≤ k → int64_max < b * 2 ^ k) as Hbig.
  { intros. assert (2 ^ 63 ≤ 2 ^ k) by (apply Z.pow_le_mono_r; lia). unfold int64_max. nia. }
  unfold math_Pow2. destruct (Z.ltb_spec k 1024).
  2: { right. split; [|by apply Hbig]. by eexists. }
  unfold f64_mul, SFmul. cbn [xorb].
  rewrite Pos2Z.inj_mul, Z2Pos.id by lia.
  replace (Z.pos (2 ^ 52)) with (2 ^ 52) by done.
  rewrite round_exact by lia.
  replace (- s + (k - 52) + 52) with (k - s) by lia.
  assert (b * 2 ^ s * 2 ^ k = b * 2 ^ k * 2 ^ s) as Ec by lia.
  assert (f64_trunc (S754_finite false (Z.to_pos (b * 2 ^ s)) (k - s)) = Some (b * 2 ^ k)) as Ht.
  { cbn. rewrite Z2Pos.id by lia. f_equal. destruct (Z.leb_spec 0 (k - s)).
    - rewrite <- Z.mul_assoc, <- Z.pow_add_r by lia. do 2 f_equal. lia.
    - replace s with (k + - (k - s)) at 1 by lia. rewrite Z.pow_add_r, Z.mul_assoc by lia.
      apply Z.div_mul. lia. }
  unfold f64_to_int64. destruct (Z.leb_spec (k - s) 971).
  - rewrite Ht. unfold in_int64, int64_min. destruct (Z.leb_spec (b * 2 ^ k) int64_max).
    + left. split; [|done]. replace (- 2 ^ 63 <=? b * 2 ^ k) with true by nia. done.
    + right. split; [|done]. rewrite andb_false_r. by eexists.
  - right. split; [by eexists|]. unfold int64_max.
    assert (2 ^ 63 ≤ 2 ^ k) by (apply Z.pow_le_mono_r; lia). nia.
Qed.

(** float64(b) converts back to [b] for [0 ≤ b < 2^53]. *)
Lemma f64_of_int_trunc oob b : 0 ≤ b < 2 ^ 53 → f64_to_int64 oob (f64_of_int b) = b.
Proof.
  intros Hb. destruct (decide (b = 0)) as [->|]; [done|].
  destruct (f64_of_int_exact b) as (s & Hs & Hm & ->); [lia|].
  unfold f64_to_int64, f64_trunc. rewrite Z2Pos.id by lia.
  assert ((if 0 <=? - s then b * 2 ^ s * 2 ^ (- s) else b * 2 ^ s / 2 ^ (- - s)) = b) as ->.
  { destruct (Z.leb_spec 0 (- s)).
    - replace s with 0 by lia. cbn. lia.
    - rewrite Z.opp_involutive. apply Z.div_mul. lia. }
  by replace (in_int64 b) with true by (unfold in_int64, int64_min, int64_max; lia).
Qed.

(** A whole number of seconds survives the trip through float64. *)
Lemma Duration_Seconds_whole oob n : 0 ≤ n < 2 ^ 53 →
  f64_to_int64 oob (Duration_Seconds (n * Second)) = n.
Proof.
  intros Hn. unfold Duration_Seconds.
  rewrite Z.quot_mul by done. rewrite Z.rem_mul by done.
  destruct (decide (n = 0)) as [->|]; [by vm_compute|].
  replace (f64_add (f64_of_int n) (f64_div (f64_of_int 0) (f64_of_int Second)))
    with (f64_of_int n).
  - by apply f64_of_int_trunc.
  - destruct (f64_of_int_exact n) as (s & _ & _ & ->); [lia|done].
Qed.
