(* ===== verification/Retry.v ===== *)
(** * Retry policies (retry.go)

    [ExponentialBackoff.NextDelay] computes in float64 (file GoFloat); the
    parameter [oob] is the platform's conversion of an out-of-range float64. *)

From S2P Require Import Prelude GoErrors GoFloat.

(** ** ExponentialBackoff *)

Record ExponentialBackoff := mkBackoff {
  Base : Duration;
  Max : Duration;
  JitterFraction : float64;
  Rand : option (unit → float64);
}.

(** The configured value, or the default when it is not positive. *)
Definition effective_base (e : ExponentialBackoff) : Duration :=
  if Base e <=? 0 then Second else Base e.
Definition effective_max (e : ExponentialBackoff) : Duration :=
  if Max e <=? 0 then Hour else Max e.
Definition effective_jitter (e : ExponentialBackoff) : float64 :=
  let jitter := JitterFraction e in
  let jitter := if f64_ltb jitter f64_0 then f64_0 else jitter in
  if f64_ltb f64_1 jitter then f64_1 else jitter.

(** The delay before jitter: lines 55-59 of NextDelay. *)
Definition raw_delay (oob : float64 → Z) (base maxDelay : Duration) (attempt : Z) : Duration :=
  let exp := math_Pow2 (attempt - 1) in
  let d := f64_to_int64 oob (f64_mul (f64_of_int base) exp) in
  if (d <=? 0) || (maxDelay <? d) then maxDelay else d.

(** [NextDelay]; [rand_Float64] is what [rand.Float64()] returns when no
    [Rand] is configured. *)
Definition NextDelay (oob : float64 → Z) (rand_Float64 : float64)
    (e : ExponentialBackoff) (attempt : Z) (_ : option error) : Duration :=
  let base := effective_base e in
  let maxDelay := effective_max e in
  let jitter := effective_jitter e in
  let attempt := if attempt <? 1 then 1 else attempt in
  let d := raw_delay oob base maxDelay attempt in
  if f64_ltb f64_0 jitter then
    let r := match Rand e with Some rnd => rnd () | None => rand_Float64 end in
    let spread := f64_mul (f64_sub (f64_mul f64_2 r) f64_1) jitter in
    let d := f64_to_int64 oob (f64_mul (f64_of_int d) (f64_add f64_1 spread)) in
    let d := Z.max d 0 in
    Z.min d maxDelay
  else d.

(** 0.2 as a float64 literal: 0x3FC999999999999A. *)
Definition f64_0_2 : float64 := S754_finite false 7205759403792794 (-55).

Definition DefaultRetryPolicy : ExponentialBackoff :=
  {| Base := Second; Max := Hour; JitterFraction := f64_0_2; Rand := None |}.

(** ** Properties *)

Lemma effective_max_pos e : 0 < effective_max e.
Proof. unfold effective_max, Hour, Minute, Second. destruct (Z.leb_spec (Max e) 0); lia. Qed.

Lemma effective_base_pos e : 0 < effective_base e.
Proof. unfold effective_base, Second. destruct (Z.leb_spec (Base e) 0); lia. Qed.

Lemma raw_delay_bounds oob base maxDelay attempt :
  0 < maxDelay → 0 < raw_delay oob base maxDelay attempt ≤ maxDelay.
Proof.
  intros. unfold raw_delay. destruct (_ || _) eqn:E; [lia|]. bools. lia.
Qed.

(** C28: Whatever the configuration (zero, negative or NaN fields included), the
    attempt number, the random draw and the platform's float-to-int
    conversion, the delay is never negative and never exceeds the effective
    maximum, jitter included: [Max], or one hour when [Max] is not positive. *)
Theorem NextDelay_bounds oob rnd e attempt err :
  0 ≤ NextDelay oob rnd e attempt err ≤ (if Max e <=? 0 then Hour else Max e).
Proof.
  change (if Max e <=? 0 then Hour else Max e) with (effective_max e).
  pose proof (effective_max_pos e). unfold NextDelay.
  destruct (f64_ltb _ _); [lia|].
  pose proof (raw_delay_bounds oob (effective_base e) (effective_max e)
    (if attempt <? 1 then 1 else attempt)). lia.
Qed.

(** The reference definition of the delay before jitter. *)
Definition backoff_spec (base maxDelay : Duration) (attempt : Z) : Duration :=
  Z.min maxDelay (base * 2 ^ (attempt - 1)).

Lemma raw_delay_spec oob base maxDelay attempt :
  0 < base < 2 ^ 53 → 0 < maxDelay ≤ int64_max → 1 ≤ attempt →
  (∀ f, oob f ≤ 0 ∨ maxDelay ≤ oob f) →
  raw_delay oob base maxDelay attempt = backoff_spec base maxDelay attempt.
Proof.
  intros Hb Hm Ha Hoob. unfold raw_delay, backoff_spec.
  destruct (mul_pow2_trunc oob base (attempt - 1)) as [[-> ?]|[[f ->] ?]]; [done|lia| |].
  - assert (0 < base * 2 ^ (attempt - 1)) by (apply Z.mul_pos_pos; lia).
    destruct (Z.leb_spec (base * 2 ^ (attempt - 1)) 0); [lia|].
    destruct (Z.ltb_spec maxDelay (base * 2 ^ (attempt - 1))); simpl; lia.
  - rewrite Z.min_l by lia. destruct (Hoob f).
    + by replace (oob f <=? 0) with true by lia.
    + destruct (Z.leb_spec (oob f) 0); [done|].
      destruct (Z.ltb_spec maxDelay (oob f)); simpl; lia.
Qed.

(** Without jitter the float64 computation agrees with the documented
    formula [min(Max, Base * 2^(attempt-1))] over the integers, for every
    attempt number (overflow included), for bases below 2^53 ns (104 days).
    [Hoob] is what the platform does out of range: a conversion that yields a
    non-positive number (amd64) or one at least [Max] (arm64). *)
Theorem NextDelay_exact oob rnd e attempt err
  (Hj : f64_ltb f64_0 (effective_jitter e) = false)
  (Hb : effective_base e < 2 ^ 53)
  (Hm : effective_max e ≤ int64_max)
  (Hoob : ∀ f, oob f ≤ 0 ∨ effective_max e ≤ oob f) :
  NextDelay oob rnd e attempt err =
    backoff_spec (effective_base e) (effective_max e) (Z.max 1 attempt).
Proof.
  unfold NextDelay. rewrite Hj.
  replace (if attempt <? 1 then 1 else attempt) with (Z.max 1 attempt)
    by (destruct (Z.ltb_spec attempt 1); lia).
  pose proof (effective_base_pos e). pose proof (effective_max_pos e).
  apply raw_delay_spec; [lia|lia|lia|done].
Qed.

Definition no_jitter : ExponentialBackoff :=
  {| Base := Second; Max := 10 * Second; JitterFraction := f64_0; Rand := None |}.

Lemma NextDelay_exact_witness :
  NextDelay oob_amd64 f64_0 no_jitter 3 None = backoff_spec Second (10 * Second) 3 ∧
  backoff_spec Second (10 * Second) 3 = 4 * Second.
Proof.
  split; [|reflexivity].
  apply (NextDelay_exact oob_amd64 f64_0 no_jitter 3 None).
  - reflexivity.
  - vm_compute. reflexivity.
  - vm_compute. discriminate.
  - intros f. left. vm_compute. discriminate.
Defined.
