(* ===== verification/Message.v ===== *)
(** * Messages and the parameters of the storage interface (message.go,
      storage.go)

    The data that crosses the boundaries between producer, storage adapter,
    engine and handlers.  A Go string field whose "" means "absent" is kept a
    string; a Go map is an [option (gmap string string)] so that nil and the
    empty map are distinct; a [Status] read from a row is an [option Status]
    because Go's zero value "" is not one of the six states. *)

From S2P Require Import Prelude GoErrors.

Abbreviation MessageID := string (only parsing).
Abbreviation Headers := (option (gmap string string)) (only parsing).

(** ** Status *)

Inductive Status :=
| StatusCreated | StatusHandling | StatusSuccess
| StatusFailed | StatusRetrying | StatusDead.

#[export] Instance Status_eq_dec : EqDecision Status.
Proof. solve_decision. Defined.

(** The text of the constants, which the status columns hold. *)
Definition status_text (s : Status) : string :=
  match s with
  | StatusCreated => "CREATED" | StatusHandling => "HANDLING" | StatusSuccess => "SUCCESS"
  | StatusFailed => "FAILED" | StatusRetrying => "RETRYING" | StatusDead => "DEAD"
  end.

#[export] Instance status_text_inj : Inj (=) (=) status_text.
Proof. by intros [] []. Qed.

Definition Status_code (s : Status) : nat :=
  match s with
  | StatusCreated => 0 | StatusHandling => 1 | StatusSuccess => 2
  | StatusFailed => 3 | StatusRetrying => 4 | StatusDead => 5
  end.
Definition Status_of_code (n : nat) : Status :=
  match n with
  | 0 => StatusCreated | 1 => StatusHandling | 2 => StatusSuccess
  | 3 => StatusFailed | 4 => StatusRetrying | _ => StatusDead
  end%nat.

#[export] Instance Status_countable : Countable Status.
Proof. refine (inj_countable' Status_code Status_of_code _). by intros []. Defined.

Definition Terminal (s : Status) : bool :=
  bool_decide (s = StatusSuccess) || bool_decide (s = StatusDead).

(** The states the claim query selects: [status IN ('CREATED','RETRYING')]. *)
Definition pending (s : Status) : bool :=
  bool_decide (s = StatusCreated) || bool_decide (s = StatusRetrying).

(** ** Messages *)

Record Message := mkMessage {
  msg_Type : string;
  msg_Payload : bytes;
  msg_Headers : Headers;
  msg_IdempotencyKey : string;
  msg_ScheduledAt : Time;
  msg_MaxAttempts : Z;
}.

Record InboundMessage := mkInbound {
  im_ID : MessageID;
  im_Type : string;
  im_Payload : bytes;
  im_Headers : Headers;
  im_IdempotencyKey : string;
  im_Attempt : Z;
  im_MaxAttempts : Z;
  im_EnqueuedAt : Time;
  im_ScheduledAt : Time;
  im_LastError : string;
  im_Status : option Status;
}.

Record Transition := mkTransition {
  tr_MessageID : MessageID;
  tr_Seq : Z;
  tr_From : option Status;
  tr_To : Status;
  tr_Attempt : Z;
  tr_Error : string;
  tr_WorkerID : string;
  tr_At : Time;
}.

Inductive Outcome := OutcomeSuccess | OutcomeRetry | OutcomeDead | OutcomeCanceled.

#[export] Instance Outcome_eq_dec : EqDecision Outcome.
Proof. solve_decision. Defined.

(** ** Parameters of Storage *)

Record EnqueueParams := mkEnqueueParams {
  ep_EventType : string;
  ep_Payload : bytes;
  ep_Headers : Headers;
  ep_IdempotencyKey : string;
  ep_MaxAttempts : Z;
  ep_ProcessAt : Time;
}.

Record ClaimParams := mkClaimParams {
  cp_WorkerID : string;
  cp_Batch : Z;
  cp_Lease : Duration;
  cp_EventTypes : list string;
}.

Record FailParams := mkFailParams {
  fp_MessageID : MessageID;
  fp_Attempt : Z;
  fp_WorkerID : string;
  fp_Err : string;
  fp_NextRetryAt : Time;
  fp_Dead : bool;
}.

Record BatchSucceedParam := mkBatchSucceedParam {
  bs_MessageID : MessageID;
  bs_Attempt : Z;
  bs_WorkerID : string;
}.

(** Point-in-time queue depth. *)
Record Stats := mkStats {
  ByStatus : gmap Status Z;
  ByEventType : gmap string (gmap Status Z);
  SampledAt : Time;
}.

(** The caller's transaction: [Tx{}] is "no transaction", a [Tx] made by this
    adapter's WrapTx is its open transaction, and any other inner value is a
    transaction of some other adapter. *)
Inductive Tx := TxZero | TxOwn | TxForeign.

Definition Tx_IsZero (t : Tx) : bool :=
  match t with TxZero => true | _ => false end.
