(* ===== verification/World.v ===== *)
(** * The database and the environment the adapters run in

    [DB] is what the migrations create: the [tickr_messages] and
    [tickr_history] tables, and the notifications delivered on the
    [tickr_msg] channel.  A SQL statement is a function of the current
    database ([stmt]); the adapter's Go code runs statements one at a time in
    a state monad over [World].

    What the Go code does not control is an [Env], indexed by a tick that
    every statement and every random draw advances: the two clocks
    ([time.Now()] of the process, [now()] of the server), which statements
    fail and whether they took effect before failing, which rows other
    transactions hold locked, the order in which an unordered query
    enumerates rows, and what [rand] and [uuid] return. *)

From S2P Require Import Prelude GoErrors Message.

(** A UUID in its canonical text form, whose text order is the column's. *)
Abbreviation UUID := string (only parsing).

(** ** Rows *)

Record row := mkRow {
  r_event_type : string;
  r_payload : bytes;
  r_headers : gmap string string;
  r_idempotency_key : option string;
  r_status : Status;
  r_attempt : Z;
  r_max_attempts : Z;
  r_process_at : Time;
  r_shard : Z;
  r_claimed_until : option Time;
  r_claimed_by : option string;
  r_last_error : option string;
  r_created_at : Time;
  r_updated_at : Time;
  r_completed_at : option Time;
}.

#[export] Instance row_eq_dec : EqDecision row.
Proof. solve_decision. Defined.

(** Column updates, one per group of columns the statements SET together. *)
Definition with_status (s : Status) (r : row) : row :=
  mkRow (r_event_type r) (r_payload r) (r_headers r) (r_idempotency_key r) s
    (r_attempt r) (r_max_attempts r) (r_process_at r) (r_shard r) (r_claimed_until r)
    (r_claimed_by r) (r_last_error r) (r_created_at r) (r_updated_at r) (r_completed_at r).
Definition with_attempt (n : Z) (r : row) : row :=
  mkRow (r_event_type r) (r_payload r) (r_headers r) (r_idempotency_key r) (r_status r)
    n (r_max_attempts r) (r_process_at r) (r_shard r) (r_claimed_until r)
    (r_claimed_by r) (r_last_error r) (r_created_at r) (r_updated_at r) (r_completed_at r).
Definition with_process_at (t : Time) (r : row) : row :=
  mkRow (r_event_type r) (r_payload r) (r_headers r) (r_idempotency_key r) (r_status r)
    (r_attempt r) (r_max_attempts r) t (r_shard r) (r_claimed_until r)
    (r_claimed_by r) (r_last_error r) (r_created_at r) (r_updated_at r) (r_completed_at r).
Definition with_claim (until : option Time) (by_ : option string) (r : row) : row :=
  mkRow (r_event_type r) (r_payload r) (r_headers r) (r_idempotency_key r) (r_status r)
    (r_attempt r) (r_max_attempts r) (r_process_at r) (r_shard r) until
    by_ (r_last_error r) (r_created_at r) (r_updated_at r) (r_completed_at r).
Definition with_last_error (e : option string) (r : row) : row :=
  mkRow (r_event_type r) (r_payload r) (r_headers r) (r_idempotency_key r) (r_status r)
    (r_attempt r) (r_max_attempts r) (r_process_at r) (r_shard r) (r_claimed_until r)
    (r_claimed_by r) e (r_created_at r) (r_updated_at r) (r_completed_at r).
Definition with_updated_at (t : Time) (r : row) : row :=
  mkRow (r_event_type r) (r_payload r) (r_headers r) (r_idempotency_key r) (r_status r)
    (r_attempt r) (r_max_attempts r) (r_process_at r) (r_shard r) (r_claimed_until r)
    (r_claimed_by r) (r_last_error r) (r_created_at r) t (r_completed_at r).
Definition with_completed_at (t : option Time) (r : row) : row :=
  mkRow (r_event_type r) (r_payload r) (r_headers r) (r_idempotency_key r) (r_status r)
    (r_attempt r) (r_max_attempts r) (r_process_at r) (r_shard r) (r_claimed_until r)
    (r_claimed_by r) (r_last_error r) (r_created_at r) (r_updated_at r) t.

Record hist := mkHist {
  h_message_id : UUID;
  h_seq : Z;
  h_from_status : option Status;
  h_to_status : Status;
  h_attempt : Z;
  h_error : option string;
  h_worker_id : option string;
  h_at : Time;
}.

Record DB := mkDB {
  d_msgs : gmap UUID row;
  d_hist : list hist;
  d_notify : list string;
}.

Definition set_msgs (m : gmap UUID row) (db : DB) : DB := mkDB m (d_hist db) (d_notify db).
Definition set_hist (h : list hist) (db : DB) : DB := mkDB (d_msgs db) h (d_notify db).
Definition set_notify (n : list string) (db : DB) : DB := mkDB (d_msgs db) (d_hist db) n.

(** ** SQL building blocks *)

(** UPDATE ... SET f WHERE p, DELETE ... WHERE p, and the affected rows. *)
Definition update_where (p : UUID → row → bool) (f : row → row) (m : gmap UUID row)
    : gmap UUID row :=
  map_imap (λ i r, Some (if p i r then f r else r)) m.

Definition delete_where (p : UUID → row → bool) (m : gmap UUID row) : gmap UUID row :=
  map_imap (λ i r, if p i r then None else Some r) m.

Definition select_where (p : UUID → row → bool) (m : gmap UUID row) : list (UUID * row) :=
  filter (λ ir, p ir.1 ir.2 = true) (map_to_list m).

(** MAX(seq) over the history of one message, NULL when there is none. *)
Definition max_seq (id : UUID) (h : list hist) : option Z :=
  foldr (λ x acc, if bool_decide (h_message_id x = id)
                  then Some (match acc with Some n => Z.max n (h_seq x) | None => h_seq x end)
                  else acc) None h.

(** COALESCE(MAX(seq), 0) + 1 *)
Definition next_seq (id : UUID) (h : list hist) : Z := default 0 (max_seq id h) + 1.

(** SQL comparisons with a nullable column are true only on non-NULL. *)
Definition lt_opt (o : option Time) (t : Time) : bool :=
  match o with Some x => x <? t | None => false end.
Definition gt_opt (o : option Time) (t : Time) : bool :=
  match o with Some x => t <? x | None => false end.
Definition eq_opt (o : option string) (s : string) : bool :=
  match o with Some x => bool_decide (x = s) | None => false end.

(** ** Environment and world *)

Inductive Fault :=
| NoFault
| FailBefore (e : error)      (* reported, and the statement had no effect *)
| FailAfter (e : error).      (* reported, but the statement took effect *)

Record Env := mkEnv {
  e_now : nat → Time;                       (* time.Now() *)
  e_dbnow : nat → Time;                     (* now() *)
  e_fault : nat → Fault;
  e_locked : nat → gset UUID;               (* rows locked by other transactions *)
  e_scan : nat → list UUID → list UUID;     (* enumeration order *)
  e_rand : nat → Z;                         (* rand.IntN before reduction *)
  e_v7 : nat → option UUID;                 (* uuid.NewV7 *)
  e_v4 : nat → UUID;                        (* uuid.New *)
  e_uuid_Parse : string → option UUID;      (* uuid.Parse *)
  e_uuid_err : string → error;              (* the error uuid.Parse returns *)
  e_batch_exhausted : option error;         (* BatchResults.Exec past the last query *)
}.

(** What the code relies on: an enumeration order is a permutation, and the
    UUIDs the library generates parse back to themselves. *)
Class EnvOK (env : Env) : Prop := {
  scan_perm : ∀ n l, e_scan env n l ≡ₚ l;
  parse_v7 : ∀ n u, e_v7 env n = Some u → e_uuid_Parse env u = Some u;
  parse_v4 : ∀ n, e_uuid_Parse env (e_v4 env n) = Some (e_v4 env n);
}.

(** The caller's open transaction: the tick it began at, the rows it inserted, the notifications it
    holds back until commit, whether an error aborted it, and the committed
    rows its reads see when its isolation level gives it a snapshot (only the
    MySQL adapter's reads take one). *)
Record TxState := mkTxState {
  t_begin : nat;
  t_msgs : gmap UUID row;
  t_notify : list string;
  t_aborted : bool;
  t_snap : option (gmap UUID row);
}.

Record World := mkWorld {
  w_db : DB;                     (* committed state *)
  w_tx : option TxState;         (* the caller's open transaction *)
  w_tick : nat;
}.

Definition set_db (db : DB) (w : World) : World := mkWorld db (w_tx w) (w_tick w).
Definition set_tx (t : option TxState) (w : World) : World := mkWorld (w_db w) t (w_tick w).
Definition tick (w : World) : World := mkWorld (w_db w) (w_tx w) (S (w_tick w)).

(** ** Programs

    The adapter's Go code is a [prog]: a tree of atomic actions on the world,
    one per statement, clock reading or random draw.  [run] executes a program
    alone; file Fleet interleaves the actions of many. *)
Inductive prog (A : Type) : Type :=
| Ret (a : A)
| Act {B : Type} (c : State World B) (k : B → prog A).
Arguments Ret {A} a.
Arguments Act {A B} c k.

Abbreviation M := prog (only parsing).

Fixpoint prog_bind {A B} (k : A → prog B) (p : prog A) : prog B :=
  match p with
  | Ret a => k a
  | Act c k' => Act c (λ b, prog_bind k (k' b))
  end.

#[export] Instance prog_mret : MRet prog := λ A a, Ret a.
#[export] Instance prog_mbind : MBind prog := λ A B k p, prog_bind k p.

Definition atomically {A} (c : State World A) : prog A := Act c Ret.

Fixpoint run {A} (p : prog A) : State World A := λ w,
  match p with
  | Ret a => (a, w)
  | Act c k => let '(b, w') := c w in run (k b) w'
  end.

(** ** Statements *)

Record SqlEnv := mkSqlEnv {
  s_now : Time;
  s_locked : gset UUID;
  s_scan : list UUID → list UUID;
}.

Definition stmt (A : Type) : Type := SqlEnv → DB → error + (A * DB).

(** A statement run at tick [n] in a transaction begun at tick [b]: [now()] is
    the time the transaction began. *)
Definition sql_env (env : Env) (b n : nat) : SqlEnv :=
  {| s_now := e_dbnow env b; s_locked := e_locked env n; s_scan := e_scan env n |}.

(** Running one statement under a fault: the reported result and the
    database it leaves. *)
Definition run_stmt {A} (env : Env) (b n : nat) (s : stmt A) (db : DB) : (error + A) * DB :=
  match e_fault env n with
  | FailBefore e => (inl e, db)
  | NoFault =>
    match s (sql_env env b n) db with
    | inl e => (inl e, db)
    | inr (a, db') => (inr a, db')
    end
  | FailAfter e =>
    match s (sql_env env b n) db with
    | inl e' => (inl e', db)
    | inr (_, db') => (inl e, db')
    end
  end.

(** Where a statement runs: on the pool (auto-commit) or in the caller's
    transaction. *)
Inductive querier := poolQuerier | txQuerier.

Definition tx_view (db : DB) (t : TxState) : DB :=
  {| d_msgs := d_msgs db ∪ t_msgs t; d_hist := d_hist db;
     d_notify := d_notify db ++ t_notify t |}.

Definition tx_update (db : DB) (view : DB) (failed : bool) (t : TxState) : TxState :=
  {| t_begin := t_begin t;
     t_msgs := d_msgs view ∖ d_msgs db;
     t_notify := drop (length (d_notify db)) (d_notify view);
     t_aborted := failed;
     t_snap := t_snap t |}.

Definition err_tx_closed : error := sentinel "tx is closed".
Definition err_tx_aborted : error :=
  errorString "current transaction is aborted, commands ignored until end of transaction block".

Definition pool_action {A} (env : Env) (s : stmt A) : State World (error + A) := λ w,
  let '(res, db) := run_stmt env (w_tick w) (w_tick w) s (w_db w) in
  (res, set_db db (tick w)).

(** A statement that fails inside a PostgreSQL transaction aborts it. *)
Definition tx_action {A} (env : Env) (s : stmt A) : State World (error + A) := λ w,
  match w_tx w with
  | None => (inl err_tx_closed, tick w)
  | Some t =>
    if t_aborted t then (inl err_tx_aborted, tick w)
    else
      let '(res, view) := run_stmt env (t_begin t) (w_tick w) s (tx_view (w_db w) t) in
      let failed := match res with inl _ => true | inr _ => false end in
      (res, set_tx (Some (tx_update (w_db w) view failed t)) (tick w))
  end.

Definition exec_pool {A} (env : Env) (s : stmt A) : M (error + A) :=
  atomically (pool_action env s).
Definition exec_tx {A} (env : Env) (s : stmt A) : M (error + A) :=
  atomically (tx_action env s).

Definition exec {A} (env : Env) (q : querier) (s : stmt A) : M (error + A) :=
  match q with poolQuerier => exec_pool env s | txQuerier => exec_tx env s end.

(** The caller's side of its transaction. *)
Definition caller_begin (w : World) : World :=
  set_tx (Some (mkTxState (w_tick w) ∅ [] false None)) w.
Definition caller_rollback : World → World := set_tx None.
Definition caller_commit (w : World) : World :=
  match w_tx w with
  | Some t => if t_aborted t then set_tx None w
              else set_tx None (set_db (tx_view (w_db w) t) w)
  | None => w
  end.

(** [time.Now()], [rand.IntN(n)] *)
Definition time_Now (env : Env) : M Time := atomically (λ w, (e_now env (w_tick w), w)).
Definition rand_IntN (env : Env) (n : Z) : M Z :=
  atomically (λ w, (e_rand env (w_tick w) mod n, tick w)).

(** An explicit transaction of the adapter over a pipelined batch: Begin, one
    Exec per entry of [execs] (an entry past the queued statements reports
    [e_batch_exhausted]), Close, Commit.  Nothing is applied unless every step
    succeeds. *)
Fixpoint batch_execs (env : Env) (b : nat) (queued : list (stmt unit)) (execs : nat) (n : nat)
    (db : DB) : (option error * DB) * nat :=
  match execs with
  | O => ((None, db), n)
  | S k =>
    match queued with
    | [] =>
      match e_batch_exhausted env with
      | Some e => ((Some e, db), S n)
      | None => batch_execs env b [] k (S n) db
      end
    | s :: queued =>
      match run_stmt env b n s db with
      | (inl e, _) => ((Some e, db), S n)
      | (inr _, db') => batch_execs env b queued k (S n) db'
      end
    end
  end.

Inductive BatchStep := AtBegin | AtExec | AtClose | AtCommit.

Definition batch_action (env : Env) (queued : list (stmt unit)) (execs : nat)
    : State World (option (BatchStep * error)) := λ w,
  let w1 := tick w in
  match e_fault env (w_tick w) with
  | FailBefore e | FailAfter e => (Some (AtBegin, e), w1)
  | NoFault =>
    let '((err, db'), n) := batch_execs env (w_tick w) queued execs (w_tick w1) (w_db w1) in
    let w2 := mkWorld (w_db w1) (w_tx w1) n in
    match err with
    | Some e => (Some (AtExec, e), w2)
    | None =>
      match e_fault env n with
      | FailBefore e | FailAfter e => (Some (AtClose, e), tick w2)
      | NoFault =>
        match e_fault env (S n) with
        | NoFault => (None, set_db db' (tick (tick w2)))
        | FailBefore e => (Some (AtCommit, e), tick (tick w2))
        | FailAfter e => (Some (AtCommit, e), set_db db' (tick (tick w2)))
        end
      end
    end
  end.

Definition pool_batch (env : Env) (queued : list (stmt unit)) (execs : nat)
    : M (option (BatchStep * error)) := atomically (batch_action env queued execs).

(** ** Lemmas *)

Lemma lookup_update_where p f (m : gmap UUID row) i :
  update_where p f m !! i = (λ r, if p i r then f r else r) <$> m !! i.
Proof. unfold update_where. rewrite map_lookup_imap. by destruct (m !! i). Qed.

Lemma lookup_delete_where p (m : gmap UUID row) i :
  delete_where p m !! i = m !! i ≫= λ r, if p i r then None else Some r.
Proof. unfold delete_where. by rewrite map_lookup_imap. Qed.

Lemma dom_update_where p f m : dom (update_where p f m) = dom m.
Proof.
  apply set_eq. intros i. rewrite !elem_of_dom, lookup_update_where.
  by destruct (m !! i); simpl; split; intros [? ?].
Qed.

Lemma elem_of_select_where p m i r :
  (i, r) ∈ select_where p m ↔ m !! i = Some r ∧ p i r = true.
Proof.
  unfold select_where. rewrite list_elem_of_filter, elem_of_map_to_list; simpl. tauto.
Qed.

Lemma NoDup_fst_select_where p m : NoDup (select_where p m).*1.
Proof.
  unfold select_where. eapply sublist_NoDup; [apply (NoDup_fst_map_to_list m)|].
  apply fmap_sublist, sublist_filter.
Qed.

Lemma max_seq_ge id h x : x ∈ h → h_message_id x = id → ∃ n, max_seq id h = Some n ∧ h_seq x ≤ n.
Proof.
  induction h as [|y h IH]; intros Hx Hid; [by apply elem_of_nil in Hx|]. simpl.
  apply elem_of_cons in Hx as [->|Hx].
  - rewrite bool_decide_eq_true_2 by done.
    destruct (max_seq id h); eexists; split; try done; lia.
  - destruct (IH Hx Hid) as (n & -> & ?). case_bool_decide; eexists; split; try done; lia.
Qed.

(** A new sequence number is above every existing one of the message. *)
Lemma next_seq_gt id h x : x ∈ h → h_message_id x = id → h_seq x < next_seq id h.
Proof.
  intros Hx Hid. destruct (max_seq_ge id h x Hx Hid) as (n & Hn & ?).
  unfold next_seq. rewrite Hn. simpl. lia.
Qed.

(** ** Reasoning about programs

    [safe I R p Q]: every atomic action of [p], started in a world where [I]
    holds, re-establishes [I] and relates the worlds before and after by [R];
    and [p] returns values in [Q].  Nothing is assumed about what happens
    between two actions except that [I] still holds, so the judgement covers
    interleaved executions. *)

Lemma run_bind {A B} (p : prog A) (k : A → prog B) w :
  run (p ≫= k) w = let '(a, w') := run p w in run (k a) w'.
Proof.
  unfold mbind, prog_mbind. revert w. induction p as [a|C c k' IH]; intros w; simpl; [done|].
  destruct (c w). apply IH.
Qed.

Section safe.
Context (I : World → Prop) (R : World → World → Prop).

Fixpoint safe {A} (p : prog A) (Q : A → Prop) : Prop :=
  match p with
  | Ret a => Q a
  | Act c k => ∀ w, I w → I (c w).2 ∧ R w (c w).2 ∧ safe (k (c w).1) Q
  end.

Lemma safe_ret {A} (a : A) (Q : A → Prop) : Q a → safe (mret a : prog A) Q.
Proof. done. Qed.

Lemma safe_bind {A B} (p : prog A) (k : A → prog B) (P : A → Prop) (Q : B → Prop) :
  safe p P → (∀ a, P a → safe (k a) Q) → safe (p ≫= k) Q.
Proof.
  unfold mbind, prog_mbind. intros Hp Hk.
  induction p as [a|C c k' IH]; simpl in *; [by apply Hk|].
  intros w Hw. destruct (Hp w Hw) as (? & ? & ?). auto.
Qed.

(** The usual case, where the continuation needs no postcondition. *)
Lemma safe_seq {A B} (p : prog A) (k : A → prog B) (Q : B → Prop) :
  safe p (λ _, True) → (∀ a, safe (k a) Q) → safe (p ≫= k) Q.
Proof. intros. by eapply safe_bind. Qed.

Lemma safe_atomically {A} (c : State World A) (Q : A → Prop) :
  (∀ w, I w → I (c w).2 ∧ R w (c w).2 ∧ Q (c w).1) → safe (atomically c) Q.
Proof. done. Qed.

(** Running a safe program alone. *)
Lemma safe_run {A} (p : prog A) (Q : A → Prop) w :
  PreOrder R → safe p Q → I w → I (run p w).2 ∧ R w (run p w).2 ∧ Q (run p w).1.
Proof.
  intros HR. revert w. induction p as [a|C c k IH]; intros w Hp Hw; simpl in *; [done|].
  destruct (Hp w Hw) as (H1 & H2 & H3). destruct (c w) as [b w'].
  destruct (IH b w' H3 H1) as (? & ? & ?). split_and!; try done. by etrans.
Qed.
End safe.

(** An invariant and a preorder that the bookkeeping respects. *)
Class WorldRel (I : World → Prop) (R : World → World → Prop) : Prop := {
  wr_preorder :: PreOrder R;
  wr_tick : ∀ w, I w → I (tick w) ∧ R w (tick w);
}.

Section actions.
Context (env : Env) (I : World → Prop) (R : World → World → Prop) `{!WorldRel I R}.

Abbreviation ok w w' := (I w' ∧ R w w').

Lemma safe_time_Now : safe I R (time_Now env) (λ _, True).
Proof. intros w Hw. simpl. split_and!; done. Qed.

Lemma safe_rand n : safe I R (rand_IntN env n) (λ _, True).
Proof. intros w Hw. destruct (wr_tick w Hw). done. Qed.

(** A statement whose effect on the committed database is allowed, in a
    transaction begun at any tick up to now. *)
Definition stmt_in {A} (s : stmt A) : Prop :=
  ∀ w b a db', I w → (b <= w_tick w)%nat →
    s (sql_env env b (w_tick w)) (w_db w) = inr (a, db') → ok w (set_db db' (tick w)).

Lemma run_stmt_in {A} (s : stmt A) b w :
  stmt_in s → I w → (b <= w_tick w)%nat →
  ok w (set_db (run_stmt env b (w_tick w) s (w_db w)).2 (tick w)).
Proof.
  intros Hs Hw Hb. unfold run_stmt.
  assert (ok w (set_db (w_db w) (tick w))) as Hid by apply (wr_tick w Hw).
  destruct (e_fault env (w_tick w)); [| done |].
  all: destruct (s _ _) as [?|[a db']] eqn:E; [done|by eapply Hs].
Qed.

Lemma safe_exec_pool {A} (s : stmt A) : stmt_in s → safe I R (exec_pool env s) (λ _, True).
Proof.
  intros Hs w Hw. unfold pool_action. pose proof (run_stmt_in s (w_tick w) w Hs Hw (le_n _)) as [? ?].
  by destruct (run_stmt _ _ _ _ _) as [res db].
Qed.

(** A statement whose effect on the caller's transaction is allowed, whether
    it is reported as failed or not. *)
Definition stmt_in_tx {A} (s : stmt A) : Prop :=
  ∀ w t view failed, I w → w_tx w = Some t →
    view = tx_view (w_db w) t ∨
    (∃ a, s (sql_env env (t_begin t) (w_tick w)) (tx_view (w_db w) t) = inr (a, view)) →
    ok w (set_tx (Some (tx_update (w_db w) view failed t)) (tick w)).

Lemma safe_exec_tx {A} (s : stmt A) : stmt_in_tx s → safe I R (exec_tx env s) (λ _, True).
Proof.
  intros Hs w Hw. pose proof (wr_tick w Hw) as [Hi Hr].
  assert (∀ v, I v ∧ R w v → I v ∧ R w v ∧ True) as aux by tauto.
  unfold tx_action. destruct (w_tx w) as [t|] eqn:Ht; [|done].
  destruct (t_aborted t); [done|].
  unfold run_stmt. destruct (e_fault env (w_tick w)); simpl; [|by apply aux, Hs; auto|].
  all: destruct (s _ _) as [e'|[a view]] eqn:E; simpl; apply aux, Hs; eauto.
Qed.

Lemma safe_exec {A} q (s : stmt A) :
  stmt_in s → stmt_in_tx s → safe I R (exec env q s) (λ _, True).
Proof.
  intros Hs Ht. destruct q; [by apply safe_exec_pool|by apply safe_exec_tx].
Qed.

Lemma wr_ticks db tx n m : (n <= m)%nat → I (mkWorld db tx n) →
  ok (mkWorld db tx n) (mkWorld db tx m).
Proof.
  intros Hle Hi. replace m with (m - n + n)%nat by lia. generalize (m - n)%nat as k.
  induction k as [|k [IH1 IH2]]; [done|].
  destruct (wr_tick (mkWorld db tx (k + n)) IH1) as [? ?]. split; [done|]. by etrans.
Qed.

(** The statements of a batch, one after the other. *)
Lemma batch_execs_in b queued execs n db tx :
  Forall stmt_in queued → I (mkWorld db tx n) → (b <= n)%nat →
  let r := batch_execs env b queued execs n db in
  ok (mkWorld db tx n) (mkWorld r.1.2 tx r.2) ∧ (n <= r.2)%nat.
Proof.
  revert queued n db. induction execs as [|k IH]; intros queued n db Hq Hi Hb; simpl; [done|].
  destruct (wr_ticks db tx n (S n) ltac:(lia) Hi) as [Hi1 Hr1].
  destruct queued as [|s queued].
  - destruct (e_batch_exhausted env); simpl; [by split; [|lia]|].
    destruct (IH [] (S n) db Hq Hi1 ltac:(lia)) as [[? ?] ?]. split_and!; [done| |lia]. by etrans.
  - apply Forall_cons in Hq as [Hs Hq].
    pose proof (run_stmt_in s b (mkWorld db tx n) Hs Hi Hb) as Hrun. simpl in Hrun.
    destruct (run_stmt env b n s db) as [[e|u] db'] eqn:E; simpl; [by split; [|lia]|].
    destruct Hrun as [Hi' Hr'].
    destruct (IH queued (S n) db' Hq Hi' ltac:(lia)) as [[? ?] ?]. split_and!; [done| |lia].
    etrans; [apply Hr'|done].
Qed.

Lemma safe_pool_batch queued execs :
  Forall stmt_in queued → safe I R (pool_batch env queued execs) (λ _, True).
Proof.
  intros Hq [db tx n] Hw.
  assert (∀ v, I v ∧ R (mkWorld db tx n) v → I v ∧ R (mkWorld db tx n) v ∧ True) as aux by tauto.
  assert (∀ m, (n <= m)%nat → ok (mkWorld db tx n) (mkWorld db tx m)) as Ht
    by (intros; by apply wr_ticks).
  unfold batch_action; simpl.
  destruct (e_fault env n); simpl; [|apply aux, Ht; simpl; lia..].
  destruct (Ht (S n) ltac:(lia)) as [Hi1 Hr1].
  pose proof (batch_execs_in n queued execs (S n) db tx Hq Hi1 ltac:(lia)) as [[H1 H2] H3].
  destruct (batch_execs env n queued execs (S n) db) as [[err db'] m]; simpl in *.
  destruct err as [e|]; simpl; [apply aux, Ht; simpl; lia|].
  assert (ok (mkWorld db tx n) (mkWorld db' tx (S (S m)))) as Hc.
  { destruct (wr_ticks db' tx m (S (S m)) ltac:(lia) H1) as [? ?]. split; [done|].
    etrans; [apply Hr1|]. by etrans. }
  destruct (e_fault env m); simpl; [|apply aux, Ht; simpl; lia..].
  destruct (e_fault env (S m)); simpl; [by apply aux|apply aux, Ht; simpl; lia|by apply aux].
Qed.
End actions.
