(* ===== verification/Postgres.v ===== *)
(** * The PostgreSQL adapter: statements and operations
      (storage/postgres/postgres.go)

    First the SQL constants of the adapter, each as a [stmt] (a function of
    the database); then the methods of [Store] that run them.  Rows of
    [tickr_messages] are keyed by id.  In the partitioned schema the primary
    key is (id, created_at); ids are generated unique, so the model keeps one
    row per id in both schemas. *)

From S2P Require Import Prelude GoErrors GoFloat Message World.

Definition numClaimShards : Z := 16.

Inductive HistoryPolicy := HistoryFull | HistoryOff.

Record Store := mkStore {
  partitioned : bool;
  notifierDisabled : bool;
  historyPolicy : HistoryPolicy;
}.

Definition WithHistoryPolicy (p : HistoryPolicy) (s : Store) : Store :=
  mkStore (partitioned s) (notifierDisabled s) p.
Definition WithoutNotifier (s : Store) : Store :=
  mkStore (partitioned s) true (historyPolicy s).
Definition WithPartitioning (s : Store) : Store :=
  mkStore true (notifierDisabled s) (historyPolicy s).

Definition New (opts : list (Store → Store)) : Store :=
  foldl (λ s opt, opt s) (mkStore false false HistoryFull) opts.

Definition history_on (s : Store) : bool :=
  match historyPolicy s with HistoryFull => true | HistoryOff => false end.

(** ** Helpers *)

Definition encodeHeaders (h : Headers) : gmap string string := default ∅ h.
Definition decodeHeaders (b : gmap string string) : Headers :=
  if bool_decide (b = ∅) then None else Some b.

Definition scanMessage (id : UUID) (r : row) : InboundMessage :=
  {| im_ID := id;
     im_Type := r_event_type r;
     im_Payload := r_payload r;
     im_Headers := decodeHeaders (r_headers r);
     im_IdempotencyKey := coalesce_empty (r_idempotency_key r);
     im_Attempt := r_attempt r;
     im_MaxAttempts := r_max_attempts r;
     im_EnqueuedAt := r_created_at r;
     im_ScheduledAt := r_process_at r;
     im_LastError := coalesce_empty (r_last_error r);
     im_Status := Some (r_status r) |}.

Definition err_unique_violation : error := errorString "duplicate key value violates unique constraint".
Definition err_int_range : error := errorString "integer out of range".

(** ** SQL *)

Module SQL.

(** The row an INSERT of the enqueue statements writes. *)
Definition new_row (et : string) (payload : bytes) (hdrs : gmap string string)
    (idem : option string) (maxAttempts : Z) (processAt : Time) (shard : Z) (now : Time) : row :=
  {| r_event_type := et; r_payload := payload; r_headers := hdrs; r_idempotency_key := idem;
     r_status := StatusCreated; r_attempt := 0; r_max_attempts := maxAttempts;
     r_process_at := processAt; r_shard := shard; r_claimed_until := None;
     r_claimed_by := None; r_last_error := None; r_created_at := now; r_updated_at := now;
     r_completed_at := None |}.

(** Two rows collide in the idempotency index: [(event_type, idempotency_key)],
    partial on non-NULL keys, extended with created_at when partitioned. *)
Definition idem_collide (part : bool) (r r' : row) : bool :=
  bool_decide (r_event_type r = r_event_type r') &&
  match r_idempotency_key r, r_idempotency_key r' with
  | Some k, Some k' => bool_decide (k = k')
  | _, _ => false
  end &&
  (negb part || (r_created_at r =? r_created_at r')).

Definition idem_conflict (part : bool) (r : row) (m : gmap UUID row) : bool :=
  negb (bool_decide (select_where (λ _ r', idem_collide part r r') m = [])).

(** INSERT ... ON CONFLICT DO NOTHING of one row: [None] on a conflict. *)
Definition insert_row (part : bool) (id : UUID) (r : row) (m : gmap UUID row)
    : error + option (gmap UUID row) :=
  if int4_max <? r_max_attempts r then inl err_int_range
  else if idem_conflict part r m then inr None
  else match m !! id with
       | Some _ => inl err_unique_violation
       | None => inr (Some (<[id := r]> m))
       end.

(** enqueueSQL, enqueueSQLPartitioned *)
Definition enqueueSQL (part : bool) (id : UUID) (et : string) (payload : bytes)
    (hdrs : gmap string string) (idem : option string) (maxAttempts : Z) (processAt : Time)
    (shard : Z) : stmt (option (UUID * row)) := λ se db,
  let r := new_row et payload hdrs idem maxAttempts processAt shard (s_now se) in
  match insert_row part id r (d_msgs db) with
  | inl e => inl e
  | inr None => inr (None, db)
  | inr (Some m) => inr (Some (id, r), set_msgs m db)
  end.

(** One row of the unnest()-ed arrays of the batch insert. *)
Record batch_row := mkBatchRow {
  br_id : UUID; br_event_type : string; br_payload : bytes; br_headers : gmap string string;
  br_idem : string; br_max : Z; br_process_at : Time; br_shard : Z;
}.

Fixpoint insert_rows (part : bool) (now : Time) (rows : list batch_row) (m : gmap UUID row)
    : error + (list (UUID * row) * gmap UUID row) :=
  match rows with
  | [] => inr ([], m)
  | b :: rows =>
    let r := new_row (br_event_type b) (br_payload b) (br_headers b)
               (nullif_empty (br_idem b)) (br_max b) (br_process_at b) (br_shard b) now in
    match insert_row part (br_id b) r m with
    | inl e => inl e
    | inr None => insert_rows part now rows m
    | inr (Some m') =>
      match insert_rows part now rows m' with
      | inl e => inl e
      | inr (ins, m'') => inr ((br_id b, r) :: ins, m'')
      end
    end
  end.

(** batchInsertSQL, batchInsertPartitionedSQL *)
Definition batchInsertSQL (part : bool) (rows : list batch_row) : stmt (list (UUID * row)) := λ se db,
  match insert_rows part (s_now se) rows (d_msgs db) with
  | inl e => inl e
  | inr (ins, m) => inr (ins, set_msgs m db)
  end.

(** The rows of a query in the order the server enumerates them. *)
Definition scan_rows (se : SqlEnv) (l : list (UUID * row)) : list (UUID * row) :=
  omap (λ i, (λ r, (i, r)) <$> (list_to_map l : gmap UUID row) !! i) (s_scan se l.*1).

(** findByIdemSQL, read with QueryRow: the first row, if any. *)
Definition findByIdemSQL (et key : string) : stmt (option (UUID * row)) := λ se db,
  let p := λ (_ : UUID) r, bool_decide (r_event_type r = et) && eq_opt (r_idempotency_key r) key in
  inr (head (scan_rows se (select_where p (d_msgs db))), db).

(** *** claimSQL *)

Definition claim_eligible (now : Time) (types : option (list string)) (shard : option Z)
    (locked : gset UUID) (id : UUID) (r : row) : bool :=
  pending (r_status r) &&
  match shard with None => true | Some s => r_shard r =? s end &&
  (r_process_at r <=? now) &&
  match types with None => true | Some l => bool_decide (r_event_type r ∈ l) end &&
  bool_decide (id ∉ locked).

Definition claim_key (ir : UUID * row) : Time * UUID := (r_process_at ir.2, ir.1).

Definition claim_before (a b : UUID * row) : Prop := key_le (claim_key a) (claim_key b).

#[export] Instance claim_before_dec : RelDecision claim_before.
Proof. intros a b. unfold claim_before. apply _. Defined.

(** ORDER BY process_at, id LIMIT $2 FOR UPDATE SKIP LOCKED *)
Definition claim_select (now : Time) (types : option (list string)) (shard : option Z)
    (locked : gset UUID) (batch : Z) (m : gmap UUID row) : list (UUID * row) :=
  take (Z.to_nat batch)
    (merge_sort claim_before (select_where (claim_eligible now types shard locked) m)).

Definition claim_row (now : Time) (worker : string) (leaseSec : Z) (r : row) : row :=
  with_updated_at now (with_claim (Some (now + leaseSec * Second)) (Some worker)
    (with_attempt (r_attempt r + 1) (with_status StatusHandling r))).

Definition claimSQL (types : option (list string)) (batch : Z) (worker : string)
    (leaseSec : Z) (shard : option Z) : stmt (list (UUID * row)) := λ se db,
  let sel := claim_select (s_now se) types shard (s_locked se) batch (d_msgs db) in
  if bool_decide (Exists (λ ir, r_attempt ir.2 = int4_max) sel) then inl err_int_range
  else
    let f := claim_row (s_now se) worker leaseSec in
    let p := λ i (_ : row), bool_decide (i ∈ sel.*1) in
    inr (scan_rows se (prod_map id f <$> sel), set_msgs (update_where p f (d_msgs db)) db).

(** *** Acknowledgement *)

(** WHERE id = $1 AND status = 'HANDLING' AND attempt = $2 *)
Definition held (id : UUID) (attempt : Z) (i : UUID) (r : row) : bool :=
  bool_decide (i = id) && bool_decide (r_status r = StatusHandling) && (r_attempt r =? attempt).

(** The row an UPDATE of one id matches (RETURNING id, attempt). *)
Definition matched (p : UUID → row → bool) (id : UUID) (m : gmap UUID row) : option row :=
  match m !! id with
  | Some r => if p id r then Some r else None
  | None => None
  end.

Definition success_row (now : Time) (r : row) : row :=
  with_updated_at now (with_completed_at (Some now) (with_last_error None
    (with_claim None None (with_status StatusSuccess r)))).

Definition retry_row (now : Time) (err : string) (at_ : Time) (r : row) : row :=
  with_updated_at now (with_process_at at_ (with_last_error (Some err)
    (with_claim None None (with_status StatusRetrying r)))).

Definition dead_row (now : Time) (err : string) (r : row) : row :=
  with_updated_at now (with_completed_at (Some now) (with_last_error (Some err)
    (with_claim None None (with_status StatusDead r)))).

Definition release_row (now : Time) (reason : string) (r : row) : row :=
  with_updated_at now (with_last_error (Some reason) (with_process_at now
    (with_attempt (Z.max 0 (r_attempt r - 1))
      (with_claim None None (with_status StatusRetrying r))))).

Definition hist_row (id : UUID) (seq : Z) (from : option Status) (to : Status) (attempt : Z)
    (err worker : string) (now : Time) : hist :=
  {| h_message_id := id; h_seq := seq; h_from_status := from; h_to_status := to;
     h_attempt := attempt; h_error := nullif_empty err; h_worker_id := nullif_empty worker;
     h_at := now |}.

(** The conditional UPDATE common to the acknowledgement statements. *)
Definition ack (id : UUID) (attempt : Z) (f : row → row) (db : DB) : DB :=
  set_msgs (update_where (held id attempt) f (d_msgs db)) db.

Definition succeedNoHistorySQL (id : UUID) (attempt : Z) : stmt unit := λ se db,
  inr ((), ack id attempt (success_row (s_now se)) db).

Definition succeedSQL (id : UUID) (attempt : Z) (worker : string) : stmt unit := λ se db,
  let h := match matched (held id attempt) id (d_msgs db) with
           | Some r => [hist_row id (next_seq id (d_hist db)) (Some StatusHandling) StatusSuccess
                          (r_attempt r) "" worker (s_now se)]
           | None => []
           end in
  inr ((), set_hist (d_hist db ++ h) (ack id attempt (success_row (s_now se)) db)).

(** failRetrySQL and failDeadSQL: the HANDLING→FAILED row is unconditional, the
    FAILED→to row is written when the UPDATE matched. *)
Definition fail_history (id : UUID) (attempt : Z) (to : Status) (err worker : string)
    (now : Time) (db : DB) : list hist :=
  let seq := next_seq id (d_hist db) in
  hist_row id seq (Some StatusHandling) StatusFailed attempt err worker now ::
  match matched (held id attempt) id (d_msgs db) with
  | Some r => [hist_row id (seq + 1) (Some StatusFailed) to (r_attempt r) err worker now]
  | None => []
  end.

Definition failRetryNoHistorySQL (id : UUID) (attempt : Z) (err : string) (at_ : Time)
    : stmt unit := λ se db, inr ((), ack id attempt (retry_row (s_now se) err at_) db).

Definition failDeadNoHistorySQL (id : UUID) (attempt : Z) (err : string) : stmt unit := λ se db,
  inr ((), ack id attempt (dead_row (s_now se) err) db).

Definition failRetrySQL (id : UUID) (attempt : Z) (err : string) (at_ : Time) (worker : string)
    : stmt unit := λ se db,
  let h := fail_history id attempt StatusRetrying err worker (s_now se) db in
  inr ((), set_hist (d_hist db ++ h) (ack id attempt (retry_row (s_now se) err at_) db)).

Definition failDeadSQL (id : UUID) (attempt : Z) (err worker : string) : stmt unit := λ se db,
  let h := fail_history id attempt StatusDead err worker (s_now se) db in
  inr ((), set_hist (d_hist db ++ h) (ack id attempt (dead_row (s_now se) err) db)).

Definition releaseShutdownNoHistorySQL (id : UUID) (attempt : Z) (reason : string)
    : stmt unit := λ se db, inr ((), ack id attempt (release_row (s_now se) reason) db).

(** The history row carries the attempt RETURNING yields: the decremented one. *)
Definition releaseShutdownSQL (id : UUID) (attempt : Z) (reason worker : string)
    : stmt unit := λ se db,
  let f := release_row (s_now se) reason in
  let h := match matched (held id attempt) id (d_msgs db) with
           | Some r => [hist_row id (next_seq id (d_hist db)) (Some StatusHandling) StatusRetrying
                          (r_attempt (f r)) reason worker (s_now se)]
           | None => []
           end in
  inr ((), set_hist (d_hist db ++ h) (ack id attempt f db)).

(** WHERE id = $1 AND status = 'HANDLING' AND claimed_by = $2 *)
Definition owned (id : UUID) (worker : string) (i : UUID) (r : row) : bool :=
  bool_decide (i = id) && bool_decide (r_status r = StatusHandling) &&
  eq_opt (r_claimed_by r) worker.

Definition extend_row (now until : Time) (r : row) : row :=
  with_updated_at now (with_claim (Some until) (r_claimed_by r) r).

(** Returns RowsAffected. *)
Definition extendSQL (id : UUID) (worker : string) (until : Time) : stmt Z := λ se db,
  inr (Z.of_nat (length (select_where (owned id worker) (d_msgs db))),
       set_msgs (update_where (owned id worker) (extend_row (s_now se) until) (d_msgs db)) db).

Definition appendHistorySQL (id : UUID) (from : option Status) (to : Status) (attempt : Z)
    (err worker : string) : stmt unit := λ se db,
  inr ((), set_hist (d_hist db ++
    [hist_row id (next_seq id (d_hist db)) from to attempt err worker (s_now se)]) db).

Definition historySQL (id : UUID) : stmt (list hist) := λ se db,
  inr (merge_sort (le_on h_seq)
         (filter (λ h, h_message_id h = id) (d_hist db)), db).

(** *** Administration *)

Definition completed (r : row) : Time := default 0 (r_completed_at r).

Definition listDeadSQL (et : string) (after : Time) (limit : Z) : stmt (list (UUID * row)) := λ se db,
  let p := λ (_ : UUID) r, bool_decide (r_status r = StatusDead) &&
    (bool_decide (et = ""%string) || bool_decide (r_event_type r = et)) &&
    gt_opt (r_completed_at r) after in
  inr (take (Z.to_nat limit)
         (merge_sort (le_on (λ ir : UUID * row, - completed ir.2))
            (scan_rows se (select_where p (d_msgs db)))), db).

Definition requeue_row (now processAt : Time) (r : row) : row :=
  with_updated_at now (with_last_error None (with_completed_at None
    (with_process_at processAt (with_attempt 0 (with_status StatusCreated r))))).

Definition is_dead (id : UUID) (i : UUID) (r : row) : bool :=
  bool_decide (i = id) && bool_decide (r_status r = StatusDead).

Definition requeueSQL (id : UUID) (processAt : Time) : stmt Z := λ se db,
  inr (Z.of_nat (length (select_where (is_dead id) (d_msgs db))),
       set_msgs (update_where (is_dead id) (requeue_row (s_now se) processAt) (d_msgs db)) db).

Definition lease_expired_text : string := " [lease expired]".

Definition reclaim_row (now : Time) (r : row) : row :=
  with_updated_at now (with_process_at now
    (with_last_error (Some (coalesce_empty (r_last_error r) ++ lease_expired_text)%string)
      (with_claim None None (with_status StatusRetrying r)))).

Definition lease_expired (now : Time) (locked : gset UUID) (i : UUID) (r : row) : bool :=
  bool_decide (r_status r = StatusHandling) && lt_opt (r_claimed_until r) now &&
  bool_decide (i ∉ locked).

(** The sub-SELECT has a LIMIT and no ORDER BY: the server's order decides. *)
Definition reclaim_select (se : SqlEnv) (limit : Z) (m : gmap UUID row) : list UUID :=
  take (Z.to_nat limit)
    (s_scan se (select_where (lease_expired (s_now se) (s_locked se)) m).*1).

Definition reclaimSQL (limit : Z) : stmt Z := λ se db,
  let ids := reclaim_select se limit (d_msgs db) in
  inr (Z.of_nat (length ids),
       set_msgs (update_where (λ i _, bool_decide (i ∈ ids)) (reclaim_row (s_now se)) (d_msgs db)) db).

Definition purgeable (before : Time) (_ : UUID) (r : row) : bool :=
  Terminal (r_status r) && lt_opt (r_completed_at r) before.

Definition purge_select (se : SqlEnv) (before : Time) (limit : Z) (m : gmap UUID row)
    : list UUID :=
  (take (Z.to_nat limit)
    (merge_sort (le_on (λ ir : UUID * row, completed ir.2))
      (scan_rows se (select_where (purgeable before) m)))).*1.

Definition purgeSQL (before : Time) (limit : Z) : stmt Z := λ se db,
  let ids := purge_select se before limit (d_msgs db) in
  inr (Z.of_nat (length ids),
       set_msgs (delete_where (λ i _, bool_decide (i ∈ ids)) (d_msgs db)) db).

Definition hist_key (h : hist) : UUID * Z := (h_message_id h, h_seq h).

Definition purgeHistorySQL (before : Time) (limit : Z) : stmt Z := λ se db,
  let sel := take (Z.to_nat limit)
    (merge_sort (le_on h_at) (filter (λ h, h_at h < before) (d_hist db))) in
  let keys := hist_key <$> sel in
  let del := λ h, bool_decide (hist_key h ∈ keys) in
  inr (Z.of_nat (length (filter (λ h, del h = true) (d_hist db))),
       set_hist (filter (λ h, del h = false) (d_hist db)) db).

(** SELECT event_type, status, count of rows GROUP BY event_type, status *)
Definition statsSQL : stmt (list (string * Status * Z)) := λ se db,
  let counts : gmap (string * Status) Z :=
    map_fold (λ _ r acc, partial_alter (λ o, Some (default 0 o + 1))
                           (r_event_type r, r_status r) acc) ∅ (d_msgs db) in
  inr (map_to_list counts, db).

Definition notifySQL (payload : string) : stmt unit := λ se db,
  inr ((), set_notify (d_notify db ++ [payload]) db).

End SQL.

(** ** Operations of Store *)

Section Store.
Context (env : Env) (s : Store).

(** [s.querier(tx)]: another adapter's Tx falls back to the pool. *)
Definition querier_of (tx : Tx) : querier :=
  if Tx_IsZero tx then poolQuerier
  else match tx with TxOwn => txQuerier | _ => poolQuerier end.

Definition newID : M UUID := atomically (λ w,
  (match e_v7 env (w_tick w) with Some u => u | None => e_v4 env (w_tick w) end, tick w)).

Definition pickShard : M Z := rand_IntN env numClaimShards.

Definition Notify (tx : Tx) (eventType : string) : M (option error) :=
  r ← exec env (querier_of tx) (SQL.notifySQL eventType);
  mret (match r with
        | inl e => Some (Errorf_w "tickr/postgres: pg_notify" e)
        | inr _ => None
        end).

Definition notifyEnqueue (tx : Tx) (eventType : string) : M (option error) :=
  if notifierDisabled s then mret None else Notify tx eventType.

Definition findByIdempotency (q : querier) (eventType key : string)
    : M (error + InboundMessage) :=
  r ← exec env q (SQL.findByIdemSQL eventType key);
  mret (match r with
        | inl e => inl (Errorf_w "tickr/postgres: fetch by idempotency key" e)
        | inr None => inl (Errorf_w "tickr/postgres: fetch by idempotency key" pgx_ErrNoRows)
        | inr (Some (id, r)) => inr (scanMessage id r)
        end).

Definition dup_error (m : InboundMessage) (p : EnqueueParams) : error :=
  ErrDuplicate (im_ID m) (ep_EventType p) (ep_IdempotencyKey p).

(** The INSERT of Enqueue and what follows it. *)
Definition enqueue_insert (tx : Tx) (q : querier) (id : UUID) (p : EnqueueParams)
    (maxAttempts : Z) (processAt : Time) : M (option InboundMessage * option error) :=
  shard ← pickShard;
  r ← exec env q (SQL.enqueueSQL (partitioned s) id (ep_EventType p) (ep_Payload p)
        (encodeHeaders (ep_Headers p)) (nullif_empty (ep_IdempotencyKey p))
        maxAttempts processAt shard);
  match r with
  | inr (Some (id, r)) =>
    nerr ← notifyEnqueue tx (ep_EventType p);
    mret (Some (scanMessage id r), nerr)
  | inl e => mret (None, Some (Errorf_w "tickr/postgres: enqueue" e))
  | inr None =>
    if bool_decide (ep_IdempotencyKey p = ""%string) then
      mret (None, Some (errorString
        "tickr/postgres: enqueue returned no rows but no idempotency key was set"))
    else
      ex ← findByIdempotency q (ep_EventType p) (ep_IdempotencyKey p);
      mret (match ex with
            | inl e => (None, Some e)
            | inr m => (Some m, Some (dup_error m p))
            end)
  end.

Definition Enqueue (tx : Tx) (p : EnqueueParams) : M (option InboundMessage * option error) :=
  let q := querier_of tx in
  id ← newID;
  now ← time_Now env;
  let processAt := if IsZero (ep_ProcessAt p) then now else ep_ProcessAt p in
  let maxAttempts := if ep_MaxAttempts p <=? 0 then 10 else ep_MaxAttempts p in
  if partitioned s && negb (bool_decide (ep_IdempotencyKey p = ""%string)) then
    ex ← findByIdempotency q (ep_EventType p) (ep_IdempotencyKey p);
    match ex with
    | inr m => mret (Some m, Some (dup_error m p))
    | inl e =>
      if is_NoRows (Some e) then enqueue_insert tx q id p maxAttempts processAt
      else mret (None, Some e)
    end
  else enqueue_insert tx q id p maxAttempts processAt.

(** The parallel arrays of EnqueueBatch, one row per input. *)
Fixpoint batch_rows (now : Time) (ps : list EnqueueParams) : M (list SQL.batch_row) :=
  match ps with
  | [] => mret []
  | p :: ps =>
    id ← newID;
    shard ← pickShard;
    rest ← batch_rows now ps;
    mret (SQL.mkBatchRow id (ep_EventType p) (ep_Payload p) (encodeHeaders (ep_Headers p))
      (ep_IdempotencyKey p)
      (if ep_MaxAttempts p <=? 0 then 10 else ep_MaxAttempts p)
      (if IsZero (ep_ProcessAt p) then now else ep_ProcessAt p) shard :: rest)
  end.

Definition uuid_Nil : UUID := "00000000-0000-0000-0000-000000000000".

(** [inserted]: the returned rows indexed by their parsed id. *)
Definition inserted_map (rows : list (UUID * row)) : gmap UUID InboundMessage :=
  foldl (λ acc ir, let m := scanMessage ir.1 ir.2 in
           <[default uuid_Nil (e_uuid_Parse env (im_ID m)) := m]> acc) ∅ rows.

(** Reconstruct the output in input order.  The error component is the one of
    an early return, which leaves the remaining entries nil. *)
Fixpoint batch_output (q : querier) (ins : gmap UUID InboundMessage)
    (items : list (UUID * EnqueueParams)) (i : Z) (firstDup : option error)
    : M (list (option InboundMessage) * option error * option error) :=
  match items with
  | [] => mret ([], None, firstDup)
  | (id, p) :: rest =>
    match ins !! id with
    | Some m =>
      '(out, fatal, dup) ← batch_output q ins rest (i + 1) firstDup;
      mret (Some m :: out, fatal, dup)
    | None =>
      let nils := replicate (length items) None in
      if bool_decide (ep_IdempotencyKey p = ""%string) then
        mret (nils, Some (errorString ("tickr/postgres: enqueue batch item " ++ pretty i
          ++ ": no rows returned but no idempotency key set")%string), firstDup)
      else
        ex ← findByIdempotency q (ep_EventType p) (ep_IdempotencyKey p);
        match ex with
        | inl e => mret (nils, Some e, firstDup)
        | inr m =>
          let firstDup := match firstDup with
                          | Some e => Some e | None => Some (dup_error m p) end in
          '(out, fatal, dup) ← batch_output q ins rest (i + 1) firstDup;
          mret (Some m :: out, fatal, dup)
        end
    end
  end.

Definition EnqueueBatch (tx : Tx) (ps : list EnqueueParams)
    : M (list (option InboundMessage) * option error) :=
  match ps with
  | [] => mret ([], None)
  | p0 :: _ =>
    now ← time_Now env;
    rows ← batch_rows now ps;
    let q := querier_of tx in
    r ← exec env q (SQL.batchInsertSQL (partitioned s) rows);
    match r with
    | inl e => mret ([], Some (Errorf_w "tickr/postgres: enqueue batch" e))
    | inr ret =>
      let ins := inserted_map ret in
      '(out, fatal, dup) ←
        batch_output q ins (zip (SQL.br_id <$> rows) ps) 0 None;
      match fatal with
      | Some e => mret (out, Some e)
      | None =>
        if negb (bool_decide (ins = ∅)) && negb (notifierDisabled s) then
          nerr ← notifyEnqueue tx (ep_EventType p0);
          mret (out, match nerr with Some e => Some e | None => dup end)
        else mret (out, dup)
      end
    end
  end.

(** *** Claim *)

Definition claimQuery (types : option (list string)) (batch : Z) (worker : string)
    (leaseSec : Z) (shard : option Z) : M (list InboundMessage * option error) :=
  r ← exec_pool env (SQL.claimSQL types batch worker leaseSec shard);
  mret (match r with
        | inl e => ([], Some (Errorf_w "tickr/postgres: claim" e))
        | inr rows => ((λ ir, scanMessage ir.1 ir.2) <$> rows, None)
        end).

Definition appendHistoryBatch (msgs : list InboundMessage) (to : Status) (errStr worker : string)
    : M (option error) :=
  match msgs with
  | [] => mret None
  | _ =>
    let queued := omap (λ m, (λ mid, SQL.appendHistorySQL mid None to (im_Attempt m) errStr worker)
                               <$> e_uuid_Parse env (im_ID m)) msgs in
    r ← pool_batch env queued (length msgs);
    mret (match r with
          | None => None
          | Some (AtBegin, e) => Some (Errorf_w "tickr/postgres: history batch begin" e)
          | Some (_, e) => Some e
          end)
  end.

(** [leaseSec := int(p.Lease.Seconds())], 30 when the lease is zero. *)
Definition lease_seconds (lease : Duration) : Z :=
  if lease =? 0 then 30 else f64_to_int64 oob_amd64 (Duration_Seconds lease).

Definition Claim (p : ClaimParams) : M (list InboundMessage * option error) :=
  let batch := if cp_Batch p <=? 0 then 1 else cp_Batch p in
  let leaseSec := lease_seconds (cp_Lease p) in
  let types := match cp_EventTypes p with [] => None | l => Some l end in
  shard ← pickShard;
  '(out1, err1) ← claimQuery types batch (cp_WorkerID p) leaseSec (Some shard);
  match err1 with
  | Some e => mret ([], Some e)
  | None =>
    '(out, err) ←
      match out1 with
      | [] => claimQuery types batch (cp_WorkerID p) leaseSec None
      | _ => mret (out1, None)
      end;
    match err with
    | Some e => mret ([], Some e)
    | None =>
      if negb (bool_decide (out = [])) && history_on s then
        herr ← appendHistoryBatch out StatusHandling "" (cp_WorkerID p);
        mret (out, Errorf_w "tickr/postgres: claim history" <$> herr)
      else mret (out, None)
    end
  end.

(** *** Acknowledgement *)

Definition BatchSucceed (params : list BatchSucceedParam) : M (option error) :=
  match params with
  | [] => mret None
  | _ =>
    let queued := omap (λ p,
      (λ mid, if history_on s then SQL.succeedSQL mid (bs_Attempt p) (bs_WorkerID p)
              else SQL.succeedNoHistorySQL mid (bs_Attempt p))
        <$> e_uuid_Parse env (bs_MessageID p)) params in
    r ← pool_batch env queued (length params);
    mret (match r with
          | None => None
          | Some (AtBegin, e) => Some (Errorf_w "tickr/postgres: batch succeed begin" e)
          | Some (AtExec, e) => Some (Errorf_w "tickr/postgres: batch succeed exec" e)
          | Some (AtClose, e) => Some (Errorf_w "tickr/postgres: batch succeed close" e)
          | Some (AtCommit, e) => Some (Errorf_w "tickr/postgres: batch succeed commit" e)
          end)
  end.

Definition err_bad_id (pfx : string) (id : MessageID) : error :=
  Errorf_w (pfx ++ ": bad id")%string (e_uuid_err env id).

Definition exec_err (pfx : string) {A} (st : stmt A) : M (option error) :=
  r ← exec_pool env st;
  mret (match r with inl e => Some (Errorf_w pfx e) | inr _ => None end).

Definition Succeed (id : MessageID) (attempt : Z) (workerID : string) : M (option error) :=
  match e_uuid_Parse env id with
  | None => mret (Some (err_bad_id "tickr/postgres: succeed" id))
  | Some mid =>
    if history_on s
    then exec_err "tickr/postgres: succeed" (SQL.succeedSQL mid attempt workerID)
    else exec_err "tickr/postgres: succeed" (SQL.succeedNoHistorySQL mid attempt)
  end.

Definition Fail_ (p : FailParams) : M (option error) :=
  match e_uuid_Parse env (fp_MessageID p) with
  | None => mret (Some (err_bad_id "tickr/postgres: fail" (fp_MessageID p)))
  | Some mid =>
    exec_err "tickr/postgres: fail"
      (if negb (history_on s) then
         if fp_Dead p then SQL.failDeadNoHistorySQL mid (fp_Attempt p) (fp_Err p)
         else SQL.failRetryNoHistorySQL mid (fp_Attempt p) (fp_Err p) (fp_NextRetryAt p)
       else if fp_Dead p then SQL.failDeadSQL mid (fp_Attempt p) (fp_Err p) (fp_WorkerID p)
       else SQL.failRetrySQL mid (fp_Attempt p) (fp_Err p) (fp_NextRetryAt p) (fp_WorkerID p))
  end.

Definition ReleaseShutdown (id : MessageID) (attempt : Z) (workerID reason : string)
    : M (option error) :=
  match e_uuid_Parse env id with
  | None => mret (Some (err_bad_id "tickr/postgres: release" id))
  | Some mid =>
    if history_on s
    then exec_err "tickr/postgres: release" (SQL.releaseShutdownSQL mid attempt reason workerID)
    else exec_err "tickr/postgres: release" (SQL.releaseShutdownNoHistorySQL mid attempt reason)
  end.

Definition Extend (id : MessageID) (workerID : string) (until : Time) : M (bool * option error) :=
  match e_uuid_Parse env id with
  | None => mret (false, Some (err_bad_id "tickr/postgres: extend" id))
  | Some mid =>
    r ← exec_pool env (SQL.extendSQL mid workerID until);
    mret (match r with
          | inl e => (false, Some (Errorf_w "tickr/postgres: extend" e))
          | inr n => (0 <? n, None)
          end)
  end.

(** *** History, dead letters, maintenance *)

Definition appendHistory (id : MessageID) (from : option Status) (to : Status) (attempt : Z)
    (errStr workerID : string) : M (option error) :=
  match e_uuid_Parse env id with
  | None => mret (Some (err_bad_id "tickr/postgres: history" id))
  | Some mid =>
    exec_err "tickr/postgres: history insert"
      (SQL.appendHistorySQL mid from to attempt errStr workerID)
  end.

Definition scanTransition (h : hist) : Transition :=
  {| tr_MessageID := h_message_id h; tr_Seq := h_seq h; tr_From := h_from_status h;
     tr_To := h_to_status h; tr_Attempt := h_attempt h;
     tr_Error := coalesce_empty (h_error h); tr_WorkerID := coalesce_empty (h_worker_id h);
     tr_At := h_at h |}.

Definition History (id : MessageID) : M (list Transition * option error) :=
  match e_uuid_Parse env id with
  | None => mret ([], Some (err_bad_id "tickr/postgres: history" id))
  | Some mid =>
    r ← exec_pool env (SQL.historySQL mid);
    mret (match r with
          | inl e => ([], Some (Errorf_w "tickr/postgres: history query" e))
          | inr hs => (scanTransition <$> hs, None)
          end)
  end.

Definition ListDead (eventType : string) (after : Time) (limit : Z)
    : M (list InboundMessage * option error) :=
  let limit := if limit <=? 0 then 100 else limit in
  r ← exec_pool env (SQL.listDeadSQL eventType after limit);
  mret (match r with
        | inl e => ([], Some (Errorf_w "tickr/postgres: list dead" e))
        | inr rows => ((λ ir, scanMessage ir.1 ir.2) <$> rows, None)
        end).

Definition Requeue (id : MessageID) (processAt : Time) : M (option error) :=
  match e_uuid_Parse env id with
  | None => mret (Some (err_bad_id "tickr/postgres: requeue" id))
  | Some mid =>
    now ← time_Now env;
    let processAt := if IsZero processAt then now else processAt in
    r ← exec_pool env (SQL.requeueSQL mid processAt);
    match r with
    | inl e => mret (Some (Errorf_w "tickr/postgres: requeue" e))
    | inr n =>
      if n =? 0 then
        mret (Some (errorString "tickr/postgres: requeue: message not found or not DEAD"))
      else appendHistory id (Some StatusDead) StatusCreated 0 "manual requeue" ""
    end
  end.

Definition exec_count (pfx : string) (st : stmt Z) : M (Z * option error) :=
  r ← exec_pool env st;
  mret (match r with inl e => (0, Some (Errorf_w pfx e)) | inr n => (n, None) end).

Definition ReclaimExpired (limit : Z) : M (Z * option error) :=
  exec_count "tickr/postgres: reclaim" (SQL.reclaimSQL (if limit <=? 0 then 500 else limit)).

Definition PurgeTerminal (before : Time) (limit : Z) : M (Z * option error) :=
  exec_count "tickr/postgres: purge" (SQL.purgeSQL before (if limit <=? 0 then 5000 else limit)).

Definition PurgeHistory (before : Time) (limit : Z) : M (Z * option error) :=
  exec_count "tickr/postgres: purge history"
    (SQL.purgeHistorySQL before (if limit <=? 0 then 5000 else limit)).

(** The loop of Stats over the grouped rows. *)
Definition stats_add (acc : Stats) (g : string * Status * Z) : Stats :=
  let '(et, st, n) := g in
  {| ByStatus := <[st := default 0 (ByStatus acc !! st) + n]> (ByStatus acc);
     ByEventType := <[et := <[st := n]> (default ∅ (ByEventType acc !! et))]> (ByEventType acc);
     SampledAt := SampledAt acc |}.

Definition GetStats : M (Stats * option error) :=
  r ← exec_pool env SQL.statsSQL;
  now ← time_Now env;
  mret (match r with
        | inl e => (mkStats ∅ ∅ 0, Some (Errorf_w "tickr/postgres: stats" e))
        | inr groups => (foldl stats_add (mkStats ∅ ∅ now) groups, None)
        end).
End Store.
