(* ===== verification/Lifecycle.v ===== *)
(** * The message lifecycle

    The abstract specification of a storage adapter: what may happen to one
    row.  [row_step l r r'] is a step of the row under label [l] with all its
    columns; [life_step] is the status machine of the documentation, seen
    through the status and the attempt counter only.  The adapter refines the
    first (file PostgresFacts) and the first refines the second; invariants
    are proved on the step relations, once, by cases on the label. *)

From S2P Require Import Prelude GoErrors GoFloat Message World Postgres.

(** ** Steps of one row *)

Inductive label :=
| LEnqueue
| LClaim (worker : string)
| LSucceed (attempt : Z)
| LRetry (attempt : Z)
| LDead (attempt : Z)
| LRelease (attempt : Z)
| LExtend (worker : string)
| LReclaim (now : Time)
| LRequeue
| LPurge (before : Time).

Inductive row_step : label → option row → option row → Prop :=
| step_enqueue et payload hdrs idem maxAttempts processAt shard now :
    0 < maxAttempts ≤ int4_max → idem ≠ Some ""%string →
    row_step LEnqueue None
      (Some (SQL.new_row et payload hdrs idem maxAttempts processAt shard now))
| step_claim now worker leaseSec r :
    pending (r_status r) = true → r_process_at r ≤ now →
    row_step (LClaim worker) (Some r) (Some (SQL.claim_row now worker leaseSec r))
| step_succeed now r :
    r_status r = StatusHandling →
    row_step (LSucceed (r_attempt r)) (Some r) (Some (SQL.success_row now r))
| step_retry now err at_ r :
    r_status r = StatusHandling →
    row_step (LRetry (r_attempt r)) (Some r) (Some (SQL.retry_row now err at_ r))
| step_dead now err r :
    r_status r = StatusHandling →
    row_step (LDead (r_attempt r)) (Some r) (Some (SQL.dead_row now err r))
| step_release now reason r :
    r_status r = StatusHandling →
    row_step (LRelease (r_attempt r)) (Some r) (Some (SQL.release_row now reason r))
| step_extend now worker until r :
    r_status r = StatusHandling → r_claimed_by r = Some worker →
    row_step (LExtend worker) (Some r) (Some (SQL.extend_row now until r))
| step_reclaim now r until :
    r_status r = StatusHandling → r_claimed_until r = Some until → until < now →
    row_step (LReclaim now) (Some r) (Some (SQL.reclaim_row now r))
| step_requeue now at_ r :
    r_status r = StatusDead →
    row_step LRequeue (Some r) (Some (SQL.requeue_row now at_ r))
| step_purge before r t :
    Terminal (r_status r) = true → r_completed_at r = Some t → t < before →
    row_step (LPurge before) (Some r) None.

#[export] Hint Constructors row_step : tickr.

(** [L i l]: label [l] is allowed on row [i]. *)
Abbreviation labels := (UUID → label → Prop) (only parsing).

(** Any number of steps whose labels satisfy [L]. *)
Definition row_steps (L : label → Prop) : option row → option row → Prop :=
  rtc (λ x y, ∃ l, L l ∧ row_step l x y).

#[export] Instance row_steps_preorder L : PreOrder (row_steps L).
Proof. unfold row_steps. split; apply _. Qed.

Lemma row_steps_once (L : label → Prop) l x y : L l → row_step l x y → row_steps L x y.
Proof. intros. apply rtc_once. eauto. Qed.

Lemma row_steps_weaken (L L' : label → Prop) x y :
  (∀ l, L l → L' l) → row_steps L x y → row_steps L' x y.
Proof. intros HL. apply rtc_subrel. intros ?? (l & ? & ?). eauto. Qed.

(** An invariant of single steps is an invariant of sequences. *)
Lemma row_steps_inv (L : label → Prop) (P : option row → Prop) x y :
  (∀ l a b, L l → row_step l a b → P a → P b) → row_steps L x y → P x → P y.
Proof. intros Hstep. induction 1 as [|a b c (l & Hl & Hs) _ IH]; eauto. Qed.

(** ** The status machine *)

Abbreviation view := (option (Status * Z)) (only parsing).

Definition row_view (o : option row) : view := (λ r, (r_status r, r_attempt r)) <$> o.

(** The edges of the machine.  A label is what a statement did to the row, an
    acknowledgement names the attempt it settles. *)
Inductive life_step : label → view → view → Prop :=
| life_enqueue : life_step LEnqueue None (Some (StatusCreated, 0))
| life_claim w st n :
    st = StatusCreated ∨ st = StatusRetrying →
    life_step (LClaim w) (Some (st, n)) (Some (StatusHandling, n + 1))
| life_succeed n :
    life_step (LSucceed n) (Some (StatusHandling, n)) (Some (StatusSuccess, n))
| life_retry n :
    life_step (LRetry n) (Some (StatusHandling, n)) (Some (StatusRetrying, n))
| life_dead n :
    life_step (LDead n) (Some (StatusHandling, n)) (Some (StatusDead, n))
| life_release n :
    life_step (LRelease n) (Some (StatusHandling, n)) (Some (StatusRetrying, Z.max 0 (n - 1)))
| life_reclaim t n :
    life_step (LReclaim t) (Some (StatusHandling, n)) (Some (StatusRetrying, n))
| life_requeue n : life_step LRequeue (Some (StatusDead, n)) (Some (StatusCreated, 0))
| life_purge before st n :
    st = StatusSuccess ∨ st = StatusDead → life_step (LPurge before) (Some (st, n)) None.

#[export] Hint Constructors life_step : tickr.

Lemma pending_cases st : pending st = true → st = StatusCreated ∨ st = StatusRetrying.
Proof. destruct st; auto; intros [=]. Qed.

Lemma terminal_cases st : Terminal st = true → st = StatusSuccess ∨ st = StatusDead.
Proof. destruct st; auto; intros [=]. Qed.

#[export] Hint Resolve pending_cases terminal_cases : tickr.

(** A row step is the edge of its label, or leaves the view alone (lease
    extension). *)
Lemma row_step_life l x y :
  row_step l x y → life_step l (row_view x) (row_view y) ∨ row_view x = row_view y.
Proof.
  destruct 1; simpl; try match goal with H : r_status _ = _ |- _ => rewrite H end;
    eauto with tickr.
Qed.

(** Labels none of whose edges in the machine [life] follow one another. *)
Definition one_shot (life : label → view → view → Prop) (L : label → Prop) : Prop :=
  ∀ l l' u v v', L l → L l' → life l u v → ¬ life l' v v'.

(** Row steps that are edges of a machine make, under such labels, one edge at
    most. *)
Lemma one_edge (step : label → option row → option row → Prop)
    (life : label → view → view → Prop) (L : label → Prop) x y :
  (∀ l x y, step l x y → life l (row_view x) (row_view y) ∨ row_view x = row_view y) →
  one_shot life L → rtc (λ x y, ∃ l, L l ∧ step l x y) x y →
  row_view y = row_view x ∨ ∃ l, L l ∧ life l (row_view x) (row_view y).
Proof.
  intros Hstep HL. induction 1 as [|a b c (l & Hl & Hs) _ IH]; [by left|].
  apply Hstep in Hs as [Hs| ->]; [|done].
  destruct IH as [->|(l' & Hl' & Hs')]; [by eauto|]. by destruct (HL l l' _ _ _ Hl Hl' Hs Hs').
Qed.

Lemma row_steps_life (L : label → Prop) x y :
  one_shot life_step L → row_steps L x y →
  row_view y = row_view x ∨ ∃ l, L l ∧ life_step l (row_view x) (row_view y).
Proof. apply one_edge, row_step_life. Qed.

(** ** Well-formed rows *)

(** A row is leased exactly while it is being handled, carries a completion
    time exactly when it is terminal, counts attempts from 0 (from 1 while
    handled), and is never left in the FAILED state. *)
Definition row_wf (r : row) : Prop :=
  0 ≤ r_attempt r ∧ 0 < r_max_attempts r ≤ int4_max ∧
  r_idempotency_key r ≠ Some ""%string ∧
  match r_status r with
  | StatusCreated | StatusRetrying =>
    r_claimed_by r = None ∧ r_claimed_until r = None ∧ r_completed_at r = None
  | StatusHandling =>
    1 ≤ r_attempt r ∧ is_Some (r_claimed_by r) ∧ is_Some (r_claimed_until r) ∧
    r_completed_at r = None
  | StatusSuccess | StatusDead =>
    r_claimed_by r = None ∧ r_claimed_until r = None ∧ is_Some (r_completed_at r)
  | StatusFailed => False
  end.

Definition opt_wf (o : option row) : Prop := ∀ r, o = Some r → row_wf r.

Lemma row_step_wf l x y : row_step l x y → opt_wf x → opt_wf y.
Proof.
  intros Hs Hwf r' Hr'. destruct Hs; simplify_eq.
  all: try (specialize (Hwf _ eq_refl)); unfold row_wf in *; destruct_and?.
  all: try match goal with H : pending _ = true |- _ => apply pending_cases in H as [H|H] end.
  all: try match goal with H : r_status _ = _ |- _ => rewrite H in * end.
  all: simpl; destruct_and?; split_and!; eauto; try lia.
  match goal with H : r_status _ = _ |- _ => rewrite H end. eauto.
Qed.

(** ** Fencing

    [attempt] is a fencing token.  Once a row has left the HANDLING state it had
    under token [n] without giving the token back (as a shutdown release
    does), no later state is HANDLING under [n], until an administrator
    requeues the message. *)
Definition fenced (n : Z) (o : option row) : Prop :=
  match o with
  | None => True
  | Some r =>
    match r_status r with
    | StatusHandling => n < r_attempt r
    | StatusCreated | StatusRetrying | StatusFailed => n ≤ r_attempt r
    | StatusSuccess | StatusDead => True
    end
  end.

Lemma row_step_fenced n l x y :
  0 ≤ n → l ≠ LRequeue → l ≠ LEnqueue → row_step l x y → fenced n x → fenced n y.
Proof.
  intros Hn Hq He Hs. destruct Hs; simpl; try done.
  all: try match goal with H : pending _ = true |- _ => apply pending_cases in H as [H|H] end.
  all: try match goal with H : r_status _ = _ |- _ => rewrite H end.
  all: intros; try lia; done.
Qed.

(** Steps that end a handling under token [n] and keep it: all but a release. *)
Lemma row_step_fences n l r y :
  r_status r = StatusHandling → r_attempt r = n → row_step l (Some r) y →
  l ≠ LRelease n → (∀ w, l ≠ LExtend w) → fenced n y.
Proof.
  intros Hst Hat Hs Hl He. inversion Hs; subst; simpl; try done; try lia.
  all: try congruence. all: by destruct (He worker).
Qed.

(** A fenced row does not match the guard of an acknowledgement under [n]. *)
Lemma fenced_not_held n id i r : fenced n (Some r) → SQL.held id n i r = false.
Proof.
  unfold SQL.held, fenced. intros H.
  destruct (decide (r_status r = StatusHandling)) as [E|E].
  - rewrite E in *. rewrite andb_false_iff. right. lia.
  - rewrite (bool_decide_eq_false_2 _ E), andb_false_r. done.
Qed.

(** ** What steps keep

    No step but the enqueue of the row decides its routing key, payload,
    headers, idempotency key, attempt budget, shard or creation time. *)
Definition row_identity (r : row) :=
  (r_event_type r, r_payload r, r_headers r, r_idempotency_key r,
   r_max_attempts r, r_shard r, r_created_at r).

Lemma row_step_identity l r r' :
  row_step l (Some r) (Some r') → row_identity r' = row_identity r.
Proof. by inversion 1. Qed.

(** A row disappears only when it is terminal. *)
Lemma row_step_gone l r :
  row_step l (Some r) None →
  Terminal (r_status r) = true ∧ ∃ before t, l = LPurge before ∧
    r_completed_at r = Some t ∧ t < before.
Proof. inversion 1; eauto 10. Qed.

(** A row that is gone after some steps was purged by an allowed purge. *)
Lemma row_steps_gone L r : row_steps L (Some r) None → ∃ before, L (LPurge before).
Proof.
  intros H. remember (Some r) as x eqn:Ex. remember None as y eqn:Ey.
  revert r Ex Ey. induction H as [|a b c (l & Hl & Hs) Hrest IH]; intros r -> Ey; [done|].
  destruct b as [r1|]; [by eapply IH|].
  apply row_step_gone in Hs as (_ & bf & _ & -> & _). by exists bf.
Qed.

(** Steps without a purge, or without an enqueue, keep what identifies the row. *)
Lemma row_steps_identity (L : label → Prop) r r' :
  ¬ L LEnqueue ∨ (∀ b, ¬ L (LPurge b)) → row_steps L (Some r) (Some r') →
  row_identity r' = row_identity r.
Proof.
  intros [HL|HL] Hs.
  - refine (row_steps_inv L (λ o, ∀ r1, o = Some r1 → row_identity r1 = row_identity r)
      _ _ _ Hs _ r' eq_refl); [|by intros ? [= ->]].
    intros l a b Hl Hstep Ha r1 ->. destruct a as [r0|]; [|by inversion Hstep; subst].
    rewrite <- (Ha r0 eq_refl). by eapply row_step_identity.
  - enough (∃ r1, Some r' = Some r1 ∧ row_identity r1 = row_identity r)
      as (? & [= <-] & ?) by done.
    refine (row_steps_inv L (λ o, ∃ r1, o = Some r1 ∧ row_identity r1 = row_identity r)
      _ _ _ Hs _); [|by eauto].
    intros l a b Hl Hstep (r0 & -> & E). destruct b as [r1|].
    + exists r1. split; [done|]. rewrite <- E. by eapply row_step_identity.
    + apply row_step_gone in Hstep as (_ & bf & _ & -> & _). by destruct (HL bf).
Qed.

(** Purges alone drop the row as it is: terminal, completed before a cutoff. *)
Lemma row_steps_purged (L : label → Prop) bf r :
  (∀ l, L l → l = LPurge bf) → row_steps L (Some r) None →
  (r_status r = StatusSuccess ∨ r_status r = StatusDead) ∧
  ∃ t, r_completed_at r = Some t ∧ t < bf.
Proof.
  intros HL Hs. inversion Hs as [|x y z (l & Hl & Hstep) Hrest]; subst.
  apply HL in Hl as ->. inversion Hstep; subst. eauto with tickr.
Qed.

(** ** What the API documents of a row, column by column

    Written on the columns alone, with no reference to the statements; the
    functional theorems of the adapters are stated with these. *)

(** Waiting and due, of a requested type, on the shard asked for, not locked
    by another transaction. *)
Definition can_claim (now : Time) (types : option (list string)) (shard : option Z)
    (locked : gset UUID) (i : UUID) (r : row) : Prop :=
  (r_status r = StatusCreated ∨ r_status r = StatusRetrying) ∧ r_process_at r ≤ now ∧
  (∀ l, types = Some l → r_event_type r ∈ l) ∧ (∀ k, shard = Some k → r_shard r = k) ∧
  i ∉ locked.

(** [r'] is [r] leased at [now] to [worker] for [leaseSec] seconds. *)
Definition leased_as (now : Time) (worker : string) (leaseSec : Z) (r r' : row) : Prop :=
  row_identity r' = row_identity r ∧
  r_status r' = StatusHandling ∧ r_attempt r' = r_attempt r + 1 ∧
  r_claimed_by r' = Some worker ∧ r_claimed_until r' = Some (now + leaseSec * Second) ∧
  r_process_at r' = r_process_at r ∧ r_last_error r' = r_last_error r ∧
  r_completed_at r' = r_completed_at r ∧ r_updated_at r' = now.

(** [m] is the message of row [r] under id [i]; NULL texts read as empty, an
    empty header object as nil. *)
Definition message_of (i : UUID) (r : row) (m : InboundMessage) : Prop :=
  im_ID m = i ∧ im_Type m = r_event_type r ∧ im_Payload m = r_payload r ∧
  im_Headers m = (if decide (r_headers r = ∅) then None else Some (r_headers r)) ∧
  im_IdempotencyKey m = default ""%string (r_idempotency_key r) ∧
  im_Attempt m = r_attempt r ∧ im_MaxAttempts m = r_max_attempts r ∧
  im_EnqueuedAt m = r_created_at r ∧ im_ScheduledAt m = r_process_at r ∧
  im_LastError m = default ""%string (r_last_error r) ∧ im_Status m = Some (r_status r).

(** How an attempt ends. *)
Inductive ending :=
| EndSuccess
| EndRetry (err : string) (at_ : Time)
| EndDead (err : string)
| EndRelease (reason : string).

(** [r'] is [r] after its attempt ended so at [now]. *)
Definition ended (e : ending) (now : Time) (r r' : row) : Prop :=
  row_identity r' = row_identity r ∧
  r_claimed_by r' = None ∧ r_claimed_until r' = None ∧ r_updated_at r' = now ∧
  match e with
  | EndSuccess =>
    r_status r' = StatusSuccess ∧ r_attempt r' = r_attempt r ∧
    r_process_at r' = r_process_at r ∧ r_last_error r' = None ∧ r_completed_at r' = Some now
  | EndRetry err at_ =>
    r_status r' = StatusRetrying ∧ r_attempt r' = r_attempt r ∧
    r_process_at r' = at_ ∧ r_last_error r' = Some err ∧ r_completed_at r' = r_completed_at r
  | EndDead err =>
    r_status r' = StatusDead ∧ r_attempt r' = r_attempt r ∧
    r_process_at r' = r_process_at r ∧ r_last_error r' = Some err ∧ r_completed_at r' = Some now
  | EndRelease reason =>
    r_status r' = StatusRetrying ∧ r_attempt r' = Z.max 0 (r_attempt r - 1) ∧
    r_process_at r' = now ∧ r_last_error r' = Some reason ∧ r_completed_at r' = r_completed_at r
  end.

(** From table [m] to [m'] attempt [n] of message [mid] ended so, if it was
    still the current one; nothing else changed. *)
Definition ends_attempt (mid : UUID) (n : Z) (e : ending) (now : Time)
    (m m' : gmap UUID row) : Prop :=
  (∀ r, m !! mid = Some r → r_status r = StatusHandling → r_attempt r = n →
     ∃ r', m' !! mid = Some r' ∧ ended e now r r') ∧
  (∀ r, m !! mid = Some r → r_status r ≠ StatusHandling ∨ r_attempt r ≠ n →
     m' !! mid = Some r) ∧
  (m !! mid = None → m' !! mid = None) ∧
  (∀ i, i ≠ mid → m' !! i = m !! i).
