(* ===== verification/PostgresLogic.v ===== *)
(** * Reasoning about the operations of the PostgreSQL adapter

    [op] is the storage API as data and [op_prog] the program each call runs.
    [op_label] is what the API promises of an operation: the labels it may put
    on a row, given its arguments.  [issued] enumerates the statements the
    programs can send, with the labels each of them needs.  [safe_op] says
    that an invariant and a step relation that the statements allowed by
    [op_label] respect are respected by every atomic action of the operation:
    invariants of the database are proved once per statement and hold for the
    whole API. *)

From S2P Require Import Prelude GoErrors GoFloat Message World Postgres Lifecycle.

(** ** The storage API as data *)

Inductive op :=
| OpEnqueue (tx : Tx) (p : EnqueueParams)
| OpEnqueueBatch (tx : Tx) (ps : list EnqueueParams)
| OpClaim (p : ClaimParams)
| OpBatchSucceed (ps : list BatchSucceedParam)
| OpSucceed (id : MessageID) (attempt : Z) (workerID : string)
| OpFail (p : FailParams)
| OpReleaseShutdown (id : MessageID) (attempt : Z) (workerID reason : string)
| OpExtend (id : MessageID) (workerID : string) (until : Time)
| OpHistory (id : MessageID)
| OpListDead (eventType : string) (after : Time) (limit : Z)
| OpRequeue (id : MessageID) (processAt : Time)
| OpReclaimExpired (limit : Z)
| OpPurgeTerminal (before : Time) (limit : Z)
| OpPurgeHistory (before : Time) (limit : Z)
| OpStats
| OpNotify (tx : Tx) (eventType : string).

Definition discard {A} (p : prog A) : prog unit := _ ← p; mret ().

Definition op_prog (env : Env) (s : Store) (o : op) : prog unit :=
  match o with
  | OpEnqueue tx p => discard (Enqueue env s tx p)
  | OpEnqueueBatch tx ps => discard (EnqueueBatch env s tx ps)
  | OpClaim p => discard (Claim env s p)
  | OpBatchSucceed ps => discard (BatchSucceed env s ps)
  | OpSucceed id n w => discard (Succeed env s id n w)
  | OpFail p => discard (Fail_ env s p)
  | OpReleaseShutdown id n w reason => discard (ReleaseShutdown env s id n w reason)
  | OpExtend id w until => discard (Extend env id w until)
  | OpHistory id => discard (History env id)
  | OpListDead et after limit => discard (ListDead env et after limit)
  | OpRequeue id at_ => discard (Requeue env id at_)
  | OpReclaimExpired limit => discard (ReclaimExpired env limit)
  | OpPurgeTerminal before limit => discard (PurgeTerminal env before limit)
  | OpPurgeHistory before limit => discard (PurgeHistory env before limit)
  | OpStats => discard (GetStats env)
  | OpNotify tx et => discard (Notify env tx et)
  end.

(** The labels an operation may put on row [i]. *)
Inductive op_label (env : Env) (i : UUID) : op → label → Prop :=
| ol_enqueue tx p : op_label env i (OpEnqueue tx p) LEnqueue
| ol_enqueueBatch tx ps : op_label env i (OpEnqueueBatch tx ps) LEnqueue
| ol_claim p : op_label env i (OpClaim p) (LClaim (cp_WorkerID p))
| ol_batchSucceed ps p :
    p ∈ ps → e_uuid_Parse env (bs_MessageID p) = Some i →
    op_label env i (OpBatchSucceed ps) (LSucceed (bs_Attempt p))
| ol_succeed id n w :
    e_uuid_Parse env id = Some i → op_label env i (OpSucceed id n w) (LSucceed n)
| ol_fail p :
    e_uuid_Parse env (fp_MessageID p) = Some i →
    op_label env i (OpFail p)
      (if fp_Dead p then LDead (fp_Attempt p) else LRetry (fp_Attempt p))
| ol_release id n w reason :
    e_uuid_Parse env id = Some i →
    op_label env i (OpReleaseShutdown id n w reason) (LRelease n)
| ol_extend id w until :
    e_uuid_Parse env id = Some i → op_label env i (OpExtend id w until) (LExtend w)
| ol_requeue id at_ :
    e_uuid_Parse env id = Some i → op_label env i (OpRequeue id at_) LRequeue
| ol_reclaim limit now : op_label env i (OpReclaimExpired limit) (LReclaim now)
| ol_purge before limit : op_label env i (OpPurgeTerminal before limit) (LPurge before).

#[export] Hint Constructors op_label : tickr.

(** ** Issued statements *)

(** [newID] returns [i] when it runs at tick [t]. *)
Definition gen_id (env : Env) (t : nat) (i : UUID) : Prop :=
  e_v7 env t = Some i ∨ (e_v7 env t = None ∧ e_v4 env t = i).

(** [G]: ids the adapter may insert. *)
Inductive tx_issued (s : Store) (G : UUID → Prop) : ∀ A, stmt A → Prop :=
| ti_enqueue id et pl hd idem ma pa sh :
    G id → 0 < ma → idem ≠ Some ""%string →
    tx_issued s G _ (SQL.enqueueSQL (partitioned s) id et pl hd idem ma pa sh)
| ti_batch rows :
    Forall (λ b, 0 < SQL.br_max b ∧ G (SQL.br_id b)) rows →
    tx_issued s G _ (SQL.batchInsertSQL (partitioned s) rows)
| ti_find et k : tx_issued s G _ (SQL.findByIdemSQL et k)
| ti_notify et : tx_issued s G _ (SQL.notifySQL et).

(** Statements that label rows as [L] allows. *)
Inductive issued (s : Store) (L : labels) : ∀ A, stmt A → Prop :=
| i_claim types batch w lease shard :
    (∀ i, L i (LClaim w)) → issued s L _ (SQL.claimSQL types batch w lease shard)
| i_succeedNoHistory id n :
    L id (LSucceed n) → issued s L _ (SQL.succeedNoHistorySQL id n)
| i_succeed id n w : L id (LSucceed n) → issued s L _ (SQL.succeedSQL id n w)
| i_failRetryNoHistory id n e at_ :
    L id (LRetry n) → issued s L _ (SQL.failRetryNoHistorySQL id n e at_)
| i_failDeadNoHistory id n e :
    L id (LDead n) → issued s L _ (SQL.failDeadNoHistorySQL id n e)
| i_failRetry id n e at_ w :
    L id (LRetry n) → issued s L _ (SQL.failRetrySQL id n e at_ w)
| i_failDead id n e w : L id (LDead n) → issued s L _ (SQL.failDeadSQL id n e w)
| i_releaseNoHistory id n e :
    L id (LRelease n) → issued s L _ (SQL.releaseShutdownNoHistorySQL id n e)
| i_release id n e w : L id (LRelease n) → issued s L _ (SQL.releaseShutdownSQL id n e w)
| i_extend id w until : L id (LExtend w) → issued s L _ (SQL.extendSQL id w until)
| i_appendHistory id from to n e w : issued s L _ (SQL.appendHistorySQL id from to n e w)
| i_history id : issued s L _ (SQL.historySQL id)
| i_listDead et after limit : issued s L _ (SQL.listDeadSQL et after limit)
| i_requeue id at_ : L id LRequeue → issued s L _ (SQL.requeueSQL id at_)
| i_reclaim limit : (∀ i t, L i (LReclaim t)) → issued s L _ (SQL.reclaimSQL limit)
| i_purge before limit : (∀ i, L i (LPurge before)) → issued s L _ (SQL.purgeSQL before limit)
| i_purgeHistory before limit : issued s L _ (SQL.purgeHistorySQL before limit)
| i_stats : issued s L _ SQL.statsSQL
| i_tx A (st : stmt A) : tx_issued s (λ i, L i LEnqueue) A st → issued s L A st.

#[export] Hint Constructors tx_issued issued : tickr.

Lemma tx_issued_mono s (G G' : UUID → Prop) A (st : stmt A) :
  (∀ i, G i → G' i) → tx_issued s G A st → tx_issued s G' A st.
Proof.
  intros HG. destruct 1 as [|rows Hrows| |]; auto with tickr.
  constructor. eapply Forall_impl; [exact Hrows|]. intros b [? ?]. auto.
Qed.

(** A statement that is not an insert is issued whatever ids may be inserted. *)
Lemma issued_cases s L A (st : stmt A) :
  issued s L A st → tx_issued s (λ i, L i LEnqueue) A st ∨ issued s (λ i l, L i l ∧ l ≠ LEnqueue) A st.
Proof. destruct 1; auto 6 with tickr. Qed.

(** An invariant and a step relation that the issued statements respect. *)
Class SqlLogic (env : Env) (s : Store) (L : labels)
    (I : World → Prop) (R : World → World → Prop) : Prop := {
  sl_rel :: WorldRel I R;
  sl_pool : ∀ A (st : stmt A), issued s L A st → stmt_in env I R st;
  sl_tx : ∀ A (st : stmt A), tx_issued s (λ i, L i LEnqueue) A st → stmt_in_tx env I R st;
}.

Section Ops.
Context (env : Env) (s : Store) (L : labels).
Context (I : World → Prop) (R : World → World → Prop) `{HSL : !SqlLogic env s L I R}.

Abbreviation G := (λ i, L i LEnqueue).

(** Ids drawn while the invariant holds may be inserted. *)
Definition may_insert : Prop := ∀ w i, I w → gen_id env (w_tick w) i → L i LEnqueue.

(** Every action of [p] respects [I] and [R]. *)
Definition ok {A} (p : prog A) : Prop := safe I R p (λ _, True).

Lemma ok_ret {A} (a : A) : ok (mret a).
Proof. done. Qed.

Lemma ok_seq {A B} (p : prog A) (k : A → prog B) : ok p → (∀ a, ok (k a)) → ok (p ≫= k).
Proof. apply safe_seq. Qed.

Lemma ok_map {A B} (p : prog A) (f : A → B) : ok p → ok (a ← p; mret (f a)).
Proof. intros. by apply ok_seq. Qed.

Lemma exec_issued {A} q (st : stmt A) : tx_issued s G A st → ok (exec env q st).
Proof.
  intros H. apply (safe_exec env I R); [apply sl_pool; by constructor|by apply sl_tx].
Qed.

Lemma exec_pool_issued {A} (st : stmt A) : issued s L A st → ok (exec_pool env st).
Proof. intros H. by apply (safe_exec_pool env I R), sl_pool. Qed.

Lemma pool_batch_issued queued n :
  Forall (issued s L unit) queued → ok (pool_batch env queued n).
Proof.
  intros H. apply (safe_pool_batch env I R). eapply Forall_impl; [done|].
  intros st. apply sl_pool.
Qed.

(** Proof search over the shape of a program: a return, a sequence, a case
    analysis, an issued statement. *)
Ltac ok_step :=
  match goal with
  | |- ok (mret _) => apply ok_ret
  | |- ok (time_Now _ ≫= _) => apply ok_seq; [apply (safe_time_Now env I R)|intros]
  | |- ok (rand_IntN _ _ ≫= _) => apply ok_seq; [apply (safe_rand env I R)|intros]
  | |- ok (pickShard _ ≫= _) => apply ok_seq; [apply (safe_rand env I R)|intros]
  | |- ok (exec _ _ _ ≫= _) => apply ok_seq; [apply exec_issued; auto with tickr|intros]
  | |- ok (exec_pool _ _ ≫= _) => apply ok_seq; [apply exec_pool_issued; auto with tickr|intros]
  | |- ok (match ?x with _ => _ end) => destruct x eqn:?
  end.

Lemma ok_Notify tx et : ok (Notify env tx et).
Proof. unfold Notify. by repeat ok_step. Qed.

Lemma ok_notifyEnqueue tx et : ok (notifyEnqueue env s tx et).
Proof. unfold notifyEnqueue. repeat ok_step. apply ok_Notify. Qed.

Lemma ok_findByIdempotency q et k : ok (findByIdempotency env q et k).
Proof. unfold findByIdempotency. repeat ok_step. Qed.

Lemma ok_exec_err pfx {A} (st : stmt A) : issued s L A st → ok (exec_err env pfx st).
Proof. unfold exec_err. intros. repeat ok_step. Qed.

Lemma ok_exec_count pfx st : issued s L Z st → ok (exec_count env pfx st).
Proof. unfold exec_count. intros. repeat ok_step. Qed.

Lemma nullif_not_empty k : nullif_empty k ≠ Some ""%string.
Proof. unfold nullif_empty. by case_bool_decide; [|congruence]. Qed.

Lemma ok_enqueue_insert tx q id p ma pa :
  0 < ma → G id → ok (enqueue_insert env s tx q id p ma pa).
Proof.
  intros Hma HG. pose proof (nullif_not_empty (ep_IdempotencyKey p)).
  unfold enqueue_insert. repeat ok_step.
  - apply ok_seq; [apply ok_notifyEnqueue|intros; apply ok_ret].
  - apply ok_seq; [apply ok_findByIdempotency|intros; apply ok_ret].
Qed.

Lemma newID_gen w : gen_id env (w_tick w)
  (match e_v7 env (w_tick w) with Some u => u | None => e_v4 env (w_tick w) end).
Proof. unfold gen_id. destruct (e_v7 env (w_tick w)); auto. Qed.

Lemma safe_newID : may_insert → safe I R (newID env) G.
Proof.
  intros Hgen. apply safe_atomically. intros w Hw. destruct (wr_tick w Hw) as [? ?]. split_and!; [done..|].
  eapply Hgen; [apply Hw|apply newID_gen].
Qed.

Lemma default_attempts n : 0 < (if n <=? 0 then 10 else n).
Proof. destruct (Z.leb_spec n 0); lia. Qed.

Lemma ok_Enqueue tx p : may_insert → ok (Enqueue env s tx p).
Proof.
  intros Hgen. unfold Enqueue. eapply safe_bind; [by apply safe_newID|]. intros id HG.
  apply ok_seq; [apply (safe_time_Now env I R)|]. intros now.
  pose proof (default_attempts (ep_MaxAttempts p)).
  destruct (_ && _); [|by apply ok_enqueue_insert].
  apply ok_seq; [apply ok_findByIdempotency|].
  intros [e|m]; [|apply ok_ret].
  destruct (is_NoRows _); [by apply ok_enqueue_insert|apply ok_ret].
Qed.

Lemma safe_batch_rows now ps : may_insert →
  safe I R (batch_rows env now ps) (Forall (λ b, 0 < SQL.br_max b ∧ G (SQL.br_id b))).
Proof.
  intros Hgen. induction ps as [|p ps IH]; [by apply safe_ret|].
  eapply safe_bind; [by apply safe_newID|]. intros id HG.
  eapply safe_seq; [apply (safe_rand env I R)|]. intros shard.
  eapply safe_bind; [apply IH|]. intros rest Hrest. apply safe_ret.
  constructor; [|done]. split; [apply default_attempts|done].
Qed.

Lemma ok_batch_output q ins items i dup : ok (batch_output env q ins items i dup).
Proof.
  revert i dup. induction items as [|[id p] items IH]; intros i dup; cbn [batch_output];
    [apply ok_ret|].
  destruct (ins !! id) as [m|].
  - apply ok_seq; [apply IH|]. intros [[out fatal] d]. apply ok_ret.
  - case_bool_decide; [apply ok_ret|].
    apply ok_seq; [apply ok_findByIdempotency|].
    intros [e|m]; [apply ok_ret|].
    apply ok_seq; [apply IH|]. intros [[out fatal] d]. apply ok_ret.
Qed.

Lemma ok_EnqueueBatch tx ps : may_insert → ok (EnqueueBatch env s tx ps).
Proof.
  intros Hgen. unfold EnqueueBatch. destruct ps as [|p0 ps]; [apply ok_ret|].
  apply ok_seq; [apply (safe_time_Now env I R)|]. intros now.
  eapply safe_bind; [by apply safe_batch_rows|]. intros rows Hrows.
  apply ok_seq; [apply exec_issued; by constructor|].
  intros [e|ret]; [apply ok_ret|].
  apply ok_seq; [apply ok_batch_output|]. intros [[out fatal] dup]. repeat ok_step.
  apply ok_seq; [apply ok_notifyEnqueue|intros; apply ok_ret].
Qed.

Lemma ok_claimQuery types b wk ls sh :
  (∀ i, L i (LClaim wk)) → ok (claimQuery env types b wk ls sh).
Proof. unfold claimQuery. intros. repeat ok_step. Qed.

Lemma ok_appendHistoryBatch msgs to e wk : ok (appendHistoryBatch env msgs to e wk).
Proof.
  unfold appendHistoryBatch. destruct msgs as [|m ms]; [apply ok_ret|].
  apply ok_map, pool_batch_issued, Forall_forall. intros st Hst.
  apply list_elem_of_omap in Hst as (x & _ & Hx).
  destruct (e_uuid_Parse env (im_ID x)); simplify_eq/=. apply i_appendHistory.
Qed.

(** Rows may be labelled as [o] promises. *)
Definition permits (o : op) : Prop := ∀ i l, l ≠ LEnqueue → op_label env i o l → L i l.

Lemma ok_Claim p : permits (OpClaim p) → ok (Claim env s p).
Proof.
  intros HL. assert (∀ i, L i (LClaim (cp_WorkerID p))) by auto with tickr.
  unfold Claim. apply ok_seq; [apply (safe_rand env I R)|]. intros shard.
  apply ok_seq; [by apply ok_claimQuery|]. intros [out1 err1].
  destruct err1; [apply ok_ret|].
  apply ok_seq; [destruct out1; [by apply ok_claimQuery|apply ok_ret]|].
  intros [out err]. repeat ok_step. apply ok_map, ok_appendHistoryBatch.
Qed.

Lemma ok_BatchSucceed ps : permits (OpBatchSucceed ps) → ok (BatchSucceed env s ps).
Proof.
  intros HL. unfold BatchSucceed. destruct ps as [|p ps]; [apply ok_ret|].
  apply ok_map, pool_batch_issued, Forall_forall. intros st Hst.
  apply list_elem_of_omap in Hst as (x & Hin & Hx).
  destruct (e_uuid_Parse env (bs_MessageID x)) as [mid|] eqn:Hid; simplify_eq/=.
  assert (L mid (LSucceed (bs_Attempt x))) by (apply HL; [done|by econstructor]).
  destruct (history_on s); auto with tickr.
Qed.

Lemma ok_Succeed id n wk : permits (OpSucceed id n wk) → ok (Succeed env s id n wk).
Proof. intros HL. unfold Succeed. repeat ok_step; apply ok_exec_err; auto with tickr. Qed.

Lemma ok_Fail p : permits (OpFail p) → ok (Fail_ env s p).
Proof.
  intros HL. unfold Fail_.
  destruct (e_uuid_Parse env (fp_MessageID p)) as [mid|] eqn:Hid; [|apply ok_ret].
  apply ok_exec_err.
  assert (∀ l, (if fp_Dead p then LDead (fp_Attempt p) else LRetry (fp_Attempt p)) = l →
    L mid l) as HL'.
  { intros l <-. apply HL; [by destruct (fp_Dead p)|by constructor]. }
  destruct (history_on s), (fp_Dead p); simpl in *; auto with tickr.
Qed.

Lemma ok_ReleaseShutdown id n wk reason :
  permits (OpReleaseShutdown id n wk reason) → ok (ReleaseShutdown env s id n wk reason).
Proof.
  intros HL. unfold ReleaseShutdown. repeat ok_step; apply ok_exec_err; auto with tickr.
Qed.

Lemma ok_Extend id wk until : permits (OpExtend id wk until) → ok (Extend env id wk until).
Proof. intros HL. unfold Extend. repeat ok_step. Qed.

Lemma ok_History id : ok (History env id).
Proof. unfold History. repeat ok_step. Qed.

Lemma ok_ListDead et after limit : ok (ListDead env et after limit).
Proof. unfold ListDead. repeat ok_step. Qed.

Lemma ok_GetStats : ok (GetStats env).
Proof. unfold GetStats. repeat ok_step. Qed.

Lemma ok_appendHistory id f t n e wk : ok (appendHistory env id f t n e wk).
Proof. unfold appendHistory. repeat ok_step. apply ok_exec_err, i_appendHistory. Qed.

Lemma ok_Requeue id at_ : permits (OpRequeue id at_) → ok (Requeue env id at_).
Proof. intros HL. unfold Requeue. repeat ok_step. apply ok_appendHistory. Qed.

Theorem safe_op o :
  permits o →
  (∀ w i, op_label env i o LEnqueue → I w → gen_id env (w_tick w) i → L i LEnqueue) →
  ok (op_prog env s o).
Proof.
  intros HL Hgen. destruct o; simpl; apply ok_map.
  - apply ok_Enqueue. intros w i ??. by eapply Hgen; [constructor|..].
  - apply ok_EnqueueBatch. intros w i ??. by eapply Hgen; [constructor|..].
  - by apply ok_Claim.
  - by apply ok_BatchSucceed.
  - by apply ok_Succeed.
  - by apply ok_Fail.
  - by apply ok_ReleaseShutdown.
  - by apply ok_Extend.
  - apply ok_History.
  - apply ok_ListDead.
  - by apply ok_Requeue.
  - apply ok_exec_count, i_reclaim. auto with tickr.
  - apply ok_exec_count, i_purge. auto with tickr.
  - apply ok_exec_count, i_purgeHistory.
  - apply ok_GetStats.
  - apply ok_Notify.
Qed.
End Ops.

(** Ids that the operation may requeue. *)
Definition requeues (env : Env) (o : op) (i : UUID) : Prop :=
  match o with OpRequeue id _ => e_uuid_Parse env id = Some i | _ => False end.

Lemma op_label_requeues env i o : op_label env i o LRequeue → requeues env o i.
Proof. inversion 1; simplify_eq; try done. by destruct (fp_Dead p). Qed.

(** The labels of one operation make at most one edge of the lifecycle. *)
Lemma op_label_one_shot env i o : one_shot life_step (op_label env i o).
Proof.
  intros l l' u v v' H H' Hs Hs'.
  destruct H; inversion H'; subst; repeat case_match;
    inversion Hs; subst; inversion Hs'; intuition congruence.
Qed.
