(* ===== verification/PostgresFacts.v ===== *)
(** * The PostgreSQL adapter implements the lifecycle

    Every statement moves every row along [row_step] ([issued_steps]), under
    any clock, lock set and enumeration order; with the logic of file
    PostgresLogic, so does every atomic action of every operation
    ([rows_logic]). *)

From S2P Require Import Prelude GoErrors GoFloat Message World Postgres Lifecycle PostgresLogic.

(** ** Statements as row steps *)

Definition db_steps (L : labels) (db db' : DB) : Prop :=
  ∀ i, row_steps (L i) (d_msgs db !! i) (d_msgs db' !! i).

Lemma db_steps_weaken (L L' : labels) db db' :
  (∀ i l, L i l → L' i l) → db_steps L db db' → db_steps L' db db'.
Proof. intros HL H i. eapply row_steps_weaken; [apply HL|apply H]. Qed.

(** The database only gained freshly enqueued rows. *)
Definition db_inserts (L : labels) (db db' : DB) : Prop :=
  ∀ i, d_msgs db' !! i = d_msgs db !! i ∨
       (d_msgs db !! i = None ∧ row_step LEnqueue None (d_msgs db' !! i) ∧ L i LEnqueue).

#[export] Instance db_steps_preorder L : PreOrder (db_steps L).
Proof.
  split; [intros db i; reflexivity|]. intros a b c H1 H2 i. by etrans; [apply H1|apply H2].
Qed.

Lemma db_inserts_steps L db db' : db_inserts L db db' → db_steps L db db'.
Proof.
  intros H i. destruct (H i) as [->|(-> & ? & ?)]; [reflexivity|].
  by eapply row_steps_once.
Qed.

Lemma db_inserts_refl L db : db_inserts L db db.
Proof. intros i. by left. Qed.

(** A step of the rows that [p] selects is a step of the database. *)
Lemma update_steps L p f db :
  (∀ i r, p i r = true → d_msgs db !! i = Some r → ∃ l, L i l ∧ row_step l (Some r) (Some (f r))) →
  db_steps L db (set_msgs (update_where p f (d_msgs db)) db).
Proof.
  intros H i. simpl. rewrite lookup_update_where.
  destruct (d_msgs db !! i) as [r|] eqn:E; simpl; [|reflexivity].
  destruct (p i r) eqn:Ep; [|reflexivity].
  destruct (H i r Ep E) as (l & ? & ?). by eapply row_steps_once.
Qed.

Lemma delete_steps L p db :
  (∀ i r, p i r = true → d_msgs db !! i = Some r → ∃ l, L i l ∧ row_step l (Some r) None) →
  db_steps L db (set_msgs (delete_where p (d_msgs db)) db).
Proof.
  intros H i. simpl. rewrite lookup_delete_where.
  destruct (d_msgs db !! i) as [r|] eqn:E; simpl; [|reflexivity].
  destruct (p i r) eqn:Ep; [|reflexivity].
  destruct (H i r Ep E) as (l & ? & ?). by eapply row_steps_once.
Qed.

Lemma held_true id n i r : SQL.held id n i r = true ↔
  i = id ∧ r_status r = StatusHandling ∧ r_attempt r = n.
Proof.
  unfold SQL.held. rewrite !andb_true_iff, !bool_decide_eq_true, Z.eqb_eq. tauto.
Qed.

Lemma ack_steps (L : labels) id n f (lab : Z → label) db :
  (∀ r, r_status r = StatusHandling → row_step (lab (r_attempt r)) (Some r) (Some (f r))) →
  L id (lab n) → db_steps L db (SQL.ack id n f db).
Proof.
  intros Hf HL. apply update_steps. intros i r (-> & Hst & <-)%held_true _. eauto.
Qed.

Lemma insert_row_inserts (L : labels) part id r m res :
  SQL.insert_row part id r m = inr (Some res) → m !! id = None ∧ res = <[id := r]> m ∧
  r_max_attempts r ≤ int4_max ∧ SQL.idem_conflict part r m = false.
Proof.
  unfold SQL.insert_row. destruct (Z.ltb_spec int4_max (r_max_attempts r)); [done|].
  destruct (SQL.idem_conflict part r m); [done|].
  destruct (m !! id); [done|]. intros [= <-]. split_and!; try done.
Qed.

Section Statements.
Context (L : labels).

Lemma enqueueSQL_inserts part id et pl hd idem ma pa sh se db a db' :
  SQL.enqueueSQL part id et pl hd idem ma pa sh se db = inr (a, db') →
  0 < ma → idem ≠ Some ""%string → L id LEnqueue → db_inserts L db db'.
Proof.
  unfold SQL.enqueueSQL. intros H Hma Hid HL.
  destruct (SQL.insert_row _ _ _ _) as [?|[m|]] eqn:E; simplify_eq.
  - apply (insert_row_inserts L) in E as (Hnone & -> & Hmax & _). intros i; simpl.
    destruct (decide (i = id)) as [->|Hne]; [|left; by rewrite lookup_insert_ne].
    right. rewrite lookup_insert_eq. split_and!; try done.
    apply step_enqueue; [done|done].
  - apply db_inserts_refl.
Qed.

Lemma insert_rows_inserts part now rows m ins m' :
  SQL.insert_rows part now rows m = inr (ins, m') →
  Forall (λ b, 0 < SQL.br_max b ∧ L (SQL.br_id b) LEnqueue) rows →
  ∀ h n, db_inserts L (mkDB m h n) (mkDB m' h n).
Proof.
  revert m ins m'. induction rows as [|b rows IH]; intros m ins m' H Hrows h n; simpl in H.
  { simplify_eq. apply db_inserts_refl. }
  apply Forall_cons in Hrows as [[Hmax HL] Hrows].
  destruct (SQL.insert_row _ _ _ _) as [?|[m1|]] eqn:E; [done| |by eapply IH].
  destruct (SQL.insert_rows part now rows m1) as [?|[ins1 m2]] eqn:E2; simplify_eq.
  apply (insert_row_inserts L) in E as (Hnone & -> & Hm & _).
  pose proof (IH _ _ _ E2 Hrows h n) as Hrec. intros i.
  specialize (Hrec i). simpl in *.
  destruct (decide (i = SQL.br_id b)) as [->|Hne].
  - rewrite lookup_insert_eq in Hrec. destruct Hrec as [->|[? _]]; [|done]. right.
    split_and!; try done. apply step_enqueue; [done|].
    unfold nullif_empty. by case_bool_decide; [|congruence].
  - rewrite lookup_insert_ne in Hrec by done. done.
Qed.

Lemma batchInsertSQL_inserts part rows se db a db' :
  SQL.batchInsertSQL part rows se db = inr (a, db') →
  Forall (λ b, 0 < SQL.br_max b ∧ L (SQL.br_id b) LEnqueue) rows → db_inserts L db db'.
Proof.
  unfold SQL.batchInsertSQL. intros H Hrows.
  destruct (SQL.insert_rows _ _ _ _) as [?|[ins m]] eqn:E; simplify_eq.
  destruct db as [m0 h n]. by eapply insert_rows_inserts.
Qed.

(** The selection of a claim: eligible rows only, each once. *)
Lemma claim_select_eligible now types shard locked batch m i r :
  (i, r) ∈ SQL.claim_select now types shard locked batch m →
  m !! i = Some r ∧ SQL.claim_eligible now types shard locked i r = true.
Proof.
  unfold SQL.claim_select. intros Hin%elem_of_take_1.
  rewrite merge_sort_Permutation in Hin. by apply elem_of_select_where.
Qed.

Lemma claim_eligible_true now types shard locked i r :
  SQL.claim_eligible now types shard locked i r = true →
  pending (r_status r) = true ∧ r_process_at r ≤ now ∧ i ∉ locked.
Proof. unfold SQL.claim_eligible. intros. bools. split_and!; [done|lia|done]. Qed.

Lemma claimSQL_steps types batch worker lease shard se db a db' :
  SQL.claimSQL types batch worker lease shard se db = inr (a, db') →
  (∀ i, L i (LClaim worker)) → db_steps L db db'.
Proof.
  unfold SQL.claimSQL. case_bool_decide; [done|]. intros [= <- <-] HL.
  apply update_steps. intros i r Hi Hr. exists (LClaim worker). split; [done|]. bools.
  apply list_elem_of_fmap in Hi as ([i' r'] & -> & Hin).
  apply claim_select_eligible in Hin as [Hr' (? & ? & _)%claim_eligible_true].
  simplify_eq/=. by apply step_claim.
Qed.

Lemma extendSQL_steps id worker until se db a db' :
  SQL.extendSQL id worker until se db = inr (a, db') →
  L id (LExtend worker) → db_steps L db db'.
Proof.
  unfold SQL.extendSQL. intros [= <- <-] HL. apply update_steps. intros i r H _.
  unfold SQL.owned, eq_opt in H. bools. subst. destruct (r_claimed_by r) eqn:?; [|done].
  bools. subst. eauto with tickr.
Qed.

Lemma requeueSQL_steps id at_ se db a db' :
  SQL.requeueSQL id at_ se db = inr (a, db') → L id LRequeue → db_steps L db db'.
Proof.
  unfold SQL.requeueSQL. intros [= <- <-] HL. apply update_steps. intros i r H _.
  unfold SQL.is_dead in H. bools. subst. eauto with tickr.
Qed.

Lemma reclaimSQL_steps limit se db a db' :
  (∀ l, s_scan se l ≡ₚ l) →
  SQL.reclaimSQL limit se db = inr (a, db') → (∀ i, L i (LReclaim (s_now se))) → db_steps L db db'.
Proof.
  unfold SQL.reclaimSQL. intros Hscan [= <- <-] HL. apply update_steps. intros i r H Hr. bools.
  unfold SQL.reclaim_select in H. apply elem_of_take_1 in H. rewrite Hscan in H.
  apply list_elem_of_fmap in H as ([i' r'] & -> & Hin).
  apply elem_of_select_where in Hin as [Hr' Hexp]. simplify_eq/=.
  unfold SQL.lease_expired, lt_opt in Hexp. bools.
  destruct (r_claimed_until r') eqn:?; [|done].
  exists (LReclaim (s_now se)). split; [done|]. eapply step_reclaim; [done|done|lia].
Qed.

Lemma elem_of_scan_rows se l i r :
  (∀ l, s_scan se l ≡ₚ l) → NoDup l.*1 → (i, r) ∈ SQL.scan_rows se l ↔ (i, r) ∈ l.
Proof.
  intros Hscan Hnd. unfold SQL.scan_rows. rewrite list_elem_of_omap. split.
  - intros (j & Hj & Hf). destruct (_ !! j) as [r'|] eqn:E; simplify_eq/=.
    by apply elem_of_list_to_map in E.
  - intros Hin. exists i. rewrite Hscan. split; [by apply list_elem_of_fmap; exists (i, r)|].
    by rewrite (elem_of_list_to_map_1 l i r).
Qed.

Lemma purgeSQL_steps before limit se db a db' :
  (∀ l, s_scan se l ≡ₚ l) →
  SQL.purgeSQL before limit se db = inr (a, db') → (∀ i, L i (LPurge before)) → db_steps L db db'.
Proof.
  unfold SQL.purgeSQL. intros Hscan [= <- <-] HL. apply delete_steps. intros i r H Hr. bools.
  unfold SQL.purge_select in H. apply list_elem_of_fmap in H as ([i' r'] & -> & Hin%elem_of_take_1).
  rewrite merge_sort_Permutation in Hin.
  apply elem_of_scan_rows in Hin; [|done|apply NoDup_fst_select_where].
  apply elem_of_select_where in Hin as [Hr' Hp]. simplify_eq/=.
  unfold SQL.purgeable, lt_opt in Hp. bools. destruct (r_completed_at r') eqn:?; [|done].
  exists (LPurge before). split; [done|]. eapply step_purge; [done|done|lia].
Qed.
End Statements.

(** ** Operations as row steps *)

(** The caller's transaction holds freshly enqueued rows only. *)
Definition tx_ok (L : labels) (w : World) : Prop :=
  ∀ t i r, w_tx w = Some t → t_msgs t !! i = Some r →
    row_step LEnqueue None (Some r) ∧ L i LEnqueue.

(** From tick [t0] on, rows move along labels in [L] only. *)
Definition w_inv (L : labels) (t0 : nat) (w : World) : Prop :=
  (t0 <= w_tick w)%nat ∧ tx_ok L w.

Definition w_steps (L : labels) (w w' : World) : Prop := db_steps L (w_db w) (w_db w').

#[export] Instance w_steps_rel L t0 : WorldRel (w_inv L t0) (w_steps L).
Proof.
  split; [split|].
  - intros w. unfold w_steps. reflexivity.
  - intros a b c H1 H2. unfold w_steps in *. by etrans.
  - intros w [Ht Htx]. split; [split; [simpl; lia|done]|]. unfold w_steps. reflexivity.
Qed.

Lemma w_steps_commit L w : tx_ok L w → w_steps L w (caller_commit w).
Proof.
  intros Htx. unfold w_steps, caller_commit. destruct (w_tx w) as [t|] eqn:Ht; [|done].
  destruct (t_aborted t); [done|]. intros i. simpl.
  destruct (d_msgs (w_db w) !! i) as [r|] eqn:E.
  - rewrite lookup_union_l' by done. by rewrite E.
  - rewrite lookup_union_r by done. destruct (t_msgs t !! i) as [r|] eqn:E'; [|done].
    destruct (Htx t i r Ht E') as [Hs HL]. by eapply row_steps_once.
Qed.


(** ** Every issued statement is a row step *)

(** Labels of [L], a reclaim comparing leases with the time at which the
    transaction that began at tick [b] began. *)
Definition at_clock (env : Env) (b : nat) (L : labels) : labels :=
  λ i l, L i l ∧ ∀ t, l = LReclaim t → t = e_dbnow env b.

Section Issued.
Context (env : Env) `{Hok : !EnvOK env} (s : Store) (L : labels) (t0 : nat).

Lemma same_msgs_inserts db db' : d_msgs db' = d_msgs db → db_inserts L db db'.
Proof. intros E i. left. by rewrite E. Qed.

Lemma same_msgs_steps (L' : labels) db db' : d_msgs db' = d_msgs db → db_steps L' db db'.
Proof. intros E i. by rewrite E. Qed.

Lemma tx_issued_inserts A (st : stmt A) b n db a db' :
  tx_issued s (λ i, L i LEnqueue) A st →
  st (sql_env env b n) db = inr (a, db') → db_inserts L db db'.
Proof.
  destruct 1; intros Hst.
  - by eapply enqueueSQL_inserts.
  - by eapply batchInsertSQL_inserts.
  - injection Hst as <- <-. by apply same_msgs_inserts.
  - injection Hst as <- <-. by apply same_msgs_inserts.
Qed.

(** An acknowledgement under attempt [n] labels only the row it names. *)
Lemma ack_at_clock b id n f (lab : Z → label) db :
  (∀ r, r_status r = StatusHandling → row_step (lab (r_attempt r)) (Some r) (Some (f r))) →
  (∀ t, lab n ≠ LReclaim t) → L id (lab n) →
  db_steps (at_clock env b L) db (SQL.ack id n f db).
Proof. intros Hf Hne HL. apply (ack_steps _ _ _ _ lab); [done|]. split; [done|]. by intros t ?%Hne. Qed.

Lemma issued_steps A (st : stmt A) b n db a db' :
  issued s L A st → st (sql_env env b n) db = inr (a, db') →
  db_steps (at_clock env b L) db db'.
Proof.
  assert (∀ l, s_scan (sql_env env b n) l ≡ₚ l) as Hscan by (intros; apply scan_perm).
  destruct 1; intros Hst.
  - eapply claimSQL_steps; [done|]. by split.
  - injection Hst as <- <-. by apply (ack_at_clock _ _ _ _ LSucceed); auto with tickr.
  - injection Hst as <- <-. by apply (ack_at_clock _ _ _ _ LSucceed); auto with tickr.
  - injection Hst as <- <-. by apply (ack_at_clock _ _ _ _ LRetry); auto with tickr.
  - injection Hst as <- <-. by apply (ack_at_clock _ _ _ _ LDead); auto with tickr.
  - injection Hst as <- <-. by apply (ack_at_clock _ _ _ _ LRetry); auto with tickr.
  - injection Hst as <- <-. by apply (ack_at_clock _ _ _ _ LDead); auto with tickr.
  - injection Hst as <- <-. by apply (ack_at_clock _ _ _ _ LRelease); auto with tickr.
  - injection Hst as <- <-. by apply (ack_at_clock _ _ _ _ LRelease); auto with tickr.
  - eapply extendSQL_steps; [done|]. by split.
  - injection Hst as <- <-. by apply same_msgs_steps.
  - injection Hst as <- <-. by apply same_msgs_steps.
  - injection Hst as <- <-. by apply same_msgs_steps.
  - eapply requeueSQL_steps; [done|]. by split.
  - eapply reclaimSQL_steps; [done|done|]. intros i. split; [done|]. by intros t [= <-].
  - eapply purgeSQL_steps; [done|done|]. by split.
  - injection Hst as <- <-. by apply same_msgs_steps.
  - injection Hst as <- <-. by apply same_msgs_steps.
  - apply db_inserts_steps. intros i.
    edestruct (tx_issued_inserts A st) as [E|(? & ? & ?)]; [done..|by left|]. right. by split_and!.
Qed.

Lemma tx_issued_in A (st : stmt A) :
  tx_issued s (λ i, L i LEnqueue) A st → stmt_in_tx env (w_inv L t0) (w_steps L) st.
Proof.
  intros H w t view failed [Hle Htx] Ht Hview.
  split; [split; [simpl; lia|]|unfold w_steps; reflexivity].
  intros ? i r [= <-] Hi. simpl in Hi. apply lookup_difference_Some in Hi as [Hv Hdb].
  assert (db_inserts L (tx_view (w_db w) t) view) as Hins.
  { destruct Hview as [->|[a Ha]]; [apply db_inserts_refl|by eapply tx_issued_inserts]. }
  destruct (Hins i) as [Heq|(_ & Hs & HL)]; [|by rewrite Hv in Hs].
  rewrite Hv in Heq. simpl in Heq. rewrite lookup_union_r in Heq by done. by eapply Htx.
Qed.

#[export] Instance rows_logic : SqlLogic env s L (w_inv L t0) (w_steps L).
Proof.
  split.
  - apply _.
  - intros A st H w b a db' [Ht Htx] _ Hst. split; [split; [simpl; lia|done]|].
    eapply db_steps_weaken; [|by eapply issued_steps]. by intros i l [? _].
  - apply tx_issued_in.
Qed.
End Issued.
