(* ===== verification/Demo.v ===== *)
(** * A concrete environment

    Clocks that advance by a second per tick, UUIDs numbered by tick, no
    faults, no foreign locks and the identity enumeration order: the
    instance at which the theorems with hypotheses on the environment are
    applied. *)

From S2P Require Import Prelude GoErrors GoFloat Message World Postgres.

Definition demo_id (n : nat) : UUID := String.append "id-" (pretty (Z.of_nat n)).

Definition demo_clock (n : nat) : Time := (1000 + Z.of_nat n) * Second.

Definition demo_env : Env :=
  {| e_now := demo_clock; e_dbnow := demo_clock; e_fault := λ _, NoFault;
     e_locked := λ _, ∅; e_scan := λ _ l, l; e_rand := Z.of_nat;
     e_v7 := λ n, Some (demo_id n); e_v4 := demo_id;
     e_uuid_Parse := λ s, if bool_decide (s = "bad"%string) then None else Some s;
     e_uuid_err := λ s, errorString s;
     e_batch_exhausted := Some (errorString "no result") |}.

#[export] Instance demo_ok : EnvOK demo_env.
Proof.
  split.
  - done.
  - intros n u [= <-]. done.
  - intros n. done.
Defined.

Definition demo_store : Store := New [].

Definition demo_params : EnqueueParams :=
  {| ep_EventType := "order.paid"; ep_Payload := "{}"; ep_Headers := None;
     ep_IdempotencyKey := "k-1"; ep_MaxAttempts := 3; ep_ProcessAt := 0 |}.

Definition demo_claim : ClaimParams :=
  {| cp_WorkerID := "w-1"; cp_Batch := 10; cp_Lease := 30 * Second; cp_EventTypes := [] |}.
