(* ===== verification/Fleet.v ===== *)
(** * A fleet of processes over one database

    Producers, workers, janitors and administrators all run storage
    operations against the same database.  A configuration is the world and
    the operations in flight, each with the program it has left to run; a step
    starts any operation with any arguments, performs the next atomic action
    of any one in flight, loses an operation (it returned, or its process
    crashed between two statements), lets time pass, or begins, rolls back or
    commits the caller's transaction.  A step names its actor, the operation
    that acted; what the operation promises of rows ([op_label]) is then a
    simulation by single steps ([fleet_step_acts]). *)

From S2P Require Import Prelude GoErrors GoFloat Message World Postgres Lifecycle PostgresLogic PostgresFacts.

Record fleet := mkFleet { f_world : World; f_flight : list (op * prog unit) }.

Definition f_rows (f : fleet) : gmap UUID row := d_msgs (w_db (f_world f)).

(** A transaction commits only when its rows conflict with none committed
    meanwhile: the unique indexes make the loser wait and then fail. *)
Definition commit_conflict (part : bool) (w : World) : bool :=
  match w_tx w with
  | Some t => negb (bool_decide (map_Forall (λ i r,
      d_msgs (w_db w) !! i = None ∧ SQL.idem_conflict part r (d_msgs (w_db w)) = false) (t_msgs t)))
  | None => false
  end.

(** Who acts in a step: an operation in flight, the caller's transaction as it
    commits, or nobody that touches committed rows. *)
Inductive actor := ByOp (o : op) | ByCommit | Silent.

Inductive fleet_step (env : Env) (s : Store) (allowed : op → Prop) : actor → fleet → fleet → Prop :=
| fl_call o w ts :
    allowed o →
    fleet_step env s allowed Silent (mkFleet w ts) (mkFleet w ((o, op_prog env s o) :: ts))
| fl_act o B (c : State World B) k w ts1 ts2 :
    fleet_step env s allowed (ByOp o) (mkFleet w (ts1 ++ (o, Act c k) :: ts2))
      (mkFleet (c w).2 (ts1 ++ (o, k (c w).1) :: ts2))
| fl_lose o p w ts1 ts2 :
    fleet_step env s allowed Silent (mkFleet w (ts1 ++ (o, p) :: ts2)) (mkFleet w (ts1 ++ ts2))
| fl_idle w ts : fleet_step env s allowed Silent (mkFleet w ts) (mkFleet (tick w) ts)
| fl_begin w ts :
    w_tx w = None → fleet_step env s allowed Silent (mkFleet w ts) (mkFleet (caller_begin w) ts)
| fl_rollback w ts : fleet_step env s allowed Silent (mkFleet w ts) (mkFleet (caller_rollback w) ts)
| fl_commit w ts :
    commit_conflict (partitioned s) w = false →
    fleet_step env s allowed ByCommit (mkFleet w ts) (mkFleet (caller_commit w) ts).

Definition fleet_steps (env : Env) (s : Store) (allowed : op → Prop) : fleet → fleet → Prop :=
  rtc (λ f f', ∃ a, fleet_step env s allowed a f f').

Lemma rtc_trans {A} (R : relation A) x y z : rtc R x y → rtc R y z → rtc R x z.
Proof. intros. by etrans. Qed.

Lemma fleet_steps_l env s allowed a f g f' :
  fleet_step env s allowed a f g → fleet_steps env s allowed g f' → fleet_steps env s allowed f f'.
Proof. intros. eapply rtc_l; [by eexists|done]. Qed.

Lemma fleet_steps_r env s allowed a f g f' :
  fleet_steps env s allowed f g → fleet_step env s allowed a g f' → fleet_steps env s allowed f f'.
Proof. intros. eapply rtc_r; [done|by eexists]. Qed.

(** A run: its steps in order, each with its actor and the configuration it led
    to. *)
Inductive fleet_trace (env : Env) (s : Store) (allowed : op → Prop) :
    fleet → list (actor * fleet) → fleet → Prop :=
| tr_nil f : fleet_trace env s allowed f [] f
| tr_cons a f g tr f' :
    fleet_step env s allowed a f g → fleet_trace env s allowed g tr f' →
    fleet_trace env s allowed f ((a, g) :: tr) f'.

Lemma fleet_trace_steps env s allowed f tr f' :
  fleet_trace env s allowed f tr f' → fleet_steps env s allowed f f'.
Proof. induction 1; [reflexivity|by eapply fleet_steps_l]. Qed.

Lemma fleet_steps_trace env s allowed f f' :
  fleet_steps env s allowed f f' → ∃ tr, fleet_trace env s allowed f tr f'.
Proof.
  induction 1 as [f|f g f' [a Ha] _ [tr Htr]]; [exists []; constructor|].
  exists ((a, g) :: tr). by econstructor.
Qed.

Definition any_op (_ : op) : Prop := True.

(** The empty schema, with nothing in flight. *)
Definition init_world : World := mkWorld (mkDB ∅ [] []) None 0.
Definition init_fleet : fleet := mkFleet init_world [].

Definition reachable (env : Env) (s : Store) (f : fleet) : Prop :=
  fleet_steps env s any_op init_fleet f.

(** An operation run alone is a sequence of fleet steps. *)
Lemma fleet_run env s allowed o (p : prog unit) w ts :
  fleet_steps env s allowed (mkFleet w ((o, p) :: ts)) (mkFleet (run p w).2 ts).
Proof.
  revert w. induction p as [a|B c k IH]; intros w; simpl.
  - eapply fleet_steps_l; [apply (fl_lose env s allowed o (Ret a) w [] ts)|]. reflexivity.
  - eapply fleet_steps_l; [apply (fl_act env s allowed o B c k w [] ts)|]. simpl.
    specialize (IH (c w).1 (c w).2). by destruct (c w).
Qed.

Lemma fleet_op env s (allowed : op → Prop) o w ts :
  allowed o → fleet_steps env s allowed (mkFleet w ts) (mkFleet (run (op_prog env s o) w).2 ts).
Proof. intros Ho. eapply fleet_steps_l; [by apply fl_call|]. apply fleet_run. Qed.

(** ** Invariants of fleets from invariants of statements *)

(** What time and the caller's transaction control must respect; the step
    relation is indexed by the actor. *)
Class CallerLogic (part : bool) (I : World → Prop) (R : actor → World → World → Prop) : Prop := {
  cl_same : ∀ w, I w → R Silent w w;
  cl_idle : ∀ w, I w → I (tick w) ∧ R Silent w (tick w);
  cl_begin : ∀ w, I w → w_tx w = None → I (caller_begin w) ∧ R Silent w (caller_begin w);
  cl_rollback : ∀ w, I w → I (caller_rollback w) ∧ R Silent w (caller_rollback w);
  cl_commit : ∀ w, I w → commit_conflict part w = false →
    I (caller_commit w) ∧ R ByCommit w (caller_commit w);
}.

Section Fleet.
Context (env : Env) (s : Store).
Context (I : World → Prop) (R : actor → World → World → Prop).
Context `{!CallerLogic (partitioned s) I R}.
Context (allowed : op → Prop).
Context (Hop : ∀ o, allowed o → ok I (R (ByOp o)) (op_prog env s o)).

Definition fleet_ok (f : fleet) : Prop :=
  I (f_world f) ∧ Forall (λ t, ok I (R (ByOp t.1)) t.2) (f_flight f).

Lemma fleet_step_ok a f f' :
  fleet_step env s allowed a f f' → fleet_ok f → fleet_ok f' ∧ R a (f_world f) (f_world f').
Proof.
  destruct 1 as [o w ts Ho|o B c k w ts1 ts2|o p w ts1 ts2|w ts|w ts Hw|w ts|w ts Hw];
    intros [HI Hts]; unfold fleet_ok; simpl in *.
  - split; [split; [done|]|by apply cl_same]. constructor; [|done]. by apply Hop.
  - apply Forall_app in Hts as [H1 [Hc H2]%Forall_cons].
    destruct (Hc w HI) as (? & ? & ?). split; [split; [done|]|done].
    apply Forall_app. split; [done|]. by constructor.
  - apply Forall_app in Hts as [H1 [Hc H2]%Forall_cons].
    split; [split; [done|]|by apply cl_same]. by apply Forall_app.
  - by destruct (cl_idle w HI).
  - by destruct (cl_begin w HI Hw).
  - by destruct (cl_rollback w HI).
  - by destruct (cl_commit w HI Hw).
Qed.

Lemma fleet_steps_ok f f' : fleet_steps env s allowed f f' → fleet_ok f → fleet_ok f'.
Proof. induction 1 as [|a b c [? Hs] _ IH]; [done|]. intros Hok. by eapply IH, fleet_step_ok. Qed.

Lemma fleet_steps_rel (R' : World → World → Prop) `{!PreOrder R'} f f' :
  (∀ a w w', R a w w' → R' w w') → fleet_steps env s allowed f f' → fleet_ok f →
  R' (f_world f) (f_world f').
Proof.
  intros HR. induction 1 as [|a b c [? Hs] _ IH]; intros Hok; [reflexivity|].
  destruct (fleet_step_ok _ _ _ Hs Hok) as [Hb Hab]. etrans; [by eapply HR|by apply IH].
Qed.
End Fleet.

(** The operations of a store respect whatever its statements respect. *)
Lemma sql_ops_ok env s I R :
  SqlLogic env s (λ _ _, True) I R → ∀ o, ok I R (op_prog env s o).
Proof. intros ? o. by eapply safe_op. Qed.

(** ** Rows of a fleet move along the lifecycle *)

#[export] Instance rows_caller part L t0 : CallerLogic part (w_inv L t0) (λ _, w_steps L).
Proof.
  split.
  - intros w _. unfold w_steps. reflexivity.
  - intros w. apply (wr_tick (WorldRel := w_steps_rel L t0)).
  - intros w [Ht Htx] _. split; [split; [done|]|unfold w_steps; reflexivity].
    intros t i r [= <-] H. simpl in H. by rewrite lookup_empty in H.
  - intros w [Ht Htx]. split; [split; [done|]|unfold w_steps; reflexivity]. by intros ?? ? [=].
  - intros w [Ht Htx] _. split; [|by apply w_steps_commit].
    unfold caller_commit. destruct (w_tx w) as [t|] eqn:E; [|done].
    destruct (t_aborted t); (split; [done|]); by intros ???.
Qed.

(** If the labels the allowed operations promise are in [L], every row moves
    along labels in [L] only. *)
Lemma fleet_rows env `{!EnvOK env} s (L : labels) t0 (allowed : op → Prop) f f' :
  (∀ o i l, allowed o → l ≠ LEnqueue → op_label env i o l → L i l) →
  (∀ t i, (t0 <= t)%nat → gen_id env t i → L i LEnqueue) →
  fleet_steps env s allowed f f' →
  fleet_ok (w_inv L t0) (λ _, w_steps L) f →
  fleet_ok (w_inv L t0) (λ _, w_steps L) f' ∧ w_steps L (f_world f) (f_world f').
Proof.
  intros HB HG Hs Hok. pose proof (rows_caller (partitioned s) L t0).
  assert (∀ o, allowed o → ok (w_inv L t0) (w_steps L) (op_prog env s o)) as Hop.
  { intros o Ho. apply (safe_op env s L (w_inv L t0) (w_steps L)).
    - intros i l. by apply HB.
    - intros w i _ [Ht _]. by apply HG. }
  split; [by eapply fleet_steps_ok|]. eapply (fleet_steps_rel env s _ _ _ Hop); eauto.
  apply (w_steps_rel L t0).
Qed.

(** With no restriction on labels. *)
Abbreviation all_labels := (λ (_ : UUID) (_ : label), True).
Abbreviation fresh := (w_inv all_labels 0).

Lemma fresh_init : fresh init_world.
Proof. split; [simpl; lia|]. by intros ???. Qed.

(** ** What the actor of a step does to rows *)

(** Labels of [L], a reclaim comparing leases with a clock read by [w]. *)
Definition clocked (env : Env) (L : labels) (w : World) : labels :=
  λ i l, L i l ∧ ∀ t, l = LReclaim t → ∃ b, (b <= w_tick w)%nat ∧ t = e_dbnow env b.

(** Time does not go back, and rows move along such labels. *)
Definition label_rel (env : Env) (L : labels) (w w' : World) : Prop :=
  (w_tick w <= w_tick w')%nat ∧ w_steps (clocked env L w') w w'.

Lemma label_rel_same env L w w' :
  w_db w' = w_db w → (w_tick w <= w_tick w')%nat → label_rel env L w w'.
Proof. intros E Ht. split; [done|]. unfold w_steps. by rewrite E. Qed.

#[export] Instance label_rel_rel env L : WorldRel fresh (label_rel env L).
Proof.
  split; [split|].
  - intros w. by apply label_rel_same.
  - intros a b c [Hab Sab] [Hbc Sbc]. split; [lia|]. unfold w_steps in *. etrans; [|exact Sbc].
    eapply db_steps_weaken; [|exact Sab]. intros i l [Hl Ht]. split; [done|].
    intros t El. destruct (Ht t El) as (n & ? & ?). exists n. split; [lia|done].
  - intros w [Ht Htx]. split; [split; [simpl; lia|done]|]. apply label_rel_same; simpl; [done|lia].
Qed.

#[export] Instance label_logic env `{!EnvOK env} s L : SqlLogic env s L fresh (label_rel env L).
Proof.
  split; [apply _| |].
  - intros A st H w b a db' [Ht Htx] Hb Hst. split; [split; [simpl; lia|done]|].
    split; [simpl; lia|]. eapply db_steps_weaken; [|by eapply issued_steps].
    intros i l [Hl Hc]. split; [done|]. intros t El. exists b. split; [simpl; lia|by apply Hc].
  - intros A st H w t view failed Hw Ht Hview.
    assert (tx_issued s (λ _, True) A st) as H' by (eapply tx_issued_mono; [|exact H]; done).
    destruct (tx_issued_in env s all_labels 0 A st H' w t view failed Hw Ht Hview).
    split; [done|]. apply label_rel_same; simpl; [done|lia].
Qed.

(** What each actor may do. *)
Definition acts (env : Env) (a : actor) : World → World → Prop :=
  match a with
  | ByOp o => label_rel env (λ i, op_label env i o)
  | ByCommit => label_rel env (λ _ l, l = LEnqueue)
  | Silent => λ w w', (w_tick w <= w_tick w')%nat ∧ w_db w' = w_db w
  end.

#[export] Instance acts_caller env part : CallerLogic part fresh (acts env).
Proof.
  pose proof (rows_caller part all_labels 0) as [_ Hi Hb Hr Hc]. split.
  - by intros w _.
  - intros w Hw. split; [by apply Hi|]. simpl. split; [lia|done].
  - intros w Hw Hn. split; [by apply Hb|]. by split.
  - intros w Hw. split; [by apply Hr|]. by split.
  - intros w Hw Hx. split; [by apply Hc|]. split.
    + unfold caller_commit. destruct (w_tx w) as [t|]; [|done]. by destruct (t_aborted t).
    + apply w_steps_commit. intros t i r Ht Hi'. destruct Hw as [_ Htx].
      destruct (Htx t i r Ht Hi') as [? _]. split; [done|]. by split.
Qed.

Lemma acts_ops_ok env `{!EnvOK env} s o : any_op o → ok fresh (acts env (ByOp o)) (op_prog env s o).
Proof.
  intros _. apply (safe_op env s (λ i, op_label env i o) fresh _); [|done]. by intros i l.
Qed.

Lemma reachable_ok env `{!EnvOK env} s f : reachable env s f → fleet_ok fresh (acts env) f.
Proof.
  intros Hr. eapply fleet_steps_ok; [apply _|apply acts_ops_ok; done|exact Hr|].
  split; [apply fresh_init|constructor].
Qed.

(** Every step of a run does what its actor may do. *)
Lemma fleet_step_acts env `{!EnvOK env} s a f f' :
  reachable env s f → fleet_step env s any_op a f f' → acts env a (f_world f) (f_world f').
Proof.
  intros Hr Hs. eapply (fleet_step_ok env s fresh (acts env) any_op); [|exact Hs|].
  - intros o. apply (acts_ops_ok env s).
  - by apply (reachable_ok env s).
Qed.

Lemma reachable_steps env `{!EnvOK env} s f :
  reachable env s f → w_steps all_labels init_world (f_world f).
Proof.
  intros Hr. by eapply (fleet_rows env s all_labels 0 any_op init_fleet f).
Qed.
