(* ===== verification/FleetSafety.v ===== *)
(** * Safety of the fleet

    What holds of the database whatever producers, workers, janitors and
    administrators do, in whatever order their statements interleave, whichever
    statements fail and whichever processes crash. *)

From S2P Require Import Prelude GoErrors GoFloat Message World Postgres Lifecycle PostgresLogic PostgresFacts Demo Fleet.

(** ** A run of the demo environment, used by the witnesses *)

Definition demo_enqueued : World :=
  (run (op_prog demo_env demo_store (OpEnqueue TxZero demo_params)) init_world).2.
Definition demo_claimed : World :=
  (run (op_prog demo_env demo_store (OpClaim demo_claim)) demo_enqueued).2.
Definition demo_done : World :=
  (run (op_prog demo_env demo_store (OpSucceed (demo_id 0) 1 "w-1")) demo_claimed).2.
Definition demo_purged : World :=
  (run (op_prog demo_env demo_store (OpPurgeTerminal (2000 * Second) 100)) demo_done).2.
Definition demo_failed : World :=
  (run (op_prog demo_env demo_store
     (OpFail (mkFailParams (demo_id 0) 1 "w-1" "boom" (1500 * Second) false))) demo_claimed).2.

Lemma demo_reach_enqueued : reachable demo_env demo_store (mkFleet demo_enqueued []).
Proof. by apply fleet_op. Qed.

Lemma demo_claims : fleet_steps demo_env demo_store any_op
  (mkFleet demo_enqueued []) (mkFleet demo_claimed []).
Proof. by apply fleet_op. Qed.

Lemma demo_reach_claimed : reachable demo_env demo_store (mkFleet demo_claimed []).
Proof. eapply rtc_trans; [apply demo_reach_enqueued|apply demo_claims]. Qed.

(** ** The lifecycle *)

(** The labels an actor may put on row [i]: those its operation promises; a
    commit of the caller's transaction adds its enqueued rows. *)
Definition may_label (env : Env) (a : actor) (i : UUID) (l : label) : Prop :=
  match a with
  | ByOp o => op_label env i o l
  | ByCommit => l = LEnqueue
  | Silent => False
  end.

(** An actor's changes to a row make at most one edge, under its labels. *)
Lemma acts_life env a w w' i :
  acts env a w w' →
  row_view (d_msgs (w_db w') !! i) = row_view (d_msgs (w_db w) !! i) ∨
  ∃ l, may_label env a i l ∧
    life_step l (row_view (d_msgs (w_db w) !! i)) (row_view (d_msgs (w_db w') !! i)).
Proof.
  destruct a as [o| |]; simpl.
  - intros [_ H]. apply row_steps_life; [apply op_label_one_shot|].
    eapply row_steps_weaken; [|apply (H i)]. by intros l [? _].
  - intros [_ H]. apply (row_steps_life (λ l, l = LEnqueue)).
    + intros l l' u v v' -> -> H1 H2. inversion H1; subst; inversion H2.
    + eapply row_steps_weaken; [|apply (H i)]. by intros l [? _].
  - intros [_ ->]. by left.
Qed.

(** C1: The adapter refines the documented status machine step by step.  In
    any run, under any interleaving of any operations at statement granularity,
    with any faults and crashes, each single step (a statement, a batch, a
    commit, a crash, a tick) either leaves the status and attempt of a message
    alone, or moves it along exactly one edge of the lifecycle, and that edge
    is one the operation that acted promises: only Enqueue and EnqueueBatch (or
    the commit of a transaction they ran in) create a row, CREATED with
    attempt 0; only Claim enters HANDLING, from CREATED or RETRYING, adding one
    to the attempt; an acknowledgement moves only HANDLING under the attempt it
    names, to its own target; only ReclaimExpired takes HANDLING back to
    RETRYING keeping the attempt; only Requeue leaves DEAD; only PurgeTerminal
    removes a row, and only from SUCCESS or DEAD. *)
Theorem fleet_refines_lifecycle env `{!EnvOK env} s a f f' i :
  reachable env s f → fleet_step env s any_op a f f' →
  row_view (f_rows f' !! i) = row_view (f_rows f !! i) ∨
  ∃ l, may_label env a i l ∧ life_step l (row_view (f_rows f !! i)) (row_view (f_rows f' !! i)).
Proof. intros Hr Hs. eapply acts_life, fleet_step_acts; eauto. Qed.

(** The statement of a claim, in flight. *)
Definition demo_claiming : fleet :=
  mkFleet demo_enqueued [(OpClaim demo_claim, op_prog demo_env demo_store (OpClaim demo_claim))].

Definition next_action (f : fleet) : fleet :=
  match f_flight f with
  | (o, Act c k) :: ts => mkFleet (c (f_world f)).2 ((o, k (c (f_world f)).1) :: ts)
  | _ => f
  end.

Lemma next_action_step env s allowed o B (c : State World B) k ts f :
  f_flight f = (o, Act c k) :: ts → fleet_step env s allowed (ByOp o) f (next_action f).
Proof.
  destruct f as [w fl]. unfold next_action. simpl. intros ->.
  apply (fl_act env s allowed o B c k w [] ts).
Qed.

(** The shard is drawn and the query on that shard found nothing; the next
    action is the query over all shards. *)
Lemma demo_claiming_reach : reachable demo_env demo_store (next_action (next_action demo_claiming)).
Proof.
  eapply rtc_trans; [apply demo_reach_enqueued|].
  eapply fleet_steps_l; [by apply (fl_call _ _ _ (OpClaim demo_claim))|].
  eapply fleet_steps_l; [by eapply (next_action_step _ _ _ (OpClaim demo_claim) _ _ _ [] demo_claiming)|].
  eapply fleet_steps_l; [|reflexivity]. by eapply next_action_step.
Qed.

Lemma fleet_refines_lifecycle_witness :
  let f := next_action (next_action demo_claiming) in
  row_view (f_rows f !! demo_id 0) = Some (StatusCreated, 0) ∧
  row_view (f_rows (next_action f) !! demo_id 0) = Some (StatusHandling, 1) ∧
  ∃ l, may_label demo_env (ByOp (OpClaim demo_claim)) (demo_id 0) l ∧
    life_step l (Some (StatusCreated, 0)) (Some (StatusHandling, 1)).
Proof.
  intros f. split; [vm_compute; reflexivity|]. split; [vm_compute; reflexivity|].
  assert (fleet_step demo_env demo_store any_op (ByOp (OpClaim demo_claim)) f (next_action f))
    as Hs by (by eapply next_action_step).
  destruct (fleet_refines_lifecycle demo_env demo_store _ f _ (demo_id 0) demo_claiming_reach Hs)
    as [H|H].
  - vm_compute in H. discriminate.
  - exact H.
Defined.

(** C23: Every row of every reachable database is well formed: it carries a
    lease (owner and expiry) exactly while HANDLING, a completion time exactly
    when SUCCESS or DEAD, a non-negative attempt (at least 1 while HANDLING), an
    attempt budget within the column's range and never the transient FAILED
    status. *)
Theorem reachable_rows_wf env `{!EnvOK env} s f i r :
  reachable env s f → f_rows f !! i = Some r → row_wf r.
Proof.
  intros Hr Hi. pose proof (reachable_steps env s f Hr i) as Hst. change (d_msgs (w_db (f_world f)) !! i) with (f_rows f !! i) in Hst.
  rewrite Hi in Hst. eapply (row_steps_inv _ opt_wf) in Hst; [by apply Hst| |by intros ? [=]].
  intros l a b _. apply row_step_wf.
Qed.

Lemma reachable_rows_wf_witness :
  ∃ r, f_rows (mkFleet demo_claimed []) !! demo_id 0 = Some r ∧ r_status r = StatusHandling
    ∧ row_wf r.
Proof.
  eexists. split; [vm_compute; reflexivity|]. split; [reflexivity|].
  apply (reachable_rows_wf demo_env demo_store (mkFleet demo_claimed []) (demo_id 0));
    [apply demo_reach_claimed|vm_compute; reflexivity].
Defined.

(** ** No message is lost *)

(** A step keeps the identity of a row, or is a purge of it. *)
Lemma acts_keeps env a w w' i r :
  acts env a w w' → d_msgs (w_db w) !! i = Some r →
  (∃ r', d_msgs (w_db w') !! i = Some r' ∧ row_identity r' = row_identity r) ∨
  (d_msgs (w_db w') !! i = None ∧ ∃ before limit t, a = ByOp (OpPurgeTerminal before limit) ∧
    (r_status r = StatusSuccess ∨ r_status r = StatusDead) ∧
    r_completed_at r = Some t ∧ t < before).
Proof.
  intros Ha Hi.
  assert (∃ L : label → Prop, (∀ l, L l → may_label env a i l) ∧
    row_steps L (d_msgs (w_db w) !! i) (d_msgs (w_db w') !! i)) as (L & HL & Hst).
  { destruct a as [o| |]; simpl in Ha.
    - exists (λ l, op_label env i o l). split; [done|]. destruct Ha as [_ H].
      eapply row_steps_weaken; [|apply (H i)]. by intros l [? _].
    - exists (λ l, l = LEnqueue). split; [done|]. destruct Ha as [_ H].
      eapply row_steps_weaken; [|apply (H i)]. by intros l [? _].
    - exists (λ _, False). split; [done|]. destruct Ha as [_ ->]. reflexivity. }
  rewrite Hi in Hst. destruct (d_msgs (w_db w') !! i) as [r'|] eqn:Hi'.
  - left. exists r'. split; [done|]. eapply row_steps_identity; [|exact Hst].
    assert ((∀ b, ¬ may_label env a i (LPurge b)) ∨ ¬ may_label env a i LEnqueue) as [H|H].
    { destruct a as [[]| |]; simpl;
        solve [left; intros b H; inversion H; repeat case_match; done
              |right; intros H; inversion H; repeat case_match; done]. }
    + right. intros b ?%HL. by eapply H.
    + left. by intros ?%HL.
  - right. split; [done|]. pose proof Hst as [bf Hbf%HL]%row_steps_gone.
    destruct a as [o| |]; simpl in Hbf; [|done..].
    assert (∃ limit, o = OpPurgeTerminal bf limit) as [limit ->].
    { inversion Hbf; subst; repeat case_match; simplify_eq. by eexists. }
    destruct (row_steps_purged L bf r) as (? & t & ? & ?); [|exact Hst|].
    + intros l Hl%HL. by inversion Hl.
    + by exists bf, limit, t.
Qed.

(** C20: A message leaves the table only by a purge of completed messages.  If
    a message present at the start of a run is absent at its end, then the run
    has a step of some PurgeTerminal call just before which the message was
    still in the table, with its type, payload, headers, key, attempt budget,
    shard and creation time intact, SUCCESS or DEAD, and completed strictly
    before that call's cutoff, and just after which it was gone. *)
Theorem only_purge_loses env `{!EnvOK env} s f tr f' i r :
  reachable env s f → fleet_trace env s any_op f tr f' →
  f_rows f !! i = Some r → f_rows f' !! i = None →
  ∃ before limit t1 g g' t2 r' t,
    tr = t1 ++ (ByOp (OpPurgeTerminal before limit), g') :: t2 ∧
    fleet_trace env s any_op f t1 g ∧
    f_rows g !! i = Some r' ∧ f_rows g' !! i = None ∧
    row_identity r' = row_identity r ∧
    (r_status r' = StatusSuccess ∨ r_status r' = StatusDead) ∧
    r_completed_at r' = Some t ∧ t < before.
Proof.
  intros Hr Hs. revert r Hr. induction Hs as [f|a f f1 tr f' Ha Hs IH]; intros r Hr Hi Hgone.
  { by rewrite Hi in Hgone. }
  pose proof (fleet_step_acts env s a f f1 Hr Ha) as Hacts.
  destruct (acts_keeps env a _ _ i r Hacts Hi) as [(r1 & Hi1 & E)|(Hi1 & bf & lim & t & -> & ?)].
  - destruct (IH r1) as (bf & lim & t1 & g & g' & t2 & r' & t & -> & Hg & ? & ? & E' & ?);
      [by eapply fleet_steps_r|done|done|].
    exists bf, lim, ((a, f1) :: t1), g, g', t2, r', t.
    split_and!; try tauto; [by econstructor|congruence].
  - exists bf, lim, [], f, f1, tr, r, t. split_and!; try tauto. constructor.
Qed.

Lemma only_purge_loses_witness :
  f_rows (mkFleet demo_purged []) !! demo_id 0 = None ∧
  ∃ tr before limit t1 g g' t2 r' t,
    fleet_trace demo_env demo_store any_op (mkFleet demo_enqueued []) tr (mkFleet demo_purged []) ∧
    tr = t1 ++ (ByOp (OpPurgeTerminal before limit), g') :: t2 ∧
    f_rows g !! demo_id 0 = Some r' ∧ f_rows g' !! demo_id 0 = None ∧
    (r_status r' = StatusSuccess ∨ r_status r' = StatusDead) ∧
    r_completed_at r' = Some t ∧ t < before.
Proof.
  assert (f_rows (mkFleet demo_purged []) !! demo_id 0 = None) as Hgone
    by (vm_compute; reflexivity).
  split; [exact Hgone|].
  assert (fleet_steps demo_env demo_store any_op (mkFleet demo_enqueued []) (mkFleet demo_purged []))
    as [tr Htr]%fleet_steps_trace.
  { eapply rtc_trans; [apply demo_claims|].
    eapply rtc_trans; [by apply (fleet_op demo_env demo_store _ (OpSucceed (demo_id 0) 1 "w-1"))|].
    by apply (fleet_op demo_env demo_store _ (OpPurgeTerminal (2000 * Second) 100)). }
  edestruct (only_purge_loses demo_env demo_store (mkFleet demo_enqueued []) tr
    (mkFleet demo_purged []) (demo_id 0))
    as (bf & lim & t1 & g & g' & t2 & r' & t & E & _ & H1 & H2 & _ & H3 & H4 & H5).
  - apply demo_reach_enqueued.
  - exact Htr.
  - vm_compute. reflexivity.
  - exact Hgone.
  - exists tr, bf, lim, t1, g, g', t2, r', t. split_and!; assumption.
Defined.

(** ** Fencing of stale acknowledgements *)

(** An acknowledgement whose guard no row satisfies leaves the table alone. *)
Lemma ack_noop id n g db :
  (∀ r, d_msgs db !! id = Some r → SQL.held id n id r = false) →
  d_msgs (SQL.ack id n g db) = d_msgs db.
Proof.
  intros H. simpl. apply map_eq. intros i. rewrite lookup_update_where.
  destruct (d_msgs db !! i) as [r|] eqn:E; [|done]. simpl.
  destruct (SQL.held id n i r) eqn:Hh; [|done].
  pose proof Hh as (-> & _)%held_true. by rewrite (H r E) in Hh.
Qed.

(** A statement run alone on the pool that leaves the table alone whenever
    it succeeds leaves it alone when it fails. *)
Lemma exec_pool_msgs_same env {A} (st : stmt A) w :
  (∀ b n a db', st (sql_env env b n) (w_db w) = inr (a, db') → d_msgs db' = d_msgs (w_db w)) →
  d_msgs (w_db (run (exec_pool env st) w).2) = d_msgs (w_db w).
Proof.
  intros H. unfold exec_pool, atomically, pool_action. simpl. unfold run_stmt.
  destruct (e_fault env (w_tick w)); simpl; [|done|].
  all: destruct (st _ _) as [?|[a db']] eqn:E; simpl; [done|by eapply H].
Qed.

Lemma exec_err_msgs_same env pfx {A} (st : stmt A) w :
  (∀ b n a db', st (sql_env env b n) (w_db w) = inr (a, db') → d_msgs db' = d_msgs (w_db w)) →
  d_msgs (w_db (run (exec_err env pfx st) w).2) = d_msgs (w_db w).
Proof.
  intros H. unfold exec_err. rewrite run_bind. pose proof (exec_pool_msgs_same env st w H) as E.
  by destruct (run (exec_pool env st) w).
Qed.

(** The three acknowledgements of attempt [n] of a message. *)
Definition is_ack_of (env : Env) (mid : UUID) (n : Z) (o : op) : Prop :=
  match o with
  | OpSucceed id k _ => e_uuid_Parse env id = Some mid ∧ k = n
  | OpFail p => e_uuid_Parse env (fp_MessageID p) = Some mid ∧ fp_Attempt p = n
  | OpReleaseShutdown id k _ _ => e_uuid_Parse env id = Some mid ∧ k = n
  | _ => False
  end.

Lemma run_discard {A} (p : prog A) w : (run (discard p) w).2 = (run p w).2.
Proof. unfold discard. rewrite run_bind. by destruct (run p w). Qed.

Lemma stale_ack_noop env s mid n o w :
  is_ack_of env mid n o →
  (∀ r, d_msgs (w_db w) !! mid = Some r → SQL.held mid n mid r = false) →
  d_msgs (w_db (run (op_prog env s o) w).2) = d_msgs (w_db w).
Proof.
  intros Ho Hh. destruct o; try done; destruct Ho as [Hid Hn]; simpl; rewrite run_discard.
  - unfold Succeed. rewrite Hid. subst.
    destruct (history_on s); apply exec_err_msgs_same; intros b k a db' [= <- <-]; by apply ack_noop.
  - unfold Fail_. rewrite Hid. subst.
    destruct (history_on s), (fp_Dead p); apply exec_err_msgs_same; intros b k a db' [= <- <-];
      by apply ack_noop.
  - unfold ReleaseShutdown. rewrite Hid. subst.
    destruct (history_on s); apply exec_err_msgs_same; intros b k a db' [= <- <-]; by apply ack_noop.
Qed.

Lemma fenced_row_steps n o o' :
  0 ≤ n → row_steps (λ l, l ≠ LRequeue ∧ l ≠ LEnqueue) o o' → fenced n o → fenced n o'.
Proof.
  intros Hn. apply (row_steps_inv _ (fenced n)). intros l a b [? ?]. by apply row_step_fenced.
Qed.

Definition no_requeue_of (env : Env) (mid : UUID) (o : op) : Prop := ¬ requeues env o mid.

(** C5: The attempt number fences stale workers.  Take a message whose row has
    left attempt [n] for good at some point of a run (it is terminal, or
    waiting with attempt at least [n], or handled under a later attempt).
    Then, as long as no administrator requeues it, it stays so, and an
    acknowledgement of attempt [n] (Succeed, Fail or ReleaseShutdown, from any
    worker, at any later time, under any faults) changes no row of the table.
    The run starts with nothing in flight, after the message's id was drawn. *)
Theorem stale_ack_fenced env `{!EnvOK env} s mid n f0 f f' o :
  0 ≤ n → f_flight f0 = [] → w_tx (f_world f0) = None →
  (∀ t, (w_tick (f_world f0) <= t)%nat → ¬ gen_id env t mid) →
  fleet_steps env s (no_requeue_of env mid) f0 f →
  fenced n (f_rows f !! mid) →
  fleet_steps env s (no_requeue_of env mid) f f' →
  is_ack_of env mid n o →
  fenced n (f_rows f' !! mid) ∧
  d_msgs (w_db (run (op_prog env s o) (f_world f')).2) = f_rows f'.
Proof.
  intros Hn Hfl Htx Hgen Hr Hfen Hs Ho.
  set (L := λ i l, i = mid → l ≠ LRequeue ∧ l ≠ LEnqueue). set (t0 := w_tick (f_world f0)).
  assert (∀ f f', fleet_steps env s (no_requeue_of env mid) f f' →
    fleet_ok (w_inv L t0) (λ _, w_steps L) f →
    fleet_ok (w_inv L t0) (λ _, w_steps L) f' ∧ w_steps L (f_world f) (f_world f')) as Hrun.
  { intros g g' Hg. apply (fleet_rows env s L t0 (no_requeue_of env mid)); try done.
    - intros o' i l Ho' Hl Hlab ->. split; [|done]. intros ->.
      by apply Ho', op_label_requeues.
    - intros t i Ht Hi ->. by destruct (Hgen t Ht). }
  assert (fleet_ok (w_inv L t0) (λ _, w_steps L) f0) as H0.
  { split; [split; [done|]|by rewrite Hfl]. intros t i r Ht. by rewrite Htx in Ht. }
  destruct (Hrun _ _ Hr H0) as [Hf _]. destruct (Hrun _ _ Hs Hf) as [_ Hst].
  assert (fenced n (f_rows f' !! mid)) as Hfen'.
  { eapply fenced_row_steps; [done| |done].
    eapply row_steps_weaken, (Hst mid). intros l Hl. by apply Hl. }
  split; [done|]. eapply stale_ack_noop; [done|]. intros r Hr'. apply fenced_not_held.
  unfold f_rows in Hfen'. by rewrite Hr' in Hfen'.
Qed.

(** Attempt 1 failed and is waiting for its retry; its worker's late success
    report is ignored. *)
Lemma stale_ack_fenced_witness :
  d_msgs (w_db (run (op_prog demo_env demo_store (OpSucceed (demo_id 0) 1 "w-1")) demo_failed).2)
    = d_msgs (w_db demo_failed)
  ∧ ∃ r, d_msgs (w_db demo_failed) !! demo_id 0 = Some r ∧ r_status r = StatusRetrying.
Proof.
  split; [|eexists; split; vm_compute; reflexivity].
  apply (stale_ack_fenced demo_env demo_store (demo_id 0) 1
           (mkFleet demo_claimed []) (mkFleet demo_failed []) (mkFleet demo_failed [])
           (OpSucceed (demo_id 0) 1 "w-1")).
  - lia.
  - reflexivity.
  - vm_compute. reflexivity.
  - intros t Ht [Hg|[Hg _]]; simpl in Hg; [|discriminate].
    injection Hg as Hg. do 2 apply (inj _) in Hg. vm_compute in Ht. lia.
  - apply fleet_op. intros H. exact H.
  - vm_compute. discriminate.
  - reflexivity.
  - split; reflexivity.
Defined.
