(* ===== verification/FleetInvariants.v ===== *)
(** * Table-wide invariants of the fleet

    Uniqueness of idempotency keys and of history sequence numbers, by the
    logic of file PostgresLogic: each invariant is checked once per
    statement. *)

From S2P Require Import Prelude GoErrors GoFloat Message World Postgres Lifecycle PostgresLogic PostgresFacts Demo Fleet.

(** ** Idempotency keys *)

Definition idem_unique (part : bool) (m : gmap UUID row) : Prop :=
  ∀ i j r r', m !! i = Some r → m !! j = Some r' → i ≠ j → SQL.idem_collide part r r' = false.

Lemma idem_collide_identity part r1 r2 r1' r2' :
  row_identity r1 = row_identity r1' → row_identity r2 = row_identity r2' →
  SQL.idem_collide part r1 r2 = SQL.idem_collide part r1' r2'.
Proof. unfold row_identity, SQL.idem_collide. intros [= -> _ _ -> _ _ ->] [= -> _ _ -> _ _ ->]. done. Qed.

Lemma idem_collide_sym part r r' : SQL.idem_collide part r r' = SQL.idem_collide part r' r.
Proof.
  unfold SQL.idem_collide. f_equal; [f_equal|].
  - by apply bool_decide_ext.
  - destruct (r_idempotency_key r), (r_idempotency_key r'); try done. by apply bool_decide_ext.
  - by rewrite Z.eqb_sym.
Qed.

Lemma idem_conflict_false part r m :
  SQL.idem_conflict part r m = false ↔ ∀ i r', m !! i = Some r' → SQL.idem_collide part r r' = false.
Proof.
  unfold SQL.idem_conflict. rewrite negb_false_iff, bool_decide_eq_true. split.
  - intros H i r' Hi. destruct (SQL.idem_collide part r r') eqn:E; [|done].
    assert ((i, r') ∈ select_where (λ _ r', SQL.idem_collide part r r') m) as Hin
      by (by apply elem_of_select_where).
    rewrite H in Hin. by apply elem_of_nil in Hin.
  - intros H. destruct (select_where _ m) as [|[i r'] l] eqn:E; [done|].
    assert ((i, r') ∈ select_where (λ _ r', SQL.idem_collide part r r') m) as Hin
      by (rewrite E; by left).
    apply elem_of_select_where in Hin as [Hi Hc]. by rewrite (H i r' Hi) in Hc.
Qed.

(** Rows vanish or keep their identity. *)
Definition shrinks (m m' : gmap UUID row) : Prop :=
  ∀ i r', m' !! i = Some r' → ∃ r, m !! i = Some r ∧ row_identity r = row_identity r'.

Lemma shrinks_unique part m m' : shrinks m m' → idem_unique part m → idem_unique part m'.
Proof.
  intros Hs Hu i j r r' Hi Hj Hne.
  destruct (Hs i r Hi) as (r0 & Hi0 & E0). destruct (Hs j r' Hj) as (r0' & Hj0 & E0').
  rewrite <- (idem_collide_identity part r0 r0') by done. by eapply Hu.
Qed.

Lemma no_enqueue_shrinks db db' : db_steps (λ _ l, l ≠ LEnqueue) db db' → shrinks (d_msgs db) (d_msgs db').
Proof.
  intros Hs i r' Hi. specialize (Hs i). rewrite Hi in Hs.
  refine (row_steps_inv _ (λ o, ∀ r1, o = Some r1 →
    ∃ r, d_msgs db !! i = Some r ∧ row_identity r = row_identity r1) _ _ _ Hs _ r' eq_refl); eauto.
  intros l a b Hl Hstep Ha r1 ->. destruct a as [r0|]; [|by inversion Hstep; subst].
  destruct (Ha r0 eq_refl) as (r & ? & E). exists r. split; [done|].
  rewrite E. symmetry. by eapply row_step_identity.
Qed.

(** One insert keeps keys unique, alone and inside a transaction. *)
Lemma insert_unique part id r m :
  idem_unique part m → SQL.idem_conflict part r m = false → idem_unique part (<[id := r]> m).
Proof.
  intros Hu Hc i j ri rj Hi Hj Hne. rewrite idem_conflict_false in Hc.
  apply lookup_insert_Some in Hi as [[<- <-]|[? Hi]];
    apply lookup_insert_Some in Hj as [[<- <-]|[? Hj]]; try done.
  - by eapply Hc.
  - rewrite idem_collide_sym. by eapply Hc.
  - by eapply Hu.
Qed.

(** What an insert adds collides with nothing in the view it ran on. *)
Definition extends (part : bool) (m m' : gmap UUID row) : Prop :=
  (∀ i r, m !! i = Some r → m' !! i = Some r) ∧
  (∀ i r, m' !! i = Some r → m !! i = None →
     ∀ j r', m' !! j = Some r' → i ≠ j → SQL.idem_collide part r r' = false).

Lemma extends_refl part m : extends part m m.
Proof. split; [done|]. congruence. Qed.

Lemma insert_extends part id r m :
  SQL.idem_conflict part r m = false → m !! id = None → extends part m (<[id := r]> m).
Proof.
  intros Hc Hn. rewrite idem_conflict_false in Hc. split.
  - intros i ri Hi. rewrite lookup_insert_ne; [done|congruence].
  - intros i ri Hi Hni j rj Hj Hne.
    apply lookup_insert_Some in Hi as [[<- <-]|[? Hi]]; [|congruence].
    apply lookup_insert_Some in Hj as [[<- <-]|[? Hj]]; [done|by eapply Hc].
Qed.

Lemma extends_trans part m1 m2 m3 : extends part m1 m2 → extends part m2 m3 → extends part m1 m3.
Proof.
  intros [H1 H2] [H3 H4]. split; [auto|]. intros i r Hi Hn j r' Hj Hne.
  destruct (m2 !! i) as [r2|] eqn:E; [|by eapply H4].
  assert (r2 = r) as -> by (apply H3 in E; congruence).
  destruct (m2 !! j) as [r2'|] eqn:E'.
  - assert (r2' = r') as -> by (apply H3 in E'; congruence). by eapply H2.
  - rewrite idem_collide_sym. by eapply H4.
Qed.

Lemma extends_unique part m m' : extends part m m' → idem_unique part m → idem_unique part m'.
Proof.
  intros [H1 H2] Hu i j r r' Hi Hj Hne.
  destruct (m !! i) as [ri|] eqn:E; [|by eapply H2].
  destruct (m !! j) as [rj|] eqn:E'; [|rewrite idem_collide_sym; by eapply H2].
  apply H1 in E as E1. apply H1 in E' as E1'. simplify_eq. by eapply Hu.
Qed.

Lemma insert_rows_extends part now rows m ins m' :
  SQL.insert_rows part now rows m = inr (ins, m') → extends part m m'.
Proof.
  revert m ins m'. induction rows as [|b rows IH]; intros m ins m' H; simpl in H.
  { simplify_eq. apply extends_refl. }
  destruct (SQL.insert_row _ _ _ _) as [?|[m1|]] eqn:E; [done| |by eapply IH].
  destruct (SQL.insert_rows part now rows m1) as [?|[ins1 m2]] eqn:E2; simplify_eq.
  apply (insert_row_inserts all_labels) in E as (Hnone & -> & _ & Hc).
  eapply extends_trans; [by apply insert_extends|by eapply IH].
Qed.

Lemma tx_issued_extends s G A (st : stmt A) se db a db' :
  tx_issued s G A st → st se db = inr (a, db') → extends (partitioned s) (d_msgs db) (d_msgs db').
Proof.
  destruct 1; intros Hst.
  - unfold SQL.enqueueSQL in Hst.
    destruct (SQL.insert_row _ _ _ _) as [?|[m|]] eqn:E; simplify_eq; [|apply extends_refl].
    apply (insert_row_inserts all_labels) in E as (Hnone & -> & _ & Hc). by apply insert_extends.
  - unfold SQL.batchInsertSQL in Hst.
    destruct (SQL.insert_rows _ _ _ _) as [?|[ins m]] eqn:E; simplify_eq.
    by eapply insert_rows_extends.
  - injection Hst as <- <-. apply extends_refl.
  - injection Hst as <- <-. apply extends_refl.
Qed.

Definition idem_inv (part : bool) (w : World) : Prop :=
  idem_unique part (d_msgs (w_db w)) ∧
  ∀ t, w_tx w = Some t → idem_unique part (t_msgs t).

Abbreviation no_rel := (λ _ _ : World, True).

#[export] Instance no_rel_rel (I : World → Prop) :
  (∀ w, I w → I (tick w)) → WorldRel I no_rel.
Proof. intros H. split; [by split|]. auto. Qed.

Lemma tx_update_unique part db t view failed :
  extends part (d_msgs (tx_view db t)) (d_msgs view) → idem_unique part (t_msgs t) →
  idem_unique part (t_msgs (tx_update db view failed t)).
Proof.
  intros [Hx1 Hx2] Hu i j r r' Hi Hj Hne. simpl in Hi, Hj.
  apply lookup_difference_Some in Hi as [Hi Hdi], Hj as [Hj Hdj].
  assert (∀ k rk, d_msgs view !! k = Some rk → d_msgs db !! k = None →
    t_msgs t !! k = Some rk ∨ d_msgs (tx_view db t) !! k = None) as Hold.
  { intros k rk Hk Hdk. destruct (d_msgs (tx_view db t) !! k) as [r0|] eqn:E; [|by right].
    left. apply Hx1 in E as E1. simplify_eq. simpl in E. by rewrite lookup_union_r in E. }
  destruct (Hold i r Hi Hdi) as [Hti|Hni]; [|by eapply Hx2].
  destruct (Hold j r' Hj Hdj) as [Htj|Hnj]; [by eapply Hu|].
  rewrite idem_collide_sym. by eapply Hx2.
Qed.

#[export] Instance idem_logic env `{!EnvOK env} s :
  SqlLogic env s all_labels (idem_inv (partitioned s)) no_rel.
Proof.
  split; [by apply no_rel_rel| |].
  - intros A st Hst w b a db' [Hu Ht] _ Hrun. split; [|done]. split; [|done]. simpl.
    apply issued_cases in Hst as [Hst|Hst].
    + eapply extends_unique; [|done]. by eapply tx_issued_extends.
    + eapply shrinks_unique; [|done]. apply no_enqueue_shrinks.
      eapply db_steps_weaken; [|by eapply issued_steps]. by intros i l [[_ ?] _].
  - intros A st Hst w t view failed [Hu Ht] Hw Hview. split; [|done]. split; [done|].
    intros ? [= <-]. apply tx_update_unique; [|by apply Ht].
    destruct Hview as [->|[a Ha]]; [apply extends_refl|by eapply tx_issued_extends].
Qed.

#[export] Instance idem_caller part : CallerLogic part (idem_inv part) (λ _, no_rel).
Proof.
  split; [done|done|..].
  - intros w [Hu Ht] _. split; [|done]. split; [done|]. intros t [= <-] i j r r' Hi.
    simpl in Hi. by rewrite lookup_empty in Hi.
  - intros w [Hu Ht]. split; [|done]. split; [done|]. by intros ? [=].
  - intros w [Hu Ht] Hc. split; [|done]. unfold caller_commit, commit_conflict in *.
    destruct (w_tx w) as [t|] eqn:E; [|by split; [|rewrite E]].
    apply negb_false_iff, bool_decide_eq_true in Hc.
    destruct (t_aborted t); split; try done.
    eapply extends_unique; [|apply Hu]. split; simpl.
    + intros i r Hi. by apply lookup_union_Some_l.
    + intros i r Hi Hn j r' Hj Hne. rewrite lookup_union_r in Hi by done.
      destruct (Hc i r Hi) as [_ Hci]. rewrite idem_conflict_false in Hci.
      destruct (d_msgs (w_db w) !! j) as [rj|] eqn:Ej.
      * rewrite lookup_union_l' in Hj by done. simplify_eq. by eapply Hci.
      * rewrite lookup_union_r in Hj by done. by eapply (Ht t eq_refl).
Qed.

(** C19: Exactly-once enqueue by idempotency key.  In every reachable database
    of the unpartitioned schema, two distinct messages of the same event type
    never carry the same idempotency key, whether inserted by Enqueue or
    EnqueueBatch, on the pool or inside a caller's transaction, concurrently
    or not. *)
Theorem idempotency_keys_unique env `{!EnvOK env} s f i j r r' k :
  partitioned s = false → reachable env s f →
  f_rows f !! i = Some r → f_rows f !! j = Some r' →
  r_event_type r = r_event_type r' →
  r_idempotency_key r = Some k → r_idempotency_key r' = Some k → i = j.
Proof.
  intros Hp Hr Hi Hj Het Hk Hk'.
  destruct (fleet_steps_ok env s (idem_inv (partitioned s)) (λ _, no_rel) any_op
    (λ o _, sql_ops_ok env s _ _ (idem_logic env s) o) _ _ Hr) as [[Hu _] _].
  { split; [|constructor]. split; [|by intros ? [=]]. intros ???? H. simpl in H. by rewrite lookup_empty in H. }
  destruct (decide (i = j)) as [|Hne]; [done|]. exfalso.
  specialize (Hu i j r r' Hi Hj Hne). unfold SQL.idem_collide in Hu.
  rewrite Hp, Hk, Hk' in Hu. rewrite !bool_decide_eq_true_2 in Hu by done. done.
Qed.

(** The same message enqueued twice: one row holds the key. *)
Definition demo_twice : World :=
  (run (op_prog demo_env demo_store (OpEnqueue TxZero demo_params))
    (run (op_prog demo_env demo_store (OpEnqueue TxZero demo_params)) init_world).2).2.

Lemma demo_twice_reach : reachable demo_env demo_store (mkFleet demo_twice []).
Proof.
  eapply rtc_trans; [by apply (fleet_op demo_env demo_store any_op (OpEnqueue TxZero demo_params))|].
  by apply (fleet_op demo_env demo_store any_op (OpEnqueue TxZero demo_params)).
Qed.

Lemma idempotency_keys_unique_witness :
  ∃ i r, d_msgs (w_db demo_twice) !! i = Some r ∧ r_idempotency_key r = Some "k-1"%string ∧
    (map_to_list (d_msgs (w_db demo_twice))).*1 = [i] ∧ i = demo_id 0.
Proof.
  exists (demo_id 0). eexists. split; [vm_compute; reflexivity|]. split; [reflexivity|].
  split; [vm_compute; reflexivity|].
  eapply (idempotency_keys_unique demo_env demo_store (mkFleet demo_twice []) _ _ _ _ "k-1");
    [reflexivity|apply demo_twice_reach|vm_compute; reflexivity|vm_compute; reflexivity|reflexivity..].
Defined.

(** ** History *)

Definition hist_unique (h : list hist) : Prop := NoDup (SQL.hist_key <$> h).

Lemma hist_unique_snoc h x :
  hist_unique h → (∀ y, y ∈ h → h_message_id y = h_message_id x → h_seq y < h_seq x) →
  hist_unique (h ++ [x]).
Proof.
  intros Hu Hx. unfold hist_unique. rewrite fmap_app. apply NoDup_app. split_and!; [done| |].
  - intros k Hk Hin. apply list_elem_of_fmap in Hk as (y & -> & Hy).
    simpl in Hin. apply list_elem_of_singleton in Hin. unfold SQL.hist_key in Hin.
    injection Hin as Hid Hseq. specialize (Hx y Hy Hid). lia.
  - simpl. apply NoDup_singleton.
Qed.

(** Appending a row numbered by COALESCE(MAX(seq), 0) + 1. *)
Lemma hist_unique_next id h from to n e w now :
  hist_unique h → hist_unique (h ++ [SQL.hist_row id (next_seq id h) from to n e w now]).
Proof. intros Hu. apply hist_unique_snoc; [done|]. intros y Hy Hid. simpl. by apply next_seq_gt. Qed.

Lemma hist_unique_matched p id h m (F : row → hist) :
  hist_unique h → (∀ r, hist_unique (h ++ [F r])) →
  hist_unique (h ++ match SQL.matched p id m with Some r => [F r] | None => [] end).
Proof. intros Hu HF. destruct (SQL.matched p id m); [done|]. by rewrite app_nil_r. Qed.

Lemma hist_unique_fail id n to e w now db :
  hist_unique (d_hist db) → hist_unique (d_hist db ++ SQL.fail_history id n to e w now db).
Proof.
  intros Hu. unfold SQL.fail_history.
  set (x := SQL.hist_row id _ _ StatusFailed _ _ _ _).
  assert (hist_unique (d_hist db ++ [x])) as Hx by by apply hist_unique_next.
  rewrite cons_middle, app_assoc. apply hist_unique_matched; [done|]. intros r.
  apply hist_unique_snoc; [done|]. intros y [Hy|Hy]%elem_of_app Hid; simpl in *.
  - pose proof (next_seq_gt id (d_hist db) y Hy Hid). lia.
  - apply list_elem_of_singleton in Hy as ->. simpl. lia.
Qed.

Lemma hist_unique_filter (p : hist → bool) h :
  hist_unique h → hist_unique (filter (λ x, p x = false) h).
Proof. intros H. eapply sublist_NoDup; [exact H|]. apply fmap_sublist, sublist_filter. Qed.

Lemma tx_issued_hist s G A (st : stmt A) se db a db' :
  tx_issued s G A st → st se db = inr (a, db') → d_hist db' = d_hist db.
Proof.
  destruct 1; intros Hst.
  - unfold SQL.enqueueSQL in Hst. destruct (SQL.insert_row _ _ _ _) as [?|[m|]]; by simplify_eq.
  - unfold SQL.batchInsertSQL in Hst.
    destruct (SQL.insert_rows _ _ _ _) as [?|[ins m]]; by simplify_eq.
  - by injection Hst as <- <-.
  - by injection Hst as <- <-.
Qed.

Lemma issued_hist s L A (st : stmt A) se db a db' :
  issued s L A st → st se db = inr (a, db') →
  hist_unique (d_hist db) → hist_unique (d_hist db').
Proof.
  destruct 1; intros Hst Hu.
  all: try (injection Hst as <- <-; simpl; done).
  - unfold SQL.claimSQL in Hst. case_bool_decide; by simplify_eq.
  - injection Hst as <- <-. apply hist_unique_matched; [done|]. intros r. by apply hist_unique_next.
  - injection Hst as <- <-. by apply hist_unique_fail.
  - injection Hst as <- <-. by apply hist_unique_fail.
  - injection Hst as <- <-. apply hist_unique_matched; [done|]. intros r. by apply hist_unique_next.
  - injection Hst as <- <-. by apply hist_unique_next.
  - injection Hst as <- <-. by apply hist_unique_filter.
  - by erewrite tx_issued_hist.
Qed.

Definition hist_inv (w : World) : Prop := hist_unique (d_hist (w_db w)).

#[export] Instance hist_logic env s :
  SqlLogic env s all_labels hist_inv no_rel.
Proof.
  split; [by apply no_rel_rel| |].
  - intros A st Hst w b a db' Hu _ Hrun. split; [|done]. by eapply issued_hist.
  - intros A st Hst w t view failed Hu Hw Hview. done.
Qed.

#[export] Instance hist_caller part : CallerLogic part hist_inv (λ _, no_rel).
Proof.
  split; try done. intros w Hu _. split; [|done]. unfold caller_commit, hist_inv in *.
  destruct (w_tx w) as [t|]; [|done]. by destruct (t_aborted t).
Qed.

Lemma reachable_hist_unique env s f : reachable env s f → hist_unique (d_hist (w_db (f_world f))).
Proof.
  intros Hr. destruct (fleet_steps_ok env s hist_inv (λ _, no_rel) any_op
    (λ o _, sql_ops_ok env s _ _ (hist_logic env s) o) _ _ Hr) as [Hu _]; [|done].
  split; constructor.
Qed.

Lemma hist_unique_eq h x y :
  hist_unique h → x ∈ h → y ∈ h → h_message_id x = h_message_id y → h_seq x = h_seq y → x = y.
Proof.
  intros Hu Hx Hy Hid Hseq. apply list_elem_of_lookup in Hx as [i Hi], Hy as [j Hj].
  assert (i = j) as ->; [|congruence]. eapply (NoDup_lookup (SQL.hist_key <$> h)); [apply Hu| |].
  - rewrite list_lookup_fmap, Hi. reflexivity.
  - rewrite list_lookup_fmap, Hj. unfold SQL.hist_key. simpl. by rewrite Hid, Hseq.
Qed.

(** The audit history never has two rows with the same message and
    sequence number, in any reachable database: the numbers computed by
    [COALESCE(MAX(seq), 0) + 1] (and + 2 for the two rows of a failure) are
    fresh, also inside pipelined batches, and deletion by PurgeHistory keeps it
    so. *)
Theorem history_seq_unique env s f x y :
  reachable env s f → x ∈ d_hist (w_db (f_world f)) → y ∈ d_hist (w_db (f_world f)) →
  h_message_id x = h_message_id y → h_seq x = h_seq y → x = y.
Proof. intros Hr. apply hist_unique_eq. by eapply reachable_hist_unique. Qed.

Definition demo_audit : World :=
  (run (op_prog demo_env demo_store (OpClaim demo_claim)) demo_twice).2.

Lemma history_seq_unique_witness :
  ∃ x, d_hist (w_db demo_audit) = [x] ∧ h_seq x = 1 ∧ x = x.
Proof.
  eexists. split; [vm_compute; reflexivity|]. split; [reflexivity|].
  apply (history_seq_unique demo_env demo_store (mkFleet demo_audit []));
    [|vm_compute; left|vm_compute; left|reflexivity|reflexivity].
  eapply rtc_trans; [apply demo_twice_reach|].
  by apply (fleet_op demo_env demo_store any_op (OpClaim demo_claim)).
Defined.
