(* ===== verification/Leases.v ===== *)
(** * Leases exclude

    While the lease of a claimed message has not run out by the server's
    clock, no claim, no reclaim, no requeue and no purge touches its row: the
    first step of the run that changes it is an acknowledgement naming the
    message and the attempt the claim handed out, or a lease extension by its
    owner.  The argument is by single steps of the fleet: an operation's labels
    ([op_label]) and the clock a reclaim compares leases with ([clocked]) leave
    nobody else. *)

From S2P Require Import Prelude GoErrors GoFloat Message World Postgres Lifecycle PostgresLogic PostgresFacts Demo Fleet FleetSafety.

(** The row is leased to [w] until [u]. *)
Definition leased (w : string) (u : Time) (r : row) : Prop :=
  r_status r = StatusHandling ∧ r_claimed_by r = Some w ∧ r_claimed_until r = Some u.

(** Operations that speak for attempt [n] of message [i] or for worker [w]
    holding it. *)
Definition speaks_for (env : Env) (i : UUID) (n : Z) (w : string) (o : op) : Prop :=
  match o with
  | OpSucceed id k _ => e_uuid_Parse env id = Some i ∧ k = n
  | OpBatchSucceed ps =>
    ∃ p, p ∈ ps ∧ e_uuid_Parse env (bs_MessageID p) = Some i ∧ bs_Attempt p = n
  | OpFail p => e_uuid_Parse env (fp_MessageID p) = Some i ∧ fp_Attempt p = n
  | OpReleaseShutdown id k _ _ => e_uuid_Parse env id = Some i ∧ k = n
  | OpExtend id v _ => e_uuid_Parse env id = Some i ∧ v = w
  | _ => False
  end.

(** The label that changes a leased row: its attempt's, its owner's, or a
    reclaim that read the clock after the lease ran out. *)
Lemma row_step_leased env l r o w u oper i :
  leased w u r → op_label env i oper l → row_step l (Some r) o →
  speaks_for env i (r_attempt r) w oper ∨ ∃ t, l = LReclaim t ∧ u < t.
Proof.
  intros (Hst & Hby & Hu) Hl. inversion 1; subst; try (rewrite Hst in *; done);
    inversion Hl; subst; repeat case_match; simplify_eq; simpl; eauto.
Qed.

(** The server's clock does not run backwards. *)
Definition dbclock_monotone (env : Env) : Prop :=
  ∀ m n, (m <= n)%nat → e_dbnow env m ≤ e_dbnow env n.

(** One step leaves a leased row as it is, or its holder acted. *)
Lemma acts_leased env a w w' i r wk u :
  dbclock_monotone env → acts env a w w' →
  d_msgs (w_db w) !! i = Some r → leased wk u r → e_dbnow env (w_tick w') ≤ u →
  d_msgs (w_db w') !! i = Some r ∨
  ∃ o, a = ByOp o ∧ speaks_for env i (r_attempt r) wk o.
Proof.
  intros Hm Ha Hi Hr Hu. destruct a as [o| |]; simpl in Ha.
  - destruct Ha as [_ Hst]. specialize (Hst i). rewrite Hi in Hst.
    inversion Hst as [|x y z (l & [Hl Hc] & Hs) _]; subst; [by left|]. right. exists o.
    destruct (row_step_leased _ _ _ _ _ _ _ _ Hr Hl Hs) as [|(t & -> & Ht)]; [done|].
    destruct (Hc t eq_refl) as (b & Hb%Hm & ->). lia.
  - destruct Ha as [_ Hst]. specialize (Hst i). rewrite Hi in Hst.
    inversion Hst as [|x y z (l & [-> _] & Hs) _]; subst; [by left|]. by inversion Hs.
  - destruct Ha as [_ ->]. by left.
Qed.

Lemma fleet_tick env `{!EnvOK env} s f f' :
  reachable env s f → fleet_steps env s any_op f f' →
  (w_tick (f_world f) <= w_tick (f_world f'))%nat.
Proof.
  intros Hr Hs. revert Hr. induction Hs as [|f f1 f' [a Ha] Hs IH]; intros Hr; [done|].
  pose proof (fleet_step_acts env s a f f1 Hr Ha) as Hacts.
  assert (w_tick (f_world f) <= w_tick (f_world f1))%nat by (destruct a; apply Hacts).
  specialize (IH (fleet_steps_r _ _ _ _ _ _ _ Hr Ha)). lia.
Qed.

(** ** Exclusive handling *)

(** C6: A claim excludes everyone else while its lease lasts.  In any run,
    under any interleaving, faults and crashes, take a message HANDLING under
    attempt [r_attempt r], leased to worker [w] until [u], and let the server's
    clock not have passed [u] at the end of the run: then the row is the same
    all along the run, or the first step that changes it belongs to an
    acknowledgement naming this message and this attempt (Succeed, BatchSucceed,
    Fail or ReleaseShutdown) or to an Extend of this message by [w].  Until its
    holder acts, no other worker claims it, no janitor reclaims or purges it and
    no administrator requeues it.  The server's clock is assumed not to run
    backwards. *)
Theorem lease_excludes env `{!EnvOK env} s f tr f' i r w u :
  dbclock_monotone env → reachable env s f → fleet_trace env s any_op f tr f' →
  f_rows f !! i = Some r → leased w u r → e_dbnow env (w_tick (f_world f')) ≤ u →
  Forall (λ x, f_rows x.2 !! i = Some r) tr ∨
  ∃ t1 o g t2, tr = t1 ++ (ByOp o, g) :: t2 ∧
    Forall (λ x, f_rows x.2 !! i = Some r) t1 ∧ f_rows g !! i ≠ Some r ∧
    speaks_for env i (r_attempt r) w o.
Proof.
  intros Hm Hr Hs. revert Hr. induction Hs as [f|a f f1 tr f' Ha Hs IH]; intros Hr Hi Hl Hu.
  { by left. }
  pose proof (fleet_steps_r _ _ _ _ _ _ _ Hr Ha) as Hr1.
  assert (e_dbnow env (w_tick (f_world f1)) ≤ u) as Hu1.
  { etrans; [|exact Hu]. apply Hm. eapply (fleet_tick env s); [done|].
    by eapply fleet_trace_steps. }
  pose proof (fleet_step_acts env s a f f1 Hr Ha) as Hacts.
  destruct (decide (f_rows f1 !! i = Some r)) as [Hi1|Hn].
  - destruct (IH Hr1 Hi1 Hl Hu) as [?|(t1 & o & g & t2 & -> & ? & ? & ?)]; [by left; constructor|right].
    exists ((a, f1) :: t1), o, g, t2. split_and!; [done|by constructor|done|done].
  - destruct (acts_leased env a _ _ i r w u Hm Hacts Hi Hl Hu1) as [?|(o & -> & Ho)]; [done|].
    right. exists [], o, f1, tr. split_and!; [done|constructor|done|done].
Qed.

Lemma demo_clock_monotone : dbclock_monotone demo_env.
Proof. intros m n Hmn. simpl. unfold demo_clock, Second. lia. Qed.

(** Another worker's claim and a janitor's sweep during the lease. *)
Definition demo_poached : World :=
  (run (op_prog demo_env demo_store (OpReclaimExpired 100))
    (run (op_prog demo_env demo_store (OpClaim (mkClaimParams "w-2" 10 (30 * Second) [])))
      demo_claimed).2).2.

Lemma demo_poaching : fleet_steps demo_env demo_store any_op
  (mkFleet demo_claimed []) (mkFleet demo_poached []).
Proof. eapply rtc_trans; by apply fleet_op. Qed.

Lemma lease_excludes_witness : ∃ r tr,
  f_rows (mkFleet demo_claimed []) !! demo_id 0 = Some r ∧
  leased "w-1" (1036 * Second) r ∧ w_tick demo_claimed ≠ w_tick demo_poached ∧
  fleet_trace demo_env demo_store any_op (mkFleet demo_claimed []) tr (mkFleet demo_poached []) ∧
  (Forall (λ x, f_rows x.2 !! demo_id 0 = Some r) tr ∨
   ∃ t1 o g t2, tr = t1 ++ (ByOp o, g) :: t2 ∧
     Forall (λ x, f_rows x.2 !! demo_id 0 = Some r) t1 ∧ f_rows g !! demo_id 0 ≠ Some r ∧
     speaks_for demo_env (demo_id 0) 1 "w-1" o).
Proof.
  pose proof demo_poaching as [tr Htr]%fleet_steps_trace.
  eexists. exists tr. split; [vm_compute; reflexivity|].
  split; [split_and!; vm_compute; reflexivity|]. split; [vm_compute; discriminate|].
  split; [exact Htr|].
  eapply (lease_excludes demo_env demo_store (mkFleet demo_claimed []) tr (mkFleet demo_poached [])
    (demo_id 0)).
  - apply demo_clock_monotone.
  - apply demo_reach_claimed.
  - exact Htr.
  - vm_compute. reflexivity.
  - split_and!; vm_compute; reflexivity.
  - vm_compute. discriminate.
Defined.
