(* ===== verification/PostgresClaim.v ===== *)
(** * Functional correctness of Claim (postgres.go, Claim and its SQL)

    What one call of Claim returns and what it does to the table: which rows
    it leases, in which order of precedence, and that the fall-back pass over
    all shards misses no claimable row. *)

From S2P Require Import Prelude GoErrors GoFloat Message World Postgres Lifecycle PostgresLogic PostgresFacts Demo Fleet.

(** ** What a claim promises *)

(** [m] and [m'] are the table before and after, [out] the messages returned. *)
Record claim_spec (now : Time) (types : option (list string)) (shard : option Z)
    (locked : gset UUID) (batch : Z) (worker : string) (leaseSec : Z)
    (m m' : gmap UUID row) (out : list InboundMessage) : Prop := {
  (* no message twice, at most [batch] of them *)
  cs_nodup : NoDup (im_ID <$> out);
  cs_length : Z.of_nat (length out) ≤ batch;
  (* each was claimable, is now leased to the worker, and is returned as stored *)
  cs_leased : ∀ msg, msg ∈ out → ∃ r,
    m !! im_ID msg = Some r ∧ can_claim now types shard locked (im_ID msg) r ∧
    ∃ r', m' !! im_ID msg = Some r' ∧ leased_as now worker leaseSec r r' ∧
      message_of (im_ID msg) r' msg;
  (* no other row changes *)
  cs_frame : ∀ i, i ∉ (im_ID <$> out) → m' !! i = m !! i;
  (* a claimable row is left out only when the batch is full of rows before it *)
  cs_priority : ∀ i r, m !! i = Some r →
    can_claim now types shard locked i r → i ∉ (im_ID <$> out) →
    Z.of_nat (length out) = batch ∧
    ∀ msg r', msg ∈ out → m !! im_ID msg = Some r' →
      key_le (r_process_at r', im_ID msg) (r_process_at r, i);
}.

(** The WHERE clause selects the claimable rows. *)
Lemma claim_eligible_iff now types shard locked i r :
  SQL.claim_eligible now types shard locked i r = true ↔ can_claim now types shard locked i r.
Proof.
  unfold SQL.claim_eligible, can_claim. rewrite !andb_true_iff, Z.leb_le, bool_decide_eq_true.
  assert (pending (r_status r) = true ↔ r_status r = StatusCreated ∨ r_status r = StatusRetrying)
    as -> by (split; [apply pending_cases|by intros [-> | ->]]).
  assert (match shard with None => true | Some k => r_shard r =? k end = true ↔
    ∀ k, shard = Some k → r_shard r = k) as ->.
  { destruct shard; [|by split]. rewrite Z.eqb_eq. naive_solver. }
  assert (match types with None => true | Some l => bool_decide (r_event_type r ∈ l) end = true ↔
    ∀ l, types = Some l → r_event_type r ∈ l) as ->.
  { destruct types; [|by split]. rewrite bool_decide_eq_true. naive_solver. }
  tauto.
Qed.

Lemma claim_row_leased now worker leaseSec r :
  leased_as now worker leaseSec r (SQL.claim_row now worker leaseSec r).
Proof. by unfold leased_as. Qed.

Lemma scanMessage_of i r : message_of i r (scanMessage i r).
Proof.
  unfold message_of. simpl. unfold decodeHeaders, coalesce_empty. split_and!; try done.
  by case_bool_decide; case_decide.
Qed.

(** ** The selection *)

#[export] Instance claim_before_total : Total SQL.claim_before.
Proof. intros a b. apply (key_le_total (SQL.claim_key a) (SQL.claim_key b)). Qed.

#[export] Instance claim_before_trans : Transitive SQL.claim_before.
Proof. intros a b c. apply (key_le_trans (SQL.claim_key a)). Qed.

Lemma claim_select_nodup now types shard locked batch m :
  NoDup (SQL.claim_select now types shard locked batch m).*1.
Proof.
  unfold SQL.claim_select. eapply sublist_NoDup; [|apply fmap_sublist, sublist_take].
  rewrite merge_sort_Permutation. apply NoDup_fst_select_where.
Qed.

(** An eligible row outside the selection comes after all of a full one. *)
Lemma claim_select_rest now types shard locked batch m i r :
  0 ≤ batch → m !! i = Some r → SQL.claim_eligible now types shard locked i r = true →
  i ∉ (SQL.claim_select now types shard locked batch m).*1 →
  Z.of_nat (length (SQL.claim_select now types shard locked batch m)) = batch ∧
  ∀ x, x ∈ SQL.claim_select now types shard locked batch m → SQL.claim_before x (i, r).
Proof.
  intros Hb Hi He Hn. unfold SQL.claim_select in *.
  destruct (@sorted_limit_rest _ SQL.claim_before SQL.claim_before_dec _ _ (Z.to_nat batch)
    (select_where (SQL.claim_eligible now types shard locked) m) (i, r)) as [Hl ?].
  - by apply elem_of_select_where.
  - intros Hin. apply Hn, list_elem_of_fmap. by exists (i, r).
  - split; [lia|done].
Qed.

(** ** The statement *)

Lemma scan_rows_perm se l :
  (∀ l, s_scan se l ≡ₚ l) → NoDup l.*1 → SQL.scan_rows se l ≡ₚ l.
Proof.
  intros Hscan Hnd.
  apply NoDup_Permutation; [|by eapply NoDup_fmap_1|intros [i r]; by apply elem_of_scan_rows].
  unfold SQL.scan_rows. apply (NoDup_fmap_1 fst).
  eapply sublist_NoDup; [rewrite <- (Hscan l.*1) in Hnd; exact Hnd|].
  clear Hnd. induction (s_scan se l.*1) as [|j js IH]; simpl; [constructor|].
  destruct (_ !! j); simpl; by constructor.
Qed.

Lemma claimSQL_spec types batch worker lease shard se db rows db' :
  (∀ l, s_scan se l ≡ₚ l) → 0 ≤ batch →
  SQL.claimSQL types batch worker lease shard se db = inr (rows, db') →
  claim_spec (s_now se) types shard (s_locked se) batch worker lease (d_msgs db) (d_msgs db')
    ((λ ir, scanMessage ir.1 ir.2) <$> rows).
Proof.
  intros Hscan Hb. unfold SQL.claimSQL.
  set (sel := SQL.claim_select _ _ _ _ _ _). set (f := SQL.claim_row _ _ _).
  case_bool_decide as Hex; [done|]. intros [= <- <-].
  assert (NoDup sel.*1) as Hnd by apply claim_select_nodup.
  assert (SQL.scan_rows se (prod_map id f <$> sel) ≡ₚ prod_map id f <$> sel) as Hperm.
  { apply scan_rows_perm; [done|]. by rewrite <- list_fmap_compose. }
  assert (∀ ir, ir ∈ sel → d_msgs db !! ir.1 = Some ir.2 ∧
    SQL.claim_eligible (s_now se) types shard (s_locked se) ir.1 ir.2 = true) as Hsel.
  { intros [i r]. apply claim_select_eligible. }
  set (out := (λ ir, scanMessage ir.1 ir.2) <$> (prod_map id f <$> sel)).
  assert (im_ID <$> out = sel.*1) as Hids by (unfold out; by rewrite <- !list_fmap_compose).
  assert ((λ ir, scanMessage ir.1 ir.2) <$> SQL.scan_rows se (prod_map id f <$> sel) ≡ₚ out) as Ho
    by (unfold out; by rewrite Hperm).
  assert (∀ i, i ∈ (im_ID <$> ((λ ir, scanMessage ir.1 ir.2) <$>
    SQL.scan_rows se (prod_map id f <$> sel))) ↔ i ∈ sel.*1) as Hmem
    by (intros i; by rewrite Ho, Hids).
  split.
  - rewrite Ho, Hids. done.
  - rewrite Ho. unfold out. rewrite !length_fmap. by apply take_Z_length.
  - intros msg Hmsg. rewrite Ho in Hmsg. unfold out in Hmsg.
    apply list_elem_of_fmap in Hmsg as ([i r'] & -> & Hin).
    apply list_elem_of_fmap in Hin as ([i0 r] & [= -> ->] & Hin). simpl in *.
    destruct (Hsel _ Hin) as [Hr He]. simpl in Hr, He. exists r.
    split_and!; [done|by apply claim_eligible_iff|]. exists (f r).
    split_and!; [|apply claim_row_leased|apply scanMessage_of].
    rewrite lookup_update_where, Hr. simpl. rewrite bool_decide_eq_true_2; [done|].
    apply list_elem_of_fmap. by exists (i0, r).
  - intros i Hi. rewrite Hmem in Hi. simpl. rewrite lookup_update_where.
    destruct (d_msgs db !! i); [|done]. simpl. by rewrite bool_decide_eq_false_2.
  - intros i r Hr He%claim_eligible_iff Hi. rewrite Hmem in Hi.
    destruct (claim_select_rest _ _ _ _ _ _ _ _ Hb Hr He Hi) as [Hlen Hbefore]. split.
    + rewrite Ho. unfold out. by rewrite !length_fmap.
    + intros msg r' Hmsg Hr'. rewrite Ho in Hmsg. unfold out in Hmsg.
      apply list_elem_of_fmap in Hmsg as ([j x] & -> & Hin).
      apply list_elem_of_fmap in Hin as ([j0 r0] & [= -> ->] & Hin). simpl in *.
      destruct (Hsel _ Hin) as [Hr0 _]. simpl in Hr0. simplify_eq. apply (Hbefore _ Hin).
Qed.

(** ** The operation *)

(** Running one statement on the pool. *)
Lemma run_exec_pool_inr env {A} (st : stmt A) w a w' :
  run (exec_pool env st) w = (inr a, w') →
  ∃ db', st (sql_env env (w_tick w) (w_tick w)) (w_db w) = inr (a, db') ∧
    w' = set_db db' (tick w).
Proof.
  unfold exec_pool, atomically, pool_action, run_stmt. simpl.
  destruct (e_fault env (w_tick w)); simpl; try done.
  all: destruct (st _ _) as [?|[a' db']]; simpl; intros [=]; subst; eauto.
Qed.

Lemma run_claimQuery env types batch wk lease sh w out w' :
  run (claimQuery env types batch wk lease sh) w = ((out, None), w') →
  ∃ rows db', SQL.claimSQL types batch wk lease sh (sql_env env (w_tick w) (w_tick w)) (w_db w)
      = inr (rows, db') ∧
    out = (λ ir, scanMessage ir.1 ir.2) <$> rows ∧ w' = set_db db' (tick w).
Proof.
  unfold claimQuery. rewrite run_bind.
  destruct (run (exec_pool env _) w) as [[e|rows] w1] eqn:E; simpl; [done|].
  intros [= <- <-]. apply run_exec_pool_inr in E as (db' & ? & ->). eauto.
Qed.

(** Programs that leave the messages table alone. *)
Definition same_msgs (w w' : World) : Prop := d_msgs (w_db w') = d_msgs (w_db w).

#[export] Instance same_msgs_rel : WorldRel (λ _, True) same_msgs.
Proof.
  split; [split|done].
  - by intros w.
  - intros a b c. unfold same_msgs. congruence.
Qed.

Lemma appendHistoryBatch_msgs env msgs to e wk w :
  d_msgs (w_db (run (appendHistoryBatch env msgs to e wk) w).2) = d_msgs (w_db w).
Proof.
  apply (safe_run (λ _, True) same_msgs _ (λ _, True) w); [apply _| |done].
  unfold appendHistoryBatch. destruct msgs as [|m ms]; [by apply safe_ret|].
  eapply safe_seq; [|intros; by apply safe_ret].
  apply (safe_pool_batch env _ _). apply Forall_forall. intros st Hst.
  apply list_elem_of_omap in Hst as (x & _ & Hx).
  destruct (e_uuid_Parse env (im_ID x)); simplify_eq/=.
  by intros w1 b a db' _ _ [= <- <-].
Qed.

(** An empty claim changes nothing. *)
Lemma claim_spec_nil now types sh locked batch wk lease m m' :
  claim_spec now types sh locked batch wk lease m m' [] → m' = m.
Proof. intros H. apply map_eq. intros i. apply (cs_frame _ _ _ _ _ _ _ _ _ _ H). apply not_elem_of_nil. Qed.

Section Claim.
Context (env : Env) `{!EnvOK env} (s : Store) (p : ClaimParams).

Definition claim_types := match cp_EventTypes p with [] => None | l => Some l end.
Definition claim_batch := if cp_Batch p <=? 0 then 1 else cp_Batch p.

(** The clock, shard filter and locks of a pass: the first runs on one
    random shard a tick after the draw, the second on all of them. *)
Definition claim_pass (w : World) (second : bool) : nat * option Z :=
  if second then ((w_tick w + 2)%nat, None)
  else ((w_tick w + 1)%nat, Some (e_rand env (w_tick w) mod numClaimShards)).

Definition claimed_in (w w' : World) (second : bool) (out : list InboundMessage) : Prop :=
  let '(n, sh) := claim_pass w second in
  claim_spec (e_dbnow env n) claim_types sh (e_locked env n) claim_batch (cp_WorkerID p)
    (lease_seconds (cp_Lease p)) (d_msgs (w_db w)) (d_msgs (w_db w')) out.

Lemma claim_batch_pos : 0 < claim_batch.
Proof. unfold claim_batch. destruct (Z.leb_spec (cp_Batch p) 0); lia. Qed.

Lemma claimQuery_in w sh out w' :
  run (claimQuery env claim_types claim_batch (cp_WorkerID p) (lease_seconds (cp_Lease p)) sh) w
    = ((out, None), w') →
  claim_spec (e_dbnow env (w_tick w)) claim_types sh (e_locked env (w_tick w)) claim_batch
    (cp_WorkerID p) (lease_seconds (cp_Lease p)) (d_msgs (w_db w)) (d_msgs (w_db w')) out
  ∧ w_tick w' = S (w_tick w).
Proof.
  pose proof claim_batch_pos.
  intros (rows & db' & Hst & -> & ->)%run_claimQuery. split; [|done].
  eapply (claimSQL_spec _ _ _ _ _ (sql_env env (w_tick w) (w_tick w))); [|lia|done].
  intros l. apply scan_perm.
Qed.

(** History recording after the lease does not touch the messages. *)
Lemma claim_history_step out w1 r w' :
  run ((if negb (bool_decide (out = [])) && history_on s
        then herr ← appendHistoryBatch env out StatusHandling "" (cp_WorkerID p);
             mret (out, fmap (M:=option) (Errorf_w "tickr/postgres: claim history") herr)
        else mret (out, None)) : prog (list InboundMessage * option error)) w1 = (r, w') →
  r.1 = out ∧ d_msgs (w_db w') = d_msgs (w_db w1).
Proof.
  destruct (_ && _).
  - rewrite run_bind. pose proof (appendHistoryBatch_msgs env out StatusHandling "" (cp_WorkerID p) w1).
    destruct (run (appendHistoryBatch _ _ _ _ _) w1) as [herr w2]. by intros [= <- <-].
  - by intros [= <- <-].
Qed.

Lemma Claim_cases w out err w' :
  run (Claim env s p) w = ((out, err), w') → err = None ∨ out ≠ [] →
  (out ≠ [] ∧ claimed_in w w' false out) ∨ claimed_in w w' true out.
Proof.
  unfold Claim. fold claim_types claim_batch. rewrite run_bind.
  cbn [run pickShard rand_IntN atomically]. rewrite run_bind.
  destruct (run (claimQuery _ _ _ _ _ (Some _)) _) as [[out1 [e1|]] w1] eqn:E1; cbv beta iota.
  { intros [= <- <- <-] [?|?]; done. }
  apply claimQuery_in in E1 as [H1 Ht1]; simpl in H1, Ht1. rewrite run_bind.
  destruct out1 as [|m0 out1].
  - destruct (run (claimQuery _ _ _ _ _ None) w1) as [[out2 [e2|]] w2] eqn:E2; cbv beta iota.
    { intros [= <- <- <-] [?|?]; done. }
    apply claimQuery_in in E2 as [H2 Ht2]. apply claim_spec_nil in H1.
    intros [Ho Hm]%claim_history_step _. simpl in Ho. subst out2. right.
    unfold claimed_in. simpl. rewrite Hm, <- H1. rewrite Ht1 in H2.
    by replace (w_tick w + 2)%nat with (S (S (w_tick w))) by lia.
  - change (run (mret ?x) w1) with (x, w1). cbv beta iota.
    intros [Ho Hm]%claim_history_step _. simpl in Ho. left.
    subst out. split; [done|]. unfold claimed_in. simpl. rewrite Hm.
    by replace (w_tick w + 1)%nat with (S (w_tick w)) by lia.
Qed.
End Claim.


Definition demo_queue : World :=
  (run (op_prog demo_env demo_store (OpEnqueueBatch TxZero
     [demo_params; mkEnqueueParams "order.paid" "{}" None "k-2" 3 0;
      mkEnqueueParams "mail.send" "hi" None "" 0 (900 * Second)])) init_world).2.


(** No claimable message is missed.  When Claim returns an empty list and no
    error, no row of the table was eligible when the second pass ran, whatever
    its shard: every pending row of the requested types was either not yet due
    or locked by another transaction.  Sharding never hides work. *)
Theorem Claim_empty_means_idle env `{!EnvOK env} s p w w' i r :
  run (Claim env s p) w = (([], None), w') → d_msgs (w_db w) !! i = Some r →
  SQL.claim_eligible (e_dbnow env (w_tick w + 2)) (claim_types p) None
    (e_locked env (w_tick w + 2)) i r = false.
Proof.
  intros H Hi. destruct (Claim_cases env s p w [] None w' H) as [[? _]|Hc]; [by left|done|].
  destruct (SQL.claim_eligible _ _ _ _ _ _) eqn:He; [|done]. exfalso.
  apply claim_eligible_iff in He.
  pose proof (claim_batch_pos p).
  destruct (cs_priority _ _ _ _ _ _ _ _ _ _ Hc i r Hi He) as [Hl _]; [apply not_elem_of_nil|].
  simpl in Hl. lia.
Qed.

(** A message scheduled in the future is not claimed. *)
Definition demo_future : World :=
  (run (op_prog demo_env demo_store (OpEnqueue TxZero
     (mkEnqueueParams "order.paid" "{}" None "k-1" 3 (5000 * Second)))) init_world).2.

Lemma Claim_empty_means_idle_witness :
  ∃ r, d_msgs (w_db demo_future) !! demo_id 0 = Some r ∧ r_status r = StatusCreated ∧
    SQL.claim_eligible (e_dbnow demo_env (w_tick demo_future + 2)) (claim_types demo_claim) None
      (e_locked demo_env (w_tick demo_future + 2)) (demo_id 0) r = false.
Proof.
  eexists. split; [vm_compute; reflexivity|]. split; [reflexivity|].
  eapply (Claim_empty_means_idle demo_env demo_store demo_claim demo_future
    (run (Claim demo_env demo_store demo_claim) demo_future).2); vm_compute; reflexivity.
Defined.
