(* ===== verification/PostgresEnqueue.v ===== *)
(** * Functional correctness of Enqueue, and the transactional outbox

    The same program runs on the pool or inside the caller's transaction;
    [qview] is the database it sees, so that one theorem covers both. *)

From S2P Require Import Prelude GoErrors GoFloat Message World Postgres Lifecycle PostgresLogic PostgresFacts Demo Fleet FleetInvariants.

(** The database a querier sees: the committed one, or the transaction's view. *)
Definition qview (q : querier) (w : World) : DB :=
  match q, w_tx w with
  | txQuerier, Some t => tx_view (w_db w) t
  | _, _ => w_db w
  end.

(** A database that only gained rows and notifications. *)
Definition grows (db db' : DB) : Prop :=
  d_msgs db ⊆ d_msgs db' ∧ d_hist db' = d_hist db ∧ d_notify db `prefix_of` d_notify db'.

Lemma tx_view_update db t view failed :
  grows (tx_view db t) view → tx_view db (tx_update db view failed t) = view.
Proof.
  intros (Hm & Hh & [n Hn]). destruct view as [vm vh vn]. simpl in *. subst.
  unfold tx_view, tx_update; simpl. f_equal.
  - apply map_difference_union. etrans; [apply map_union_subseteq_l|apply Hm].
  - by rewrite <- app_assoc, drop_app_length.
Qed.

(** The querier's transaction, if it has one, is open and not aborted. *)
Definition live (q : querier) (w : World) : Prop :=
  q = txQuerier → ∃ t, w_tx w = Some t ∧ t_aborted t = false.

(** A successful statement of a querier acts on the view it sees. *)
Lemma run_exec_inr env q {A} (st : stmt A) w a w' :
  (∀ se db a db', st se db = inr (a, db') → grows db db') →
  run (exec env q st) w = (inr a, w') →
  ∃ b db', st (sql_env env b (w_tick w)) (qview q w) = inr (a, db') ∧ qview q w' = db' ∧ live q w'.
Proof.
  intros Hg. destruct q; unfold exec, exec_pool, exec_tx, atomically; simpl.
  - unfold pool_action, run_stmt.
    destruct (e_fault env (w_tick w)); simpl; try done.
    all: destruct (st _ _) as [?|[a' db']] eqn:E; simpl; intros [=]; subst.
    exists (w_tick w), db'. by destruct w.
  - unfold tx_action. destruct (w_tx w) as [t|] eqn:Ht; [|done].
    destruct (t_aborted t); [done|]. unfold run_stmt, qview.
    destruct (e_fault env (w_tick w)); simpl; try done.
    all: destruct (st _ _) as [?|[a' db']] eqn:E; simpl; intros [=]; subst.
    exists (t_begin t), db'. simpl. split_and!; [done| |by intros _; eexists].
    by apply tx_view_update, (Hg _ _ _ _ E).
Qed.

Lemma grows_refl db : grows db db.
Proof. by split_and!. Qed.

Lemma tx_issued_grows s G A (st : stmt A) se db a db' :
  tx_issued s G A st → st se db = inr (a, db') → grows db db'.
Proof.
  intros Hi Hst. pose proof (tx_issued_hist _ _ _ _ _ _ _ _ Hi Hst) as Hh.
  pose proof (tx_issued_extends _ _ _ _ _ _ _ _ Hi Hst) as [Hx _].
  split_and!; [by apply map_subseteq_spec|done|].
  destruct Hi; [| |by injection Hst as <- <-|injection Hst as <- <-; by exists [et]].
  - unfold SQL.enqueueSQL in Hst. destruct (SQL.insert_row _ _ _ _) as [?|[m|]]; by simplify_eq.
  - unfold SQL.batchInsertSQL in Hst.
    destruct (SQL.insert_rows _ _ _ _) as [?|[ins m]]; by simplify_eq.
Qed.

Abbreviation any_id := (λ _ : UUID, True).

(** ** A fresh message *)

Definition effective_attempts (p : EnqueueParams) : Z :=
  if ep_MaxAttempts p <=? 0 then 10 else ep_MaxAttempts p.
Definition effective_process_at (p : EnqueueParams) (now : Time) : Time :=
  if IsZero (ep_ProcessAt p) then now else ep_ProcessAt p.

(** The message the caller gets back. *)
Definition fresh_message (id : UUID) (p : EnqueueParams) (now created : Time) : InboundMessage :=
  {| im_ID := id; im_Type := ep_EventType p; im_Payload := ep_Payload p;
     im_Headers := decodeHeaders (default ∅ (ep_Headers p));
     im_IdempotencyKey := ep_IdempotencyKey p; im_Attempt := 0;
     im_MaxAttempts := effective_attempts p; im_EnqueuedAt := created;
     im_ScheduledAt := effective_process_at p now; im_LastError := "";
     im_Status := Some StatusCreated |}.

(** [db'] is [db] with one fresh row for [p], stored under [id] and readable as
    [m], and its wake-up notification. *)
Definition enqueued (s : Store) (p : EnqueueParams) (now : Time) (db db' : DB)
    (m : InboundMessage) : Prop :=
  ∃ r, d_msgs db !! im_ID m = None ∧ d_msgs db' = <[im_ID m := r]> (d_msgs db) ∧
    m = scanMessage (im_ID m) r ∧ m = fresh_message (im_ID m) p now (r_created_at r) ∧
    0 ≤ r_shard r < numClaimShards ∧ row_step LEnqueue None (Some r) ∧
    d_hist db' = d_hist db ∧
    d_notify db' = d_notify db ++ (if notifierDisabled s then [] else [ep_EventType p]).

Lemma enqueueSQL_Some part id et pl hd idem ma pa sh se db i r db' :
  SQL.enqueueSQL part id et pl hd idem ma pa sh se db = inr (Some (i, r), db') →
  i = id ∧ r = SQL.new_row et pl hd idem ma pa sh (s_now se) ∧ d_msgs db !! id = None ∧
  ma ≤ int4_max ∧ db' = set_msgs (<[id := r]> (d_msgs db)) db.
Proof.
  unfold SQL.enqueueSQL. destruct (SQL.insert_row _ _ _ _) as [?|[m|]] eqn:E; try done.
  intros [= <- <- <-]. apply (insert_row_inserts all_labels) in E as (? & -> & ? & _).
  by split_and!.
Qed.

Section Enqueue.
Context (env : Env) (s : Store) (p : EnqueueParams).

Lemma run_notifyEnqueue tx et w w' :
  run (notifyEnqueue env s tx et) w = (None, w') →
  qview (querier_of tx) w' = set_notify (d_notify (qview (querier_of tx) w) ++
    (if notifierDisabled s then [] else [et])) (qview (querier_of tx) w) ∧
  (live (querier_of tx) w → live (querier_of tx) w').
Proof.
  unfold notifyEnqueue. destruct (notifierDisabled s).
  - intros [= <-]. rewrite app_nil_r. by destruct (qview _ w).
  - unfold Notify. rewrite run_bind. destruct (run (exec env _ _) w) as [[e|u] w1] eqn:E; [done|].
    intros [= <-]. apply run_exec_inr in E as (b & db' & Hst & <- & Hl).
    + by injection Hst as <-.
    + intros. by eapply (tx_issued_grows s any_id _ _ _ _ _ _ (ti_notify s any_id et)).
Qed.

Lemma run_enqueue_insert tx id now w m w' :
  run (enqueue_insert env s tx (querier_of tx) id p (effective_attempts p)
    (effective_process_at p now)) w = ((Some m, None), w') →
  enqueued s p now (qview (querier_of tx) w) (qview (querier_of tx) w') m ∧
  live (querier_of tx) w'.
Proof.
  unfold enqueue_insert. rewrite run_bind. cbn [run pickShard rand_IntN atomically].
  rewrite run_bind. destruct (run (exec env _ _) _) as [[e|[[i r]|]] w1] eqn:E; cbv beta iota; try done.
  - rewrite run_bind.
    destruct (run (notifyEnqueue _ _ _ _) w1) as [nerr w2] eqn:En. intros [= <- -> <-].
    apply run_notifyEnqueue in En as [En Hl2].
    apply run_exec_inr in E as (b & db' & Hst & Hq & Hl).
    2:{ intros se db a db' H. eapply (tx_issued_grows s any_id); [|exact H].
        apply ti_enqueue; [done|apply default_attempts|apply nullif_not_empty]. }
    change (qview (querier_of tx) (tick w)) with (qview (querier_of tx) w) in Hst.
    apply enqueueSQL_Some in Hst as (-> & -> & Hnone & Hmax & ->).
    split; [|by apply Hl2]. eexists. rewrite En, Hq. simpl. split_and!; try done.
    + unfold fresh_message, scanMessage, SQL.new_row. simpl. by rewrite coalesce_nullif.
    + apply Z.mod_pos_bound. done.
    + apply Z.mod_pos_bound. done.
    + apply step_enqueue; [|apply nullif_not_empty].
      split; [apply (default_attempts (ep_MaxAttempts p))|done].
  - case_bool_decide; [done|]. rewrite run_bind.
    by destruct (run (findByIdempotency _ _ _ _) w1) as [[?|?] ?].
Qed.

Lemma run_newID {B} (k : UUID → prog B) w :
  run (newID env ≫= k) w =
  run (k (match e_v7 env (w_tick w) with Some u => u | None => e_v4 env (w_tick w) end)) (tick w).
Proof. by rewrite run_bind. Qed.
End Enqueue.

(** A query changes no view, whether it is reported as failed or not. *)
Lemma run_exec_query env q {A} (st : stmt A) w :
  (∀ se db a db', st se db = inr (a, db') → db' = db) →
  qview q (run (exec env q st) w).2 = qview q w.
Proof.
  intros Hq. destruct q; unfold exec, exec_pool, exec_tx, atomically; simpl.
  - unfold pool_action, run_stmt. destruct (e_fault env (w_tick w)); simpl; try done.
    all: destruct (st _ _) as [?|[a' db']] eqn:E; simpl; [done|by apply Hq in E].
  - unfold tx_action, qview. destruct (w_tx w) as [t|] eqn:Ht; simpl; [|by rewrite Ht].
    destruct (t_aborted t); simpl; [by rewrite Ht|]. unfold run_stmt.
    destruct (e_fault env (w_tick w)); simpl; try (apply tx_view_update, grows_refl).
    all: destruct (st _ _) as [?|[a' db']] eqn:E; simpl; try (apply tx_view_update, grows_refl).
    all: apply Hq in E as ->; apply tx_view_update, grows_refl.
Qed.

Lemma run_findByIdempotency_view env q et k w :
  qview q (run (findByIdempotency env q et k) w).2 = qview q w.
Proof.
  unfold findByIdempotency. rewrite run_bind.
  pose proof (run_exec_query env q (SQL.findByIdemSQL et k) w) as H.
  destruct (run (exec env q _) w). apply H. by intros ???? [= _ <-].
Qed.

Lemma run_Enqueue env s tx p w m w' :
  run (Enqueue env s tx p) w = ((Some m, None), w') →
  enqueued s p (e_now env (S (w_tick w))) (qview (querier_of tx) w) (qview (querier_of tx) w') m ∧
  live (querier_of tx) w'.
Proof.
  unfold Enqueue. rewrite run_newID, run_bind. cbn [run time_Now atomically].
  fold (effective_attempts p) (effective_process_at p (e_now env (w_tick (tick w)))).
  destruct (_ && _).
  - rewrite run_bind.
    pose proof (run_findByIdempotency_view env (querier_of tx) (ep_EventType p) (ep_IdempotencyKey p)
      (tick w)) as Hv.
    destruct (run (findByIdempotency _ _ _ _) _) as [[e|m'] w1]; cbv beta iota; [|done].
    simpl in Hv. change (qview (querier_of tx) (tick w)) with (qview (querier_of tx) w) in Hv.
    destruct (is_NoRows _); [|done]. intros [H ?]%run_enqueue_insert. by rewrite Hv in H.
  - intros H%run_enqueue_insert. exact H.
Qed.

(** C24: A successful Enqueue stores exactly the message it was given.  On the
    pool or in the caller's transaction, the view afterwards is the view
    before plus one row under the returned id, in state CREATED with attempt 0
    and the caller's type, payload, headers and idempotency key (an attempt
    budget of 10 and a due time of now when unset), a shard in range, and one
    notification of its type unless notifications are off.  The returned
    message is that row read back. *)
Theorem Enqueue_stores env s tx p w m w' :
  run (Enqueue env s tx p) w = ((Some m, None), w') →
  enqueued s p (e_now env (S (w_tick w))) (qview (querier_of tx) w) (qview (querier_of tx) w') m.
Proof. apply run_Enqueue. Qed.

Lemma Enqueue_stores_witness :
  ∃ m w', run (Enqueue demo_env demo_store TxZero demo_params) init_world = ((Some m, None), w') ∧
    enqueued demo_store demo_params (e_now demo_env 1) (w_db init_world) (w_db w') m.
Proof.
  do 2 eexists. split; [vm_compute; reflexivity|].
  apply (Enqueue_stores demo_env demo_store TxZero demo_params init_world).
  vm_compute. reflexivity.
Defined.

(** ** The transactional outbox *)

(** Nothing a transactional producer does before commit is visible. *)
Definition db_untouched (w w' : World) : Prop := w_db w' = w_db w.

#[export] Instance db_untouched_rel : WorldRel (λ _, True) db_untouched.
Proof.
  split; [split|done].
  - by intros w.
  - intros a b c. unfold db_untouched. congruence.
Qed.

Lemma exec_tx_untouched env {A} (st : stmt A) :
  safe (λ _, True) db_untouched (exec env txQuerier st) (λ _, True).
Proof.
  apply (safe_exec_tx env _ _). intros w t view failed _ Ht Hview. done.
Qed.

Ltac untouched :=
  repeat match goal with
  | |- safe _ _ (mret _) _ => by apply safe_ret
  | |- safe _ _ (exec _ _ _) _ => apply exec_tx_untouched
  | |- safe _ _ (_ ≫= _) _ => eapply safe_seq; [|intros]
  | |- safe _ _ (match ?x with _ => _ end) _ => destruct x
  | |- safe _ _ (time_Now _) _ => apply (safe_time_Now _ _ _)
  | |- safe _ _ (pickShard _) _ => apply (safe_rand _ _ _)
  | |- safe _ _ (newID _) _ => by intros w ?
  end.

Lemma untouched_find env et k :
  safe (λ _, True) db_untouched (findByIdempotency env txQuerier et k) (λ _, True).
Proof. unfold findByIdempotency. untouched. Qed.

Lemma untouched_notify env s et :
  safe (λ _, True) db_untouched (notifyEnqueue env s TxOwn et) (λ _, True).
Proof. unfold notifyEnqueue, Notify. change (querier_of TxOwn) with txQuerier. untouched. Qed.

Lemma untouched_insert env s id p ma pa :
  safe (λ _, True) db_untouched (enqueue_insert env s TxOwn txQuerier id p ma pa) (λ _, True).
Proof. unfold enqueue_insert. untouched; [apply untouched_notify|apply untouched_find]. Qed.

Lemma untouched_Enqueue env s p :
  safe (λ _, True) db_untouched (Enqueue env s TxOwn p) (λ _, True).
Proof.
  unfold Enqueue. change (querier_of TxOwn) with txQuerier.
  untouched; try apply untouched_insert. apply untouched_find.
Qed.

Lemma untouched_batch_rows env now ps :
  safe (λ _, True) db_untouched (batch_rows env now ps) (λ _, True).
Proof. induction ps as [|p ps IH]; cbn [batch_rows]; untouched. apply IH. Qed.

Lemma untouched_batch_output env ins items i dup :
  safe (λ _, True) db_untouched (batch_output env txQuerier ins items i dup) (λ _, True).
Proof.
  revert i dup. induction items as [|[id p] items IH]; intros i dup; cbn [batch_output]; untouched.
  - apply IH.
  - apply untouched_find.
  - apply IH.
Qed.

Lemma untouched_EnqueueBatch env s ps :
  safe (λ _, True) db_untouched (EnqueueBatch env s TxOwn ps) (λ _, True).
Proof.
  unfold EnqueueBatch. change (querier_of TxOwn) with txQuerier. untouched.
  - apply untouched_batch_rows.
  - apply untouched_batch_output.
  - apply untouched_notify.
Qed.

(** C18: The outbox is transactional.  An Enqueue inside the caller's transaction,
    whatever it returns and whatever faults occur, leaves the committed database
    as it was: rolling back leaves no trace of the message or its
    notification.  If it succeeded, committing makes the transaction's
    view visible: what earlier calls in the transaction inserted, and exactly
    this message and its notification on top. *)
Theorem outbox_atomic env s p w t :
  w_tx w = Some t →
  let '((om, err), w') := run (Enqueue env s TxOwn p) w in
  w_db w' = w_db w ∧ w_db (caller_rollback w') = w_db w ∧
  (∀ m, om = Some m → err = None →
     enqueued s p (e_now env (S (w_tick w))) (tx_view (w_db w) t) (w_db (caller_commit w')) m).
Proof.
  intros Ht. destruct (run (Enqueue env s TxOwn p) w) as [[om err] w'] eqn:E.
  destruct (safe_run (λ _, True) db_untouched _ (λ _, True) w wr_preorder
    (untouched_Enqueue env s p) I) as (_ & Hdb & _).
  rewrite E in Hdb. unfold db_untouched in Hdb. simpl in Hdb.
  split_and!; [done|done|]. intros m -> ->. apply run_Enqueue in E as [E Hl].
  destruct (Hl eq_refl) as (t' & Ht' & Ha).
  unfold qview in E. simpl in E. rewrite Ht, Ht' in E.
  unfold caller_commit. by rewrite Ht', Ha.
Qed.

Lemma outbox_atomic_witness :
  let w := caller_begin init_world in
  let '((om, err), w') := run (Enqueue demo_env demo_store TxOwn demo_params) w in
  w_db (caller_rollback w') = w_db init_world ∧
  (map_to_list (d_msgs (w_db (caller_commit w')))).*1 = [demo_id 0] ∧
  d_notify (w_db (caller_commit w')) = ["order.paid"%string].
Proof.
  pose proof (outbox_atomic demo_env demo_store demo_params (caller_begin init_world)
    (mkTxState 0 ∅ [] false None) eq_refl) as H.
  cbv zeta. destruct (run (Enqueue demo_env demo_store TxOwn demo_params) (caller_begin init_world))
    as [[om err] w'] eqn:E.
  destruct H as (_ & H & _). split; [exact H|].
  assert (w' = (run (Enqueue demo_env demo_store TxOwn demo_params) (caller_begin init_world)).2)
    as -> by (rewrite E; reflexivity).
  split; vm_compute; reflexivity.
Defined.

(** ** Duplicates *)

Section NoFaults.
Context (env : Env) `{!EnvOK env}.
Context (Hnf : ∀ n, e_fault env n = NoFault).

Lemma run_exec_pool_nofault {A} (st : stmt A) w :
  run (exec_pool env st) w =
  match st (sql_env env (w_tick w) (w_tick w)) (w_db w) with
  | inl e => (inl e, tick w)
  | inr (a, db') => (inr a, set_db db' (tick w))
  end.
Proof.
  unfold exec_pool, atomically, pool_action, run_stmt. simpl. rewrite Hnf.
  destruct (st _ _) as [?|[a db']]; by destruct w.
Qed.

Definition same_key (p : EnqueueParams) (r : row) : Prop :=
  r_event_type r = ep_EventType p ∧ r_idempotency_key r = Some (ep_IdempotencyKey p).

(** The lookup finds a row with the key when there is one. *)
Lemma run_find_existing p i r w :
  d_msgs (w_db w) !! i = Some r → same_key p r →
  ∃ j r', d_msgs (w_db w) !! j = Some r' ∧ same_key p r' ∧
    run (findByIdempotency env poolQuerier (ep_EventType p) (ep_IdempotencyKey p)) w =
      (inr (scanMessage j r'), tick w).
Proof.
  intros Hi [Het Hk]. unfold findByIdempotency. rewrite run_bind. cbn [exec].
  rewrite run_exec_pool_nofault. unfold SQL.findByIdemSQL.
  set (P := λ (_ : UUID) (r0 : row), _). set (l := select_where P _).
  assert (∀ l, s_scan (sql_env env (w_tick w) (w_tick w)) l ≡ₚ l) as Hscan
    by (intros; apply scan_perm).
  assert ((i, r) ∈ SQL.scan_rows (sql_env env (w_tick w) (w_tick w)) l) as Hin.
  { apply elem_of_scan_rows; [done|apply NoDup_fst_select_where|].
    apply elem_of_select_where. split; [done|]. unfold P, eq_opt. rewrite Hk.
    by rewrite !bool_decide_eq_true_2. }
  destruct (SQL.scan_rows _ l) as [|[j r'] rest] eqn:E; [by apply elem_of_nil in Hin|].
  assert ((j, r') ∈ SQL.scan_rows (sql_env env (w_tick w) (w_tick w)) l) as Hj
    by (rewrite E; left).
  apply elem_of_scan_rows in Hj; [|done|apply NoDup_fst_select_where].
  apply elem_of_select_where in Hj as [Hj Hp]. exists j, r'. split_and!; [done| |by destruct w as [[]]].
  unfold P, eq_opt in Hp. bools. destruct (r_idempotency_key r') eqn:?; [|done]. bools.
  subst. by split.
Qed.

Lemma insert_conflict part id r' i r m :
  m !! i = Some r → SQL.idem_collide part r' r = true → r_max_attempts r' ≤ int4_max →
  SQL.insert_row part id r' m = inr None.
Proof.
  intros Hi Hc Hm. unfold SQL.insert_row.
  destruct (Z.ltb_spec int4_max (r_max_attempts r')); [lia|].
  destruct (SQL.idem_conflict part r' m) eqn:E; [done|].
  rewrite idem_conflict_false in E. by rewrite (E i r Hi) in Hc.
Qed.
End NoFaults.

(** Enqueue is idempotent by key.  If the table already holds a message of
    the same type and idempotency key then, absent database errors and with an
    attempt budget that fits the column, Enqueue inserts nothing, changes
    nothing, and returns an existing message with that key together with an
    ErrDuplicate naming its id, in both schemas. *)
Theorem Enqueue_duplicate env `{!EnvOK env} s p w i r :
  (∀ n, e_fault env n = NoFault) → ep_IdempotencyKey p ≠ ""%string →
  effective_attempts p ≤ int4_max →
  d_msgs (w_db w) !! i = Some r → same_key p r →
  ∃ j r', d_msgs (w_db w) !! j = Some r' ∧ same_key p r' ∧
    (run (Enqueue env s TxZero p) w).1 =
      (Some (scanMessage j r'), Some (ErrDuplicate j (ep_EventType p) (ep_IdempotencyKey p))) ∧
    w_db (run (Enqueue env s TxZero p) w).2 = w_db w.
Proof.
  intros Hnf Hkey Hmax Hi Hs. unfold Enqueue. rewrite run_newID, run_bind.
  cbn [run time_Now atomically].
  fold (effective_attempts p) (effective_process_at p (e_now env (w_tick (tick w)))).
  change (querier_of TxZero) with poolQuerier. rewrite (bool_decide_eq_false_2 _ Hkey).
  destruct (partitioned s) eqn:Hp; simpl negb; cbn [andb].
  - rewrite run_bind.
    destruct (run_find_existing env Hnf p i r (tick w) Hi Hs) as (j & r' & Hj & Hs' & ->).
    exists j, r'. by split_and!.
  - unfold enqueue_insert. rewrite run_bind. cbn [run pickShard rand_IntN atomically].
    rewrite run_bind. cbn [exec]. rewrite run_exec_pool_nofault by done. unfold SQL.enqueueSQL.
    rewrite (insert_conflict _ _ _ i r); [|done| |done].
    2:{ destruct Hs as [Het Hk]. unfold SQL.idem_collide. simpl. rewrite Hp, Hk, Het.
        unfold nullif_empty. by rewrite (bool_decide_eq_false_2 _ Hkey), !bool_decide_eq_true_2. }
    cbv beta iota. rewrite (bool_decide_eq_false_2 _ Hkey), run_bind.
    edestruct (run_find_existing env Hnf p i r) as (j & r' & Hj & Hs' & ->); [|exact Hs|].
    + exact Hi.
    + exists j, r'. by split_and!.
Qed.

Lemma Enqueue_duplicate_witness :
  let w := (run (Enqueue demo_env demo_store TxZero demo_params) init_world).2 in
  (run (Enqueue demo_env demo_store TxZero demo_params) w).1.2
    = Some (ErrDuplicate (demo_id 0) "order.paid" "k-1") ∧
  w_db (run (Enqueue demo_env demo_store TxZero demo_params) w).2 = w_db w.
Proof.
  cbv zeta. split; [vm_compute; reflexivity|].
  edestruct (Enqueue_duplicate demo_env demo_store demo_params
    (run (Enqueue demo_env demo_store TxZero demo_params) init_world).2 (demo_id 0))
    as (j & r' & _ & _ & _ & H).
  - intros n. reflexivity.
  - discriminate.
  - vm_compute. discriminate.
  - vm_compute. reflexivity.
  - split; reflexivity.
  - exact H.
Defined.
