(* ===== verification/PostgresBatch.v ===== *)
(** * Functional correctness of EnqueueBatch (storage/postgres/postgres.go)

    One statement inserts the batch; what RETURNING leaves out was skipped by
    ON CONFLICT DO NOTHING.  A batch reported without error was stored whole.
    In the partitioned schema the conflict target contains [created_at], and
    the batch, unlike Enqueue, does not look a key up before it inserts. *)

From S2P Require Import Prelude GoErrors GoFloat Message World Postgres Lifecycle PostgresLogic PostgresFacts Demo Fleet FleetInvariants PostgresEnqueue.

(** Ids generated at different ticks are different. *)
Definition unique_ids (env : Env) : Prop :=
  ∀ n n' i, gen_id env n i → gen_id env n' i → n = n'.

(** ** The rows of the statement *)

Definition new_of (now : Time) (b : SQL.batch_row) : row :=
  SQL.new_row (SQL.br_event_type b) (SQL.br_payload b) (SQL.br_headers b)
    (nullif_empty (SQL.br_idem b)) (SQL.br_max b) (SQL.br_process_at b) (SQL.br_shard b) now.

Definition new_entry (now : Time) (b : SQL.batch_row) : UUID * row := (SQL.br_id b, new_of now b).

(** [b] is the row built for [p]. *)
Definition row_for (now : Time) (p : EnqueueParams) (b : SQL.batch_row) : Prop :=
  SQL.br_event_type b = ep_EventType p ∧ SQL.br_payload b = ep_Payload p ∧
  SQL.br_headers b = encodeHeaders (ep_Headers p) ∧ SQL.br_idem b = ep_IdempotencyKey p ∧
  SQL.br_max b = effective_attempts p ∧ SQL.br_process_at b = effective_process_at p now ∧
  0 ≤ SQL.br_shard b < numClaimShards.

Lemma run_batch_rows env now ps w :
  let '(rows, w1) := run (batch_rows env now ps) w in
  Forall2 (row_for now) ps rows ∧
  Forall (λ b, ∃ n, (w_tick w ≤ n < w_tick w1)%nat ∧ gen_id env n (SQL.br_id b)) rows ∧
  w_db w1 = w_db w ∧ w_tx w1 = w_tx w ∧ (w_tick w ≤ w_tick w1)%nat ∧
  (unique_ids env → NoDup (SQL.br_id <$> rows)).
Proof.
  revert w. induction ps as [|p ps IH]; intros w; [simpl; by repeat constructor|].
  cbn [batch_rows]. rewrite run_newID, run_bind. cbn [run pickShard rand_IntN atomically].
  rewrite run_bind. specialize (IH (tick (tick w))).
  destruct (run (batch_rows env now ps) (tick (tick w))) as [rows w1].
  destruct IH as (Hrow & Hid & Hdb & Htx & Hle & Hnd). simpl in *.
  pose proof (newID_gen env w) as Hgen.
  split_and!; try done; [..|lia|].
  - constructor; [|done]. split_and!; try done; simpl; by apply Z.mod_pos_bound.
  - constructor; [|eapply Forall_impl; [exact Hid|]].
    + exists (w_tick w). split; [lia|done].
    + intros b (n & Hn & Hb). exists n. split; [lia|done].
  - intros Hu. constructor; [|by apply Hnd]. intros (b & Hb & Hin)%list_elem_of_fmap.
    rewrite Forall_forall in Hid. destruct (Hid b Hin) as (n & Hn & Hb').
    rewrite <- Hb in Hb'. pose proof (Hu _ _ _ Hgen Hb'). lia.
Qed.

Lemma gen_id_parses env `{!EnvOK env} n i : gen_id env n i → e_uuid_Parse env i = Some i.
Proof. intros [H|[_ <-]]; [by eapply parse_v7|apply parse_v4]. Qed.

(** ** The insert *)

Lemma insert_rows_spec part now rows m ins m' :
  SQL.insert_rows part now rows m = inr (ins, m') → NoDup (SQL.br_id <$> rows) →
  ∃ kept, kept `sublist_of` rows ∧ ins = new_entry now <$> kept ∧
    (∀ i, i ∈ ins.*1 → m !! i = None) ∧ m' = list_to_map ins ∪ m.
Proof.
  revert m ins m'. induction rows as [|b rows IH]; intros m ins m' H Hnd; simpl in H.
  { simplify_eq. exists []. split_and!; try done; [by intros i ?%elem_of_nil|].
    simpl. by rewrite (left_id_L ∅ (∪)). }
  apply NoDup_cons in Hnd as [Hb Hnd].
  destruct (SQL.insert_row _ _ _ _) as [?|[m1|]] eqn:E; [done| |].
  - destruct (SQL.insert_rows part now rows m1) as [?|[ins1 m2]] eqn:E2; simplify_eq.
    apply (insert_row_inserts all_labels) in E as (Hnone & -> & _ & _).
    destruct (IH _ _ _ E2 Hnd) as (kept & Hsub & -> & Hf & ->).
    exists (b :: kept). split_and!; [by constructor|done| |].
    + intros i [->|Hi]%elem_of_cons; [done|]. specialize (Hf i Hi).
      by apply lookup_insert_None in Hf as [? _].
    + simpl. rewrite <- insert_union_r; [by rewrite insert_union_l|].
      apply not_elem_of_list_to_map_1. intros Hi. apply Hb.
      rewrite <- list_fmap_compose in Hi.
      apply list_elem_of_fmap in Hi as (b' & -> & Hb').
      apply list_elem_of_fmap_2. by apply (elem_of_submseteq _ _ _ Hb'), sublist_submseteq.
  - destruct (IH _ _ _ H Hnd) as (kept & Hsub & ? & ? & ?). exists kept.
    split_and!; try done. by apply sublist_cons.
Qed.

Lemma inserted_map_lookup env (ins : list (UUID * row)) :
  Forall (λ ir, e_uuid_Parse env ir.1 = Some ir.1) ins → NoDup ins.*1 → ∀ i,
  inserted_map env ins !! i = scanMessage i <$> (list_to_map ins : gmap UUID row) !! i.
Proof.
  intros Hp Hnd i. unfold inserted_map.
  set (f := λ (acc : gmap UUID InboundMessage) (ir : UUID * row), _).
  assert (∀ acc, foldl f acc ins !! i =
    match (list_to_map ins : gmap UUID row) !! i with
    | Some r => Some (scanMessage i r) | None => acc !! i end) as H.
  { induction ins as [|[j r] ins IH]; intros acc; [done|].
    apply Forall_cons in Hp as [Hj Hp]. apply NoDup_cons in Hnd as [Hnj Hnd].
    simpl in *. rewrite IH by done. unfold f. simpl. rewrite Hj. simpl.
    destruct (decide (i = j)) as [->|Hne].
    - rewrite !lookup_insert_eq. rewrite not_elem_of_list_to_map_1 by done. done.
    - by rewrite !lookup_insert_ne. }
  rewrite H. by destruct (list_to_map ins !! i).
Qed.

(** Without a duplicate and without an error every input was inserted. *)
Lemma run_batch_output env q ins items i dup w out w' :
  run (batch_output env q ins items i dup) w = ((out, None, None), w') →
  dup = None ∧ w' = w ∧ Forall2 (λ ip om, ∃ m, ins !! ip.1 = Some m ∧ om = Some m) items out.
Proof.
  revert i dup w out w'. induction items as [|[id p] items IH]; intros i dup w out w'; cbn [batch_output].
  { intros [= <- <- <-]. by repeat constructor. }
  destruct (ins !! id) as [m|] eqn:E.
  - rewrite run_bind. destruct (run (batch_output _ _ _ _ _ _) w) as [[[o fa] d] w1] eqn:E1.
    intros [= <- -> -> <-]. destruct (IH _ _ _ _ _ E1) as (-> & -> & Ho).
    split_and!; [done..|]. constructor; [by exists m|done].
  - case_bool_decide; [done|]. rewrite run_bind.
    destruct (run (findByIdempotency _ _ _ _) w) as [[e|m] w1]; [done|]. cbv beta iota zeta.
    rewrite run_bind. destruct (run (batch_output _ _ _ _ _ _) w1) as [[[o fa] d] w2] eqn:E1.
    intros [= <- -> -> <-]. destruct (IH _ _ _ _ _ E1) as (Hd & _). by destruct dup.
Qed.

(** ** The batch *)

(** [db'] is [db] with one fresh row for each of [ps], readable as [ms] in the
    same order, and one notification for the whole batch. *)
Definition enqueued_all (s : Store) (ps : list EnqueueParams) (now : Time) (db db' : DB)
    (ms : list InboundMessage) : Prop :=
  NoDup (im_ID <$> ms) ∧
  Forall2 (λ p m, d_msgs db !! im_ID m = None ∧
    ∃ r, d_msgs db' !! im_ID m = Some r ∧ m = scanMessage (im_ID m) r ∧
      m = fresh_message (im_ID m) p now (r_created_at r) ∧
      0 ≤ r_shard r < numClaimShards ∧ r_status r = StatusCreated) ps ms ∧
  (∀ i, i ∉ im_ID <$> ms → d_msgs db' !! i = d_msgs db !! i) ∧
  d_hist db' = d_hist db ∧
  d_notify db' = d_notify db ++ (if notifierDisabled s then [] else ep_EventType <$> take 1 ps).

Lemma fresh_entry now created p b :
  row_for now p b →
  scanMessage (SQL.br_id b) (new_of created b) = fresh_message (SQL.br_id b) p now created.
Proof.
  intros (He & Hp & Hh & Hi & Hm & Ha & _).
  unfold new_of, scanMessage, fresh_message, SQL.new_row. simpl.
  by rewrite He, Hp, Hh, Hi, Hm, Ha, coalesce_nullif.
Qed.

Lemma output_by_row {B} (R : EnqueueParams → SQL.batch_row → Prop) (Q : UUID → B → Prop) ps rows out :
  Forall2 R ps rows → Forall2 (λ ip om, Q ip.1 om) (zip (SQL.br_id <$> rows) ps) out →
  Forall2 (λ b om, Q (SQL.br_id b) om) rows out.
Proof.
  intros Hr. revert out. induction Hr as [|p b ps rows _ _ IH]; intros out Ho; simpl in Ho.
  - by apply Forall2_nil_inv_l in Ho as ->.
  - apply Forall2_cons_inv_l in Ho as (o & out' & Hq & Ho & ->). constructor; auto.
Qed.

(** What the map of inserted rows says of a row of the batch. *)
Lemma inserted_of env created rows kept b m :
  Forall (λ b, e_uuid_Parse env (SQL.br_id b) = Some (SQL.br_id b)) rows →
  NoDup (SQL.br_id <$> rows) → kept `sublist_of` rows → b ∈ rows →
  inserted_map env (new_entry created <$> kept) !! SQL.br_id b = Some m →
  m = scanMessage (SQL.br_id b) (new_of created b) ∧
  (list_to_map (new_entry created <$> kept) : gmap UUID row) !! SQL.br_id b = Some (new_of created b).
Proof.
  intros Hp Hnd Hsub Hb.
  assert (∀ b', b' ∈ kept → b' ∈ rows) as Hin.
  { intros b' Hb'. by apply (elem_of_submseteq _ _ _ Hb'), sublist_submseteq. }
  rewrite inserted_map_lookup.
  - intros Hm. destruct (list_to_map _ !! _) as [r|] eqn:E; [|done]. simplify_eq/=.
    apply elem_of_list_to_map_2 in E. apply list_elem_of_fmap in E as (b' & [= Hid ->] & Hb').
    enough (b' = b) as -> by done.
    apply list_elem_of_lookup in Hb as [i Hi]. apply Hin, list_elem_of_lookup in Hb' as [j Hj].
    assert (i = j) as ->; [|congruence].
    apply (NoDup_lookup (SQL.br_id <$> rows) i j (SQL.br_id b)); [done|..];
      rewrite list_lookup_fmap; [by rewrite Hi|by rewrite Hj, Hid].
  - apply Forall_fmap. rewrite Forall_forall in Hp |- *. intros b' Hb'. apply Hp; auto.
  - rewrite <- list_fmap_compose. apply (sublist_NoDup _ (SQL.br_id <$> rows)); [done|].
    by apply (fmap_sublist SQL.br_id).
Qed.

(** The statement stored every row of the batch when all are in its map. *)
Lemma batch_stored env s now db db' se rows ps kept out :
  Forall (λ b, e_uuid_Parse env (SQL.br_id b) = Some (SQL.br_id b)) rows →
  NoDup (SQL.br_id <$> rows) → Forall2 (row_for now) ps rows →
  SQL.batchInsertSQL (partitioned s) rows se db = inr (kept, db') →
  Forall2 (λ ip om, ∃ m, inserted_map env kept !! ip.1 = Some m ∧ om = Some m)
    (zip (SQL.br_id <$> rows) ps) out →
  ∃ ms, out = Some <$> ms ∧ NoDup (im_ID <$> ms) ∧ im_ID <$> ms = SQL.br_id <$> rows ∧
    Forall2 (λ p m, d_msgs db !! im_ID m = None ∧
      ∃ r, d_msgs db' !! im_ID m = Some r ∧ m = scanMessage (im_ID m) r ∧
        m = fresh_message (im_ID m) p now (r_created_at r) ∧
        0 ≤ r_shard r < numClaimShards ∧ r_status r = StatusCreated) ps ms ∧
    (∀ i, i ∉ im_ID <$> ms → d_msgs db' !! i = d_msgs db !! i) ∧
    d_hist db' = d_hist db ∧ d_notify db' = d_notify db.
Proof.
  intros Hp Hnd Hr Hst Ho. unfold SQL.batchInsertSQL in Hst.
  destruct (SQL.insert_rows _ _ _ _) as [?|[ins m']] eqn:Hi; [done|]. simplify_eq/=.
  apply insert_rows_spec in Hi as (ks & Hsub & -> & Hf & ->); [|done].
  apply (output_by_row _ (λ i om, ∃ m, inserted_map env _ !! i = Some m ∧ om = Some m) _ _ _ Hr) in Ho.
  set (msg := λ b, scanMessage (SQL.br_id b) (new_of (s_now se) b)).
  assert (∀ b o, b ∈ rows → (∃ m, inserted_map env (new_entry (s_now se) <$> ks) !! SQL.br_id b = Some m
    ∧ o = Some m) → o = Some (msg b) ∧
    (list_to_map (new_entry (s_now se) <$> ks) : gmap UUID row) !! SQL.br_id b = Some (new_of (s_now se) b)) as Hget.
  { intros b o Hb (m & Hm & ->). by eapply inserted_of in Hm as [-> ?]. }
  assert (out = Some <$> (msg <$> rows) ∧ Forall (λ b, (list_to_map (new_entry (s_now se) <$> ks)
    : gmap UUID row) !! SQL.br_id b = Some (new_of (s_now se) b)) rows) as [-> Hall].
  { clear Hr Hp Hnd Hsub Hf. revert out Ho. induction rows as [|b rows IH]; intros out Ho.
    - apply Forall2_nil_inv_l in Ho as ->. by constructor.
    - apply Forall2_cons_inv_l in Ho as (o & out' & Hq & Ho & ->).
      destruct (Hget b o) as [-> ?]; [by left|done|].
      destruct (IH (λ b o Hb, Hget b o (list_elem_of_further _ _ _ Hb)) _ Ho) as [-> ?].
      split; [done|by constructor]. }
  assert (im_ID <$> (msg <$> rows) = SQL.br_id <$> rows) as Hids by (by rewrite <- list_fmap_compose).
  exists (msg <$> rows). rewrite Hids. split_and!; try done.
  - rewrite Forall2_fmap_r. apply Forall2_same_length_lookup_2; [by eapply Forall2_length|].
    intros j p b Hpj Hbj. pose proof (Forall2_lookup_lr _ _ _ _ _ _ Hr Hpj Hbj) as Hrow.
    pose proof (Forall_lookup_1 _ _ _ _ Hall Hbj) as Hb. simpl. split.
    + apply Hf. apply elem_of_list_to_map_2 in Hb.
      apply list_elem_of_fmap. by exists (SQL.br_id b, new_of (s_now se) b).
    + exists (new_of (s_now se) b). split_and!; try done; try apply Hrow.
      * by apply lookup_union_Some_l.
      * by apply fresh_entry.
  - intros j Hj. apply lookup_union_r, not_elem_of_list_to_map_1.
    intros Hin. apply Hj. rewrite <- list_fmap_compose in Hin.
    apply list_elem_of_fmap in Hin as (b & -> & Hb). apply list_elem_of_fmap_2.
    by apply (elem_of_submseteq _ _ _ Hb), sublist_submseteq.
Qed.

(** A batch reported without error was stored whole. *)
Lemma EnqueueBatch_stored env `{!EnvOK env} s tx ps w out w' :
  unique_ids env → run (EnqueueBatch env s tx ps) w = ((out, None), w') →
  ∃ ms, out = Some <$> ms ∧
    enqueued_all s ps (e_now env (w_tick w)) (qview (querier_of tx) w) (qview (querier_of tx) w') ms.
Proof.
  intros Hu. unfold EnqueueBatch. destruct ps as [|p0 ps0].
  { intros [= <- <-]. exists []. split; [done|]. split_and!; try done; [apply NoDup_nil_2|].
    simpl. by destruct (notifierDisabled s); rewrite app_nil_r. }
  set (ps := p0 :: ps0). rewrite run_bind. cbn [run time_Now atomically]. rewrite run_bind.
  pose proof (run_batch_rows env (e_now env (w_tick w)) ps w) as Hb.
  destruct (run (batch_rows _ _ _) _) as [rows w1]. cbv beta iota zeta in *.
  destruct Hb as (Hr & Hid & Hdb & Htx & _ & Hnd). specialize (Hnd Hu).
  assert (qview (querier_of tx) w1 = qview (querier_of tx) w) as Hv by (unfold qview; by rewrite Hdb, Htx).
  rewrite run_bind. destruct (run (exec env _ _) w1) as [[e|kept] w2] eqn:E; [done|].
  apply run_exec_inr in E as (b & db' & Hst & Hq & Hl).
  2:{ intros se db a db' H. eapply (tx_issued_grows s any_id), H. constructor.
      apply Forall_forall. intros bb [j Hj]%list_elem_of_lookup.
      destruct (Forall2_lookup_r _ _ _ _ _ Hr Hj) as (p & _ & _ & _ & _ & _ & -> & _).
      split; [apply default_attempts|done]. }
  rewrite Hv in Hst. rewrite run_bind.
  destruct (run (batch_output _ _ _ _ _ _) w2) as [[[o fatal] d] w3] eqn:Eo.
  assert (Forall (λ b, e_uuid_Parse env (SQL.br_id b) = Some (SQL.br_id b)) rows) as Hparse.
  { eapply Forall_impl; [exact Hid|]. intros bb (n & _ & Hg). by eapply gen_id_parses. }
  destruct fatal as [e|]; [done|]. intros Hend.
  assert (o = out ∧ d = None ∧ (inserted_map env kept ≠ ∅ →
    qview (querier_of tx) w' = set_notify (d_notify (qview (querier_of tx) w3) ++
      (if notifierDisabled s then [] else [ep_EventType p0])) (qview (querier_of tx) w3))) as (-> & -> & Hw').
  { revert Hend. unfold notifyEnqueue at 1. destruct (notifierDisabled s) eqn:Hn.
    - rewrite andb_false_r. intros [= -> -> ->]. split_and!; try done. intros _.
      rewrite app_nil_r. by destruct (qview _ w').
    - rewrite andb_true_r. case_bool_decide; [by intros [= -> -> ->]|]. simpl negb. cbv iota.
      rewrite run_bind. destruct (run (Notify _ _ _) w3) as [nerr w4] eqn:En.
      destruct nerr; [done|]. intros [= -> -> ->]. split_and!; try done. intros _.
      assert (run (notifyEnqueue env s tx (ep_EventType p0)) w3 = (None, w')) as E0
        by (unfold notifyEnqueue; by rewrite Hn).
      apply run_notifyEnqueue in E0 as [E0 _]. by rewrite Hn in E0. }
  apply run_batch_output in Eo as (_ & -> & Ho). rewrite Hq in Hw'.
  destruct (batch_stored env s (e_now env (w_tick w)) _ _ _ _ _ _ _ Hparse Hnd Hr Hst Ho)
    as (ms & -> & Hnd' & _ & Hf & Hrest & Hh & Hno).
  exists ms. split; [done|]. rewrite Hw'; [|]. 
  - split_and!; try done. simpl. by rewrite Hno.
  - destruct rows as [|b0 rows]; [by apply Forall2_nil_inv_r in Hr|]. simpl in Ho.
    apply Forall2_cons_inv_l in Ho as (o1 & ? & (m & Hm & _) & _). intros Hemp.
    by rewrite Hemp in Hm.
Qed.

(** C31: A batch reported without error was stored whole.  On the pool or in the
    caller's transaction, the view afterwards is the view before plus one row
    per input, under pairwise different new ids, each holding its input's
    message in state CREATED; the result lists these messages in the order of
    the inputs; the history is as it was, and at most one notification was
    sent for the whole batch. *)
Theorem EnqueueBatch_stores env `{!EnvOK env} s tx ps w out w' :
  unique_ids env → run (EnqueueBatch env s tx ps) w = ((out, None), w') →
  ∃ ms, out = Some <$> ms ∧
    enqueued_all s ps (e_now env (w_tick w)) (qview (querier_of tx) w) (qview (querier_of tx) w') ms.
Proof. intros Hu Hr. by eapply EnqueueBatch_stored. Qed.

Lemma demo_unique_ids : unique_ids demo_env.
Proof.
  intros n n' i [H|[H _]] [H'|[H' _]]; try done. simpl in *.
  assert (demo_id n = demo_id n') as E by congruence.
  unfold demo_id in E. simpl in E. injection E as E.
  apply (inj (pretty (A:=Z)) (Z.of_nat n) (Z.of_nat n')) in E. lia.
Qed.

Definition demo_batch : list EnqueueParams :=
  [demo_params;
   {| ep_EventType := "order.sent"; ep_Payload := "{}"; ep_Headers := None;
      ep_IdempotencyKey := ""; ep_MaxAttempts := 0; ep_ProcessAt := 0 |}].

Lemma EnqueueBatch_stores_witness :
  ∃ out w', run (EnqueueBatch demo_env demo_store TxZero demo_batch) init_world = ((out, None), w') ∧
    ∃ ms, out = Some <$> ms ∧
      enqueued_all demo_store demo_batch (e_now demo_env 0) (w_db init_world) (w_db w') ms.
Proof.
  do 2 eexists. split; [vm_compute; reflexivity|].
  apply (EnqueueBatch_stores demo_env demo_store TxZero demo_batch init_world).
  - apply demo_unique_ids.
  - vm_compute. reflexivity.
Defined.

(** ** The partitioned schema *)

Lemma partitioned_no_conflict r m now :
  (∀ j r', m !! j = Some r' → r_created_at r' ≠ now) → r_created_at r = now →
  SQL.idem_conflict true r m = false.
Proof.
  intros Hm Hr. apply idem_conflict_false. intros j r' Hj. unfold SQL.idem_collide.
  apply andb_false_iff. right. simpl. apply Z.eqb_neq. rewrite Hr. intros ->. by eapply Hm.
Qed.

(** The row built for a batch of one. *)
Definition single_row (env : Env) (p : EnqueueParams) (w : World) (id : UUID) : SQL.batch_row :=
  SQL.mkBatchRow id (ep_EventType p) (ep_Payload p) (encodeHeaders (ep_Headers p))
    (ep_IdempotencyKey p) (effective_attempts p) (effective_process_at p (e_now env (w_tick w)))
    (e_rand env (S (w_tick w)) mod numClaimShards).

Lemma single_insert part now b m :
  SQL.br_max b ≤ int4_max → SQL.idem_conflict part (new_of now b) m = false →
  m !! SQL.br_id b = None →
  SQL.insert_rows part now [b] m = inr ([new_entry now b], <[SQL.br_id b := new_of now b]> m).
Proof.
  intros Hmax Hc Hnone. cbn [SQL.insert_rows]. fold (new_of now b). unfold SQL.insert_row.
  rewrite Hc, Hnone. by destruct (Z.ltb_spec int4_max (r_max_attempts (new_of now b))) as [?%Z.lt_nge|].
Qed.

Lemma run_mret {A} (a : A) w : run (mret a) w = (a, w).
Proof. done. Qed.

Lemma notify_nofault env s et : (∀ n, e_fault env n = NoFault) → ∀ w,
  let '(nerr, w') := run (notifyEnqueue env s TxZero et) w in
  nerr = None ∧ d_msgs (w_db w') = d_msgs (w_db w).
Proof.
  intros Hnf w. unfold notifyEnqueue. destruct (notifierDisabled s); [done|].
  unfold Notify. rewrite run_bind. change (querier_of TxZero) with poolQuerier. cbn [exec].
  by rewrite run_exec_pool_nofault.
Qed.

(** In the partitioned schema a batch is not idempotent.  If the table
    already holds a message of the same type and idempotency key, created at
    any other instant, EnqueueBatch inserts a second one and reports no error;
    Enqueue, which looks the key up first, would have reported the duplicate. *)
Theorem partitioned_batch_admits_duplicates env `{!EnvOK env} s p w i r :
  partitioned s = true → (∀ n, e_fault env n = NoFault) →
  effective_attempts p ≤ int4_max →
  d_msgs (w_db w) !! i = Some r → same_key p r →
  (∀ j r', d_msgs (w_db w) !! j = Some r' → r_created_at r' ≠ e_dbnow env (2 + w_tick w)) →
  (∀ j, gen_id env (w_tick w) j → d_msgs (w_db w) !! j = None) →
  ep_IdempotencyKey p ≠ ""%string →
  let '((out, err), w') := run (EnqueueBatch env s TxZero [p]) w in
  ∃ j r', out = [Some (scanMessage j r')] ∧ err = None ∧ j ≠ i ∧
    d_msgs (w_db w') !! i = Some r ∧ d_msgs (w_db w') !! j = Some r' ∧ same_key p r'.
Proof.
  intros Hpart Hnf Hmax Hi Hs Hcr Hfresh Hkey.
  pose proof (newID_gen env w) as Hg. pose proof (Hfresh _ Hg) as Hnone.
  pose proof (gen_id_parses env _ _ Hg) as Hparse.
  set (id := match e_v7 env (w_tick w) with Some u => u | None => _ end) in *.
  unfold EnqueueBatch. rewrite run_bind. cbn [run time_Now atomically]. rewrite run_bind.
  change (run (batch_rows env (e_now env (w_tick w)) [p]) w)
    with ([single_row env p w id], tick (tick w)). cbv beta iota zeta. rewrite run_bind.
  change (querier_of TxZero) with poolQuerier. cbn [exec]. rewrite run_exec_pool_nofault by done.
  set (r' := new_of (e_dbnow env (2 + w_tick w)) (single_row env p w id)).
  assert (SQL.batchInsertSQL (partitioned s) [single_row env p w id]
    (sql_env env (w_tick (tick (tick w))) (w_tick (tick (tick w)))) (w_db (tick (tick w)))
    = inr ([(id, r')], set_msgs (<[id := r']> (d_msgs (w_db w))) (w_db w))) as ->.
  { unfold SQL.batchInsertSQL. rewrite Hpart. rewrite single_insert; [done|done| |done].
    by eapply partitioned_no_conflict. }
  cbv beta iota zeta.
  assert (inserted_map env [(id, r')] = {[id := scanMessage id r']}) as Hins.
  { unfold inserted_map. simpl. by rewrite Hparse. }
  rewrite run_bind. cbn [zip zip_with fmap list_fmap single_row SQL.br_id batch_output].
  rewrite Hins, lookup_singleton_eq. cbn [batch_output]. rewrite run_bind, !run_mret.
  cbv beta iota zeta.
  assert (id ≠ i) as Hne by congruence. assert (same_key p r') as Hs'.
  { split; [done|]. simpl. unfold nullif_empty. by rewrite bool_decide_eq_false_2. }
  assert (∀ w1, d_msgs (w_db w1) = <[id := r']> (d_msgs (w_db w)) →
    ∃ j r0, [Some (scanMessage id r')] = [Some (scanMessage j r0)] ∧ None = @None error ∧ j ≠ i ∧
      d_msgs (w_db w1) !! i = Some r ∧ d_msgs (w_db w1) !! j = Some r0 ∧ same_key p r0) as Hend.
  { intros w1 ->. exists id, r'. by rewrite lookup_insert_ne, lookup_insert_eq. }
  destruct (_ && _); [|rewrite run_mret; by apply Hend].
  rewrite run_bind. pose proof (notify_nofault env s (ep_EventType p) Hnf) as Hno.
  match goal with |- context [run (notifyEnqueue _ _ _ _) ?w0] => specialize (Hno w0) end.
  destruct (run (notifyEnqueue _ _ _ _) _) as [nerr w1]. destruct Hno as [-> Hm].
  cbv beta iota zeta. rewrite run_mret. by apply Hend.
Qed.

(** A batch of one and then the same batch again. *)
Definition demo_partitioned : Store := New [WithPartitioning].

Lemma partitioned_batch_admits_duplicates_witness :
  let w := (run (EnqueueBatch demo_env demo_partitioned TxZero [demo_params]) init_world).2 in
  let '((out, err), w') := run (EnqueueBatch demo_env demo_partitioned TxZero [demo_params]) w in
  ∃ j r', out = [Some (scanMessage j r')] ∧ err = None ∧ j ≠ demo_id 0 ∧
    is_Some (d_msgs (w_db w') !! demo_id 0) ∧ d_msgs (w_db w') !! j = Some r' ∧ same_key demo_params r'.
Proof.
  cbv zeta.
  pose proof (partitioned_batch_admits_duplicates demo_env demo_partitioned demo_params
    (run (EnqueueBatch demo_env demo_partitioned TxZero [demo_params]) init_world).2 (demo_id 0)
    (new_of (demo_clock 2) (single_row demo_env demo_params init_world (demo_id 0)))) as H.
  destruct (run _ (run _ init_world).2) as [[out err] w'].
  destruct H as (j & r' & H1 & H2 & H3 & H4 & H5 & H6).
  - reflexivity.
  - intros n. reflexivity.
  - vm_compute. discriminate.
  - vm_compute. reflexivity.
  - split; reflexivity.
  - intros j r' Hj.
    assert (d_msgs (w_db (run (EnqueueBatch demo_env demo_partitioned TxZero [demo_params]) init_world).2)
      = {[demo_id 0 := new_of (demo_clock 2) (single_row demo_env demo_params init_world (demo_id 0))]})
      as E by (vm_compute; reflexivity).
    rewrite E in Hj. apply lookup_singleton_Some in Hj as [_ <-]. vm_compute. discriminate.
  - intros j [H|[H _]]; [|discriminate]. injection H as <-. vm_compute. reflexivity.
  - discriminate.
  - exists j, r'. split; [exact H1|]. split; [exact H2|]. split; [exact H3|].
    split; [rewrite H4; eexists; reflexivity|]. split; [exact H5|exact H6].
Defined.
