(* ===== verification/PostgresAck.v ===== *)
(** * Acknowledgement: Succeed, Fail, ReleaseShutdown, BatchSucceed, Extend

    What each acknowledgement does to the row it names, that it touches no
    other, and that the batched success is one atomic step. *)

From S2P Require Import Prelude GoErrors GoFloat Message World Postgres Lifecycle PostgresLogic PostgresFacts Demo Fleet FleetSafety PostgresClaim.

(** ** Single acknowledgements *)

(** The effect of an acknowledgement that ran at [now] on the row of [mid]. *)
Definition acked_as (mid : UUID) (n : Z) (f : row → row) (m m' : gmap UUID row) : Prop :=
  ∀ i, m' !! i = (λ r, if SQL.held mid n i r then f r else r) <$> m !! i.

Lemma ack_acked mid n f db : acked_as mid n f (d_msgs db) (d_msgs (SQL.ack mid n f db)).
Proof. intros i. simpl. apply lookup_update_where. Qed.

(** The row transformation of an ending. *)
Definition ending_row (e : ending) (now : Time) : row → row :=
  match e with
  | EndSuccess => SQL.success_row now
  | EndRetry err at_ => SQL.retry_row now err at_
  | EndDead err => SQL.dead_row now err
  | EndRelease reason => SQL.release_row now reason
  end.

(** It writes the documented columns. *)
Lemma ending_row_ended e now r : ended e now r (ending_row e now r).
Proof. by destruct e. Qed.

Lemma acked_ends mid n e now m m' :
  acked_as mid n (ending_row e now) m m' → ends_attempt mid n e now m m'.
Proof.
  intros H. split_and!.
  - intros r Hr Hst Hn. eexists. split; [|apply ending_row_ended]. rewrite (H mid), Hr. simpl.
    assert (SQL.held mid n mid r = true) as -> by (by apply held_true). done.
  - intros r Hr Hn. rewrite (H mid), Hr. simpl.
    destruct (SQL.held mid n mid r) eqn:Hh; [|done]. apply held_true in Hh. tauto.
  - intros Hr. by rewrite (H mid), Hr.
  - intros i Hi. rewrite (H i). destruct (m !! i) as [r|]; [|done]. simpl.
    destruct (SQL.held mid n i r) eqn:Hh; [|done]. by apply held_true in Hh as [? _].
Qed.

(** How an acknowledgement ends its attempt. *)
Definition op_ending (o : op) : option ending :=
  match o with
  | OpSucceed _ _ _ => Some EndSuccess
  | OpFail p => Some (if fp_Dead p then EndDead (fp_Err p)
                      else EndRetry (fp_Err p) (fp_NextRetryAt p))
  | OpReleaseShutdown _ _ _ reason => Some (EndRelease reason)
  | _ => None
  end.

(** The documented transitions: to and from statuses of the history rows,
    oldest first, when the row was held. *)
Definition ack_transitions (o : op) : list (Status * Status) :=
  match o with
  | OpSucceed _ _ _ => [(StatusHandling, StatusSuccess)]
  | OpFail p => [(StatusHandling, StatusFailed);
                 (StatusFailed, if fp_Dead p then StatusDead else StatusRetrying)]
  | OpReleaseShutdown _ _ _ _ => [(StatusHandling, StatusRetrying)]
  | _ => []
  end.

Definition ack_result (env : Env) (s : Store) (o : op) : prog (option error) :=
  match o with
  | OpSucceed id n w => Succeed env s id n w
  | OpFail p => Fail_ env s p
  | OpReleaseShutdown id n w reason => ReleaseShutdown env s id n w reason
  | _ => mret None
  end.

Lemma run_exec_err env pfx {A} (st : stmt A) w w' :
  run (exec_err env pfx st) w = (None, w') →
  ∃ a db', st (sql_env env (w_tick w) (w_tick w)) (w_db w) = inr (a, db') ∧ w_db w' = db'.
Proof.
  unfold exec_err. rewrite run_bind. destruct (run (exec_pool env st) w) as [[e|a] w1] eqn:E; [done|].
  intros [= <-]. apply run_exec_pool_inr in E as (db' & ? & ->). eauto.
Qed.

Lemma matched_Some p id m r : SQL.matched p id m = Some r ↔ m !! id = Some r ∧ p id r = true.
Proof.
  unfold SQL.matched. destruct (m !! id) as [r0|]; [|by split; [|intros [? _]]].
  destruct (p id r0) eqn:E; split; try done.
  - by intros [= <-].
  - by intros [? _].
  - intros [[= <-] ?]. congruence.
Qed.


Definition demo_fail : op := OpFail (mkFailParams (demo_id 0) 1 "w-1" "boom" 0 true).


(** ** Batched success *)

Section Batch.
Context (env : Env).

(** The pipelined statements, when all succeed, compose. *)
Lemma batch_execs_msgs b queued (us : list (gmap UUID row → gmap UUID row)) execs n db db' m :
  Forall2 (λ (st : stmt unit) u, ∀ k db, ∃ db', st (sql_env env b k) db = inr (tt, db') ∧
    d_msgs db' = u (d_msgs db)) queued us →
  (length queued <= execs)%nat →
  batch_execs env b queued execs n db = ((None, db'), m) →
  d_msgs db' = foldl (λ t u, u t) (d_msgs db) us.
Proof.
  intros Hq. revert execs n db. induction Hq as [|st u queued us Hst Hq IH]; intros execs n db Hl Hb.
  - clear Hl. revert n Hb. induction execs as [|k IHk]; intros n; simpl; [by intros [= <- _]|].
    destruct (e_batch_exhausted env); [done|]. apply IHk.
  - destruct execs as [|k]; simpl in Hl; [lia|]. simpl in Hb. unfold run_stmt in Hb.
    destruct (Hst n db) as (db1 & E & Hdb1). rewrite E in Hb.
    destruct (e_fault env n); [|done..]. simpl. rewrite <- Hdb1. eapply (IH k (S n)); [lia|done].
Qed.

(** A pipelined batch applies all of its statements or none. *)
Lemma run_pool_batch queued execs w r w' :
  run (pool_batch env queued execs) w = (r, w') →
  (r ≠ None ∧ w_db w' = w_db w) ∨
  ∃ n m, batch_execs env (w_tick w) queued execs n (w_db w) = ((None, w_db w'), m).
Proof.
  unfold pool_batch, atomically, batch_action. simpl.
  destruct (e_fault env (w_tick w)); simpl; [|intros [= <- <-]; by left..].
  destruct (batch_execs _ _ _ _ _ _) as [[err db'] m] eqn:E; simpl.
  destruct err as [e|]; simpl; [intros [= <- <-]; by left|].
  destruct (e_fault env m); simpl; [|intros [= <- <-]; by left..].
  destruct (e_fault env (S m)); intros [= <- <-]; eauto.
Qed.

(** The (id, attempt) pairs a call acknowledges. *)
Definition acks (ps : list BatchSucceedParam) : list (UUID * Z) :=
  omap (λ p, (λ mid, (mid, bs_Attempt p)) <$> e_uuid_Parse env (bs_MessageID p)) ps.

Definition ack_one (now : Time) (a : UUID * Z) (m : gmap UUID row) : gmap UUID row :=
  update_where (SQL.held a.1 a.2) (SQL.success_row now) m.

(** Acknowledging a list of pairs acknowledges each held row once. *)
Lemma lookup_ack_all now l m i :
  foldl (λ t u, u t) m (ack_one now <$> l) !! i =
  (λ r, if bool_decide (r_status r = StatusHandling ∧ (i, r_attempt r) ∈ l)
        then SQL.success_row now r else r) <$> m !! i.
Proof.
  revert m. induction l as [|[mid n] l IH]; intros m; simpl.
  - destruct (m !! i); simpl; [|done]. rewrite bool_decide_eq_false_2; [done|].
    intros [_ []%elem_of_nil].
  - rewrite IH. unfold ack_one. rewrite lookup_update_where. simpl.
    destruct (m !! i) as [r|]; simpl; [|done]. f_equal.
    destruct (SQL.held mid n i r) eqn:Hh.
    + apply held_true in Hh as (-> & Hst & <-). rewrite bool_decide_eq_false_2 by (by intros [? _]).
      by rewrite bool_decide_eq_true_2 by (split; [done|left]).
    + assert (¬ (i = mid ∧ r_status r = StatusHandling ∧ r_attempt r = n)) as Hn
        by (by rewrite <- held_true, Hh).
      rewrite (bool_decide_ext _ (r_status r = StatusHandling ∧ (i, r_attempt r) ∈ (mid, n) :: l));
        [done|].
      rewrite elem_of_cons. split; [by intros [? ?]; auto|].
      intros [Hst [[= -> Ha]|?]]; [|by split]. by destruct Hn.
Qed.
End Batch.

(** C21: BatchSucceed is all or nothing.  Whatever fails (begin, any statement,
    close, commit, or a commit whose outcome is reported as an error), the call
    either reports an error and leaves the database exactly as it was, or has
    marked SUCCESS every row that was HANDLING under one of the acknowledged
    (id, attempt) pairs and left every other row alone, as the same
    acknowledgements one by one at the transaction's time would.  It reports
    no error only in the second case. *)
Theorem BatchSucceed_all_or_nothing env s ps w :
  let '(err, w') := run (BatchSucceed env s ps) w in
  (err ≠ None ∧ w_db w' = w_db w) ∨
  ∀ i, d_msgs (w_db w') !! i =
    (λ r, if bool_decide (r_status r = StatusHandling ∧ (i, r_attempt r) ∈ acks env ps)
          then SQL.success_row (e_dbnow env (w_tick w)) r else r) <$> d_msgs (w_db w) !! i.
Proof.
  destruct (run (BatchSucceed env s ps) w) as [err w'] eqn:E. revert E.
  unfold BatchSucceed. destruct ps as [|p0 ps0].
  { intros [= <- <-]. right. intros i. destruct (d_msgs (w_db w) !! i); simpl; [|done].
    rewrite bool_decide_eq_false_2; [done|]. intros [_ []%elem_of_nil]. }
  remember (p0 :: ps0) as ps eqn:Eps. clear Eps p0 ps0.
  rewrite run_bind. set (queued := omap _ ps).
  destruct (run (pool_batch env queued (length ps)) w) as [r w1] eqn:Er. intros [= <- <-].
  apply run_pool_batch in Er as [[Hr Hdb]|(n & m & Hb)].
  { left. split; [|done]. by destruct r as [[[] ?]|]. }
  right. intros i. rewrite <- lookup_ack_all. f_equal.
  eapply batch_execs_msgs; [| |exact Hb].
  - unfold queued, acks. clear. induction ps as [|p ps IH]; simpl; [constructor|].
    destruct (e_uuid_Parse env (bs_MessageID p)); simpl; [|done]. constructor; [|done].
    intros k db. destruct (history_on s); eexists; split; reflexivity.
  - apply omap_length_le.
Qed.

(** ** Releasing on shutdown *)

Lemma run_ReleaseShutdown env s id mid n wk reason w w' :
  e_uuid_Parse env id = Some mid → run (ReleaseShutdown env s id n wk reason) w = (None, w') →
  ends_attempt mid n (EndRelease reason) (e_dbnow env (w_tick w)) (d_msgs (w_db w)) (d_msgs (w_db w')).
Proof.
  intros Hid Hrun. unfold ReleaseShutdown in Hrun. rewrite Hid in Hrun.
  destruct (history_on s); apply run_exec_err in Hrun as (a & db' & [= _ <-] & ->);
    apply acked_ends, ack_acked.
Qed.

Lemma Claim_leased env `{!EnvOK env} s p w out w' m :
  run (Claim env s p) w = ((out, None), w') → m ∈ out →
  ∃ now r r', d_msgs (w_db w) !! im_ID m = Some r ∧ d_msgs (w_db w') !! im_ID m = Some r' ∧
    leased_as now (cp_WorkerID p) (lease_seconds (cp_Lease p)) r r' ∧
    im_Attempt m = r_attempt r'.
Proof.
  intros H Hm. apply (Claim_cases env s p) in H; [|by left].
  assert (∃ b, claimed_in env p w w' b out) as [b Hc] by (destruct H as [[_ ?]|?]; eauto).
  unfold claimed_in in Hc. destruct (claim_pass env w b) as [n sh].
  destruct (cs_leased _ _ _ _ _ _ _ _ _ _ Hc m Hm) as (r & ? & _ & r' & ? & ? & Hmsg).
  do 3 eexists. split_and!; [done..|]. apply Hmsg.
Qed.

(** A graceful shutdown does not burn an attempt.  A message claimed and
    then released by its worker (with the id and attempt it was handed) is
    RETRYING, unowned, due at once, and has the attempt count it had before
    the claim. *)
Theorem shutdown_refunds_attempt env `{!EnvOK env} s p w out w1 m wk reason w2 r :
  run (Claim env s p) w = ((out, None), w1) → m ∈ out →
  d_msgs (w_db w) !! im_ID m = Some r → 0 ≤ r_attempt r →
  e_uuid_Parse env (im_ID m) = Some (im_ID m) →
  run (ReleaseShutdown env s (im_ID m) (im_Attempt m) wk reason) w1 = (None, w2) →
  ∃ r', d_msgs (w_db w2) !! im_ID m = Some r' ∧ r_status r' = StatusRetrying ∧
    r_attempt r' = r_attempt r ∧ r_claimed_by r' = None ∧
    r_process_at r' = e_dbnow env (w_tick w1) ∧ r_last_error r' = Some reason.
Proof.
  intros Hc Hm Hr Hpos Hid Hrel.
  destruct (Claim_leased env s p w out w1 m Hc Hm) as (now & r0 & r1 & Hr0 & Hr1 & Hl & Hat).
  rewrite Hr in Hr0. injection Hr0 as <-. destruct Hl as (_ & Hst & Hn & _).
  apply (run_ReleaseShutdown env s _ _ _ _ _ _ _ Hid) in Hrel as [Hrel _].
  destruct (Hrel r1 Hr1 Hst) as (r' & Hr' & _ & Hby & _ & _ & ? & Hk & ? & ? & _); [done|].
  exists r'. split_and!; try done. lia.
Qed.

Lemma shutdown_refunds_attempt_witness :
  ∃ m w1 w2, run (Claim demo_env demo_store demo_claim) demo_enqueued = (([m], None), w1) ∧
    run (ReleaseShutdown demo_env demo_store (im_ID m) (im_Attempt m) "w-1" "shutdown") w1
      = (None, w2) ∧
    ∃ r', d_msgs (w_db w2) !! demo_id 0 = Some r' ∧ r_status r' = StatusRetrying ∧
      r_attempt r' = 0.
Proof.
  do 3 eexists. split; [vm_compute; reflexivity|]. split; [vm_compute; reflexivity|].
  edestruct shutdown_refunds_attempt with (env := demo_env) (s := demo_store) (p := demo_claim)
    (w := demo_enqueued) (wk := "w-1"%string) (reason := "shutdown"%string)
    as (r' & H1 & H2 & H3 & _).
  - exact demo_ok.
  - vm_compute. reflexivity.
  - left.
  - vm_compute. reflexivity.
  - vm_compute. discriminate.
  - reflexivity.
  - vm_compute. reflexivity.
  - exists r'. split; [exact H1|]. split; [exact H2|exact H3].
Defined.
