(* ===== verification/PostgresAdmin.v ===== *)
(** * Maintenance and inspection: ReclaimExpired, PurgeTerminal, Requeue,
      ListDead, History, Stats, and the lease length *)

From S2P Require Import Prelude GoErrors GoFloat Message World Postgres Lifecycle PostgresLogic PostgresFacts Demo Fleet FleetSafety FleetInvariants PostgresClaim PostgresEnqueue PostgresAck.

Lemma run_exec_count env pfx (st : stmt Z) w n w' :
  run (exec_count env pfx st) w = ((n, None), w') →
  ∃ db', st (sql_env env (w_tick w) (w_tick w)) (w_db w) = inr (n, db') ∧ w_db w' = db'.
Proof.
  unfold exec_count. rewrite run_bind. destruct (run (exec_pool env st) w) as [[e|a] w1] eqn:E; [done|].
  intros [= <- <-]. apply run_exec_pool_inr in E as (db' & ? & ->). eauto.
Qed.

(** ** Reclaim *)

Definition reclaim_limit (limit : Z) : Z := if limit <=? 0 then 500 else limit.

(** ReclaimExpired recovers crashed workers' messages, and only those.  When
    it reports [n], exactly [n] rows changed, at most the limit (500 when not
    positive); each was HANDLING with a lease that had ended by the database
    clock and is now RETRYING, unowned, due at once, with its attempt count
    unchanged (the attempt stays spent); and if [n] is below the limit, every
    unlocked expired lease has been reclaimed. *)
Theorem ReclaimExpired_spec env `{!EnvOK env} limit w n w' :
  run (ReclaimExpired env limit) w = ((n, None), w') →
  let now := e_dbnow env (w_tick w) in
  let expired := SQL.lease_expired now (e_locked env (w_tick w)) in
  ∃ ids : list UUID, NoDup ids ∧ n = Z.of_nat (length ids) ∧ n ≤ reclaim_limit limit ∧
    (∀ i, i ∈ ids → ∃ r, d_msgs (w_db w) !! i = Some r ∧ expired i r = true ∧
       d_msgs (w_db w') !! i = Some (SQL.reclaim_row now r)) ∧
    (∀ i, i ∉ ids → d_msgs (w_db w') !! i = d_msgs (w_db w) !! i) ∧
    (n < reclaim_limit limit → ∀ i r, d_msgs (w_db w) !! i = Some r → expired i r = true → i ∈ ids).
Proof.
  intros Hrun now expired.
  assert (0 ≤ reclaim_limit limit) as Hpos
    by (unfold reclaim_limit; destruct (Z.leb_spec limit 0); lia).
  apply run_exec_count in Hrun as (db' & Hst & ->). fold (reclaim_limit limit) in Hst.
  unfold SQL.reclaimSQL in Hst. injection Hst as Hn <-.
  set (se := sql_env env (w_tick w) (w_tick w)) in *.
  set (sel := select_where expired (d_msgs (w_db w))).
  assert (s_scan se sel.*1 ≡ₚ sel.*1) as Hscan by apply scan_perm.
  set (ids := SQL.reclaim_select se (reclaim_limit limit) (d_msgs (w_db w))) in *.
  assert (∀ i, i ∈ ids → ∃ r, d_msgs (w_db w) !! i = Some r ∧ expired i r = true) as Hids.
  { intros i Hi%elem_of_take_1. change (i ∈ s_scan se sel.*1) in Hi. rewrite Hscan in Hi.
    apply list_elem_of_fmap in Hi as ([j r] & -> & Hin). exists r. by apply elem_of_select_where. }
  exists ids. split_and!.
  - eapply (sublist_NoDup _ (s_scan se sel.*1)); [|apply sublist_take].
    rewrite Hscan. apply NoDup_fst_select_where.
  - done.
  - rewrite <- Hn. by apply take_Z_length.
  - intros i Hi. destruct (Hids i Hi) as (r & Hr & He). exists r. split_and!; try done.
    simpl. rewrite lookup_update_where, Hr. simpl. by rewrite bool_decide_eq_true_2.
  - intros i Hi. simpl. rewrite lookup_update_where. destruct (d_msgs (w_db w) !! i); simpl; [|done].
    by rewrite bool_decide_eq_false_2.
  - intros Hlt i r Hr He. change ids with (take (Z.to_nat (reclaim_limit limit)) (s_scan se sel.*1)) in *.
    rewrite length_take in Hn. rewrite take_ge by lia. rewrite Hscan.
    apply list_elem_of_fmap. exists (i, r). split; [done|]. by apply elem_of_select_where.
Qed.

(** The clock of the demo environment, moved on by a minute. *)
Definition demo_later : World := mkWorld (w_db demo_claimed) None (w_tick demo_claimed + 60).

Lemma ReclaimExpired_spec_witness :
  ∃ w', run (ReclaimExpired demo_env 0) demo_later = ((1, None), w') ∧
    ∃ ids, 1 = Z.of_nat (length ids) ∧
      ∀ i, i ∉ ids → d_msgs (w_db w') !! i = d_msgs (w_db demo_later) !! i.
Proof.
  eexists. split; [vm_compute; reflexivity|].
  edestruct (ReclaimExpired_spec demo_env 0 demo_later 1) as (ids & _ & H1 & _ & _ & H2 & _).
  - vm_compute. reflexivity.
  - exists ids. split; [exact H1|exact H2].
Defined.

(** ** Purge *)

Definition purge_limit (limit : Z) : Z := if limit <=? 0 then 5000 else limit.

(** The rows a purge removes: a prefix, by completion time, of the purgeable. *)
Lemma purge_select_spec se before limit m :
  (∀ l, s_scan se l ≡ₚ l) →
  let sorted := merge_sort (le_on (λ ir : UUID * row, SQL.completed ir.2))
                  (SQL.scan_rows se (select_where (SQL.purgeable before) m)) in
  SQL.purge_select se before limit m = (take (Z.to_nat limit) sorted).*1 ∧
  NoDup sorted.*1 ∧ (∀ i r, (i, r) ∈ sorted ↔ m !! i = Some r ∧ SQL.purgeable before i r = true) ∧
  StronglySorted (le_on (λ ir : UUID * row, SQL.completed ir.2)) sorted.
Proof.
  intros Hscan sorted. split_and!; [done| | |].
  - unfold sorted. rewrite merge_sort_Permutation, scan_rows_perm; [|done|];
      apply NoDup_fst_select_where.
  - intros i r. unfold sorted. rewrite merge_sort_Permutation, scan_rows_perm;
      [apply elem_of_select_where|done|apply NoDup_fst_select_where].
  - apply StronglySorted_merge_sort; apply _.
Qed.

(** What a purge that reports [n] did. *)
Definition purged (before : Time) (limit : Z) (db db' : DB) (n : Z) : Prop :=
  ∃ ids : list UUID, NoDup ids ∧ n = Z.of_nat (length ids) ∧ n ≤ purge_limit limit ∧
    (∀ i, i ∈ ids → ∃ r, d_msgs db !! i = Some r ∧ Terminal (r_status r) = true ∧
       (∃ t, r_completed_at r = Some t ∧ t < before) ∧ d_msgs db' !! i = None) ∧
    (∀ i, i ∉ ids → d_msgs db' !! i = d_msgs db !! i) ∧
    (∀ j r', j ∉ ids → d_msgs db !! j = Some r' → SQL.purgeable before j r' = true →
       n = purge_limit limit ∧
       ∀ i r, i ∈ ids → d_msgs db !! i = Some r → SQL.completed r ≤ SQL.completed r').

Lemma run_PurgeTerminal env `{!EnvOK env} before limit w n w' :
  run (PurgeTerminal env before limit) w = ((n, None), w') →
  purged before limit (w_db w) (w_db w') n ∧ d_hist (w_db w') = d_hist (w_db w).
Proof.
  intros Hrun.
  assert (0 ≤ purge_limit limit) as Hpos
    by (unfold purge_limit; destruct (Z.leb_spec limit 0); lia).
  apply run_exec_count in Hrun as (db' & Hst & ->). fold (purge_limit limit) in Hst.
  unfold SQL.purgeSQL in Hst. injection Hst as Hn <-.
  set (se := sql_env env (w_tick w) (w_tick w)) in *.
  destruct (purge_select_spec se before (purge_limit limit) (d_msgs (w_db w))) as (Hsel & Hnd & Hin & Hsort).
  { intros l. apply scan_perm. }
  set (sorted := merge_sort _ _) in *. set (k := Z.to_nat (purge_limit limit)) in *.
  split; [|done]. exists (SQL.purge_select se before (purge_limit limit) (d_msgs (w_db w))).
  rewrite Hsel in *. split_and!.
  - eapply sublist_NoDup; [exact Hnd|]. apply fmap_sublist, sublist_take.
  - done.
  - rewrite <- Hn, length_fmap. by apply take_Z_length.
  - intros i Hi. simpl. rewrite lookup_delete_where.
    apply list_elem_of_fmap in Hi as ([j r] & -> & Hj). simpl in *.
    pose proof Hj as Hj'. apply elem_of_take_1, Hin in Hj' as [Hr Hp]. exists r.
    unfold SQL.purgeable, lt_opt in Hp. bools. destruct (r_completed_at r) as [t|] eqn:Hc; [|done].
    split_and!; try done; [exists t; split; [done|lia]|]. rewrite Hr. simpl.
    rewrite bool_decide_eq_true_2; [done|]. apply list_elem_of_fmap. by exists (j, r).
  - intros i Hi. simpl. rewrite lookup_delete_where. destruct (d_msgs (w_db w) !! i); simpl; [|done].
    by rewrite bool_decide_eq_false_2.
  - intros j r' Hj Hr' Hp. assert ((j, r') ∈ drop k sorted) as Hd.
    { assert ((j, r') ∈ sorted) as Hs by (by apply Hin).
      rewrite <- (take_drop k sorted) in Hs. apply elem_of_app in Hs as [Hs|]; [|done].
      destruct Hj. apply list_elem_of_fmap. by exists (j, r'). }
    split.
    + rewrite <- Hn, length_fmap, length_take. apply list_elem_of_lookup in Hd as [x Hx].
      apply lookup_lt_Some in Hx. rewrite length_drop in Hx. unfold k in *. lia.
    + intros i r Hi Hr. apply list_elem_of_fmap in Hi as ([i0 r0] & -> & Hi). simpl in *.
      pose proof Hi as Hi'. apply elem_of_take_1, Hin in Hi' as [Hr0 _]. simplify_eq.
      by apply (take_sorted_before _ k sorted (i0, r) (j, r') Hsort).
Qed.

(** PurgeTerminal deletes only what it may, oldest first.  When it reports
    [n], exactly [n] rows are gone, at most the limit (5000 when not positive);
    each was SUCCESS or DEAD and completed before the cutoff, no later than any
    purgeable row that was kept; all other rows are untouched; and if [n] is
    below the limit nothing purgeable remains. *)
Theorem PurgeTerminal_spec env `{!EnvOK env} before limit w n w' :
  run (PurgeTerminal env before limit) w = ((n, None), w') →
  purged before limit (w_db w) (w_db w') n.
Proof. intros H. by apply run_PurgeTerminal in H as [? _]. Qed.

Lemma PurgeTerminal_spec_witness :
  ∃ w', run (PurgeTerminal demo_env (2000 * Second) 0) demo_done = ((1, None), w') ∧
    ∃ ids, 1 = Z.of_nat (length ids) ∧
      ∀ i, i ∉ ids → d_msgs (w_db w') !! i = d_msgs (w_db demo_done) !! i.
Proof.
  eexists. split; [vm_compute; reflexivity|].
  edestruct (PurgeTerminal_spec demo_env (2000 * Second) 0 demo_done 1) as (ids & _ & H1 & _ & _ & H2 & _).
  - vm_compute. reflexivity.
  - exists ids. split; [exact H1|exact H2].
Defined.

(** ** Requeue *)

(** A condition that names one id selects at most its row. *)
Definition names (id : UUID) (p : UUID → row → bool) : Prop := ∀ i r, p i r = true → i = id.

Lemma select_named id p m : names id p →
  select_where p m = match SQL.matched p id m with Some r => [(id, r)] | None => [] end.
Proof.
  intros Hp. destruct (SQL.matched p id m) as [r|] eqn:E.
  - apply Permutation_singleton_r, NoDup_Permutation.
    + apply (NoDup_fmap_1 fst), NoDup_fst_select_where.
    + apply NoDup_singleton.
    + intros [i x]. rewrite elem_of_select_where, list_elem_of_singleton.
      apply matched_Some in E as [Hr Hpr]. split; [|by intros [= -> ->]].
      intros [Hi Hpi]. apply Hp in Hpi as ->. congruence.
  - destruct (select_where p m) as [|[i x] l] eqn:El; [done|].
    assert ((i, x) ∈ select_where p m) as Hin by (rewrite El; left).
    apply elem_of_select_where in Hin as [Hi Hpi]. pose proof Hpi as ->%Hp.
    pose proof (proj2 (matched_Some p id m x) (conj Hi Hpi)). congruence.
Qed.

Lemma update_named id p f m : names id p →
  update_where p f m = match SQL.matched p id m with Some r => <[id := f r]> m | None => m end.
Proof.
  intros Hp. apply map_eq. intros i. rewrite lookup_update_where.
  destruct (SQL.matched p id m) as [r|] eqn:E.
  - apply matched_Some in E as [Hr Hpr]. destruct (decide (i = id)) as [->|Hne].
    + rewrite lookup_insert_eq, Hr. simpl. by rewrite Hpr.
    + rewrite lookup_insert_ne by done. destruct (m !! i) as [x|]; simpl; [|done].
      destruct (p i x) eqn:Epx; [|done]. by apply Hp in Epx.
  - destruct (m !! i) as [x|] eqn:Hi; simpl; [|done]. destruct (p i x) eqn:Epx; [|done].
    pose proof Epx as ->%Hp. pose proof (proj2 (matched_Some p id m x) (conj Hi Epx)). congruence.
Qed.

Lemma is_dead_names id : names id (SQL.is_dead id).
Proof. intros i r H. unfold SQL.is_dead in H. by bools. Qed.

(** Requeue, on every branch and absent database errors.  An id that does
    not parse, or names no DEAD message, is an error and changes nothing; a DEAD
    message becomes CREATED with attempt 0, due at the given time (now when
    zero), without error or completion time, no other row changes, and one
    DEAD to CREATED row with attempt 0 is appended to its history. *)
Theorem Requeue_spec env id at_ w :
  (∀ n, e_fault env n = NoFault) →
  let '(err, w') := run (Requeue env id at_) w in
  let now := e_dbnow env (w_tick w) in
  let due := if IsZero at_ then e_now env (w_tick w) else at_ in
  match e_uuid_Parse env id with
  | None => err = Some (err_bad_id env "tickr/postgres: requeue" id) ∧ w_db w' = w_db w
  | Some mid =>
    match SQL.matched (SQL.is_dead mid) mid (d_msgs (w_db w)) with
    | None => err = Some (errorString "tickr/postgres: requeue: message not found or not DEAD") ∧
              d_msgs (w_db w') = d_msgs (w_db w) ∧ d_hist (w_db w') = d_hist (w_db w)
    | Some r => err = None ∧
        d_msgs (w_db w') = <[mid := SQL.requeue_row now due r]> (d_msgs (w_db w)) ∧
        ∃ h, d_hist (w_db w') = d_hist (w_db w) ++ [h] ∧ h_message_id h = mid ∧
          h_from_status h = Some StatusDead ∧ h_to_status h = StatusCreated ∧ h_attempt h = 0
    end
  end.
Proof.
  intros Hnf. unfold Requeue. destruct (e_uuid_Parse env id) as [mid|] eqn:Hid; [|done].
  rewrite run_bind. cbn [run time_Now atomically]. rewrite run_bind, run_exec_pool_nofault by done.
  unfold SQL.requeueSQL. rewrite (select_named mid), (update_named mid) by apply is_dead_names.
  destruct (SQL.matched _ _ _) as [r|] eqn:Hm; simpl length; cbv beta iota.
  - change (Z.of_nat 1 =? 0) with false. cbv iota. unfold appendHistory. rewrite Hid.
    unfold exec_err. rewrite run_bind, run_exec_pool_nofault by done. simpl.
    split_and!; [done|done|]. eexists. split_and!; [reflexivity|done..].
  - simpl. by destruct w as [[]].
Qed.

Definition demo_dead : World := (run (ack_result demo_env demo_store demo_fail) demo_claimed).2.

Lemma Requeue_spec_witness :
  ∃ r, SQL.matched (SQL.is_dead (demo_id 0)) (demo_id 0) (d_msgs (w_db demo_dead)) = Some r ∧
    (run (Requeue demo_env (demo_id 0) 0) demo_dead).1 = None.
Proof.
  assert (∃ r, SQL.matched (SQL.is_dead (demo_id 0)) (demo_id 0) (d_msgs (w_db demo_dead)) = Some r)
    as [r E] by (eexists; vm_compute; reflexivity).
  exists r. split; [exact E|].
  pose proof (Requeue_spec demo_env (demo_id 0) 0 demo_dead (λ _, eq_refl)) as H.
  destruct (run (Requeue demo_env (demo_id 0) 0) demo_dead) as [err w'].
  change (e_uuid_Parse demo_env (demo_id 0)) with (Some (demo_id 0)) in H. cbv beta iota zeta in H.
  rewrite E in H. destruct H as [H _]. exact H.
Defined.

(** ** Stats *)

Definition count_rows (p : row → bool) (m : gmap UUID row) : Z :=
  Z.of_nat (length (select_where (λ _ r, p r) m)).

Lemma count_rows_empty p : count_rows p ∅ = 0.
Proof. unfold count_rows, select_where. by rewrite map_to_list_empty. Qed.

Lemma count_rows_insert p m i r : m !! i = None →
  count_rows p (<[i := r]> m) = count_rows p m + (if p r then 1 else 0).
Proof.
  intros Hi. unfold count_rows, select_where.
  rewrite (filter_Permutation _ _ _ (map_to_list_insert m i r Hi)), filter_cons. simpl.
  case_decide as H; [rewrite H|apply not_true_is_false in H; rewrite H]; simpl; lia.
Qed.

(** What GROUP BY counts: adding one row adds one to its group. *)
Abbreviation groups := (gmap (string * Status) Z) (only parsing).
Definition bump (k : string * Status) (c : groups) : groups :=
  partial_alter (λ o, Some (default 0 o + 1)) k c.

Lemma bump_perm k c :
  map_to_list (bump k c) ≡ₚ (k, default 0 (c !! k) + 1) :: map_to_list (delete k c).
Proof.
  assert (bump k c = <[k := default 0 (c !! k) + 1]> (delete k c)) as ->.
  { apply map_eq. intros j. unfold bump. destruct (decide (j = k)) as [->|Hne].
    - by rewrite lookup_partial_alter_eq, lookup_insert_eq.
    - by rewrite lookup_partial_alter_ne, lookup_insert_ne, lookup_delete_ne. }
  apply map_to_list_insert, lookup_delete_eq.
Qed.

Lemma sum_delete (f : string * Status * Z → Z) k c : (∀ k, f (k, 0) = 0) →
  zsum f (map_to_list c) = f (k, default 0 (c !! k)) + zsum f (map_to_list (delete k c)).
Proof.
  intros Hf. destruct (c !! k) as [n|] eqn:E; simpl.
  - by rewrite (zsum_map_delete f k c), E.
  - by rewrite Hf, delete_id.
Qed.

(** The size of each group, and the total of the groups whose status is in [P]. *)
Lemma stats_groups m :
  let c : groups := map_fold (λ _ r acc, bump (r_event_type r, r_status r) acc) ∅ m in
  (∀ et st, default 0 (c !! (et, st)) =
     count_rows (λ r, bool_decide (r_event_type r = et) && bool_decide (r_status r = st)) m) ∧
  (∀ P : Status → bool, zsum (λ g : string * Status * Z, if P g.1.2 then g.2 else 0)
           (map_to_list c) = count_rows (λ r, P (r_status r)) m).
Proof.
  simpl. apply (map_fold_weak_ind (λ (c : groups) m,
    (∀ et st, default 0 (c !! (et, st)) =
       count_rows (λ r, bool_decide (r_event_type r = et) && bool_decide (r_status r = st)) m) ∧
    (∀ P : Status → bool, zsum (λ g : string * Status * Z, if P g.1.2 then g.2 else 0)
             (map_to_list c) = count_rows (λ r, P (r_status r)) m))).
  - split; intros; rewrite count_rows_empty; [by rewrite lookup_empty|by rewrite map_to_list_empty].
  - clear m. intros i r m c Hi [IH1 IH2]. split.
    + intros et st. rewrite count_rows_insert by done. rewrite <- IH1. unfold bump.
      destruct (decide ((r_event_type r, r_status r) = (et, st))) as [[= <- <-]|Hne].
      * rewrite lookup_partial_alter_eq. by rewrite !bool_decide_eq_true_2.
      * rewrite lookup_partial_alter_ne by done.
        replace (bool_decide (r_event_type r = et) && bool_decide (r_status r = st)) with false;
          [simpl; lia|]. symmetry. apply andb_false_iff.
        destruct (decide (r_event_type r = et)) as [<-|]; [right|left];
          apply bool_decide_eq_false_2; congruence.
    + intros P. rewrite count_rows_insert by done. rewrite <- IH2.
      rewrite (zsum_perm _ _ _ (bump_perm _ c)).
      rewrite (sum_delete _ (r_event_type r, r_status r) c) by (intros; by destruct (P _)).
      simpl. destruct (P (r_status r)); lia.
Qed.

(** The loop of Stats over groups with distinct keys. *)
Lemma stats_fold acc l : NoDup l.*1 →
  let res := foldl stats_add acc l in
  (∀ st, default 0 (ByStatus res !! st) = default 0 (ByStatus acc !! st) +
     zsum (λ g : string * Status * Z, if bool_decide (g.1.2 = st) then g.2 else 0) l) ∧
  (∀ et st n, (et, st, n) ∈ l → (ByEventType res !! et ≫= λ mm, mm !! st) = Some n) ∧
  (∀ et st, (et, st) ∉ l.*1 →
     (ByEventType res !! et ≫= λ mm, mm !! st) = (ByEventType acc !! et ≫= λ mm, mm !! st)).
Proof.
  revert acc. induction l as [|[[et0 st0] n0] l IH]; intros acc Hnd; simpl.
  { split_and!; [intros; lia|by intros ??? ?%elem_of_nil|done]. }
  apply NoDup_cons in Hnd as [Hnin Hnd]. destruct (IH (stats_add acc (et0, st0, n0)) Hnd) as (H1 & H2 & H3).
  assert (∀ et st, (ByEventType (stats_add acc (et0, st0, n0)) !! et ≫= λ mm, mm !! st) =
    if bool_decide ((et, st) = (et0, st0)) then Some n0
    else (ByEventType acc !! et ≫= λ mm, mm !! st)) as Hadd.
  { intros et st. simpl. destruct (decide (et = et0)) as [->|Hne].
    - rewrite lookup_insert_eq. simpl. destruct (decide (st = st0)) as [->|Hst].
      + by rewrite lookup_insert_eq, bool_decide_eq_true_2.
      + rewrite lookup_insert_ne, bool_decide_eq_false_2 by congruence.
        by destruct (ByEventType acc !! et0).
    - rewrite lookup_insert_ne, bool_decide_eq_false_2 by congruence. done. }
  split_and!.
  - intros st. rewrite H1. simpl. destruct (decide (st0 = st)) as [->|Hne].
    + rewrite lookup_insert_eq, bool_decide_eq_true_2 by done. simpl. lia.
    + rewrite lookup_insert_ne, bool_decide_eq_false_2 by done. lia.
  - intros et st n [[= -> -> ->]|Hin]%elem_of_cons; [|by apply H2].
    rewrite H3 by done. by rewrite Hadd, bool_decide_eq_true_2.
  - intros et st [Hne Hni]%not_elem_of_cons. rewrite H3 by done.
    by rewrite Hadd, bool_decide_eq_false_2.
Qed.

(** Stats counts the table.  A Stats call without error reports, for every
    status, the number of rows in it, and for every event type and status the
    number of rows with both; the two agree because both come from one
    statement. *)
Theorem Stats_counts env w st_ w' :
  run (GetStats env) w = ((st_, None), w') →
  (∀ st, default 0 (ByStatus st_ !! st) =
     count_rows (λ r, bool_decide (r_status r = st)) (d_msgs (w_db w))) ∧
  (∀ et st, default 0 (ByEventType st_ !! et ≫= λ mm, mm !! st) =
     count_rows (λ r, bool_decide (r_event_type r = et) && bool_decide (r_status r = st))
       (d_msgs (w_db w))).
Proof.
  unfold GetStats. rewrite run_bind.
  destruct (run (exec_pool env SQL.statsSQL) w) as [[e|gs] w1] eqn:E; [done|].
  rewrite run_bind. cbn [run time_Now atomically]. intros [= <- _].
  apply run_exec_pool_inr in E as (db' & [= <- _] & _).
  destruct (stats_groups (d_msgs (w_db w))) as [Hg Hs].
  set (c := map_fold _ _ _) in *.
  destruct (stats_fold (mkStats ∅ ∅ (e_now env (w_tick w1))) (map_to_list c) (NoDup_fst_map_to_list c))
    as (H1 & H2 & H3).
  split.
  - intros st. rewrite H1. specialize (Hs (λ s, bool_decide (s = st))). simpl in *. rewrite <- Hs.
    by rewrite lookup_empty.
  - intros et st. rewrite <- Hg. destruct (c !! (et, st)) as [n|] eqn:E.
    + by rewrite (H2 et st n) by (by apply elem_of_map_to_list).
    + rewrite H3; [by simpl; rewrite lookup_empty|].
      intros ([k n] & Hk & Hin)%list_elem_of_fmap. apply elem_of_map_to_list in Hin.
      simpl in Hk. subst k. congruence.
Qed.

Lemma Stats_counts_witness :
  ∃ st_ w', run (GetStats demo_env) demo_queue = ((st_, None), w') ∧
    default 0 (ByStatus st_ !! StatusCreated) = 3 ∧
    default 0 (ByStatus st_ !! StatusCreated) =
      count_rows (λ r, bool_decide (r_status r = StatusCreated)) (d_msgs (w_db demo_queue)).
Proof.
  do 2 eexists. split; [vm_compute; reflexivity|]. split; [vm_compute; reflexivity|].
  eapply (Stats_counts demo_env demo_queue). vm_compute. reflexivity.
Defined.

(** ** History *)

Definition seq_lt (a b : Transition) : Prop := tr_Seq a < tr_Seq b.

Lemma sorted_distinct h l :
  hist_unique h → (∀ x, x ∈ l → x ∈ h) → NoDup l →
  (∀ x y, x ∈ l → y ∈ l → h_message_id x = h_message_id y) →
  StronglySorted (le_on h_seq) l → StronglySorted seq_lt (scanTransition <$> l).
Proof.
  intros Hu Hin Hnd Hid Hs. induction Hs as [|x l Hs IH Hx]; simpl; [constructor|].
  apply NoDup_cons in Hnd as [Hnx Hnd]. constructor.
  - apply IH; [|done|]; intros; [apply Hin|apply Hid]; by right.
  - apply Forall_fmap, Forall_forall. intros y Hy. rewrite Forall_forall in Hx.
    specialize (Hx y Hy). unfold le_on, seq_lt in *. simpl.
    destruct (decide (h_seq x = h_seq y)) as [E|]; [|lia]. destruct Hnx.
    rewrite (hist_unique_eq h x y) by (done || (apply Hin; (by left) || by right) ||
      (apply Hid; [by left|by right])). done.
Qed.

(** History reads a message's transitions back in the order they were
    written.  In any reachable world, History without error returns exactly the
    history rows of the message, in strictly increasing sequence order. *)
Theorem History_in_order env s f id mid out w' :
  reachable env s f → e_uuid_Parse env id = Some mid →
  run (History env id) (f_world f) = ((out, None), w') →
  StronglySorted seq_lt out ∧
  ∀ t, t ∈ out ↔ ∃ h, h ∈ d_hist (w_db (f_world f)) ∧ h_message_id h = mid ∧ t = scanTransition h.
Proof.
  intros Hr Hid. unfold History. rewrite Hid, run_bind.
  destruct (run (exec_pool env (SQL.historySQL mid)) (f_world f)) as [[e|hs] w1] eqn:E; [done|].
  intros [= <- _]. apply run_exec_pool_inr in E as (db' & [= <- _] & _).
  apply reachable_hist_unique in Hr as Hu.
  set (sel := filter (λ h, h_message_id h = mid) (d_hist (w_db (f_world f)))).
  assert (∀ h, h ∈ merge_sort (le_on h_seq) sel ↔ h ∈ d_hist (w_db (f_world f)) ∧ h_message_id h = mid)
    as Hel.
  { intros h. rewrite merge_sort_Permutation. unfold sel. rewrite list_elem_of_filter. tauto. }
  split.
  - apply (sorted_distinct (d_hist (w_db (f_world f)))).
    + done.
    + intros x Hx. apply Hel in Hx as [? _]. done.
    + rewrite merge_sort_Permutation. apply NoDup_filter. by apply (NoDup_fmap_1 SQL.hist_key).
    + intros x y [_ ->]%Hel [_ ->]%Hel. done.
    + apply StronglySorted_merge_sort; apply _.
  - intros t. rewrite list_elem_of_fmap. setoid_rewrite Hel. split.
    + intros (h & -> & Hh & Hm). eauto.
    + intros (h & Hh & Hm & ->). eauto.
Qed.

Lemma demo_reach_done : reachable demo_env demo_store (mkFleet demo_done []).
Proof. eapply rtc_trans; [apply demo_reach_claimed|by apply fleet_op]. Qed.

Lemma History_in_order_witness :
  ∃ out w', run (History demo_env (demo_id 0)) demo_done = ((out, None), w') ∧
    (tr_To <$> out) = [StatusHandling; StatusSuccess] ∧ StronglySorted seq_lt out.
Proof.
  do 2 eexists. split; [vm_compute; reflexivity|]. split; [vm_compute; reflexivity|].
  eapply (History_in_order demo_env demo_store (mkFleet demo_done []) (demo_id 0) (demo_id 0)).
  - exact demo_reach_done.
  - reflexivity.
  - vm_compute. reflexivity.
Defined.

(** ** The lease *)

(** A lease given in whole seconds reaches the database exactly: for every
    positive number of seconds that fits a Go Duration, the interval added to
    [now()] is that number (the float round trip of Duration.Seconds loses
    nothing), and a zero lease means 30 seconds. *)
Theorem lease_whole_seconds n :
  0 < n → n * Second ≤ int64_max → lease_seconds (n * Second) = n ∧ lease_seconds 0 = 30.
Proof.
  intros Hn Hmax. unfold int64_max, Second in *. split; [|done]. unfold lease_seconds.
  destruct (Z.eqb_spec (n * 1000000000) 0); [lia|].
  rewrite Duration_Seconds_whole by lia. done.
Qed.

Lemma lease_whole_seconds_witness : lease_seconds (45 * Second) = 45 ∧ lease_seconds 0 = 30.
Proof. apply (lease_whole_seconds 45); vm_compute; [reflexivity|discriminate]. Defined.

(** Below one second the conversion to an int of seconds truncates to 0, so
    the lease ends the moment it starts. *)
Example subsecond_lease_is_zero :
  lease_seconds (500 * Millisecond) = 0 ∧
  ∀ now w r, r_claimed_until (SQL.claim_row now w (lease_seconds (500 * Millisecond)) r) = Some now.
Proof.
  assert (lease_seconds (500 * Millisecond) = 0) as E by (vm_compute; reflexivity).
  split; [done|]. intros. rewrite E. simpl. f_equal. lia.
Qed.
