(* ===== verification/Effects.v ===== *)
(** * The storage interface and the effects of engine, client and worker
      (storage.go, notifier.go, observe.go)

    The code above the storage adapter is modelled as a program over the
    effects it performs: calls of the Storage interface, clock readings,
    metrics, alerts, handler invocations, channel operations and goroutine
    starts.  [every ok p P] says that on every path of [p], for every answer
    the outside world may give ([ok]), the trace of effects and the result
    satisfy [P].  Log lines and trace spans carry no state and are left out. *)

From S2P Require Import Prelude GoErrors Retry Message.

(** ** The Storage interface *)

Inductive call : Type → Type :=
| StEnqueue (tx : Tx) (p : EnqueueParams) : call (option InboundMessage * option error)
| StEnqueueBatch (tx : Tx) (ps : list EnqueueParams) : call (list (option InboundMessage) * option error)
| StClaim (p : ClaimParams) : call (list InboundMessage * option error)
| StSucceed (id : MessageID) (attempt : Z) (workerID : string) : call (option error)
| StBatchSucceed (ps : list BatchSucceedParam) : call (option error)
| StFail (p : FailParams) : call (option error)
| StReleaseShutdown (id : MessageID) (attempt : Z) (workerID reason : string) : call (option error)
| StExtend (id : MessageID) (workerID : string) (until : Time) : call (bool * option error)
| StReclaimExpired (limit : Z) : call (Z * option error)
| StPurgeTerminal (before : Time) (limit : Z) : call (Z * option error)
| StPurgeHistory (before : Time) (limit : Z) : call (Z * option error)
| StStats : call (Stats * option error)
| StTryLeaderLock (key : string) : call (bool * option error)
| StUnlock (key : string) : call unit
| StNotify (tx : Tx) (eventType : string) : call (option error).

(** ** Observability *)

Inductive ErrorKind :=
| ErrorKindHandler | ErrorKindDeadLetter | ErrorKindNoHandler | ErrorKindClaim
| ErrorKindStorage | ErrorKindLease | ErrorKindJanitor | ErrorKindReclaimer.

Record ErrorEvent := mkErrorEvent {
  ev_Kind : ErrorKind;
  ev_EventType : string;
  ev_MessageID : MessageID;
  ev_Attempt : Z;
  ev_Err : option error;
}.

Inductive metric :=
| MessageEnqueued (eventType : string)
| HandlerStarted (eventType : string) (attempt : Z)
| HandlerCompleted (eventType : string) (attempt : Z) (duration : Duration) (outcome : Outcome)
| MessageDead (eventType : string)
| QueueDepth (eventType : string) (status : Status) (depth : Z)
| ClaimBatch (claimed requested : Z) (duration : Duration)
| LeaseReclaimed (eventType : string) (count : Z).

(** ** Handlers and their configuration (handler.go, registry.go) *)

(** User code, known by a name. *)
Inductive Handler := mkHandler (name : string).
Inductive BatchHandler := mkBatchHandler (name : string).

(** [RetryPolicy] is an interface: the built-in policy or user code. *)
Inductive RetryPolicy :=
| PolicyBackoff (b : ExponentialBackoff)
| PolicyUser (name : string).

Record handlerConfig := mkHandlerConfig {
  maxAttempts : Z;
  retry : option RetryPolicy;
  maxInflight : Z;
  maxBatchSize : Z;
  attemptTimeout : Duration;
  deadLetterIf : option (error → bool);
}.

Record registration := mkRegistration {
  handler : option Handler;
  batchHandler : option BatchHandler;
  cfg : handlerConfig;
}.

(** What a handler invocation ends in. *)
Inductive handler_result :=
| Returned (err : option error)
| Panicked (r : error + string).      (* an error value, or another value printed with %v *)

(** ** Effects *)

Inductive sem := globalPool | perTypeSem (eventType : string) (capacity : Z).

(** The goroutines pollOnce starts. *)
Inductive task :=
| runHandlerTask (m : InboundMessage) (reg : registration)
| runBatchHandlerTask (ms : list InboundMessage) (reg : registration).

(** The spans the tracer is asked for. *)
Inductive span := EnqueueSpan (eventType : string) | ClaimSpan | HandlerSpan (m : InboundMessage).

Inductive eff : Type → Type :=
| Call {B} (c : call B) : eff B
| Now : eff Time
| Metric (m : metric) : eff unit
| Alert (ev : ErrorEvent) : eff unit
| AcquireOrDone (s : sem) : eff bool          (* select: token taken, or ctx.Done *)
| ReleaseToken (s : sem) : eff unit
| Go (t : task) : eff unit
| InflightAdd : eff unit                      (* e.inflight.Add(1) *)
| InflightDone : eff unit                     (* e.inflight.Done() *)
| WithTimeout (d : Duration) : eff unit       (* attemptCtx, cancel := context.WithTimeout(...) *)
| CancelAttempt : eff unit                    (* cancel() *)
| StartExtender (ms : list InboundMessage) : eff unit   (* go e.extendLoop / e.extendBatchLoop *)
| StopExtender : eff unit                     (* close(extenderDone) *)
| SendAck (p : BatchSucceedParam) : eff unit  (* succeedCh <- p *)
| ParentDone : eff bool                       (* parentCtx.Err() != nil *)
| Stopping : eff bool                         (* e.stopping.Load() *)
| Invoke (h : Handler) (m : InboundMessage) : eff handler_result
| InvokeBatch (h : BatchHandler) (ms : list InboundMessage) : eff handler_result
| MapOrder {K : Type} (keys : list K) : eff (list K)    (* range over a Go map *)
| NextDelayOf (p : RetryPolicy) (attempt : Z) (err : error) : eff Duration
| InjectHeaders (h : Headers) : eff Headers
| StartSpan (sp : span) : eff unit            (* tracer.StartXSpan *)
| EndSpan (sp : span) (err : option error) : eff unit   (* the EndSpanFunc it returned *)
| Hostname : eff (option string)
| Getpid : eff Z
| WaitOrDone (d : Duration) : eff bool.       (* select: time.After, or ctx.Done *)

Inductive eprog (A : Type) : Type :=
| ERet (a : A)
| EDo {B : Type} (e : eff B) (k : B → eprog A).
Arguments ERet {A} a.
Arguments EDo {A B} e k.

Fixpoint eprog_bind {A B} (k : A → eprog B) (p : eprog A) : eprog B :=
  match p with
  | ERet a => k a
  | EDo e k' => EDo e (λ b, eprog_bind k (k' b))
  end.

#[export] Instance eprog_mret : MRet eprog := λ A a, ERet a.
#[export] Instance eprog_mbind : MBind eprog := λ A B k p, eprog_bind k p.

Definition perform {B} (e : eff B) : eprog B := EDo e ERet.

Fixpoint each {A} (f : A → eprog unit) (l : list A) : eprog unit :=
  match l with
  | [] => mret ()
  | x :: l => _ ← f x; each f l
  end.

(** ** Traces *)

(** One performed effect with the answer it got. *)
Inductive event :=
| Ev {B : Type} (e : eff B) (b : B).

Section every.
Context (ok : ∀ B, eff B → B → Prop).

Fixpoint every {A} (p : eprog A) (P : list event → A → Prop) : Prop :=
  match p with
  | ERet a => P [] a
  | EDo e k => ∀ b, ok _ e b → every (k b) (λ l a, P (Ev e b :: l) a)
  end.

Lemma every_mono {A} (p : eprog A) (P P' : list event → A → Prop) :
  (∀ l a, P l a → P' l a) → every p P → every p P'.
Proof.
  revert P P'. induction p as [a|B e k IH]; intros P P' HP; simpl; [auto|].
  intros H b Hb. eapply IH; [|by apply H]. auto.
Qed.

Lemma every_bind {A B} (p : eprog A) (k : A → eprog B) P :
  every p (λ l a, every (k a) (λ l' b, P (l ++ l') b)) → every (p ≫= k) P.
Proof.
  unfold mbind, eprog_mbind. revert P. induction p as [a|C e k' IH]; intros P; simpl; [done|].
  intros H b Hb. apply IH. by apply H.
Qed.

(** The common case: a fact of the first part is all the second needs. *)
Lemma every_seq {A B} (p : eprog A) (k : A → eprog B) (Q : list event → A → Prop) P :
  every p Q → (∀ l a, Q l a → every (k a) (λ l' b, P (l ++ l') b)) → every (p ≫= k) P.
Proof. intros Hp Hk. apply every_bind. eapply every_mono; [|exact Hp]. auto. Qed.

Lemma every_ret {A} (a : A) (P : list event → A → Prop) : P [] a → every (mret a) P.
Proof. done. Qed.

Lemma every_perform {B} (e : eff B) (P : list event → B → Prop) :
  (∀ b, ok _ e b → P [Ev e b] b) → every (perform e) P.
Proof. done. Qed.

(** A loop accumulates what its iterations contribute. *)
Lemma every_each {A} (f : A → eprog unit) (Q : A → list event → Prop)
    (P : list event → Prop) l :
  (∀ x, x ∈ l → every (f x) (λ t _, Q x t)) →
  (∀ ts, Forall2 Q l ts → P (concat ts)) →
  every (each f l) (λ t _, P t).
Proof.
  revert P. induction l as [|x l IH]; intros P Hf HP; simpl; [by apply (HP [])|].
  eapply every_seq; [apply Hf; left|]. intros t [] Hx. apply (IH (λ t', P (t ++ t'))).
  - intros y Hy. apply Hf. by right.
  - intros ts Hts. apply (HP (t :: ts)). by constructor.
Qed.
End every.

(** ** Facts of every single effect *)

Section every_event.
Context (ok : ∀ B, eff B → B → Prop) (Q : event → Prop).

Definition every_event {A} (p : eprog A) : Prop := every ok p (λ t _, Forall Q t).

Lemma every_event_bind {A B} (p : eprog A) (k : A → eprog B) :
  every_event p → (∀ a, every_event (k a)) → every_event (p ≫= k).
Proof.
  intros Hp Hk. eapply every_seq; [exact Hp|]. intros l a Hl.
  eapply every_mono; [|apply Hk]. intros l' ? Hl'. by apply Forall_app.
Qed.

Lemma every_event_ret {A} (a : A) : every_event (mret a).
Proof. by apply every_ret, Forall_nil. Qed.

Lemma every_event_perform {B} (e : eff B) : (∀ b, Q (Ev e b)) → every_event (perform e).
Proof. intros H. apply every_perform. intros b _. by constructor. Qed.

Lemma every_event_each {A} (f : A → eprog unit) l :
  (∀ x, every_event (f x)) → every_event (each f l).
Proof.
  intros Hf. induction l as [|x l IH]; simpl; [apply every_event_ret|].
  by apply every_event_bind.
Qed.
End every_event.

(** Decide [every_event] by the shape of the program. *)
Ltac every_event :=
  repeat first
    [ apply every_event_ret | apply every_event_perform; done
    | apply every_event_bind; [|intros ?] | apply every_event_each; intros ?
    | match goal with |- every_event _ _ (match ?x with _ => _ end) => destruct x end ].

(** Running a program against concrete answers. *)
Fixpoint erun {S A} (h : ∀ B, eff B → State S B) (p : eprog A) (s : S) : (list event * A) * S :=
  match p with
  | ERet a => (([], a), s)
  | EDo e k =>
    let '(b, s1) := h _ e s in
    let '((l, a), s2) := erun h (k b) s1 in
    ((Ev e b :: l, a), s2)
  end.

Lemma erun_bind {S A B} (h : ∀ B, eff B → State S B) (p : eprog A) (k : A → eprog B) s :
  erun h (p ≫= k) s =
  let '((l, a), s1) := erun h p s in
  let '((l', b), s2) := erun h (k a) s1 in ((l ++ l', b), s2).
Proof.
  unfold mbind, eprog_mbind. revert s. induction p as [a|C e k' IH]; intros s; simpl.
  - by destruct (erun h (k a) s) as [[l' b] s2].
  - destruct (h C e s) as [x s1]. rewrite IH. destruct (erun h (k' x) s1) as [[l a] s2].
    by destruct (erun h (k a) s2) as [[l' b] s3].
Qed.

Lemma erun_perform {S B C} (h : ∀ B, eff B → State S B) (e : eff B) (k : B → eprog C) s :
  erun h (perform e ≫= k) s =
  let '(b, s1) := h B e s in let '((l, c), s2) := erun h (k b) s1 in ((Ev e b :: l, c), s2).
Proof. done. Qed.

(** A run is one of the paths. *)
Lemma every_erun {S A} (ok : ∀ B, eff B → B → Prop) (h : ∀ B, eff B → State S B)
    (p : eprog A) P s :
  (∀ B (e : eff B) s, ok _ e (h _ e s).1) → every ok p P →
  P (erun h p s).1.1 (erun h p s).1.2.
Proof.
  intros Hh. revert P s. induction p as [a|B e k IH]; intros P s; simpl; [done|].
  intros H. pose proof (Hh B e s) as Hb. destruct (h B e s) as [b s1]. simpl in Hb.
  specialize (IH b _ s1 (H b Hb)). by destruct (erun h (k b) s1) as [[l a] s2].
Qed.

(** ** What the outside promises *)

(** What Claim promises the engine: no message twice, none beyond the batch,
    none of a type that was not asked for. *)
Definition claim_promise (p : ClaimParams) (r : list InboundMessage * option error) : Prop :=
  r.2 = None → NoDup (im_ID <$> r.1) ∧ Z.of_nat (length r.1) ≤ Z.max 1 (cp_Batch p) ∧
    (cp_EventTypes p ≠ [] → Forall (λ m, im_Type m ∈ cp_EventTypes p) r.1).

(** The answers of the outside world: Go's map iteration visits every key once,
    and Claim keeps its promise. *)
Definition world_ok (B : Type) (e : eff B) : B → Prop :=
  match e in eff B' return B' → Prop with
  | MapOrder keys => λ b, b ≡ₚ keys
  | Call c =>
    match c in call B' return B' → Prop with
    | StClaim p => claim_promise p
    | _ => λ _, True
    end
  | _ => λ _, True
  end.
