(* ===== verification/Registry.v ===== *)
(** * The handler registry and typed handlers (registry.go, handler_typed.go)

    The registry is a map from event types to registrations, behind a mutex:
    each method is one atomic step on the map. *)

From S2P Require Import Prelude GoErrors Retry Message Effects.

(** ** Options *)

Abbreviation HandlerOption := (handlerConfig → handlerConfig) (only parsing).

Definition WithMaxAttempts (n : Z) : HandlerOption := λ c,
  mkHandlerConfig n (retry c) (maxInflight c) (maxBatchSize c) (attemptTimeout c) (deadLetterIf c).
Definition WithRetryPolicy (p : option RetryPolicy) : HandlerOption := λ c,
  mkHandlerConfig (maxAttempts c) p (maxInflight c) (maxBatchSize c) (attemptTimeout c) (deadLetterIf c).
Definition WithMaxInflight (n : Z) : HandlerOption := λ c,
  mkHandlerConfig (maxAttempts c) (retry c) n (maxBatchSize c) (attemptTimeout c) (deadLetterIf c).
Definition WithAttemptTimeout (d : Duration) : HandlerOption := λ c,
  mkHandlerConfig (maxAttempts c) (retry c) (maxInflight c) (maxBatchSize c) d (deadLetterIf c).
Definition WithDeadLetterIf (pred : option (error → bool)) : HandlerOption := λ c,
  mkHandlerConfig (maxAttempts c) (retry c) (maxInflight c) (maxBatchSize c) (attemptTimeout c) pred.
Definition WithMaxBatchSize (n : Z) : HandlerOption := λ c,
  mkHandlerConfig (maxAttempts c) (retry c) (maxInflight c) n (attemptTimeout c) (deadLetterIf c).

Definition defaultConfig : handlerConfig :=
  {| maxAttempts := 10; retry := Some (PolicyBackoff DefaultRetryPolicy); maxInflight := 0;
     maxBatchSize := 0; attemptTimeout := 30 * Second; deadLetterIf := None |}.

(** ** The registry *)

Abbreviation HandlerRegistry := (gmap string registration) (only parsing).

Definition NewRegistry : HandlerRegistry := ∅.

Definition register (eventType : string) (h : option Handler) (bh : option BatchHandler)
    (opts : list HandlerOption) : State HandlerRegistry (option error) := λ r,
  if bool_decide (eventType = ""%string) then
    (Some (errorString "tickr: event type must be non-empty"), r)
  else
    let c := foldl (λ c o, o c) defaultConfig opts in
    match r !! eventType with
    | Some _ => (Some (errorString ("tickr: handler already registered for event type "
                         ++ GoFmt.Quote eventType)%string), r)
    | None => (None, <[eventType := mkRegistration h bh c]> r)
    end.

Definition On (eventType : string) (h : option Handler) (opts : list HandlerOption)
    : State HandlerRegistry (option error) :=
  match h with
  | None => mret (Some (errorString "tickr: handler must be non-nil"))
  | Some _ => register eventType h None opts
  end.

Definition OnBatch (eventType : string) (h : option BatchHandler) (opts : list HandlerOption)
    : State HandlerRegistry (option error) :=
  match h with
  | None => mret (Some (errorString "tickr: batch handler must be non-nil"))
  | Some _ => register eventType None h opts
  end.

Definition EventTypes (r : HandlerRegistry) : list string := (map_to_list r).*1.

Definition lookup_handler (r : HandlerRegistry) (eventType : string) : option registration :=
  r !! eventType.

(** ** Typed handlers *)

Section Typed.
Context {T : Type} (Unmarshal : bytes → error + T) (zero : T).

(** The producer's side; [Marshal] is json.Marshal. *)
Definition Encode (Marshal : T → error + bytes) (body : T) : error + bytes :=
  match Marshal body with
  | inl err => inl (Errorf_w "tickr: encode payload" err)
  | inr b => inr b
  end.

(** What the wrapper hands to the typed handler, or the error it returns
    without calling it. *)
Definition decode_body (ctx : string) (payload : bytes) : error + T :=
  if bool_decide (payload = ""%string) then inr zero
  else match Unmarshal payload with
       | inl err => inl (DeadLetter (Some (Errorf_w ctx err)))
       | inr body => inr body
       end.

Definition wrapJSON (h : InboundMessage → T → handler_result) (msg : InboundMessage)
    : handler_result :=
  match decode_body "tickr: decode payload" (im_Payload msg) with
  | inl e => Returned (Some e)
  | inr body => h msg body
  end.

Record BatchItem := mkBatchItem { bi_Msg : InboundMessage; bi_Body : T }.

Fixpoint decode_batch (msgs : list InboundMessage) : error + list BatchItem :=
  match msgs with
  | [] => inr []
  | m :: msgs =>
    match decode_body ("tickr: decode payload (msg " ++ im_ID m ++ ")")%string (im_Payload m) with
    | inl e => inl e
    | inr body =>
      match decode_batch msgs with
      | inl e => inl e
      | inr items => inr (mkBatchItem m body :: items)
      end
    end
  end.

Definition wrapBatchJSON (h : list BatchItem → handler_result) (msgs : list InboundMessage)
    : handler_result :=
  match decode_batch msgs with
  | inl e => Returned (Some e)
  | inr items => h items
  end.

(** Registering a typed handler registers the closure that decodes for it:
    [closure h] is the handler whose runs are those of [wrapJSON h]. *)
Abbreviation TypedHandler := (InboundMessage → T → handler_result) (only parsing).
Abbreviation TypedBatchHandler := (list BatchItem → handler_result) (only parsing).
Context (closure : TypedHandler → Handler) (batch_closure : TypedBatchHandler → BatchHandler).

Definition typed_On (eventType : string) (h : option TypedHandler) (opts : list HandlerOption)
    : State HandlerRegistry (option error) :=
  match h with
  | None => mret (Some (errorString "tickr: handler must be non-nil"))
  | Some h => On eventType (Some (closure h)) opts
  end.

Definition typed_OnBatch (eventType : string) (h : option TypedBatchHandler)
    (opts : list HandlerOption) : State HandlerRegistry (option error) :=
  match h with
  | None => mret (Some (errorString "tickr: batch handler must be non-nil"))
  | Some h => OnBatch eventType (Some (batch_closure h)) opts
  end.

(** The Must variants panic with the error. *)
Definition must (err : option error) : handler_result :=
  match err with Some e => Panicked (inl e) | None => Returned None end.

Definition MustOn (eventType : string) (h : option TypedHandler) (opts : list HandlerOption)
    : State HandlerRegistry handler_result :=
  err ← typed_On eventType h opts; mret (must err).

Definition MustOnBatch (eventType : string) (h : option TypedBatchHandler)
    (opts : list HandlerOption) : State HandlerRegistry handler_result :=
  err ← typed_OnBatch eventType h opts; mret (must err).
End Typed.

(** ** Properties *)

Definition registered_as (r : HandlerRegistry) (et : string) (reg : registration) : Prop :=
  r !! et = Some reg.

Lemma elem_of_EventTypes r et : et ∈ EventTypes r ↔ is_Some (r !! et).
Proof.
  unfold EventTypes. rewrite list_elem_of_fmap. split.
  - intros ([k reg] & -> & H%elem_of_map_to_list). by exists reg.
  - intros [reg H]. exists (et, reg). split; [done|]. by apply elem_of_map_to_list.
Qed.

(** A registry built by the API: every registration has exactly one handler,
    and its type is not empty. *)
Definition registry_wf (r : HandlerRegistry) : Prop :=
  ∀ et reg, r !! et = Some reg → et ≠ ""%string ∧
    ((is_Some (handler reg) ∧ batchHandler reg = None) ∨
     (handler reg = None ∧ is_Some (batchHandler reg))).

Lemma register_wf et h bh opts r :
  (is_Some h ∧ bh = None) ∨ (h = None ∧ is_Some bh) →
  registry_wf r → registry_wf (register et h bh opts r).2.
Proof.
  intros Hh Hwf. unfold register. case_bool_decide; [done|].
  destruct (r !! et) eqn:E; [done|]. simpl. intros et' reg Hreg.
  apply lookup_insert_Some in Hreg as [[<- <-]|[_ Hreg]]; [done|by apply Hwf].
Qed.

(** Registration is first-wins and faithful.  On and OnBatch refuse a nil
    handler, an empty event type and a type that is already registered, with an
    error and the registry unchanged; otherwise they add exactly one entry,
    found by lookup and listed by EventTypes, whose configuration is the
    defaults (10 attempts, the default backoff, 30s timeout) with the options
    applied in order; and every entry ever added has exactly one of the two
    kinds of handler. *)
Theorem registration_first_wins r et h opts :
  registry_wf r →
  (let '(err, r') := On et h opts r in
   registry_wf r' ∧
   match err with
   | Some _ => r' = r ∧ (h = None ∨ et = ""%string ∨ et ∈ EventTypes r)
   | None => r !! et = None ∧ ∃ hf, h = Some hf ∧
       r' = <[et := mkRegistration (Some hf) None (foldl (λ c o, o c) defaultConfig opts)]> r ∧
       et ∈ EventTypes r'
   end) ∧
  ∀ bh, let '(err, r') := OnBatch et bh opts r in
   registry_wf r' ∧
   match err with
   | Some _ => r' = r ∧ (bh = None ∨ et = ""%string ∨ et ∈ EventTypes r)
   | None => r !! et = None ∧ ∃ hf, bh = Some hf ∧
       r' = <[et := mkRegistration None (Some hf) (foldl (λ c o, o c) defaultConfig opts)]> r ∧
       et ∈ EventTypes r'
   end.
Proof.
  intros Hwf. split; [|intros bh].
  - unfold On. destruct h as [hf|]; [|simpl; auto].
    pose proof (register_wf et (Some hf) None opts r ltac:(left; eauto) Hwf) as Hwf'.
    unfold register in *. case_bool_decide; [simpl; auto|].
    destruct (r !! et) as [reg|] eqn:E; simpl in *; split; try done.
    + split; [done|]. right; right. apply elem_of_EventTypes. eauto.
    + split; [done|]. exists hf. split_and!; try done.
      apply elem_of_EventTypes. rewrite lookup_insert_eq. eauto.
  - unfold OnBatch. destruct bh as [hf|]; [|simpl; auto].
    pose proof (register_wf et None (Some hf) opts r ltac:(right; eauto) Hwf) as Hwf'.
    unfold register in *. case_bool_decide; [simpl; auto|].
    destruct (r !! et) as [reg|] eqn:E; simpl in *; split; try done.
    + split; [done|]. right; right. apply elem_of_EventTypes. eauto.
    + split; [done|]. exists hf. split_and!; try done.
      apply elem_of_EventTypes. rewrite lookup_insert_eq. eauto.
Qed.

Lemma registration_first_wins_witness :
  (maxAttempts ∘ cfg) <$>
    (On "a" (Some (mkHandler "h")) [WithMaxAttempts 3] NewRegistry).2 !! "a"%string = Some 3 ∧
  let '(err, r') := On "a" (Some (mkHandler "h")) [WithMaxAttempts 3] NewRegistry in
  registry_wf r' ∧ err = None.
Proof.
  split; [vm_compute; reflexivity|].
  destruct (registration_first_wins NewRegistry "a" (Some (mkHandler "h")) [WithMaxAttempts 3])
    as [H _]; [intros ?? H; vm_compute in H; discriminate H|].
  assert ((On "a" (Some (mkHandler "h")) [WithMaxAttempts 3] NewRegistry).1 = None) as E
    by (vm_compute; reflexivity).
  destruct (On _ _ _ _) as [err r']. split; [exact (proj1 H)|exact E].
Defined.

(** Undecodable payloads are dead-lettered without running user code.  A
    typed handler sees the zero value for an empty payload and the decoded body
    otherwise; when decoding fails it is not called and the error is one that
    IsDeadLetter recognises.  For a batch, one undecodable message dead-letters
    the whole batch. *)
Theorem typed_decode_dead_letters {T} (Unmarshal : bytes → error + T) (zero : T) h hb msg msgs :
  (im_Payload msg = ""%string → wrapJSON Unmarshal zero h msg = h msg zero) ∧
  (∀ body, im_Payload msg ≠ ""%string → Unmarshal (im_Payload msg) = inr body →
     wrapJSON Unmarshal zero h msg = h msg body) ∧
  (∀ e, im_Payload msg ≠ ""%string → Unmarshal (im_Payload msg) = inl e →
     ∃ err, wrapJSON Unmarshal zero h msg = Returned (Some err) ∧ IsDeadLetter (Some err) = true) ∧
  ((∃ items, wrapBatchJSON Unmarshal zero hb msgs = hb items ∧ bi_Msg <$> items = msgs) ∨
   (∃ err m, wrapBatchJSON Unmarshal zero hb msgs = Returned (Some err) ∧
      IsDeadLetter (Some err) = true ∧ m ∈ msgs ∧ isSome (match Unmarshal (im_Payload m) with
        inl e => Some e | inr _ => None end) = true)).
Proof.
  unfold wrapJSON, wrapBatchJSON, decode_body. split_and!.
  - intros ->. done.
  - intros body Hne ->. by rewrite bool_decide_eq_false_2.
  - intros e Hne ->. rewrite bool_decide_eq_false_2 by done. by eexists.
  - assert ((∃ items, decode_batch Unmarshal zero msgs = inr items ∧ bi_Msg <$> items = msgs) ∨
      ∃ err m, decode_batch Unmarshal zero msgs = inl err ∧ IsDeadLetter (Some err) = true ∧ m ∈ msgs ∧
        isSome (match Unmarshal (im_Payload m) with inl e => Some e | inr _ => None end) = true)
      as [(items & -> & ?)|(err & m & -> & ?)]; [|left; eauto|right; eauto].
    induction msgs as [|m msgs IH]; [left; by exists []|]. simpl. unfold decode_body.
    case_bool_decide as Hp; [|destruct (Unmarshal (im_Payload m)) as [e|body] eqn:Eu].
    2:{ right. eexists _, m. split_and!; [reflexivity|done|left|by rewrite Eu]. }
    all: destruct IH as [(items & -> & <-)|(err & m' & -> & ? & ? & ?)];
      [left; eexists; split; reflexivity|right; exists err, m'; split_and!; try done; by right].
Qed.
