(* ===== verification/Engine.v ===== *)
(** * The worker engine (engine.go)

    The claim loop, dispatch, handler execution and outcome commitment, as
    programs over the effects of file Effects.  Each function of engine.go
    is one definition; goroutines are started with [Go] and their bodies are
    the programs [runHandler] and [runBatchHandler]. *)

From S2P Require Import Prelude GoErrors GoFloat Retry Message Effects Registry.

Record engineConfig := mkEngineConfig {
  registry : gmap string registration;
  workerID : string;
  pollInterval : Duration;
  pollMaxBackoff : Duration;
  batchSize : Z;
  poolSize : Z;
  lease : Duration;
  shutdownGrace : Duration;
  hasBatchAcker : bool;           (* cfg.storage.(BatchAcker) succeeded *)
}.

Definition batchSizeOrDefault (n : Z) : Z := if n <=? 0 then 100 else n.
Definition leaseOrDefault (d : Duration) : Duration := if d <=? 0 then 30 * Second else d.

Section Engine.
Context (e : engineConfig).

(** ** Outcomes *)

Definition safeInvoke (r : handler_result) : option error :=
  match r with
  | Returned err => err
  | Panicked (inl err) => Some (Errorf_w "tickr: handler panic" err)
  | Panicked (inr v) => Some (errorString ("tickr: handler panic: " ++ v)%string)
  end.

Definition safeInvokeBatch (r : handler_result) : option error :=
  match r with
  | Returned err => err
  | Panicked (inl err) => Some (Errorf_w "tickr: batch handler panic" err)
  | Panicked (inr v) => Some (errorString ("tickr: batch handler panic: " ++ v)%string)
  end.

Definition resolveOutcome (err : option error) : eprog Outcome :=
  match err with
  | None => mret OutcomeSuccess
  | Some _ =>
    if IsSkip err then mret OutcomeSuccess
    else if is_Canceled err then
      pd ← perform ParentDone;
      if (pd : bool) then
        st ← perform Stopping;
        mret (if (st : bool) then OutcomeCanceled else OutcomeRetry)
      else mret OutcomeRetry
    else mret OutcomeRetry
  end.

Definition msg_alert (kind : ErrorKind) (m : InboundMessage) (err : option error) : eprog unit :=
  perform (Alert (mkErrorEvent kind (im_Type m) (im_ID m) (im_Attempt m) err)).

Definition alert_if (kind : ErrorKind) (m : InboundMessage) (err : option error) : eprog unit :=
  match err with Some _ => msg_alert kind m err | None => mret () end.

(** The dead-letter decision: lines 573-586. *)
Definition is_dead (m : InboundMessage) (c : handlerConfig) (err : option error)
    (outcome : Outcome) : bool :=
  let dead := bool_decide (outcome = OutcomeDead) in
  let dead := if IsDeadLetter err then true else dead in
  let dead := match deadLetterIf c, err with
              | Some pred, Some er => if pred er then true else dead
              | _, _ => dead
              end in
  let maxAtt := if im_MaxAttempts m <=? 0 then maxAttempts c else im_MaxAttempts m in
  if negb dead && (maxAtt <=? im_Attempt m) then true else dead.

Definition retry_delay (m : InboundMessage) (c : handlerConfig) (er : error) : eprog Duration :=
  let '(delay, found) := ExtractRetryAfter (Some er) in
  if found then mret delay
  else perform (NextDelayOf (default (PolicyBackoff DefaultRetryPolicy) (retry c)) (im_Attempt m) er).

Definition commitOutcome (m : InboundMessage) (c : handlerConfig) (err : option error)
    (outcome : Outcome) : eprog unit :=
  match outcome with
  | OutcomeSuccess =>
    if hasBatchAcker e then
      perform (SendAck (mkBatchSucceedParam (im_ID m) (im_Attempt m) (workerID e)))
    else
      serr ← perform (Call (StSucceed (im_ID m) (im_Attempt m) (workerID e)));
      alert_if ErrorKindStorage m serr
  | OutcomeCanceled =>
    rerr ← perform (Call (StReleaseShutdown (im_ID m) (im_Attempt m) (workerID e) "worker shutdown"));
    alert_if ErrorKindStorage m rerr
  | OutcomeRetry | OutcomeDead =>
    let dead := is_dead m c err outcome in
    let er := default (errorString "") err in
    nextRetryAt ←
      (if dead then mret 0
       else delay ← retry_delay m c er; now ← perform Now; mret (now + delay));
    _ ← (if dead then perform (Metric (MessageDead (im_Type m))) else mret ());
    ferr ← perform (Call (StFail (mkFailParams (im_ID m) (im_Attempt m) (workerID e)
             (Error er) nextRetryAt dead)));
    _ ← alert_if ErrorKindStorage m ferr;
    msg_alert (if dead then ErrorKindDeadLetter else ErrorKindHandler) m err
  end.

(** ** Handler goroutines *)

Definition nil_deref : error :=
  errorString "runtime error: invalid memory address or nil pointer dereference".

Definition invoke (reg : registration) (m : InboundMessage) : eprog handler_result :=
  match handler reg with
  | Some h => perform (Invoke h m)
  | None => mret (Panicked (inl nil_deref))
  end.

Definition invokeBatch (reg : registration) (ms : list InboundMessage) : eprog handler_result :=
  match batchHandler reg with
  | Some h => perform (InvokeBatch h ms)
  | None => mret (Panicked (inl nil_deref))
  end.

(** The tokens a dispatch takes, and the deferred receives that return them
    (last deferred first). *)
Definition type_sem (reg : registration) (eventType : string) : option sem :=
  if 0 <? maxInflight (cfg reg) then Some (perTypeSem eventType (maxInflight (cfg reg))) else None.

Definition return_tokens (perType : option sem) : eprog unit :=
  _ ← match perType with Some s => perform (ReleaseToken s) | None => mret () end;
  _ ← perform (ReleaseToken globalPool);
  perform InflightDone.

Definition attempt_timeout (c : handlerConfig) : Duration :=
  if attemptTimeout c <=? 0 then 30 * Second else attemptTimeout c.

(** The frame of an attempt: its context and lease extender before, and the
    deferred calls after (last deferred first). *)
Definition with_attempt (c : handlerConfig) (ms : list InboundMessage) (perType : option sem)
    (body : eprog unit) : eprog unit :=
  _ ← perform (WithTimeout (attempt_timeout c));
  _ ← perform (StartExtender ms);
  _ ← body;
  _ ← perform StopExtender;
  _ ← perform CancelAttempt;
  return_tokens perType.

Definition attempt (m : InboundMessage) (reg : registration) : eprog unit :=
  _ ← perform (StartSpan (HandlerSpan m));
  start ← perform Now;
  _ ← perform (Metric (HandlerStarted (im_Type m) (im_Attempt m)));
  r ← invoke reg m;
  let err := safeInvoke r in
  stop ← perform Now;
  _ ← perform (EndSpan (HandlerSpan m) err);
  outcome ← resolveOutcome err;
  _ ← perform (Metric (HandlerCompleted (im_Type m) (im_Attempt m) (stop - start) outcome));
  commitOutcome m (cfg reg) err outcome.

Definition runHandler (m : InboundMessage) (reg : registration) : eprog unit :=
  with_attempt (cfg reg) [m] (type_sem reg (im_Type m)) (attempt m reg).

(** The span of a batch is that of its first message, [msgs[0]]; a dispatched
    batch is not empty. *)
Definition batch_attempt (ms : list InboundMessage) (reg : registration) : eprog unit :=
  _ ← each (λ m, perform (StartSpan (HandlerSpan m))) (take 1 ms);
  _ ← each (λ m, perform (Metric (HandlerStarted (im_Type m) (im_Attempt m)))) ms;
  start ← perform Now;
  r ← invokeBatch reg ms;
  let err := safeInvokeBatch r in
  stop ← perform Now;
  _ ← each (λ m, perform (EndSpan (HandlerSpan m) err)) (take 1 ms);
  outcome ← resolveOutcome err;
  _ ← each (λ m, perform (Metric (HandlerCompleted (im_Type m) (im_Attempt m) (stop - start) outcome))) ms;
  each (λ m, commitOutcome m (cfg reg) err outcome) ms.

Definition runBatchHandler (ms : list InboundMessage) (reg : registration) : eprog unit :=
  with_attempt (cfg reg) ms (type_sem reg (default ""%string (im_Type <$> head ms)))
    (batch_attempt ms reg).

(** ** Dispatch *)

Definition releaseForShutdown (reason : string) (m : InboundMessage) : eprog unit :=
  _ ← perform (Call (StReleaseShutdown (im_ID m) (im_Attempt m) (workerID e) reason));
  mret ().

(** Take a pool token and, when the type is capped, one of its own; on
    shutdown run [abandon] instead of [start]. *)
Definition with_tokens (perType : option sem) (start abandon : eprog unit) : eprog unit :=
  got ← perform (AcquireOrDone globalPool);
  if (got : bool) then
    match perType with
    | None => start
    | Some s =>
      got2 ← perform (AcquireOrDone s);
      if (got2 : bool) then start
      else _ ← perform (ReleaseToken globalPool); abandon
    end
  else abandon.

Definition go (t : task) : eprog unit := _ ← perform InflightAdd; perform (Go t).

Definition dispatchSingle (m : InboundMessage) (reg : registration) : eprog unit :=
  with_tokens (type_sem reg (im_Type m)) (go (runHandlerTask m reg))
    (releaseForShutdown "shutdown before dispatch" m).

(** The loop [for i := 0; i < len(msgs); i += chunkSize]. *)
Fixpoint chunks (fuel : nat) (size : nat) (l : list InboundMessage) : list (list InboundMessage) :=
  match fuel, l with
  | _, [] => []
  | O, _ => []
  | S fuel, _ => take size l :: chunks fuel size (drop size l)
  end.

Definition chunk_size (reg : registration) (msgs : list InboundMessage) : Z :=
  let n := maxBatchSize (cfg reg) in
  if (n <=? 0) || (Z.of_nat (length msgs) <? n) then Z.of_nat (length msgs) else n.

Definition dispatchBatches (msgs : list InboundMessage) (reg : registration) : eprog unit :=
  each (λ chunk,
    with_tokens (type_sem reg (default ""%string (im_Type <$> head chunk)))
      (go (runBatchHandlerTask chunk reg))
      (each (releaseForShutdown "shutdown before dispatch") chunk))
    (chunks (length msgs) (Z.to_nat (chunk_size reg msgs)) msgs).

Definition no_handler_error (m : InboundMessage) : error :=
  errorString ("no handler registered for event type " ++ GoFmt.Quote (im_Type m))%string.

Definition failNoHandler (m : InboundMessage) : eprog unit :=
  _ ← perform (Call (StFail (mkFailParams (im_ID m) (im_Attempt m) (workerID e)
        (Error (no_handler_error m)) 0 true)));
  _ ← perform (Metric (MessageDead (im_Type m)));
  msg_alert ErrorKindNoHandler m (Some (no_handler_error m)).

(** ** The claim loop *)

(** The partition loop: single dispatches at once, batch messages grouped. *)
Fixpoint partition (msgs : list InboundMessage) (groups : gmap string (list InboundMessage))
    : eprog (gmap string (list InboundMessage)) :=
  match msgs with
  | [] => mret groups
  | m :: msgs =>
    match lookup_handler (registry e) (im_Type m) with
    | None => _ ← failNoHandler m; partition msgs groups
    | Some reg =>
      match batchHandler reg with
      | Some _ =>
        partition msgs (<[im_Type m := default [] (groups !! im_Type m) ++ [m]]> groups)
      | None => _ ← dispatchSingle m reg; partition msgs groups
      end
    end
  end.

Definition dispatch_group (groups : gmap string (list InboundMessage)) (et : string) : eprog unit :=
  match groups !! et, lookup_handler (registry e) et with
  | Some g, Some reg => dispatchBatches g reg
  | _, _ => mret ()
  end.

Definition pollOnce : eprog Z :=
  st ← perform Stopping;
  if (st : bool) then mret 0
  else
    types ← perform (MapOrder (EventTypes (registry e)));
    match types with
    | [] => mret 0
    | _ =>
      _ ← perform (StartSpan ClaimSpan);
      start ← perform Now;
      '(msgs, err) ← perform (Call (StClaim (mkClaimParams (workerID e)
         (batchSizeOrDefault (batchSize e)) (leaseOrDefault (lease e)) types)));
      _ ← perform (EndSpan ClaimSpan err);
      match err with
      | Some _ => _ ← perform (Alert (mkErrorEvent ErrorKindClaim "" "" 0 err)); mret 0
      | None =>
        stop ← perform Now;
        _ ← perform (Metric (ClaimBatch (Z.of_nat (length msgs))
              (batchSizeOrDefault (batchSize e)) (stop - start)));
        groups ← partition msgs ∅;
        order ← perform (MapOrder (map_to_list groups).*1);
        _ ← each (dispatch_group groups) order;
        mret (Z.of_nat (length msgs))
      end
    end.

(** ** Polling delay: the loop of [run] *)

Definition poll_interval : Duration :=
  if pollInterval e <=? 0 then 100 * Millisecond else pollInterval e.
Definition max_backoff : Duration :=
  if pollMaxBackoff e <=? 0 then 2 * Second else pollMaxBackoff e.

(** currentDelay after a poll that claimed [claimed] messages. *)
Definition next_delay (claimed : Z) (current : Duration) : Duration :=
  if 0 <? claimed then poll_interval
  else let d := wrap64 (current * 2) in if max_backoff <? d then max_backoff else d.

(** What the second select of [run] received. *)
Inductive wakeup := TimerFired | Notified.

Definition after_wait (w : wakeup) (current : Duration) : Duration :=
  match w with TimerFired => current | Notified => poll_interval end.

(** ** Lease extension *)

Definition extend_interval : Duration :=
  Z.max (Z.quot (leaseOrDefault (lease e)) 3) (100 * Millisecond).

(** Extend every message to one deadline; [false] means that a lease was lost,
    which cancels the attempt and ends the extender. *)
Fixpoint extend_all (until : Time) (ms : list InboundMessage) : eprog bool :=
  match ms with
  | [] => mret true
  | m :: ms =>
    '(ok, err) ← perform (Call (StExtend (im_ID m) (workerID e) until));
    match err with
    | Some _ => _ ← msg_alert ErrorKindLease m err; extend_all until ms
    | None =>
      if (ok : bool) then extend_all until ms
      else
        _ ← msg_alert ErrorKindLease m (Some (errorString "lease lost"));
        _ ← perform CancelAttempt;
        mret false
    end
  end.

Definition extend_tick (ms : list InboundMessage) : eprog bool :=
  now ← perform Now;
  extend_all (now + leaseOrDefault (lease e)) ms.

(** What the extender's select receives. *)
Inductive extend_input := ExtendTick | HandlerDone | AttemptDone.

(** The loop of extendBatchLoop; extendLoop is its case of one message. *)
Fixpoint extendBatchLoop (ms : list InboundMessage) (inputs : list extend_input) : eprog unit :=
  match inputs with
  | ExtendTick :: inputs =>
    go_on ← extend_tick ms;
    if (go_on : bool) then extendBatchLoop ms inputs else mret ()
  | _ => mret ()
  end.

Definition extendLoop (m : InboundMessage) : list extend_input → eprog unit := extendBatchLoop [m].

(** ** The ack flusher *)

(** What its select receives. *)
Inductive flush_input := FlushRecv (p : BatchSucceedParam) | FlushTick | FlushClosed.

Definition flush (buf : list BatchSucceedParam) : eprog unit :=
  match buf with
  | [] => mret ()
  | _ =>
    err ← perform (Call (StBatchSucceed buf));
    match err with
    | Some _ => perform (Alert (mkErrorEvent ErrorKindStorage "" "" 0 err))
    | None => mret ()
    end
  end.

(** One turn of the loop on what the select received: the buffer afterwards,
    [None] when the flusher returns. *)
Definition flush_turn (i : flush_input) (buf : list BatchSucceedParam)
    : eprog (option (list BatchSucceedParam)) :=
  match i with
  | FlushClosed => _ ← flush buf; mret None
  | FlushTick => _ ← flush buf; mret (Some [])
  | FlushRecv p =>
    let buf := buf ++ [p] in
    if batchSizeOrDefault (batchSize e) <=? Z.of_nat (length buf)
    then _ ← flush buf; mret (Some []) else mret (Some buf)
  end.

(** The loop over the inputs received; it ends with the channel closed. *)
Fixpoint ackFlusher (inputs : list flush_input) (buf : list BatchSucceedParam)
    : eprog (list BatchSucceedParam) :=
  match inputs with
  | [] => mret buf
  | i :: inputs =>
    r ← flush_turn i buf;
    match r with Some buf' => ackFlusher inputs buf' | None => mret [] end
  end.
End Engine.
