(* ===== verification/EngineFacts.v ===== *)
(** * Correctness of the engine's message handling

    On every path: every claimed message is disposed of exactly once, every
    handler attempt is acknowledged exactly once, and the acknowledgement is
    the one the handler's result calls for. *)

From S2P Require Import Prelude GoErrors GoFloat Retry Message Effects Registry Engine.

(** ** Acknowledgements in a trace *)

Inductive ack :=
| AckSuccess
| AckRelease (reason : string)
| AckFail (p : FailParams).

Definition ack_of (ev : event) : option (MessageID * Z * ack) :=
  match ev with
  | Ev e _ =>
    match e with
    | SendAck p => Some (bs_MessageID p, bs_Attempt p, AckSuccess)
    | Call c =>
      match c with
      | StSucceed id n _ => Some (id, n, AckSuccess)
      | StReleaseShutdown id n _ reason => Some (id, n, AckRelease reason)
      | StFail p => Some (fp_MessageID p, fp_Attempt p, AckFail p)
      | _ => None
      end
    | _ => None
    end
  end.

Definition acks_of (t : list event) : list (MessageID * Z * ack) := omap ack_of t.

Lemma acks_of_app t t' : acks_of (t ++ t') = acks_of t ++ acks_of t'.
Proof. apply omap_app. Qed.

(** The tokens a trace takes and gives back. *)
Definition token_of (ev : event) : option (sem * bool) :=
  match ev with
  | Ev e b =>
    match e in eff B return B → option (sem * bool) with
    | AcquireOrDone s => λ got, if (got : bool) then Some (s, true) else None
    | ReleaseToken s => λ _, Some (s, false)
    | _ => λ _, None
    end b
  end.

Definition tokens_of (t : list event) : list (sem * bool) := omap token_of t.

Lemma tokens_of_app t t' : tokens_of (t ++ t') = tokens_of t ++ tokens_of t'.
Proof. apply omap_app. Qed.

(** ** The decision *)

(** Why a failed attempt is dead-lettered. *)
Definition dead_cause (m : InboundMessage) (c : handlerConfig) (er : error) : Prop :=
  IsDeadLetter (Some er) = true ∨
  (∃ pred, deadLetterIf c = Some pred ∧ pred er = true) ∨
  (if im_MaxAttempts m <=? 0 then maxAttempts c else im_MaxAttempts m) ≤ im_Attempt m.

Lemma is_dead_iff m c er : is_dead m c (Some er) OutcomeRetry = true ↔ dead_cause m c er.
Proof.
  unfold is_dead, dead_cause. rewrite bool_decide_eq_false_2 by done.
  set (mx := if im_MaxAttempts m <=? 0 then maxAttempts c else im_MaxAttempts m).
  destruct (IsDeadLetter (Some er)); [by destruct (deadLetterIf c) as [p|]; [destruct (p er)|]; simpl; split; auto|].
  destruct (deadLetterIf c) as [p|]; simpl.
  - destruct (p er) eqn:Ep; simpl.
    + split; [|done]. intros _. right; left. eauto.
    + destruct (Z.leb_spec mx (im_Attempt m)); (split; [auto|]); try done.
      intros [?|[(? & [= <-] & ?)|?]]; try done; [congruence|lia].
  - destruct (Z.leb_spec mx (im_Attempt m)); (split; [auto|]); try done.
    intros [?|[(? & ? & _)|?]]; try done. lia.
Qed.

Lemma is_dead_false m c er : is_dead m c (Some er) OutcomeRetry = false ↔ ¬ dead_cause m c er.
Proof. rewrite <- is_dead_iff. by destruct (is_dead _ _ _ _). Qed.

(** The delay before the next attempt: the one the error asks for, else the
    policy's answer. *)
Definition delay_source (t : list event) (m : InboundMessage) (c : handlerConfig) (er : error)
    (d : Duration) : Prop :=
  ExtractRetryAfter (Some er) = (d, true) ∨
  ((ExtractRetryAfter (Some er)).2 = false ∧
   Ev (NextDelayOf (default (PolicyBackoff DefaultRetryPolicy) (retry c)) (im_Attempt m) er) d ∈ t).

(** The attempt was not cancelled by the worker's own shutdown: its error is no
    cancellation, or the parent context or the stopping flag was found unset. *)
Definition not_shut_down (t : list event) (er : error) : Prop :=
  is_Canceled (Some er) = false ∨ Ev ParentDone false ∈ t ∨ Ev Stopping false ∈ t.

(** The acknowledgement an attempt that ended in [err] calls for; [t] is the
    trace of the attempt. *)
Inductive verdict (t : list event) (w : string) (m : InboundMessage) (c : handlerConfig)
    : option error → ack → Prop :=
| v_success err : err = None ∨ IsSkip err = true → verdict t w m c err AckSuccess
| v_release er :
    IsSkip (Some er) = false → is_Canceled (Some er) = true →
    Ev ParentDone true ∈ t → Ev Stopping true ∈ t →
    verdict t w m c (Some er) (AckRelease "worker shutdown")
| v_dead er :
    IsSkip (Some er) = false → not_shut_down t er → dead_cause m c er →
    verdict t w m c (Some er)
      (AckFail (mkFailParams (im_ID m) (im_Attempt m) w (Error er) 0 true))
| v_retry er d now :
    IsSkip (Some er) = false → not_shut_down t er → ¬ dead_cause m c er →
    delay_source t m c er d → Ev Now now ∈ t →
    verdict t w m c (Some er)
      (AckFail (mkFailParams (im_ID m) (im_Attempt m) w (Error er) (now + d) false)).

Lemma verdict_mono t t' w m c err k :
  (∀ ev, ev ∈ t → ev ∈ t') → verdict t w m c err k → verdict t' w m c err k.
Proof.
  intros Hsub.
  assert (∀ er, not_shut_down t er → not_shut_down t' er) as Hns
    by (intros er [?|[?|?]]; unfold not_shut_down; auto).
  destruct 1 as [| | |er d now ? ? ? [?|[? ?]]]; try by constructor; auto.
  - apply v_retry; auto. by left.
  - apply v_retry; auto. right; auto.
Qed.

Section Facts.
Context (ok : ∀ B, eff B → B → Prop) (e : engineConfig).

(** An outcome the verdict can justify. *)
Definition outcome_ok (t : list event) (err : option error) (o : Outcome) : Prop :=
  match o with
  | OutcomeSuccess => err = None ∨ IsSkip err = true
  | OutcomeCanceled => IsSkip err = false ∧ is_Canceled err = true ∧ isSome err = true ∧
      Ev ParentDone true ∈ t ∧ Ev Stopping true ∈ t
  | OutcomeRetry => IsSkip err = false ∧ isSome err = true ∧
      (is_Canceled err = false ∨ Ev ParentDone false ∈ t ∨ Ev Stopping false ∈ t)
  | OutcomeDead => False
  end.

Lemma resolveOutcome_ok err :
  every ok (resolveOutcome err) (λ t o, outcome_ok t err o ∧ acks_of t = [] ∧ tokens_of t = []).
Proof.
  unfold resolveOutcome. destruct err as [er|]; [|by simpl; auto].
  destruct (IsSkip (Some er)) eqn:Hs; [by simpl; auto|].
  destruct (is_Canceled (Some er)) eqn:Hc; [|by simpl; auto].
  simpl. intros [] _; simpl; [intros [] _; simpl|]; split_and!; try done; set_solver.
Qed.

(** One acknowledgement of [m], justified by the trace so far and this one. *)
Definition acked_once (t0 : list event) (m : InboundMessage) (c : handlerConfig)
    (err : option error) (t : list event) : Prop :=
  (∃ k, acks_of t = [(im_ID m, im_Attempt m, k)] ∧ verdict (t0 ++ t) (workerID e) m c err k) ∧
  tokens_of t = [].

Lemma alert_if_ok kind m err :
  every ok (alert_if kind m err) (λ t _, acks_of t = [] ∧ tokens_of t = []).
Proof. destruct err; simpl; auto. Qed.

Lemma commit_retry_ok t0 m c er (dead : bool) (at_ : Time) :
  not_shut_down t0 er →
  (∀ t, (if dead then at_ = 0 ∧ dead_cause m c er
         else ∃ d now, at_ = now + d ∧ ¬ dead_cause m c er ∧ delay_source (t0 ++ t) m c er d ∧
           Ev Now now ∈ t0 ++ t)) →
  IsSkip (Some er) = false →
  every ok (_ ← (if dead then perform (Metric (MessageDead (im_Type m))) else mret () : eprog unit);
    ferr ← perform (Call (StFail (mkFailParams (im_ID m) (im_Attempt m) (workerID e)
             (Error er) at_ dead)));
    _ ← alert_if ErrorKindStorage m ferr;
    msg_alert (if dead then ErrorKindDeadLetter else ErrorKindHandler) m (Some er))
    (λ t _, acked_once t0 m c (Some er) t).
Proof.
  intros Hns Hd Hs.
  assert (∀ t, not_shut_down (t0 ++ t) er) as Hns'
    by (intros t; unfold not_shut_down in *; set_solver).
  assert (∀ t, acks_of t = [(im_ID m, im_Attempt m, AckFail (mkFailParams (im_ID m) (im_Attempt m)
      (workerID e) (Error er) at_ dead))] → tokens_of t = [] → acked_once t0 m c (Some er) t) as Hfin.
  { intros t Hk Htk. split; [|done]. eexists. split; [exact Hk|]. specialize (Hd t). destruct dead.
    - destruct Hd as [-> ?]. apply v_dead; auto.
    - destruct Hd as (d & now & -> & ? & ? & ?). apply v_retry; auto. }
  destruct dead; simpl.
  - intros [] _ ferr _. destruct ferr; simpl; intros; by apply Hfin.
  - intros ferr _. destruct ferr; simpl; intros; by apply Hfin.
Qed.

Lemma retry_time_ok m c er :
  every ok (delay ← retry_delay m c er; now ← perform Now; mret (now + delay))
    (λ t at_, ∃ d now, at_ = now + d ∧ delay_source t m c er d ∧ Ev Now now ∈ t ∧
       acks_of t = [] ∧ tokens_of t = []).
Proof.
  unfold retry_delay. destruct (ExtractRetryAfter (Some er)) as [d found] eqn:Hx. destruct found.
  - simpl. intros now _. exists d, now. split_and!; try done; [by left|left].
  - simpl. intros dd _ now _. exists dd, now. split_and!; try done; [|right; left].
    right. rewrite Hx. split; [done|left].
Qed.

Lemma delay_source_app t0 t t' m c er d : delay_source t m c er d → delay_source (t0 ++ t ++ t') m c er d.
Proof. intros [?|[? ?]]; [by left|right]. split; [done|]. set_solver. Qed.

Lemma commitOutcome_ok m c err o t0 :
  outcome_ok t0 err o → every ok (commitOutcome e m c err o) (λ t _, acked_once t0 m c err t).
Proof.
  intros Ho. destruct o; simpl in Ho.
  - simpl. destruct (hasBatchAcker e); simpl.
    + intros [] _. split; [|done]. exists AckSuccess. split; [done|by constructor].
    + intros serr _. destruct serr; simpl; intros; (split; [|done]);
        exists AckSuccess; (split; [done|by constructor]).
  - destruct Ho as (Hs & Hi & Hns). destruct err as [er|]; [|done]. unfold commitOutcome. cbv zeta.
    destruct (is_dead m c (Some er) OutcomeRetry) eqn:Hd.
    + apply (commit_retry_ok t0 m c er true 0); [done| |done]. intros t. split; [done|]. by apply is_dead_iff.
    + apply is_dead_false in Hd. eapply every_seq; [apply retry_time_ok|].
      intros l at_ (d & now & -> & Hsrc & Hnow & Hl1 & Hl2).
      eapply every_mono; [|apply (commit_retry_ok (t0 ++ l) m c er false (now + d)); [| |done]].
      * intros t [] [(k & Hk & Hv) Ht]. unfold acked_once. rewrite acks_of_app, tokens_of_app, Hl1, Hl2.
        split; [|done]. exists k. split; [done|]. by rewrite app_assoc.
      * destruct Hns as [?|Hns]; [by left|]. unfold not_shut_down. set_solver.
      * intros t. exists d, now. rewrite <- app_assoc.
        split_and!; [done|done|by apply delay_source_app|set_solver].
  - done.
  - destruct Ho as (Hs & Hc & Hi & Hp & Hst). destruct err as [er|]; [|done]. simpl.
    intros rerr _. destruct rerr; simpl; intros; (split; [|done]);
      exists (AckRelease "worker shutdown"); (split; [done|]); constructor; try done; set_solver.
Qed.

(** ** One attempt *)

(** Perform the next effect, whatever its answer. *)
Ltac step_eff := apply every_bind, every_perform; intros ? _.

(** The tokens a goroutine gives back. *)
Definition given_back (st : option sem) : list (sem * bool) :=
  match st with Some s => [(s, false)] | None => [] end ++ [(globalPool, false)].

Lemma return_tokens_ok st :
  every ok (return_tokens st) (λ t _, acks_of t = [] ∧ tokens_of t = given_back st).
Proof. destruct st; simpl; intros; auto. Qed.

(** What the body of an attempt does, the attempt does, and gives its tokens
    back. *)
Lemma with_attempt_ok c ms st body (P P' : list event → Prop) :
  every ok body (λ t _, P t) →
  (∀ t1 t t2, P t → acks_of (t1 ++ t ++ t2) = acks_of t →
     tokens_of (t1 ++ t ++ t2) = tokens_of t ++ given_back st → P' (t1 ++ t ++ t2)) →
  every ok (with_attempt c ms st body) (λ t _, P' t).
Proof.
  intros Hb HP. unfold with_attempt. step_eff. step_eff. apply every_bind.
  eapply every_mono; [|exact Hb]. intros t [] Ht. step_eff. step_eff.
  eapply every_mono; [|apply return_tokens_ok]. intros t2 [] [H1 H2].
  apply (HP [_; _] t (_ :: _ :: t2) Ht).
  - rewrite !acks_of_app. change (acks_of (Ev ?x _ :: Ev ?y _ :: t2)) with (acks_of t2).
    rewrite H1, app_nil_r. done.
  - rewrite !tokens_of_app. change (tokens_of (Ev ?x _ :: Ev ?y _ :: t2)) with (tokens_of t2).
    by rewrite H2.
Qed.

(** The invocation of a single handler in a trace. *)
Definition invoked (t : list event) (reg : registration) (m : InboundMessage) (r : handler_result) : Prop :=
  match handler reg with
  | Some h => Ev (Invoke h m) r ∈ t
  | None => r = Panicked (inl nil_deref)
  end.

Lemma invoke_ok reg m :
  every ok (invoke reg m) (λ t r, invoked t reg m r ∧ acks_of t = [] ∧ tokens_of t = []).
Proof. unfold invoke, invoked. destruct (handler reg); simpl; intros; split_and!; try done. left. Qed.

Lemma attempt_ok m reg :
  every ok (attempt e m reg) (λ t _, ∃ r k, invoked t reg m r ∧
    acks_of t = [(im_ID m, im_Attempt m, k)] ∧
    verdict t (workerID e) m (cfg reg) (safeInvoke r) k ∧ tokens_of t = []).
Proof.
  unfold attempt. step_eff. step_eff. step_eff. apply every_bind.
  eapply every_mono; [|apply invoke_ok]. intros ti r (Hi & Hi1 & Hi2).
  step_eff. step_eff. apply every_bind.
  eapply every_mono; [|apply resolveOutcome_ok]. intros to o (Ho & Ho1 & Ho2).
  step_eff.
  eapply every_mono; [|apply (commitOutcome_ok m (cfg reg) (safeInvoke r) o to Ho)].
  intros tc [] [(k & Hk & Hv) Hk2].
  exists r, k. split_and!.
  - unfold invoked in *. destruct (handler reg); [|done]. set_solver.
  - rewrite !acks_of_app, Hi1, Ho1, Hk. done.
  - eapply verdict_mono; [|exact Hv]. set_solver.
  - rewrite !tokens_of_app, Hi2, Ho2, Hk2. done.
Qed.

Lemma runHandler_ok m reg :
  every ok (runHandler e m reg) (λ t _, ∃ r k, invoked t reg m r ∧
    acks_of t = [(im_ID m, im_Attempt m, k)] ∧
    verdict t (workerID e) m (cfg reg) (safeInvoke r) k ∧
    tokens_of t = given_back (type_sem reg (im_Type m))).
Proof.
  eapply with_attempt_ok; [apply attempt_ok|]. intros t1 t t2 (r & k & Hi & Hk & Hv & Ht) Ha Htk.
  exists r, k. split_and!; [|by rewrite Ha| |by rewrite Htk, Ht].
  - unfold invoked in *. destruct (handler reg); [|done]. set_solver.
  - eapply verdict_mono; [|exact Hv]. set_solver.
Qed.
End Facts.

(** C7: Every handler attempt is acknowledged exactly once, as its result calls
    for.  On every path of an attempt, whatever the handler returns or panics
    with and whatever storage answers, there is exactly one acknowledgement, it
    names the message's id and attempt, and it is: success when the handler
    returned nil or a Skip; a release when the attempt was cancelled by the
    worker's own shutdown (its error is a cancellation, the parent context and
    the stopping flag were both found set); otherwise a failure carrying the
    error text, dead exactly when the error is a DeadLetter, the predicate says
    so or the attempts are used up, else due at the current time plus the
    error's RetryAfter delay or the policy's.  A cancelled attempt is failed
    only if the parent context or the stopping flag was found unset.  The tokens of the attempt are given
    back. *)
Theorem attempt_acked_exactly_once e m reg :
  every world_ok (runHandler e m reg) (λ t _, ∃ r k, invoked t reg m r ∧
    acks_of t = [(im_ID m, im_Attempt m, k)] ∧
    verdict t (workerID e) m (cfg reg) (safeInvoke r) k ∧
    tokens_of t = given_back (type_sem reg (im_Type m))).
Proof. apply runHandler_ok. Qed.

(** ** The attempt budget *)

Definition final (k : ack) : Prop :=
  match k with AckSuccess | AckRelease _ => True | AckFail p => fp_Dead p = true end.

(** Poison messages are not retried for ever.  On the last attempt of a
    message's budget (and beyond it), no path of a single-message attempt
    schedules another retry: it ends in success, in a release that gives the
    attempt back at shutdown, or in the dead-letter state. *)
Theorem last_attempt_is_final e m reg :
  0 < im_MaxAttempts m ≤ im_Attempt m →
  every world_ok (runHandler e m reg) (λ t _, ∃ k,
    acks_of t = [(im_ID m, im_Attempt m, k)] ∧ final k).
Proof.
  intros Hm. eapply every_mono; [|apply runHandler_ok].
  intros t [] (r & k & _ & Hk & Hv & _). exists k. split; [done|].
  destruct Hv as [| | |er d now ? ? Hn]; simpl; try done.
  destruct Hn. right; right. destruct (Z.leb_spec (im_MaxAttempts m) 0); lia.
Qed.

Definition demo_message : InboundMessage :=
  mkInbound "id-0" "order.paid" "{}" None "" 3 3 0 0 "" (Some StatusHandling).
Definition demo_registration : registration :=
  mkRegistration (Some (mkHandler "h")) None defaultConfig.
Definition demo_engine : engineConfig :=
  mkEngineConfig {["order.paid"%string := demo_registration]} "w-1" 0 0 0 0 0 0 true.

(** A world in which every handler fails. *)
Definition failing_world (B : Type) (ef : eff B) : State unit B :=
  match ef in eff B' return State unit B' with
  | Call c => match c in call B' return State unit B' with
              | StClaim p => λ s, (([demo_message], None), s)
              | StEnqueue _ _ => λ s, ((None, None), s)
              | StEnqueueBatch _ _ => λ s, (([], None), s)
              | StExtend _ _ _ | StTryLeaderLock _ => λ s, ((true, None), s)
              | StReclaimExpired _ | StPurgeTerminal _ _ | StPurgeHistory _ _ => λ s, ((0, None), s)
              | StStats => λ s, ((mkStats ∅ ∅ 0, None), s)
              | StUnlock _ => λ s, ((), s)
              | _ => λ s, (None, s)
              end
  | Now => λ s, (0, s)
  | Metric _ | Alert _ | ReleaseToken _ | Go _ | SendAck _ | InflightAdd | InflightDone
  | WithTimeout _ | CancelAttempt | StartExtender _ | StopExtender | StartSpan _ | EndSpan _ _ =>
    λ s, ((), s)
  | AcquireOrDone _ | WaitOrDone _ => λ s, (true, s)
  | ParentDone | Stopping => λ s, (false, s)
  | Invoke _ _ | InvokeBatch _ _ => λ s, (Returned (Some (errorString "boom")), s)
  | MapOrder keys => λ s, (keys, s)
  | NextDelayOf _ _ _ => λ s, (Second, s)
  | InjectHeaders h => λ s, (h, s)
  | Hostname => λ s, (None, s)
  | Getpid => λ s, (1, s)
  end.

Lemma last_attempt_is_final_witness :
  let t := (erun failing_world (runHandler demo_engine demo_message demo_registration) ()).1.1 in
  (∃ p, acks_of t = [("id-0"%string, 3, AckFail p)]) ∧
  every world_ok (runHandler demo_engine demo_message demo_registration)
    (λ t _, ∃ k, acks_of t = [("id-0"%string, 3, k)] ∧ final k).
Proof.
  cbv zeta. split; [eexists; vm_compute; reflexivity|].
  apply (last_attempt_is_final demo_engine demo_message demo_registration).
  split; vm_compute; [reflexivity|discriminate].
Defined.

(** A worker whose context is cancelled before its [stopping] flag is set, with a
    handler that obeys the cancellation. *)
Definition cancelled_world (B : Type) (ef : eff B) : State unit B :=
  match ef in eff B' return State unit B' with
  | ParentDone => λ s, (true, s)
  | Invoke _ _ => λ s, (Returned (Some context_Canceled), s)
  | ef' => failing_world _ ef'
  end.

(** The shutdown window spends attempts.  [Start]'s context, which the
    handlers share, is cancelled first; [drain] sets [stopping] only when the
    claim loop gets there.  A handler that returns context.Canceled in between
    is not released but failed, and on the last attempt of its budget a
    graceful shutdown dead-letters the message, whatever the handler's
    configuration. *)
Theorem shutdown_window_spends_attempt e m reg h :
  handler reg = Some h → 0 < im_MaxAttempts m ≤ im_Attempt m →
  acks_of (erun cancelled_world (runHandler e m reg) ()).1.1 =
    [(im_ID m, im_Attempt m,
      AckFail (mkFailParams (im_ID m) (im_Attempt m) (workerID e) "context canceled" 0 true))].
Proof.
  intros Hh Hm. assert (is_dead m (cfg reg) (Some context_Canceled) OutcomeRetry = true) as Hd.
  { apply is_dead_iff. right; right. destruct (Z.leb_spec (im_MaxAttempts m) 0); lia. }
  unfold runHandler, with_attempt, attempt, invoke, return_tokens. rewrite Hh.
  cbn -[is_dead type_sem]. change (is_Canceled (Some context_Canceled)) with true.
  cbn -[is_dead type_sem]. rewrite Hd. cbn -[type_sem].
  by destruct (type_sem reg (im_Type m)).
Qed.

Lemma shutdown_window_spends_attempt_witness :
  acks_of (erun cancelled_world (runHandler demo_engine demo_message demo_registration) ()).1.1 =
    [("id-0"%string, 3, AckFail (mkFailParams "id-0" 3 "w-1" "context canceled" 0 true))].
Proof.
  apply (shutdown_window_spends_attempt demo_engine demo_message demo_registration (mkHandler "h")).
  - reflexivity.
  - split; [reflexivity|]. vm_compute. discriminate.
Defined.

(** ** Batch attempts *)

Section BatchFacts.
Context (ok : ∀ B, eff B → B → Prop) (e : engineConfig).

Definition batch_invoked (t : list event) (reg : registration) (ms : list InboundMessage)
    (r : handler_result) : Prop :=
  match batchHandler reg with
  | Some h => Ev (InvokeBatch h ms) r ∈ t
  | None => r = Panicked (inl nil_deref)
  end.

Lemma each_silent_ok {A} (f : A → eff unit) l :
  (∀ x b, acks_of [Ev (f x) b] = [] ∧ tokens_of [Ev (f x) b] = []) →
  every ok (each (λ x, perform (f x)) l) (λ t _, acks_of t = [] ∧ tokens_of t = []).
Proof.
  intros Hf. apply (every_each ok _ (λ _ t, acks_of t = [] ∧ tokens_of t = [])).
  - intros x _ b _. apply Hf.
  - induction 1 as [|x t l ts [H1 H2] _ [IH1 IH2]]; [done|]. simpl.
    by rewrite acks_of_app, tokens_of_app, H1, H2, IH1, IH2.
Qed.

Lemma invokeBatch_ok reg ms :
  every ok (invokeBatch reg ms) (λ t r, batch_invoked t reg ms r ∧ acks_of t = [] ∧ tokens_of t = []).
Proof.
  unfold invokeBatch, batch_invoked. destruct (batchHandler reg); simpl; intros; split_and!; try done. left.
Qed.

(** One justified acknowledgement per message, in order. *)
Definition acked_each (t0 : list event) (ms : list InboundMessage) (c : handlerConfig)
    (err : option error) (t : list event) : Prop :=
  ∃ ks, acks_of t = zip_with (λ m k, (im_ID m, im_Attempt m, k)) ms ks ∧
    Forall2 (λ m k, verdict (t0 ++ t) (workerID e) m c err k) ms ks ∧ tokens_of t = [].

Lemma commit_each_ok ms c err o t0 :
  outcome_ok t0 err o →
  every ok (each (λ m, commitOutcome e m c err o) ms) (λ t _, acked_each t0 ms c err t).
Proof.
  intros Ho. apply (every_each ok _ (λ m t, acked_once e t0 m c err t)).
  - intros m _. by apply commitOutcome_ok.
  - induction 1 as [|m t ms ts [(k & Hk & Hv) Ht] _ (ks & IH1 & IH2 & IH3)]; simpl.
    + by exists [].
    + exists (k :: ks). simpl. rewrite acks_of_app, tokens_of_app, Hk, IH1, Ht, IH3.
      split_and!; try done. constructor.
      * eapply verdict_mono; [|exact Hv]. set_solver.
      * eapply Forall2_impl; [exact IH2|]. intros m' k' Hv'. eapply verdict_mono; [|exact Hv'].
        set_solver.
Qed.

Lemma batch_attempt_ok ms reg :
  every ok (batch_attempt e ms reg) (λ t _, ∃ r ks, batch_invoked t reg ms r ∧
    acks_of t = zip_with (λ m k, (im_ID m, im_Attempt m, k)) ms ks ∧
    Forall2 (λ m k, verdict t (workerID e) m (cfg reg) (safeInvokeBatch r) k) ms ks ∧
    (safeInvokeBatch r = None → Forall (eq AckSuccess) ks) ∧ tokens_of t = []).
Proof.
  unfold batch_attempt. apply every_bind.
  eapply every_mono; [|by apply each_silent_ok]. intros t0 [] [H0 H0']. apply every_bind.
  eapply every_mono; [|by apply each_silent_ok]. intros t1 [] [H1 H1'].
  apply every_bind, every_perform; intros start _. apply every_bind.
  eapply every_mono; [|apply invokeBatch_ok]. intros ti r (Hi & Hi1 & Hi2).
  apply every_bind, every_perform; intros stop _. apply every_bind.
  eapply every_mono; [|by apply each_silent_ok]. intros te [] [He He']. apply every_bind.
  eapply every_mono; [|apply resolveOutcome_ok]. intros to o (Ho & Ho1 & Ho2). apply every_bind.
  eapply every_mono; [|by apply each_silent_ok]. intros t2 [] [H2 H2'].
  eapply every_mono; [|apply (commit_each_ok ms (cfg reg) (safeInvokeBatch r) o to Ho)].
  intros tc [] (ks & Hk & Hv & Hk2).
  assert (Forall2 (λ m k, verdict
    (t0 ++ t1 ++ [Ev Now start] ++ ti ++ [Ev Now stop] ++ te ++ to ++ t2 ++ tc)
    (workerID e) m (cfg reg) (safeInvokeBatch r) k) ms ks) as Hv'.
  { eapply Forall2_impl; [exact Hv|]. intros m k Hmk. eapply verdict_mono; [|exact Hmk]. set_solver. }
  exists r, ks. split_and!.
  - unfold batch_invoked in *. destruct (batchHandler reg); [|done]. set_solver.
  - rewrite !acks_of_app, H0, H1, Hi1, He, Ho1, H2, Hk. done.
  - exact Hv'.
  - intros Hnone. rewrite Hnone in Hv. clear -Hv.
    induction Hv as [|m k ms ks Hmk _ IH]; constructor; [by inversion Hmk|done].
  - rewrite !tokens_of_app, H0', H1', Hi2, He', Ho2, H2', Hk2. done.
Qed.
End BatchFacts.

(** A batch attempt is all-or-nothing and misses no message.  On every path
    the batch handler is invoked once on the whole batch and then every message
    gets exactly one acknowledgement, in order, each the one that message's
    budget and the shared result call for; in particular a nil result
    acknowledges all of them as successes.  The tokens are given back. *)
Theorem batch_attempt_acked_exactly_once e ms reg :
  every world_ok (runBatchHandler e ms reg) (λ t _, ∃ r ks, batch_invoked t reg ms r ∧
    acks_of t = zip_with (λ m k, (im_ID m, im_Attempt m, k)) ms ks ∧
    Forall2 (λ m k, verdict t (workerID e) m (cfg reg) (safeInvokeBatch r) k) ms ks ∧
    (safeInvokeBatch r = None → Forall (eq AckSuccess) ks) ∧
    tokens_of t = given_back (type_sem reg (default ""%string (im_Type <$> head ms)))).
Proof.
  eapply (with_attempt_ok world_ok); [apply batch_attempt_ok|].
  intros t1 t t2 (r & ks & Hi & Hk & Hv & Hn & Ht) Ha Htk. exists r, ks.
  split_and!; [|by rewrite Ha| |done|by rewrite Htk, Ht].
  - unfold batch_invoked in *. destruct (batchHandler reg); [|done]. set_solver.
  - eapply Forall2_impl; [exact Hv|]. intros m k Hmk. eapply verdict_mono; [|exact Hmk]. set_solver.
Qed.
