(* ===== verification/EngineDispatch.v ===== *)
(** * Correctness of the claim loop, lease extension and the ack flusher

    What pollOnce does with the messages it claimed, which tokens its
    goroutines hold, how the polling delay evolves, when leases are extended,
    and what the flusher sends to storage. *)

From S2P Require Import Prelude GoErrors GoFloat Retry Message Effects Registry Engine EngineFacts.

(** ** What a poll did *)

Definition tasks_of (t : list event) : list task :=
  omap (λ ev, match ev with Ev ef _ => match ef with Go tk => Some tk | _ => None end end) t.

Definition task_messages (tk : task) : list InboundMessage :=
  match tk with runHandlerTask m _ => [m] | runBatchHandlerTask ms _ => ms end.

(** The messages claimed without error. *)
Definition claim_of (ev : event) : option (list InboundMessage) :=
  match ev with
  | Ev ef b =>
    match ef in eff B return B → option (list InboundMessage) with
    | Call c =>
      match c in call B return B → option (list InboundMessage) with
      | StClaim _ => λ r, match r.2 with None => Some r.1 | Some _ => None end
      | _ => λ _, None
      end
    | _ => λ _, None
    end b
  end.

Definition claimed_of (t : list event) : list InboundMessage := concat (omap claim_of t).

(** The (id, attempt) pairs handed to a goroutine or acknowledged in a trace. *)
Definition msg_key (m : InboundMessage) : MessageID * Z := (im_ID m, im_Attempt m).

Definition disposed (t : list event) : list (MessageID * Z) :=
  (fst <$> acks_of t) ++ (msg_key <$> concat (task_messages <$> tasks_of t)).

Lemma tasks_of_app t t' : tasks_of (t ++ t') = tasks_of t ++ tasks_of t'.
Proof. apply omap_app. Qed.

Lemma claimed_of_app t t' : claimed_of (t ++ t') = claimed_of t ++ claimed_of t'.
Proof. unfold claimed_of. by rewrite omap_app, concat_app. Qed.

Lemma disposed_app t t' : disposed (t ++ t') ≡ₚ disposed t ++ disposed t'.
Proof.
  unfold disposed. rewrite acks_of_app, tasks_of_app, !fmap_app, concat_app, fmap_app.
  rewrite <- !app_assoc. apply Permutation_app_head.
  rewrite !app_assoc. apply Permutation_app_tail. apply Permutation_app_comm.
Qed.

(** Tokens taken and tokens given back. *)
Definition taken (t : list event) : list sem :=
  omap (λ x : sem * bool, if x.2 then Some x.1 else None) (tokens_of t).
Definition returned (t : list event) : list sem :=
  omap (λ x : sem * bool, if x.2 then None else Some x.1) (tokens_of t).

(** The tokens a goroutine holds, which it returns when it ends. *)
Definition task_tokens (tk : task) : list sem :=
  globalPool :: match tk with
                | runHandlerTask m reg => option_list (type_sem reg (im_Type m))
                | runBatchHandlerTask ms reg =>
                  option_list (type_sem reg (default ""%string (im_Type <$> head ms)))
                end.

Lemma taken_app t t' : taken (t ++ t') = taken t ++ taken t'.
Proof. unfold taken. by rewrite tokens_of_app, omap_app. Qed.

Lemma returned_app t t' : returned (t ++ t') = returned t ++ returned t'.
Proof. unfold returned. by rewrite tokens_of_app, omap_app. Qed.

(** Every token is held by exactly one started goroutine. *)
Definition tokens_balanced (t : list event) : Prop :=
  taken t ≡ₚ returned t ++ concat (task_tokens <$> tasks_of t).

Lemma tokens_balanced_app t t' :
  tokens_balanced t → tokens_balanced t' → tokens_balanced (t ++ t').
Proof.
  unfold tokens_balanced. rewrite taken_app, returned_app, tasks_of_app, fmap_app, concat_app.
  intros -> ->. rewrite <- !app_assoc. apply Permutation_app_head.
  rewrite !app_assoc. apply Permutation_app_tail, Permutation_app_comm.
Qed.

(** A started goroutine gets messages its registration handles: one for a
    single handler; for a batch handler one or more of the same type, at most
    [maxBatchSize] when that is positive. *)
Definition routed (e : engineConfig) (tk : task) : Prop :=
  match tk with
  | runHandlerTask m reg =>
    registry e !! im_Type m = Some reg ∧ batchHandler reg = None
  | runBatchHandlerTask ms reg =>
    ms ≠ [] ∧ is_Some (batchHandler reg) ∧
    Forall (λ m, registry e !! im_Type m = Some reg) ms ∧
    (∃ et, Forall (λ m, im_Type m = et) ms) ∧
    (0 < maxBatchSize (cfg reg) → Z.of_nat (length ms) ≤ maxBatchSize (cfg reg))
  end.

(** The three facts about one piece of the poll that dealt with [ms]. *)
Definition dealt (e : engineConfig) (ms : list InboundMessage) (t : list event) : Prop :=
  disposed t ≡ₚ msg_key <$> ms ∧ tokens_balanced t ∧ Forall (routed e) (tasks_of t) ∧
  claimed_of t = [].

Lemma dealt_nil e : dealt e [] [].
Proof. split_and!; [done|by unfold tokens_balanced|constructor|done]. Qed.

Lemma dealt_app e ms ms' t t' : dealt e ms t → dealt e ms' t' → dealt e (ms ++ ms') (t ++ t').
Proof.
  intros (H1 & H2 & H3 & H4) (H1' & H2' & H3' & H4'). split_and!.
  - rewrite disposed_app, H1, H1'. by rewrite fmap_app.
  - by apply tokens_balanced_app.
  - rewrite tasks_of_app. by apply Forall_app.
  - by rewrite claimed_of_app, H4, H4'.
Qed.

Lemma dealt_perm e ms ms' t : ms ≡ₚ ms' → dealt e ms t → dealt e ms' t.
Proof. intros Hp (H1 & ?). split; [|done]. by rewrite H1, Hp. Qed.

(** A loop deals with everything its iterations deal with. *)
Lemma dealt_each ok e {A} (f : A → eprog unit) (g : A → list InboundMessage) l :
  (∀ x, x ∈ l → every ok (f x) (λ t _, dealt e (g x) t)) →
  every ok (each f l) (λ t _, dealt e (concat (g <$> l)) t).
Proof.
  intros Hf. apply (every_each ok f (λ x t, dealt e (g x) t)); [done|]. clear Hf.
  induction 1 as [|x t l ts Hx _ IH]; [apply dealt_nil|]. simpl. by apply dealt_app.
Qed.

Lemma list_join_singletons {A} (l : list A) : concat ((λ x, [x]) <$> l) = l.
Proof. induction l as [|x l IH]; [done|]. simpl. by f_equal. Qed.

Section Dispatch.
Context (ok : ∀ B, eff B → B → Prop) (e : engineConfig).

Lemma releaseForShutdown_ok reason m :
  every ok (releaseForShutdown e reason m) (λ t _, dealt e [m] t).
Proof. intros r _. split_and!; [done|by unfold tokens_balanced|constructor|done]. Qed.

Lemma failNoHandler_ok m : every ok (failNoHandler e m) (λ t _, dealt e [m] t).
Proof.
  simpl. intros r _ [] _ [] _. split_and!; [done|by unfold tokens_balanced|constructor|done].
Qed.

(** Taking the tokens, then starting the goroutine or giving the messages back. *)
Lemma with_tokens_ok st tk abandon :
  task_tokens tk = globalPool :: option_list st → routed e tk →
  every ok abandon (λ t _, dealt e (task_messages tk) t) →
  every ok (with_tokens st (go tk) abandon) (λ t _, dealt e (task_messages tk) t).
Proof.
  intros Htk Hr Ha.
  assert (∀ t0 : list event, disposed t0 = [] → claimed_of t0 = [] → tasks_of t0 = [] →
    taken t0 = returned t0 → every ok abandon (λ t _, dealt e (task_messages tk) (t0 ++ t))) as Hab.
  { intros t0 H1 H2 H3 H4. eapply every_mono; [|exact Ha]. intros t [] Hd.
    apply (dealt_app e []); [|done]. split_and!; [by rewrite H1| |by rewrite H3|done].
    unfold tokens_balanced. by rewrite H3, H4, app_nil_r. }
  unfold with_tokens. apply every_bind, every_perform. intros [] _.
  - destruct st as [s|]; simpl in Htk.
    + apply every_bind, every_perform. intros [] _.
      * intros [] _ [] _. split_and!; [| |by repeat constructor|done].
        -- unfold disposed. simpl. by rewrite app_nil_r.
        -- unfold tokens_balanced. cbn -[task_tokens]. by rewrite app_nil_r, Htk.
      * apply every_bind, every_perform. intros [] _.
        eapply every_mono; [|apply (Hab [Ev (AcquireOrDone globalPool) true; Ev (AcquireOrDone s) false;
          Ev (ReleaseToken globalPool) ()])]; done.
    + intros [] _ [] _. split_and!; [| |by repeat constructor|done].
      * unfold disposed. simpl. by rewrite app_nil_r.
      * unfold tokens_balanced. cbn -[task_tokens]. by rewrite app_nil_r, Htk.
  - eapply every_mono; [|apply (Hab [Ev (AcquireOrDone globalPool) false])]; done.
Qed.

Lemma dispatchSingle_ok m reg :
  registry e !! im_Type m = Some reg → batchHandler reg = None →
  every ok (dispatchSingle e m reg) (λ t _, dealt e [m] t).
Proof.
  intros Hl Hb. apply (with_tokens_ok _ (runHandlerTask m reg)); [done|done|].
  apply releaseForShutdown_ok.
Qed.

(** Chunks: consecutive, none empty, none longer than the size. *)
Lemma chunks_concat fuel size l :
  (0 < size)%nat → (length l <= fuel)%nat → concat (chunks fuel size l) = l.
Proof.
  intros Hs. revert l. induction fuel as [|fuel IH]; intros [|m l] Hl; simpl in *; try done; [lia|].
  change (take size (m :: l) ++ concat (chunks fuel size (drop size (m :: l))) = m :: l).
  rewrite IH, take_drop; [done|]. rewrite length_drop. simpl. lia.
Qed.

Lemma chunks_elem fuel size l c :
  (0 < size)%nat → c ∈ chunks fuel size l →
  c ≠ [] ∧ (length c <= size)%nat ∧ ∀ m, m ∈ c → m ∈ l.
Proof.
  intros Hs. revert l. induction fuel as [|fuel IH]; intros [|m l] Hc; simpl in Hc;
    try (by apply elem_of_nil in Hc).
  apply elem_of_cons in Hc as [->|Hc].
  - split_and!; [destruct size; [lia|done]|rewrite length_take; lia|].
    intros x. apply elem_of_take_1.
  - apply IH in Hc as (? & ? & Hsub). split_and!; try done. intros x Hx%Hsub.
    rewrite <- (take_drop size (m :: l)). apply elem_of_app. by right.
Qed.

Lemma dispatchBatches_ok msgs reg et :
  msgs ≠ [] → Forall (λ m, im_Type m = et) msgs → registry e !! et = Some reg →
  is_Some (batchHandler reg) →
  every ok (dispatchBatches e msgs reg) (λ t _, dealt e msgs t).
Proof.
  intros Hne Het Hreg Hb. unfold dispatchBatches.
  assert (0 < chunk_size reg msgs) as Hsz.
  { unfold chunk_size. destruct msgs; [done|].
    destruct (Z.leb_spec (maxBatchSize (cfg reg)) 0); simpl; [lia|].
    destruct (Z.ltb_spec (Z.of_nat (S (length msgs))) (maxBatchSize (cfg reg))); lia. }
  assert (0 < maxBatchSize (cfg reg) → chunk_size reg msgs ≤ maxBatchSize (cfg reg)) as Hcap.
  { unfold chunk_size. intros. destruct (Z.leb_spec (maxBatchSize (cfg reg)) 0); simpl; [lia|].
    destruct (Z.ltb_spec (Z.of_nat (length msgs)) (maxBatchSize (cfg reg))); lia. }
  set (cs := chunks _ _ msgs).
  assert (concat cs = msgs) as Hcs by (apply chunks_concat; lia).
  eapply every_mono; [|apply (dealt_each ok e _ id cs)].
  { intros t [] Hd. by rewrite list_fmap_id, Hcs in Hd. }
  intros c Hc. apply chunks_elem in Hc as (Hcne & Hlen & Hsub); [|lia].
  rewrite Forall_forall in Het.
  apply (with_tokens_ok _ (runBatchHandlerTask c reg)); [done| |].
  - split_and!; try done.
    + apply Forall_forall. intros m Hm. rewrite (Het m) by auto. done.
    + exists et. apply Forall_forall. auto.
    + intros Hp. specialize (Hcap Hp). lia.
  - eapply every_mono; [|apply (dealt_each ok e _ (λ m, [m]) c)].
    + intros t [] Hd. by rewrite list_join_singletons in Hd.
    + intros m _. apply releaseForShutdown_ok.
Qed.
End Dispatch.

(** ** Grouping *)

Section Poll.
Context (e : engineConfig).

Abbreviation groups := (gmap string (list InboundMessage)).

Definition groups_ok (gs : groups) : Prop :=
  ∀ et g, gs !! et = Some g → g ≠ [] ∧ Forall (λ m, im_Type m = et) g ∧
    ∃ reg, registry e !! et = Some reg ∧ is_Some (batchHandler reg).

Definition grouped (gs : groups) : list InboundMessage := concat (map_to_list gs).*2.

Lemma grouped_delete gs k :
  grouped gs ≡ₚ default [] (gs !! k) ++ grouped (delete k gs).
Proof.
  unfold grouped. destruct (gs !! k) as [g|] eqn:E; simpl; [|by rewrite delete_id].
  by rewrite <- (map_to_list_delete gs k g E).
Qed.

Lemma grouped_add gs m :
  grouped (<[im_Type m := default [] (gs !! im_Type m) ++ [m]]> gs) ≡ₚ m :: grouped gs.
Proof.
  rewrite (grouped_delete gs (im_Type m)).
  rewrite (grouped_delete (<[_ := _]> gs) (im_Type m)).
  rewrite lookup_insert_eq, delete_insert_eq. simpl.
  rewrite <- app_assoc. simpl. by rewrite Permutation_middle.
Qed.

Lemma groups_ok_add gs m reg :
  groups_ok gs → registry e !! im_Type m = Some reg → is_Some (batchHandler reg) →
  groups_ok (<[im_Type m := default [] (gs !! im_Type m) ++ [m]]> gs).
Proof.
  intros Hg Hr Hb et g Het. apply lookup_insert_Some in Het as [[<- <-]|[_ Het]]; [|by apply Hg].
  split_and!; [by destruct (default [] (gs !! im_Type m))| |by eauto].
  apply Forall_app. split; [|by repeat constructor].
  destruct (gs !! im_Type m) as [g0|] eqn:E; simpl; [|constructor]. by apply (Hg _ _ E).
Qed.

Lemma partition_ok msgs gs :
  groups_ok gs →
  every world_ok (partition e msgs gs) (λ t gs', groups_ok gs' ∧
    ∃ ms, dealt e ms t ∧ ms ++ grouped gs' ≡ₚ msgs ++ grouped gs).
Proof.
  revert gs. induction msgs as [|m msgs IH]; intros gs Hg.
  { split; [done|]. exists []. split; [apply dealt_nil|done]. }
  assert (∀ p : eprog unit, every world_ok p (λ t _, dealt e [m] t) →
    every world_ok (_ ← p; partition e msgs gs) (λ t gs', groups_ok gs' ∧
      ∃ ms, dealt e ms t ∧ ms ++ grouped gs' ≡ₚ (m :: msgs) ++ grouped gs)) as Hseq.
  { intros p Hp. eapply every_seq; [exact Hp|]. intros l [] Hl.
    eapply every_mono; [|apply (IH gs Hg)]. intros t gs' [Hg' (ms & Hd & Hms)]. split; [done|].
    exists ([m] ++ ms). split; [by apply dealt_app|]. simpl. by rewrite Hms. }
  cbn [partition]. unfold lookup_handler. destruct (registry e !! im_Type m) as [reg|] eqn:Hr.
  - destruct (batchHandler reg) as [bh|] eqn:Hb.
    + eapply every_mono; [|apply IH; eapply groups_ok_add; eauto].
      intros t gs' [Hg' (ms & Hd & Hms)]. split; [done|]. exists ms. split; [done|].
      rewrite Hms, grouped_add. simpl. by rewrite Permutation_middle.
    + by apply Hseq, dispatchSingle_ok.
  - apply Hseq, failNoHandler_ok.
Qed.

Lemma dispatch_groups_ok gs order :
  groups_ok gs → order ≡ₚ (map_to_list gs).*1 →
  every world_ok (each (dispatch_group e gs) order) (λ t _, dealt e (grouped gs) t).
Proof.
  intros Hg Ho.
  eapply every_mono; [|apply (dealt_each world_ok e _ (λ et, default [] (gs !! et)) order)].
  - intros t [] Hd. eapply dealt_perm; [|exact Hd]. unfold grouped. rewrite Ho. clear.
    induction gs as [|k g gs Hk IH] using map_ind; [done|].
    rewrite (map_to_list_insert gs k g Hk). simpl. rewrite lookup_insert_eq. simpl.
    apply Permutation_app_head. rewrite <- IH. apply reflexive_eq. f_equal.
    apply list_fmap_ext. intros i et Het. f_equal. apply lookup_insert_ne. intros <-.
    apply list_elem_of_lookup_2, list_elem_of_fmap in Het as ([k' g'] & -> & Hin).
    apply elem_of_map_to_list in Hin. simpl in *. congruence.
  - intros et Het. unfold dispatch_group.
    destruct (gs !! et) as [g|] eqn:E; [|apply dealt_nil].
    destruct (Hg et g E) as (Hne & Hall & reg & Hreg & Hb). unfold lookup_handler. rewrite Hreg.
    by eapply dispatchBatches_ok.
Qed.
End Poll.

(** C10: Every claimed message is disposed of exactly once.  On every path of a
    poll, the (id, attempt) pairs that are handed to a handler goroutine, failed
    for want of a handler or released because of shutdown are exactly those of
    the messages the Claim returned, each once, and the poll reports their
    number; when Claim fails nothing is dispatched.  Every pool token taken and
    not returned is held by exactly one started goroutine, and goroutines get
    messages their registration handles: singly, or in non-empty same-type
    chunks within MaxBatchSize. *)
Theorem poll_disposes_each_message_once e :
  every world_ok (pollOnce e) (λ t n,
    disposed t ≡ₚ msg_key <$> claimed_of t ∧ n = Z.of_nat (length (claimed_of t)) ∧
    tokens_balanced t ∧ Forall (routed e) (tasks_of t)).
Proof.
  assert (∀ t ms, dealt e ms t → claimed_of t = [] → ∀ msgs t0, disposed t0 = [] → tasks_of t0 = [] →
    taken t0 = [] → returned t0 = [] → claimed_of t0 = msgs → ms ≡ₚ msgs →
    disposed (t0 ++ t) ≡ₚ msg_key <$> claimed_of (t0 ++ t) ∧
    Z.of_nat (length msgs) = Z.of_nat (length (claimed_of (t0 ++ t))) ∧
    tokens_balanced (t0 ++ t) ∧ Forall (routed e) (tasks_of (t0 ++ t))) as Hfin.
  { intros t ms (H1 & H2 & H3 & H4) _ msgs t0 Hd Ht Hk Hr Hc Hp.
    rewrite claimed_of_app, H4, app_nil_r, Hc. split_and!; [|done| |].
    - rewrite disposed_app, Hd, H1. simpl. by rewrite Hp.
    - apply tokens_balanced_app; [|done]. unfold tokens_balanced. by rewrite Hk, Hr, Ht.
    - by rewrite tasks_of_app, Ht. }
  unfold pollOnce. apply every_bind, every_perform. intros [] _.
  { split_and!; [done|done|by unfold tokens_balanced|constructor]. }
  apply every_bind, every_perform. intros types Hty.
  destruct types as [|et types].
  { split_and!; [done|done|by unfold tokens_balanced|constructor]. }
  apply every_bind, every_perform. intros [] _.
  apply every_bind, every_perform. intros start _.
  apply every_bind, every_perform. intros [msgs err] _.
  apply every_bind, every_perform. intros [] _. destruct err as [er|].
  { intros [] _. split_and!; [done|done|by unfold tokens_balanced|constructor]. }
  apply every_bind, every_perform. intros stop _.
  apply every_bind, every_perform. intros [] _. apply every_bind.
  eapply every_mono; [|apply (partition_ok e msgs ∅)]; [|by intros ?? H%lookup_empty_Some].
  intros t1 gs [Hg (ms & Hd & Hms)]. apply every_bind, every_perform. intros order Ho.
  apply every_bind. eapply every_mono; [|by apply (dispatch_groups_ok e gs order)].
  intros t2 [] Hd2.
  assert (dealt e (ms ++ grouped gs) (t1 ++ [Ev (MapOrder (map_to_list gs).*1) order] ++ t2)) as Hall.
  { apply dealt_app; [done|]. apply (dealt_app e []); [|done].
    split_and!; [done|by unfold tokens_balanced|constructor|done]. }
  set (t0 := [Ev Stopping false; Ev (MapOrder (EventTypes (registry e))) (et :: types);
    Ev (StartSpan ClaimSpan) (); Ev Now start;
    Ev (Call (StClaim (mkClaimParams (workerID e) (batchSizeOrDefault (batchSize e))
      (leaseOrDefault (lease e)) (et :: types)))) (msgs, None);
    Ev (EndSpan ClaimSpan None) (); Ev Now stop;
    Ev (Metric (ClaimBatch (Z.of_nat (length msgs)) (batchSizeOrDefault (batchSize e)) (stop - start))) ()]).
  pose proof (Hfin _ _ Hall (proj2 (proj2 (proj2 Hall))) msgs t0 eq_refl eq_refl eq_refl eq_refl) as H.
  apply every_ret. rewrite app_nil_r. apply H.
  - unfold claimed_of. simpl. by rewrite app_nil_r.
  - rewrite Hms. unfold grouped. rewrite map_to_list_empty. simpl. by rewrite app_nil_r.
Qed.

(** ** The polling delay *)

(** The waits of the loop of [run], given what each poll claimed and what ended
    each wait. *)
Fixpoint waits (e : engineConfig) (rounds : list (Z * wakeup)) (current : Duration) : list Duration :=
  match rounds with
  | [] => []
  | (claimed, w) :: rounds =>
    let d := next_delay e claimed current in
    d :: waits e rounds (after_wait e w d)
  end.

Lemma next_delay_bounds e claimed current :
  poll_interval e ≤ 2 ^ 62 - 1 → max_backoff e ≤ 2 ^ 62 - 1 →
  0 < current ≤ Z.max (poll_interval e) (max_backoff e) →
  0 < next_delay e claimed current ≤ Z.max (poll_interval e) (max_backoff e).
Proof.
  intros H1 H2 Hc. assert (0 < poll_interval e ∧ 0 < max_backoff e) as [Hp Hm].
  { unfold poll_interval, max_backoff, Millisecond, Second.
    destruct (Z.leb_spec (pollInterval e) 0), (Z.leb_spec (pollMaxBackoff e) 0); lia. }
  unfold next_delay. destruct (0 <? claimed); [lia|].
  rewrite wrap64_id by (unfold in_int64, int64_min, int64_max; lia).
  destruct (Z.ltb_spec (max_backoff e) (current * 2)); lia.
Qed.

Lemma waits_bounds e rounds current :
  poll_interval e ≤ 2 ^ 62 - 1 → max_backoff e ≤ 2 ^ 62 - 1 →
  0 < current ≤ Z.max (poll_interval e) (max_backoff e) →
  Forall (λ d, 0 < d ≤ Z.max (poll_interval e) (max_backoff e)) (waits e rounds current).
Proof.
  intros H1 H2. revert current. induction rounds as [|[claimed w] rounds IH]; intros current Hc;
    simpl; [constructor|].
  pose proof (next_delay_bounds e claimed current H1 H2 Hc). constructor; [done|]. apply IH.
  destruct w; simpl; [done|]. unfold poll_interval, Millisecond.
  destruct (Z.leb_spec (pollInterval e) 0); lia.
Qed.

Lemma next_delay_idle e current :
  0 < current ≤ 2 ^ 62 - 1 → next_delay e 0 current = Z.min (max_backoff e) (current * 2).
Proof.
  intros Hc. unfold next_delay. simpl.
  rewrite wrap64_id by (unfold in_int64, int64_min, int64_max; lia).
  destruct (Z.ltb_spec (max_backoff e) (current * 2)); lia.
Qed.

Lemma waits_idle e k current :
  0 < max_backoff e ≤ 2 ^ 62 - 1 → 0 < current ≤ 2 ^ 62 - 1 →
  last (waits e (replicate (S k) (0, TimerFired)) current) =
    Some (Z.min (max_backoff e) (current * 2 ^ Z.of_nat (S k))).
Proof.
  intros Hm. revert current. induction k as [|k IH]; intros current Hc.
  - simpl. by rewrite next_delay_idle.
  - change (replicate (S (S k)) (0, TimerFired)) with ((0, TimerFired) :: replicate (S k) (0, TimerFired)).
    cbn [waits after_wait]. rewrite next_delay_idle by done.
    change (last (?x :: waits e (replicate (S k) ?y) ?z)) with (last (waits e (replicate (S k) y) z)).
    rewrite IH by lia. f_equal. rewrite (Nat2Z.inj_succ (S k)), (Z.pow_succ_r 2 (Z.of_nat (S k))) by lia.
    pose proof (Z.pow_pos_nonneg 2 (Z.of_nat (S k)) ltac:(lia) ltac:(lia)) as Hpow.
    generalize dependent (2 ^ Z.of_nat (S k)). intros P HP.
    destruct (Z.min_spec (max_backoff e) (current * 2)) as [[? ->]|[? ->]]; nia.
Qed.

(** Idle polling backs off exponentially and within bounds.  With intervals
    below 2^62 ns (so that doubling cannot overflow an int64), every wait of the
    claim loop is positive and at most the larger of the poll interval and the
    maximum backoff, whatever the polls claim and whatever wakes the loop; a
    poll that claimed something is followed by a wait of the poll interval; and
    after k+1 consecutive idle polls the wait is
    min(maxBackoff, interval * 2^(k+1)). *)
Theorem poll_delay_backoff e rounds k :
  poll_interval e ≤ 2 ^ 62 - 1 → max_backoff e ≤ 2 ^ 62 - 1 →
  Forall (λ d, 0 < d ≤ Z.max (poll_interval e) (max_backoff e)) (waits e rounds (poll_interval e)) ∧
  (∀ claimed current, 0 < claimed → next_delay e claimed current = poll_interval e) ∧
  last (waits e (replicate (S k) (0, TimerFired)) (poll_interval e)) =
    Some (Z.min (max_backoff e) (poll_interval e * 2 ^ Z.of_nat (S k))).
Proof.
  intros H1 H2. assert (0 < poll_interval e ∧ 0 < max_backoff e) as [Hp Hm].
  { unfold poll_interval, max_backoff, Millisecond, Second.
    destruct (Z.leb_spec (pollInterval e) 0), (Z.leb_spec (pollMaxBackoff e) 0); lia. }
  split_and!.
  - apply waits_bounds; lia.
  - intros claimed current Hc. unfold next_delay. by destruct (Z.ltb_spec 0 claimed); [|lia].
  - apply waits_idle; lia.
Qed.

Lemma poll_delay_backoff_witness :
  waits demo_engine (replicate 6 (0, TimerFired)) (poll_interval demo_engine) =
    [200 * Millisecond; 400 * Millisecond; 800 * Millisecond; 1600 * Millisecond; 2 * Second; 2 * Second] ∧
  last (waits demo_engine (replicate 6 (0, TimerFired)) (poll_interval demo_engine)) =
    Some (Z.min (max_backoff demo_engine) (poll_interval demo_engine * 2 ^ 6)).
Proof.
  split; [vm_compute; reflexivity|].
  apply (poll_delay_backoff demo_engine [] 5); vm_compute; discriminate.
Defined.

(** ** Lease extension *)

(** The Extend calls of a trace: id, deadline and answer. *)
Definition extend_of (ev : event) : option (MessageID * Time * (bool * option error)) :=
  match ev with
  | Ev ef b =>
    match ef in eff B return B → _ with
    | Call c =>
      match c in call B return B → _ with
      | StExtend id _ until => λ r, Some (id, until, r)
      | _ => λ _, None
      end
    | _ => λ _, None
    end b
  end.

Definition cancels (t : list event) : bool :=
  existsb (λ ev, match ev with Ev ef _ => match ef with CancelAttempt => true | _ => false end end) t.

(** The Extend calls of one tick: a prefix of the messages, to one deadline,
    up to the first lost lease. *)
Definition extended (e : engineConfig) (ms : list InboundMessage) (until : Time) (go_on : bool)
    (t : list event) : Prop :=
  ∃ rs, omap extend_of t = zip_with (λ m r, (im_ID m, until, r)) ms rs ∧
    (length rs <= length ms)%nat ∧ cancels t = negb go_on ∧
    if go_on then length rs = length ms ∧ (false, None) ∉ rs
    else ∃ rs0, rs = rs0 ++ [(false, None)] ∧ (false, None) ∉ rs0.

Lemma extended_cons e m ms until go_on r t t' :
  r ≠ (false, None) → extended e ms until go_on t' →
  omap extend_of t = [(im_ID m, until, r)] → cancels t = false →
  extended e (m :: ms) until go_on (t ++ t').
Proof.
  intros Hr (rs & H1 & H2 & H3 & H4) Ht Hc. exists (r :: rs). rewrite omap_app, Ht, H1. simpl.
  split_and!; [done|lia|by unfold cancels in *; rewrite existsb_app, Hc|].
  destruct go_on.
  - destruct H4. split; [lia|]. rewrite not_elem_of_cons. done.
  - destruct H4 as (rs0 & -> & ?). exists (r :: rs0). split; [done|]. by rewrite not_elem_of_cons.
Qed.

Lemma extend_all_ok e until ms :
  every world_ok (extend_all e until ms) (λ t go_on, extended e ms until go_on t).
Proof.
  induction ms as [|m ms IH]; cbn [extend_all].
  { apply every_ret. exists []. split_and!; try done. apply not_elem_of_nil. }
  apply every_bind, every_perform. intros [ok err] _. destruct err as [er|].
  - apply every_bind, every_perform. intros [] _. eapply every_mono; [|apply IH]. intros t go_on Ht.
    by apply (extended_cons e m ms until go_on (ok, Some er) [_; _] t).
  - destruct ok.
    + eapply every_mono; [|apply IH]. intros t go_on Ht.
      by apply (extended_cons e m ms until go_on (true, None) [_] t).
    + apply every_bind, every_perform. intros [] _. apply every_bind, every_perform. intros [] _.
      apply every_ret. exists [(false, None)]. simpl. split_and!; [by destruct ms|lia|done|].
      exists []. split; [done|]. apply not_elem_of_nil.
Qed.

(** Live handlers keep their leases, and a lost lease cancels the attempt.
    Each tick of the extender reads the clock once and extends the messages of
    the attempt in order, all to that time plus the lease; an error is passed
    over, and exactly when storage answers, without error, that a row is no
    longer owned, the remaining messages are left alone, the attempt is
    cancelled and the extender ends.  With a lease of at least 300 ms the ticks
    come at least three times per lease, so that one failed extension does not
    lose it. *)
Theorem lease_extension e ms :
  every world_ok (extend_tick e ms) (λ t go_on, ∃ now,
    Ev Now now ∈ t ∧ extended e ms (now + leaseOrDefault (lease e)) go_on t) ∧
  (300 * Millisecond ≤ leaseOrDefault (lease e) →
   0 < extend_interval e ∧ 3 * extend_interval e ≤ leaseOrDefault (lease e)).
Proof.
  split.
  - unfold extend_tick. apply every_bind, every_perform. intros now _.
    eapply every_mono; [|apply extend_all_ok]. intros t go_on Ht. exists now. split; [left|]. done.
  - unfold extend_interval, Millisecond. intros Hl.
    rewrite Z.quot_div_nonneg by lia.
    pose proof (Z.mul_div_le (leaseOrDefault (lease e)) 3).
    pose proof (Z.div_le_lower_bound (leaseOrDefault (lease e)) 3 (100 * 1000000)). lia.
Qed.

(** ** The ack flusher *)

Definition flushed_of (ev : event) : option (list BatchSucceedParam) :=
  match ev with
  | Ev ef _ => match ef with Call c => match c with StBatchSucceed ps => Some ps | _ => None end | _ => None end
  end.

Definition received (inputs : list flush_input) : list BatchSucceedParam :=
  omap (λ i, match i with FlushRecv p => Some p | _ => None end) inputs.

Lemma flush_ok buf :
  every world_ok (flush buf) (λ t _, omap flushed_of t = match buf with [] => [] | _ => [buf] end).
Proof.
  unfold flush. destruct buf as [|p buf]; [done|].
  apply every_bind, every_perform. intros [er|] _; [|done]. by intros [] _.
Qed.

(** What one turn sends and keeps. *)
Definition turned (e : engineConfig) (i : flush_input) (buf : list BatchSucceedParam)
    (t : list event) (r : option (list BatchSucceedParam)) : Prop :=
  concat (omap flushed_of t) ++ default [] r = buf ++ received [i] ∧
  Forall (λ b, b ≠ [] ∧ Z.of_nat (length b) ≤ batchSizeOrDefault (batchSize e)) (omap flushed_of t) ∧
  (r = None ↔ i = FlushClosed) ∧
  Z.of_nat (length (default [] r)) < batchSizeOrDefault (batchSize e).

Lemma batch_size_pos e : 0 < batchSizeOrDefault (batchSize e).
Proof. unfold batchSizeOrDefault. destruct (Z.leb_spec (batchSize e) 0); lia. Qed.

Lemma flush_turn_ok e i buf :
  Z.of_nat (length buf) < batchSizeOrDefault (batchSize e) →
  every world_ok (flush_turn e i buf) (turned e i buf).
Proof.
  intros Hb. pose proof (batch_size_pos e) as Hn. unfold turned. set (n := batchSizeOrDefault (batchSize e)) in *.
  assert (∀ b r, Z.of_nat (length b) ≤ n → default [] r = [] →
    every world_ok (_ ← flush b; mret r) (λ t r', r' = r ∧ concat (omap flushed_of t) ++ default [] r' = b ∧
      Forall (λ b, b ≠ [] ∧ Z.of_nat (length b) ≤ n) (omap flushed_of t))) as Hflush.
  { intros b r Hlen Hr. eapply every_seq; [apply flush_ok|]. intros t [] Ht. apply every_ret.
    rewrite app_nil_r, Ht, Hr, app_nil_r. destruct b; simpl; [done|]. rewrite app_nil_r.
    split_and!; [done..|]. by constructor. }
  assert (∀ b r, Z.of_nat (length b) ≤ n → default [] r = [] → b = buf ++ received [i] →
    (r = None ↔ i = FlushClosed) → every world_ok (_ ← flush b; mret r) (λ t r',
      concat (omap flushed_of t) ++ default [] r' = buf ++ received [i] ∧
      Forall (λ b, b ≠ [] ∧ Z.of_nat (length b) ≤ n) (omap flushed_of t) ∧
      (r' = None ↔ i = FlushClosed) ∧ Z.of_nat (length (default [] r')) < n)) as Hturn.
  { intros b r Hlen Hr -> Hi. eapply every_mono; [|by apply (Hflush _ r)].
    intros t r' (-> & H1 & H2). rewrite Hr in *. simpl. split_and!; try done. }
  destruct i as [p| |]; cbn [flush_turn].
  - fold n. destruct (Z.leb_spec n (Z.of_nat (length (buf ++ [p])))) as [Hle|Hlt].
    + apply Hturn; try done. rewrite length_app in *. simpl in *. lia.
    + apply every_ret. split_and!; try done.
  - apply Hturn; try done; [lia|]. by rewrite app_nil_r.
  - apply Hturn; try done; [lia|]. by rewrite app_nil_r.
Qed.

Lemma ackFlusher_ok e pre buf :
  FlushClosed ∉ pre → Z.of_nat (length buf) < batchSizeOrDefault (batchSize e) →
  every world_ok (ackFlusher e (pre ++ [FlushClosed]) buf) (λ t rest, rest = [] ∧
    concat (omap flushed_of t) = buf ++ received pre ∧
    Forall (λ b, b ≠ [] ∧ Z.of_nat (length b) ≤ batchSizeOrDefault (batchSize e)) (omap flushed_of t)).
Proof.
  revert buf. induction pre as [|i pre IH]; intros buf Hpre Hb; cbn [app ackFlusher].
  - eapply every_seq; [by apply flush_turn_ok|]. intros t r (H1 & H2 & [_ H3] & _).
    rewrite (H3 eq_refl) in *. apply every_ret. simpl in *. rewrite !app_nil_r in *. done.
  - apply not_elem_of_cons in Hpre as [Hi Hpre].
    eapply every_seq; [by apply flush_turn_ok|]. intros t r (H1 & H2 & [H3 _] & H4).
    destruct r as [buf'|]; [|by destruct Hi; symmetry; apply H3].
    eapply every_mono; [|by apply (IH buf' Hpre)]. intros t' rest (-> & H5 & H6).
    rewrite omap_app, concat_app, H5, app_assoc. simpl in H1. rewrite H1, <- app_assoc.
    split_and!; [done| |by apply Forall_app].
    f_equal. by destruct i.
Qed.

(** The ack flusher loses and repeats nothing.  Whatever the interleaving of
    completions and flush ticks, once the channel is closed every success
    posted to it has been sent to storage in exactly one BatchSucceed, in the
    order posted, in non-empty batches of at most the batch size, and the
    buffer is empty.  (A batch that storage refuses is reported and not
    resent; its leases then expire.) *)
Theorem flusher_sends_each_ack_once e inputs :
  FlushClosed ∉ inputs →
  every world_ok (ackFlusher e (inputs ++ [FlushClosed]) []) (λ t rest, rest = [] ∧
    concat (omap flushed_of t) = received inputs ∧
    Forall (λ b, b ≠ [] ∧ Z.of_nat (length b) ≤ batchSizeOrDefault (batchSize e)) (omap flushed_of t)).
Proof.
  intros H. apply (ackFlusher_ok e inputs []); [done|]. simpl. unfold batchSizeOrDefault.
  destruct (Z.leb_spec (batchSize e) 0); lia.
Qed.

Lemma flusher_sends_each_ack_once_witness :
  let p1 := mkBatchSucceedParam "a" 1 "w" in
  let p2 := mkBatchSucceedParam "b" 1 "w" in
  every world_ok (ackFlusher demo_engine [FlushRecv p1; FlushTick; FlushRecv p2; FlushClosed] [])
    (λ t _, concat (omap flushed_of t) = [p1; p2]).
Proof.
  cbv zeta. set (p1 := mkBatchSucceedParam "a" 1 "w"). set (p2 := mkBatchSucceedParam "b" 1 "w").
  eapply every_mono; [|apply (flusher_sends_each_ack_once demo_engine [FlushRecv p1; FlushTick; FlushRecv p2])].
  - intros t rest (_ & H & _). exact H.
  - rewrite !not_elem_of_cons. split; [discriminate|]. split; [discriminate|]. split; [discriminate|].
    apply not_elem_of_nil.
Defined.
