(* ===== verification/EngineConc.v ===== *)
(** * The engine's goroutines and channels (engine.go: newEngine, run, drain,
      semaphore, ackFlusher)

    The run loop, the handler goroutines it starts, the ack flusher and the
    goroutine in which drain waits, interleaved at their synchronisation
    operations.  The bodies are the programs of file Engine; here their
    channel, wait-group and context operations act on one shared state, and
    everything else is answered by the outside.  Sends and receives that would
    block are steps that are not enabled; a send on a closed channel and a
    negative wait group are panics ([panics]). *)

From S2P Require Import Prelude GoErrors GoFloat Retry Message Effects Registry Engine.

#[export] Instance sem_eq_dec : EqDecision sem.
Proof. solve_decision. Defined.

(** ** The shared state *)

Section Conc.
Context (e : engineConfig).

(** newEngine's defaults: the capacities of globalPool and succeedCh *)
Definition pool_size : Z := if poolSize e <=? 0 then 32 else poolSize e.
Definition ack_capacity : Z := batchSizeOrDefault (batchSize e) * 4.

(** [sh_pool]: tokens in globalPool; [sh_types]: perTypeInflight, the tokens
    and the capacity of each semaphore made so far; [sh_ch]: the buffer of
    succeedCh. *)
Record shared := mkShared {
  sh_ctx : bool;                       (* ctx.Done() is closed *)
  sh_stopping : bool;
  sh_pool : Z;
  sh_types : gmap string (Z * Z);
  sh_inflight : Z;
  sh_ch : list BatchSucceedParam;
  sh_closed : bool;
}.

(** [e.semaphore(eventType, capacity)]: tokens in use and capacity, the capacity
    of the first call. *)
Definition semaphore (sh : shared) (s : sem) : Z * Z :=
  match s with
  | globalPool => (sh_pool sh, pool_size)
  | perTypeSem et c => default (0, c) (sh_types sh !! et)
  end.

Definition set_tokens (s : sem) (n : Z) (sh : shared) : shared :=
  match s with
  | globalPool => mkShared (sh_ctx sh) (sh_stopping sh) n (sh_types sh) (sh_inflight sh)
                    (sh_ch sh) (sh_closed sh)
  | perTypeSem et _ =>
    mkShared (sh_ctx sh) (sh_stopping sh) (sh_pool sh)
      (<[et := (n, (semaphore sh s).2)]> (sh_types sh)) (sh_inflight sh) (sh_ch sh) (sh_closed sh)
  end.

Definition set_inflight (n : Z) (sh : shared) : shared :=
  mkShared (sh_ctx sh) (sh_stopping sh) (sh_pool sh) (sh_types sh) n (sh_ch sh) (sh_closed sh).
Definition set_ch (l : list BatchSucceedParam) (sh : shared) : shared :=
  mkShared (sh_ctx sh) (sh_stopping sh) (sh_pool sh) (sh_types sh) (sh_inflight sh) l (sh_closed sh).
Definition set_closed (sh : shared) : shared :=
  mkShared (sh_ctx sh) (sh_stopping sh) (sh_pool sh) (sh_types sh) (sh_inflight sh) (sh_ch sh) true.
Definition set_ctx (sh : shared) : shared :=
  mkShared true (sh_stopping sh) (sh_pool sh) (sh_types sh) (sh_inflight sh) (sh_ch sh) (sh_closed sh).
Definition set_stopping (sh : shared) : shared :=
  mkShared (sh_ctx sh) true (sh_pool sh) (sh_types sh) (sh_inflight sh) (sh_ch sh) (sh_closed sh).

(** ** Operations on it *)

(** The operation can complete with the answer [b]. *)
Definition ready (sh : shared) (B : Type) (ef : eff B) : B → Prop :=
  match ef in eff B' return B' → Prop with
  | AcquireOrDone s => λ got, if (got : bool) then (semaphore sh s).1 < (semaphore sh s).2
                              else sh_ctx sh = true
  | ReleaseToken s => λ _, 0 < (semaphore sh s).1
  | SendAck _ => λ _, sh_closed sh = false ∧ Z.of_nat (length (sh_ch sh)) < ack_capacity
  | InflightDone => λ _, 0 < sh_inflight sh
  | ParentDone => λ b, b = sh_ctx sh
  | Stopping => λ b, b = sh_stopping sh
  | _ => λ _, True
  end.

Definition perform_on (sh : shared) (B : Type) (ef : eff B) : B → shared :=
  match ef in eff B' return B' → shared with
  | AcquireOrDone s => λ got, set_tokens s ((semaphore sh s).1 + (if (got : bool) then 1 else 0)) sh
  | ReleaseToken s => λ _, set_tokens s ((semaphore sh s).1 - 1) sh
  | SendAck p => λ _, set_ch (sh_ch sh ++ [p]) sh
  | InflightAdd => λ _, set_inflight (sh_inflight sh + 1) sh
  | InflightDone => λ _, set_inflight (sh_inflight sh - 1) sh
  | _ => λ _, sh
  end.

(** The operation would panic: a send on a closed channel, a negative
    wait-group counter. *)
Definition panics (sh : shared) {B : Type} (ef : eff B) : Prop :=
  match ef with
  | SendAck _ => sh_closed sh = true
  | InflightDone => sh_inflight sh ≤ 0
  | _ => False
  end.

Definition task_body (t : task) : eprog unit :=
  match t with
  | runHandlerTask m reg => runHandler e m reg
  | runBatchHandlerTask ms reg => runBatchHandler e ms reg
  end.

Definition spawned {B : Type} (ef : eff B) : list (eprog unit) :=
  match ef with Go t => [task_body t] | _ => [] end.
Definition posted {B : Type} (ef : eff B) : list BatchSucceedParam :=
  match ef with SendAck p => [p] | _ => [] end.
Definition committed {B : Type} (ef : eff B) : list BatchSucceedParam :=
  match ef with Call (StBatchSucceed ps) => ps | _ => [] end.

(** ** The goroutines *)

(** The run loop: the top of the loop, inside pollOnce, at the second select,
    in drain, returned. *)
Inductive main_state :=
| MTop (delay : Duration)
| MPoll (delay : Duration) (p : eprog Z)
| MWait (delay : Duration)
| MDrain
| MReturned (err : option error).

(** The flusher: absent without a BatchAcker, at its select, in a turn, returned
    (ackFlusherDone closed). *)
Inductive flusher :=
| NoFlusher
| FSelect (buf : list BatchSucceedParam)
| FTurn (p : eprog (option (list BatchSucceedParam)))
| FDone.

(** The goroutine drain starts: not yet, in inflight.Wait, in the receive from
    ackFlusherDone, past close(done). *)
Inductive waiter := WNone | WWait | WFlush | WDone.

(** [sy_posted], [sy_flushed]: the acknowledgements sent to succeedCh and those
    handed to BatchSucceed so far. *)
Record sys := mkSys {
  sy_sh : shared;
  sy_main : main_state;
  sy_go : list (eprog unit);
  sy_fl : flusher;
  sy_wait : waiter;
  sy_posted : list BatchSucceedParam;
  sy_flushed : list BatchSucceedParam;
}.

Definition newEngine : sys :=
  mkSys (mkShared false false 0 ∅ 0 [] false) (MTop (poll_interval e)) []
    (if hasBatchAcker e then FSelect [] else NoFlusher) WNone [] [].

Definition on_sh (f : shared → shared) (s : sys) : sys :=
  mkSys (f (sy_sh s)) (sy_main s) (sy_go s) (sy_fl s) (sy_wait s) (sy_posted s) (sy_flushed s).
Definition with_main (m : main_state) (s : sys) : sys :=
  mkSys (sy_sh s) m (sy_go s) (sy_fl s) (sy_wait s) (sy_posted s) (sy_flushed s).
Definition with_go (l : list (eprog unit)) (s : sys) : sys :=
  mkSys (sy_sh s) (sy_main s) l (sy_fl s) (sy_wait s) (sy_posted s) (sy_flushed s).
Definition with_fl (f : flusher) (s : sys) : sys :=
  mkSys (sy_sh s) (sy_main s) (sy_go s) f (sy_wait s) (sy_posted s) (sy_flushed s).
Definition with_wait (w : waiter) (s : sys) : sys :=
  mkSys (sy_sh s) (sy_main s) (sy_go s) (sy_fl s) w (sy_posted s) (sy_flushed s).

(** The effect of the run loop or of a handler goroutine. *)
Definition act {B : Type} (ef : eff B) (b : B) (s : sys) : sys :=
  mkSys (perform_on (sy_sh s) B ef b) (sy_main s) (sy_go s ++ spawned ef) (sy_fl s) (sy_wait s)
    (sy_posted s ++ posted ef) (sy_flushed s).

Definition flush_act {B : Type} (ef : eff B) (s : sys) : sys :=
  mkSys (sy_sh s) (sy_main s) (sy_go s) (sy_fl s) (sy_wait s) (sy_posted s)
    (sy_flushed s ++ committed ef).

(** [return e.drain()]: the stopping flag, and the waiting goroutine. *)
Definition begin_drain (s : sys) : sys :=
  with_wait WWait (with_main MDrain (on_sh set_stopping s)).

Definition grace_error : error :=
  errorString "tickr: shutdown grace exceeded with in-flight handlers".

(** ** Steps *)

(** Who takes a step. *)
Inductive actor := ACancel | ARun | AWake (w : wakeup) | AGrace | AWaiter | AHandler (i : nat) | AFlusher | ATicker.

Inductive sys_step : actor → sys → sys → Prop :=
(* the context is cancelled *)
| st_cancel s : sys_step ACancel s (on_sh set_ctx s)
(* run *)
| st_top_drain s d : sy_main s = MTop d → sh_ctx (sy_sh s) = true → sys_step ARun s (begin_drain s)
| st_top_poll s d :
    sy_main s = MTop d → sh_ctx (sy_sh s) = false →
    sys_step ARun s (with_main (MPoll d (pollOnce e)) s)
| st_poll s d B ef k b :
    sy_main s = MPoll d (@EDo _ B ef k) → ready (sy_sh s) B ef b → world_ok B ef b →
    sys_step ARun s (with_main (MPoll d (k b)) (act ef b s))
| st_polled s d n : sy_main s = MPoll d (ERet n) → sys_step ARun s (with_main (MWait (next_delay e n d)) s)
| st_wait_drain s d : sy_main s = MWait d → sh_ctx (sy_sh s) = true → sys_step ARun s (begin_drain s)
| st_wake s d w : sy_main s = MWait d → sys_step (AWake w) s (with_main (MTop (after_wait e w d)) s)
(* drain *)
| st_drained s : sy_main s = MDrain → sy_wait s = WDone → sys_step ARun s (with_main (MReturned None) s)
| st_grace s : sy_main s = MDrain → sys_step AGrace s (with_main (MReturned (Some grace_error)) s)
| st_waited s :
    sy_wait s = WWait → sh_inflight (sy_sh s) = 0 →
    sys_step AWaiter s (if hasBatchAcker e then with_wait WFlush (on_sh set_closed s) else with_wait WDone s)
| st_flushed s : sy_wait s = WFlush → sy_fl s = FDone → sys_step AWaiter s (with_wait WDone s)
(* handler goroutines *)
| st_go s i B ef k b :
    sy_go s !! i = Some (@EDo _ B ef k) → ready (sy_sh s) B ef b → world_ok B ef b →
    sys_step (AHandler i) s (act ef b (with_go (<[i := k b]> (sy_go s)) s))
(* ackFlusher *)
| st_recv s buf p ps :
    sy_fl s = FSelect buf → sh_ch (sy_sh s) = p :: ps →
    sys_step AFlusher s (with_fl (FTurn (flush_turn e (FlushRecv p) buf)) (on_sh (set_ch ps) s))
| st_tick s buf : sy_fl s = FSelect buf → sys_step ATicker s (with_fl (FTurn (flush_turn e FlushTick buf)) s)
| st_closed s buf :
    sy_fl s = FSelect buf → sh_ch (sy_sh s) = [] → sh_closed (sy_sh s) = true →
    sys_step AFlusher s (with_fl (FTurn (flush_turn e FlushClosed buf)) s)
| st_turn s B ef k b :
    sy_fl s = FTurn (@EDo _ B ef k) → world_ok B ef b →
    sys_step AFlusher s (with_fl (FTurn (k b)) (flush_act ef s))
| st_turned s r :
    sy_fl s = FTurn (ERet r) →
    sys_step AFlusher s (with_fl (match r with Some buf => FSelect buf | None => FDone end) s).

Definition sys_any (s s' : sys) : Prop := ∃ a, sys_step a s s'.

Definition sys_reachable (s : sys) : Prop := rtc sys_any newEngine s.
End Conc.

