(* ===== verification/EngineOwes.v ===== *)
(** * What the engine's goroutines owe

    A goroutine's obligations on the shared state - the pool tokens it has to
    give back, the wait-group count it has to decrement - as a state that its
    events transform, and the proof that the programs of file Engine meet
    them on every path. *)

From S2P Require Import Prelude GoErrors GoFloat Retry Message Effects Registry Engine EngineFacts EngineDispatch EngineConc.

(** ** Paths *)

(** The outside has an answer to every effect. *)
Lemma answerable B (ef : eff B) : ∃ b, world_ok B ef b.
Proof.
  destruct ef as [B c| | | | | | | | | | | | | | | |h m|h ms|K keys| | | | | | |]; simpl;
    try (by exists ()); try (by exists true); try (by exists 0); try (by exists None).
  - destruct c; simpl; try (by exists None); try (by exists ()); try (by exists (0, None));
      try (by exists (true, None)); try (by exists ([], None)).
    + by exists (None, None).
    + by exists ([], Some sql_ErrNoRows).
    + by exists (mkStats ∅ ∅ 0, None).
  - by exists (Returned None).
  - by exists (Returned None).
  - by exists keys.
Qed.

Lemma every_path {A} (p : eprog A) P : every world_ok p P → ∃ l a, P l a.
Proof.
  revert P. induction p as [a|B ef k IH]; intros P H; [by exists [], a|].
  destruct (answerable B ef) as [b Hb]. destruct (IH b _ (H b Hb)) as (l & a & Hp). eauto.
Qed.

Lemma every_and {A} (p : eprog A) P Q :
  every world_ok p P → every world_ok p Q → every world_ok p (λ l a, P l a ∧ Q l a).
Proof.
  revert P Q. induction p as [a|B ef k IH]; intros P Q HP HQ; [done|]. intros b Hb.
  apply IH; auto.
Qed.

(** One path of a program: its events and its result. *)
Inductive path {A} : eprog A → list event → A → Prop :=
| path_ret a : path (ERet a) [] a
| path_do {B} (ef : eff B) k b l a :
    world_ok B ef b → path (k b) l a → path (EDo ef k) (Ev ef b :: l) a.

Lemma every_of_path {A} (p : eprog A) P l a : every world_ok p P → path p l a → P l a.
Proof. intros H Hp. revert P H. induction Hp as [|B ef k b l a Hb _ IH]; intros P H; [done|]. by apply (IH _ (H b Hb)). Qed.

(** A run is a path. *)
Lemma path_erun {S A} (h : ∀ B, eff B → State S B) (p : eprog A) (s : S) :
  (∀ B (ef : eff B) s, world_ok B ef (h B ef s).1) → path p (erun h p s).1.1 (erun h p s).1.2.
Proof.
  intros Hh. revert s. induction p as [a|B ef k IH]; intros s; simpl; [constructor|].
  specialize (Hh B ef s). destruct (h B ef s) as [b s1]. specialize (IH b s1).
  destruct (erun h (k b) s1) as [[l a] s2]. by constructor.
Qed.

(** ** Following a discipline *)

Section Discipline.
Context {O : Type} (legal : O → event → Prop) (next : O → event → O).

(** [l] takes the obligations [o] to [fin] by legal events. *)
Fixpoint lawful (o : O) (l : list event) (fin : O) : Prop :=
  match l with
  | [] => o = fin
  | ev :: l => legal o ev ∧ lawful (next o ev) l fin
  end.

Lemma lawful_app o l m l' fin : lawful o l m → lawful m l' fin → lawful o (l ++ l') fin.
Proof.
  revert o. induction l as [|ev l IH]; intros o; simpl; [by intros ->|].
  intros [? ?] ?. split; auto.
Qed.

Definition follows {A} (p : eprog A) (o fin : O) : Prop := every world_ok p (λ l _, lawful o l fin).

Lemma follows_ret {A} (a : A) o : follows (mret a) o o.
Proof. done. Qed.

Lemma follows_bind {A B} (p : eprog A) (k : A → eprog B) o m fin :
  follows p o m → (∀ a, follows (k a) m fin) → follows (p ≫= k) o fin.
Proof.
  intros Hp Hk. eapply every_seq; [exact Hp|]. intros l a Hl.
  eapply every_mono; [|apply Hk]. intros l' b. by apply lawful_app.
Qed.

Lemma follows_keep {A B} (p : eprog A) (k : A → eprog B) o :
  follows p o o → (∀ a, follows (k a) o o) → follows (p ≫= k) o o.
Proof. apply follows_bind. Qed.

Lemma follows_perform {B} (ef : eff B) o m :
  (∀ b, world_ok B ef b → legal o (Ev ef b) ∧ next o (Ev ef b) = m) → follows (perform ef) o m.
Proof. intros H b Hb. by apply H. Qed.

Lemma follows_each {A} (f : A → eprog unit) l o :
  (∀ x, x ∈ l → follows (f x) o o) → follows (each f l) o o.
Proof.
  induction l as [|x l IH]; intros Hf; simpl; [by apply follows_ret|].
  eapply follows_bind; [apply Hf; by left|]. intros []. apply IH. intros y Hy. apply Hf. by right.
Qed.

(** Performing the next effect is legal and leaves a program that follows the
    discipline from there. *)
Lemma follows_step {A B} (ef : eff B) (k : B → eprog A) o fin b :
  follows (EDo ef k) o fin → world_ok B ef b →
  legal o (Ev ef b) ∧ follows (k b) (next o (Ev ef b)) fin.
Proof.
  intros H Hb. specialize (H b Hb). split.
  - by destruct (every_path _ _ H) as (l & a & Hl & _).
  - eapply every_mono; [|exact H]. by intros l a [_ Hl].
Qed.

Lemma follows_ended {A} (a : A) o fin : follows (ERet a) o fin → o = fin.
Proof. done. Qed.
End Discipline.

Section Owes.
Context (e : engineConfig).

(** The tokens a goroutine for messages of a type holds, the last taken first. *)
Definition tokens_for (et : string) : list sem :=
  match registry e !! et with Some reg => option_list (type_sem reg et) | None => [] end ++ [globalPool].

Definition batch_type (ms : list InboundMessage) : string := default ""%string (im_Type <$> head ms).

(** ** Handler goroutines *)

(** The tokens still to be given back, and the wait group to be told; or
    nothing. *)
Inductive owes := Owes (held : list sem) | Settled.

Definition held_of (o : owes) : list sem := match o with Owes held => held | Settled => [] end.

(** What a goroutine may do: no new tokens or goroutines, tokens given back last
    taken first, acknowledgements while it holds a token, the handler only with
    all its tokens, and the wait group last. *)
Definition g_legal (o : owes) (ev : event) : Prop :=
  match o with
  | Settled => False
  | Owes held =>
    match ev with
    | Ev ef _ =>
      match ef with
      | AcquireOrDone _ | Go _ | InflightAdd => False
      | ReleaseToken s => head held = Some s
      | InflightDone => held = []
      | SendAck _ => hasBatchAcker e = true ∧ held ≠ []
      | Invoke _ m => held = tokens_for (im_Type m)
      | InvokeBatch _ ms => held = tokens_for (batch_type ms)
      | _ => True
      end
    end
  end.

Definition g_next (o : owes) (ev : event) : owes :=
  match o with
  | Settled => Settled
  | Owes held =>
    match ev with
    | Ev ef _ =>
      match ef with
      | ReleaseToken _ => Owes (tail held)
      | InflightDone => Settled
      | _ => Owes held
      end
    end
  end.

Abbreviation g_follows := (follows g_legal g_next).

(** Programs that leave the obligations as they are. *)
Ltac g_neutral :=
  repeat first
    [ apply follows_ret
    | apply follows_perform; intros; by split
    | apply follows_keep; [|intros ?]
    | apply follows_each; intros ? _
    | match goal with |- follows _ _ (match ?x with _ => _ end) _ _ => destruct x end ].

Lemma commitOutcome_follows m c err o held :
  held ≠ [] → g_follows (commitOutcome e m c err o) (Owes held) (Owes held).
Proof.
  intros Hh. unfold commitOutcome, alert_if, msg_alert, retry_delay.
  destruct o; [destruct (hasBatchAcker e) eqn:Ha; [apply follows_perform; intros; by split|]|..];
    g_neutral.
Qed.

Lemma resolveOutcome_follows err held : g_follows (resolveOutcome err) (Owes held) (Owes held).
Proof. unfold resolveOutcome. g_neutral. Qed.

Lemma tokens_for_not_nil et : tokens_for et ≠ [].
Proof. unfold tokens_for. by destruct (match registry e !! et with Some _ => _ | None => _ end). Qed.

Lemma attempt_follows m reg :
  g_follows (attempt e m reg) (Owes (tokens_for (im_Type m))) (Owes (tokens_for (im_Type m))).
Proof.
  unfold attempt, invoke. g_neutral.
  - apply resolveOutcome_follows.
  - apply commitOutcome_follows, tokens_for_not_nil.
Qed.

Lemma batch_attempt_follows ms reg :
  g_follows (batch_attempt e ms reg) (Owes (tokens_for (batch_type ms))) (Owes (tokens_for (batch_type ms))).
Proof.
  unfold batch_attempt, invokeBatch. g_neutral.
  - apply resolveOutcome_follows.
  - apply commitOutcome_follows, tokens_for_not_nil.
Qed.

Lemma return_tokens_follows st :
  g_follows (return_tokens st) (Owes (option_list st ++ [globalPool])) Settled.
Proof.
  unfold return_tokens. eapply (follows_bind _ _ _ _ _ (Owes [globalPool])).
  - destruct st; [apply follows_perform; by split|apply follows_ret].
  - intros []. eapply (follows_bind _ _ _ _ _ (Owes [])); [apply follows_perform; by split|].
    intros []. apply follows_perform. by split.
Qed.

Lemma with_attempt_follows c ms st body :
  g_follows body (Owes (option_list st ++ [globalPool])) (Owes (option_list st ++ [globalPool])) →
  g_follows (with_attempt c ms st body) (Owes (option_list st ++ [globalPool])) Settled.
Proof.
  intros Hb. unfold with_attempt. set (o := Owes (option_list st ++ [globalPool])) in *.
  do 5 (apply (follows_bind _ _ _ _ o o); [done || (apply follows_perform; by split)|intros ?]).
  apply return_tokens_follows.
Qed.

(** A goroutine of pollOnce has a registered type. *)
Definition task_type (t : task) : string :=
  match t with
  | runHandlerTask m _ => im_Type m
  | runBatchHandlerTask ms _ => batch_type ms
  end.

Definition task_ok (t : task) : Prop :=
  match t with
  | runHandlerTask _ reg | runBatchHandlerTask _ reg => registry e !! task_type t = Some reg
  end.

(** The body of a goroutine gives back the tokens taken for it, then tells the
    wait group. *)
Lemma task_follows t : task_ok t → g_follows (task_body e t) (Owes (tokens_for (task_type t))) Settled.
Proof.
  intros Hok. destruct t as [m reg|ms reg]; simpl in *.
  - pose proof (attempt_follows m reg) as H. revert H. unfold tokens_for. rewrite Hok. apply with_attempt_follows.
  - pose proof (batch_attempt_follows ms reg) as H. revert H. unfold tokens_for. rewrite Hok.
    apply with_attempt_follows.
Qed.

(** ** The run loop *)

(** The tokens pollOnce holds between taking them and starting the goroutine they
    are for, and whether it has counted that goroutine already. *)
Record mowes := mkMowes { m_held : list sem; m_added : bool }.

Definition idle : mowes := mkMowes [] false.

Definition sem_ok (s : sem) : Prop :=
  match s with
  | globalPool => True
  | perTypeSem et _ => ∃ reg, registry e !! et = Some reg ∧ type_sem reg et = Some s
  end.

Definition m_legal (o : mowes) (ev : event) : Prop :=
  match ev with
  | Ev ef _ =>
    match ef with
    | AcquireOrDone s => m_added o = false ∧ sem_ok s ∧ s ∉ m_held o
    | ReleaseToken s => m_added o = false ∧ head (m_held o) = Some s
    | InflightAdd => m_added o = false
    | Go t => m_added o = true ∧ task_ok t ∧ m_held o = tokens_for (task_type t)
    | InflightDone | SendAck _ | Invoke _ _ | InvokeBatch _ _ => False
    | _ => True
    end
  end.

Definition m_next (o : mowes) (ev : event) : mowes :=
  match ev with
  | Ev ef b =>
    match ef in eff B return B → mowes with
    | AcquireOrDone s => λ got, if (got : bool) then mkMowes (s :: m_held o) false else o
    | ReleaseToken _ => λ _, mkMowes (tail (m_held o)) false
    | InflightAdd => λ _, mkMowes (m_held o) true
    | Go _ => λ _, idle
    | _ => λ _, o
    end b
  end.

Abbreviation m_follows := (follows m_legal m_next).

Lemma type_sem_type reg et s : type_sem reg et = Some s → s = perTypeSem et (maxInflight (cfg reg)).
Proof. unfold type_sem. destruct (_ <? _); [|done]. by intros [= <-]. Qed.

Lemma go_follows t : task_ok t →
  m_follows (go t) (mkMowes (tokens_for (task_type t)) false) idle.
Proof.
  intros Hok. unfold go.
  apply (follows_bind _ _ _ _ _ (mkMowes (tokens_for (task_type t)) true)).
  - apply follows_perform. by split.
  - intros []. apply follows_perform. by split.
Qed.

Lemma with_tokens_follows st t abandon :
  task_ok t → tokens_for (task_type t) = option_list st ++ [globalPool] →
  (∀ s, st = Some s → sem_ok s ∧ s ≠ globalPool) → m_follows abandon idle idle →
  m_follows (with_tokens st (go t) abandon) idle idle.
Proof.
  intros Hok Htok Hst Hab. pose proof (go_follows t Hok) as Hgo. rewrite Htok in Hgo.
  unfold with_tokens. intros [] _; cbn [eprog_bind].
  - eapply every_mono; [intros l u H; exact (conj (conj eq_refl (conj I (not_elem_of_nil _))) H)|].
    destruct st as [s|]; [|exact Hgo]. destruct (Hst s eq_refl) as [Hs Hne].
    assert (s ∉ [globalPool]) as Hnin by (by intros ?%list_elem_of_singleton).
    intros [] _; cbn [eprog_bind].
    + eapply every_mono; [intros l u H; exact (conj (conj eq_refl (conj Hs Hnin)) H)|exact Hgo].
    + intros [] _. cbn [eprog_bind].
      eapply every_mono; [|exact Hab]. intros l u H. by split_and!.
  - eapply every_mono; [intros l u H; exact (conj (conj eq_refl (conj I (not_elem_of_nil _))) H)|].
    exact Hab.
Qed.

Ltac m_neutral :=
  repeat first
    [ apply follows_ret
    | apply follows_perform; intros; by split
    | apply follows_keep; [|intros ?]
    | apply follows_each; intros ? _ ].

Lemma releaseForShutdown_follows reason m : m_follows (releaseForShutdown e reason m) idle idle.
Proof. unfold releaseForShutdown. m_neutral. Qed.

Lemma failNoHandler_follows m : m_follows (failNoHandler e m) idle idle.
Proof. unfold failNoHandler, msg_alert. m_neutral. Qed.

Lemma tokens_of_type t reg : task_ok t → registry e !! task_type t = Some reg →
  tokens_for (task_type t) = option_list (type_sem reg (task_type t)) ++ [globalPool] ∧
  ∀ s, type_sem reg (task_type t) = Some s → sem_ok s ∧ s ≠ globalPool.
Proof.
  intros Hok Hr. unfold tokens_for. rewrite Hr. split; [done|]. intros s Hs.
  pose proof (type_sem_type _ _ _ Hs) as ->. split; [|done]. simpl. eauto.
Qed.

Lemma dispatch_follows t reg abandon :
  registry e !! task_type t = Some reg → task_ok t → m_follows abandon idle idle →
  m_follows (with_tokens (type_sem reg (task_type t)) (go t) abandon) idle idle.
Proof.
  intros Hr Hok Hab. destruct (tokens_of_type t reg Hok Hr). by apply with_tokens_follows.
Qed.

Lemma dispatchBatches_follows msgs reg et :
  msgs ≠ [] → Forall (λ m, im_Type m = et) msgs → registry e !! et = Some reg →
  m_follows (dispatchBatches e msgs reg) idle idle.
Proof.
  intros Hne Het Hr. unfold dispatchBatches. apply follows_each. intros c Hc.
  assert (0 < chunk_size reg msgs) as Hsz.
  { unfold chunk_size. destruct msgs; [done|].
    destruct (Z.leb_spec (maxBatchSize (cfg reg)) 0); simpl; [lia|].
    destruct (Z.ltb_spec (Z.of_nat (S (length msgs))) (maxBatchSize (cfg reg))); lia. }
  apply chunks_elem in Hc as (Hcne & _ & Hsub); [|lia]. rewrite Forall_forall in Het.
  assert (batch_type c = et) as Hty.
  { destruct c as [|m c]; [done|]. apply Het, Hsub. by left. }
  apply (dispatch_follows (runBatchHandlerTask c reg) reg); simpl; try by rewrite Hty.
  apply follows_each. intros m _. apply releaseForShutdown_follows.
Qed.

Lemma partition_follows msgs gs : m_follows (partition e msgs gs) idle idle.
Proof.
  revert gs. induction msgs as [|m msgs IH]; intros gs; cbn [partition]; [apply follows_ret|].
  unfold lookup_handler. destruct (registry e !! im_Type m) as [reg|] eqn:Hr.
  - destruct (batchHandler reg); [apply IH|]. apply follows_keep; [|intros; apply IH].
    apply (dispatch_follows (runHandlerTask m reg) reg); [done|done|]. apply releaseForShutdown_follows.
  - apply follows_keep; [apply failNoHandler_follows|intros; apply IH].
Qed.

(** A poll ends owing nothing. *)
Lemma pollOnce_follows : m_follows (pollOnce e) idle idle.
Proof.
  unfold pollOnce. apply follows_keep; [apply follows_perform; by split|]. intros [].
  { apply follows_ret. }
  apply follows_keep; [apply follows_perform; by split|]. intros [|et types]; [apply follows_ret|].
  do 2 (apply follows_keep; [apply follows_perform; by split|intros ?]).
  apply follows_keep; [apply follows_perform; by split|]. intros [msgs err].
  apply follows_keep; [apply follows_perform; by split|]. intros []. destruct err as [er|].
  { m_neutral. }
  do 2 (apply follows_keep; [apply follows_perform; by split|intros ?]).
  eapply every_seq; [apply every_and; [apply (partition_follows msgs ∅)|apply (partition_ok e msgs ∅)]|].
  { by intros ?? H%lookup_empty_Some. }
  intros l gs [Hl [Hg _]]. eapply every_mono; [intros l' n; apply lawful_app, Hl|].
  apply follows_keep; [apply follows_perform; by split|]. intros order.
  apply follows_keep; [|intros ?; apply follows_ret].
  apply follows_each. intros et' _. unfold dispatch_group, lookup_handler.
  destruct (gs !! et') as [g|] eqn:E; [|apply follows_ret].
  destruct (Hg et' g E) as (Hne & Hall & reg & Hreg & _). rewrite Hreg.
  by eapply dispatchBatches_follows.
Qed.
End Owes.
