(* ===== verification/EngineConcFacts.v ===== *)
(** * Invariants of the engine's goroutines

    What every reachable state of [sys_step] keeps: tokens in a semaphore are
    held by goroutines that still owe them, the wait group counts the
    goroutines that have not finished, the channel is closed only after the last
    send, and every acknowledgement posted is in storage's hands, in the
    flusher's or in the channel, in order. *)

From S2P Require Import Prelude GoErrors GoFloat Retry Message Effects Registry Engine EngineFacts EngineDispatch EngineConc EngineOwes.

(** ** Counting tokens *)

Definition count (x : sem) (l : list sem) : Z := zsum (λ y, if decide (y = x) then 1 else 0) l.

Lemma count_nonneg x l : 0 ≤ count x l.
Proof. apply zsum_nonneg. intros y. destruct (decide (y = x)); lia. Qed.

Lemma count_elem x l : x ∈ l → 1 ≤ count x l.
Proof.
  intros [i Hi]%list_elem_of_lookup.
  pose proof (zsum_lookup (λ y, if decide (y = x) then 1 else 0) l i x) as H. simpl in H.
  rewrite decide_True in H by done. apply H; [|done]. intros y. destruct (decide (y = x)); lia.
Qed.

Section Inv.
Context (e : engineConfig).

Definition unsettled (o : owes) : Z := match o with Owes _ => 1 | Settled => 0 end.
Definition holds (x : sem) (o : owes) : Z := count x (held_of o).

Lemma unsettled_nonneg o : 0 ≤ unsettled o.
Proof. destruct o; simpl; lia. Qed.

Lemma holds_nonneg x o : 0 ≤ holds x o.
Proof. apply count_nonneg. Qed.

Definition cap (x : sem) : Z := match x with globalPool => pool_size e | perTypeSem _ c => c end.

Lemma sem_ok_cap et c c' : sem_ok e (perTypeSem et c) → sem_ok e (perTypeSem et c') → c = c'.
Proof.
  intros (reg & Hr & Hs) (reg' & Hr' & Hs').
  apply type_sem_type in Hs, Hs'. congruence.
Qed.

(** ** One effect *)

(** What an effect adds to the tokens of [x]. *)
Definition delta (x : sem) {B} (ef : eff B) : B → Z :=
  match ef in eff B' return B' → Z with
  | AcquireOrDone s => λ got, if (got : bool) then (if decide (s = x) then 1 else 0) else 0
  | ReleaseToken s => λ _, if decide (s = x) then -1 else 0
  | _ => λ _, 0
  end.

(** The semaphores an effect names exist in the configuration. *)
Definition names_ok {B} (ef : eff B) : Prop :=
  match ef with AcquireOrDone s | ReleaseToken s => sem_ok e s | _ => True end.

Lemma set_tokens_semaphore sh s n x : sem_ok e s → sem_ok e x →
  semaphore e (set_tokens e s n sh) x =
  ((if decide (s = x) then n else (semaphore e sh x).1), (semaphore e sh x).2).
Proof.
  intros Hs Hx. destruct (decide (s = x)) as [->|Hne].
  - destruct x as [|et c]; [done|]. simpl. by rewrite lookup_insert_eq.
  - destruct s as [|et c], x as [|et' c']; try done; simpl.
    + by destruct (default _ _).
    + destruct (decide (et = et')) as [->|Hn].
      * by destruct Hne; rewrite (sem_ok_cap _ _ _ Hs Hx).
      * rewrite lookup_insert_ne by done. by destruct (default _ _).
Qed.

Lemma perform_tokens sh {B} (ef : eff B) (b : B) x : names_ok ef → sem_ok e x →
  semaphore e (perform_on e sh B ef b) x =
  ((semaphore e sh x).1 + delta x ef b, (semaphore e sh x).2).
Proof.
  intros Hn Hx. assert (semaphore e sh x = ((semaphore e sh x).1 + 0, (semaphore e sh x).2)) as Hid.
  { rewrite Z.add_0_r. by destruct (semaphore e sh x). }
  revert b; destruct ef; intros b; try exact Hid; cbn [perform_on delta].
  - rewrite set_tokens_semaphore by done. destruct (decide (s = x)) as [->|]; [by destruct b|].
    rewrite <- Z.add_0_r at 1. by destruct b.
  - rewrite set_tokens_semaphore by done. destruct (decide (s = x)) as [->|]; [done|].
    by rewrite <- Z.add_0_r at 1.
Qed.

Definition inflight_delta {B} (ef : eff B) : Z :=
  match ef with InflightAdd => 1 | InflightDone => -1 | _ => 0 end.

Lemma perform_rest sh {B} (ef : eff B) (b : B) :
  sh_ctx (perform_on e sh B ef b) = sh_ctx sh ∧
  sh_stopping (perform_on e sh B ef b) = sh_stopping sh ∧
  sh_closed (perform_on e sh B ef b) = sh_closed sh ∧
  sh_ch (perform_on e sh B ef b) = sh_ch sh ++ posted ef ∧
  sh_inflight (perform_on e sh B ef b) = sh_inflight sh + inflight_delta ef.
Proof.
  revert b; destruct ef; intros b; simpl; rewrite ?app_nil_r, ?Z.add_0_r; try by split_and!.
  all: destruct s; simpl; rewrite ?app_nil_r, ?Z.add_0_r; by split_and!.
Qed.

(** A legal effect of a handler goroutine. *)
Lemma g_effect o {B} (ef : eff B) (b : B) : g_legal e o (Ev ef b) →
  (∀ x, holds x (g_next o (Ev ef b)) = holds x o + delta x ef b) ∧
  unsettled (g_next o (Ev ef b)) = unsettled o + inflight_delta ef ∧
  unsettled o = 1 ∧ spawned e ef = [] ∧ (posted ef ≠ [] → hasBatchAcker e = true).
Proof.
  destruct o as [held|]; [|done].
  assert (∀ x, holds x (Owes held) = holds x (Owes held) + 0) as Hid by (intros; lia).
  revert b; destruct ef; intros b Hl; simpl in Hl; try done; simpl g_next; split_and!; try done;
    try (by intros _; apply Hl).
  - intros x. destruct held as [|s' held]; [done|]. injection Hl as ->.
    unfold holds, count. simpl. destruct (decide (s = x)); lia.
  - intros x. subst held. unfold holds. simpl. lia.
Qed.

(** A legal effect of the run loop. *)
Lemma m_effect m {B} (ef : eff B) (b : B) : m_legal e m (Ev ef b) → posted ef = [] ∧
  ((∃ t, spawned e ef = [task_body e t] ∧ task_ok e t ∧ m_held m = tokens_for e (task_type t) ∧
      m_added m = true ∧ m_next m (Ev ef b) = idle ∧ (∀ x, delta x ef b = 0) ∧ inflight_delta ef = 0) ∨
   (spawned e ef = [] ∧
      (∀ x, count x (m_held (m_next m (Ev ef b))) = count x (m_held m) + delta x ef b) ∧
      (if m_added (m_next m (Ev ef b)) then 1 else 0) = (if m_added m then 1 else 0) + inflight_delta ef)).
Proof.
  revert b; destruct ef; intros b Hl; simpl in Hl; try done; (split; [done|]); simpl;
    try (right; split_and!; try done; intros; lia).
  - right. destruct Hl as (Ha & Hs & Hn). destruct b; simpl; split_and!; try done; try (intros; lia).
    by rewrite Ha.
  - right. destruct Hl as [Ha Hh]. split_and!; [done| |by rewrite Ha].
    intros x. destruct (m_held m) as [|s' held]; [done|]. injection Hh as ->.
    unfold count. simpl. destruct (decide (s = x)); lia.
  - left. destruct Hl as (Ha & Hok & Hh). exists t. by split_and!.
  - right. split_and!; [done|intros; lia|]. by rewrite Hl.
Qed.

(** ** The invariant *)

Definition main_owes (s : main_state) (m : mowes) : Prop :=
  match s with MPoll _ p => follows (m_legal e) m_next p m idle | _ => m = idle end.

(** The run loop before drain, and after. *)
Definition polling (s : main_state) : Prop :=
  match s with MTop _ | MPoll _ _ | MWait _ => True | _ => False end.
Definition draining (s : main_state) : Prop :=
  match s with MDrain | MReturned (Some _) => True | _ => False end.

(** What the flusher holds that storage has not been handed yet. *)
Definition flusher_holds (s : sys) (pending : list BatchSucceedParam) : Prop :=
  match sy_fl s with
  | NoFlusher => pending = [] ∧ hasBatchAcker e = false ∧ sh_ch (sy_sh s) = []
  | FSelect buf => pending = buf ∧ Z.of_nat (length buf) < batchSizeOrDefault (batchSize e) ∧
      hasBatchAcker e = true
  | FTurn p => hasBatchAcker e = true ∧ ∃ closing : bool,
      (closing = true → sh_closed (sy_sh s) = true ∧ sh_ch (sy_sh s) = []) ∧
      every world_ok p (λ l r, concat (omap flushed_of l) ++ default [] r = pending ∧
        Z.of_nat (length (default [] r)) < batchSizeOrDefault (batchSize e) ∧
        (r = None ↔ closing = true))
  | FDone => pending = [] ∧ hasBatchAcker e = true ∧ sh_closed (sy_sh s) = true ∧ sh_ch (sy_sh s) = []
  end.

(** How far drain has come. *)
Definition phase_ok (s : sys) (os : list owes) : Prop :=
  match sy_wait s with
  | WNone => polling (sy_main s) ∧ sh_closed (sy_sh s) = false ∧ sh_stopping (sy_sh s) = false
  | WWait => draining (sy_main s) ∧ sh_closed (sy_sh s) = false ∧ sh_stopping (sy_sh s) = true
  | WFlush => draining (sy_main s) ∧ sh_closed (sy_sh s) = true ∧ sh_stopping (sy_sh s) = true ∧
      zsum unsettled os = 0 ∧ hasBatchAcker e = true
  | WDone => ¬ polling (sy_main s) ∧ sh_closed (sy_sh s) = hasBatchAcker e ∧
      sh_stopping (sy_sh s) = true ∧ zsum unsettled os = 0 ∧ (hasBatchAcker e = true → sy_fl s = FDone)
  end.

Record conc_inv (s : sys) (os : list owes) (m : mowes) : Prop := mkInv {
  ci_go : Forall2 (λ p o, follows (g_legal e) g_next p o Settled) (sy_go s) os;
  ci_main : main_owes (sy_main s) m;
  ci_names : Forall (λ o, Forall (sem_ok e) (held_of o)) os ∧ Forall (sem_ok e) (m_held m);
  ci_tokens : ∀ x, sem_ok e x →
    (semaphore e (sy_sh s) x).1 = zsum (holds x) os + count x (m_held m) ∧
    (semaphore e (sy_sh s) x).1 ≤ cap x ∧ (semaphore e (sy_sh s) x).2 = cap x;
  ci_inflight : sh_inflight (sy_sh s) = zsum unsettled os + (if m_added m then 1 else 0);
  ci_phase : phase_ok s os;
  ci_acks : ∃ pending, flusher_holds s pending ∧
    sy_posted s = sy_flushed s ++ pending ++ sh_ch (sy_sh s);
}.

Lemma pool_size_pos : 0 < pool_size e.
Proof. unfold pool_size. destruct (Z.leb_spec (poolSize e) 0); lia. Qed.

Lemma type_sem_cap reg et et' c : type_sem reg et = Some (perTypeSem et' c) → 0 < c.
Proof. unfold type_sem. destruct (Z.ltb_spec 0 (maxInflight (cfg reg))); [|done]. by intros [= _ <-]. Qed.

Lemma cap_pos x : sem_ok e x → 0 < cap x.
Proof.
  destruct x as [|et c]; [intros _; apply pool_size_pos|]. intros (reg & _ & H). by eapply type_sem_cap.
Qed.

Lemma newEngine_inv : conc_inv (newEngine e) [] idle.
Proof.
  constructor; simpl; try done.
  - intros x Hx. pose proof (cap_pos x Hx) as Hc.
    set (sh := mkShared _ _ _ _ _ _ _).
    assert (semaphore e sh x = (0, cap x)) as -> by (by destruct x as [|et c]; simpl; rewrite ?lookup_empty).
    simpl. split_and!; [done|lia|done].
  - exists []. unfold flusher_holds. simpl. destruct (hasBatchAcker e) eqn:Ha; split; try done.
    split_and!; [done|apply batch_size_pos|done].
Qed.

(** The capacity bound survives an operation that was ready. *)
Lemma ready_cap sh {B} (ef : eff B) (b : B) x n :
  sem_ok e x → ready e sh B ef b → (semaphore e sh x).1 ≤ cap x → (semaphore e sh x).2 = cap x →
  n = (semaphore e sh x).1 + delta x ef b → n ≤ cap x.
Proof.
  intros Hx Hr Hle Hc ->. revert b Hr; destruct ef; intros b Hr; simpl; try lia.
  - destruct b; [|lia]. simpl in Hr. destruct (decide (s = x)) as [->|]; lia.
  - destruct (decide (s = x)); lia.
Qed.

Lemma closed_posts sh {B} (ef : eff B) (b : B) :
  sh_closed sh = true → ready e sh B ef b → posted ef = [].
Proof. intros Hc Hr. revert b Hr; destruct ef; intros b Hr; try done. destruct Hr. congruence. Qed.

(** The acknowledgements: an effect that posts appends to the channel. *)
Lemma acks_act s {B} (ef : eff B) (b : B) s' :
  (∃ pending, flusher_holds s pending ∧ sy_posted s = sy_flushed s ++ pending ++ sh_ch (sy_sh s)) →
  ready e (sy_sh s) B ef b → (posted ef ≠ [] → hasBatchAcker e = true) →
  sy_fl s' = sy_fl s → sy_flushed s' = sy_flushed s → sy_posted s' = sy_posted s ++ posted ef →
  sh_closed (sy_sh s') = sh_closed (sy_sh s) → sh_ch (sy_sh s') = sh_ch (sy_sh s) ++ posted ef →
  ∃ pending, flusher_holds s' pending ∧ sy_posted s' = sy_flushed s' ++ pending ++ sh_ch (sy_sh s').
Proof.
  intros (pending & Hf & Hp) Hr Ha Efl Eflushed Eposted Ecl Ech.
  exists pending. rewrite Eflushed, Eposted, Ech, Hp, <- !app_assoc. split; [|done].
  assert (sh_closed (sy_sh s) = true → sh_ch (sy_sh s') = sh_ch (sy_sh s)) as Hkeep.
  { intros Hc. by rewrite Ech, (closed_posts _ _ _ Hc Hr), app_nil_r. }
  unfold flusher_holds in *. rewrite Efl, Ecl. destruct (sy_fl s); try done.
  - destruct Hf as (? & Hn & ?). split_and!; try done. rewrite Ech.
    destruct (posted ef); [by rewrite app_nil_r|]. rewrite Ha in Hn; done.
  - destruct Hf as (? & closing & Hcl & Hev). split; [done|]. exists closing. split; [|done].
    intros Hc. destruct (Hcl Hc) as [? ?]. by rewrite Hkeep.
  - destruct Hf as (? & ? & ? & ?). by rewrite Hkeep.
Qed.

Lemma names_of_legal o {B} (ef : eff B) (b : B) :
  Forall (sem_ok e) (held_of o) → g_legal e o (Ev ef b) → names_ok ef.
Proof.
  intros Hh Hl. destruct o as [held|]; [|done]. revert b Hl; destruct ef; intros b Hl; try done.
  simpl in *. destruct held as [|s' held]; [done|]. injection Hl as ->. by apply Forall_cons in Hh as [? _].
Qed.

Lemma held_sub o {B} (ef : eff B) (b : B) :
  Forall (sem_ok e) (held_of o) → Forall (sem_ok e) (held_of (g_next o (Ev ef b))).
Proof.
  destruct o as [held|]; [|done]. intros Hh. revert b; destruct ef; intros b; try done.
  simpl in *. destruct held; [done|]. by apply Forall_cons in Hh as [_ ?].
Qed.

Lemma inv_go s os m i {B} (ef : eff B) (k : B → eprog unit) (b : B) :
  conc_inv s os m → sy_go s !! i = Some (EDo ef k) → ready e (sy_sh s) B ef b → world_ok B ef b →
  ∃ o', conc_inv (act e ef b (with_go (<[i := k b]> (sy_go s)) s)) (<[i := o']> os) m.
Proof.
  intros [Hgo Hmain [Hnames Hnm] Htok Hinf Hph Hack] Hi Hr Hw.
  destruct (Forall2_lookup_l _ _ _ _ _ Hgo Hi) as (o & Ho & Hf).
  destruct (follows_step _ _ _ _ _ _ b Hf Hw) as [Hl Hf'].
  destruct (g_effect o ef b Hl) as (Hd & Hu & Hu1 & Hsp & Hpost).
  pose proof (Forall_lookup_1 _ _ _ _ Hnames Ho) as Hon.
  pose proof (names_of_legal _ _ _ Hon Hl) as Hnok.
  destruct (perform_rest (sy_sh s) ef b) as (Ectx & Est & Ecl & Ech & Einf).
  exists (g_next o (Ev ef b)). constructor; simpl.
  - rewrite Hsp, app_nil_r. by apply Forall2_insert.
  - done.
  - split; [|done]. apply Forall_insert; [done|]. by apply held_sub.
  - intros x Hx. destruct (Htok x Hx) as (H1 & H2 & H3).
    rewrite perform_tokens by done. simpl. rewrite (zsum_insert _ _ _ _ _ Ho), Hd.
    split_and!; [lia| |done]. by eapply ready_cap.
  - rewrite Einf, (zsum_insert _ _ _ _ _ Ho), Hu, Hinf. lia.
  - pose proof (zsum_lookup unsettled os i o unsettled_nonneg Ho) as Hpos.
    unfold phase_ok in *. simpl in *. rewrite Ecl, Est. destruct (sy_wait s); try done; lia.
  - by eapply (acks_act s ef b).
Qed.

Lemma m_names_ok m {B} (ef : eff B) (b : B) :
  Forall (sem_ok e) (m_held m) → m_legal e m (Ev ef b) →
  names_ok ef ∧ Forall (sem_ok e) (m_held (m_next m (Ev ef b))).
Proof.
  intros Hh Hl. revert b Hl; destruct ef; intros b Hl; simpl in *; try by split.
  - destruct Hl as (_ & Hs & _). split; [done|]. destruct b; [by constructor|done].
  - destruct Hl as [_ Hl]. destruct (m_held m) as [|s' held]; [done|]. injection Hl as ->.
    by apply Forall_cons in Hh.
Qed.

Lemma inv_main s os m d {B} (ef : eff B) (k : B → eprog Z) (b : B) :
  conc_inv s os m → sy_main s = MPoll d (EDo ef k) → ready e (sy_sh s) B ef b → world_ok B ef b →
  ∃ os' m', conc_inv (with_main (MPoll d (k b)) (act e ef b s)) os' m'.
Proof.
  intros [Hgo Hmain [Hnames Hnm] Htok Hinf Hph Hack] Hi Hr Hw. rewrite Hi in Hmain.
  destruct (follows_step _ _ _ _ _ _ b Hmain Hw) as [Hl Hf'].
  destruct (m_effect m ef b Hl) as [Hpost Heff].
  destruct (m_names_ok _ _ _ Hnm Hl) as [Hnok Hnm'].
  destruct (perform_rest (sy_sh s) ef b) as (Ectx & Est & Ecl & Ech & Einf).
  set (s' := with_main (MPoll d (k b)) (act e ef b s)). set (m' := m_next m (Ev ef b)) in *.
  assert (∀ os', Forall2 (λ p o, follows (g_legal e) g_next p o Settled) (sy_go s') os' →
    Forall (λ o, Forall (sem_ok e) (held_of o)) os' →
    (∀ x, zsum (holds x) os' + count x (m_held m') = zsum (holds x) os + count x (m_held m) + delta x ef b) →
    zsum unsettled os' + (if m_added m' then 1 else 0)
      = zsum unsettled os + (if m_added m then 1 else 0) + inflight_delta ef →
    conc_inv s' os' m') as Hmk.
  { intros os' H1 H2 H3 H4. constructor; simpl; try done.
    - intros x Hx. destruct (Htok x Hx) as (T1 & T2 & T3). rewrite perform_tokens by done. simpl.
      split_and!; [rewrite H3; lia| |done]. by eapply ready_cap.
    - rewrite Einf, H4, Hinf. lia.
    - unfold phase_ok in *. simpl. rewrite Ecl, Est. rewrite Hi in Hph.
      destruct (sy_wait s); simpl in *; try done; by destruct Hph.
    - by eapply (acks_act s ef b). }
  destruct Heff as [(t & Hsp & Hok & Hheld & Hadd & Hm' & Hd & Hid)|(Hsp & Hc & Ha)].
  - exists (os ++ [Owes (tokens_for e (task_type t))]), m'. apply Hmk.
    + simpl. rewrite Hsp. apply Forall2_app; [done|]. constructor; [|constructor]. by apply task_follows.
    + apply Forall_app. split; [done|]. constructor; [|constructor]. by rewrite Hheld in Hnm.
    + intros x. rewrite zsum_app, Hd. rewrite Hm', Hheld. simpl. unfold holds. simpl.
      lia.
    + rewrite zsum_app. rewrite Hm', Hadd, Hid. simpl. lia.
  - exists os, m'. apply Hmk; [|done| |by rewrite <- Z.add_assoc, <- Ha].
    + simpl. by rewrite Hsp, app_nil_r.
    + intros x. rewrite Hc. lia.
Qed.

(** A step that touches neither goroutines nor tokens. *)
Lemma inv_frame s s' os m :
  conc_inv s os m → sy_go s' = sy_go s → main_owes (sy_main s') m →
  (∀ x, semaphore e (sy_sh s') x = semaphore e (sy_sh s) x) →
  sh_inflight (sy_sh s') = sh_inflight (sy_sh s) → phase_ok s' os →
  (∃ pending, flusher_holds s' pending ∧
    sy_posted s' = sy_flushed s' ++ pending ++ sh_ch (sy_sh s')) →
  conc_inv s' os m.
Proof.
  intros [Hgo Hmain Hn Htok Hinf Hph Hack] Eg Hm Es Ei Hp Ha. constructor; try done.
  - by rewrite Eg.
  - intros x Hx. rewrite Es. by apply Htok.
  - by rewrite Ei.
Qed.

Lemma semaphore_same sh sh' x :
  sh_pool sh' = sh_pool sh → sh_types sh' = sh_types sh → semaphore e sh' x = semaphore e sh x.
Proof. intros E1 E2. destruct x; simpl; [by rewrite E1|by rewrite E2]. Qed.

Lemma inv_begin_drain s os m : conc_inv s os m → polling (sy_main s) →
  (∀ d p, sy_main s ≠ MPoll d p) → conc_inv (begin_drain s) os m.
Proof.
  intros H Hp Hnp. pose proof H as [_ Hmain _ _ _ Hph Hack].
  apply (inv_frame s); try done.
  - simpl. destruct (sy_main s); try done. by destruct (Hnp delay p).
  - unfold phase_ok in *. simpl.
    destruct (sy_wait s); destruct Hph as (Hd & Hc & ?); try by destruct (sy_main s).
Qed.

(** A flusher's turn on [i] keeps account of its buffer. *)
Lemma inv_turn s os m s' i buf (rest : list BatchSucceedParam) :
  conc_inv s os m → sy_fl s = FSelect buf →
  s' = with_fl (FTurn (flush_turn e i buf)) (on_sh (set_ch rest) s) →
  received [i] ++ rest = sh_ch (sy_sh s) →
  (i = FlushClosed → sh_closed (sy_sh s) = true ∧ rest = []) → conc_inv s' os m.
Proof.
  intros H Hfl -> Hch Hcl. pose proof H as [_ Hmain _ _ _ Hph (pd & Hf & Hp)].
  apply (inv_frame s); try done.
  - unfold phase_ok in *. simpl. destruct (sy_wait s); try done.
    destruct Hph as (? & ? & ? & ? & Hd). split_and!; try done.
    intros Ha. specialize (Hd Ha). congruence.
  - unfold flusher_holds in Hf. rewrite Hfl in Hf. destruct Hf as (-> & Hlen & Ha).
    exists (buf ++ received [i]). simpl. split.
    + split; [done|]. exists (match i with FlushClosed => true | _ => false end). simpl. split.
      { destruct i; try done. intros _. by apply Hcl. }
      eapply every_mono; [|by apply flush_turn_ok]. intros l r (H1 & _ & H3 & H4).
      split_and!; [done|done|]. rewrite H3. by destruct i.
    + rewrite Hp, <- Hch, <- !app_assoc. done.
Qed.

Lemma flushed_cons {B} (ef : eff B) (b : B) l :
  concat (omap flushed_of (Ev ef b :: l)) = committed ef ++ concat (omap flushed_of l).
Proof.
  change (Ev ef b :: l) with ([Ev ef b] ++ l). rewrite omap_app, concat_app. f_equal.
  destruct ef; try done. destruct c; try done. simpl. by rewrite app_nil_r.
Qed.

(** The flusher performs the next effect of its turn. *)
Lemma inv_flush s os m {B} (ef : eff B) k (b : B) :
  conc_inv s os m → sy_fl s = FTurn (EDo ef k) → world_ok B ef b →
  conc_inv (with_fl (FTurn (k b)) (flush_act ef s)) os m.
Proof.
  intros H Hfl Hw. pose proof H as [_ Hmain _ _ _ Hph (pd & Hf & Hp)].
  apply (inv_frame s); try done.
  - unfold phase_ok in *. simpl. destruct (sy_wait s); try done.
    destruct Hph as (? & ? & ? & ? & Hd). split_and!; try done.
    intros Ha. specialize (Hd Ha). congruence.
  - unfold flusher_holds in Hf. rewrite Hfl in Hf. destruct Hf as (Ha & closing & Hcl & Hev).
    specialize (Hev b Hw). cbv beta in Hev.
    destruct (every_path _ _ Hev) as (l0 & r0 & H0 & _). rewrite flushed_cons, <- app_assoc in H0.
    subst pd. exists (concat (omap flushed_of l0) ++ default [] r0). simpl. split; [|by rewrite Hp, <- !app_assoc].
    split; [done|]. exists closing. split; [done|].
    eapply every_mono; [|exact Hev]. intros l r (H1 & H2 & H3). split_and!; try done.
    rewrite flushed_cons, <- app_assoc in H1. by apply app_inv_head in H1.
Qed.

Lemma inv_turned s os m r :
  conc_inv s os m → sy_fl s = FTurn (ERet r) →
  conc_inv (with_fl (match r with Some buf => FSelect buf | None => FDone end) s) os m.
Proof.
  intros H Hfl. pose proof H as [_ Hmain _ _ _ Hph (pd & Hf & Hp)].
  apply (inv_frame s); try done.
  - unfold phase_ok in *. simpl. destruct (sy_wait s); try done.
    destruct Hph as (? & ? & ? & ? & Hd). split_and!; try done.
    intros Ha. specialize (Hd Ha). congruence.
  - unfold flusher_holds in Hf. rewrite Hfl in Hf. destruct Hf as (Ha & closing & Hcl & H1 & H2 & H3).
    simpl in H1. exists pd. split; [|done]. subst pd. destruct r as [buf|]; simpl in *; [by split_and!|].
    unfold flusher_holds. simpl. destruct Hcl as [? ?]; [by apply H3|]. by split_and!.
Qed.

(** ** Every step *)

Lemma step_inv a s s' os m : sys_step e a s s' → conc_inv s os m → ∃ os' m', conc_inv s' os' m'.
Proof.
  intros Hstep H. pose proof H as [_ Hmain _ _ Hinf Hph Hack]. destruct Hstep.
  - exists os, m. by apply (inv_frame s).
  - exists os, m. apply inv_begin_drain; [done|by rewrite H0|by rewrite H0].
  - exists os, m. apply (inv_frame s); try done.
    + simpl. rewrite H0 in Hmain. simpl in Hmain. subst m. apply pollOnce_follows.
    + unfold phase_ok in *. simpl. rewrite H0 in Hph. by destruct (sy_wait s).
  - by eapply inv_main.
  - exists os, m. apply (inv_frame s); try done.
    + by rewrite H0 in Hmain.
    + unfold phase_ok in *. simpl. rewrite H0 in Hph. by destruct (sy_wait s).
  - exists os, m. apply inv_begin_drain; [done|by rewrite H0|by rewrite H0].
  - exists os, m. apply (inv_frame s); try done.
    + by rewrite H0 in Hmain.
    + unfold phase_ok in *. simpl. rewrite H0 in Hph. by destruct (sy_wait s).
  - exists os, m. apply (inv_frame s); try done.
    + by rewrite H0 in Hmain.
    + unfold phase_ok in *. simpl. rewrite H1 in *. destruct Hph as (_ & Hph). split; [by intros []|exact Hph].
  - exists os, m. apply (inv_frame s); try done.
    + by rewrite H0 in Hmain.
    + unfold phase_ok in *. simpl. rewrite H0 in Hph. destruct (sy_wait s); try done.
  - exists os, m. unfold phase_ok in Hph. rewrite H0 in Hph. destruct Hph as (Hd & Hc & Hs).
    assert (zsum unsettled os = 0) as Hz.
    { pose proof (zsum_nonneg unsettled os unsettled_nonneg). destruct (m_added m); lia. }
    destruct (hasBatchAcker e) eqn:Ha.
    + apply (inv_frame s); try done.
      destruct Hack as (pd & Hf & Hp). exists pd. split; [|done].
      unfold flusher_holds in *. simpl. destruct (sy_fl s); try done.
      * destruct Hf as (_ & closing & Hcl & Hev). split; [done|]. exists closing. split; [|done].
        intros Hcl'. destruct (Hcl Hcl'). congruence.
      * destruct Hf as (_ & _ & ? & _). congruence.
    + apply (inv_frame s); try done. unfold phase_ok. simpl. rewrite Ha.
      split_and!; try done. intros Hpo. by destruct (sy_main s) as [| | | |[?|]].
  - exists os, m. apply (inv_frame s); try done.
    unfold phase_ok in *. rewrite H0 in Hph. simpl. destruct Hph as (Hd & Hc & Hs & Hz & Ha).
    rewrite Ha. split_and!; try done. intros Hpo. by destruct (sy_main s) as [| | | |[?|]].
  - destruct (inv_go s os m i ef k b) as [o' Ho']; try done. eauto.
  - exists os, m. by apply (inv_turn s os m _ (FlushRecv p) buf ps).
  - exists os, m. apply (inv_turn s os m _ FlushTick buf (sh_ch (sy_sh s))); try done. by destruct s as [[]].
  - exists os, m. apply (inv_turn s os m _ FlushClosed buf []); try done.
    destruct s as [[]]. simpl in *. by subst.
  - exists os, m. by eapply inv_flush.
  - exists os, m. by apply inv_turned.
Qed.

Lemma reachable_inv s : sys_reachable e s → ∃ os m, conc_inv s os m.
Proof.
  intros Hr. assert (∃ os m, conc_inv (newEngine e) os m) as H0.
  { exists [], idle. apply newEngine_inv. }
  induction Hr as [|x y z [a Hxy] _ IH]; [done|]. apply IH.
  destruct H0 as (os & m & H). by eapply step_inv.
Qed.
End Inv.
