(* ===== verification/EngineSim.v ===== *)
(** * A scheduler for the engine's goroutines

    The steps of file EngineConc as a function of the actor that moves and of
    the answers of the outside, sound for [sys_step]: the witnesses run whole
    schedules through it. *)

From S2P Require Import Prelude GoErrors GoFloat Retry Message Effects Registry Engine EngineFacts EngineConc.

Section Sim.
Context (e : engineConfig) (ans : ∀ B, eff B → B).

Definition ready_b (sh : shared) (B : Type) (ef : eff B) : B → bool :=
  match ef in eff B' return B' → bool with
  | AcquireOrDone s => λ got, if (got : bool) then (semaphore e sh s).1 <? (semaphore e sh s).2 else sh_ctx sh
  | ReleaseToken s => λ _, 0 <? (semaphore e sh s).1
  | SendAck _ => λ _, negb (sh_closed sh) && (Z.of_nat (length (sh_ch sh)) <? ack_capacity e)
  | InflightDone => λ _, 0 <? sh_inflight sh
  | ParentDone => λ b, eqb b (sh_ctx sh)
  | Stopping => λ b, eqb b (sh_stopping sh)
  | _ => λ _, true
  end.

Lemma ready_b_sound sh B (ef : eff B) (b : B) : ready_b sh B ef b = true → ready e sh B ef b.
Proof.
  revert b. destruct ef; intros b; simpl; try done.
  - destruct b; [apply Z.ltb_lt|done].
  - apply Z.ltb_lt.
  - apply Z.ltb_lt.
  - intros [H1%negb_true_iff H2%Z.ltb_lt]%andb_prop. done.
  - by destruct b, (sh_ctx sh).
  - by destruct b, (sh_stopping sh).
Qed.

(** The answers of the state come from the state. *)
Definition answer (sh : shared) (B : Type) (ef : eff B) : B :=
  match ef in eff B' return B' → B' with
  | ParentDone => λ _, sh_ctx sh
  | Stopping => λ _, sh_stopping sh
  | _ => λ b, b
  end (ans B ef).

Definition play1 (a : actor) (s : sys) : option sys :=
  let sh := sy_sh s in
  match a with
  | ACancel => Some (on_sh set_ctx s)
  | ARun =>
    match sy_main s with
    | MTop d => Some (if sh_ctx sh then begin_drain s else with_main (MPoll d (pollOnce e)) s)
    | MPoll d (@EDo _ B ef k) =>
      let b := answer sh B ef in
      if ready_b sh B ef b then Some (with_main (MPoll d (k b)) (act e ef b s)) else None
    | MPoll d (ERet n) => Some (with_main (MWait (next_delay e n d)) s)
    | MWait d => if sh_ctx sh then Some (begin_drain s) else None
    | MDrain => match sy_wait s with WDone => Some (with_main (MReturned None) s) | _ => None end
    | MReturned _ => None
    end
  | AWake w =>
    match sy_main s with MWait d => Some (with_main (MTop (after_wait e w d)) s) | _ => None end
  | AGrace =>
    match sy_main s with MDrain => Some (with_main (MReturned (Some grace_error)) s) | _ => None end
  | AWaiter =>
    match sy_wait s with
    | WWait =>
      if sh_inflight sh =? 0
      then Some (if hasBatchAcker e then with_wait WFlush (on_sh set_closed s) else with_wait WDone s)
      else None
    | WFlush => match sy_fl s with FDone => Some (with_wait WDone s) | _ => None end
    | _ => None
    end
  | AHandler i =>
    match sy_go s !! i with
    | Some (@EDo _ B ef k) =>
      let b := answer sh B ef in
      if ready_b sh B ef b then Some (act e ef b (with_go (<[i := k b]> (sy_go s)) s)) else None
    | _ => None
    end
  | AFlusher =>
    match sy_fl s with
    | FSelect buf =>
      match sh_ch sh with
      | p :: ps => Some (with_fl (FTurn (flush_turn e (FlushRecv p) buf)) (on_sh (set_ch ps) s))
      | [] => if sh_closed sh then Some (with_fl (FTurn (flush_turn e FlushClosed buf)) s) else None
      end
    | FTurn (@EDo _ B ef k) => Some (with_fl (FTurn (k (ans B ef))) (flush_act ef s))
    | FTurn (ERet r) => Some (with_fl (match r with Some buf => FSelect buf | None => FDone end) s)
    | _ => None
    end
  | ATicker =>
    match sy_fl s with
    | FSelect buf => Some (with_fl (FTurn (flush_turn e FlushTick buf)) s)
    | _ => None
    end
  end.

(** A schedule; an actor that cannot move is passed over. *)
Definition play (l : list actor) (s : sys) : sys := foldl (λ s a, default s (play1 a s)) s l.

Hypothesis ans_ok : ∀ B ef, world_ok B ef (ans B ef).

Lemma answer_ok sh B (ef : eff B) : world_ok B ef (answer sh B ef).
Proof. pose proof (ans_ok B ef) as H. unfold answer. by destruct ef. Qed.

Lemma play1_sound a s s' : play1 a s = Some s' → sys_step e a s s'.
Proof.
  destruct a; simpl.
  - intros [= <-]. constructor.
  - destruct (sy_main s) as [d|d [n|B ef k]|d| |r] eqn:Hm; try done.
    + intros [= <-]. destruct (sh_ctx (sy_sh s)) eqn:Hc; [by eapply st_top_drain|by apply st_top_poll].
    + intros [= <-]. by apply st_polled.
    + destruct (ready_b _ _ _ _) eqn:Hr; [|done]. intros [= <-].
      eapply st_poll; [done|by apply ready_b_sound|apply answer_ok].
    + destruct (sh_ctx (sy_sh s)) eqn:Hc; [|done]. intros [= <-]. by eapply st_wait_drain.
    + destruct (sy_wait s) eqn:Hw; try done. intros [= <-]. by apply st_drained.
  - destruct (sy_main s) eqn:Hm; try done. intros [= <-]. by apply st_wake.
  - destruct (sy_main s) eqn:Hm; try done. intros [= <-]. by apply st_grace.
  - destruct (sy_wait s) eqn:Hw; try done.
    + destruct (Z.eqb_spec (sh_inflight (sy_sh s)) 0); [|done]. intros [= <-]. by apply st_waited.
    + destruct (sy_fl s) eqn:Hf; try done. intros [= <-]. by apply st_flushed.
  - destruct (sy_go s !! i) as [[?|B ef k]|] eqn:Hi; try done.
    destruct (ready_b _ _ _ _) eqn:Hr; [|done]. intros [= <-].
    eapply st_go; [done|by apply ready_b_sound|apply answer_ok].
  - destruct (sy_fl s) as [|buf|[r|B ef k]|] eqn:Hf; try done.
    + destruct (sh_ch (sy_sh s)) as [|p ps] eqn:Hc; [|intros [= <-]; by apply st_recv].
      destruct (sh_closed (sy_sh s)) eqn:Hcl; [|done]. intros [= <-]. by apply st_closed.
    + intros [= <-]. by apply st_turned.
    + intros [= <-]. by apply st_turn.
  - destruct (sy_fl s) eqn:Hf; try done. intros [= <-]. by apply st_tick.
Qed.

Lemma play_reachable l s : sys_reachable e s → sys_reachable e (play l s).
Proof.
  unfold play. revert s. induction l as [|a l IH]; intros s Hs; simpl; [done|]. apply IH.
  destruct (play1 a s) as [s'|] eqn:E; simpl; [|done].
  eapply rtc_r; [exact Hs|]. exists a. by apply play1_sound.
Qed.
End Sim.

(** ** A world in which handlers succeed *)

Definition calm_world (B : Type) (ef : eff B) : B :=
  match ef in eff B' return B' with
  | Call c =>
    match c in call T return T with
    | StClaim p => (if decide (im_Type demo_message ∈ cp_EventTypes p) then [demo_message] else [], None)
    | c' => (failing_world _ (Call c') ()).1
    end
  | Invoke _ _ | InvokeBatch _ _ => Returned None
  | ef' => (failing_world _ ef' ()).1
  end.

Lemma calm_world_ok B (ef : eff B) : world_ok B ef (calm_world B ef).
Proof.
  destruct ef as [B c| | | | | | | | | | | | | | | | | | | | | | | | |]; try done; [|by simpl]. destruct c; try done.
  unfold calm_world. simpl. destruct (decide _) as [H|H]; intros _; simpl.
  - split_and!; [apply NoDup_singleton|lia|]. intros _. by constructor.
  - split_and!; [apply NoDup_nil_2|lia|]. intros _. by constructor.
Qed.

(** A pool of two, one handler of the type at a time. *)
Definition sim_registration : registration :=
  mkRegistration (Some (mkHandler "h")) None (mkHandlerConfig 3 None 1 0 0 None).
Definition sim_engine : engineConfig :=
  mkEngineConfig {["order.paid"%string := sim_registration]} "w-1" 2 0 0 0 0 0 true.

Definition sim (l : list actor) : sys := play sim_engine calm_world l (newEngine sim_engine).

Lemma sim_reachable l : sys_reachable sim_engine (sim l).
Proof. apply play_reachable; [apply calm_world_ok|]. apply rtc_refl. Qed.

(** Polls, with the first handler brought to its user code. *)
Definition busy_schedule : list actor := concat (replicate 60 [ARun; AWake TimerFired]) ++ replicate 5 (AHandler 0).

(** One poll, its handler to the end, the cancellation, the poll's end. *)
Definition drain_schedule : list actor :=
  replicate 13 ARun ++ replicate 40 (AHandler 0) ++ ACancel :: replicate 20 ARun.

(** And drain: the wait, the flush of what the channel holds, the return. *)
Definition full_schedule : list actor :=
  drain_schedule ++ concat (replicate 8 [AWaiter; AFlusher]) ++ [ARun].
