(* ===== verification/EngineDrain.v ===== *)
(** * What the engine's concurrency guarantees

    Bounded parallelism, no panics and nothing lost at shutdown, for every
    interleaving of the run loop, the handler
    goroutines, the flusher and the waiting goroutine. *)

From S2P Require Import Prelude GoErrors GoFloat Retry Message Effects Registry Engine EngineFacts EngineDispatch EngineConc EngineOwes EngineConcFacts EngineSim.

(** ** Bounded parallelism *)

(** The type of the messages whose handler the goroutine is running: its next
    event is the handler's return. *)
Definition invoking (p : eprog unit) : option string :=
  match p with
  | EDo ef _ =>
    match ef with
    | Invoke _ m => Some (im_Type m)
    | InvokeBatch _ ms => Some (batch_type ms)
    | _ => None
    end
  | ERet _ => None
  end.

Definition running (et : option string) (p : eprog unit) : Z :=
  match et, invoking p with
  | _, None => 0
  | None, Some _ => 1
  | Some t, Some t' => if decide (t' = t) then 1 else 0
  end.

(** How many handlers run: of any type, or of one. *)
Definition handlers_running (s : sys) (et : option string) : Z := zsum (running et) (sy_go s).

Section Bounds.
Context (e : engineConfig).

Lemma invoking_holds p o et : follows (g_legal e) g_next p o Settled → invoking p = Some et →
  held_of o = tokens_for e et.
Proof.
  destruct p as [|B ef k]; [done|]. intros Hf Hi. destruct (answerable B ef) as [b Hb].
  destruct (follows_step _ _ _ _ _ _ b Hf Hb) as [Hl _]. destruct o as [held|]; [|done].
  revert b Hb Hl k Hf Hi. destruct ef; intros b Hb Hl k Hf Hi; try done; simpl in *; by simplify_eq.
Qed.

Lemma running_bound s os m et x :
  conc_inv e s os m → sem_ok e x → (∀ t, et = None ∨ et = Some t → x ∈ tokens_for e t) →
  handlers_running s et ≤ cap e x.
Proof.
  intros [Hgo _ [_ Hnm] Htok _ _ _] Hx Hin. destruct (Htok x Hx) as (H1 & H2 & _).
  pose proof (count_nonneg x (m_held m)).
  enough (handlers_running s et ≤ zsum (holds x) os) by lia.
  refine (zsum_le (running et) (holds x) _ _ _ _ Hgo).
  intros p o Hf. unfold running. pose proof (holds_nonneg x o).
  destruct (invoking p) as [t'|] eqn:E; [|by destruct et].
  unfold holds in *. rewrite (invoking_holds p o t' Hf E) in *.
  assert (et = None ∨ et = Some t' → 1 ≤ count x (tokens_for e t')) by (intros; by apply count_elem, Hin).
  destruct et as [t|]; [destruct (decide (t' = t)) as [->|]|]; auto; lia.
Qed.
End Bounds.

(** C13: Parallelism is bounded.  In every reachable state of a worker at most
    PoolSize handlers are running (32 when unset), and for a type registered
    with a positive MaxInflight at most that many of its own, whatever the
    interleaving of polls, dispatches, handlers and shutdown. *)
Theorem concurrency_bounded e s :
  sys_reachable e s →
  handlers_running s None ≤ pool_size e ∧
  ∀ et reg, registry e !! et = Some reg → 0 < maxInflight (cfg reg) →
    handlers_running s (Some et) ≤ maxInflight (cfg reg).
Proof.
  intros (os & m & H)%reachable_inv. split.
  - apply (running_bound e s os m None globalPool H); [done|]. intros t _.
    unfold tokens_for. apply elem_of_app. right. by apply list_elem_of_singleton.
  - intros et reg Hr Hm.
    assert (type_sem reg et = Some (perTypeSem et (maxInflight (cfg reg)))) as Hs.
    { unfold type_sem. by destruct (Z.ltb_spec 0 (maxInflight (cfg reg))); [|lia]. }
    apply (running_bound e s os m (Some et) (perTypeSem et (maxInflight (cfg reg))) H); [by exists reg|].
    intros t [?|[= <-]]; [done|]. unfold tokens_for. rewrite Hr, Hs. simpl. by left.
Qed.

Lemma concurrency_bounded_witness :
  handlers_running (sim busy_schedule) None = 1 ∧
  handlers_running (sim busy_schedule) None ≤ 2 ∧
  handlers_running (sim busy_schedule) (Some "order.paid"%string) ≤ 1.
Proof.
  split; [vm_compute; reflexivity|].
  destruct (concurrency_bounded sim_engine (sim busy_schedule)) as [H1 H2]; [apply sim_reachable|].
  split; [exact H1|]. apply (H2 "order.paid"%string sim_registration); vm_compute; reflexivity.
Defined.

(** ** No panics *)

(** The receive that returns a token would block: nobody put it there. *)
Definition token_missing (e : engineConfig) (sh : shared) {B} (ef : eff B) : Prop :=
  match ef with ReleaseToken x => (semaphore e sh x).1 ≤ 0 | _ => False end.

Section Panics.
Context (e : engineConfig) (s : sys) (os : list owes) (m : mowes) (H : conc_inv e s os m).

Lemma go_no_panic i {B} (ef : eff B) k : sy_go s !! i = Some (EDo ef k) →
  ¬ panics (sy_sh s) ef ∧ ¬ token_missing e (sy_sh s) ef.
Proof.
  destruct H as [Hgo Hmain [Hnames Hnm] Htok Hinf Hph _]. intros Hi.
  destruct (Forall2_lookup_l _ _ _ _ _ Hgo Hi) as (o & Ho & Hf).
  destruct (answerable B ef) as [b Hb]. destruct (follows_step _ _ _ _ _ _ b Hf Hb) as [Hl _].
  destruct (g_effect e o ef b Hl) as (_ & _ & Hu & _).
  pose proof (zsum_lookup unsettled os i o unsettled_nonneg Ho) as Hpos.
  pose proof (names_of_legal e _ _ _ (Forall_lookup_1 _ _ _ _ Hnames Ho) Hl) as Hn.
  assert (∀ x, holds x o ≤ zsum (holds x) os) as Hh.
  { intros x. apply (zsum_lookup _ _ i); [apply holds_nonneg|done]. }
  destruct o as [held|]; [|done]. clear Hf Hi.
  revert b Hb Hl. destruct ef; intros b Hb Hl; try by split; intros [].
  - split; [intros []|]. simpl in *. destruct (Htok s0 Hn) as (H1 & _). specialize (Hh s0).
    destruct held as [|s' held]; [done|]. injection Hl as ->.
    pose proof (count_nonneg s0 (m_held m)).
    assert (1 ≤ holds s0 (Owes (s0 :: held))) by (apply count_elem; by left). lia.
  - split; [|intros []]. simpl. destruct (m_added m); lia.
  - split; [|intros []]. simpl. intros Hc. unfold phase_ok in Hph.
    destruct (sy_wait s); destruct Hph as (? & ? & Hph); try congruence; destruct Hph as (_ & Hz & _); lia.
Qed.

Lemma main_no_panic d {B} (ef : eff B) k : sy_main s = MPoll d (EDo ef k) →
  ¬ panics (sy_sh s) ef ∧ ¬ token_missing e (sy_sh s) ef.
Proof.
  destruct H as [Hgo Hmain [Hnames Hnm] Htok Hinf Hph _]. intros Hi.
  rewrite Hi in Hmain. destruct (answerable B ef) as [b Hb].
  destruct (follows_step _ _ _ _ _ _ b Hmain Hb) as [Hl _].
  destruct (m_names_ok e _ _ _ Hnm Hl) as [Hn _].
  revert b Hb Hl. clear Hmain Hi. destruct ef; intros b Hb Hl; try by split; intros [].
  split; [intros []|]. simpl in *. destruct Hl as [_ Hl]. destruct (Htok s0 Hn) as (H1 & _).
  pose proof (zsum_nonneg (holds s0) os (holds_nonneg s0)).
  destruct (m_held m) as [|s' held]; [done|]. injection Hl as ->.
  assert (1 ≤ count s0 (s0 :: held)) by (apply count_elem; by left). lia.
Qed.
End Panics.

(** C14: The engine's bookkeeping never goes wrong.  In every reachable state no
    goroutine is about to send on the closed acknowledgement channel, to take
    the wait group below zero or to return a token that is not there; and
    when drain is about to close the channel it is still open.  So no
    interleaving panics or blocks a goroutine that gives its token back. *)
Theorem engine_never_panics e s :
  sys_reachable e s →
  (∀ i B (ef : eff B) k, sy_go s !! i = Some (EDo ef k) →
     ¬ panics (sy_sh s) ef ∧ ¬ token_missing e (sy_sh s) ef) ∧
  (∀ d B (ef : eff B) k, sy_main s = MPoll d (EDo ef k) →
     ¬ panics (sy_sh s) ef ∧ ¬ token_missing e (sy_sh s) ef) ∧
  (sy_wait s = WWait → sh_closed (sy_sh s) = false).
Proof.
  intros (os & m & H)%reachable_inv. split_and!.
  - intros i B ef k. by eapply go_no_panic.
  - intros d B ef k. by eapply main_no_panic.
  - intros Hw. destruct H as [_ _ _ _ _ Hph _]. unfold phase_ok in Hph. rewrite Hw in Hph. apply Hph.
Qed.

Lemma engine_never_panics_witness :
  sy_wait (sim drain_schedule) = WWait ∧ sh_closed (sy_sh (sim drain_schedule)) = false.
Proof.
  split; [vm_compute; reflexivity|].
  apply (engine_never_panics sim_engine (sim drain_schedule)); [apply sim_reachable|vm_compute; reflexivity].
Defined.

(** ** Nothing is lost *)

(** A goroutine that owes nothing has ended. *)
Lemma settled_ended e (p : eprog unit) : follows (g_legal e) g_next p Settled Settled → p = ERet ().
Proof.
  destruct p as [[]|B ef k]; [done|]. intros Hf. destruct (answerable B ef) as [b Hb].
  by destruct (follows_step _ _ _ _ _ _ b Hf Hb).
Qed.

Lemma all_settled os : zsum unsettled os = 0 → ∀ o, o ∈ os → o = Settled.
Proof.
  intros Hz o [i Hi]%list_elem_of_lookup.
  pose proof (zsum_lookup unsettled os i o unsettled_nonneg Hi). destruct o; [simpl in *; lia|done].
Qed.

(** What the state is when the run loop has returned without error. *)
Lemma drained_done e s : sys_reachable e s → sy_main s = MReturned None →
  (∀ p, p ∈ sy_go s → p = ERet ()) ∧ sy_flushed s = sy_posted s ∧ sh_ch (sy_sh s) = [].
Proof.
  intros (os & m & [Hgo _ _ _ _ Hph Hack])%reachable_inv Hm.
  unfold phase_ok in Hph. rewrite Hm in Hph.
  assert (zsum unsettled os = 0 ∧ (hasBatchAcker e = true → sy_fl s = FDone)) as [Hz Hd].
  { destruct (sy_wait s); destruct Hph as (H1 & H2 & H3); try done. by destruct H3 as (_ & ? & ?). }
  split.
  - intros p [i Hi]%list_elem_of_lookup. destruct (Forall2_lookup_l _ _ _ _ _ Hgo Hi) as (o & Ho & Hf).
    rewrite (all_settled os Hz o) in Hf by (by eapply list_elem_of_lookup_2). by apply settled_ended in Hf.
  - destruct Hack as (pd & Hf & ->). unfold flusher_holds in Hf.
    assert (pd = [] ∧ sh_ch (sy_sh s) = []) as [-> ->]; [|by rewrite !app_nil_r].
    destruct (hasBatchAcker e) eqn:Ha.
    + rewrite Hd in Hf by done. by destruct Hf as (? & _ & _ & ?).
    + destruct (sy_fl s); [by destruct Hf as (? & _ & ?)|..]; exfalso.
      * by destruct Hf as (_ & _ & ?).
      * by destruct Hf as (? & _).
      * by destruct Hf as (_ & ? & _).
Qed.

(** C11: A clean shutdown loses nothing.  When the run loop returns without error
    every handler goroutine has finished, and every success that was posted for
    acknowledgement has been handed to BatchSucceed, each once and in the order
    posted; the channel is empty. *)
Theorem drained_lost_nothing e s :
  sys_reachable e s → sy_main s = MReturned None →
  (∀ p, p ∈ sy_go s → p = ERet ()) ∧ sy_flushed s = sy_posted s ∧ sh_ch (sy_sh s) = [].
Proof. apply drained_done. Qed.

Lemma drained_lost_nothing_witness :
  length (sy_posted (sim full_schedule)) = 1%nat ∧
  sy_flushed (sim full_schedule) = sy_posted (sim full_schedule).
Proof.
  split; [vm_compute; reflexivity|].
  apply (drained_lost_nothing sim_engine (sim full_schedule)); [apply sim_reachable|vm_compute; reflexivity].
Defined.
