(* ===== verification/DrainTermination.v ===== *)
(** * Draining ends

    Once drain has begun, every run of the handler goroutines, the flusher and
    the waiting goroutine is finite, whatever the scheduler does, and none gets
    stuck: the run loop returns without error unless the grace period ends
    first.  Ticks that find the flusher's buffer empty are not counted, nor is
    the grace timer.  A handler is one step: it returns. *)

From S2P Require Import Prelude GoErrors GoFloat Retry Message Effects Registry Engine EngineFacts EngineDispatch EngineConc EngineOwes EngineConcFacts EngineSim EngineDrain.

(** ** The steps that count *)

Definition drain_step (e : engineConfig) (s s' : sys) : Prop := ∃ a, sys_step e a s s' ∧
  match a with ACancel | AGrace => False | ATicker => sy_fl s ≠ FSelect [] | _ => True end.

(** ** Finite runs of the parts *)

(** What is left of a program after its next effect. *)
Definition child {A} (p q : eprog A) : Prop :=
  match p with ERet _ => False | EDo _ k => ∃ b, q = k b end.

(** One goroutine of the list performs its next effect. *)
Definition gs_step (l l' : list (eprog unit)) : Prop :=
  ∃ i p q, l !! i = Some p ∧ child p q ∧ l' = <[i := q]> l.

Lemma gs_finite l : sn gs_step l.
Proof.
  induction l as [|p l IH]; [constructor; by intros l' (i & p & q & Hi & _)|].
  revert l IH. induction p as [a|B ef k IHp]; intros l IH; induction IH as [l Hl IHl].
  - constructor. intros l' ([|i] & p & q & Hi & Hc & ->); simpl in *; [by simplify_eq|].
    apply IHl. by exists i, p, q.
  - constructor. intros l' ([|i] & p & q & Hi & Hc & ->); simpl in *.
    + simplify_eq. destruct Hc as [b ->]. apply IHp. by constructor.
    + apply IHl. by exists i, p, q.
Qed.

(** The flusher's own moves: those that hand nothing to storage and take nothing
    from the channel. *)
Definition fl_next (e : engineConfig) (f f' : flusher) : Prop :=
  match f with
  | NoFlusher | FDone => False
  | FSelect buf => (buf ≠ [] ∧ f' = FTurn (flush_turn e FlushTick buf)) ∨
                   f' = FTurn (flush_turn e FlushClosed buf)
  | FTurn (ERet (Some buf)) => f' = FSelect buf
  | FTurn (ERet None) => f' = FDone
  | FTurn (EDo ef k) => committed ef = [] ∧ ∃ b, f' = FTurn (k b)
  end.

Lemma fl_select_finite e buf : sn (fl_next e) (FSelect buf).
Proof.
  assert (∀ f, (∀ f', ¬ fl_next e f f') → sn (fl_next e) f) as Hnf.
  { intros f Hf. constructor. intros f' H. by destruct (Hf f'). }
  assert (∀ i x l, i = FlushTick ∨ i = FlushClosed → sn (fl_next e) (FTurn (flush_turn e i (x :: l)))) as Hcommit.
  { intros i x l Hi. apply Hnf. intros f' H. by destruct Hi as [-> | ->]; simpl in H; destruct H as [H _]. }
  constructor. intros f' [[Hb ->]| ->].
  - destruct buf as [|x l]; [done|]. apply Hcommit. auto.
  - destruct buf as [|x l]; [|apply Hcommit; auto]. constructor. intros f' H. simpl in H. subst f'.
    apply Hnf. by intros f' [].
Qed.

Lemma fl_finite e f : sn (fl_next e) f.
Proof.
  destruct f as [|buf|p|].
  - constructor. by intros f' [].
  - apply fl_select_finite.
  - induction p as [[buf|]|B ef k IH]; constructor; intros f' Hf; simpl in Hf.
    + subst. apply fl_select_finite.
    + subst. constructor. by intros f' [].
    + destruct Hf as [_ [b ->]]. apply IH.
  - constructor. by intros f' [].
Qed.

(** ** The measure *)

Definition rank (s : sys) : nat :=
  match sy_main s with MReturned _ => 0 | _ => 1 end +
  match sy_wait s with WNone => 3 | WWait => 2 | WFlush => 1 | WDone => 0 end +
  (length (sy_posted s) - length (sy_flushed s)) + length (sh_ch (sy_sh s)).

(** A step that counts moves a goroutine, lowers the rank, or keeps it and is
    the flusher's own. *)
Definition declines (e : engineConfig) (s s' : sys) : Prop :=
  gs_step (sy_go s) (sy_go s') ∨
  (sy_go s' = sy_go s ∧
   ((rank s' < rank s)%nat ∨ (rank s' = rank s ∧ fl_next e (sy_fl s) (sy_fl s')))).

Lemma drain_step_declines e s s' os m :
  conc_inv e s os m → sy_wait s ≠ WNone → drain_step e s s' → sy_wait s' ≠ WNone ∧ declines e s s'.
Proof.
  intros Hinv Hw (a & Hstep & Ha). destruct (step_inv e a s s' os m Hstep Hinv) as (os' & m' & Hinv').
  pose proof (ci_phase _ _ _ _ Hinv) as Hph. pose proof (ci_acks _ _ _ _ Hinv') as (pd' & _ & Hp').
  assert (¬ polling (sy_main s)) as Hnp.
  { unfold phase_ok in Hph. destruct (sy_wait s); [done| | |by destruct Hph];
      destruct Hph as [Hd _]; intros Hp; by destruct (sy_main s). }
  apply (f_equal length) in Hp'. rewrite !length_app in Hp'. unfold declines, rank.
  destruct Hstep; try done; try (by rewrite H in Hnp; destruct Hnp).
  - split; [done|]. right. split; [done|]. left. simpl. rewrite H. lia.
  - destruct (hasBatchAcker e); (split; [done|]); right; (split; [done|]); left; simpl; rewrite H; lia.
  - split; [done|]. right. split; [done|]. left. simpl. rewrite H. lia.
  - split; [done|]. left. 
    destruct (Forall2_lookup_l _ _ _ _ _ (ci_go _ _ _ _ Hinv) H) as (o & Ho & Hf).
    destruct (follows_step _ _ _ _ _ _ b Hf H1) as [Hl _].
    destruct (g_effect e o ef b Hl) as (_ & _ & _ & Hsp & _). simpl. rewrite Hsp, app_nil_r.
    exists i, (EDo ef k), (k b). split_and!; [done| |done]. by exists b.
  - split; [done|]. right. split; [done|]. left. simpl. rewrite H0. simpl. lia.
  - split; [done|]. right. split; [done|]. right. split; [done|]. simpl. rewrite H in *. left.
    split; [|done]. by intros ->.
  - split; [done|]. right. split; [done|]. right. split; [done|]. simpl. rewrite H. by right.
  - split; [done|]. right. split; [done|]. simpl in *. rewrite length_app in *.
    destruct (committed ef) as [|x l] eqn:E.
    + right. split; [simpl; lia|]. rewrite H. split; [done|]. by exists b.
    + left. simpl in *. lia.
  - split; [done|]. right. split; [done|]. right. split; [done|]. simpl. rewrite H. by destruct r.
Qed.

Lemma drain_finite e s os m : conc_inv e s os m → sy_wait s ≠ WNone → sn (drain_step e) s.
Proof.
  remember (sy_go s) as l eqn:El. revert s os m El.
  induction (gs_finite l) as [l _ IHl]. intros s. remember (rank s) as n eqn:En. revert s En.
  induction (lt_wf n) as [n _ IHn]. intros s. remember (sy_fl s) as f eqn:Ef. revert s Ef.
  induction (fl_finite e f) as [f _ IHf]. intros s -> -> os m -> Hinv Hw.
  constructor. intros s' Hs.
  destruct (drain_step_declines e s s' os m Hinv Hw Hs) as [Hw' Hd].
  destruct Hs as (a & Hs & _). destruct (step_inv e a s s' os m Hs Hinv) as (os' & m' & Hinv').
  destruct Hd as [Hg|[Hg [Hr|[Hr Hf]]]].
  - by apply (IHl _ Hg s' os' m').
  - by apply (IHn _ Hr s' eq_refl os' m').
  - by apply (IHf _ Hf s' eq_refl ltac:(by symmetry) os' m').
Qed.

(** ** Nothing is stuck *)

Section Progress.
Context (e : engineConfig).

(** The flusher can move while the channel is closed or has something in it. *)
Lemma flusher_moves s : sy_fl s ≠ NoFlusher → sy_fl s ≠ FDone →
  sh_closed (sy_sh s) = true ∨ sh_ch (sy_sh s) ≠ [] → ∃ s', sys_step e AFlusher s s'.
Proof.
  intros Hn Hd Hch. destruct (sy_fl s) as [|buf|[r|B ef k]|] eqn:Hf; try done.
  - destruct (sh_ch (sy_sh s)) as [|p ps] eqn:E.
    + eexists. apply (st_closed e s buf Hf E). by destruct Hch.
    + eexists. by apply (st_recv e s buf p ps).
  - eexists. by apply st_turned.
  - destruct (answerable B ef) as [b Hb]. eexists. by apply (st_turn e s B ef k b).
Qed.

(** A legal effect of a handler goroutine can complete, or waits for room in the
    channel. *)
Lemma effect_ready sh o {B} (ef : eff B) :
  (∀ b, world_ok B ef b → g_legal e o (Ev ef b)) → ¬ panics sh ef → ¬ token_missing e sh ef →
  (∃ b, ready e sh B ef b ∧ world_ok B ef b) ∨ (hasBatchAcker e = true ∧ sh_ch sh ≠ []).
Proof.
  intros Hl Hp Ht. destruct (answerable B ef) as [b Hb]. specialize (Hl b Hb).
  destruct o as [held|]; [|done].
  revert b Hb Hl Hp Ht. destruct ef; intros b Hb Hl Hp Ht; simpl in *; try done;
    try (left; by exists b).
  - left. exists (). split; [simpl; lia|done].
  - left. exists (). split; [simpl; lia|done].
  - destruct (Z.ltb_spec (Z.of_nat (length (sh_ch sh))) (ack_capacity e)) as [Hc|Hc].
    + left. exists (). split; [|done]. simpl. split; [by destruct (sh_closed sh)|done].
    + right. split; [by destruct Hl|]. intros Hn. rewrite Hn in Hc. unfold ack_capacity in Hc.
      pose proof (batch_size_pos e). simpl in Hc. lia.
  - left. by exists (sh_ctx sh).
  - left. by exists (sh_stopping sh).
Qed.

Lemma drain_progress s os m : conc_inv e s os m → sy_main s = MDrain → ∃ s', drain_step e s s'.
Proof.
  intros Hinv Hm. pose proof (ci_phase _ _ _ _ Hinv) as Hph. unfold phase_ok in Hph.
  destruct (ci_acks _ _ _ _ Hinv) as (pd & Hfl & _). unfold flusher_holds in Hfl.
  assert (sy_fl s ≠ NoFlusher → sy_fl s ≠ FDone → sh_closed (sy_sh s) = true ∨ sh_ch (sy_sh s) ≠ [] →
    ∃ s', drain_step e s s') as Hmove.
  { intros Hn Hd Hc. destruct (flusher_moves s Hn Hd Hc) as [s' Hs]. exists s', AFlusher. by split. }
  destruct (sy_wait s) eqn:Hw; rewrite ?Hm in Hph.
  - by destruct Hph.
  - destruct Hph as (_ & Hcl & _). destruct (decide (sh_inflight (sy_sh s) = 0)) as [Hz|Hz].
    { eexists. exists AWaiter. split; [by apply st_waited|done]. }
    pose proof (ci_main _ _ _ _ Hinv) as Hidle. rewrite Hm in Hidle. simpl in Hidle. subst m.
    rewrite (ci_inflight _ _ _ _ Hinv), Z.add_0_r in Hz.
    destruct (zsum_positive unsettled os) as (i & o & Ho & Hu); [done|].
    destruct (Forall2_lookup_r _ _ _ _ _ (ci_go _ _ _ _ Hinv) Ho) as (p & Hp & Hf).
    destruct p as [[]|B ef k]; [apply follows_ended in Hf; by subst|].
    destruct (go_no_panic e s os idle Hinv i ef k Hp) as [Hnp Hnt].
    destruct (effect_ready (sy_sh s) o ef) as [(b & Hr & Hb)|[Ha Hch]]; [|done|done| |].
    + intros b Hb. by destruct (follows_step _ _ _ _ _ _ b Hf Hb).
    + eexists. exists (AHandler i). split; [by eapply st_go|done].
    + apply Hmove; [| |by right]; intros Hx; rewrite Hx in Hfl; [|destruct Hfl as (_ & _ & ? & _); congruence].
      destruct Hfl as (_ & ? & _); congruence.
  - destruct Hph as (_ & Hcl & _ & _ & Ha).
    destruct (sy_fl s) eqn:Hx; try (apply Hmove; [done|done|by left]).
    + destruct Hfl as (_ & ? & _). congruence.
    + eexists. exists AWaiter. split; [by apply st_flushed|done].
  - eexists. exists ARun. split; [by apply st_drained|done].
Qed.

Lemma drain_stays s s' : drain_step e s s' → sy_main s = MDrain →
  sy_main s' = MDrain ∨ sy_main s' = MReturned None.
Proof.
  intros (a & Hs & Ha) Hm. destruct Hs; simpl in *; try done; try congruence; auto.
  destruct (hasBatchAcker e); auto.
Qed.

Lemma returned_stays s s' : drain_step e s s' → sy_main s = MReturned None → sy_main s' = MReturned None.
Proof.
  intros (a & Hs & Ha) Hm. destruct Hs; simpl in *; try done; try congruence.
  by destruct (hasBatchAcker e).
Qed.

Lemma drain_reaches s s' : rtc (drain_step e) s s' → sys_reachable e s →
  sy_main s = MDrain ∨ sy_main s = MReturned None →
  sys_reachable e s' ∧ (sy_main s' = MDrain ∨ sy_main s' = MReturned None).
Proof.
  induction 1 as [|x y z Hxy _ IH]; [done|]. intros Hr Hm. apply IH.
  - destruct Hxy as (a & Hs & _). eapply rtc_r; [exact Hr|]. by exists a.
  - destruct Hm as [Hm|Hm]; [by eapply drain_stays|]. right. by eapply returned_stays.
Qed.
End Progress.

(** C12: Drain terminates.  From any reachable state in which the run loop has
    entered drain, every execution of the handler goroutines, the flusher and
    the waiting goroutine is finite, and it can only stop with the run loop
    returned without error: there is no deadlock and no livelock, the
    acknowledgement channel being full included, as long as handlers return
    and the grace period has not passed. *)
Theorem drain_terminates e s :
  sys_reachable e s → sy_main s = MDrain →
  sn (drain_step e) s ∧
  ∀ s', rtc (drain_step e) s s' → nf (drain_step e) s' → sy_main s' = MReturned None.
Proof.
  intros Hr Hm. destruct (reachable_inv e s Hr) as (os & m & Hinv). split.
  - apply (drain_finite e s os m Hinv). intros Hw. pose proof (ci_phase _ _ _ _ Hinv) as Hph.
    unfold phase_ok in Hph. rewrite Hw, Hm in Hph. by destruct Hph.
  - intros s' Hs Hnf. destruct (drain_reaches e s s' Hs Hr (or_introl Hm)) as [Hr' [Hm'|Hm']]; [|done].
    destruct (reachable_inv e s' Hr') as (os' & m' & Hinv'). destruct Hnf.
    by apply (drain_progress e s' os' m').
Qed.

Lemma drain_terminates_witness :
  sh_ch (sy_sh (sim drain_schedule)) ≠ [] ∧ sn (drain_step sim_engine) (sim drain_schedule).
Proof.
  split; [vm_compute; discriminate|].
  apply (drain_terminates sim_engine (sim drain_schedule)); [apply sim_reachable|vm_compute; reflexivity].
Defined.
