(* ===== verification/Client.v ===== *)
(** * The producer's client (client.go)

    [Enqueue] and [EnqueueBatch] as programs over the Storage interface: the
    defaults they fill in, what they report, and the best-effort wake-up
    notifications. *)

From S2P Require Import Prelude GoErrors Message Effects.

Record ClientConfig := mkClientConfig {
  DefaultMaxAttempts : Z;
  hasNotifier : bool;             (* cfg.Storage.(Notifier) succeeded *)
}.

Definition NewClient (storage : bool) (c : ClientConfig) : error + ClientConfig :=
  if negb storage then inl (errorString "tickr: ClientConfig.Storage is required")
  else inr (mkClientConfig (if DefaultMaxAttempts c <=? 0 then 10 else DefaultMaxAttempts c)
              (hasNotifier c)).

Section Client.
Context (c : ClientConfig).

(** The attempt budget and the due time, defaulted. *)
Definition max_attempts (msg : Message) : Z :=
  if msg_MaxAttempts msg <=? 0 then DefaultMaxAttempts c else msg_MaxAttempts msg.

Definition process_at (msg : Message) : eprog Time :=
  if IsZero (msg_ScheduledAt msg) then perform Now else mret (msg_ScheduledAt msg).

Definition enqueue_params (msg : Message) (headers : Headers) (processAt : Time) : EnqueueParams :=
  mkEnqueueParams (msg_Type msg) (msg_Payload msg) headers (msg_IdempotencyKey msg)
    (max_attempts msg) processAt.

(** What Enqueue does with the storage's answer. *)
Definition after_enqueue (tx : Tx) (msg : Message) (out : option InboundMessage)
    (err : option error) : eprog (MessageID * option error) :=
  if isSome err && negb (IsDuplicate err) then
    _ ← perform (EndSpan (EnqueueSpan (msg_Type msg)) err); mret (""%string, err)
  else
    _ ← perform (EndSpan (EnqueueSpan (msg_Type msg)) None);
    match out with
    | None => mret (""%string, err)
    | Some m =>
      _ ← perform (Metric (MessageEnqueued (msg_Type msg)));
      _ ← (if negb (IsDuplicate err) && hasNotifier c
           then _ ← perform (Call (StNotify tx (msg_Type msg))); mret ()
           else mret ());
      mret (im_ID m, err)
    end.

Definition Enqueue (tx : Tx) (msg : Message) : eprog (MessageID * option error) :=
  if bool_decide (msg_Type msg = ""%string) then
    mret (""%string, Some (errorString "tickr: Message.Type required"))
  else
    _ ← perform (StartSpan (EnqueueSpan (msg_Type msg)));
    headers ← perform (InjectHeaders (msg_Headers msg));
    processAt ← process_at msg;
    '(out, err) ← perform (Call (StEnqueue tx (enqueue_params msg headers processAt)));
    after_enqueue tx msg out err.

(** The loop that builds [params]; the error names the first bad index. *)
Fixpoint batch_params (i : Z) (msgs : list Message) : eprog (error + list EnqueueParams) :=
  match msgs with
  | [] => mret (inr [])
  | msg :: msgs =>
    if bool_decide (msg_Type msg = ""%string) then
      mret (inl (errorString ("tickr: batch item " ++ pretty i ++ ": Message.Type required")%string))
    else
      _ ← perform (StartSpan (EnqueueSpan (msg_Type msg)));
      headers ← perform (InjectHeaders (msg_Headers msg));
      _ ← perform (EndSpan (EnqueueSpan (msg_Type msg)) None);
      processAt ← process_at msg;
      rest ← batch_params (i + 1) msgs;
      mret (match rest with
            | inl e => inl e
            | inr ps => inr (enqueue_params msg headers processAt :: ps)
            end)
  end.

(** The loop over [out]: ids by index, and one notification per distinct type. *)
Fixpoint batch_ids (tx : Tx) (seen : gset string) (out : list (option InboundMessage))
    : eprog (list MessageID) :=
  match out with
  | [] => mret []
  | None :: out => ids ← batch_ids tx seen out; mret (""%string :: ids)
  | Some m :: out =>
    _ ← perform (Metric (MessageEnqueued (im_Type m)));
    seen' ← (if hasNotifier c && negb (bool_decide (im_Type m ∈ seen))
             then _ ← perform (Call (StNotify tx (im_Type m))); mret ({[im_Type m]} ∪ seen)
             else mret seen);
    ids ← batch_ids tx seen' out;
    mret (im_ID m :: ids)
  end.

Definition EnqueueBatch (tx : Tx) (msgs : list Message) : eprog (list MessageID * option error) :=
  match msgs with
  | [] => mret ([], None)
  | _ =>
    params ← batch_params 0 msgs;
    match params with
    | inl e => mret ([], Some e)
    | inr ps =>
      '(out, err) ← perform (Call (StEnqueueBatch tx ps));
      ids ← batch_ids tx ∅ out;
      mret (ids, err)
    end
  end.
End Client.

(** ** Properties *)

(** The storage calls of a trace, with their answers. *)
Definition is_call (ev : event) : bool :=
  match ev with Ev e _ => match e with Call _ => true | _ => false end end.
Definition calls_of (t : list event) : list event := filter (λ ev, is_call ev) t.

Lemma calls_of_app t t' : calls_of (t ++ t') = calls_of t ++ calls_of t'.
Proof. apply filter_app. Qed.

(** The parameters a message must be stored with: its own fields, the headers
    with the trace context injected, a default budget, a due time of now. *)
Definition params_for (c : ClientConfig) (t : list event) (msg : Message) (p : EnqueueParams) : Prop :=
  ∃ h now, p = mkEnqueueParams (msg_Type msg) (msg_Payload msg) h (msg_IdempotencyKey msg)
      (if 0 <? msg_MaxAttempts msg then msg_MaxAttempts msg else DefaultMaxAttempts c)
      (if IsZero (msg_ScheduledAt msg) then now else msg_ScheduledAt msg) ∧
    Ev (InjectHeaders (msg_Headers msg)) h ∈ t ∧
    (IsZero (msg_ScheduledAt msg) = true → Ev Now now ∈ t).

Lemma params_for_mono c t t' msg p :
  (∀ ev, ev ∈ t → ev ∈ t') → params_for c t msg p → params_for c t' msg p.
Proof. intros Hs (h & now & ? & ? & ?). exists h, now. split_and!; auto. Qed.

(** The notification of one enqueue, with whatever answer. *)
Definition notified (t : list event) (tx : Tx) (types : list string) : Prop :=
  ∃ errs, t = zip_with (λ et (err : option error), Ev (Call (StNotify tx et)) err) types errs ∧
    length errs = length types.

Section Facts.
Context (ok : ∀ B, eff B → B → Prop) (c : ClientConfig).

Lemma params_spec msg h at_ t now :
  at_ = (if IsZero (msg_ScheduledAt msg) then now else msg_ScheduledAt msg) →
  Ev (InjectHeaders (msg_Headers msg)) h ∈ t →
  (IsZero (msg_ScheduledAt msg) = true → Ev Now now ∈ t) →
  params_for c t msg (enqueue_params c msg h at_).
Proof.
  intros -> Hh Hn. exists h, now. split_and!; try done.
  unfold enqueue_params, max_attempts. f_equal.
  by destruct (Z.leb_spec (msg_MaxAttempts msg) 0), (Z.ltb_spec 0 (msg_MaxAttempts msg)); try lia.
Qed.

(** The span, the headers (after which a batch ends the span), then the due
    time: no storage call, and the parameters follow. *)
Lemma every_params {A} msg (closing : eprog unit) (k : EnqueueParams → eprog A) P :
  every ok closing (λ t _, calls_of t = []) →
  (∀ t p, calls_of t = [] → params_for c t msg p → every ok (k p) (λ l a, P (t ++ l) a)) →
  every ok (_ ← perform (StartSpan (EnqueueSpan (msg_Type msg)));
            headers ← perform (InjectHeaders (msg_Headers msg));
            _ ← closing; processAt ← process_at msg; k (enqueue_params c msg headers processAt)) P.
Proof.
  intros Hc Hk. apply every_bind, every_perform. intros [] _.
  apply every_bind, every_perform. intros h _.
  eapply every_seq; [exact Hc|]. intros tc [] Htc. apply every_bind.
  set (t0 := [Ev (StartSpan (EnqueueSpan (msg_Type msg))) (); Ev (InjectHeaders (msg_Headers msg)) h] ++ tc).
  assert (Ev (InjectHeaders (msg_Headers msg)) h ∈ t0) as Hin by (right; left).
  unfold process_at. destruct (IsZero (msg_ScheduledAt msg)) eqn:Ez.
  - apply every_perform. intros now _.
    eapply every_mono; [|apply (Hk (t0 ++ [Ev Now now]))].
    + intros l a H. unfold t0 in H. by rewrite <- !app_assoc in H.
    + unfold t0. by rewrite !calls_of_app, Htc.
    + apply (params_spec _ _ _ _ now); [by rewrite Ez|set_solver|set_solver].
  - apply every_ret. apply (Hk t0); [by unfold t0; rewrite calls_of_app, Htc|].
    apply (params_spec _ _ _ _ 0); [by rewrite Ez|done|]. by rewrite Ez.
Qed.

Lemma batch_params_ok i msgs :
  every ok (batch_params c i msgs) (λ t r, calls_of t = [] ∧
    match r with
    | inl _ => ∃ msg, msg ∈ msgs ∧ msg_Type msg = ""%string
    | inr ps => Forall2 (params_for c t) msgs ps ∧ Forall (λ msg, msg_Type msg ≠ ""%string) msgs
    end).
Proof.
  revert i. induction msgs as [|msg msgs IH]; intros i; cbn [batch_params].
  { apply every_ret. auto. }
  case_bool_decide as Hty.
  { apply every_ret. split; [done|]. exists msg. split; [left|done]. }
  apply (every_params msg (perform (EndSpan (EnqueueSpan (msg_Type msg)) None))
    (λ p, rest ← batch_params c (i + 1) msgs;
    mret match rest with inl e => inl e | inr ps => inr (p :: ps) end)); [done|].
  intros t p Ht Hp. apply every_bind. eapply every_mono; [|apply IH].
  intros t' r [Ht' Hr]. apply every_ret. rewrite app_nil_r, calls_of_app, Ht, Ht'. split; [done|].
  destruct r as [e|ps].
  - destruct Hr as (m & ? & ?). exists m. split; [by right|done].
  - destruct Hr as [Hps Hf]. split; [|by constructor]. constructor.
    + eapply params_for_mono; [|exact Hp]. set_solver.
    + eapply Forall2_impl; [exact Hps|]. intros m q. apply params_for_mono. set_solver.
Qed.

(** The types to notify: those of the stored messages, each at its first place. *)
Fixpoint first_types (seen : gset string) (out : list (option InboundMessage)) : list string :=
  match out with
  | [] => []
  | None :: out => first_types seen out
  | Some m :: out =>
    if bool_decide (im_Type m ∈ seen) then first_types seen out
    else im_Type m :: first_types ({[im_Type m]} ∪ seen) out
  end.

Lemma first_types_spec seen out :
  NoDup (first_types seen out) ∧
  ∀ et, et ∈ first_types seen out ↔ (et ∉ seen) ∧ (∃ m, Some m ∈ out ∧ im_Type m = et).
Proof.
  revert seen. induction out as [|[m|] out IH]; intros seen; simpl.
  - split; [constructor|]. intros et. set_solver.
  - destruct (IH ({[im_Type m]} ∪ seen)) as [Hnd Hin]. destruct (IH seen) as [Hnd' Hin'].
    case_bool_decide as Hs; [split; [done|]|split].
    + intros et. rewrite Hin'. split; [set_solver|].
      intros [? (m' & [[= ->]|?]%elem_of_cons & <-)]; [done|]. split; [done|]. by exists m'.
    + constructor; [|done]. rewrite Hin. set_solver.
    + intros et. rewrite elem_of_cons, Hin. split.
      * intros [->|[? (m' & ? & ?)]]; [split; [done|]; exists m; split; [left|done]|].
        split; [set_solver|]. exists m'. split; [by right|done].
      * intros [? (m' & [[= ->]|?]%elem_of_cons & <-)]; [by left|].
        destruct (decide (im_Type m' = im_Type m)); [by left|right]. split; [set_solver|]. by exists m'.
  - destruct (IH seen) as [Hnd Hin]. split; [done|]. intros et. rewrite Hin. split.
    + intros [? (m & ? & ?)]. split; [done|]. exists m. split; [by right|done].
    + intros [? (m & [?|?]%elem_of_cons & ?)]; [done|]. split; [done|]. by exists m.
Qed.

Lemma notified_cons t t' tx et err types :
  calls_of t = [Ev (Call (StNotify tx et)) err] → notified (calls_of t') tx types →
  notified (calls_of (t ++ t')) tx (et :: types).
Proof.
  intros Ht (errs & Ht' & Hl). exists (err :: errs). rewrite calls_of_app, Ht, Ht'. simpl. by rewrite Hl.
Qed.

Lemma batch_ids_ok tx seen out :
  every ok (batch_ids c tx seen out) (λ t ids,
    ids = (λ o, default ""%string (im_ID <$> o)) <$> out ∧
    notified (calls_of t) tx (if hasNotifier c then first_types seen out else [])).
Proof.
  revert seen. induction out as [|[m|] out IH]; intros seen; cbn [batch_ids first_types].
  - apply every_ret. split; [done|]. exists []. by destruct (hasNotifier c).
  - apply every_bind, every_perform. intros [] _. destruct (hasNotifier c) eqn:Hn; cbn [andb].
    + case_bool_decide as Hs; cbn [negb]; apply every_bind.
      * apply every_ret, every_bind. eapply every_mono; [|apply IH]. intros t ids [-> Ht].
        apply every_ret. rewrite app_nil_r. split; [done|exact Ht].
      * apply every_bind, every_perform. intros err _. apply every_ret, every_bind.
        eapply every_mono; [|apply IH]. intros t ids [-> Ht]. apply every_ret. rewrite !app_nil_r.
        split; [done|]. rewrite app_assoc.
        eapply notified_cons; [reflexivity|exact Ht].
    + apply every_bind, every_ret, every_bind. eapply every_mono; [|apply IH]. intros t ids [-> Ht].
      apply every_ret. rewrite app_nil_r. split; [done|exact Ht].
  - apply every_bind. eapply every_mono; [|apply IH]. intros t ids [-> Ht]. apply every_ret.
    by rewrite app_nil_r.
Qed.
Lemma after_enqueue_ok tx msg out err :
  every ok (after_enqueue c tx msg out err) (λ t r,
    r = ((if negb (isSome err) || IsDuplicate err then default ""%string (im_ID <$> out) else ""%string), err) ∧
    notified (calls_of t) tx
      (if isSome out && negb (isSome err) && hasNotifier c then [msg_Type msg] else [])).
Proof.
  unfold after_enqueue.
  destruct err as [er|]; cbn [isSome andb negb orb]; [destruct (IsDuplicate (Some er)) eqn:Hd; cbn [negb]|].
  - destruct out as [m|]; cbn; intros; (split; [done|]); by exists [].
  - apply every_bind, every_perform. intros [] _. apply every_ret. split; [done|].
    exists []. by rewrite andb_false_r.
  - apply every_bind, every_perform. intros [] _.
    destruct out as [m|]; [|apply every_ret; split; [done|]; by exists []].
    change (IsDuplicate None) with false. cbn [negb isSome andb].
    apply every_bind, every_perform. intros [] _. destruct (hasNotifier c); cbn.
    + intros nerr _. split; [done|]. by exists [nerr].
    + split; [done|]. by exists [].
Qed.
End Facts.

(** Client.Enqueue does one insert, and only the insert decides its result.
    On every path: without a type it reports an error and calls no storage
    operation; otherwise it calls Storage.Enqueue once, with the message's own
    fields, the injected headers and the defaults for budget and due time, and
    reports the error of that call together with the id of the stored message,
    also when the error is a duplicate (then it is the existing id), but no id
    for any other error.  It notifies once, in the same transaction, exactly
    when a new message was stored and the adapter can notify; the outcome of
    the notification changes nothing. *)
Theorem client_enqueue ok c tx msg :
  every ok (Enqueue c tx msg) (λ t r,
    if bool_decide (msg_Type msg = ""%string) then calls_of t = [] ∧ r.1 = ""%string ∧ isSome r.2 = true
    else ∃ p out err rest,
      calls_of t = Ev (Call (StEnqueue tx p)) (out, err) :: rest ∧ params_for c t msg p ∧
      let stored := negb (isSome err) || IsDuplicate err in
      r = ((if stored then default ""%string (im_ID <$> out) else ""%string), err) ∧
      notified rest tx (if isSome out && negb (isSome err) && hasNotifier c then [msg_Type msg] else [])).
Proof.
  unfold Enqueue. case_bool_decide; [by apply every_ret|].
  refine (every_params ok c msg (mret ()) (λ p, '(out, err) ← perform (Call (StEnqueue tx p));
    after_enqueue c tx msg out err) _ _ _); [done|].
  intros t p Ht Hp. apply every_bind, every_perform. intros [out err] _.
  eapply every_mono; [|apply after_enqueue_ok]. intros l r [-> Hn]. exists p, out, err, (calls_of l).
  rewrite !calls_of_app, Ht. split_and!; try done.
  eapply params_for_mono; [|exact Hp]. set_solver.
Qed.

(** Client.EnqueueBatch is one round trip, parallel to its input.  On every
    path: for no messages it does nothing; if some message has no type it
    reports an error and calls no storage operation at all; otherwise it makes
    one EnqueueBatch call whose parameters are those of the messages, in order,
    and returns the ids of the stored messages index by index ("" where storage
    returned nil) with storage's error, and then notifies, if the adapter can,
    each type among the stored messages exactly once. *)
Theorem client_enqueue_batch ok c tx msgs :
  every ok (EnqueueBatch c tx msgs) (λ t r,
    (msgs = [] ∧ t = [] ∧ r = ([], None)) ∨
    (calls_of t = [] ∧ r.1 = [] ∧ isSome r.2 = true ∧ ∃ msg, msg ∈ msgs ∧ msg_Type msg = ""%string) ∨
    (Forall (λ msg, msg_Type msg ≠ ""%string) msgs ∧ ∃ ps out err rest types,
       calls_of t = Ev (Call (StEnqueueBatch tx ps)) (out, err) :: rest ∧
       Forall2 (params_for c t) msgs ps ∧
       r = ((λ o, default ""%string (im_ID <$> o)) <$> out, err) ∧
       notified rest tx types ∧ NoDup types ∧
       ∀ et, et ∈ types ↔ hasNotifier c = true ∧ ∃ m, Some m ∈ out ∧ im_Type m = et)).
Proof.
  unfold EnqueueBatch. destruct msgs as [|msg msgs]; [apply every_ret; by left|].
  remember (msg :: msgs) as l eqn:El. clear El msg msgs.
  apply every_bind. eapply every_mono; [|apply batch_params_ok]. intros t r [Ht Hr].
  destruct r as [e|ps].
  { apply every_ret. right; left. by rewrite app_nil_r. }
  destruct Hr as [Hps Hty].
  apply every_bind, every_perform. intros [out err] _. apply every_bind.
  eapply every_mono; [|apply batch_ids_ok]. intros t' ids [-> Hn]. apply every_ret.
  right; right. split; [done|]. rewrite app_nil_r.
  exists ps, out, err, (calls_of t'), (if hasNotifier c then first_types ∅ out else []).
  rewrite !calls_of_app, Ht. split_and!; try done.
  - eapply Forall2_impl; [exact Hps|]. intros m q. apply params_for_mono. set_solver.
  - destruct (hasNotifier c); [apply first_types_spec|constructor].
  - intros et. destruct (hasNotifier c); [|set_solver]. rewrite (proj2 (first_types_spec ∅ out)). set_solver.
Qed.
