(* ===== verification/Spans.v ===== *)
(** * Every span is ended

    The tracing calls of the engine and the client as a discipline on the events
    of a program (file EngineOwes): one span at a time, around exactly the work
    it names, ended once with that work's result. *)

From S2P Require Import Prelude GoErrors Message Effects Registry Engine EngineFacts EngineDispatch EngineConc EngineOwes Client.

(** The span a goroutine has open, and the result it is to be ended with once
    the work inside has answered. *)
Inductive open_span := NoSpan | Open (sp : span) (result : option (option error)).

(** The errors a span of the client reports: a duplicate is not one. *)
Definition enqueue_result (err : option error) : option error :=
  if isSome err && negb (IsDuplicate err) then err else None.

(** A span opens when none is open and ends with the result of its work; the
    handler runs in the span of its message (a batch in that of its first), a
    claim and an enqueue in theirs, and every other storage call in none. *)
Definition sp_legal (o : open_span) (ev : event) : Prop :=
  match ev with
  | Ev ef _ =>
    match ef with
    | StartSpan _ => o = NoSpan
    | EndSpan sp err => o = Open sp None ∨ o = Open sp (Some err)
    | Invoke _ m => o = Open (HandlerSpan m) None
    | InvokeBatch _ ms => o = match ms with m :: _ => Open (HandlerSpan m) None | [] => NoSpan end
    | Call c =>
      match c with
      | StClaim _ => o = Open ClaimSpan None
      | StEnqueue _ p => o = Open (EnqueueSpan (ep_EventType p)) None
      | _ => o = NoSpan
      end
    | _ => True
    end
  end.

Definition with_result (o : open_span) (r : option error) : open_span :=
  match o with Open sp _ => Open sp (Some r) | NoSpan => NoSpan end.

Definition sp_next (o : open_span) (ev : event) : open_span :=
  match ev with
  | Ev ef b =>
    match ef in eff B return B → open_span with
    | StartSpan sp => λ _, Open sp None
    | EndSpan _ _ => λ _, NoSpan
    | Invoke _ _ => λ r, with_result o (safeInvoke r)
    | InvokeBatch _ _ => λ r, with_result o (safeInvokeBatch r)
    | Call c =>
      match c in call B return B → open_span with
      | StClaim _ => λ b, with_result o b.2
      | StEnqueue _ _ => λ b, with_result o (enqueue_result b.2)
      | _ => λ _, o
      end
    | _ => λ _, o
    end b
  end.

Abbreviation sp_follows := (follows sp_legal sp_next).

(** Programs without tracing, claims and handlers. *)
Ltac sp_neutral :=
  repeat first
    [ apply follows_ret
    | apply follows_perform; intros; by split
    | apply follows_keep; [|intros ?]
    | apply follows_each; intros ? _
    | match goal with |- follows _ _ (match ?x with _ => _ end) _ _ => destruct x end ].

(** One event, then the rest. *)
Lemma sp_then {A B} (ef : eff B) (k : B → eprog A) o fin :
  (∀ b, sp_legal o (Ev ef b)) → (∀ b, sp_follows (k b) (sp_next o (Ev ef b)) fin) →
  sp_follows (perform ef ≫= k) o fin.
Proof.
  intros Hl Hk b Hb. eapply every_mono; [|apply Hk]. intros l a H. by split.
Qed.

(** A part that leaves the span as it is. *)
Lemma sp_keep {A B} (p : eprog A) (k : A → eprog B) o fin :
  sp_follows p o o → (∀ a, sp_follows (k a) o fin) → sp_follows (p ≫= k) o fin.
Proof. apply follows_bind. Qed.

Section Engine.
Context (e : engineConfig).

Lemma commitOutcome_spans m c err o : sp_follows (commitOutcome e m c err o) NoSpan NoSpan.
Proof. unfold commitOutcome, alert_if, msg_alert, retry_delay. destruct o; sp_neutral. Qed.

Lemma resolveOutcome_spans err o : sp_follows (resolveOutcome err) o o.
Proof. unfold resolveOutcome. sp_neutral. Qed.

Lemma with_attempt_spans c ms st body :
  sp_follows body NoSpan NoSpan → sp_follows (with_attempt c ms st body) NoSpan NoSpan.
Proof.
  intros Hb. unfold with_attempt, return_tokens.
  do 2 (apply follows_keep; [sp_neutral|intros _]). apply follows_keep; [exact Hb|intros _]. sp_neutral.
Qed.

(** The span around an invocation; a registration without the handler makes the
    invocation a nil dereference, whose panic is the result. *)
Definition invocation (sp : open_span) (r : option error) (o : open_span) : Prop :=
  o = with_result sp r ∨ o = sp.

Lemma invoke_spans {A} m reg (k : handler_result → eprog A) fin :
  (∀ r o, invocation (Open (HandlerSpan m) None) (safeInvoke r) o → sp_follows (k r) o fin) →
  sp_follows (invoke reg m ≫= k) (Open (HandlerSpan m) None) fin.
Proof.
  intros Hk. unfold invoke. destruct (handler reg) as [h|].
  - apply sp_then; [done|]. intros r. apply Hk. by left.
  - apply (Hk (Panicked (inl nil_deref))). by right.
Qed.

Lemma attempt_spans m reg : sp_follows (attempt e m reg) NoSpan NoSpan.
Proof.
  unfold attempt. apply sp_then; [done|intros []]. cbn [sp_next].
  do 2 (apply sp_keep; [sp_neutral|intros ?]).
  apply invoke_spans. intros r o Ho. apply sp_keep; [sp_neutral|intros stop].
  apply sp_then; [intros ?; destruct Ho as [->| ->]; simpl; auto|intros []]. cbn [sp_next].
  apply follows_keep; [apply resolveOutcome_spans|intros oc].
  apply follows_keep; [sp_neutral|intros _]. apply commitOutcome_spans.
Qed.

Lemma batch_attempt_spans ms reg : sp_follows (batch_attempt e ms reg) NoSpan NoSpan.
Proof.
  unfold batch_attempt. set (sp := match ms with m :: _ => Open (HandlerSpan m) None | [] => NoSpan end).
  apply (follows_bind _ _ _ _ _ sp); [|intros _].
  { unfold sp. destruct ms as [|m ms]; simpl; [apply follows_ret|].
    apply sp_then; [done|intros []]. apply follows_ret. }
  do 2 (apply sp_keep; [sp_neutral|intros ?]). unfold invokeBatch.
  apply (every_seq _ _ _ (λ l r, ∃ o, lawful sp_legal sp_next sp l o ∧
    invocation sp (safeInvokeBatch r) o)).
  { destruct (batchHandler reg) as [h|]; [|exists sp; split; [done|by right]].
    intros r _. exists (with_result sp (safeInvokeBatch r)). split; [done|by left]. }
  intros l r (o & Hl & Ho). eapply every_mono; [intros l' b; apply lawful_app, Hl|].
  apply sp_keep; [sp_neutral|intros stop].
  apply (follows_bind _ _ _ _ _ NoSpan); [|intros _].
  { unfold sp in Ho. destruct ms as [|m ms]; cbn [take each].
    - destruct Ho as [->| ->]; apply follows_ret.
    - apply sp_then; [intros ?; destruct Ho as [->| ->]; simpl; auto|intros []]. apply follows_ret. }
  apply follows_keep; [apply resolveOutcome_spans|intros oc].
  apply follows_keep; [sp_neutral|intros _].
  apply follows_each. intros m _. apply commitOutcome_spans.
Qed.

Lemma task_spans t : sp_follows (task_body e t) NoSpan NoSpan.
Proof.
  destruct t; apply with_attempt_spans; [apply attempt_spans|apply batch_attempt_spans].
Qed.

Lemma failNoHandler_spans m : sp_follows (failNoHandler e m) NoSpan NoSpan.
Proof. unfold failNoHandler, msg_alert. sp_neutral. Qed.

Lemma with_tokens_spans st start abandon :
  sp_follows start NoSpan NoSpan → sp_follows abandon NoSpan NoSpan →
  sp_follows (with_tokens st start abandon) NoSpan NoSpan.
Proof. intros. unfold with_tokens. sp_neutral; done. Qed.

Lemma dispatch_spans t reason ms st :
  sp_follows (with_tokens st (go t) (each (releaseForShutdown e reason) ms)) NoSpan NoSpan.
Proof. apply with_tokens_spans; unfold go, releaseForShutdown; sp_neutral. Qed.

Lemma partition_spans msgs gs : sp_follows (partition e msgs gs) NoSpan NoSpan.
Proof.
  revert gs. induction msgs as [|m msgs IH]; intros gs; cbn [partition]; [apply follows_ret|].
  destruct (lookup_handler _ _) as [reg|]; [|apply follows_keep; [apply failNoHandler_spans|auto]].
  destruct (batchHandler reg); [apply IH|]. apply follows_keep; [|auto].
  apply with_tokens_spans; unfold go, releaseForShutdown; sp_neutral.
Qed.

Lemma pollOnce_spans : sp_follows (pollOnce e) NoSpan NoSpan.
Proof.
  unfold pollOnce. apply follows_keep; [sp_neutral|intros []]; [apply follows_ret|].
  apply follows_keep; [sp_neutral|intros [|et types]]; [apply follows_ret|].
  apply sp_then; [done|intros []]. cbn [sp_next].
  apply sp_keep; [sp_neutral|intros start]. apply sp_then; [done|intros [msgs err]].
  apply sp_then; [by right|intros []]. cbn [sp_next]. destruct err; [sp_neutral|].
  do 2 (apply follows_keep; [sp_neutral|intros ?]).
  apply follows_keep; [apply partition_spans|intros gs].
  apply follows_keep; [sp_neutral|intros order]. apply follows_keep; [|intros _; apply follows_ret].
  apply follows_each. intros et' _. unfold dispatch_group, dispatchBatches.
  destruct (gs !! et') as [g|]; [|apply follows_ret].
  destruct (lookup_handler _ _) as [reg|]; [|apply follows_ret].
  apply follows_each. intros chunk _. apply dispatch_spans.
Qed.
End Engine.

Section Client.
Context (c : ClientConfig) (tx : Tx).

Lemma process_at_spans msg o : sp_follows (process_at msg) o o.
Proof. unfold process_at. sp_neutral. Qed.

Lemma Enqueue_spans msg : sp_follows (Enqueue c tx msg) NoSpan NoSpan.
Proof.
  unfold Enqueue. destruct (bool_decide _); [apply follows_ret|].
  apply sp_then; [done|intros []]. cbn [sp_next]. apply sp_keep; [sp_neutral|intros h].
  apply sp_keep; [apply process_at_spans|intros at_].
  apply sp_then; [done|intros [out err]]. cbn [sp_next with_result snd]. unfold after_enqueue, enqueue_result.
  destruct (isSome err && negb (IsDuplicate err)).
  all: apply sp_then; [by right|intros []]; cbn [sp_next]; sp_neutral.
Qed.

Lemma batch_params_spans i msgs : sp_follows (batch_params c i msgs) NoSpan NoSpan.
Proof.
  revert i. induction msgs as [|msg msgs IH]; intros i; cbn [batch_params]; [apply follows_ret|].
  destruct (bool_decide _); [apply follows_ret|].
  apply sp_then; [done|intros []]. cbn [sp_next]. apply sp_keep; [sp_neutral|intros h].
  apply sp_then; [by left|intros []]. cbn [sp_next].
  apply follows_keep; [apply process_at_spans|intros at_].
  apply follows_keep; [apply IH|intros rest]. apply follows_ret.
Qed.

Lemma batch_ids_spans seen out : sp_follows (batch_ids c tx seen out) NoSpan NoSpan.
Proof.
  revert seen. induction out as [|[m|] out IH]; intros seen; cbn [batch_ids]; [apply follows_ret| |].
  - apply follows_keep; [sp_neutral|intros _]. apply follows_keep; [sp_neutral|intros seen'].
    apply follows_keep; [apply IH|intros ids]. apply follows_ret.
  - apply follows_keep; [apply IH|intros ids]. apply follows_ret.
Qed.

Lemma EnqueueBatch_spans msgs : sp_follows (EnqueueBatch c tx msgs) NoSpan NoSpan.
Proof.
  unfold EnqueueBatch. destruct msgs as [|msg msgs]; [apply follows_ret|].
  apply follows_keep; [apply batch_params_spans|intros [err|ps]]; [apply follows_ret|].
  apply follows_keep; [sp_neutral|intros [out err]].
  apply follows_keep; [apply batch_ids_spans|intros ids]. apply follows_ret.
Qed.
End Client.

(** C27: Spans are well bracketed on every path.  In each handler goroutine, in
    each poll and in each enqueue of a client, whatever the handlers return or
    panic with, whatever storage answers and whether the worker is shutting
    down, spans open one at a time and each is ended exactly once before the
    program returns: with the handler's error (a panic included), with the
    claim's error, or with the insert's error unless that reports a duplicate.
    The user's handler runs inside the span of its message (a batch inside that
    of its first message), the claim inside the claim span, the insert inside the
    enqueue span, and no acknowledgement or notification inside any. *)
Theorem spans_well_bracketed e c tx :
  (∀ t, sp_follows (task_body e t) NoSpan NoSpan) ∧
  sp_follows (pollOnce e) NoSpan NoSpan ∧
  (∀ msg, sp_follows (Enqueue c tx msg) NoSpan NoSpan) ∧
  (∀ msgs, sp_follows (EnqueueBatch c tx msgs) NoSpan NoSpan).
Proof.
  split_and!; [apply task_spans|apply pollOnce_spans|apply Enqueue_spans|apply EnqueueBatch_spans].
Qed.
