(* ===== verification/Worker.v ===== *)
(** * The worker and its background jobs (worker.go)

    The configuration of a worker, and one tick of each background loop: the
    reclaimer, the janitor and the stats sampler.  Each tick runs under the
    leader lock of its job. *)

From S2P Require Import Prelude GoErrors Message Effects Registry Engine.

Record RetentionPolicy := mkRetentionPolicy {
  ret_Success : Duration;
  ret_Dead : Duration;
  ret_History : Duration;
  PurgeBatch : Z;
  PurgeEvery : Duration;
}.

Record WorkerConfig := mkWorkerConfig {
  wc_HasStorage : bool;                       (* cfg.Storage != nil *)
  wc_Registry : option (gmap string registration);
  wc_WorkerID : string;
  wc_PollInterval : Duration;
  wc_PollMaxBackoff : Duration;
  wc_BatchSize : Z;
  wc_PoolSize : Z;
  wc_Lease : Duration;
  wc_ShutdownGrace : Duration;
  wc_Retention : RetentionPolicy;
  wc_StatsInterval : Duration;
  wc_ReclaimInterval : Duration;
  DisableReclaimer : bool;
  DisableJanitor : bool;
  DisableNotifier : bool;
  wc_BatchAcker : bool;                       (* cfg.Storage.(BatchAcker) succeeds *)
  wc_HistoryPurger : bool;                    (* cfg.Storage.(HistoryPurger) succeeds *)
  wc_Notifier : bool;                         (* cfg.Storage.(Notifier) succeeds *)
}.

Definition defaultWorkerID : eprog string :=
  h ← perform Hostname;
  pid ← perform Getpid;
  mret (default "unknown" h ++ "-" ++ pretty (pid : Z))%string.

(** newEngine's configuration; cfg.poolSize is defaulted there. *)
Definition engine_of (c : WorkerConfig) (reg : gmap string registration) (workerID : string)
    : engineConfig :=
  mkEngineConfig reg workerID (wc_PollInterval c) (wc_PollMaxBackoff c) (wc_BatchSize c)
    (if wc_PoolSize c <=? 0 then 32 else wc_PoolSize c) (wc_Lease c) (wc_ShutdownGrace c)
    (wc_BatchAcker c).

Definition NewWorker (c : WorkerConfig) : eprog (error + engineConfig) :=
  if negb (wc_HasStorage c) then mret (inl (errorString "tickr: WorkerConfig.Storage is required"))
  else
    match wc_Registry c with
    | None => mret (inl (errorString "tickr: WorkerConfig.Registry is required"))
    | Some reg =>
      id ← (if bool_decide (wc_WorkerID c = ""%string) then defaultWorkerID else mret (wc_WorkerID c));
      mret (inr (engine_of c reg id))
    end.

(** The loops [Start] runs beside the engine. *)
Inductive background := Reclaimer | Janitor | StatsSampler.

Definition start_background (c : WorkerConfig) : list (background * Duration) :=
  (if DisableReclaimer c then []
   else [(Reclaimer, if wc_ReclaimInterval c <=? 0 then 5 * Second else wc_ReclaimInterval c)]) ++
  (if DisableJanitor c then []
   else [(Janitor, if PurgeEvery (wc_Retention c) <=? 0 then Minute else PurgeEvery (wc_Retention c))]) ++
  (if 0 <? wc_StatsInterval c then [(StatsSampler, wc_StatsInterval c)] else []).

Section Worker.
Context (c : WorkerConfig).

Definition job_alert (kind : ErrorKind) (err : option error) : eprog unit :=
  perform (Alert (mkErrorEvent kind "" "" 0 err)).

(** A job under the leader lock of [key]: the lock is released on every path
    that acquired it. *)
Definition with_leader {A} (key : string) (on_error : option error → eprog unit) (skipped : A)
    (job : eprog A) : eprog A :=
  '(acquired, err) ← perform (Call (StTryLeaderLock key));
  match err with
  | Some _ => _ ← on_error err; mret skipped
  | None =>
    if (acquired : bool) then r ← job; _ ← perform (Call (StUnlock key)); mret r
    else mret skipped
  end.

Definition tryReclaim : eprog unit :=
  with_leader "tickr.reclaimer" (job_alert ErrorKindReclaimer) tt (
    '(n, err) ← perform (Call (StReclaimExpired 500));
    match err with
    | Some _ => job_alert ErrorKindReclaimer err
    | None => if 0 <? n then perform (Metric (LeaseReclaimed "" n)) else mret ()
    end).

(** ** The janitor *)

(** How a purge loop ended: at its break, on ctx.Done, or out of fuel. *)
Inductive loop_exit := LoopBreak | LoopDone | OutOfFuel.

(** The loop that calls [purge] until a batch comes back short. *)
Fixpoint purge_loop (fuel : nat) (purge : call (Z * option error)) (batch : Z) : eprog loop_exit :=
  match fuel with
  | O => mret OutOfFuel
  | S fuel =>
    '(n, err) ← perform (Call purge);
    match err with
    | Some _ => _ ← job_alert ErrorKindJanitor err; mret LoopBreak
    | None =>
      if n <? batch then mret LoopBreak
      else
        go ← perform (WaitOrDone (100 * Millisecond));
        if (go : bool) then purge_loop fuel purge batch else mret LoopDone
    end
  end.

Definition success_age : Duration :=
  if ret_Success (wc_Retention c) <=? 0 then 24 * Hour else ret_Success (wc_Retention c).
Definition dead_age : Duration :=
  if ret_Dead (wc_Retention c) =? 0 then 30 * 24 * Hour else ret_Dead (wc_Retention c).
Definition purge_batch : Z :=
  if PurgeBatch (wc_Retention c) <=? 0 then 5000 else PurgeBatch (wc_Retention c).

(** The window of the history: "never purge DEAD" counts as 0 here. *)
Definition history_age : Duration :=
  if ret_History (wc_Retention c) =? 0 then
    Z.max success_age (Z.max (if dead_age <? 0 then 0 else dead_age) (30 * 24 * Hour))
  else ret_History (wc_Retention c).

Definition purgeHistory (fuel : nat) : eprog loop_exit :=
  if ret_History (wc_Retention c) <? 0 then mret LoopBreak
  else if negb (wc_HistoryPurger c) then mret LoopBreak
  else
    now ← perform Now;
    purge_loop fuel (StPurgeHistory (now - history_age) purge_batch) purge_batch.

(** The terminal rows: first by the SUCCESS cutoff, then by the DEAD one. *)
Definition purgeDead (fuel : nat) : eprog loop_exit :=
  if 0 <=? ret_Dead (wc_Retention c) then
    now ← perform Now;
    purge_loop fuel (StPurgeTerminal (now - dead_age) purge_batch) purge_batch
  else mret LoopBreak.

(** Continue unless the previous loop returned from the function. *)
Definition and_then (x : loop_exit) (k : eprog loop_exit) : eprog loop_exit :=
  match x with LoopBreak => k | _ => mret x end.

Definition tryPurge (fuel : nat) : eprog loop_exit :=
  with_leader "tickr.janitor" (job_alert ErrorKindJanitor) LoopBreak (
    now ← perform Now;
    x ← purge_loop fuel (StPurgeTerminal (now - success_age) purge_batch) purge_batch;
    and_then x (
      y ← purgeDead fuel;
      and_then y (purgeHistory fuel))).

(** ** The stats sampler *)

Definition sampleStats : eprog unit :=
  with_leader "tickr.stats" (λ _, mret ()) tt (
    '(stats, err) ← perform (Call StStats);
    match err with
    | Some _ => mret ()
    | None =>
      types ← perform (MapOrder (map_to_list (ByEventType stats)).*1);
      each (λ et,
        let byStatus := default ∅ (ByEventType stats !! et) in
        statuses ← perform (MapOrder (map_to_list byStatus).*1);
        each (λ st, perform (Metric (QueueDepth et st (default 0 (byStatus !! st))))) statuses) types
    end).
End Worker.

(** ** Properties *)

(** Neither a lock nor an unlock. *)
Definition lock_free (ev : event) : Prop :=
  match ev with
  | Ev e _ =>
    match e with
    | Call c => match c with StTryLeaderLock _ | StUnlock _ => False | _ => True end
    | _ => True
    end
  end.

(** No storage call at all. *)
Definition call_free (ev : event) : Prop :=
  match ev with Ev e _ => match e with Call _ => False | _ => True end end.

(** The leader-lock discipline of a trace: the lock is asked for once and
    first; other storage calls happen only while it is held, and it is given
    back once and last. *)
Definition leader_trace (key : string) (t : list event) : Prop :=
  (∃ body, t = [Ev (Call (StTryLeaderLock key)) (true, None)] ++ body ++ [Ev (Call (StUnlock key)) tt] ∧
     Forall lock_free body) ∨
  (∃ acquired err rest, t = Ev (Call (StTryLeaderLock key)) (acquired, err) :: rest ∧
     (acquired = false ∨ isSome err = true) ∧ Forall call_free rest).

Section Facts.
Context (ok : ∀ B, eff B → B → Prop) (c : WorkerConfig).

Lemma with_leader_ok {A} key on_error (skipped : A) job :
  (∀ err, every_event ok call_free (on_error err)) → every_event ok lock_free job →
  every ok (with_leader key on_error skipped job) (λ t _, leader_trace key t).
Proof.
  intros He Hj. unfold with_leader. apply every_bind, every_perform. intros [acquired err] _.
  destruct err as [er|].
  - apply every_bind. eapply every_mono; [|apply He]. intros t [] Ht. apply every_ret.
    right. eexists _, _, _. split; [reflexivity|]. rewrite app_nil_r. auto.
  - destruct acquired.
    + apply every_bind. eapply every_mono; [|exact Hj]. intros t r Ht.
      apply every_bind, every_perform. intros [] _. apply every_ret. left. by exists t.
    + apply every_ret. right. eexists _, _, _. split; [reflexivity|]. split; [by left|constructor].
Qed.

Lemma purge_loop_lock_free fuel purge batch :
  (∀ b, lock_free (Ev (Call purge) b)) → every_event ok lock_free (purge_loop fuel purge batch).
Proof.
  intros Hp. induction fuel as [|fuel IH]; cbn [purge_loop]; unfold job_alert; every_event; try apply IH.

Qed.

Lemma tryPurge_lock_free fuel :
  every ok (tryPurge c fuel) (λ t _, leader_trace "tickr.janitor" t).
Proof.
  apply with_leader_ok; [intros err; unfold job_alert; every_event|].
  unfold and_then, purgeDead, purgeHistory. every_event; by apply purge_loop_lock_free.
Qed.

Lemma tryReclaim_lock_free : every ok tryReclaim (λ t _, leader_trace "tickr.reclaimer" t).
Proof. apply with_leader_ok; unfold job_alert; [intros err|]; every_event. Qed.

Lemma sampleStats_lock_free : every ok sampleStats (λ t _, leader_trace "tickr.stats" t).
Proof. apply with_leader_ok; [intros err|]; every_event. Qed.
End Facts.

(** Background work happens only under the leader lock, which is never
    leaked.  On every path of a tick of the reclaimer, the janitor and the
    stats sampler (storage errors, a cancelled context and an exhausted purge
    included), the job's lock is asked for first and once; if it is refused or
    the request fails, no other storage call is made; if it is granted, it is
    released exactly once, as the last thing the tick does. *)
Theorem background_jobs_hold_lock ok c fuel :
  every ok (tryPurge c fuel) (λ t _, leader_trace "tickr.janitor" t) ∧
  every ok tryReclaim (λ t _, leader_trace "tickr.reclaimer" t) ∧
  every ok sampleStats (λ t _, leader_trace "tickr.stats" t).
Proof. split_and!; [apply tryPurge_lock_free|apply tryReclaim_lock_free|apply sampleStats_lock_free]. Qed.
