(* ===== verification/Listen.v ===== *)
(** * The notification listener (postgres.go: Listen)

    The channel of capacity one that [Listen] returns, and the goroutine that
    forwards the connection's notifications to it.  The run loop receives from
    the channel in its second select. *)

From S2P Require Import Prelude GoErrors.

(** [li_pending]: the token in the buffer of [out]; [li_closed]: the goroutine
    has returned and closed [out]; [li_conn]: the connection is open. *)
Record listener := mkListener { li_pending : bool; li_closed : bool; li_conn : bool }.

(** Acquire and the LISTEN statement may fail; a connection that was acquired is
    closed then. *)
Definition Listen (acquire listen : option error) : error + listener :=
  match acquire, listen with
  | Some er, _ => inl (Errorf_w "tickr/postgres: acquire listener conn" er)
  | None, Some er => inl (Errorf_w "tickr/postgres: LISTEN" er)
  | None, None => inr (mkListener false false true)
  end.

(** WaitForNotification returned: a notification is put in the buffer unless one
    is pending; an error ends the goroutine, which closes the channel. *)
Definition WaitForNotification (err : option error) (l : listener) : listener :=
  if li_closed l then l
  else match err with
       | None => mkListener true false (li_conn l)
       | Some _ => mkListener (li_pending l) true (li_conn l)
       end.

(** [<-ch]: the pending token, or at once from a closed channel; it blocks on an
    empty open one. *)
Definition receive (l : listener) : option listener :=
  if li_pending l then Some (mkListener false (li_closed l) (li_conn l))
  else if li_closed l then Some l else None.

(** [cleanup()]: the listener's context is cancelled and the connection closed,
    which ends the wait. *)
Definition cleanup (l : listener) : listener := mkListener (li_pending l) (li_closed l) false.

(** ** Facts *)

(** Notifications coalesce, and none is lost: after any number of them, and
    whatever happens to the connection then, a receive succeeds. *)
Lemma notification_wakes l errs :
  li_closed l = false → isSome (receive (foldl (λ l e, WaitForNotification e l) (WaitForNotification None l) errs)).
Proof.
  intros Hc. assert (li_pending (WaitForNotification None l) = true) as H.
  { unfold WaitForNotification. by rewrite Hc. }
  revert H. generalize (WaitForNotification None l). clear l Hc. intros l H.
  assert (li_pending (foldl (λ l e, WaitForNotification e l) l errs) = true) as Hp.
  { revert l H. induction errs as [|e errs IH]; intros l H; simpl; [done|]. apply IH.
    unfold WaitForNotification. destruct (li_closed l); [done|]. by destruct e. }
  unfold receive. by rewrite Hp.
Qed.

(** One receive takes them all. *)
Lemma receive_coalesced l n l' :
  li_closed l = false → receive (Nat.iter (S n) (WaitForNotification None) l) = Some l' → receive l' = None.
Proof.
  intros Hc. assert (Nat.iter (S n) (WaitForNotification None) l = mkListener true false (li_conn l)) as ->.
  { induction n as [|n IH]; [simpl; unfold WaitForNotification; by rewrite Hc|].
    change (Nat.iter (S (S n)) ?f l) with (f (Nat.iter (S n) f l)). by rewrite IH. }
  unfold receive. simpl. by intros [= <-].
Qed.

(** A closed channel is received from for ever. *)
Lemma receive_closed l : li_closed l = true → ∃ l', receive l = Some l' ∧ li_closed l' = true.
Proof. intros H. unfold receive. destruct (li_pending l); [eauto|]. rewrite H. eauto. Qed.
