(* ===== verification/WorkerLife.v ===== *)
(** * The life of a worker (worker.go: Start, Stop, the background loops)

    Calls of [Start] and [Stop], the engine, the background loops and the
    notification listener, interleaved.  The engine is the transition system of
    file EngineConc; [Start]'s derived context is its context. *)

From S2P Require Import Prelude GoErrors GoFloat Retry Message Effects Registry Engine EngineConc Worker Listen.

(** ** The state *)

(** Where a call of Start is: before the lock, after it, before Listen, before
    the loops are started, in [eng.run], in [bgWg.Wait()], returned. *)
Inductive start_call :=
| SEnter
| SRefused
| SContext
| SListen
| SSpawn
| SRun
| SJoin (r : option error)
| SReturned (r : option error).

(** A background loop: at its select, in a tick, returned. *)
Inductive loop :=
| LSelect (j : background)
| LTick (j : background) (p : eprog loop_exit)
| LDone (j : background).

(** [wk_parent]: the caller's context is done; [wk_locks]: the leader locks this
    worker holds. *)
Record worker := mkWorker {
  wk_started : bool;
  wk_cancel : bool;                  (* w.cancel != nil *)
  wk_stopOnce : bool;                (* stopOnce has run *)
  wk_parent : bool;
  wk_calls : list start_call;
  wk_loops : list loop;
  wk_notify : option listener;
  wk_locks : list string;
  wk_eng : sys;
}.

Section Life.
Context (c : WorkerConfig) (e : engineConfig).

Definition new_worker : worker :=
  mkWorker false false false false [] [] None [] (newEngine e).

Definition already_started : error := errorString "tickr: worker already started".

(** The error a call of Start has returned. *)
Definition start_result (x : start_call) : option (option error) :=
  match x with
  | SRefused => Some (Some already_started)
  | SReturned r => Some r
  | _ => None
  end.

Definition ctx_done (w : worker) : bool := sh_ctx (sy_sh (wk_eng w)).

Definition set_calls (l : list start_call) (w : worker) : worker :=
  mkWorker (wk_started w) (wk_cancel w) (wk_stopOnce w) (wk_parent w) l (wk_loops w) (wk_notify w)
    (wk_locks w) (wk_eng w).
Definition set_eng (s : sys) (w : worker) : worker :=
  mkWorker (wk_started w) (wk_cancel w) (wk_stopOnce w) (wk_parent w) (wk_calls w) (wk_loops w)
    (wk_notify w) (wk_locks w) s.
Definition set_notify (l : option listener) (w : worker) : worker :=
  mkWorker (wk_started w) (wk_cancel w) (wk_stopOnce w) (wk_parent w) (wk_calls w) (wk_loops w) l
    (wk_locks w) (wk_eng w).
Definition set_loops (l : list loop) (locks : list string) (w : worker) : worker :=
  mkWorker (wk_started w) (wk_cancel w) (wk_stopOnce w) (wk_parent w) (wk_calls w) l (wk_notify w)
    locks (wk_eng w).

(** Cancelling the derived context. *)
Definition cancel_ctx (w : worker) : worker := set_eng (on_sh set_ctx (wk_eng w)) w.

(** [Start], one operation at a time; [None]: it waits. *)
Definition start_step (acquire listen : option error) (x : start_call) (w : worker)
    : option (start_call * worker) :=
  match x with
  | SEnter =>
    if wk_started w then Some (SRefused, w)
    else Some (SContext, mkWorker true (wk_cancel w) (wk_stopOnce w) (wk_parent w) (wk_calls w)
                (wk_loops w) (wk_notify w) (wk_locks w) (wk_eng w))
  | SContext =>
    let w := mkWorker (wk_started w) true (wk_stopOnce w) (wk_parent w) (wk_calls w)
               (wk_loops w) (wk_notify w) (wk_locks w) (wk_eng w) in
    Some (SListen, if wk_parent w then cancel_ctx w else w)
  | SListen =>
    if wc_Notifier c && negb (DisableNotifier c) then
      match Listen acquire listen with
      | inl _ => Some (SSpawn, w)
      | inr l => Some (SSpawn, set_notify (Some l) w)
      end
    else Some (SSpawn, w)
  | SSpawn => Some (SRun, set_loops (LSelect <$> (start_background c).*1) (wk_locks w) w)
  | SRun => match sy_main (wk_eng w) with MReturned r => Some (SJoin r, w) | _ => None end
  | SJoin r =>
    if forallb (λ l, match l with LDone _ => true | _ => false end) (wk_loops w)
    then Some (SReturned r, cancel_ctx (set_notify (cleanup <$> wk_notify w) w))
    else None
  | SRefused | SReturned _ => None
  end.

(** [Stop]: once, and only if Start has set the cancel function by then. *)
Definition Stop (w : worker) : worker :=
  if wk_stopOnce w then w
  else
    let w' := mkWorker (wk_started w) (wk_cancel w) true (wk_parent w) (wk_calls w) (wk_loops w)
                (wk_notify w) (wk_locks w) (wk_eng w) in
    if wk_cancel w then cancel_ctx w' else w'.

(** The caller's context is done; the derived one with it once it exists. *)
Definition parent_cancel (w : worker) : worker :=
  let w' := mkWorker (wk_started w) (wk_cancel w) (wk_stopOnce w) true (wk_calls w) (wk_loops w)
              (wk_notify w) (wk_locks w) (wk_eng w) in
  if wk_cancel w then cancel_ctx w' else w'.

(** ** Background loops *)

(** A tick of a loop; the purge loops run as often as [fuel] allows. *)
Definition loop_tick (fuel : nat) (j : background) : eprog loop_exit :=
  match j with
  | Reclaimer => _ ← tryReclaim; mret LoopBreak
  | Janitor => tryPurge c fuel
  | StatsSampler => _ ← sampleStats; mret LoopBreak
  end.

(** One occurrence of [key] less. *)
Fixpoint remove_one (key : string) (l : list string) : list string :=
  match l with
  | [] => []
  | k :: l => if decide (k = key) then l else k :: remove_one key l
  end.

(** What a storage call does to the locks held. *)
Definition lock_effect {B} (ef : eff B) (b : B) (locks : list string) : list string :=
  match ef in eff B' return B' → list string with
  | Call cl =>
    match cl in call B' return B' → list string with
    | StTryLeaderLock key => λ b, match b with (true, None) => key :: locks | _ => locks end
    | StUnlock key => λ _, remove_one key locks
    | _ => λ _, locks
    end
  | _ => λ _, locks
  end b.

(** [time.After] may fire at any time; [ctx.Done()] only when the context is
    done. *)
Definition loop_ready (done : bool) {B} (ef : eff B) (b : B) : Prop :=
  match ef in eff B' return B' → Prop with
  | WaitOrDone _ => λ go, go = false → done = true
  | _ => λ _, True
  end b.

Inductive loop_step (done : bool) : loop * list string → loop * list string → Prop :=
| lo_done j locks : done = true → loop_step done (LSelect j, locks) (LDone j, locks)
| lo_tick j fuel locks : loop_step done (LSelect j, locks) (LTick j (loop_tick fuel j), locks)
| lo_effect j B (ef : eff B) k b locks : loop_ready done ef b → world_ok B ef b →
    loop_step done (LTick j (EDo ef k), locks) (LTick j (k b), lock_effect ef b locks)
| lo_return j r locks : r ≠ OutOfFuel → loop_step done (LTick j (ERet r), locks) (LSelect j, locks).

(** ** Steps *)

Definition start_running (w : worker) : Prop := SRun ∈ wk_calls w.

Inductive life_actor := LParent | LStart | LStop | LOther.

Inductive worker_step : life_actor → worker → worker → Prop :=
| wl_parent w : worker_step LParent w (parent_cancel w)
| wl_call w : worker_step LStart w (set_calls (wk_calls w ++ [SEnter]) w)
| wl_start w i x acquire listen x' w' :
    wk_calls w !! i = Some x → start_step acquire listen x w = Some (x', w') →
    worker_step LStart w (set_calls (<[i := x']> (wk_calls w)) w')
| wl_stop w : worker_step LStop w (Stop w)
(* the engine: the run loop inside Start, its other goroutines at any time *)
| wl_engine w a s' :
    sys_step e a (wk_eng w) s' →
    match a with ACancel | AWake _ => False | ARun | AGrace => start_running w | _ => True end →
    worker_step LOther w (set_eng s' w)
| wl_timer w s' :
    sys_step e (AWake TimerFired) (wk_eng w) s' → start_running w → worker_step LOther w (set_eng s' w)
| wl_notified w l l' s' :
    sys_step e (AWake Notified) (wk_eng w) s' → start_running w →
    wk_notify w = Some l → receive l = Some l' →
    worker_step LOther w (set_notify (Some l') (set_eng s' w))
| wl_listener w l err :
    wk_notify w = Some l → worker_step LOther w (set_notify (Some (WaitForNotification err l)) w)
| wl_loop w i l l' locks' :
    wk_loops w !! i = Some l → loop_step (ctx_done w) (l, wk_locks w) (l', locks') →
    worker_step LOther w (set_loops (<[i := l']> (wk_loops w)) locks' w).

Definition life_any (w w' : worker) : Prop := ∃ a, worker_step a w w'.
Definition life_reachable (w : worker) : Prop := rtc life_any new_worker w.
End Life.
