(* ===== verification/WorkerSim.v ===== *)
(** * A scheduler for the life of a worker

    Schedules of file WorkerLife as functions, in the calm world of file
    EngineSim; the witnesses run whole lives through them. *)

From S2P Require Import Prelude GoErrors GoFloat Retry Message Effects Registry Engine EngineFacts EngineConc EngineSim Worker Listen WorkerLife.

Inductive life_input :=
| IParent | ICall | IStart (i : nat) | IStop | IEngine (a : actor) | IListener (err : option error)
| ILoop (i : nat).

Section Sim.
Context (c : WorkerConfig) (e : engineConfig).

Definition is_running (w : worker) : bool :=
  existsb (λ x, match x with SRun => true | _ => false end) (wk_calls w).

Lemma is_running_sound w : is_running w = true → start_running w.
Proof.
  intros (x & Hx%list_elem_of_In & Hr)%existsb_exists. unfold start_running. by destruct x.
Qed.

Definition live_engine (a : actor) (w : worker) : option worker :=
  s' ← play1 e calm_world a (wk_eng w);
  match a with
  | ACancel => None
  | ARun | AGrace | AWake TimerFired => if is_running w then Some (set_eng s' w) else None
  | AWake Notified =>
    l ← wk_notify w; l' ← receive l;
    if is_running w then Some (set_notify (Some l') (set_eng s' w)) else None
  | _ => Some (set_eng s' w)
  end.

Definition live_loop (i : nat) (w : worker) : option worker :=
  match wk_loops w !! i with
  | Some (LSelect j) => if ctx_done w then Some (set_loops (<[i := LDone j]> (wk_loops w)) (wk_locks w) w) else None
  | _ => None
  end.

Definition live1 (x : life_input) (w : worker) : option worker :=
  match x with
  | IParent => Some (parent_cancel w)
  | ICall => Some (set_calls (wk_calls w ++ [SEnter]) w)
  | IStart i =>
    y ← wk_calls w !! i; '(y', w') ← start_step c None None y w;
    Some (set_calls (<[i := y']> (wk_calls w)) w')
  | IStop => Some (Stop w)
  | IEngine a => live_engine a w
  | IListener err => l ← wk_notify w; Some (set_notify (Some (WaitForNotification err l)) w)
  | ILoop i => live_loop i w
  end.

Lemma live1_sound x w w' : live1 x w = Some w' →
  ∃ a, worker_step c e a w w' ∧ (x ≠ IParent → a ≠ LParent).
Proof.
  destruct x; simpl.
  - intros [= <-]. exists LParent. by split; [constructor|].
  - intros [= <-]. exists LStart. by split; [constructor|].
  - destruct (wk_calls w !! i) as [y|] eqn:Hi; [|done]. simpl.
    destruct (start_step _ _ _ _ _) as [[y' w2]|] eqn:Hs; [|done]. intros [= <-]. exists LStart.
    by split; [eapply wl_start|].
  - intros [= <-]. exists LStop. by split; [constructor|].
  - unfold live_engine. destruct (play1 _ _ _ _) as [s'|] eqn:Hp; [|done].
    apply (play1_sound e calm_world calm_world_ok) in Hp. simpl. intros Hw. exists LOther. split; [|done].
    destruct a as [| |[|]| | | | |]; try done;
      try (destruct (is_running w) eqn:Hr; [|done]; apply is_running_sound in Hr);
      try (injection Hw as <-; by eapply wl_engine).
    + injection Hw as <-. by eapply wl_timer.
    + destruct (wk_notify w) as [l|] eqn:Hl; [|done]. simpl in Hw.
      destruct (receive l) as [l'|] eqn:Hr; [|done]. simpl in Hw.
      destruct (is_running w) eqn:Hru; [|done]. apply is_running_sound in Hru. injection Hw as <-.
      by eapply wl_notified.
  - destruct (wk_notify w) as [l|] eqn:Hl; [|done]. intros [= <-]. exists LOther.
    by split; [eapply wl_listener|].
  - unfold live_loop. destruct (wk_loops w !! i) as [[]|] eqn:Hi; try done.
    destruct (ctx_done w) eqn:Hc; [|done]. intros [= <-]. exists LOther. split; [|done].
    eapply wl_loop; [done|]. rewrite Hc. by constructor.
Qed.

(** An input that is not possible is passed over. *)
Definition live (l : list life_input) (w : worker) : worker := foldl (λ w x, default w (live1 x w)) w l.

Lemma live_steps l w : rtc (life_any c e) w (live l w).
Proof.
  unfold live. revert w. induction l as [|x l IH]; intros w; simpl; [done|].
  destruct (live1 x w) as [w'|] eqn:E; simpl; [|apply IH].
  destruct (live1_sound x w w' E) as (a & Ha & _). eapply rtc_l; [by exists a|apply IH].
Qed.

Lemma live_own_steps l w : IParent ∉ l → rtc (λ x y, ∃ a, a ≠ LParent ∧ worker_step c e a x y) w (live l w).
Proof.
  unfold live. revert w. induction l as [|x l IH]; intros w Hn; simpl; [done|].
  apply not_elem_of_cons in Hn as [Hx Hn]. destruct (live1 x w) as [w'|] eqn:E; simpl; [|by apply IH].
  destruct (live1_sound x w w' E) as (a & Ha & Hp). eapply rtc_l; [exists a; split; [by apply Hp|done]|by apply IH].
Qed.
End Sim.

Definition live_worker : WorkerConfig :=
  {| wc_HasStorage := true; wc_Registry := Some ∅; wc_WorkerID := "w-1"; wc_PollInterval := 0;
     wc_PollMaxBackoff := 0; wc_BatchSize := 0; wc_PoolSize := 0; wc_Lease := 0;
     wc_ShutdownGrace := 0;
     wc_Retention := mkRetentionPolicy 0 0 0 0 0; wc_StatsInterval := 0;
     wc_ReclaimInterval := 0; DisableReclaimer := false; DisableJanitor := false;
     DisableNotifier := false; wc_BatchAcker := true; wc_HistoryPurger := true;
     wc_Notifier := true |}.
Definition live_eng : engineConfig := engine_of live_worker ∅ "w-1".

Definition lives (l : list life_input) : worker := live live_worker live_eng l (new_worker live_eng).

Lemma lives_reachable l : life_reachable live_worker live_eng (lives l).
Proof. apply live_steps. Qed.

Definition start_schedule : list life_input := ICall :: replicate 4 (IStart 0).

(** A start, two polls, a second start that is refused, and the shutdown. *)
Definition whole_life : list life_input :=
  start_schedule ++ concat (replicate 8 [IEngine ARun; IEngine (AWake TimerFired)]) ++
  [ICall; IStart 1; IParent] ++ replicate 8 (IEngine ARun) ++
  concat (replicate 4 [IEngine AWaiter; IEngine AFlusher]) ++
  [IEngine ARun; ILoop 0; ILoop 1; IStart 0; IStart 0].

(** A listener that fails while the engine runs. *)
Definition failed_listener : list life_input :=
  start_schedule ++ [IListener (Some (errorString "connection reset"))].
