(* ===== verification/WorkerShutdown.v ===== *)
(** * What a worker guarantees when it stops

    [Start] runs one engine, and when it returns nothing of the worker is left
    running: its loops, its leader locks, its listener.  [Stop] before [Start]
    has set the cancel function is lost.  A listener that has failed turns the
    run loop's wait into a spin. *)

From S2P Require Import Prelude GoErrors GoFloat Retry Message Effects Registry Engine EngineFacts EngineDispatch EngineConc EngineOwes EngineConcFacts EngineSim EngineDrain Worker Listen WorkerLife WorkerSim.

(** ** The lock a loop holds *)

Definition lk_legal (o : option string) (ev : event) : Prop :=
  match ev with
  | Ev ef _ =>
    match ef with
    | Call cl => match cl with StTryLeaderLock _ => o = None | StUnlock key => o = Some key | _ => True end
    | _ => True
    end
  end.

Definition lk_next (o : option string) (ev : event) : option string :=
  match ev with
  | Ev ef b =>
    match ef in eff B return B → option string with
    | Call cl =>
      match cl in call B return B → option string with
      | StTryLeaderLock key => λ b, match b with (true, None) => Some key | _ => o end
      | StUnlock _ => λ _, None
      | _ => λ _, o
      end
    | _ => λ _, o
    end b
  end.

Abbreviation lk_follows := (follows lk_legal lk_next).

Lemma lock_free_lawful o l : Forall lock_free l → lawful lk_legal lk_next o l o.
Proof.
  induction 1 as [|[B ef b] l Hf _ IH]; [done|].
  assert (lk_next o (Ev ef b) = o ∧ lk_legal o (Ev ef b)) as [E Hl]; [|by split; [|rewrite E]].
  revert b Hf. destruct ef as [B cl| | | | | | | | | | | | | | | | | | | | | | | | |]; intros b Hf; try done.
  by destruct cl.
Qed.

Lemma leader_trace_lawful key t : leader_trace key t → lawful lk_legal lk_next None t None.
Proof.
  intros [(body & -> & Hb)|(acquired & err & rest & -> & Hr & Hf)].
  - split; [done|]. apply (lawful_app _ _ _ body (Some key)); [by apply lock_free_lawful|by split].
  - split; [done|]. assert (lk_next None (Ev (Call (StTryLeaderLock key)) (acquired, err)) = None) as ->.
    { simpl. destruct Hr as [-> |Hr]; [done|]. by destruct acquired, err. }
    apply lock_free_lawful. eapply Forall_impl; [exact Hf|]. intros [B ef b]. by destruct ef.
Qed.

(** A tick starts and ends without a lock. *)
Lemma loop_tick_follows c fuel j : lk_follows (loop_tick c fuel j) None None.
Proof.
  assert (∀ {A} (p : eprog A) key, every world_ok p (λ t _, leader_trace key t) → lk_follows p None None) as H.
  { intros A p key Hp. eapply every_mono; [|exact Hp]. intros t a. by apply leader_trace_lawful. }
  destruct j; cbn [loop_tick].
  - apply follows_keep; [eapply H, tryReclaim_lock_free|]. intros []. apply follows_ret.
  - eapply H, tryPurge_lock_free.
  - apply follows_keep; [eapply H, sampleStats_lock_free|]. intros []. apply follows_ret.
Qed.

Lemma remove_one_head key l l' : l ≡ₚ key :: l' → remove_one key l ≡ₚ l'.
Proof.
  revert l'. induction l as [|k l IH]; intros l' H.
  - by apply Permutation_nil_cons in H.
  - simpl. destruct (decide (k = key)) as [->|Hne]; [by apply Permutation_cons_inv in H|].
    assert (k ∈ l') as Hin.
    { assert (k ∈ key :: l') as Hk by (rewrite <- H; left). by apply elem_of_cons in Hk as [?|?]. }
    apply elem_of_Permutation in Hin as [l2 E]. rewrite E in H |- *.
    apply perm_skip, IH, (Permutation_cons_inv (a := k)). by rewrite H, Permutation_swap.
Qed.

Lemma lock_effect_held o {B} (ef : eff B) (b : B) locks rest :
  lk_legal o (Ev ef b) → locks ≡ₚ option_list o ++ rest →
  lock_effect ef b locks ≡ₚ option_list (lk_next o (Ev ef b)) ++ rest.
Proof.
  revert b. destruct ef as [B cl| | | | | | | | | | | | | | | | | | | | | | | | |]; try done.
  destruct cl; try done; intros b Hl E; simpl in *; subst o.
  - destruct b as [[] [er|]]; simpl in *; try done. by rewrite E.
  - by apply remove_one_head.
Qed.

(** ** One active call *)

(** A call that has passed the lock. *)
Definition active (x : start_call) : Prop := match x with SEnter | SRefused => False | _ => True end.

Definition only_active (l : list start_call) (i : nat) (x : start_call) : Prop :=
  l !! i = Some x ∧ active x ∧ ∀ j y, l !! j = Some y → active y → j = i.

Lemma only_active_insert l i x x' : only_active l i x → active x' → only_active (<[i:=x']> l) i x'.
Proof.
  intros (Hi & _ & Hu) Ha. split_and!; [apply list_lookup_insert_eq; by eapply lookup_lt_Some|done|].
  intros j y [(-> & _ & _)|[_ Hj]]%list_lookup_insert_Some Hy; eauto.
Qed.

Lemma only_active_first l i x x' :
  (∀ y, y ∈ l → ¬ active y) → l !! i = Some x → active x' → only_active (<[i:=x']> l) i x'.
Proof.
  intros Hn Hi Ha. split_and!; [apply list_lookup_insert_eq; by eapply lookup_lt_Some|done|].
  intros j y [(-> & _ & _)|[_ Hj]]%list_lookup_insert_Some Hy; [done|].
  by destruct (Hn y); [eapply list_elem_of_lookup_2|].
Qed.

Lemma only_active_other l i x j y z :
  only_active l i x → l !! j = Some y → ¬ active y → ¬ active z → only_active (<[j:=z]> l) i x.
Proof.
  intros (Hi & Hx & Hu) Hj Hy Hz.
  assert (j ≠ i) as Hne by (intros ->; congruence). split_and!; [by rewrite list_lookup_insert_ne|done|].
  intros k w [(-> & <- & _)|[_ Hk]]%list_lookup_insert_Some Hw; [done|eauto].
Qed.

Lemma only_active_call l i x : only_active l i x → only_active (l ++ [SEnter]) i x.
Proof.
  intros (Hi & Hx & Hu). split_and!; [by apply lookup_app_l_Some|done|].
  intros j y [Hj|[_ Hj]]%lookup_app_Some Hy; [eauto|].
  by apply list_lookup_singleton_Some in Hj as [_ <-].
Qed.

(** ** Steps of the engine inside a worker *)

Lemma sys_step_main e a s s' : sys_step e a s s' →
  (match a with ACancel => True | _ => sh_ctx (sy_sh s') = sh_ctx (sy_sh s) end) ∧
  (match a with ARun | AWake _ | AGrace => True | _ => sy_main s' = sy_main s end).
Proof.
  assert (∀ B (ef : eff B) b sh, sh_ctx (perform_on e sh B ef b) = sh_ctx sh) as Hctx.
  { intros B ef b sh. by destruct (perform_rest e sh ef b) as [-> _]. }
  destruct 1; simpl; rewrite ?Hctx; try done. by destruct (hasBatchAcker e).
Qed.

(** The run loop goes on until the context is done. *)
Lemma sys_step_polling e a s s' :
  sys_step e a s s' → a ≠ ACancel → polling (sy_main s) → sh_ctx (sy_sh s) = false → polling (sy_main s').
Proof.
  destruct 1; simpl; intros Ha Hp Hc; try done; try congruence;
    try (rewrite H in Hp; by destruct Hp). by destruct (hasBatchAcker e).
Qed.

(** ** The invariant *)

Section Inv.
Context (c : WorkerConfig) (e : engineConfig).

Definition job_of (l : loop) : background := match l with LSelect j | LTick j _ | LDone j => j end.
Definition is_done (l : loop) : Prop := match l with LDone _ => True | _ => False end.

(** [o]: the lock the loop holds. *)
Definition loop_ok (l : loop) (o : option string) : Prop :=
  match l with LTick _ p => lk_follows p o None | _ => o = None end.

Definition held_keys (os : list (option string)) : list string := omap (λ o, o) os.

Definition early (w : worker) : Prop :=
  wk_cancel w = false ∧ ctx_done w = false ∧ wk_loops w = [] ∧ polling (sy_main (wk_eng w)).

Definition jobs_run (w : worker) : Prop := job_of <$> wk_loops w = (start_background c).*1.

(** What the active call of Start knows. *)
Definition phase (x : start_call) (w : worker) : Prop :=
  match x with
  | SEnter | SRefused => False
  | SContext => early w
  | SListen | SSpawn => wk_cancel w = true ∧ wk_loops w = [] ∧ polling (sy_main (wk_eng w))
  | SRun => wk_cancel w = true ∧ jobs_run w
  | SJoin r => wk_cancel w = true ∧ jobs_run w ∧ sy_main (wk_eng w) = MReturned r
  | SReturned r => wk_cancel w = true ∧ jobs_run w ∧ sy_main (wk_eng w) = MReturned r ∧ Forall is_done (wk_loops w) ∧
      ctx_done w = true ∧ ∀ l, wk_notify w = Some l → li_conn l = false
  end.

Record life_inv (w : worker) : Prop := mkLifeInv {
  lv_sys : sys_reachable e (wk_eng w);
  lv_loops : ∃ os, Forall2 loop_ok (wk_loops w) os ∧ wk_locks w ≡ₚ held_keys os;
  lv_calls : if wk_started w then ∃ i x, only_active (wk_calls w) i x ∧ phase x w
             else (∀ x, x ∈ wk_calls w → ¬ active x) ∧ early w;
}.

Lemma new_worker_inv : life_inv (new_worker e).
Proof.
  constructor; [apply rtc_refl|by exists []|]. simpl. split; [by intros x ?%elem_of_nil|by split_and!].
Qed.

(** Steps that leave the calls, the loops and the locks alone. *)
Lemma life_frame w w' :
  life_inv w → sys_reachable e (wk_eng w') →
  wk_started w' = wk_started w → wk_calls w' = wk_calls w → wk_loops w' = wk_loops w →
  wk_locks w' = wk_locks w →
  (∀ i x, only_active (wk_calls w) i x → phase x w → phase x w') →
  ((∀ x, x ∈ wk_calls w → ¬ active x) → early w → early w') → life_inv w'.
Proof.
  intros [Hs Hl Hc] Hs' Est Eca Elo Elk Hph Hea. constructor; [done|by rewrite Elo, Elk|].
  rewrite Est, Eca. destruct (wk_started w).
  - destruct Hc as (i & x & Ha & Hp). eauto.
  - destruct Hc as [Hn He]. auto.
Qed.

Lemma cancelled_reachable w : sys_reachable e (wk_eng w) → sys_reachable e (on_sh set_ctx (wk_eng w)).
Proof. intros H. eapply rtc_r; [exact H|]. exists ACancel. constructor. Qed.

Lemma parent_inv w : life_inv w → life_inv (parent_cancel w).
Proof.
  intros H. unfold parent_cancel, early.
  destruct (wk_cancel w) eqn:Hc; apply (life_frame w); try done; try apply H.
  - apply cancelled_reachable, H.
  - intros i x _. destruct x; simpl; unfold early; simpl; try done; rewrite ?Hc; naive_solver.
  - intros _. unfold early. simpl. rewrite Hc. naive_solver.
  - intros i x _. destruct x; simpl; unfold early; simpl; rewrite ?Hc; naive_solver.
  - intros _. unfold early. simpl. rewrite Hc. naive_solver.
Qed.

Lemma stop_inv w : life_inv w → life_inv (Stop w).
Proof.
  intros H. unfold Stop. destruct (wk_stopOnce w); [done|].
  destruct (wk_cancel w) eqn:Hc; apply (life_frame w); try done; try apply H.
  - apply cancelled_reachable, H.
  - intros i x _. destruct x; simpl; unfold early; simpl; try done; rewrite ?Hc; naive_solver.
  - intros _. unfold early. simpl. rewrite Hc. naive_solver.
  - intros i x _. destruct x; simpl; unfold early; simpl; rewrite ?Hc; naive_solver.
  - intros _. unfold early. simpl. rewrite Hc. naive_solver.
Qed.

Lemma engine_inv w a s' :
  life_inv w → sys_step e a (wk_eng w) s' → a ≠ ACancel →
  match a with ARun | AWake _ | AGrace => start_running w | _ => True end → life_inv (set_eng s' w).
Proof.
  intros H Hs Hc Hr. destruct (sys_step_main e a _ _ Hs) as [Hctx Hmain].
  assert (sh_ctx (sy_sh s') = ctx_done w) as Ectx by (unfold ctx_done; by destruct a).
  assert (start_running w ∨ sy_main s' = sy_main (wk_eng w)) as Hm by (destruct a; auto).
  apply (life_frame w); try done.
  - eapply rtc_r; [apply H|]. by exists a.
  - intros i x (Hi & Hx & Hu). destruct Hm as [[j Hj]%list_elem_of_lookup|Hm].
    + rewrite (Hu j SRun Hj I) in Hj. by simplify_eq.
    + unfold ctx_done in Ectx. destruct x; simpl; unfold early, ctx_done; simpl; rewrite ?Hm, ?Ectx; try done.
  - intros Hn He. destruct Hm as [Hm|Hm]; [by destruct (Hn SRun Hm)|].
    unfold early, ctx_done in *. simpl. by rewrite Hm, Ectx.
Qed.

Lemma notify_inv w l l' :
  life_inv w → wk_notify w = Some l → li_conn l' = li_conn l → life_inv (set_notify (Some l') w).
Proof.
  intros H Hl Hc. apply (life_frame w); try done; try apply H.
  intros i x _. destruct x; simpl; unfold early, ctx_done; simpl; try done.
  intros (? & ? & ? & ? & ? & Hn). split_and!; try done. intros l0 [= <-]. rewrite Hc. eauto.
Qed.

Lemma active_phase w i x : life_inv w → wk_calls w !! i = Some x → active x →
  wk_started w = true ∧ only_active (wk_calls w) i x ∧ phase x w.
Proof.
  intros [_ _ Hc] Hi Hx. destruct (wk_started w).
  - destruct Hc as (j & y & (Hj & Hy & Hu) & Hp). pose proof (Hu i x Hi Hx) as <-. simplify_eq.
    split; [done|]. split; [by split_and!|done].
  - destruct Hc as [Hn _]. by destruct (Hn x); [eapply list_elem_of_lookup_2|].
Qed.

(** The active call moves on. *)
Lemma advance w w' i x x' : life_inv w → wk_calls w !! i = Some x → active x → active x' →
  wk_started w' = wk_started w → sys_reachable e (wk_eng w') →
  (∃ os, Forall2 loop_ok (wk_loops w') os ∧ wk_locks w' ≡ₚ held_keys os) → phase x' w' →
  life_inv (set_calls (<[i:=x']> (wk_calls w)) w').
Proof.
  intros H Hi Hx Hx' Est Hs Hl Hp. destruct (active_phase w i x H Hi Hx) as (Hst & Ho & _).
  constructor; [done|done|]. simpl. rewrite Est, Hst. exists i, x'.
  split; [by eapply only_active_insert|by destruct x'].
Qed.

Lemma start_inv w i x acquire listen x' w' :
  life_inv w → wk_calls w !! i = Some x → start_step c acquire listen x w = Some (x', w') →
  life_inv (set_calls (<[i:=x']> (wk_calls w)) w').
Proof.
  intros H Hi Hs. assert (x = SEnter ∨ x ≠ SEnter) as [->|Hne] by (destruct x; auto).
  { pose proof H as [H1 H2 H3]. simpl in Hs. destruct (wk_started w) eqn:Hst; injection Hs as <- <-.
    - constructor; [done|done|]. simpl. rewrite Hst. destruct H3 as (j & y & Hj & Hp). exists j, y.
      split; [|by destruct y]. by eapply only_active_other; [exact Hj|exact Hi|intros []|intros []].
    - constructor; [done|done|]. simpl. destruct H3 as [Hn He]. exists i, SContext.
      split; [by eapply only_active_first|exact He]. }
  assert (active x) as Hx by (by destruct x).
  destruct (active_phase w i x H Hi Hx) as (Hst & _ & Hp). pose proof H as [H1 H2 _].
  destruct x; simpl in *; try done.
  - destruct Hp as (Hc & Hd & Hl & Hm). injection Hs as <- <-.
    destruct (wk_parent w); eapply advance; simpl; try done; try by rewrite Hl.
    by apply cancelled_reachable.
  - assert (x' = SSpawn ∧ ∃ n, w' = set_notify n w) as (-> & n & ->).
    { destruct (wc_Notifier c && _); [destruct (Listen acquire listen)|]; injection Hs as <- <-;
        (split; [done|]); [by exists (wk_notify w); destruct w|eauto|by exists (wk_notify w); destruct w]. }
    by eapply advance.
  - destruct Hp as (Hc & Hl & Hm). injection Hs as <- <-. eapply advance; simpl; try done.
    + rewrite Hl in H2. destruct H2 as (os & Hos & Hlk). apply Forall2_nil_inv_l in Hos as ->.
      exists ((λ _, None) <$> (start_background c).*1). split.
      * apply Forall2_fmap. by apply Forall_Forall2_diag, Forall_true.
      * rewrite Hlk. by induction ((start_background c).*1).
    + split; [done|]. unfold jobs_run. simpl. rewrite <- list_fmap_compose. apply list_fmap_id.
  - destruct Hp as (Hc & Hj). destruct (sy_main (wk_eng w)) as [| | | |r] eqn:Hm; try done.
    injection Hs as <- <-. by eapply advance.
  - destruct Hp as (Hc & Hj & Hm). destruct (forallb _ _) eqn:Hf; [|done]. injection Hs as <- <-.
    eapply advance; simpl; try done; [by apply cancelled_reachable|].
    split_and!; try done.
    + apply Forall_forall. intros l Hl%list_elem_of_In. rewrite forallb_forall in Hf. specialize (Hf l Hl).
      by destruct l.
    + intros l. destruct (wk_notify w); [|done]. by intros [= <-].
Qed.

Lemma held_split os i o : os !! i = Some o → held_keys os ≡ₚ option_list o ++ held_keys (delete i os).
Proof.
  intros Hi. unfold held_keys. rewrite (delete_Permutation os i o Hi) at 1. by destruct o.
Qed.

Lemma held_insert os i o o' : os !! i = Some o →
  held_keys (<[i:=o']> os) ≡ₚ option_list o' ++ held_keys (delete i os).
Proof.
  intros Hi. pose proof (lookup_lt_Some _ _ _ Hi).
  rewrite (held_split (<[i:=o']> os) i o') by (by apply list_lookup_insert_eq).
  by rewrite !delete_take_drop, take_insert_ge, drop_insert_lt by lia.
Qed.

(** A loop's step keeps its job and accounts for its lock. *)
Lemma loop_step_ok done l locks l' locks' o rest :
  loop_step c done (l, locks) (l', locks') → loop_ok l o → locks ≡ₚ option_list o ++ rest →
  job_of l' = job_of l ∧ ¬ is_done l ∧ ∃ o', loop_ok l' o' ∧ locks' ≡ₚ option_list o' ++ rest.
Proof.
  intros Hs Ho Hl. inversion Hs; subst; simpl in *; (split; [done|]; split; [by intros []|]).
  - by exists None; subst o.
  - subst o. exists None. split; [apply loop_tick_follows|done].
  - destruct (follows_step _ _ _ _ _ _ b Ho) as [Hlegal Hf]; [done|].
    exists (lk_next o (Ev ef b)). split; [exact Hf|]. by apply lock_effect_held.
  - by exists o.
Qed.

Lemma loop_inv w i l l' locks' :
  life_inv w → wk_loops w !! i = Some l → loop_step c (ctx_done w) (l, wk_locks w) (l', locks') →
  life_inv (set_loops (<[i:=l']> (wk_loops w)) locks' w).
Proof.
  intros [Hs (os & Hos & Hlk) Hc] Hi Hstep.
  destruct (Forall2_lookup_l _ _ _ _ _ Hos Hi) as (o & Ho & Hl).
  rewrite (held_split os i o Ho) in Hlk.
  destruct (loop_step_ok _ _ _ _ _ _ _ Hstep Hl Hlk) as (Hj & Hd & o' & Hl' & Hlk').
  assert (jobs_run w → jobs_run (set_loops (<[i:=l']> (wk_loops w)) locks' w)) as Hjobs.
  { unfold jobs_run. simpl. intros <-. rewrite list_fmap_insert, Hj. apply list_insert_id.
    by rewrite list_lookup_fmap, Hi. }
  assert (wk_loops w ≠ []) as Hne by (intros E; by rewrite E in Hi).
  constructor; [done| |].
  - exists (<[i:=o']> os). simpl. split; [by apply Forall2_insert|]. by rewrite (held_insert os i o o' Ho).
  - simpl. destruct (wk_started w).
    + destruct Hc as (k & x & Ha & Hp). exists k, x. split; [done|].
      destruct x; simpl in *; try done; [| | | | |].
      * by destruct Hp as (_ & _ & ? & _).
      * by destruct Hp as (_ & ? & _).
      * by destruct Hp as (_ & ? & _).
      * destruct Hp. auto.
      * destruct Hp as (? & ? & ?). auto.
      * destruct Hp as (_ & _ & _ & Hall & _). by destruct Hd; eapply Forall_lookup_1.
    + destruct Hc as [Hn He]. by destruct He as (_ & _ & ? & _).
Qed.

Lemma life_step_inv a w w' : worker_step c e a w w' → life_inv w → life_inv w'.
Proof.
  destruct 1; intros Hinv.
  - by apply parent_inv.
  - pose proof Hinv as [H1 H2 H3]. constructor; [done|done|]. simpl. destruct (wk_started w).
    + destruct H3 as (i & x & Ha & Hp). exists i, x. split; [by apply only_active_call|by destruct x].
    + destruct H3 as [Hn He]. split; [|done]. intros x [Hx| ->%list_elem_of_singleton]%elem_of_app; [auto|by intros []].
  - by eapply start_inv.
  - by apply stop_inv.
  - eapply engine_inv; [done|done|by intros ->|]. by destruct a.
  - by eapply engine_inv.
  - eapply (notify_inv _ l); [by eapply engine_inv|done|].
    unfold receive in *. destruct (li_pending l), (li_closed l); naive_solver.
  - eapply (notify_inv _ l); [done|done|]. unfold WaitForNotification.
    by destruct (li_closed l), err.
  - by eapply loop_inv.
Qed.

Lemma life_reachable_inv w : life_reachable c e w → life_inv w.
Proof.
  intros Hr. assert (life_inv (new_worker e)) as H0 by apply new_worker_inv.
  induction Hr as [|x y z [a Hxy] _ IH]; [done|]. apply IH. by eapply life_step_inv.
Qed.
End Inv.

(** ** Start returns clean *)

(** C15: When [Start] returns, nothing of the worker is left running.  The other
    calls of Start have been refused or have not looked yet; every background
    loop it started has returned; no leader lock is held; the context is
    cancelled and the listener's connection closed; and the result is the run
    loop's: without error, every handler goroutine has ended and every posted
    acknowledgement was handed to storage. *)
Theorem start_returns_clean c e w i r :
  life_reachable c e w → wk_calls w !! i = Some (SReturned r) →
  (∀ j y, wk_calls w !! j = Some y → j ≠ i → y = SEnter ∨ start_result y = Some (Some already_started)) ∧
  job_of <$> wk_loops w = (start_background c).*1 ∧ Forall is_done (wk_loops w) ∧ wk_locks w = [] ∧
  ctx_done w = true ∧ (∀ l, wk_notify w = Some l → li_conn l = false) ∧
  (r = None → (∀ p, p ∈ sy_go (wk_eng w) → p = ERet ()) ∧
     sy_flushed (wk_eng w) = sy_posted (wk_eng w) ∧ sh_ch (sy_sh (wk_eng w)) = []).
Proof.
  intros H%life_reachable_inv Hi.
  destruct (active_phase c e w i _ H Hi I) as (_ & (_ & _ & Hu) & (_ & Hj & Hm & Hd & Hc & Hn)).
  split_and!; try done.
  - intros j y Hy Hne. destruct y; auto; by destruct Hne; eapply Hu.
  - destruct (lv_loops _ _ _ H) as (os & Hos & Hlk). apply Permutation_nil_r. rewrite Hlk.
    clear - Hd Hos. induction Hos as [|l o ls os Hl _ IH]; [done|].
    apply Forall_cons in Hd as [Hd1 Hd]. destruct l; try done. simpl in Hl. subst o. by apply IH.
  - intros ->. apply (drained_done e); [apply H|done].
Qed.

Lemma start_returns_clean_witness :
  start_result <$> wk_calls (lives whole_life) = [Some None; Some (Some already_started)] ∧
  length (wk_loops (lives whole_life)) = 2%nat ∧ Forall is_done (wk_loops (lives whole_life)).
Proof.
  split; [vm_compute; reflexivity|]. split; [vm_compute; reflexivity|].
  apply (start_returns_clean live_worker live_eng (lives whole_life) 0 None);
    [apply lives_reachable|vm_compute; reflexivity].
Defined.

(** ** A stop that is lost *)

(** Steps other than the cancellation of the caller's context. *)
Definition own_step (c : WorkerConfig) (e : engineConfig) (w w' : worker) : Prop :=
  ∃ a, a ≠ LParent ∧ worker_step c e a w w'.

Definition unstoppable (w : worker) : Prop :=
  wk_stopOnce w = true ∧ wk_parent w = false ∧ ctx_done w = false ∧
  polling (sy_main (wk_eng w)) ∧ ∀ x, x ∈ wk_calls w → match x with SJoin _ | SReturned _ => False | _ => True end.

Lemma early_unstoppable c e w : life_inv c e w → wk_stopOnce w = true → wk_cancel w = false →
  wk_parent w = false → unstoppable w.
Proof.
  intros [_ _ Hc] Hs Hca Hp.
  assert (early w ∧ ∀ x, x ∈ wk_calls w → x = SContext ∨ ¬ active x) as [(_ & Hd & _ & Hm) Hx].
  { destruct (wk_started w).
    - destruct Hc as (i & x & (Hi & Hx & Hu) & Hph).
      assert (x = SContext) as -> by (destruct x; try done; simpl in Hph; destruct Hph; congruence).
      split; [done|]. intros y [j Hj]%list_elem_of_lookup. destruct (decide (j = i)) as [->|Hne].
      + left. by simplify_eq.
      + right. intros Hy. by destruct Hne; eapply Hu.
    - destruct Hc as [Hn He]. auto. }
  split_and!; try done. intros x Hin. destruct (Hx x Hin) as [-> |Hna]; [done|]. destruct x; try done; by destruct Hna.
Qed.

Lemma unstoppable_step c e w w' : own_step c e w w' → unstoppable w → unstoppable w'.
Proof.
  intros (a & Ha & Hs) (H1 & H2 & H3 & H4 & H5).
  assert (∀ b s', sys_step e b (wk_eng w) s' → b ≠ ACancel → unstoppable (set_eng s' w)) as Heng.
  { intros b s' Hb Hne. destruct (sys_step_main e b _ _ Hb) as [Hc _]. unfold ctx_done in H3.
    split_and!; try done; [|by eapply sys_step_polling]. unfold ctx_done. simpl. destruct b; congruence. }
  destruct Hs; try done.
  - split_and!; try done. simpl. intros x [Hx| ->%list_elem_of_singleton]%elem_of_app; [by apply H5|done].
  - assert (∀ n, x' ≠ SReturned n ∧ x' ≠ SJoin n) as Hx'.
    { specialize (H5 x (list_elem_of_lookup_2 _ _ _ H)). intros n.
      destruct x; simpl in H0; try done.
      - destruct (wk_started w); by injection H0 as <- <-.
      - by injection H0 as <- <-.
      - destruct (wc_Notifier c && _); [destruct (Listen acquire listen)|]; by injection H0 as <- <-.
      - by injection H0 as <- <-.
      - by destruct (sy_main (wk_eng w)). }
    assert (wk_stopOnce w' = true ∧ wk_parent w' = false ∧ wk_eng w' = wk_eng w) as (E1 & E2 & E3).
    { destruct x; simpl in H0; try done.
      - destruct (wk_started w); by injection H0 as <- <-.
      - rewrite H2 in H0. by injection H0 as <- <-.
      - destruct (wc_Notifier c && _); [destruct (Listen acquire listen)|]; by injection H0 as <- <-.
      - by injection H0 as <- <-.
      - destruct (sy_main (wk_eng w)); try done; by injection H0 as <- <-.
      - by destruct (H5 _ (list_elem_of_lookup_2 _ _ _ H)). }
    unfold unstoppable, ctx_done in *. simpl. rewrite E3. split_and!; try done.
    intros y [j [(-> & <- & _)|[_ Hj]]%list_lookup_insert_Some]%list_elem_of_lookup.
    + destruct x'; try done; by edestruct Hx'.
    + apply H5. by eapply list_elem_of_lookup_2.
  - unfold Stop. by rewrite H1.
  - eapply Heng; [done|by intros ->].
  - by eapply Heng.
  - by eapply Heng.
Qed.

(** C16: A Stop that comes before Start has stored its cancel function is lost,
    and with it every later one.  From then on, until the caller's own context
    ends, no sequence of steps - calls of Stop included - cancels the worker's
    context, and no call of Start that runs the engine ever returns. *)
Theorem early_stop_is_lost c e w w' :
  life_reachable c e w → wk_stopOnce w = true → wk_cancel w = false → wk_parent w = false →
  rtc (own_step c e) w w' →
  ctx_done w' = false ∧ ∀ i r, wk_calls w' !! i ≠ Some (SReturned r).
Proof.
  intros H%life_reachable_inv Hs Hc Hp Hr.
  assert (unstoppable w') as (_ & _ & Hd & _ & Hx).
  { pose proof (early_unstoppable c e w H Hs Hc Hp) as Hu. clear -Hr Hu.
    induction Hr as [|x y z Hxy _ IH]; [done|]. apply IH. by eapply unstoppable_step. }
  split; [done|]. intros i r Hi. by apply (Hx _ (list_elem_of_lookup_2 _ _ _ Hi)).
Qed.

Lemma early_stop_is_lost_witness :
  let w := lives [IStop] in
  let w' := live live_worker live_eng (start_schedule ++ [IStop]) w in
  start_running w' ∧ ctx_done w' = false.
Proof.
  cbv zeta. split; [vm_compute; left|].
  apply (early_stop_is_lost live_worker live_eng (lives [IStop])); try reflexivity; [apply lives_reachable|].
  apply live_own_steps. intros H. repeat (apply elem_of_cons in H as [H|H]; [discriminate|]).
  by apply elem_of_nil in H.
Defined.

(** ** A listener that has failed *)

Definition listener_dead (w : worker) : Prop :=
  wk_started w = true ∧ (∃ l, wk_notify w = Some l ∧ li_closed l = true) ∧
  ∀ x, x ∈ wk_calls w → x ≠ SContext ∧ x ≠ SListen.

Lemma listener_dead_step c e a w w' : worker_step c e a w w' → listener_dead w → listener_dead w'.
Proof.
  intros Hs (H1 & (l0 & H2 & H3) & H4). assert (∃ l, wk_notify w = Some l ∧ li_closed l = true) as Hl by eauto.
  destruct Hs.
  - unfold parent_cancel. destruct (wk_cancel w); by split_and!.
  - split_and!; try done. simpl. intros x [Hx| ->%list_elem_of_singleton]%elem_of_app; [by apply H4|done].
  - specialize (H4 x (list_elem_of_lookup_2 _ _ _ H)) as Hx.
    assert (wk_started w' = true ∧ (∃ l, wk_notify w' = Some l ∧ li_closed l = true) ∧
      x' ≠ SContext ∧ x' ≠ SListen) as (E1 & E2 & E3).
    { destruct x; simpl in H0; try done; try (by destruct Hx).
      - rewrite H1 in H0. by injection H0 as <- <-.
      - by injection H0 as <- <-.
      - destruct (sy_main (wk_eng w)); try done; by injection H0 as <- <-.
      - destruct (forallb _ _); [|done]. injection H0 as <- <-. simpl. rewrite H2. split_and!; try done.
        by eexists. }
    split_and!; [done|done|]. simpl. intros y [j [(-> & <- & _)|[_ Hj]]%list_lookup_insert_Some]%list_elem_of_lookup;
      [done|]. apply H4. by eapply list_elem_of_lookup_2.
  - unfold Stop. destruct (wk_stopOnce w); [|destruct (wk_cancel w)]; by split_and!.
  - by split_and!.
  - by split_and!.
  - split_and!; try done. eexists. split; [done|]. rewrite H2 in H5. injection H5 as <-.
    unfold receive in H6. rewrite H3 in H6. destruct (li_pending l0); by injection H6 as <-.
  - split_and!; try done. eexists. split; [done|]. rewrite H2 in H. injection H as <-.
    unfold WaitForNotification. by rewrite H3.
  - by split_and!.
Qed.

(** C17: A listener whose connection has failed makes the run loop spin.  From the
    moment its channel is closed while the engine runs, whatever happens
    later, no wait of the run loop blocks: each can end at once as if work had
    been signalled, with the poll delay reset to its minimum. *)
Theorem dead_listener_spins c e w l w' d :
  life_reachable c e w → start_running w → wk_notify w = Some l → li_closed l = true →
  rtc (life_any c e) w w' → start_running w' → sy_main (wk_eng w') = MWait d →
  ∃ w2, worker_step c e LOther w' w2 ∧ sy_main (wk_eng w2) = MTop (poll_interval e).
Proof.
  intros H%life_reachable_inv Hr Hl Hc Hw Hr' Hm.
  assert (listener_dead w) as Hd.
  { apply list_elem_of_lookup in Hr as [i Hi].
    destruct (active_phase c e w i SRun H Hi I) as (Hst & (_ & _ & Hu) & _).
    split; [done|]. split; [eauto|]. intros x [j Hj]%list_elem_of_lookup.
    split; intros ->; pose proof (Hu j _ Hj I); by simplify_eq. }
  assert (listener_dead w') as (_ & (l' & Hl' & Hc') & _).
  { clear -Hw Hd. induction Hw as [|x y z [a Hxy] _ IH]; [done|]. apply IH. by eapply listener_dead_step. }
  destruct (receive_closed l' Hc') as (l2 & Hl2 & _). eexists. split.
  - eapply wl_notified; [by apply (st_wake e (wk_eng w') d Notified)|done|done|done].
  - done.
Qed.

Lemma dead_listener_spins_witness :
  let w := lives failed_listener in
  let w' := live live_worker live_eng (replicate 8 (IEngine ARun)) w in
  sy_main (wk_eng w') = MWait (2 * poll_interval live_eng) ∧
  ∃ w2, worker_step live_worker live_eng LOther w' w2 ∧
    sy_main (wk_eng w2) = MTop (poll_interval live_eng).
Proof.
  cbv zeta. split; [vm_compute; reflexivity|].
  eapply (dead_listener_spins live_worker live_eng (lives failed_listener));
    [apply lives_reachable|vm_compute; left|vm_compute; reflexivity|reflexivity|apply live_steps|
     vm_compute; left|vm_compute; reflexivity].
Defined.
