(* ===== verification/Metrics.v ===== *)
(** * The metrics back ends (metrics/prom/prom.go, metrics/otel/otel.go)

    What the two adapters record for each call of the Metrics hook.  The
    libraries are not modelled: a sample is the call an adapter makes on an
    instrument, with its labels.  The OpenTelemetry adapter keeps the two
    gauges itself, in maps that its callbacks read. *)

From S2P Require Import Prelude GoErrors GoFloat Retry Message Effects Registry Engine EngineFacts EngineDispatch EngineConc EngineOwes EngineConcFacts EngineSim Worker.

(** ** Samples *)

Inductive number := NInt (n : Z) | NFloat (f : float64).

Definition as_float (n : number) : float64 :=
  match n with NInt z => f64_of_int z | NFloat f => f end.

Inductive instrument_kind := Counter | Gauge | Histogram.

(** An instrument with the label names it is declared with. *)
Record instrument := mkInstrument {
  in_kind : instrument_kind;
  in_name : string;
  in_labels : list string;
}.

Inductive sample_op := OpAdd | OpSet | OpObserve.

Record sample := mkSample {
  sm_op : sample_op;
  sm_kind : instrument_kind;
  sm_name : string;
  sm_labels : list (string * string);
  sm_value : number;
}.

(** The text of the constants. *)
Definition outcome_text (o : Outcome) : string :=
  match o with
  | OutcomeSuccess => "success" | OutcomeRetry => "retry"
  | OutcomeDead => "dead" | OutcomeCanceled => "canceled"
  end.

(** ** Prometheus *)

Module Prom.
Local Open Scope string_scope.

Definition enqueued := mkInstrument Counter "tickr_messages_enqueued_total" ["event_type"].
Definition dead := mkInstrument Counter "tickr_messages_dead_total" ["event_type"].
Definition attempts := mkInstrument Counter "tickr_handler_attempts_total" ["event_type"; "outcome"].
Definition duration := mkInstrument Histogram "tickr_handler_duration_seconds" ["event_type"; "outcome"].
Definition queueDepth := mkInstrument Gauge "tickr_queue_depth" ["event_type"; "status"].
Definition claimBatchSz := mkInstrument Histogram "tickr_claim_batch_size" [].
Definition claimDuration := mkInstrument Histogram "tickr_claim_duration_seconds" [].
Definition leaseReclaim := mkInstrument Counter "tickr_leases_reclaimed_total" ["event_type"].
Definition inflight := mkInstrument Gauge "tickr_inflight_handlers" ["event_type"].

(** What New registers. *)
Definition prom_registered : list instrument :=
  [enqueued; dead; attempts; duration; queueDepth; claimBatchSz; claimDuration; leaseReclaim; inflight].

(** [vec.WithLabelValues(values...)] and the operation on the result; it panics
    ([None]) unless there is one value per label name. *)
Definition with_labels (op : sample_op) (i : instrument) (values : list string) (v : number)
    : option sample :=
  if bool_decide (length values = length (in_labels i))
  then Some (mkSample op (in_kind i) (in_name i) (zip (in_labels i) values) v) else None.

Definition prom_samples (m : metric) : option (list sample) :=
  match m with
  | MessageEnqueued et => s ← with_labels OpAdd enqueued [et] (NInt 1); Some [s]
  | HandlerStarted et _ => s ← with_labels OpAdd inflight [et] (NInt 1); Some [s]
  | HandlerCompleted et _ d o =>
    s1 ← with_labels OpAdd inflight [et] (NInt (-1));
    s2 ← with_labels OpAdd attempts [et; outcome_text o] (NInt 1);
    s3 ← with_labels OpObserve duration [et; outcome_text o] (NFloat (Duration_Seconds d));
    Some [s1; s2; s3]
  | MessageDead et => s ← with_labels OpAdd dead [et] (NInt 1); Some [s]
  | QueueDepth et st depth =>
    s ← with_labels OpSet queueDepth [et; status_text st] (NFloat (f64_of_int depth)); Some [s]
  | ClaimBatch claimed _ d =>
    s1 ← with_labels OpObserve claimBatchSz [] (NFloat (f64_of_int claimed));
    s2 ← with_labels OpObserve claimDuration [] (NFloat (Duration_Seconds d));
    Some [s1; s2]
  | LeaseReclaimed et count =>
    s ← with_labels OpAdd leaseReclaim [et] (NFloat (f64_of_int count)); Some [s]
  end.
End Prom.

(** ** OpenTelemetry *)

Module Otel.
Local Open Scope string_scope.

(** The maps under [m.mu]. *)
Record Metrics := mkMetrics {
  queueDepth : gmap (string * string) Z;
  inflightCounts : gmap string Z;
}.

(** The instruments in the order New creates them; the first error ends New. *)
Definition instruments : list (instrument_kind * string) :=
  [(Counter, "tickr.messages.enqueued"); (Counter, "tickr.messages.dead");
   (Counter, "tickr.handler.attempts"); (Histogram, "tickr.handler.duration");
   (Histogram, "tickr.claim.batch_size"); (Histogram, "tickr.claim.duration");
   (Counter, "tickr.leases.reclaimed"); (Gauge, "tickr.queue.depth");
   (Gauge, "tickr.handlers.inflight")].

Definition NewMetrics (create : instrument_kind * string → option error) : error + Metrics :=
  match omap create instruments with
  | er :: _ => inl er
  | [] => inr (mkMetrics ∅ ∅)
  end.

Definition eventTypeAttr (et : string) : list (string * string) := [("event_type", et)].

Definition count (m : Metrics) (et : string) : Z := default 0 (inflightCounts m !! et).

(** A call of the hook: the samples recorded at once, and the maps after it. *)
Definition otel_samples (x : metric) (m : Metrics) : list sample * Metrics :=
  match x with
  | MessageEnqueued et =>
    ([mkSample OpAdd Counter "tickr.messages.enqueued" (eventTypeAttr et) (NInt 1)], m)
  | HandlerStarted et _ =>
    ([], mkMetrics (queueDepth m) (<[et := count m et + 1]> (inflightCounts m)))
  | HandlerCompleted et _ d o =>
    let attrs := [("event_type", et); ("outcome", outcome_text o)] in
    ([mkSample OpAdd Counter "tickr.handler.attempts" attrs (NInt 1);
      mkSample OpObserve Histogram "tickr.handler.duration" attrs (NFloat (Duration_Seconds d))],
     if (0 <? count m et)%Z
     then mkMetrics (queueDepth m) (<[et := count m et - 1]> (inflightCounts m)) else m)
  | MessageDead et =>
    ([mkSample OpAdd Counter "tickr.messages.dead" (eventTypeAttr et) (NInt 1)], m)
  | QueueDepth et st depth =>
    ([], mkMetrics (<[(et, status_text st) := depth]> (queueDepth m)) (inflightCounts m))
  | ClaimBatch claimed _ d =>
    ([mkSample OpObserve Histogram "tickr.claim.batch_size" [] (NInt claimed);
      mkSample OpObserve Histogram "tickr.claim.duration" [] (NFloat (Duration_Seconds d))], m)
  | LeaseReclaimed et count =>
    ([mkSample OpAdd Counter "tickr.leases.reclaimed" (eventTypeAttr et) (NInt count)], m)
  end.

(** The two callbacks: one observation per entry of the map. *)
Definition collect (m : Metrics) : list sample :=
  ((λ kv : (string * string) * Z,
      mkSample OpSet Gauge "tickr.queue.depth"
        [("event_type", kv.1.1); ("status", kv.1.2)] (NInt kv.2)) <$> map_to_list (queueDepth m)) ++
  ((λ kv : string * Z,
      mkSample OpSet Gauge "tickr.handlers.inflight" [("event_type", kv.1)] (NInt kv.2)) <$>
     map_to_list (inflightCounts m)).

(** A sequence of calls. *)
Fixpoint record (xs : list metric) (m : Metrics) : list sample * Metrics :=
  match xs with
  | [] => ([], m)
  | x :: xs =>
    let '(l, m) := otel_samples x m in
    let '(l', m) := record xs m in ((l ++ l')%list, m)
  end.
End Otel.

(** ** The back ends agree *)

(** The instrument of one adapter that stands for one of the other. *)
Definition renamed (name : string) : string :=
  default name (list_to_map (M := gmap string string)
    [("tickr_messages_enqueued_total", "tickr.messages.enqueued");
     ("tickr_messages_dead_total", "tickr.messages.dead");
     ("tickr_handler_attempts_total", "tickr.handler.attempts");
     ("tickr_handler_duration_seconds", "tickr.handler.duration");
     ("tickr_claim_batch_size", "tickr.claim.batch_size");
     ("tickr_claim_duration_seconds", "tickr.claim.duration");
     ("tickr_leases_reclaimed_total", "tickr.leases.reclaimed")]%string !! name).

(** What a sample says of a counter or a histogram. *)
Definition measured (rename : string → string) (s : sample)
    : option (sample_op * instrument_kind * string * list (string * string) * float64) :=
  match sm_kind s with
  | Gauge => None
  | k => Some (sm_op s, k, rename (sm_name s), sm_labels s, as_float (sm_value s))
  end.

Definition is_gauge (s : sample) : bool := match sm_kind s with Gauge => true | _ => false end.

(** The two back ends measure the same.  For every sequence of calls the
    Prometheus adapter passes as many label values as its vectors have names,
    so no call panics, and what it adds to its counters and observes in its
    histograms is, instrument by instrument, label by label and value by value,
    what the OpenTelemetry adapter records; the latter never touches a gauge
    outside its callbacks. *)
Theorem metrics_backends_agree xs m :
  ∃ ls, mapM Prom.prom_samples xs = Some ls ∧
    omap (measured renamed) (concat ls) = omap (measured id) (Otel.record xs m).1 ∧
    Forall (λ s, is_gauge s = false) (Otel.record xs m).1.
Proof.
  revert m. induction xs as [|x xs IH]; intros m.
  { exists []. by split_and!. }
  cbn [Otel.record]. destruct (Otel.otel_samples x m) as [l m1] eqn:E1.
  destruct (IH m1) as (ls & Hls & He & Hg). destruct (Otel.record xs m1) as [l' m2]. simpl in He, Hg.
  assert (∃ l1, Prom.prom_samples x = Some l1 ∧ omap (measured renamed) l1 = omap (measured id) l ∧
    Forall (λ s, is_gauge s = false) l) as (l1 & Hl1 & He1 & Hg1).
  { destruct x; simpl in E1; injection E1 as <- <-; (eexists; split; [reflexivity|]); split;
      try reflexivity; by repeat constructor. }
  exists (l1 :: ls). simpl. rewrite Hl1, Hls. simpl. split; [done|]. split.
  - by rewrite !omap_app, He1, He.
  - by apply Forall_app.
Qed.

(** ** The in-flight gauge *)

Definition metric_of (ev : event) : option metric :=
  match ev with Ev ef _ => match ef with Metric m => Some m | _ => None end end.
Definition metrics_of (t : list event) : list metric := omap metric_of t.

(** Attempts of a type started and not completed. *)
Definition opened (et : string) (m : metric) : Z :=
  match m with
  | HandlerStarted t _ => if decide (t = et) then 1 else 0
  | HandlerCompleted t _ _ _ => if decide (t = et) then -1 else 0
  | _ => 0
  end.
Definition open (et : string) (l : list metric) : Z := zsum (opened et) l.

(** No attempt completes that has not been started. *)
Definition well_opened (et : string) (l : list metric) : Prop := ∀ p, p `prefix_of` l → 0 ≤ open et p.

Section Gauge.
Context (e : engineConfig) (et : string).

Definition in_legal (o : Z) (ev : event) : Prop :=
  match ev with
  | Ev ef _ =>
    match ef with
    | Metric m => match m with HandlerCompleted t _ _ _ => t = et → 0 < o | _ => True end
    | _ => True
    end
  end.

Definition in_next (o : Z) (ev : event) : Z :=
  match ev with
  | Ev ef _ =>
    match ef with
    | Metric m =>
      match m with
      | HandlerStarted t _ => if decide (t = et) then o + 1 else o
      | HandlerCompleted t _ _ _ => if decide (t = et) then o - 1 else o
      | _ => o
      end
    | _ => o
    end
  end.

Abbreviation in_follows := (follows in_legal in_next).

(** Programs that start and complete nothing. *)
Ltac in_neutral :=
  repeat first
    [ apply follows_ret
    | apply follows_perform; intros; by split
    | apply follows_keep; [|intros ?]
    | apply follows_each; intros ? _
    | match goal with |- follows _ _ (match ?x with _ => _ end) _ _ => destruct x end ].

Definition of_type (m : InboundMessage) : Z := if decide (im_Type m = et) then 1 else 0.

Lemma starts_follows ms o :
  in_follows (each (λ m, perform (Metric (HandlerStarted (im_Type m) (im_Attempt m)))) ms) o (o + zsum of_type ms).
Proof.
  revert o. induction ms as [|m ms IH]; intros o; cbn [each].
  - simpl. rewrite Z.add_0_r. apply follows_ret.
  - apply (follows_bind _ _ _ _ _ (o + of_type m)).
    + apply follows_perform. intros [] _. split; [done|]. simpl. unfold of_type. destruct (decide _); lia.
    + intros []. pose proof (IH (o + of_type m)) as H. simpl. by rewrite Z.add_assoc.
Qed.

Lemma of_type_nonneg m : 0 ≤ of_type m.
Proof. unfold of_type. destruct (decide _); lia. Qed.

Lemma completes_follows ms d oc o : 0 ≤ o →
  in_follows (each (λ m, perform (Metric (HandlerCompleted (im_Type m) (im_Attempt m) d oc))) ms)
    (o + zsum of_type ms) o.
Proof.
  intros Ho. induction ms as [|m ms IH]; cbn [each].
  - simpl. rewrite Z.add_0_r. apply follows_ret.
  - pose proof (zsum_nonneg of_type ms of_type_nonneg) as Hn.
    apply (follows_bind _ _ _ _ _ (o + zsum of_type ms)); [|by intros []].
    apply follows_perform. intros [] _. simpl.
    change (of_type m) with (if decide (im_Type m = et) then 1 else 0). destruct (decide _); split; try lia; done.
Qed.

Lemma commitOutcome_keeps m c err oc o : in_follows (commitOutcome e m c err oc) o o.
Proof.
  unfold commitOutcome, alert_if, msg_alert, retry_delay. destruct oc; in_neutral.
Qed.

Lemma task_body_follows t : in_follows (task_body e t) 0 0.
Proof.
  assert (∀ c ms st body, in_follows body 0 0 → in_follows (with_attempt c ms st body) 0 0) as Hw.
  { intros c ms st body Hb. unfold with_attempt, return_tokens.
    apply follows_keep; [in_neutral|intros _]. apply follows_keep; [in_neutral|intros _].
    apply follows_keep; [exact Hb|intros _]. in_neutral. }
  destruct t as [m reg|ms reg]; simpl; apply Hw.
  - unfold attempt. do 2 (apply follows_keep; [in_neutral|intros ?]).
    apply (follows_bind _ _ _ _ _ (of_type m)).
    { apply follows_perform. intros [] _. split; [done|]. simpl. unfold of_type. by destruct (decide _). }
    intros _. unfold invoke, resolveOutcome. set (o := of_type m).
    do 4 (apply (follows_bind _ _ _ _ _ o); [in_neutral|intros ?]). unfold o. clear o.
    apply (follows_bind _ _ _ _ _ 0); [|intros _; apply commitOutcome_keeps].
    apply follows_perform. intros [] _. simpl. unfold of_type. destruct (decide _); split; try lia; done.
  - unfold batch_attempt. apply follows_keep; [in_neutral|intros _].
    apply (follows_bind _ _ _ _ _ (0 + zsum of_type ms)); [apply starts_follows|intros _].
    unfold invokeBatch, resolveOutcome. set (o := 0 + zsum of_type ms).
    do 5 (apply (follows_bind _ _ _ _ _ o); [in_neutral|intros ?]). unfold o. clear o.
    apply (follows_bind _ _ _ _ _ 0); [by apply completes_follows|intros _].
    apply follows_each. intros m _. apply commitOutcome_keeps.
Qed.

(** The discipline bounds what is open along a path. *)
Lemma lawful_open t o fin : 0 ≤ o → lawful in_legal in_next o t fin →
  fin = o + open et (metrics_of t) ∧ ∀ p, p `prefix_of` metrics_of t → 0 ≤ o + open et p.
Proof.
  revert o. induction t as [|[B ef b] t IH]; intros o Ho.
  { simpl. intros <-. unfold open. simpl. split; [lia|]. intros p ->%prefix_nil_inv. simpl. lia. }
  intros [Hl Ht].
  assert (in_next o (Ev ef b) = o ∧ metrics_of (Ev ef b :: t) = metrics_of t ∨
    ∃ m, metrics_of (Ev ef b :: t) = m :: metrics_of t ∧ in_next o (Ev ef b) = o + opened et m ∧
      0 ≤ in_next o (Ev ef b)) as [[E1 E2]|(m & E1 & E2 & E3)].
  { revert b Hl Ht. destruct ef; intros b Hl Ht; try (left; by split).
    right. exists m. split; [done|]. destruct m; simpl in *; try (split; lia).
    all: destruct (decide _) as [->|]; split; try specialize (Hl eq_refl); lia. }
  - rewrite E1 in Ht. rewrite E2. by apply IH.
  - destruct (IH _ E3 Ht) as [-> Hp]. rewrite E2 in *. rewrite E1. unfold open in *. simpl. split; [lia|].
    intros [|m' p] Hpre; [simpl; lia|]. apply prefix_cons_inv_1 in Hpre as E. subst m'.
    apply prefix_cons_inv_2 in Hpre. specialize (Hp p Hpre). simpl. lia.
Qed.

Lemma handler_opened t T : path (task_body e t) T () →
  open et (metrics_of T) = 0 ∧ well_opened et (metrics_of T).
Proof.
  intros Hp. pose proof (every_of_path _ _ _ _ (task_body_follows t) Hp) as H. simpl in H.
  destruct (lawful_open T 0 0 (Z.le_refl 0) H) as [E Hw]. split; [lia|]. intros p. apply Hw.
Qed.
End Gauge.

(** [t] interleaves the lists [ts]. *)
Inductive interleaves {A} : list (list A) → list A → Prop :=
| il_start n : interleaves (replicate n []) []
| il_step ts t i l x : interleaves ts t → ts !! i = Some l → interleaves (<[i := l ++ [x]]> ts) (t ++ [x]).

(** What the Prometheus adapter has added to the in-flight gauge of a type. *)
Definition prom_inflight (et : string) (ls : list sample) : Z :=
  zsum (λ s, if bool_decide (sm_name s = in_name Prom.inflight ∧ sm_labels s = [("event_type", et)]%string)
             then match sm_value s with NInt n => n | NFloat _ => 0 end else 0) ls.

Lemma prom_inflight_metric et x l : Prom.prom_samples x = Some l → prom_inflight et l = opened et x.
Proof.
  unfold prom_inflight. destruct x; simpl; intros [= <-]; simpl; rewrite ?Z.add_0_r; try done.
  all: destruct (decide _) as [->|Hne]; [by rewrite bool_decide_true|by rewrite bool_decide_false by (intros [_ E]; congruence)].
Qed.

Lemma record_snoc t x m : (Otel.record (t ++ [x]) m).2 = (Otel.otel_samples x (Otel.record t m).2).2.
Proof.
  revert m. induction t as [|y t IH]; intros m; simpl.
  - by destruct (Otel.otel_samples x m).
  - destruct (Otel.otel_samples y m) as [l m1]. specialize (IH m1).
    destruct (Otel.record (t ++ [x]) m1), (Otel.record t m1). done.
Qed.

Lemma count_metric et x m : (0 ≤ Otel.count m et + opened et x) →
  Otel.count (Otel.otel_samples x m).2 et = Otel.count m et + opened et x.
Proof.
  destruct x as [|t a|t a d o| | | |]; simpl; intros H; try (unfold Otel.count in *; simpl in *; lia).
  - unfold Otel.count at 1. simpl. destruct (decide (t = et)) as [->|Hne].
    + by rewrite lookup_insert_eq.
    + rewrite lookup_insert_ne by done. unfold Otel.count. lia.
  - destruct (decide (t = et)) as [->|Hne].
    + destruct (Z.ltb_spec 0 (Otel.count m et)); [|lia]. unfold Otel.count at 1. simpl.
      by rewrite lookup_insert_eq.
    + destruct (_ <? _); unfold Otel.count; simpl; [|lia]. rewrite lookup_insert_ne by done. lia.
Qed.

Lemma open_snoc et l x : open et (l ++ [x]) = open et l + opened et x.
Proof. unfold open. rewrite zsum_app. simpl. lia. Qed.

Definition fresh_metrics : Otel.Metrics := Otel.mkMetrics ∅ ∅.

Lemma opened_nonneg et ts : (∀ i l, ts !! i = Some l → well_opened et l) → 0 ≤ zsum (open et) ts.
Proof.
  induction ts as [|l ts IH]; intros Hw; simpl; [lia|].
  pose proof (Hw 0%nat l eq_refl l (reflexivity l)). assert (0 ≤ zsum (open et) ts); [|lia].
  apply IH. intros j l' Hj. by apply (Hw (S j)).
Qed.

Lemma opened_le et ts i l : (∀ j l', ts !! j = Some l' → well_opened et l') → ts !! i = Some l →
  open et l ≤ zsum (open et) ts.
Proof.
  revert i. induction ts as [|l0 ts IH]; intros i Hw Hi; [done|]. simpl.
  assert (∀ j l', ts !! j = Some l' → well_opened et l') as Hw1 by (intros j l' Hj; by apply (Hw (S j))).
  destruct i as [|i].
  - simpl in Hi. simplify_eq. pose proof (opened_nonneg et ts Hw1). lia.
  - pose proof (Hw 0%nat l0 eq_refl l0 (reflexivity l0)). specialize (IH i Hw1 Hi). lia.
Qed.

Lemma interleaved_count et ts t : interleaves ts t → (∀ i l, ts !! i = Some l → well_opened et l) →
  Otel.count (Otel.record t fresh_metrics).2 et = zsum (open et) ts ∧ open et t = zsum (open et) ts.
Proof.
  induction 1 as [n|ts t i l x H IH Hi]; intros Hw.
  { simpl. assert (zsum (open et) (replicate n []) = 0) as ->; [clear Hw; by induction n as [|n IHn]; [|simpl; rewrite IHn]|]. by split. }
  pose proof (lookup_lt_Some _ _ _ Hi) as Hlt.
  assert (∀ j l', ts !! j = Some l' → well_opened et l') as Hw0.
  { intros j l' Hj. destruct (decide (j = i)) as [->|Hne].
    - simplify_eq. intros p Hp. apply (Hw i (l ++ [x])); [by apply list_lookup_insert_eq|].
      by apply prefix_app_r.
    - apply (Hw j). by rewrite list_lookup_insert_ne. }
  destruct (IH Hw0) as [E1 E2]. rewrite (zsum_insert (open et) ts i l (l ++ [x]) Hi), open_snoc.
  split; [|rewrite open_snoc; lia]. rewrite record_snoc, count_metric; [lia|].
  assert (0 ≤ open et (l ++ [x])) as Hn.
  { apply (Hw i (l ++ [x])); [by apply list_lookup_insert_eq|done]. }
  rewrite open_snoc in Hn. rewrite E1.
  pose proof (opened_le et ts i l Hw0 Hi). lia.
Qed.

(** C26: The in-flight gauge is exact.  However the handler goroutines interleave,
    each anywhere between its start and its end, both back ends' gauge of a
    type is the number of attempts of that type started and not completed -
    never negative, so the OpenTelemetry adapter's guard at zero loses nothing
    - and it is zero once every goroutine has ended. *)
Theorem inflight_gauge_exact e et ts t ls :
  interleaves ts t →
  (∀ i l, ts !! i = Some l → ∃ tk T, path (task_body e tk) T () ∧ l `prefix_of` metrics_of T) →
  mapM Prom.prom_samples t = Some ls →
  Otel.count (Otel.record t fresh_metrics).2 et = zsum (open et) ts ∧
  prom_inflight et (concat ls) = zsum (open et) ts ∧ 0 ≤ zsum (open et) ts ∧
  ((∀ i l, ts !! i = Some l → ∃ tk T, path (task_body e tk) T () ∧ l = metrics_of T) →
   zsum (open et) ts = 0).
Proof.
  intros Hil Hts Hls.
  assert (∀ i l, ts !! i = Some l → well_opened et l) as Hw.
  { intros i l Hi. destruct (Hts i l Hi) as (tk & T & Hp & Hl). intros p Hpre.
    apply (handler_opened e et tk T Hp). by etrans. }
  destruct (interleaved_count et ts t Hil Hw) as [E1 E2]. split; [done|]. split; [|split].
  - rewrite <- E2. clear -Hls. revert ls Hls. induction t as [|x t IH]; intros ls Hls; simpl in Hls.
    + by injection Hls as <-.
    + destruct (Prom.prom_samples x) as [l|] eqn:Hx; [|done]. simpl in Hls.
      destruct (mapM Prom.prom_samples t) as [ls'|]; [|done]. injection Hls as <-. simpl.
      unfold prom_inflight. rewrite zsum_app. fold (prom_inflight et l) (prom_inflight et (concat ls')).
      by rewrite (prom_inflight_metric et x l Hx), (IH ls' eq_refl).
  - by apply opened_nonneg.
  - intros Hall. clear -Hall. induction ts as [|l ts IH]; [done|]. simpl.
    destruct (Hall 0%nat l eq_refl) as (tk & T & Hp & ->). destruct (handler_opened e et tk T Hp) as [-> _].
    rewrite IH; [done|]. intros j l' Hj. by apply (Hall (S j)).
Qed.

(** A handler that has finished and one that has started. *)
Definition demo_path : list event :=
  (erun (λ B ef s, (calm_world B ef, s)) (runHandler sim_engine demo_message sim_registration) ()).1.1.

Lemma inflight_gauge_exact_witness :
  let started := HandlerStarted "order.paid" 3 in
  let completed := HandlerCompleted "order.paid" 3 0 OutcomeSuccess in
  Otel.count (Otel.record [started; started; completed] fresh_metrics).2 "order.paid" = 1 ∧
  0 ≤ zsum (open "order.paid") [[started]; [started; completed]].
Proof.
  cbv zeta. set (started := HandlerStarted "order.paid" 3).
  set (completed := HandlerCompleted "order.paid" 3 0 OutcomeSuccess).
  destruct (inflight_gauge_exact sim_engine "order.paid" [[started]; [started; completed]]
    [started; started; completed] (default [] (mapM Prom.prom_samples [started; started; completed])))
    as (H1 & _ & H2 & _); [| | |by split].
  - apply (il_step [[started]; [started]] [started; started] 1 [started] completed); [|reflexivity].
    apply (il_step [[started]; []] [started] 1 [] started); [|reflexivity].
    apply (il_step [[]; []] [] 0 [] started); [|reflexivity]. apply (il_start 2).
  - pose proof (path_erun (λ B ef s, (calm_world B ef, s))
      (task_body sim_engine (runHandlerTask demo_message sim_registration)) ()
      (λ B ef _, calm_world_ok B ef)) as Hp.
    match type of Hp with path _ _ ?r => destruct r end.
    intros [|[|i]] l Hl; [| |done]; injection Hl as <-; exists (runHandlerTask demo_message sim_registration), demo_path;
      (split; [exact Hp|]).
    + exists [completed]. vm_compute. reflexivity.
    + exists []. vm_compute. reflexivity.
  - vm_compute. reflexivity.
Defined.

(** ** The queue-depth gauge *)

Definition depth (m : Otel.Metrics) (et : string) (st : Status) : option Z :=
  Otel.queueDepth m !! (et, status_text st).

Lemma depth_metric t s n m et st :
  depth (Otel.otel_samples (QueueDepth t s n) m).2 et st =
  if decide (t = et ∧ s = st) then Some n else depth m et st.
Proof.
  unfold depth. simpl. destruct (decide (t = et ∧ s = st)) as [[-> ->]|Hne]; [by rewrite lookup_insert_eq|].
  apply lookup_insert_ne. intros [= -> ->%(inj status_text)]. by destruct Hne.
Qed.

(** Recording depths that are a function of type and status. *)
Lemma record_depths (D : string → Status → Z) xs m et st :
  (∀ x, x ∈ xs → ∃ t s, x = QueueDepth t s (D t s)) →
  (QueueDepth et st (D et st) ∈ xs → depth (Otel.record xs m).2 et st = Some (D et st)) ∧
  (QueueDepth et st (D et st) ∉ xs → depth (Otel.record xs m).2 et st = depth m et st).
Proof.
  induction xs as [|x xs IH] using rev_ind; intros Hx; [by split; [intros ?%elem_of_nil|]|].
  assert (∀ y, y ∈ xs → ∃ t s, y = QueueDepth t s (D t s)) as Hx0.
  { intros y Hy. apply Hx, elem_of_app. by left. }
  destruct (IH Hx0) as [IH1 IH2]. rewrite record_snoc.
  destruct (Hx x) as (t & s & ->); [apply elem_of_app; right; by left|].
  rewrite depth_metric, elem_of_app, list_elem_of_singleton.
  destruct (decide (t = et ∧ s = st)) as [[-> ->]|Hne]; [split; [done|]; intros []; by right|].
  split; [intros [H|[= -> ->]]; [auto|by destruct Hne]|]. intros H. apply IH2. intros Hin. apply H. by left.
Qed.

(** The statistics a tick of the sampler was answered. *)
Definition stats_of (ev : event) : option Stats :=
  match ev with
  | Ev ef b =>
    match ef in eff B return B → option Stats with
    | Call cl =>
      match cl in call B return B → option Stats with
      | StStats => λ b, match b with (s, None) => Some s | _ => None end
      | _ => λ _, None
      end
    | _ => λ _, None
    end b
  end.
Definition sampled (t : list event) : option Stats := head (omap stats_of t).

Definition depth_in (s : Stats) (et : string) (st : Status) : option Z :=
  m ← ByEventType s !! et; m !! st.

(** The depths a sample reports, and nothing else. *)
Definition reports (s : Stats) (xs : list metric) : Prop :=
  ∀ x, x ∈ xs ↔ ∃ et st n, x = QueueDepth et st n ∧ depth_in s et st = Some n.

Lemma metrics_of_app t t' : metrics_of (t ++ t') = metrics_of t ++ metrics_of t'.
Proof. apply omap_app. Qed.

Lemma each_metrics {K} ok (f : K → metric) l :
  every ok (each (λ k, perform (Metric (f k))) l) (λ t _, metrics_of t = f <$> l ∧ omap stats_of t = []).
Proof.
  induction l as [|k l IH]; simpl; [by split|]. intros [] _.
  eapply every_mono; [|exact IH]. intros t u [H1 H2]. unfold metrics_of in *. simpl. by rewrite H1.
Qed.

Lemma depths_of_type s et :
  every world_ok
    (let byStatus := default ∅ (ByEventType s !! et) in
     statuses ← perform (MapOrder (map_to_list byStatus).*1);
     each (λ st, perform (Metric (QueueDepth et st (default 0 (byStatus !! st))))) statuses)
    (λ t _, omap stats_of t = [] ∧
       ∀ x, x ∈ metrics_of t ↔ ∃ st n, x = QueueDepth et st n ∧ depth_in s et st = Some n).
Proof.
  cbv zeta. set (bs := default ∅ (ByEventType s !! et)).
  assert (∀ st, depth_in s et st = bs !! st) as Hd.
  { intros st. unfold depth_in, bs. by destruct (ByEventType s !! et). }
  apply every_bind, every_perform. intros sts Hsts.
  eapply every_mono; [|apply each_metrics]. intros t u [H1 H2]. simpl. split; [done|]. intros x.
  change (metrics_of (Ev (MapOrder (map_to_list bs).*1) sts :: t)) with (metrics_of t). rewrite H1, list_elem_of_fmap.
  assert (∀ st, st ∈ sts ↔ is_Some (bs !! st)) as Hin.
  { intros st. simpl in Hsts. rewrite Hsts, list_elem_of_fmap. split.
    - intros ([st' n] & -> & H%elem_of_map_to_list). by exists n.
    - intros [n H]. exists (st, n). split; [done|]. by apply elem_of_map_to_list. }
  split.
  - intros (st & -> & [n Hn]%Hin). exists st, n. by rewrite Hd, Hn.
  - intros (st & n & -> & Hn). rewrite Hd in Hn. exists st. rewrite Hn. split; [done|]. apply Hin. by exists n.
Qed.

Lemma sampleStats_reports :
  every world_ok sampleStats (λ t _,
    match sampled t with Some s => reports s (metrics_of t) | None => metrics_of t = [] end).
Proof.
  unfold sampleStats, with_leader. apply every_bind, every_perform. intros [acquired [er|]] _; [done|].
  destruct acquired; [|done]. apply every_bind, every_bind, every_perform. intros [s [er|]] _.
  { intros []. done. }
  apply every_bind, every_perform. intros types Ht.
  eapply every_mono; cycle 1.
  { apply (every_each world_ok _ (λ et t, omap stats_of t = [] ∧
      ∀ x, x ∈ metrics_of t ↔ ∃ st n, x = QueueDepth et st n ∧ depth_in s et st = Some n)
      (λ t, omap stats_of t = [] ∧
        ∀ x, x ∈ metrics_of t ↔ ∃ et st n, et ∈ types ∧ x = QueueDepth et st n ∧ depth_in s et st = Some n)).
    - intros et _. apply depths_of_type.
    - intros ts Hts. clear Ht. induction Hts as [|et t types ts [H1 H2] _ [IH1 IH2]].
      + split; [done|]. intros x. split; [by intros ?%elem_of_nil|]. by intros (? & ? & ? & ?%elem_of_nil & _).
      + simpl. rewrite omap_app, H1, IH1. split; [done|]. intros x.
        rewrite metrics_of_app, elem_of_app, H2, IH2. split.
        * intros [(st & n & ? & ?)|(et' & st & n & ? & ? & ?)].
          -- exists et, st, n. split; [left|done].
          -- exists et', st, n. split; [by right|done].
        * intros (et' & st & n & [-> |?]%elem_of_cons & ? & ?); [left|right]; eauto 8. }
  intros t [] [_ H2] [] _. simpl in *. intros x. rewrite metrics_of_app, elem_of_app, H2. split.
  - intros [(et & st & n & _ & ? & ?)|Hx]; [eauto|by apply elem_of_nil in Hx].
  - intros (et & st & n & -> & Hn). left. exists et, st, n. split; [|done].
    rewrite Ht, list_elem_of_fmap. unfold depth_in in Hn.
    destruct (ByEventType s !! et) as [bs|] eqn:E; [|done]. exists (et, bs). split; [done|].
    by apply elem_of_map_to_list.
Qed.

(** The depth gauge keeps what a sample does not report.  On every path of a
    tick of the sampler, the depth is set for exactly the pairs of event type
    and status the statistics contain; the gauge of every other pair keeps its
    last value.  A pair whose last message has gone is not in the statistics,
    so its gauge never goes back to zero. *)
Theorem depth_gauge_keeps_stale :
  every world_ok sampleStats (λ t _, ∀ m et st,
    depth (Otel.record (metrics_of t) m).2 et st =
    match sampled t with
    | Some s => match depth_in s et st with Some n => Some n | None => depth m et st end
    | None => depth m et st
    end).
Proof.
  eapply every_mono; [|apply sampleStats_reports]. intros t [] Hs m et st.
  destruct (sampled t) as [s|]; [|by rewrite Hs].
  set (D := λ t s', default 0 (depth_in s t s')).
  destruct (record_depths D (metrics_of t) m et st) as [H1 H2].
  { intros x (et' & st' & n & -> & Hn)%Hs. exists et', st'. unfold D. by rewrite Hn. }
  destruct (depth_in s et st) as [n|] eqn:E.
  - rewrite H1; unfold D; rewrite E; [done|]. apply Hs. by exists et, st, n.
  - apply H2. intros (et' & st' & n & [= -> -> _] & Hn)%Hs. congruence.
Qed.
