(* ===== verification/EndToEnd.v ===== *)
(** * The engine on the PostgreSQL adapter

    The adapter keeps the promises the engine relies on, and an attempt run
    by the engine against the adapter leaves the message's row in the state
    the handler's result calls for. *)

From S2P Require Import Prelude GoErrors GoFloat Retry Message World Postgres Lifecycle PostgresLogic PostgresFacts Demo Fleet FleetSafety PostgresClaim PostgresEnqueue PostgresAck Effects Registry Engine EngineFacts.

(** ** The interface is fulfilled *)

(** What a Claim implementation owes the engine. *)
Class FulfilsClaim (claim : ClaimParams → prog (list InboundMessage * option error)) : Prop :=
  claim_fulfils : ∀ p w, claim_promise p (run (claim p) w).1.

#[export] Instance postgres_fulfils env `{!EnvOK env} s : FulfilsClaim (Claim env s).
Proof.
  intros p w. destruct (run (Claim env s p) w) as [[out err] w'] eqn:E. intros He. simpl in *. subst err.
  destruct (Claim_cases env s p w out None w' E ltac:(by left)) as [[_ H]|H];
    unfold claimed_in in H; destruct (claim_pass _ _ _) as [n sh].
  all: split_and!; [apply H| |].
  1,3: etrans; [apply H|]; unfold claim_batch; destruct (Z.leb_spec (cp_Batch p) 0); lia.
  all: intros Hty; apply Forall_forall; intros m Hm;
    destruct (cs_leased _ _ _ _ _ _ _ _ _ _ H m Hm)
      as (r & _ & (_ & _ & Hel & _) & r' & _ & [Hrow _] & _ & Hty' & _);
    rewrite Hty'; injection Hrow as -> _; unfold claim_types in Hel;
    destruct (cp_EventTypes p); [done|]; by apply Hel.
Qed.

(** The adapter keeps the engine's contract.  Whatever the state of the
    database, the faults and the locks, a Claim of the PostgreSQL adapter that
    reports no error returns distinct messages, at most the requested batch (at
    least 1), all of the requested types: the promise under which the engine's
    theorems are proved. *)
Theorem postgres_claim_keeps_promise env `{!EnvOK env} s p w :
  claim_promise p (run (Claim env s p) w).1.
Proof. apply claim_fulfils. Qed.

Lemma postgres_claim_keeps_promise_witness :
  claim_promise demo_claim (run (Claim demo_env demo_store demo_claim) demo_queue).1 ∧
  length (run (Claim demo_env demo_store demo_claim) demo_queue).1.1 = 3%nat.
Proof.
  split; [|vm_compute; reflexivity]. apply (postgres_claim_keeps_promise demo_env demo_store).
Defined.

(** ** Running the engine on the adapter *)

Section PgHandler.
Context (env : Env) (s : Store).
(** Answers of everything that is not storage or the clock: handlers, the
    process context, policies. *)
Context (oracle : ∀ B, eff B → B).

Definition pg_call {B} (c : call B) : State World B :=
  match c in call B' return B' → State World B' with
  | StEnqueue tx p => λ _, run (Enqueue env s tx p)
  | StEnqueueBatch tx ps => λ _, run (EnqueueBatch env s tx ps)
  | StClaim p => λ _, run (Claim env s p)
  | StSucceed id n w => λ _, run (Succeed env s id n w)
  | StBatchSucceed ps => λ _, run (BatchSucceed env s ps)
  | StFail p => λ _, run (Fail_ env s p)
  | StReleaseShutdown id n w reason => λ _, run (ReleaseShutdown env s id n w reason)
  | StExtend id w until => λ _, run (Extend env id w until)
  | StReclaimExpired limit => λ _, run (ReclaimExpired env limit)
  | StPurgeTerminal before limit => λ _, run (PurgeTerminal env before limit)
  | StPurgeHistory before limit => λ _, run (PurgeHistory env before limit)
  | StStats => λ _, run (GetStats env)
  | StNotify tx et => λ _, run (Notify env tx et)
  | StTryLeaderLock _ | StUnlock _ => λ b w, (b, w)
  end (oracle _ (Call c)).

(** The state: the database world and the acknowledgements waiting in
    succeedCh for the ack flusher. *)
Definition pg_state : Type := World * list BatchSucceedParam.

Definition on_world {B} (f : State World B) : State pg_state B :=
  λ '(w, buf), let '(b, w') := f w in (b, (w', buf)).

Definition pg_handler (B : Type) (ef : eff B) : State pg_state B :=
  match ef in eff B' return B' → State pg_state B' with
  | Call c => λ _, on_world (pg_call c)
  | Now => λ _, on_world (run (time_Now env))
  | SendAck p => λ _ '(w, buf), ((), (w, buf ++ [p]))
  | _ => λ b st, (b, st)
  end (oracle B ef).

(** Storage calls other than the three acknowledgements. *)
Definition other_call (ev : event) : bool :=
  match ev with
  | Ev ef _ =>
    match ef with
    | Call c => match c with StSucceed _ _ _ | StFail _ | StReleaseShutdown _ _ _ _ => false | _ => true end
    | _ => false
    end
  end.

(** The acknowledgement as a storage operation. *)
Definition ack_op (w : string) (a : MessageID * Z * ack) : op :=
  let '(id, n, k) := a in
  match k with
  | AckSuccess => OpSucceed id n w
  | AckRelease reason => OpReleaseShutdown id n w reason
  | AckFail p => OpFail p
  end.

(** How an acknowledgement ends its attempt. *)
Definition ack_ending (k : ack) : ending :=
  match k with
  | AckSuccess => EndSuccess
  | AckRelease reason => EndRelease reason
  | AckFail p => if fp_Dead p then EndDead (fp_Err p) else EndRetry (fp_Err p) (fp_NextRetryAt p)
  end.

Definition ack_row (k : ack) (now : Time) : row → row := ending_row (ack_ending k) now.

Context (Hnf : ∀ n, e_fault env n = NoFault).

Lemma run_exec_err_nofault pfx {A} (st : stmt A) w a db' :
  st (sql_env env (w_tick w) (w_tick w)) (w_db w) = inr (a, db') →
  d_msgs (w_db (run (exec_err env pfx st) w).2) = d_msgs db'.
Proof. intros E. unfold exec_err. rewrite run_bind, run_exec_pool_nofault by done. by rewrite E. Qed.

(** With the database answering, an acknowledgement takes effect. *)
Lemma ack_effective w mid id n wid k :
  e_uuid_Parse env id = Some mid →
  match k with AckFail p => fp_MessageID p = id ∧ fp_Attempt p = n | _ => True end →
  acked_as mid n (ack_row k (e_dbnow env (w_tick w))) (d_msgs (w_db w))
    (d_msgs (w_db (run (ack_result env s (ack_op wid (id, n, k))) w).2)).
Proof.
  intros Hid Hk. destruct k as [|reason|p]; unfold ack_row; cbn [ack_op ack_result ack_ending ending_row].
  - unfold Succeed. rewrite Hid.
    destruct (history_on s); (erewrite run_exec_err_nofault; [|reflexivity]); apply ack_acked.
  - unfold ReleaseShutdown. rewrite Hid.
    destruct (history_on s); (erewrite run_exec_err_nofault; [|reflexivity]); apply ack_acked.
  - destruct Hk as [<- <-]. unfold Fail_. rewrite Hid.
    destruct (history_on s), (fp_Dead p); cbn [negb];
      (erewrite run_exec_err_nofault; [|reflexivity]); apply ack_acked.
Qed.

(** An acknowledgement of [mid] is done when the row has changed as it says, or
    when it is a success that waits for the flusher. *)
Definition settling (mid : UUID) (id : MessageID) (n : Z) (k : ack) (st st' : pg_state) : Prop :=
  (∃ now, st'.2 = st.2 ∧ acked_as mid n (ack_row k now) (d_msgs (w_db st.1)) (d_msgs (w_db st'.1))) ∨
  (∃ wid, k = AckSuccess ∧ st'.2 = st.2 ++ [mkBatchSucceedParam id n wid] ∧
     d_msgs (w_db st'.1) = d_msgs (w_db st.1)).

(** Same rows, same waiting acknowledgements. *)
Definition quiet (st st' : pg_state) : Prop :=
  d_msgs (w_db st'.1) = d_msgs (w_db st.1) ∧ st'.2 = st.2.

(** One event: messages change only at an acknowledgement, and as it says. *)
Lemma pg_event {B} (ef : eff B) st mid :
  other_call (Ev ef (pg_handler B ef st).1) = false →
  match ack_of (Ev ef (pg_handler B ef st).1) with
  | None => quiet st (pg_handler B ef st).2
  | Some (id, n, k) => e_uuid_Parse env id = Some mid → settling mid id n k st (pg_handler B ef st).2
  end.
Proof.
  assert (∀ id n wid k, e_uuid_Parse env id = Some mid →
    match k with AckFail p => fp_MessageID p = id ∧ fp_Attempt p = n | _ => True end →
    settling mid id n k st (on_world (run (ack_result env s (ack_op wid (id, n, k)))) st).2) as Hack.
  { intros id n wid k Hid Hk. destruct st as [w buf]. left. exists (e_dbnow env (w_tick w)).
    pose proof (ack_effective w mid id n wid k Hid Hk) as H. unfold on_world.
    by destruct (run _ w). }
  destruct ef; try by destruct st.
  - destruct c; try done; intros _ Hid.
    + by apply (Hack id attempt workerID AckSuccess).
    + by apply (Hack (fp_MessageID p) (fp_Attempt p) ""%string (AckFail p)).
    + by apply (Hack id attempt workerID (AckRelease reason)).
  - intros _ _. right. destruct st, p. by eexists.
Qed.

(** A program with no other storage call and at most one acknowledgement. *)
Lemma pg_one_ack {A} (p : eprog A) st mid id n k :
  e_uuid_Parse env id = Some mid →
  let r := erun pg_handler p st in
  Forall (λ ev, other_call ev = false) r.1.1 →
  (acks_of r.1.1 = [] → quiet st r.2) ∧
  (acks_of r.1.1 = [(id, n, k)] → settling mid id n k st r.2).
Proof.
  intros Hid. revert st. induction p as [a|B ef kont IH]; intros st; simpl; [done|].
  pose proof (pg_event ef st mid) as Hev.
  destruct (pg_handler B ef st) as [b st1]. cbn [fst snd] in Hev.
  specialize (IH b st1). destruct (erun pg_handler (kont b) st1) as [[l a] st2]. cbn [fst snd] in *.
  intros [Ho Hl]%Forall_cons. specialize (Hev Ho). destruct (IH Hl) as [IH0 IH1].
  change (acks_of (Ev ef b :: l)) with
    (match ack_of (Ev ef b) with Some x => x :: acks_of l | None => acks_of l end).
  unfold settling, quiet in *.
  destruct (ack_of (Ev ef b)) as [[[id' n'] k']|].
  - split; [done|]. intros [= -> -> -> Hrest]. destruct (IH0 Hrest) as [-> ->]. by apply Hev.
  - destruct Hev as [<- <-]. auto.
Qed.

(** A flush of one waiting acknowledgement settles it. *)
Lemma flush_one w mid id n wid buf :
  e_uuid_Parse env id = Some mid → ∃ now,
  acked_as mid n (ack_row AckSuccess now) (d_msgs (w_db w))
    (d_msgs (w_db (erun pg_handler (flush [mkBatchSucceedParam id n wid]) (w, buf)).2.1)).
Proof.
  intros Hid. exists (e_dbnow env (w_tick w)). unfold flush, pg_handler. simpl.
  unfold on_world, pg_call, BatchSucceed. simpl. rewrite Hid. simpl.
  unfold batch_action. simpl. rewrite Hnf. unfold run_stmt. simpl. rewrite Hnf.
  destruct (history_on s); simpl; rewrite !Hnf; simpl; apply ack_acked.
Qed.
End PgHandler.

(** ** One attempt, end to end *)

Section OnlyAcks.
Context (ok : ∀ B, eff B → B → Prop) (e : engineConfig).

Lemma attempt_only_acks m reg : every_event ok (λ ev, other_call ev = false) (runHandler e m reg).
Proof.
  unfold runHandler, with_attempt, attempt, invoke, resolveOutcome, commitOutcome, retry_delay, alert_if, msg_alert, return_tokens.
  every_event.
Qed.
End OnlyAcks.

(** The attempt, then a flush of what it left for the ack flusher. *)
Definition attempt_then_flush env s oracle (e : engineConfig) m reg w : list event * World :=
  let r := erun (pg_handler env s oracle) (runHandler e m reg) (w, []) in
  (r.1.1, (erun (pg_handler env s oracle) (flush r.2.2) (r.2.1, [])).2.1).

Lemma attempt_settled env s oracle e m reg mid w :
  (∀ n, e_fault env n = NoFault) → e_uuid_Parse env (im_ID m) = Some mid →
  let '(t, w') := attempt_then_flush env s oracle e m reg w in
  ∃ res k now, invoked t reg m res ∧
    verdict t (workerID e) m (cfg reg) (safeInvoke res) k ∧
    acked_as mid (im_Attempt m) (ack_row k now) (d_msgs (w_db w)) (d_msgs (w_db w')).
Proof.
  intros Hnf Hid. unfold attempt_then_flush.
  pose proof (every_erun (λ _ _ _, True) (pg_handler env s oracle) _ _ (w, []) (λ _ _ _, I)
    (runHandler_ok (λ _ _ _, True) e m reg)) as (res & k & Hi & Hk & Hv & _).
  pose proof (every_erun (λ _ _ _, True) (pg_handler env s oracle) _ _ (w, []) (λ _ _ _, I)
    (attempt_only_acks (λ _ _ _, True) e m reg)) as Ho.
  destruct (pg_one_ack env s oracle Hnf (runHandler e m reg) (w, []) mid (im_ID m) (im_Attempt m) k Hid Ho)
    as [_ H].
  destruct (erun (pg_handler env s oracle) (runHandler e m reg) (w, [])) as [[t []] [w1 buf]].
  cbn [fst snd] in *.
  destruct (H Hk) as [(now & Hbuf & Hnow)|(wid & -> & Hbuf & Hmsgs)]; cbn [fst snd app] in *; subst buf.
  - by exists res, k, now.
  - destruct (flush_one env s oracle Hnf w1 mid (im_ID m) (im_Attempt m) wid [] Hid) as [now Hnow].
    rewrite Hmsgs in Hnow. by exists res, AckSuccess, now.
Qed.


(** The message [demo_claimed] leased, and a handler that fails or succeeds. *)
Definition demo_attempt : InboundMessage :=
  mkInbound (demo_id 0) "order.paid" "{}" None "" 1 1 0 0 "" (Some StatusHandling).

Definition demo_oracle (r : handler_result) (B : Type) (ef : eff B) : B :=
  match ef in eff B' return B' with
  | Invoke _ _ | InvokeBatch _ _ => r
  | ef' => (failing_world _ ef' ()).1
  end.

Definition demo_status (r : handler_result) : option Status :=
  r_status <$> d_msgs (w_db (attempt_then_flush demo_env demo_store (demo_oracle r) demo_engine
    demo_attempt demo_registration demo_claimed).2) !! demo_id 0.

