(* ===== verification/Delivery.v ===== *)
(** * Delivery: what becomes of a queue, worker and database together

    A worker that polls, runs the attempts and acknowledges them, against the
    PostgreSQL adapter: the queue settles within the attempts the messages have
    left.  And what crashes do: an attempt that kills its worker is reclaimed
    without regard to the budget. *)

From S2P Require Import Prelude GoErrors GoFloat Retry Message World Postgres Lifecycle PostgresLogic PostgresFacts Demo Fleet FleetSafety PostgresClaim PostgresEnqueue PostgresAck Effects Registry Engine EngineFacts EndToEnd.

(** ** Events that answer as the outside does *)

Definition answers (ok : ∀ B, eff B → B → Prop) (ev : event) : Prop :=
  match ev with Ev e b => ok _ e b end.

Lemma every_answers (ok : ∀ B, eff B → B → Prop) {A} (p : eprog A) :
  every ok p (λ t _, Forall (answers ok) t).
Proof.
  induction p as [a|B e k IH]; simpl; [constructor|]. intros b Hb.
  eapply every_mono; [|apply IH]. intros l a Hl. by constructor.
Qed.

(** ** A potential over the table *)

(** The attempts a message has left. *)
Definition attempts_left (r : row) : Z :=
  if Terminal (r_status r) then 0 else r_max_attempts r - r_attempt r.

Definition budget (m : gmap UUID row) : Z := zsum (λ ir, attempts_left ir.2) (map_to_list m).

(** Waiting with attempts left, or done; with an id the driver reads back. *)
Definition waiting_or_done (r : row) : Prop :=
  0 < r_max_attempts r ≤ int4_max ∧
  (Terminal (r_status r) = true ∨
   pending (r_status r) = true ∧ 0 ≤ r_attempt r < r_max_attempts r).

Definition queue_ok (env : Env) (m : gmap UUID row) : Prop :=
  ∀ i r, m !! i = Some r → e_uuid_Parse env i = Some i ∧ waiting_or_done r.

(** Taking one element out of a list without duplicates. *)
Lemma length_without `{EqDecision A} (x : A) l :
  NoDup l → Z.of_nat (length l) = Z.of_nat (length (filter (λ y, y ≠ x) l)) + (if decide (x ∈ l) then 1 else 0).
Proof.
  induction 1 as [|y l Hy Hl IH]; [by rewrite decide_False by apply not_elem_of_nil|].
  rewrite filter_cons. destruct (decide (y ≠ x)) as [Hne|Heq]; cbn [length].
  - destruct (decide (x ∈ l)) as [Hx|Hx], (decide (x ∈ y :: l)) as [Hx'|Hx']; try lia.
    + exfalso. apply Hx'. by right.
    + exfalso. apply elem_of_cons in Hx' as [->|Hx']; done.
  - apply dec_stable in Heq as ->. rewrite decide_False in IH by done. rewrite decide_True by left. lia.
Qed.

#[export] Instance waiting_or_done_dec r : Decision (waiting_or_done r).
Proof. unfold waiting_or_done. apply _. Defined.

Lemma queue_ok_check env m :
  bool_decide (Forall (λ ir, e_uuid_Parse env ir.1 = Some ir.1 ∧ waiting_or_done ir.2) (map_to_list m)) = true →
  queue_ok env m.
Proof.
  intros H%bool_decide_eq_true_1 i r Hi. rewrite Forall_forall in H.
  by apply (H (i, r)), elem_of_map_to_list.
Qed.

(** No id that the driver cannot read back, no attempt counter at its end. *)
Definition claim_safe (env : Env) (m : gmap UUID row) : Prop :=
  ∀ i r, m !! i = Some r → e_uuid_Parse env i = Some i ∧
    (pending (r_status r) = true → r_attempt r ≠ int4_max).

Lemma queue_claim_safe env m : queue_ok env m → claim_safe env m.
Proof.
  intros Hq i r Hi. destruct (Hq i r Hi) as (Hid & Hm & Hw). split; [done|]. intros Hp.
  destruct Hw as [Ht|[_ Ha]]; [by destruct (r_status r)|lia].
Qed.

(** A table that changed row by row, each of [ids] losing one. *)
Lemma zsum_map_decreases `{Countable K} {A} (f : A → Z) (m m' : gmap K A) (ids : list K) :
  NoDup ids → (∀ i, i ∈ ids → is_Some (m !! i)) → dom m' = dom m →
  (∀ i x y, m !! i = Some x → m' !! i = Some y → f y + (if decide (i ∈ ids) then 1 else 0) ≤ f x) →
  zsum (λ kx, f kx.2) (map_to_list m') + Z.of_nat (length ids) ≤ zsum (λ kx, f kx.2) (map_to_list m).
Proof.
  revert m' ids. induction m as [|i x m Hi IH] using map_ind; intros m' ids Hnd Hin Hdom Hle.
  - rewrite dom_empty_L in Hdom. apply dom_empty_inv_L in Hdom as ->. destruct ids as [|i ids]; [done|].
    destruct (Hin i ltac:(left)) as [? E]. by rewrite lookup_empty in E.
  - assert (is_Some (m' !! i)) as [y Hy].
    { apply elem_of_dom. rewrite Hdom. apply elem_of_dom. rewrite lookup_insert_eq. by eexists. }
    rewrite (zsum_map_delete _ i m'), (zsum_map_delete _ i (<[i:=x]> m)), Hy, lookup_insert_eq, delete_insert_id by done.
    cbn [from_option snd].
    pose proof (Hle i x y (lookup_insert_eq _ _ _) Hy) as Hiy. rewrite (length_without i ids) by done.
    specialize (IH (delete i m') (filter (λ j, j ≠ i) ids)).
    rewrite dom_delete_L, Hdom, dom_insert_L in IH. ospecialize (IH _ _ _ _); [by apply NoDup_filter| | | |lia].
    + intros j [Hj Hji]%list_elem_of_filter. specialize (Hin j Hji). by rewrite lookup_insert_ne in Hin.
    + apply not_elem_of_dom in Hi. set_solver.
    + intros j a b Ha Hb. apply lookup_delete_Some in Hb as [Hji Hb].
      specialize (Hle j a b). rewrite lookup_insert_ne in Hle by done. specialize (Hle Ha Hb).
      destruct (decide (j ∈ filter _ _)) as [Hf|]; [|destruct (decide (j ∈ ids)); lia].
      apply list_elem_of_filter in Hf as [_ Hf]. by rewrite decide_True in Hle.
Qed.

(** ** Without faults *)

Section Delivery.
Context (env : Env) `{!EnvOK env} (s : Store).
Hypothesis Hnf : ∀ n, e_fault env n = NoFault.

Lemma batch_execs_ok b queued n db :
  Forall (λ st : stmt unit, ∀ se db, ∃ db', st se db = inr ((), db')) queued →
  ∃ db' n', batch_execs env b queued (length queued) n db = ((None, db'), n').
Proof using Hnf.
  intros H. revert n db. induction H as [|st queued Hst _ IH]; intros n db; simpl; [by do 2 eexists|].
  unfold run_stmt. rewrite Hnf. destruct (Hst (sql_env env b n) db) as [db' ->]. apply IH.
Qed.

Lemma history_batch_ok msgs to e wk w :
  (∀ m, m ∈ msgs → is_Some (e_uuid_Parse env (im_ID m))) →
  (run (appendHistoryBatch env msgs to e wk) w).1 = None.
Proof using Hnf.
  intros Hid. destruct msgs as [|m0 msgs]; [done|]. unfold appendHistoryBatch.
  set (queued := omap _ _). assert (length queued = length (m0 :: msgs)) as Hlen.
  { subst queued. induction (m0 :: msgs) as [|m ms IH]; [done|]. simpl.
    destruct (Hid m ltac:(left)) as [mid ->]. simpl. f_equal. apply IH. intros m' Hm'. apply Hid. by right. }
  rewrite run_bind. cbn [run pool_batch atomically]. unfold batch_action. rewrite Hnf, <- Hlen.
  edestruct (batch_execs_ok (w_tick w) queued) as (db' & n' & ->).
  - apply Forall_forall. intros st (m & _ & Hm)%list_elem_of_omap.
    destruct (e_uuid_Parse env (im_ID m)); [|done]. injection Hm as <-. intros se db. by eexists.
  - by rewrite !Hnf.
Qed.

(** A claim over a queue in order reports no error. *)
Lemma claimQuery_ok types batch wk lease sh w :
  claim_safe env (d_msgs (w_db w)) →
  ∃ out w', run (claimQuery env types batch wk lease sh) w = ((out, None), w').
Proof using Hnf.
  intros Hq. unfold claimQuery. rewrite run_bind, run_exec_pool_nofault by done.
  unfold SQL.claimSQL. rewrite bool_decide_eq_false_2; [by do 2 eexists|].
  intros ([i r] & Hin & Hmax)%Exists_exists. apply claim_select_eligible in Hin as [Hi He]. simpl in Hi, He, Hmax.
  destruct (Hq i r Hi) as [_ Hm]. apply Hm; [|done]. unfold SQL.claim_eligible in He. by bools.
Qed.

(** What follows a claim query: the history of what it returned. *)
Lemma claim_history_ok p out w :
  (∀ m, m ∈ out → is_Some (e_uuid_Parse env (im_ID m))) →
  ∃ w', run ((if negb (bool_decide (out = [])) && history_on s
        then herr ← appendHistoryBatch env out StatusHandling "" (cp_WorkerID p);
             mret (out, fmap (M:=option) (Errorf_w "tickr/postgres: claim history") herr)
        else mret (out, None)) : prog (list InboundMessage * option error)) w = ((out, None), w').
Proof using Hnf.
  intros Hid. destruct (_ && _); [|by eexists]. rewrite run_bind.
  pose proof (history_batch_ok out StatusHandling "" (cp_WorkerID p) w Hid) as H.
  destruct (run (appendHistoryBatch _ _ _ _ _) w) as [herr w1]. simpl in H. subst herr. by eexists.
Qed.

Lemma claimed_ids now types sh locked batch wk lease m m' out :
  claim_safe env m → claim_spec now types sh locked batch wk lease m m' out →
  ∀ msg, msg ∈ out → e_uuid_Parse env (im_ID msg) = Some (im_ID msg).
Proof using. intros Hq Hc msg Hm. destruct (cs_leased _ _ _ _ _ _ _ _ _ _ Hc msg Hm) as (r & Hr & _). by apply (Hq _ r). Qed.

Lemma Claim_ok p w : claim_safe env (d_msgs (w_db w)) → ∃ out w', run (Claim env s p) w = ((out, None), w').
Proof using All.
  intros Hq. unfold Claim. fold (claim_types p) (claim_batch p). rewrite run_bind.
  cbn [run pickShard rand_IntN atomically]. rewrite run_bind.
  edestruct (claimQuery_ok (claim_types p) (claim_batch p)) as (out1 & w1 & E1); [|erewrite E1]; [done|].
  apply (claimQuery_in env p) in E1 as [H1 _]. rewrite run_bind.
  destruct out1 as [|m0 out1].
  - apply claim_spec_nil in H1. simpl in H1.
    edestruct (claimQuery_ok (claim_types p) (claim_batch p)) as (out2 & w2 & E2); [|erewrite E2]; [by rewrite H1|].
    apply (claimQuery_in env p) in E2 as [H2 _]. rewrite H1 in H2.
    destruct (claim_history_ok p out2 w2) as [w3 E3]; [|by rewrite E3; do 2 eexists].
    intros m Hm. rewrite (claimed_ids _ _ _ _ _ _ _ _ _ _ Hq H2 m Hm). by eexists.
  - change (run (mret ?x) w1) with (x, w1). cbv beta iota.
    destruct (claim_history_ok p (m0 :: out1) w1) as [w3 E3]; [|by rewrite E3; do 2 eexists].
    intros m Hm. rewrite (claimed_ids _ _ _ _ _ _ _ _ _ _ Hq H1 m Hm). by eexists.
Qed.
(** ** One worker, round after round *)

(** The outside: handlers and policies, the engine's configuration, the claim it
    asks for, and the handlers by event type. *)
Context (oracle : ∀ B, eff B → B) (e : engineConfig) (p : ClaimParams) (reg_of : string → registration).

(** The worker is not shutting down. *)
Hypothesis Hrun : oracle bool Stopping = false.

Definition run_attempt (m : InboundMessage) (w : World) : World :=
  (attempt_then_flush env s oracle e m (reg_of (im_Type m)) w).2.

(** Attempts one after another; they are of different messages, so their order
    does not matter to the rows. *)
Definition deliver (ms : list InboundMessage) (w : World) : World := foldl (λ w m, run_attempt m w) w ms.

(** A poll with the attempts of what it claimed; on an error pollOnce drops the
    messages. *)
Definition work_round (w : World) : list InboundMessage * World :=
  let '((ms, err), w1) := run (Claim env s p) w in
  match err with Some _ => ([], w1) | None => (ms, deliver ms w1) end.

Definition rounds (k : nat) (w : World) : World := Nat.iter k (λ w, (work_round w).2) w.

Definition no_shutdown (B : Type) (ef : eff B) : B → Prop :=
  match ef in eff B' return B' → Prop with Stopping => λ b, b = false | _ => λ _, True end.

Lemma attempt_no_shutdown m reg w :
  Ev Stopping true ∉ (attempt_then_flush env s oracle e m reg w).1.
Proof using Hrun.
  intros Hin. unfold attempt_then_flush in Hin. simpl in Hin.
  assert (∀ B (ef : eff B) st, no_shutdown B ef (pg_handler env s oracle B ef st).1) as Hok.
  { by intros B [] st. }
  pose proof (every_erun no_shutdown _ _ _ (w, []) Hok (every_answers no_shutdown (runHandler e m reg))) as H.
  rewrite Forall_forall in H. by specialize (H _ Hin).
Qed.

(** The row of a message that is being attempted. *)
Definition leased_for (tbl : gmap UUID row) (m : InboundMessage) : Prop :=
  e_uuid_Parse env (im_ID m) = Some (im_ID m) ∧
  ∃ r, tbl !! im_ID m = Some r ∧ r_status r = StatusHandling ∧ r_attempt r = im_Attempt m ∧
    r_max_attempts r = im_MaxAttempts m ∧ 0 < r_max_attempts r ≤ int4_max ∧
    1 ≤ r_attempt r ≤ r_max_attempts r.

(** A row after its attempt: waiting with attempts left, or done. *)
Definition settles (r r' : row) : Prop := waiting_or_done r' ∧ attempts_left r' ≤ attempts_left r.

Lemma attempt_step m w :
  leased_for (d_msgs (w_db w)) m →
  (∃ r r', d_msgs (w_db w) !! im_ID m = Some r ∧ d_msgs (w_db (run_attempt m w)) !! im_ID m = Some r' ∧
     settles r r') ∧
  ∀ i, i ≠ im_ID m → d_msgs (w_db (run_attempt m w)) !! i = d_msgs (w_db w) !! i.
Proof using Hnf Hrun.
  intros (Hid & r & Hr & Hst & Hatt & Hmax & Hmr & Har). unfold run_attempt.
  pose proof (attempt_settled env s oracle e m (reg_of (im_Type m)) (im_ID m) w Hnf Hid) as H.
  pose proof (attempt_no_shutdown m (reg_of (im_Type m)) w) as Hns.
  destruct (attempt_then_flush _ _ _ _ _ _ _) as [t w']. destruct H as (res & k & now & _ & Hv & Hack).
  simpl in *. split.
  - exists r. rewrite Hack, Hr. simpl. unfold SQL.held. rewrite Hst, Hatt, Z.eqb_refl, !bool_decide_eq_true_2 by done.
    eexists. split; [done|]. split; [done|]. unfold settles, attempts_left. rewrite Hst. simpl.
    destruct Hv as [err _|er _ _ _ Hstop|er _ _ _|er d nw Hskip _ Hd _ _]; unfold ack_row; simpl; [|done| |].
    + split; [split; [done|by left]|]. simpl. lia.
    + split; [split; [done|by left]|]. simpl. lia.
    + assert (¬ r_max_attempts r ≤ r_attempt r) as Hlt.
      { intros Hle. apply Hd. right; right. rewrite <- Hmax, <- Hatt.
        destruct (Z.leb_spec (r_max_attempts r) 0); lia. }
      split; [split; [done|right]|]; simpl; [split; [done|]|]; lia.
  - intros i Hi. rewrite Hack. destruct (d_msgs (w_db w) !! i); [|done]. simpl.
    unfold SQL.held. by rewrite bool_decide_eq_false_2.
Qed.

Lemma leased_for_frame m tbl tbl' :
  tbl' !! im_ID m = tbl !! im_ID m → leased_for tbl m → leased_for tbl' m.
Proof using. intros E (Hid & r & Hr & H). split; [done|]. exists r. by rewrite E. Qed.

Lemma deliver_ok ms w :
  NoDup (im_ID <$> ms) → Forall (leased_for (d_msgs (w_db w))) ms →
  dom (d_msgs (w_db (deliver ms w))) = dom (d_msgs (w_db w)) ∧
  ∀ i r, d_msgs (w_db w) !! i = Some r →
    (i ∉ im_ID <$> ms ∧ d_msgs (w_db (deliver ms w)) !! i = Some r) ∨
    (i ∈ im_ID <$> ms ∧ ∃ r', d_msgs (w_db (deliver ms w)) !! i = Some r' ∧ settles r r').
Proof using Hnf Hrun.
  revert w. induction ms as [|m ms IH]; intros w.
  { intros _ _. split; [done|]. intros i r Hi. left. split; [apply not_elem_of_nil|done]. }
  intros [Hni Hnd]%NoDup_cons [Hm Hms]%Forall_cons.
  destruct (attempt_step m w Hm) as [(r0 & r0' & Hr0 & Hr0' & Hs0) Hframe].
  destruct (IH (run_attempt m w) Hnd) as [Hdom Hrows].
  { eapply Forall_impl; [apply Forall_forall; intros x Hx; exact (conj Hx (proj1 (Forall_forall _ _) Hms x Hx))|].
    intros x [Hx Hl]. eapply leased_for_frame; [|exact Hl]. apply Hframe.
    intros E. apply Hni. rewrite <- E. by apply list_elem_of_fmap_2. }
  change (deliver (m :: ms) w) with (deliver ms (run_attempt m w)). split.
  - rewrite Hdom. apply set_eq. intros i. rewrite !elem_of_dom.
    destruct (decide (i = im_ID m)) as [->|Hne]; [by rewrite Hr0, Hr0'|by rewrite Hframe].
  - intros i r Hi. destruct (decide (i = im_ID m)) as [->|Hne].
    + right. rewrite Hr0 in Hi. injection Hi as ->. split; [left|].
      destruct (Hrows _ _ Hr0') as [[_ ->]|[Hin _]]; [by exists r0'|done].
    + rewrite <- Hframe in Hi by done. destruct (Hrows i r Hi) as [[Hin ->]|[Hin Hr']]; [left|right]; split; try done.
      * by intros [?|?]%elem_of_cons.
      * by right.
Qed.

(** What a claim leaves behind: its messages leased, one attempt fewer left. *)
Lemma claimed_leased now types sh locked batch wk lease m m' out msg :
  queue_ok env m → claim_spec now types sh locked batch wk lease m m' out → msg ∈ out →
  leased_for m' msg ∧ ∃ r r', m !! im_ID msg = Some r ∧ m' !! im_ID msg = Some r' ∧
    attempts_left r' + 1 ≤ attempts_left r.
Proof using.
  intros Hq Hc Hm. destruct (cs_leased _ _ _ _ _ _ _ _ _ _ Hc msg Hm) as (r & Hr & (Hp & _) & r' & Hr' & Hl & Hmsg).
  destruct (Hq _ r Hr) as (Hid & Hmr & Hw).
  assert (Terminal (r_status r) = false) as Ht by (by destruct Hp as [-> | ->]).
  destruct Hw as [?|[_ Ha]]; [congruence|].
  destruct Hl as ([= _ _ _ _ Hmax _ _] & Hst & Hn & _).
  destruct Hmsg as (_ & _ & _ & _ & _ & Hmn & Hmm & _). split.
  - split; [done|]. exists r'. rewrite Hst, Hmax, Hmn, Hmm, Hn, Hmax. split_and!; (done || lia).
  - exists r, r'. split; [done|]. split; [done|]. unfold attempts_left. rewrite Ht, Hst, Hmax. simpl. lia.
Qed.

Lemma work_round_ok w :
  queue_ok env (d_msgs (w_db w)) →
  let '(out, w') := work_round w in
  queue_ok env (d_msgs (w_db w')) ∧ dom (d_msgs (w_db w')) = dom (d_msgs (w_db w)) ∧
  budget (d_msgs (w_db w')) + Z.of_nat (length out) ≤ budget (d_msgs (w_db w)).
Proof using All.
  intros Hq. unfold work_round. destruct (Claim_ok p w (queue_claim_safe _ _ Hq)) as (out & w1 & E). rewrite E.
  assert (∃ now sh locked, claim_spec now (claim_types p) sh locked (claim_batch p) (cp_WorkerID p)
    (lease_seconds (cp_Lease p)) (d_msgs (w_db w)) (d_msgs (w_db w1)) out) as (now & sh & locked & Hc).
  { destruct (Claim_cases env s p w out None w1 E) as [[_ Hc]|Hc]; [by left|..];
      unfold claimed_in in Hc; destruct (claim_pass _ _ _); eauto. }
  pose proof (λ msg, claimed_leased _ _ _ _ _ _ _ _ _ _ msg Hq Hc) as Hl.
  assert (dom (d_msgs (w_db w1)) = dom (d_msgs (w_db w))) as Hdom1.
  { apply set_eq. intros i. rewrite !elem_of_dom. destruct (decide (i ∈ (im_ID <$> out))) as [Hin|Hni].
    - apply list_elem_of_fmap in Hin as (msg & -> & Hm).
      destruct (proj2 (Hl msg Hm)) as (r & r' & -> & -> & _). done.
    - by rewrite (cs_frame _ _ _ _ _ _ _ _ _ _ Hc i Hni). }
  destruct (deliver_ok out w1) as [Hdom2 Hrows]; [apply (cs_nodup _ _ _ _ _ _ _ _ _ _ Hc)| |].
  { apply Forall_forall. intros msg Hm. by apply Hl. }
  assert (∀ i r r', d_msgs (w_db w) !! i = Some r → d_msgs (w_db (deliver out w1)) !! i = Some r' →
    waiting_or_done r' ∧ attempts_left r' + (if decide (i ∈ (im_ID <$> out)) then 1 else 0) ≤ attempts_left r) as Hstep.
  { intros i r r' Hi Hi'. destruct (decide (i ∈ (im_ID <$> out))) as [Hin|Hni].
    - apply list_elem_of_fmap in Hin as Hin'. destruct Hin' as (msg & -> & Hm).
      destruct (proj2 (Hl msg Hm)) as (r0 & r1 & Hr0 & Hr1 & Hle). simplify_eq.
      destruct (Hrows _ _ Hr1) as [[? _]|(_ & r2 & Hr2 & Hw & Hle2)]; [done|]. simplify_eq. split; [done|lia].
    - pose proof (cs_frame _ _ _ _ _ _ _ _ _ _ Hc i Hni) as Hf. rewrite Hi in Hf.
      destruct (Hrows _ _ Hf) as [[_ Hr2]|[? _]]; [|done]. simplify_eq. split; [by apply (Hq i)|lia]. }
  split_and!.
  - intros i r' Hi'. assert (is_Some (d_msgs (w_db w) !! i)) as [r Hi].
    { apply elem_of_dom. rewrite <- Hdom1, <- Hdom2. by apply elem_of_dom_2 in Hi'. }
    split; [by apply (Hq i r)|by eapply Hstep].
  - by rewrite Hdom2, Hdom1.
  - unfold budget. rewrite <- (length_fmap im_ID out). apply zsum_map_decreases.
    + apply (cs_nodup _ _ _ _ _ _ _ _ _ _ Hc).
    + intros i (msg & -> & Hm)%list_elem_of_fmap. destruct (proj2 (Hl msg Hm)) as (r & _ & -> & _). by eexists.
    + by rewrite Hdom2, Hdom1.
    + intros i r r' Hi Hi'. by eapply Hstep.
Qed.

(** After enough rounds one has found nothing to claim. *)
Lemma rounds_run_dry n w :
  queue_ok env (d_msgs (w_db w)) → budget (d_msgs (w_db w)) < Z.of_nat n →
  ∃ k, (k < n)%nat ∧ (work_round (rounds k w)).1 = [] ∧ queue_ok env (d_msgs (w_db (rounds k w))) ∧
    dom (d_msgs (w_db (rounds k w))) = dom (d_msgs (w_db w)).
Proof using All.
  revert w. induction n as [|n IH]; intros w Hq Hn.
  - assert (0 ≤ budget (d_msgs (w_db w))); [|lia]. apply zsum_nonneg_in. intros [i r] Hin.
    apply elem_of_map_to_list, Hq in Hin as (_ & _ & Hw). unfold attempts_left. simpl.
    destruct (Terminal (r_status r)); [done|]. destruct Hw as [?|[_ ?]]; [done|lia].
  - pose proof (work_round_ok w Hq) as Hr. destruct (work_round w) as [out w'] eqn:E.
    destruct out as [|m out].
    + exists 0%nat. split; [lia|]. simpl. rewrite E. by split_and!.
    + destruct Hr as (Hq' & Hdom & Hb). simpl in Hb.
      destruct (IH w') as (k & Hk & Hout & Hqk & Hdomk); [done|lia|].
      assert (rounds (S k) w = rounds k w') as Hs.
      { unfold rounds. rewrite Nat.iter_succ_r. by rewrite E. }
      exists (S k). rewrite Hs. split_and!; [lia|done|done|]. by rewrite Hdomk.
Qed.

Lemma work_round_idle w :
  queue_ok env (d_msgs (w_db w)) → (work_round w).1 = [] → ∃ w', run (Claim env s p) w = (([], None), w').
Proof using Hnf EnvOK0.
  intros Hq. unfold work_round. destruct (Claim_ok p w (queue_claim_safe _ _ Hq)) as (out & w' & ->). simpl. intros ->. by eexists.
Qed.
End Delivery.

(** C3: Every queue settles.  A worker that polls the PostgreSQL adapter and
    runs what it claims, while no statement fails and it is not told to stop,
    finds nothing left to claim within as many polls as the waiting messages
    have attempts left, and one, whatever the handlers return, panic with or
    ask to wait for.  At that point no message is lost, and each is SUCCESS or
    DEAD, or waits with attempts left because it is not due yet, locked by
    another transaction, or of a type the worker does not handle. *)
Theorem worker_settles_queue env `{!EnvOK env} s (oracle : ∀ B, eff B → B) e p reg_of w n :
  (∀ n, e_fault env n = NoFault) → oracle bool Stopping = false →
  queue_ok env (d_msgs (w_db w)) → budget (d_msgs (w_db w)) < Z.of_nat n →
  ∃ k, (k < n)%nat ∧
    let wk := rounds env s oracle e p reg_of k w in
    (work_round env s oracle e p reg_of wk).1 = [] ∧
    dom (d_msgs (w_db wk)) = dom (d_msgs (w_db w)) ∧
    ∀ i r, d_msgs (w_db wk) !! i = Some r →
      Terminal (r_status r) = true ∨
      (pending (r_status r) = true ∧ r_attempt r < r_max_attempts r ∧
       (e_dbnow env (w_tick wk + 2) < r_process_at r ∨ i ∈ e_locked env (w_tick wk + 2) ∨
        (cp_EventTypes p ≠ [] ∧ r_event_type r ∉ cp_EventTypes p))).
Proof.
  intros Hnf Hrun Hq Hn.
  destruct (rounds_run_dry env s Hnf oracle e p reg_of Hrun n w Hq Hn) as (k & Hk & Hout & Hqk & Hdom).
  exists k. split; [done|]. split; [done|]. split; [done|]. intros i r Hi.
  destruct (Hqk i r Hi) as (_ & _ & [Ht|[Hp Ha]]); [by left|right]. split; [done|]. split; [lia|].
  destruct (work_round_idle env s Hnf oracle e p reg_of _ Hqk Hout) as [w' E].
  pose proof (Claim_empty_means_idle env s p _ w' i r E Hi) as He.
  unfold SQL.claim_eligible in He. rewrite Hp in He. simpl in He.
  destruct (Z.leb_spec (r_process_at r) (e_dbnow env (w_tick (rounds env s oracle e p reg_of k w) + 2)));
    [|by left]. simpl in He. right.
  destruct (decide (i ∈ e_locked env (w_tick (rounds env s oracle e p reg_of k w) + 2))) as [Hl|Hl]; [by left|right].
  rewrite (bool_decide_eq_true_2 (i ∉ _)) in He by done. rewrite andb_true_r in He. unfold claim_types in He.
  destruct (cp_EventTypes p) as [|ty tys]; [done|]. split; [done|]. by apply bool_decide_eq_false in He.
Qed.

(** Three messages, a handler that always fails: two are dead after three polls,
    the third is waiting for its next attempt. *)
Definition demo_work (k : nat) : World :=
  rounds demo_env demo_store (demo_oracle (Returned (Some (errorString "boom")))) demo_engine demo_claim
    (λ _, demo_registration) k demo_queue.

Lemma worker_settles_queue_witness :
  (∃ k, (k < 17)%nat ∧ ∀ i r, d_msgs (w_db (demo_work k)) !! i = Some r →
     Terminal (r_status r) = true ∨ r_attempt r < r_max_attempts r) ∧
  (λ ir, (r_status ir.2, r_attempt ir.2)) <$> map_to_list (d_msgs (w_db (demo_work 4))) =
    [(StatusDead, 3); (StatusRetrying, 4); (StatusDead, 3)].
Proof.
  split; [|vm_compute; reflexivity].
  destruct (worker_settles_queue demo_env demo_store (demo_oracle (Returned (Some (errorString "boom"))))
    demo_engine demo_claim (λ _, demo_registration) demo_queue 17) as (k & Hk & _ & _ & H).
  - reflexivity.
  - reflexivity.
  - apply queue_ok_check. vm_compute. reflexivity.
  - vm_compute. reflexivity.
  - exists k. split; [exact Hk|]. intros i r Hi. destruct (H i r Hi) as [Ht|(_ & Ha & _)]; [by left|by right].
Defined.

(** ** Crashes *)

Section Crash.
Context (env : Env) `{!EnvOK env} (s : Store).
Hypothesis Hnf : ∀ n, e_fault env n = NoFault.
Hypothesis Hlocks : ∀ n, e_locked env n = ∅.
Hypothesis Hmono : ∀ n n', (n <= n')%nat → e_dbnow env n ≤ e_dbnow env n'.
Hypothesis Hunbounded : ∀ t n, ∃ n', (n <= n')%nat ∧ t < e_dbnow env n'.

(** Claims and reclaims only: the worker never gets to acknowledge. *)
Definition crash_op (o : op) : Prop :=
  match o with OpClaim _ | OpReclaimExpired _ => True | _ => False end.

Abbreviation crash_steps := (fleet_steps env s crash_op).

(** A table with one message. *)
Definition only (w : World) (i : UUID) (r : row) : Prop := d_msgs (w_db w) = {[i := r]}.

Lemma idle_until w ts n' :
  (w_tick w <= n')%nat → crash_steps (mkFleet w ts) (mkFleet (mkWorld (w_db w) (w_tx w) n') ts).
Proof using.
  intros Hn. replace n' with (n' - w_tick w + w_tick w)%nat by lia. clear Hn.
  induction (n' - w_tick w)%nat as [|k IH]; simpl; [by destruct w; reflexivity|].
  eapply fleet_steps_r; [exact IH|]. apply (fl_idle env s crash_op (mkWorld (w_db w) (w_tx w) (k + w_tick w)) ts).
Qed.

(** A reclaim after the lease has expired. *)
Lemma reclaim_expired w i r u :
  only w i r → r_status r = StatusHandling → r_claimed_until r = Some u → u < e_dbnow env (w_tick w) →
  only (run (ReclaimExpired env 0) w).2 i (SQL.reclaim_row (e_dbnow env (w_tick w)) r) ∧
  w_tick (run (ReclaimExpired env 0) w).2 = S (w_tick w).
Proof using All.
  intros Hw Hs Hu Hlt. unfold ReclaimExpired, exec_count. rewrite run_bind, run_exec_pool_nofault by done.
  unfold SQL.reclaimSQL. cbn -[update_where SQL.reclaim_select]. split; [|done]. unfold only in *. rewrite Hw.
  assert (SQL.reclaim_select (sql_env env (w_tick w) (w_tick w)) 500 {[i := r]} = [i]) as ->.
  { unfold SQL.reclaim_select. simpl. rewrite Hlocks.
    assert (select_where (SQL.lease_expired (e_dbnow env (w_tick w)) ∅) {[i := r]} = [(i, r)]) as ->.
    { unfold select_where. rewrite map_to_list_singleton. rewrite filter_cons, decide_True; [done|].
      unfold SQL.lease_expired. simpl. rewrite Hs, Hu. simpl. rewrite (bool_decide_eq_true_2 (i ∉ ∅)) by set_solver.
      by rewrite andb_true_r, (proj2 (Z.ltb_lt _ _)). }
    simpl. pose proof (scan_perm (EnvOK:=EnvOK0) (w_tick w) [i]) as Hp.
    by apply Permutation_singleton_r in Hp as ->. }
  apply map_eq. intros j. cbn [set_db set_msgs w_db d_msgs]. rewrite lookup_update_where.
  destruct (decide (j = i)) as [->|Hne]; [rewrite !lookup_singleton_eq|by rewrite !lookup_singleton_ne].
  simpl. by rewrite bool_decide_eq_true_2 by left.
Qed.

(** A claim of whatever is due. *)
Definition any_claim (worker : string) (lease : Duration) : ClaimParams := mkClaimParams worker 1 lease [].

Lemma claim_only w i r worker lease :
  only w i r → e_uuid_Parse env i = Some i → pending (r_status r) = true → r_attempt r ≠ int4_max →
  r_process_at r ≤ e_dbnow env (w_tick w) →
  ∃ now r', only (run (Claim env s (any_claim worker lease)) w).2 i r' ∧
    leased_as now worker (lease_seconds lease) r r'.
Proof using All.
  intros Hw Hid Hp Hmax Hdue.
  destruct (Claim_ok env s Hnf (any_claim worker lease) w) as (out & w' & E).
  { intros j r' Hj. rewrite Hw in Hj. apply lookup_singleton_Some in Hj as [<- <-]. done. }
  rewrite E. cbn [snd].
  assert (∃ now sh locked, claim_spec now None sh locked 1 worker (lease_seconds lease)
    (d_msgs (w_db w)) (d_msgs (w_db w')) out ∧ out ≠ []) as (now & sh & locked & Hc & Hne).
  { destruct (Claim_cases env s (any_claim worker lease) w out None w' E) as [[Hne Hc]|Hc]; [by left| |].
    - unfold claimed_in in Hc. destruct (claim_pass _ _ _). do 3 eexists. by split.
    - do 3 eexists. split; [exact Hc|]. intros ->.
      pose proof (Claim_empty_means_idle env s _ w w' i r E) as Hi.
      rewrite Hw, lookup_singleton_eq in Hi. specialize (Hi eq_refl). unfold SQL.claim_eligible in Hi.
      rewrite Hp, Hlocks in Hi. simpl in Hi. rewrite (bool_decide_eq_true_2 (i ∉ ∅)) in Hi by set_solver.
      rewrite !andb_true_r in Hi. apply Z.leb_gt in Hi.
      pose proof (Hmono (w_tick w) (w_tick w + 2) ltac:(lia)). lia. }
  destruct out as [|msg out]; [done|].
  destruct (cs_leased _ _ _ _ _ _ _ _ _ _ Hc msg ltac:(left)) as (r' & Hr & _ & r1 & Hr' & Hl & _).
  exists now, r1. rewrite Hw in Hr. apply lookup_singleton_Some in Hr as [Ei Er].
  rewrite <- Ei in Hr'. rewrite <- Er in Hl. split; [|exact Hl].
  apply map_eq. intros j. destruct (decide (j = i)) as [->|Hne']; [by rewrite Hr', lookup_singleton_eq|].
  destruct (decide (j ∈ (im_ID <$> msg :: out))) as [Hin|Hni].
  - apply list_elem_of_fmap in Hin as (msg' & -> & Hm).
    destruct (cs_leased _ _ _ _ _ _ _ _ _ _ Hc msg' Hm) as (r'' & Hr'' & _).
    rewrite Hw in Hr''. by apply lookup_singleton_Some in Hr'' as [Ei' _].
  - rewrite (cs_frame _ _ _ _ _ _ _ _ _ _ Hc j Hni), Hw. by rewrite !lookup_singleton_ne.
Qed.

(** The lease runs out, the message is reclaimed and claimed again. *)
Lemma crash_cycle w ts i r u :
  only w i r → e_uuid_Parse env i = Some i → r_status r = StatusHandling → r_claimed_until r = Some u →
  r_attempt r ≠ int4_max →
  ∃ w' r' u', crash_steps (mkFleet w ts) (mkFleet w' ts) ∧ only w' i r' ∧ r_status r' = StatusHandling ∧
    r_claimed_until r' = Some u' ∧ r_attempt r' = r_attempt r + 1 ∧ r_max_attempts r' = r_max_attempts r.
Proof using All.
  intros Hw Hid Hs Hu Hmax. destruct (Hunbounded u (w_tick w)) as (n' & Hn & Hlt).
  pose proof (idle_until w ts n' Hn) as Hidle. set (w1 := mkWorld (w_db w) (w_tx w) n') in *.
  destruct (reclaim_expired w1 i r u) as [Hw2 Ht2]; [done..|]. set (w2 := (run (ReclaimExpired env 0) w1).2) in *.
  set (r2 := SQL.reclaim_row (e_dbnow env (w_tick w1)) r) in *.
  destruct (claim_only w2 i r2 "w" 0) as (now & r3 & Hw3 & Hl); [done..| |].
  { rewrite Ht2. apply (Hmono (w_tick w1)). apply Nat.le_succ_diag_r. }
  destruct Hl as ([= _ _ _ _ Hm _ _] & Hst & Hn3 & _ & Hu3 & _).
  do 3 eexists. split; [|split; [exact Hw3|by split_and!]].
  pose proof (fleet_op env s crash_op (OpReclaimExpired 0) w1 ts I) as H2.
  pose proof (fleet_op env s crash_op (OpClaim (any_claim "w" 0)) w2 ts I) as H3.
  cbn [op_prog] in H2, H3. rewrite run_discard in H2. rewrite run_discard in H3. etrans; [exact Hidle|]. by etrans.
Qed.
End Crash.

(** C4: A message that crashes its workers is never dead-lettered.  Take a table
    with one message, leased by a worker that died; a server clock that goes on,
    no faults, no locks.  By claims and reclaims alone, without an
    acknowledgement or a requeue, its attempt counter rises by any number up to
    the column's limit, far beyond its budget, and each time it is HANDLING
    again: the reclaimer does not look at max_attempts and neither does the
    claim, so only the engine, which such a message kills, would stop it. *)
Theorem crashing_message_never_dies env `{!EnvOK env} s f i r u k :
  (∀ n, e_fault env n = NoFault) → (∀ n, e_locked env n = ∅) →
  (∀ n n', (n <= n')%nat → e_dbnow env n ≤ e_dbnow env n') →
  (∀ t n, ∃ n', (n <= n')%nat ∧ t < e_dbnow env n') →
  f_rows f = {[i := r]} → e_uuid_Parse env i = Some i →
  r_status r = StatusHandling → r_claimed_until r = Some u → r_attempt r + Z.of_nat k ≤ int4_max →
  ∃ f' r', fleet_steps env s crash_op f f' ∧ f_rows f' = {[i := r']} ∧
    r_status r' = StatusHandling ∧ r_attempt r' = r_attempt r + Z.of_nat k ∧
    r_max_attempts r' = r_max_attempts r.
Proof.
  intros Hnf Hlocks Hmono Hunb Hf Hid Hs Hu. destruct f as [w ts].
  revert w r u Hf Hs Hu. induction k as [|k IH]; intros w r u Hf Hs Hu Hk.
  - exists (mkFleet w ts), r. split; [reflexivity|]. split_and!; (done || lia).
  - destruct (crash_cycle env s Hnf Hlocks Hmono Hunb w ts i r u)
      as (w' & r' & u' & Hsteps & Hw' & Hs' & Hu' & Ha & Hm); [done..|lia|].
    destruct (IH w' r' u') as (f2 & r2 & Hsteps2 & Hf2 & Hs2 & Ha2 & Hm2); [done..|lia|].
    exists f2, r2. split; [by etrans|]. split_and!; [done|done|lia|congruence].
Qed.

(** The demo message, of three attempts, a hundred crashes later. *)
Lemma crashing_message_never_dies_witness :
  ∃ f' r', fleet_steps demo_env demo_store crash_op (mkFleet demo_claimed []) f' ∧
    f_rows f' = {[demo_id 0 := r']} ∧ r_status r' = StatusHandling ∧ r_attempt r' = 101 ∧ r_max_attempts r' = 3.
Proof.
  destruct (d_msgs (w_db demo_claimed) !! demo_id 0) as [r|] eqn:Er; [|by vm_compute in Er].
  destruct (r_claimed_until r) as [u|] eqn:Eu; [|vm_compute in Er; injection Er as <-; by vm_compute in Eu].
  destruct (crashing_message_never_dies demo_env demo_store (mkFleet demo_claimed []) (demo_id 0) r u 100)
    as (f' & r' & Hs & Hf & Hst & Ha & Hm).
  - reflexivity.
  - reflexivity.
  - intros n n' Hn. simpl. unfold demo_clock, Second. lia.
  - intros t n. exists (n + Z.to_nat (Z.abs t))%nat. simpl. unfold demo_clock, Second. lia.
  - vm_compute in Er. injection Er as <-. vm_compute. reflexivity.
  - reflexivity.
  - vm_compute in Er. by injection Er as <-.
  - exact Eu.
  - vm_compute in Er. injection Er as <-. vm_compute. discriminate.
  - exists f', r'. vm_compute in Er. injection Er as <-. split_and!; done.
Defined.
