(* ===== verification/Janitor.v ===== *)
(** * The janitor on the PostgreSQL adapter

    A tick of the janitor ends, and exactly which rows it leaves. *)

From S2P Require Import Prelude GoErrors GoFloat Message World Postgres Lifecycle PostgresLogic PostgresFacts Demo Fleet FleetSafety PostgresClaim PostgresEnqueue PostgresAck PostgresAdmin Effects Registry Engine EngineFacts Worker EndToEnd.

Section Janitor.
Context (env : Env) `{!EnvOK env} (s : Store) (oracle : ∀ B, eff B → B).
Context (Hnf : ∀ n, e_fault env n = NoFault).
(** The context is never cancelled. *)
Context (Hwait : ∀ d, oracle bool (WaitOrDone d) = true).

Abbreviation prun p st := (erun (pg_handler env s oracle) p st).

Lemma prun_now {A} (k : Time → eprog A) w buf :
  prun (perform Now ≫= k) (w, buf) =
  let '((l, a), st) := prun (k (e_now env (w_tick w))) (w, buf) in
  ((Ev Now (e_now env (w_tick w)) :: l, a), st).
Proof. done. Qed.

(** One purge call, the database answering. *)
Lemma purge_call before limit w :
  0 < limit →
  ∃ n w', run (PurgeTerminal env before limit) w = ((n, None), w') ∧
    d_hist (w_db w') = d_hist (w_db w) ∧ w_tick w' = S (w_tick w) ∧
    delete_where (SQL.purgeable before) (d_msgs (w_db w')) =
      delete_where (SQL.purgeable before) (d_msgs (w_db w)) ∧
    (n < limit → d_msgs (w_db w') = delete_where (SQL.purgeable before) (d_msgs (w_db w))) ∧
    (limit ≤ n → (size (d_msgs (w_db w')) < size (d_msgs (w_db w)))%nat).
Proof.
  intros Hlim.
  assert (∃ n w', run (PurgeTerminal env before limit) w = ((n, None), w') ∧ w_tick w' = S (w_tick w))
    as (n & w' & Hrun & Htick).
  { unfold PurgeTerminal, exec_count. rewrite run_bind, run_exec_pool_nofault by done.
    unfold SQL.purgeSQL. simpl. eauto. }
  exists n, w'. split; [done|].
  destruct (run_PurgeTerminal env before limit w n w' Hrun) as ((ids & Hnd & -> & Hle & Hin & Hout & Hmax) & Hh).
  assert (purge_limit limit = limit) as Hpl by (unfold purge_limit; destruct (Z.leb_spec limit 0); lia).
  rewrite Hpl in *. split_and!; [done|done|..].
  - apply map_eq. intros i. rewrite !lookup_delete_where. destruct (decide (i ∈ ids)) as [Hi|Hi].
    + destruct (Hin i Hi) as (r & -> & Ht & (t & Hc & Hlt) & ->). simpl.
      unfold SQL.purgeable. rewrite Ht, Hc. simpl. by rewrite (proj2 (Z.ltb_lt _ _)).
    + by rewrite Hout.
  - intros Hlt. apply map_eq. intros i. rewrite lookup_delete_where. destruct (decide (i ∈ ids)) as [Hi|Hi].
    + destruct (Hin i Hi) as (r & -> & Ht & (t & Hc & Hlt') & ->). simpl.
      unfold SQL.purgeable. rewrite Ht, Hc. simpl. by rewrite (proj2 (Z.ltb_lt _ _)).
    + rewrite Hout by done. destruct (d_msgs (w_db w) !! i) as [r|] eqn:Hr; simpl; [|done].
      destruct (SQL.purgeable before i r) eqn:Hp; [|done]. destruct (Hmax i r Hi Hr Hp). lia.
  - intros Hge. apply map_subset_size. split.
    + apply map_subseteq_spec. intros i r Hr. destruct (decide (i ∈ ids)) as [Hi|Hi].
      * destruct (Hin i Hi) as (? & _ & _ & _ & ?). congruence.
      * by rewrite <- Hout.
    + destruct ids as [|i ids]; [simpl in Hge; lia|]. destruct (Hin i ltac:(left)) as (r & Hr & _ & _ & Hn).
      intros Hsub. rewrite map_subseteq_spec in Hsub. apply Hsub in Hr. congruence.
Qed.

(** The purge loop ends by itself and leaves nothing purgeable. *)
Lemma purge_loop_terminal fuel before batch w buf :
  0 < batch → (size (d_msgs (w_db w)) < fuel)%nat →
  ∃ t w', prun (purge_loop fuel (StPurgeTerminal before batch) batch) (w, buf) = ((t, LoopBreak), (w', buf)) ∧
    d_msgs (w_db w') = delete_where (SQL.purgeable before) (d_msgs (w_db w)) ∧
    d_hist (w_db w') = d_hist (w_db w) ∧ (w_tick w ≤ w_tick w')%nat.
Proof.
  intros Hb. revert w. induction fuel as [|fuel IH]; intros w Hf; [lia|]. cbn [purge_loop].
  destruct (purge_call before batch w Hb) as (n & w1 & Hrun & Hh & Ht1 & Hdel & Hdone & Hless).
  rewrite erun_perform. unfold pg_handler at 1, on_world, pg_call. rewrite Hrun.
  destruct (Z.ltb_spec n batch) as [Hn|Hn].
  - cbn. do 2 eexists. split_and!; [reflexivity|by apply Hdone|done|lia].
  - rewrite erun_perform. unfold pg_handler at 1. rewrite Hwait.
    destruct (IH w1) as (t & w2 & -> & Hm & Hh2 & Ht2); [specialize (Hless Hn); lia|].
    do 2 eexists. split_and!; [reflexivity|by rewrite Hm|by rewrite Hh2|lia].
Qed.

(** One history purge, the database answering. *)
Lemma history_call before limit w :
  0 < limit →
  ∃ n w', run (PurgeHistory env before limit) w = ((n, None), w') ∧
    d_msgs (w_db w') = d_msgs (w_db w) ∧
    (limit ≤ n → (length (d_hist (w_db w')) < length (d_hist (w_db w)))%nat).
Proof.
  intros Hlim. unfold PurgeHistory, exec_count.
  rewrite run_bind, run_exec_pool_nofault by done. unfold SQL.purgeHistorySQL. cbn.
  set (keys := SQL.hist_key <$> _). do 2 eexists. split_and!; [reflexivity|done|]. cbn.
  intros Hge. set (l := d_hist (w_db w)) in *.
  assert (length (filter (λ h, bool_decide (SQL.hist_key h ∈ keys) = true) l) +
    length (filter (λ h, bool_decide (SQL.hist_key h ∈ keys) = false) l) = length l)%nat as Hlen.
  { clearbody keys l. clear. induction l as [|h l IH]; [done|]. rewrite !filter_cons.
    destruct (bool_decide (SQL.hist_key h ∈ keys)); simpl; lia. }
  lia.
Qed.

Lemma purge_loop_history fuel before batch w buf :
  0 < batch → (length (d_hist (w_db w)) < fuel)%nat →
  ∃ t w', prun (purge_loop fuel (StPurgeHistory before batch) batch) (w, buf) = ((t, LoopBreak), (w', buf)) ∧
    d_msgs (w_db w') = d_msgs (w_db w).
Proof.
  intros Hb. revert w. induction fuel as [|fuel IH]; intros w Hf; [lia|]. cbn [purge_loop].
  destruct (history_call before batch w Hb) as (n & w1 & Hrun & Hm & Hless).
  rewrite erun_perform. unfold pg_handler at 1, on_world, pg_call. rewrite Hrun.
  destruct (Z.ltb_spec n batch) as [Hn|Hn].
  - cbn. do 2 eexists. by split_and!.
  - rewrite erun_perform. unfold pg_handler at 1. rewrite Hwait.
    destruct (IH w1) as (t & w2 & -> & Hm2); [specialize (Hless Hn); lia|].
    do 2 eexists. split_and!; [reflexivity|by rewrite Hm2].
Qed.

Lemma purge_batch_pos c : 0 < purge_batch c.
Proof. unfold purge_batch. destruct (Z.leb_spec (PurgeBatch (wc_Retention c)) 0); lia. Qed.

(** The rows the janitor of [c] removes when its cutoffs are taken at [now1]
    and [now2]. *)
Definition outdated (c : WorkerConfig) (now1 now2 : Time) (i : UUID) (r : row) : bool :=
  SQL.purgeable (now1 - success_age c) i r ||
  ((0 <=? ret_Dead (wc_Retention c)) && SQL.purgeable (now2 - dead_age c) i r).

Lemma delete_where_twice p q (m : gmap UUID row) :
  delete_where q (delete_where p m) = delete_where (λ i r, p i r || q i r) m.
Proof.
  apply map_eq. intros i. rewrite !lookup_delete_where. destruct (m !! i) as [r|]; simpl; [|done].
  by destruct (p i r).
Qed.

Lemma purgeDead_ok c fuel w buf :
  (size (d_msgs (w_db w)) < fuel)%nat →
  ∃ t w', prun (purgeDead c fuel) (w, buf) = ((t, LoopBreak), (w', buf)) ∧
    d_msgs (w_db w') = delete_where (λ i r, (0 <=? ret_Dead (wc_Retention c)) &&
      SQL.purgeable (e_now env (w_tick w) - dead_age c) i r) (d_msgs (w_db w)) ∧
    d_hist (w_db w') = d_hist (w_db w).
Proof.
  intros Hf. unfold purgeDead. destruct (0 <=? ret_Dead (wc_Retention c)).
  - rewrite prun_now.
    destruct (purge_loop_terminal fuel (e_now env (w_tick w) - dead_age c) (purge_batch c) w buf)
      as (t & w' & -> & Hm & Hh & _); [apply purge_batch_pos|done|]. eauto.
  - do 2 eexists. split_and!; [reflexivity| |done]. apply map_eq. intros i.
    rewrite lookup_delete_where. by destruct (d_msgs (w_db w) !! i).
Qed.

Lemma purgeHistory_ok c fuel w buf :
  (length (d_hist (w_db w)) < fuel)%nat →
  ∃ t w', prun (purgeHistory c fuel) (w, buf) = ((t, LoopBreak), (w', buf)) ∧
    d_msgs (w_db w') = d_msgs (w_db w).
Proof.
  intros Hf. unfold purgeHistory. destruct (_ <? _); [do 2 eexists; by split|].
  destruct (wc_HistoryPurger c); cbn [negb]; [|do 2 eexists; by split].
  rewrite prun_now.
  destruct (purge_loop_history fuel (e_now env (w_tick w) - history_age c) (purge_batch c) w buf)
    as (t & w' & -> & Hm); [apply purge_batch_pos|done|]. eauto.
Qed.

Lemma size_delete_where p (m : gmap UUID row) : (size (delete_where p m) ≤ size m)%nat.
Proof.
  apply map_subseteq_size, map_subseteq_spec. intros i r. rewrite lookup_delete_where.
  destruct (m !! i) as [x|]; simpl; [|done]. by destruct (p i x).
Qed.

Lemma tryPurge_ok c fuel w :
  oracle _ (Call (StTryLeaderLock "tickr.janitor")) = (true, None) →
  (size (d_msgs (w_db w)) < fuel)%nat → (length (d_hist (w_db w)) < fuel)%nat →
  ∃ t w' k, prun (tryPurge c fuel) (w, []) = ((t, LoopBreak), (w', [])) ∧ (w_tick w ≤ k)%nat ∧
    d_msgs (w_db w') = delete_where (outdated c (e_now env (w_tick w)) (e_now env k)) (d_msgs (w_db w)).
Proof.
  intros Hlock Hf Hh. unfold tryPurge, with_leader. rewrite erun_perform.
  unfold pg_handler at 1, on_world, pg_call. rewrite Hlock. cbv beta iota zeta.
  rewrite erun_bind, prun_now, erun_bind.
  destruct (purge_loop_terminal fuel (e_now env (w_tick w) - success_age c) (purge_batch c) w [])
    as (t1 & w1 & -> & Hm1 & Hh1 & Ht1); [apply purge_batch_pos|done|]. cbn [and_then].
  rewrite erun_bind. destruct (purgeDead_ok c fuel w1 []) as (t2 & w2 & -> & Hm2 & Hh2).
  { rewrite Hm1. pose proof (size_delete_where (SQL.purgeable (e_now env (w_tick w) - success_age c))
      (d_msgs (w_db w))). lia. }
  cbn [and_then]. destruct (purgeHistory_ok c fuel w2 []) as (t3 & w3 & -> & Hm3).
  { rewrite Hh2, Hh1. done. }
  cbn. do 3 eexists. split_and!; [reflexivity|exact Ht1|]. rewrite Hm3, Hm2, Hm1. apply delete_where_twice.
Qed.
End Janitor.

(** C25: A tick of the janitor ends and leaves exactly the rows that are not
    outdated.  With the database answering, the leader lock granted and the
    context alive, the purge loops end by themselves (fuel beyond the number
    of rows is never needed), and what is gone is: every SUCCESS or DEAD row
    completed before the first cutoff, and, unless Retention.Dead is negative,
    every SUCCESS or DEAD row completed before the second.  Both cutoffs apply
    to both statuses: the one for SUCCESS also decides how long DEAD rows
    live. *)
Theorem janitor_leaves env `{!EnvOK env} s (oracle : ∀ B, eff B → B) c fuel w :
  (∀ n, e_fault env n = NoFault) → (∀ d, oracle bool (WaitOrDone d) = true) →
  oracle _ (Call (StTryLeaderLock "tickr.janitor")) = (true, None) →
  (size (d_msgs (w_db w)) < fuel)%nat → (length (d_hist (w_db w)) < fuel)%nat →
  let r := erun (pg_handler env s oracle) (tryPurge c fuel) (w, []) in
  r.1.2 = LoopBreak ∧ ∃ k, (w_tick w ≤ k)%nat ∧
    d_msgs (w_db r.2.1) =
      delete_where (outdated c (e_now env (w_tick w)) (e_now env k)) (d_msgs (w_db w)).
Proof.
  intros Hnf Hwait Hlock Hf Hh.
  destruct (tryPurge_ok env s oracle Hnf Hwait c fuel w Hlock Hf Hh) as (t & w' & k & E & Hk & Hm).
  cbv zeta. rewrite E. split; [done|]. by exists k.
Qed.

(** A dead message, a minute later, and a retention that keeps dead messages
    for ever. *)
Definition demo_old_dead : World := mkWorld (w_db demo_dead) None (w_tick demo_dead + 60).

Definition demo_worker : WorkerConfig :=
  {| wc_HasStorage := true; wc_Registry := None; wc_WorkerID := "w-1"; wc_PollInterval := 0;
     wc_PollMaxBackoff := 0; wc_BatchSize := 0; wc_PoolSize := 0; wc_Lease := 0;
     wc_ShutdownGrace := 0;
     wc_Retention := mkRetentionPolicy (30 * Second) (-1) 0 0 0; wc_StatsInterval := 0;
     wc_ReclaimInterval := 0; DisableReclaimer := false; DisableJanitor := false;
     DisableNotifier := false; wc_BatchAcker := true; wc_HistoryPurger := true;
     wc_Notifier := true |}.

Definition demo_janitor : list event * loop_exit * pg_state :=
  erun (pg_handler demo_env demo_store (demo_oracle (Returned None))) (tryPurge demo_worker 10)
    (demo_old_dead, []).

Lemma janitor_leaves_witness :
  (r_status <$> d_msgs (w_db demo_old_dead) !! demo_id 0) = Some StatusDead ∧
  d_msgs (w_db demo_janitor.2.1) !! demo_id 0 = None ∧
  demo_janitor.1.2 = LoopBreak ∧ ∃ k, (w_tick demo_old_dead ≤ k)%nat ∧
    d_msgs (w_db demo_janitor.2.1) = delete_where
      (outdated demo_worker (e_now demo_env (w_tick demo_old_dead)) (e_now demo_env k))
      (d_msgs (w_db demo_old_dead)).
Proof.
  split; [vm_compute; reflexivity|]. split; [vm_compute; reflexivity|].
  apply (janitor_leaves demo_env demo_store (demo_oracle (Returned None)) demo_worker 10 demo_old_dead).
  - reflexivity.
  - reflexivity.
  - reflexivity.
  - vm_compute. repeat constructor.
  - vm_compute. repeat constructor.
Defined.
