(* ===== verification/HttpHandler.v ===== *)
(** * The built-in HTTP handler (handlers/http/handler.go)

    How the request is built (headers in layers, the last one wins) and how
    the response decides between success, retry and dead letter.  The HTTP
    client, json.Marshal, http.NewRequest's validation and
    http.ParseTime are arguments; the clock reading of time.Until is [now]. *)

From Stdlib Require Import Ascii.
From S2P Require Import Prelude GoErrors GoStrings Message Effects Registry Engine EngineFacts.

(** ** strconv.Atoi *)

Definition digit (a : ascii) : option Z :=
  let n := Z.of_N (N_of_ascii a) in
  if (48 <=? n) && (n <=? 57) then Some (n - 48) else None.

Fixpoint digits (acc : Z) (s : string) : option Z :=
  match s with
  | EmptyString => Some acc
  | String a s => match digit a with Some d => digits (acc * 10 + d) s | None => None end
  end.

Definition unsigned (s : string) : option Z :=
  match s with EmptyString => None | _ => digits 0 s end.

(** An optional sign, at least one digit, and the result in range of int. *)
Definition Atoi (s : string) : option Z :=
  let v := match s with
           | String "-" s => Z.opp <$> unsigned s
           | String "+" s => unsigned s
           | s => unsigned s
           end in
  v ≫= λ n, if in_int64 n then Some n else None.

(** ** Header names *)

(** The bytes of a header-name token. *)
Definition token_char (a : ascii) : bool :=
  let n := N_of_ascii a in
  ((48 <=? n) && (n <=? 57) || (65 <=? n) && (n <=? 90) || (97 <=? n) && (n <=? 122))%N ||
  bool_decide (a ∈ String.list_ascii_of_string "!#$%&'*+-.^_`|~").

Definition upper (a : ascii) : ascii :=
  let n := N_of_ascii a in if ((97 <=? n) && (n <=? 122))%N then ascii_of_N (n - 32) else a.
Definition lower (a : ascii) : ascii :=
  let n := N_of_ascii a in if ((65 <=? n) && (n <=? 90))%N then ascii_of_N (n + 32) else a.

Fixpoint canonical (up : bool) (l : list ascii) : list ascii :=
  match l with
  | [] => []
  | a :: l => (if up then upper a else lower a) :: canonical (bool_decide (a = "-"%char)) l
  end.

(** textproto.CanonicalMIMEHeaderKey: the key [Header.Set] stores under. *)
Definition CanonicalHeaderKey (s : string) : string :=
  let l := String.list_ascii_of_string s in
  if forallb token_char l then String.string_of_list_ascii (canonical true l) else s.

(** ** The request *)

Definition DefaultIdempotencyHeader : string := "Idempotency-Key".

Record Response := mkResponse {
  StatusCode : Z;
  RetryAfterHeader : string;      (* resp.Header.Get("Retry-After") *)
  Body : bytes;
}.

Record Request := mkRequest {
  req_Method : string;
  req_URL : string;
  req_Header : gmap string string;
  req_Body : bytes;
}.

(** Maps that are ranged over are lists in the order of the iteration. *)
Record Config (T : Type) := mkConfig {
  Method : string;
  URL : string;
  URLFunc : option (InboundMessage → T → string);
  StaticHeaders : list (string * string);
  HeaderFunc : option (InboundMessage → T → list (string * string));
  IdempotencyHeader : string;
  Classifier : option (option Response → bytes → option error → handler_result);
}.
Arguments Method {T}.
Arguments URL {T}.
Arguments URLFunc {T}.
Arguments StaticHeaders {T}.
Arguments HeaderFunc {T}.
Arguments IdempotencyHeader {T}.
Arguments Classifier {T}.

(** for k, v := range l { h.Set(k, v) } *)
Definition set_all (canon : string → string) (l : list (string * string)) (h : gmap string string)
    : gmap string string :=
  foldl (λ h kv, <[canon kv.1 := kv.2]> h) h l.

(** The layers of user metadata, message headers and idempotency key. *)
Definition layered (canon : string → string) (static fromFunc headers : list (string * string))
    (idemName idemKey : string) (h : gmap string string) : gmap string string :=
  let h := set_all canon headers (set_all canon fromFunc (set_all canon static h)) in
  if negb (bool_decide (idemName = ""%string)) && negb (bool_decide (idemKey = ""%string))
  then <[canon idemName := idemKey]> h else h.

Definition applyHeaders {T} (cfg : Config T) (headers : list (string * string))
    (msg : InboundMessage) (body : T) : gmap string string :=
  layered CanonicalHeaderKey (StaticHeaders cfg)
    (match HeaderFunc cfg with Some f => f msg body | None => [] end) headers
    (IdempotencyHeader cfg) (im_IdempotencyKey msg)
    {[CanonicalHeaderKey "Content-Type" := "application/json"%string]}.

(** ** The response *)

Section Classify.
Context (ParseTime : string → option Time) (now : Time).

Definition parseRetryAfter (v : string) : Duration * bool :=
  let v := TrimSpace v in
  if bool_decide (v = ""%string) then (0, false)
  else
    match Atoi v with
    | Some secs => if 0 <=? secs then (wrap64 (secs * Second), true) else
        match ParseTime v with
        | Some t => (if 0 <? t - now then t - now else 0, true)
        | None => (0, false)
        end
    | None =>
      match ParseTime v with
      | Some t => (if 0 <? t - now then t - now else 0, true)
      | None => (0, false)
      end
    end.

Definition snip (b : bytes) : string :=
  if Z.of_nat (String.length b) <=? 200 then b else (String.substring 0 200 b ++ "…")%string.

Definition http_error (code : Z) (body : bytes) : error :=
  errorString ("httphandler: HTTP " ++ pretty code ++ ": " ++ snip body)%string.

Definition retry_error (resp : Response) (body : bytes) : error :=
  let e := http_error (StatusCode resp) body in
  let '(d, ok) := parseRetryAfter (RetryAfterHeader resp) in
  if ok then RetryAfter d (Some e) else e.

Definition DefaultClassifier (resp : option Response) (body : bytes) (transportErr : option error)
    : handler_result :=
  match transportErr with
  | Some e => Returned (Some (Errorf_w "httphandler: transport" e))
  | None =>
    match resp with
    | None => Panicked (inl nil_deref)
    | Some resp =>
      let code := StatusCode resp in
      Returned
        (if (200 <=? code) && (code <? 300) then None
         else if (code =? 408) || (code =? 425) || (code =? 429) then Some (retry_error resp body)
         else if (400 <=? code) && (code <? 500) then Some (DeadLetter (Some (http_error code body)))
         else if 500 <=? code then Some (retry_error resp body)
         else Some (errorString ("httphandler: unexpected HTTP " ++ pretty code)%string))
    end
  end.

(** The handler; the request sent, if any, beside its result. *)
Definition PostJSON {T} (cfg : Config T) (Marshal : T → error + bytes)
    (NewRequest : string → string → option error)
    (Do : Request → option Response * option error)
    (headers : list (string * string)) (msg : InboundMessage) (body : T)
    : handler_result * option Request :=
  let method := if bool_decide (Method cfg = ""%string) then "POST"%string else Method cfg in
  let idem := if bool_decide (IdempotencyHeader cfg = ""%string) then DefaultIdempotencyHeader
              else IdempotencyHeader cfg in
  let cfg := mkConfig T method (URL cfg) (URLFunc cfg) (StaticHeaders cfg) (HeaderFunc cfg) idem
               (Classifier cfg) in
  let url := match URLFunc cfg with Some f => f msg body | None => URL cfg end in
  if bool_decide (url = ""%string) then
    (Returned (Some (DeadLetter (Some (errorString
       "httphandler: no URL configured (set Config.URL or Config.URLFunc)")))), None)
  else
    match Encode Marshal body with
    | inl err => (Returned (Some (DeadLetter (Some (Errorf_w "httphandler: encode body" err)))), None)
    | inr payload =>
      match NewRequest method url with
      | Some err => (Returned (Some (DeadLetter (Some (Errorf_w "httphandler: build request" err)))), None)
      | None =>
        let req := mkRequest method url (applyHeaders cfg headers msg body) payload in
        let '(resp, transportErr) := Do req in
        let respBody := match resp with
                        | Some r => String.substring 0 (Z.to_nat 65536) (Body r)
                        | None => ""%string
                        end in
        (match Classifier cfg with
         | Some f => f resp respBody transportErr
         | None => DefaultClassifier resp respBody transportErr
         end, Some req)
      end
    end.
End Classify.

(** ** Properties *)

(** Setting entries keeps what is set under other names. *)
Lemma lookup_set_all_other canon l h k :
  (∀ kv, kv ∈ l → canon kv.1 ≠ k) → set_all canon l h !! k = h !! k.
Proof.
  unfold set_all. revert h. induction l as [|kv l IH]; intros h Hk; [done|]. simpl.
  rewrite IH by (intros; apply Hk; by right). apply lookup_insert_ne. apply Hk. left.
Qed.

Lemma lookup_set_all canon l h k v :
  NoDup (canon ∘ fst <$> l) → (k, v) ∈ l → set_all canon l h !! canon k = Some v.
Proof.
  unfold set_all. revert h. induction l as [|kv l IH]; intros h Hnd Hin; [by apply elem_of_nil in Hin|].
  apply NoDup_cons in Hnd as [Hn Hnd]. simpl. apply elem_of_cons in Hin as [<-|Hin].
  - change (set_all canon l (<[canon k := v]> h) !! canon k = Some v).
    rewrite lookup_set_all_other; [apply lookup_insert_eq|].
    intros kv Hkv Heq. apply Hn. simpl. rewrite <- Heq. apply list_elem_of_fmap. by exists kv.
  - by apply IH.
Qed.

(** The message's idempotency key wins over every layer, and its own headers
    win over the user's. *)
Lemma layered_wins canon static fromFunc headers idemName idemKey h :
  (idemName ≠ ""%string → idemKey ≠ ""%string →
   layered canon static fromFunc headers idemName idemKey h !! canon idemName = Some idemKey) ∧
  (∀ k v, NoDup (canon ∘ fst <$> headers) → (k, v) ∈ headers →
     idemKey = ""%string ∨ canon k ≠ canon idemName →
     layered canon static fromFunc headers idemName idemKey h !! canon k = Some v).
Proof.
  unfold layered. split.
  - intros H1 H2. rewrite !bool_decide_eq_false_2 by done. simpl. apply lookup_insert_eq.
  - intros k v Hnd Hin Hk.
    destruct (negb (bool_decide (idemName = ""%string)) && negb (bool_decide (idemKey = ""%string))) eqn:Hi.
    + rewrite lookup_insert_ne; [by apply lookup_set_all|]. intros Heq. destruct Hk as [->|Hk]; [|congruence].
      rewrite (bool_decide_eq_true_2 (""%string = ""%string)) in Hi by done. by rewrite andb_false_r in Hi.
    + by apply lookup_set_all.
Qed.

Section Properties.
Context (ParseTime : string → option Time) (now : Time).

Lemma parseRetryAfter_none v d : parseRetryAfter ParseTime now v = (d, false) → d = 0.
Proof.
  unfold parseRetryAfter. case_bool_decide; [by intros [= <-]|].
  destruct (Atoi _) as [n|]; [destruct (0 <=? n); [done|]|]; destruct (ParseTime _); by intros [= <-].
Qed.

Lemma retry_error_spec resp body :
  let r := Some (retry_error ParseTime now resp body) in
  IsDeadLetter r = false ∧ IsSkip r = false ∧
  ExtractRetryAfter r = parseRetryAfter ParseTime now (RetryAfterHeader resp).
Proof.
  unfold retry_error. destruct (parseRetryAfter ParseTime now _) as [d []] eqn:E; [done|].
  by apply parseRetryAfter_none in E as ->.
Qed.
End Properties.

(** Statuses worth another attempt. *)
Definition retryable (code : Z) : bool :=
  bool_decide (code ∈ [408; 425; 429]) || (500 <=? code).

(** The HTTP handler's response decides as documented.  A transport error
    keeps its nature (in particular a cancelled context stays recognisable, so
    that shutdown releases the message).  Otherwise the attempt succeeds
    exactly on 2xx; it is dead-lettered exactly on 4xx other than 408, 425 and
    429; it is never skipped; and it carries a delay exactly when the status is
    one of those three or at least 500 and the Retry-After header can be read,
    the delay the header says. *)
Theorem http_classification ParseTime now resp body terr :
  match DefaultClassifier ParseTime now resp body terr, terr, resp with
  | Returned r, Some te, _ =>
    r ≠ None ∧ IsDeadLetter r = IsDeadLetter (Some te) ∧ IsSkip r = IsSkip (Some te) ∧
    is_Canceled r = is_Canceled (Some te) ∧ ExtractRetryAfter r = ExtractRetryAfter (Some te)
  | Returned r, None, Some rs =>
    (r = None ↔ 200 ≤ StatusCode rs < 300) ∧
    (IsDeadLetter r = true ↔ 400 ≤ StatusCode rs < 500 ∧ retryable (StatusCode rs) = false) ∧
    IsSkip r = false ∧
    ExtractRetryAfter r = (if retryable (StatusCode rs)
                           then parseRetryAfter ParseTime now (RetryAfterHeader rs) else (0, false))
  | _, None, None => True
  | _, _, _ => False
  end.
Proof.
  unfold DefaultClassifier. destruct terr as [te|]; [by split_and!|].
  destruct resp as [rs|]; [|done]. set (code := StatusCode rs).
  pose proof (retry_error_spec ParseTime now rs body) as (Hd & Hs & Hr).
  assert (retryable code = (code =? 408) || (code =? 425) || (code =? 429) || (500 <=? code)) as ->.
  { unfold retryable. apply eq_iff_eq_true. rewrite !orb_true_iff, bool_decide_eq_true, !Z.eqb_eq.
    rewrite !elem_of_cons, elem_of_nil. tauto. }
  destruct (Z.leb_spec 200 code), (Z.ltb_spec code 300); cbn [andb].
  { split_and!; [by split|split; [done|lia]|done|].
    by replace (500 <=? code) with false by lia;
      replace (code =? 408) with false by lia; replace (code =? 425) with false by lia;
      replace (code =? 429) with false by lia. }
  all: destruct (Z.eqb_spec code 408), (Z.eqb_spec code 425), (Z.eqb_spec code 429),
    (Z.leb_spec 400 code), (Z.ltb_spec code 500), (Z.leb_spec 500 code); cbn [orb andb]; try lia;
    (split_and!; [split; [done|lia]| |done|done]); rewrite ?Hd;
    (split; [by first [discriminate|split; [lia|]]|intros [? ?]; first [done|lia]]).
Qed.

(** The Retry-After header is read as RFC 9110 says, up to overflow.  A
    number of seconds up to 9223372036 (292 years) is that delay, and a date is
    the time until it, or no delay if it has passed.  A larger number still
    accepted by strconv.Atoi overflows the multiplication by a second: a
    negative delay comes only from such a number, and some give one. *)
Theorem http_retry_after ParseTime now v :
  (∀ secs, Atoi (TrimSpace v) = Some secs → 0 ≤ secs ≤ 9223372036 →
     parseRetryAfter ParseTime now v = (secs * Second, true)) ∧
  (∀ t, TrimSpace v ≠ ""%string → Atoi (TrimSpace v) = None → ParseTime (TrimSpace v) = Some t →
     parseRetryAfter ParseTime now v = (Z.max 0 (t - now), true)) ∧
  ((parseRetryAfter ParseTime now v).1 < 0 →
     ∃ secs, Atoi (TrimSpace v) = Some secs ∧ 9223372036 < secs) ∧
  (parseRetryAfter ParseTime now "9223372037").1 < 0.
Proof.
  unfold parseRetryAfter. split_and!; [| | |vm_compute; done].
  - intros secs Hs Hr. rewrite Hs. case_bool_decide as He; [by rewrite He in Hs|].
    rewrite (proj2 (Z.leb_le 0 secs)) by lia. rewrite wrap64_id; [done|].
    unfold in_int64, int64_min, int64_max, Second. lia.
  - intros t Hne Ha Ht. rewrite bool_decide_eq_false_2, Ha, Ht by done.
    destruct (Z.ltb_spec 0 (t - now)); f_equal; lia.
  - assert (∀ o : option Time, (match o with
        | Some t => (if 0 <? t - now then t - now else 0, true)
        | None => (0, false) end).1 < 0 → False) as Hdate.
    { intros [t|]; [|done]. simpl. destruct (Z.ltb_spec 0 (t - now)); lia. }
    case_bool_decide; [done|]. destruct (Atoi (TrimSpace v)) as [secs|]; [|by intros ?%Hdate].
    destruct (Z.leb_spec 0 secs); [|by intros ?%Hdate]. intros Hneg. exists secs. split; [done|].
    destruct (Z.le_gt_cases secs 9223372036); [|done]. exfalso. revert Hneg. simpl.
    rewrite wrap64_id; unfold in_int64, int64_min, int64_max, Second; lia.
Qed.

Example trimmed_seconds : parseRetryAfter (λ _, None) 0 " 120 " = (120 * Second, true).
Proof. vm_compute. reflexivity. Qed.

Example canonical_key : CanonicalHeaderKey "x-request-ID" = "X-Request-Id"%string.
Proof. vm_compute. reflexivity. Qed.
