(* ===== verification/GrpcHandler.v ===== *)
(** * The built-in gRPC handler (handlers/grpc/handler.go)

    The gRPC library is an argument: [FromError] is status.FromError (the code
    of a status error), [mdKey] the key metadata.MD.Set stores under, [invoke]
    the generated client method. *)

From S2P Require Import Prelude GoErrors Message Effects Registry Engine EngineFacts HttpHandler.

(** The status codes of google.golang.org/grpc/codes. *)
Inductive Code :=
| OK | Canceled | Unknown | InvalidArgument | DeadlineExceeded | NotFound | AlreadyExists
| PermissionDenied | ResourceExhausted | FailedPrecondition | Aborted | OutOfRange
| Unimplemented | Internal | Unavailable | DataLoss | Unauthenticated.

Definition DefaultIdempotencyMetadata : string := "x-idempotency-key".

Record GrpcConfig (Req : Type) := mkGrpcConfig {
  StaticMetadata : list (string * string);
  MetadataFunc : option (InboundMessage → Req → list (string * string));
  IdempotencyMetadata : string;
  GrpcClassifier : option (option error → option error);
}.
Arguments StaticMetadata {Req}.
Arguments MetadataFunc {Req}.
Arguments IdempotencyMetadata {Req}.
Arguments GrpcClassifier {Req}.

Section Grpc.
Context (FromError : error → option Code) (mdKey : string → string).

Definition DefaultClassifier (err : option error) : option error :=
  match err with
  | None => None
  | Some e =>
    match FromError e with
    | None => Some (Errorf_w "grpchandler" e)
    | Some code =>
      match code with
      | OK => None
      | InvalidArgument | NotFound | AlreadyExists | PermissionDenied | Unauthenticated
      | FailedPrecondition | OutOfRange | Unimplemented => Some (DeadLetter (Some e))
      | _ => Some e
      end
    end
  end.

Definition applyMetadata {Req} (cfg : GrpcConfig Req) (headers : list (string * string))
    (msg : InboundMessage) (req : Req) : gmap string string :=
  layered mdKey (StaticMetadata cfg)
    (match MetadataFunc cfg with Some f => f msg req | None => [] end) headers
    (IdempotencyMetadata cfg) (im_IdempotencyKey msg) ∅.

(** The handler; the outgoing metadata of the call, if it was made. *)
Definition Unary {Req} (cfg : GrpcConfig Req)
    (invoke : option (gmap string string → Req → option error))
    (headers : list (string * string)) (msg : InboundMessage) (req : Req)
    : option error * option (gmap string string) :=
  match invoke with
  | None => (Some (DeadLetter (Some (errorString "grpchandler: nil invoke"))), None)
  | Some f =>
    let idem := if bool_decide (IdempotencyMetadata cfg = ""%string) then DefaultIdempotencyMetadata
                else IdempotencyMetadata cfg in
    let cfg := mkGrpcConfig Req (StaticMetadata cfg) (MetadataFunc cfg) idem (GrpcClassifier cfg) in
    let md := applyMetadata cfg headers msg req in
    let err := f md req in
    (default DefaultClassifier (GrpcClassifier cfg) err, Some md)
  end.
End Grpc.

(** Codes that another attempt cannot mend. *)
Definition permanent (c : Code) : bool :=
  match c with
  | InvalidArgument | NotFound | AlreadyExists | PermissionDenied | Unauthenticated
  | FailedPrecondition | OutOfRange | Unimplemented => true
  | _ => false
  end.

(** C30: The gRPC handler calls once and decides by the status code.  With a
    client method and the default classifier, the method is called with
    metadata in which the idempotency key wins over every layer and the
    message's own headers over the user's; the attempt succeeds exactly when the
    call does (or reports OK); a permanent code is dead-lettered; any other
    error is passed on with its nature, so that its own classification (a
    cancellation, a delay) stays recognisable.  Without a method the message is
    dead-lettered and nothing is called. *)
Theorem grpc_classification {Req} FromError mdKey (cfg : GrpcConfig Req) invoke headers msg req :
  GrpcClassifier cfg = None →
  match Unary FromError mdKey cfg invoke headers msg req with
  | (r, None) => invoke = None ∧ IsDeadLetter r = true
  | (r, Some md) => ∃ f, invoke = Some f ∧
      (let idem := if bool_decide (IdempotencyMetadata cfg = ""%string)
                   then DefaultIdempotencyMetadata else IdempotencyMetadata cfg in
       (im_IdempotencyKey msg ≠ ""%string → md !! mdKey idem = Some (im_IdempotencyKey msg)) ∧
       (∀ k v, NoDup (mdKey ∘ fst <$> headers) → (k, v) ∈ headers →
          mdKey k ≠ mdKey idem → md !! mdKey k = Some v)) ∧
      (r = None ↔ f md req = None ∨ ∃ e, f md req = Some e ∧ FromError e = Some OK) ∧
      ∀ e er, f md req = Some e → r = Some er →
        match FromError e with
        | Some c => if permanent c then IsDeadLetter r = true
                    else er = e
        | None => ∀ e', wraps e e' → wraps er e'
        end
  end.
Proof.
  intros Hc. unfold Unary. destruct invoke as [f|]; [|done]. rewrite Hc. simpl.
  set (idem := if bool_decide _ then _ else _).
  set (md := applyMetadata _ _ _ _ _). exists f. split; [done|].
  assert (idem ≠ ""%string) as Hidem by (unfold idem; case_bool_decide; done).
  pose proof (layered_wins mdKey (StaticMetadata cfg)
    (match MetadataFunc cfg with Some f => f msg req | None => [] end) headers idem
    (im_IdempotencyKey msg) ∅) as [Hidk Hhd].
  split; [split; [exact (Hidk Hidem)|]|split].
  - intros k v Hnd Hin Hne. apply Hhd; auto.
  - unfold DefaultClassifier. destruct (f md req) as [e|]; [|by split; auto].
    destruct (FromError e) as [c|] eqn:Ec; [|by split; [|intros [?|(? & [= <-] & ?)]; congruence]].
    destruct c; (split; [intros; try done; right; by exists e|intros [?|(? & [= <-] & ?)]; congruence]).
  - intros e er He Hr. unfold DefaultClassifier in Hr. rewrite He in Hr.
    unfold DefaultClassifier. rewrite He. destruct (FromError e) as [c|] eqn:Ec.
    + destruct c; simpl in *; try congruence; by injection Hr as <-.
    + injection Hr as <-. intros e' He'. by constructor.
Qed.

(** A status is read off the error itself or one it wraps. *)
Definition demo_FromError (e : error) : option Code :=
  find_err (λ x, match x with
    | statusError 1 _ => Some Canceled | statusError 5 _ => Some NotFound
    | statusError _ _ => Some Unknown | _ => None end) e.

Definition demo_grpc : GrpcConfig unit := mkGrpcConfig unit [("a", "1")]%string None "" None.

(** A call that the shutdown cancelled reports a status error, not
    context.Canceled: the engine cannot recognise it and does not release the
    message. *)
Lemma grpc_classification_witness :
  let call (code : Z) := Unary demo_FromError id demo_grpc
      (Some (λ _ _, Some (statusError code "rpc error"))) [] demo_message tt in
  IsDeadLetter (call 5).1 = true ∧ (call 1).1 = Some (statusError 1 "rpc error") ∧
  is_Canceled (call 1).1 = false ∧
  match call 5 with
  | (r, None) => False
  | (r, Some md) => r = None ↔ (Some (statusError 5 "rpc error") = None ∨
      ∃ e, Some (statusError 5 "rpc error") = Some e ∧ demo_FromError e = Some OK)
  end.
Proof.
  cbv zeta. split; [reflexivity|]. split; [reflexivity|]. split; [reflexivity|].
  pose proof (grpc_classification demo_FromError id demo_grpc
    (Some (λ _ _, Some (statusError 5 "rpc error"))) [] demo_message tt eq_refl) as H.
  destruct H as (f & Hf & _ & H & _). injection Hf as <-. exact H.
Defined.
