(* ===== verification/Cockroach.v ===== *)
(** * The CockroachDB adapter (storage/cockroach/cockroach.go)

    The adapter is the PostgreSQL one without notifications, with a leader
    lock of its own: a row of [tickr_locks] that expires after 60 seconds.
    The lock table is a state machine shared by all processes; the theorem is
    that a granted lock is exclusive until it is released or expires. *)

From S2P Require Import Prelude GoErrors Message World Postgres.

(** ** The store *)

Definition NewCockroach : Store := New [WithoutNotifier].

(** The optional interfaces, forwarded to the embedded adapter. *)
Definition Cockroach_PurgeHistory (env : Env) := PurgeHistory env.
Definition Cockroach_BatchSucceed (env : Env) := BatchSucceed env NewCockroach.

(** ** The lock table *)

Record lock := mkLock { l_holder : string; l_expires : Time }.

Abbreviation Locks := (gmap string lock) (only parsing).

Definition ttl : Duration := 60 * Second.

(** INSERT ... ON CONFLICT (key) DO UPDATE ... WHERE expires_at < now()
    RETURNING holder = $2; [None] is pgx.ErrNoRows. *)
Definition lockSQL (key holder : string) (now : Time) (t : Locks) : option bool * Locks :=
  match t !! key with
  | None => (Some true, <[key := mkLock holder (now + ttl)]> t)
  | Some l =>
    if l_expires l <? now then (Some true, <[key := mkLock holder (now + ttl)]> t)
    else (None, t)
  end.

(** DELETE FROM tickr_locks WHERE key=$1 AND holder=$2 *)
Definition unlockSQL (key holder : string) (t : Locks) : Locks :=
  match t !! key with
  | Some l => if bool_decide (l_holder l = holder) then delete key t else t
  | None => t
  end.

(** The statement under a fault of the connection. *)
Definition TryLeaderLock (f : Fault) (key holder : string) (now : Time) (t : Locks)
    : (bool * option error) * Locks :=
  let '(got, t') := lockSQL key holder now t in
  match f with
  | FailBefore e => ((false, Some (Errorf_w "tickr/cockroach: try leader lock" e)), t)
  | FailAfter e => ((false, Some (Errorf_w "tickr/cockroach: try leader lock" e)), t')
  | NoFault => ((match got with Some b => b | None => false end, None), t')
  end.

Definition unlock (f : Fault) (key holder : string) (t : Locks) : Locks :=
  match f with FailBefore _ => t | _ => unlockSQL key holder t end.

(** ** Many processes *)

(** The table, the server's clock, and the holder ids drawn so far. *)
Record locks_state := mkLocksState { ls_table : Locks; ls_now : Time; ls_used : gset string }.

(** A try draws a fresh holder (uuid.NewString); only the process that drew
    it unlocks with it. *)
Inductive lock_event :=
| Try (f : Fault) (key holder : string) (granted : bool)
| Unlock (f : Fault) (key holder : string)
| Wait (d : Duration).

Inductive lock_step : locks_state → lock_event → locks_state → Prop :=
| ls_try f key holder t now used r t' :
    holder ∉ used → TryLeaderLock f key holder now t = (r, t') →
    lock_step (mkLocksState t now used) (Try f key holder r.1)
      (mkLocksState t' now ({[holder]} ∪ used))
| ls_unlock f key holder t now used :
    lock_step (mkLocksState t now used) (Unlock f key holder)
      (mkLocksState (unlock f key holder t) now used)
| ls_wait d t now used :
    0 ≤ d → lock_step (mkLocksState t now used) (Wait d) (mkLocksState t (now + d) used).

Inductive lock_steps : locks_state → list lock_event → locks_state → Prop :=
| lss_nil s : lock_steps s [] s
| lss_cons s e s' es s'' : lock_step s e s' → lock_steps s' es s'' → lock_steps s (e :: es) s''.

(** ** Properties *)

(** The row of [key] is held by [holder] until [until]. *)
Definition held_until (s : locks_state) (key holder : string) (until : Time) : Prop :=
  ls_table s !! key = Some (mkLock holder until) ∧ holder ∈ ls_used s.

Definition unlocks (key holder : string) (e : lock_event) : Prop :=
  match e with Unlock _ k h => k = key ∧ h = holder | _ => False end.

Definition grants (key : string) (e : lock_event) : Prop :=
  match e with Try _ k _ true => k = key | _ => False end.

Lemma lockSQL_other key holder now t k : k ≠ key → (lockSQL key holder now t).2 !! k = t !! k.
Proof.
  intros Hk. unfold lockSQL. destruct (t !! key) as [l|]; [destruct (l_expires l <? now)|]; simpl;
    rewrite ?lookup_insert_ne by done; done.
Qed.

Lemma lockSQL_live key holder now t l :
  t !! key = Some l → now ≤ l_expires l → lockSQL key holder now t = (None, t).
Proof. intros Hl Hn. unfold lockSQL. rewrite Hl. by destruct (Z.ltb_spec (l_expires l) now); [lia|]. Qed.

Lemma unlockSQL_other key holder t k l :
  t !! k = Some l → (k ≠ key ∨ l_holder l ≠ holder) → unlockSQL key holder t !! k = Some l.
Proof.
  intros Hl Hne. unfold unlockSQL. destruct (t !! key) as [l'|] eqn:E; [|done].
  case_bool_decide as Hh; [|done]. destruct (decide (k = key)) as [->|]; [|by rewrite lookup_delete_ne].
  rewrite E in Hl. injection Hl as ->. by destruct Hne.
Qed.

Lemma lock_step_now s e s' : lock_step s e s' → ls_now s ≤ ls_now s' ∧ ls_used s ⊆ ls_used s'.
Proof. destruct 1; simpl; (split; [lia|set_solver]). Qed.

Lemma lock_steps_now s es s' : lock_steps s es s' → ls_now s ≤ ls_now s'.
Proof.
  induction 1 as [|s e s1 es s2 Hs _ IH]; [lia|]. apply lock_step_now in Hs as [? _]. lia.
Qed.

(** A live lock survives every step but its own release, and refuses everybody. *)
Lemma held_step s e s' key holder until :
  lock_step s e s' → held_until s key holder until → ls_now s' ≤ until →
  ¬ unlocks key holder e → held_until s' key holder until ∧ ¬ grants key e.
Proof.
  intros Hs [Hl Hu] Hn Hne.
  destruct Hs as [f k h t now used r t' Hfresh Ht|f k h t now used|d t now used Hd]; simpl in *.
  - assert (t' !! key = Some (mkLock holder until) ∧ (k = key → r.1 = false)) as [Ht' Hr].
    { unfold TryLeaderLock in Ht. destruct (decide (k = key)) as [->|Hk].
      - rewrite (lockSQL_live key h now t _ Hl Hn) in Ht.
        by destruct f; simplify_eq.
      - pose proof (lockSQL_other k h now t key ltac:(done)) as Ho.
        destruct (lockSQL k h now t) as [got t1]. simpl in Ho. split; [|done].
        destruct f; simplify_eq; congruence. }
    split; [split; [done|set_solver]|]. destruct r.1 eqn:E; [|done]. intros Hk.
    specialize (Hr Hk). congruence.
  - split; [|by intros []]. split; [|done]. simpl. destruct f; simpl; try done;
      (apply (unlockSQL_other k h t key); [done|]; simpl;
       destruct (decide (k = key)) as [->|]; [right; simpl; intros Heq; apply Hne; by split|by left]).
  - split; [by split|by intros []].
Qed.

Lemma held_steps s es s' key holder until :
  lock_steps s es s' → held_until s key holder until → ls_now s' ≤ until →
  Forall (λ e, ¬ unlocks key holder e) es → held_until s' key holder until ∧ Forall (λ e, ¬ grants key e) es.
Proof.
  induction 1 as [|s e s1 es s2 Hs Hss IH]; intros Hh Hn Hf; [done|].
  apply Forall_cons in Hf as [He Hes]. pose proof (lock_steps_now _ _ _ Hss).
  destruct (held_step s e s1 key holder until Hs Hh ltac:(lia) He) as [Hh1 Hg].
  destruct (IH Hh1 Hn Hes). split; [done|]. by constructor.
Qed.

(** C29: A granted leader lock is exclusive for a minute.  Whatever other
    processes try, release (with their own holder ids) or lose to faults, from
    the moment a try of [key] is granted until the holder unlocks it or 60
    seconds of server time have passed, the row stays the holder's and no
    other try of the key is granted.  After that a new leader may be elected
    although the old one is still at work: the lease is not renewed. *)
Theorem leader_lock_exclusive s f key holder s1 es s2 :
  lock_step s (Try f key holder true) s1 → lock_steps s1 es s2 →
  Forall (λ e, ¬ unlocks key holder e) es → ls_now s2 ≤ ls_now s1 + ttl →
  ls_table s2 !! key = Some (mkLock holder (ls_now s1 + ttl)) ∧ Forall (λ e, ¬ grants key e) es.
Proof.
  intros Ht Hss Hf Hn.
  assert (held_until s1 key holder (ls_now s1 + ttl)) as Hh.
  { inversion Ht as [? ? ? t now used r t' Hfresh Htry Hr| |]; subst. unfold TryLeaderLock in Htry.
    destruct (lockSQL key holder now t) as [got t1] eqn:El.
    assert (got = Some true ∧ t' = t1) as [-> ->].
    { destruct f; simplify_eq; simpl in *; try congruence. by destruct got as [[]|]. }
    unfold lockSQL in El. split; simpl; [|set_solver].
    destruct (t !! key) as [l|]; [destruct (l_expires l <? now)|]; simplify_eq; apply lookup_insert_eq. }
  destruct (held_steps s1 es s2 key holder (ls_now s1 + ttl) Hss Hh Hn Hf) as [[H _] Hg]. done.
Qed.

Definition demo_locks (now : Time) (used : gset string) : locks_state :=
  mkLocksState {["tickr.janitor"%string := mkLock "a" (60 * Second)]} now used.

Lemma leader_lock_exclusive_witness :
  ls_table (demo_locks (50 * Second) {["a"; "b"]}%string) !! "tickr.janitor"%string =
    Some (mkLock "a" (0 + ttl)) ∧
  Forall (λ e, ¬ grants "tickr.janitor" e) [Wait (50 * Second); Try NoFault "tickr.janitor" "b" false] ∧
  (TryLeaderLock NoFault "tickr.janitor" "c" (61 * Second)
     (ls_table (demo_locks 0 ∅))).1 = (true, None).
Proof.
  pose proof (leader_lock_exclusive (mkLocksState ∅ 0 ∅) NoFault "tickr.janitor" "a"
    (mkLocksState {["tickr.janitor"%string := mkLock "a" (60 * Second)]} 0 ({["a"%string]} ∪ ∅))
    [Wait (50 * Second); Try NoFault "tickr.janitor" "b" false]
    (mkLocksState {["tickr.janitor"%string := mkLock "a" (60 * Second)]} (0 + 50 * Second)
       ({["b"%string]} ∪ ({["a"%string]} ∪ ∅)))) as H.
  assert (0 + 50 * Second ≤ 0 + ttl) as Hn by (vm_compute; discriminate).
  destruct H as [H1 H2].
  - apply (ls_try NoFault "tickr.janitor" "a" ∅ 0 ∅ (true, None)); [set_solver|vm_compute; reflexivity].
  - eapply lss_cons; [apply ls_wait; vm_compute; discriminate|].
    eapply lss_cons; [|apply lss_nil].
    apply (ls_try NoFault "tickr.janitor" "b" _ _ _ (false, None)); [set_solver|vm_compute; reflexivity].
  - repeat constructor; by intros [].
  - exact Hn.
  - split; [exact H1|]. split; [exact H2|]. vm_compute. reflexivity.
Defined.
