(* ===== verification/MySQL.v ===== *)
(** * The MySQL adapter: statements and operations (storage/mysql/mysql.go)

    The same tables as the PostgreSQL adapter, in the schema of
    storage/mysql/migrations, behind another server.  What is different is
    written out: comparisons of text follow the server's collation, a value
    that does not fit its column is refused (strict SQL mode, the server's
    default), CURRENT_TIMESTAMP is the time of the statement and not of the
    transaction, a failed statement does not abort its transaction, but a
    deadlock rolls the whole transaction back and leaves the session in
    auto-commit mode.  The adapter's own transactions (BeginTx ... Commit) are
    programs over a view of the database ([TxM]) that are run as one action. *)

From S2P Require Import Prelude GoErrors GoFloat Message World Postgres.

#[export] Instance hist_eq_dec : EqDecision hist.
Proof. solve_decision. Defined.

(** ** The server *)

(** [sv_collate] is the weight string of a text under the collation of the
    tables: two texts are equal when their weight strings are, and are ordered
    by them.  [sv_found_rows]: whether RowsAffected counts the rows matched
    (the driver's clientFoundRows option) or, as by default, those changed.
    [sv_repeatable]: the isolation level of the caller's transaction gives its
    plain reads a snapshot (REPEATABLE READ, the default). *)
Record Server := mkServer {
  sv_collate : string → string;
  sv_found_rows : bool;
  sv_repeatable : bool;
}.

Definition mysqlErrDupEntry : Z := 1062.
Definition mysql_deadlock : Z := 1213.

Definition err_dup_entry : error := MySQLError mysqlErrDupEntry "Duplicate entry".
Definition err_data_too_long : error := MySQLError 1406 "Data too long for column".
Definition err_out_of_range : error := MySQLError 1264 "Out of range value for column".
Definition err_bad_datetime : error := MySQLError 1292 "Incorrect datetime value: '0000-00-00'".

(** The characters of a UTF-8 text: all bytes but the continuation bytes. *)
Fixpoint utf8_length (s : string) : Z :=
  match s with
  | EmptyString => 0
  | String c s =>
    let n := Ascii.N_of_ascii c in
    (if (N.leb 128 n && N.ltb n 192)%N then 0 else 1) + utf8_length s
  end.

Fixpoint byte_length (s : string) : Z :=
  match s with EmptyString => 0 | String _ s => 1 + byte_length s end.

(** Column types: VARCHAR(n) counts characters, TEXT bytes; INT and TINYINT
    are 32 and 8 bits wide; the driver writes Go's zero time as '0000-00-00',
    which a DATETIME column refuses. *)
Definition varchar (n : Z) (s : string) : bool := utf8_length s <=? n.
Definition text (s : string) : bool := byte_length s <=? 65535.
Definition int32 (n : Z) : bool := (-2147483648 <=? n) && (n <=? 2147483647).
Definition tinyint (n : Z) : bool := (-128 <=? n) && (n <=? 127).
Definition datetime (t : Time) : bool := negb (IsZero t).
Definition nullable {A} (ok : A → bool) (o : option A) : bool :=
  match o with Some x => ok x | None => true end.

Definition refuse (ok : bool) (e : error) : option error := if ok then None else Some e.

Definition first_error (l : list (option error)) : option error := head (omap id l).

(** The first column of a row, if any, whose value its type refuses. *)
Definition row_error (r : row) : option error :=
  first_error
    [refuse (varchar 255 (r_event_type r)) err_data_too_long;
     refuse (nullable (varchar 255) (r_idempotency_key r)) err_data_too_long;
     refuse (int32 (r_attempt r)) err_out_of_range;
     refuse (int32 (r_max_attempts r)) err_out_of_range;
     refuse (datetime (r_process_at r)) err_bad_datetime;
     refuse (tinyint (r_shard r)) err_out_of_range;
     refuse (nullable datetime (r_claimed_until r)) err_bad_datetime;
     refuse (nullable (varchar 255) (r_claimed_by r)) err_data_too_long;
     refuse (nullable text (r_last_error r)) err_data_too_long].

Definition hist_error (h : hist) : option error :=
  first_error
    [refuse (varchar 36 (h_message_id h)) err_data_too_long;
     refuse (int32 (h_seq h)) err_out_of_range;
     refuse (int32 (h_attempt h)) err_out_of_range;
     refuse (nullable text (h_error h)) err_data_too_long;
     refuse (nullable (varchar 255) (h_worker_id h)) err_data_too_long].

(** ** SQL *)

Module Stmt.
Section Stmt.
Context (sv : Server).

(** [a = b] on text columns. *)
Definition ci (a b : string) : bool := bool_decide (sv_collate sv a = sv_collate sv b).
Definition ci_opt (o : option string) (s : string) : bool :=
  match o with Some x => ci x s | None => false end.
Definition ci_in (a : string) (l : list string) : bool := existsb (ci a) l.

(** UPDATE: refused when a new row does not fit; otherwise the rows matched or
    changed are counted. *)
Definition update_rows (p : UUID → row → bool) (f : row → row) (db : DB) : error + (Z * DB) :=
  let sel := select_where p (d_msgs db) in
  match first_error ((λ ir, row_error (f ir.2)) <$> sel) with
  | Some e => inl e
  | None =>
    inr (Z.of_nat (length (filter (λ ir, sv_found_rows sv = true ∨ f ir.2 ≠ ir.2) sel)),
         set_msgs (update_where p f (d_msgs db)) db)
  end.

(** The unique keys of tickr_messages: the primary key and
    (event_type, idempotency_key), in which NULLs are distinct. *)
Definition key_collides (r r' : row) : bool :=
  ci (r_event_type r) (r_event_type r') &&
  match r_idempotency_key r, r_idempotency_key r' with
  | Some k, Some k' => ci k k'
  | _, _ => false
  end.

Definition duplicate_entry (id : UUID) (r : row) (m : gmap UUID row) : bool :=
  negb (bool_decide (select_where (λ i r', ci id i || key_collides r r') m = [])).

(** enqueueSQL *)
Definition enqueueSQL (id : UUID) (et : string) (payload : bytes) (hdrs : gmap string string)
    (idem : option string) (maxAttempts : Z) (processAt : Time) (shard : Z) : stmt unit := λ se db,
  let r := SQL.new_row et payload hdrs idem maxAttempts processAt shard (s_now se) in
  match first_error [refuse (varchar 36 id) err_data_too_long; row_error r] with
  | Some e => inl e
  | None => if duplicate_entry id r (d_msgs db) then inl err_dup_entry
            else inr ((), set_msgs (<[id := r]> (d_msgs db)) db)
  end.

(** findByIdemSQL and findByIDSQL, read with QueryRow. *)
Definition findByIdemSQL (et key : string) : stmt (option (UUID * row)) := λ se db,
  let p := λ (_ : UUID) r, ci (r_event_type r) et && ci_opt (r_idempotency_key r) key in
  inr (head (SQL.scan_rows se (select_where p (d_msgs db))), db).

Definition findByIDSQL (id : UUID) : stmt (option (UUID * row)) := λ se db,
  inr (head (SQL.scan_rows se (select_where (λ i _, ci i id) (d_msgs db))), db).

(** selectSQL of selectClaimIDs: ORDER BY process_at, id LIMIT ? FOR UPDATE
    SKIP LOCKED *)
Definition claimable (now : Time) (types : list string) (shard : option Z) (locked : gset UUID)
    (i : UUID) (r : row) : bool :=
  pending (r_status r) &&
  match shard with None => true | Some s => r_shard r =? s end &&
  ci_in (r_event_type r) types &&
  (r_process_at r <=? now) &&
  bool_decide (i ∉ locked).

Definition claim_order (a b : UUID * row) : Prop :=
  key_le (r_process_at a.2, sv_collate sv a.1) (r_process_at b.2, sv_collate sv b.1).

#[export] Instance claim_order_dec : RelDecision claim_order.
Proof. intros a b. unfold claim_order. apply _. Defined.

Definition selectClaimSQL (now : Time) (types : list string) (shard : option Z) (batch : Z)
    : stmt (list UUID) := λ se db,
  inr ((take (Z.to_nat batch) (merge_sort claim_order
          (select_where (claimable now types shard (s_locked se)) (d_msgs db)))).*1, db).

Definition claim_row (now : Time) (worker : string) (until : Time) (r : row) : row :=
  with_updated_at now (with_claim (Some until) (Some worker)
    (with_attempt (r_attempt r + 1) (with_status StatusHandling r))).

(** updateSQL and fetchSQL of Claim *)
Definition claimUpdateSQL (worker : string) (until : Time) (ids : list UUID) : stmt unit := λ se db,
  match update_rows (λ i _, ci_in i ids) (claim_row (s_now se) worker until) db with
  | inl e => inl e
  | inr (_, db') => inr ((), db')
  end.

Definition claimFetchSQL (ids : list UUID) : stmt (list (UUID * row)) := λ se db,
  inr (SQL.scan_rows se (select_where (λ i _, ci_in i ids) (d_msgs db)), db).

(** sqlText of appendHistory *)
Definition next_seq (id : MessageID) (h : list hist) : Z :=
  default 0 (foldr (λ x acc, if ci (h_message_id x) id
                             then Some (default (h_seq x) (Z.max (h_seq x) <$> acc))
                             else acc) None h) + 1.

Definition hist_row (id : MessageID) (seq : Z) (from to : Status) (attempt : Z)
    (err worker : string) (now : Time) : hist :=
  {| h_message_id := id; h_seq := seq; h_from_status := Some from; h_to_status := to;
     h_attempt := attempt; h_error := nullif_empty err; h_worker_id := Some worker; h_at := now |}.

Definition appendHistorySQL (id : MessageID) (from to : Status) (attempt : Z)
    (err worker : string) : stmt unit := λ se db,
  let h := hist_row id (next_seq id (d_hist db)) from to attempt err worker (s_now se) in
  match hist_error h with
  | Some e => inl e
  | None => inr ((), set_hist (d_hist db ++ [h]) db)
  end.

(** *** Acknowledgement *)

(** WHERE id=? AND status='HANDLING' AND attempt=? *)
Definition held (id : MessageID) (attempt : Z) (i : UUID) (r : row) : bool :=
  ci i id && bool_decide (r_status r = StatusHandling) && (r_attempt r =? attempt).

(** WHERE id=? AND status='HANDLING' AND claimed_by=? *)
Definition owned (id : MessageID) (worker : string) (i : UUID) (r : row) : bool :=
  ci i id && bool_decide (r_status r = StatusHandling) && ci_opt (r_claimed_by r) worker.

Definition success_row (now : Time) (r : row) : row :=
  with_updated_at now (with_completed_at (Some now) (with_status StatusSuccess r)).

Definition dead_row (now : Time) (err : string) (r : row) : row :=
  with_updated_at now (with_last_error (Some err)
    (with_completed_at (Some now) (with_status StatusDead r))).

Definition retry_row (now : Time) (err : string) (at_ : Time) (r : row) : row :=
  with_updated_at now (with_claim None None (with_last_error (Some err)
    (with_process_at at_ (with_status StatusRetrying r)))).

(** Assignments are evaluated from left to right: IF sees the old attempt. *)
Definition release_row (now : Time) (r : row) : row :=
  with_updated_at now (with_claim None None
    (with_attempt (Z.max (r_attempt r - 1) 0)
      (with_status (if 1 <? r_attempt r then StatusRetrying else StatusCreated) r))).

Definition extend_row (now until : Time) (r : row) : row :=
  with_updated_at now (with_claim (Some until) (r_claimed_by r) r).

(** An UPDATE whose result is not looked at. *)
Definition exec_update (p : UUID → row → bool) (f : Time → row → row) : stmt unit := λ se db,
  match update_rows p (f (s_now se)) db with
  | inl e => inl e
  | inr (_, db') => inr ((), db')
  end.

(** An UPDATE asked for RowsAffected. *)
Definition count_update (p : UUID → row → bool) (f : Time → row → row) : stmt Z := λ se db,
  update_rows p (f (s_now se)) db.

Definition batchSucceedSQL (id : MessageID) (attempt : Z) : stmt unit :=
  exec_update (held id attempt) success_row.
Definition succeedSQL (id : MessageID) (worker : string) : stmt unit :=
  exec_update (owned id worker) success_row.
Definition failDeadSQL (id : MessageID) (worker err : string) : stmt unit :=
  exec_update (owned id worker) (λ now, dead_row now err).
Definition failRetrySQL (id : MessageID) (worker err : string) (at_ : Time) : stmt unit :=
  exec_update (owned id worker) (λ now, retry_row now err at_).
Definition releaseShutdownSQL (id : MessageID) (worker : string) : stmt unit :=
  exec_update (owned id worker) release_row.
Definition extendSQL (id : MessageID) (worker : string) (until : Time) : stmt Z :=
  count_update (owned id worker) (λ now, extend_row now until).

(** *** History, dead letters, maintenance *)

Definition historySQL (id : MessageID) : stmt (list hist) := λ se db,
  inr (merge_sort (le_on h_seq)
         (filter (λ h, ci (h_message_id h) id = true) (d_hist db)), db).

Definition ge_opt (o : option Time) (t : Time) : bool :=
  match o with Some x => t <=? x | None => false end.

Definition listDeadSQL (et : string) (after : Time) (limit : Z) : stmt (list (UUID * row)) := λ se db,
  let p := λ (_ : UUID) r, bool_decide (r_status r = StatusDead) &&
    (bool_decide (et = ""%string) || ci (r_event_type r) et) &&
    ge_opt (r_completed_at r) after in
  inr (take (Z.to_nat limit)
         (merge_sort (le_on (λ ir : UUID * row, - SQL.completed ir.2))
            (SQL.scan_rows se (select_where p (d_msgs db)))), db).

Definition requeue_row (now processAt : Time) (r : row) : row :=
  with_updated_at now (with_last_error None (with_process_at processAt
    (with_completed_at None (with_claim None None
      (with_attempt 0 (with_status StatusCreated r)))))).

Definition requeueSQL (id : MessageID) (processAt : Time) : stmt unit :=
  exec_update (λ i r, ci i id && bool_decide (r_status r = StatusDead))
    (λ now, requeue_row now processAt).

Definition reclaim_row (now : Time) (r : row) : row :=
  with_updated_at now
    (with_last_error (Some (default "lease expired"%string (r_last_error r)))
      (with_claim None None (with_process_at now (with_status StatusRetrying r)))).

Definition expired (now : Time) (_ : UUID) (r : row) : bool :=
  bool_decide (r_status r = StatusHandling) && lt_opt (r_claimed_until r) now.

(** A LIMIT without ORDER BY: the server's order decides. *)
Definition limited (se : SqlEnv) (limit : Z) (p : UUID → row → bool) (m : gmap UUID row)
    : list UUID :=
  take (Z.to_nat limit) (s_scan se (select_where p m).*1).

Definition reclaimSQL (limit : Z) : stmt Z := λ se db,
  let ids := limited se limit (expired (s_now se)) (d_msgs db) in
  update_rows (λ i _, bool_decide (i ∈ ids)) (reclaim_row (s_now se)) db.

Definition purgeSQL (before : Time) (limit : Z) : stmt Z := λ se db,
  let ids := limited se limit (SQL.purgeable before) (d_msgs db) in
  inr (Z.of_nat (length ids),
       set_msgs (delete_where (λ i _, bool_decide (i ∈ ids)) (d_msgs db)) db).

Definition purgeHistorySQL (before : Time) (limit : Z) : stmt Z := λ se db,
  let sel := take (Z.to_nat limit)
    (merge_sort (le_on h_at) (filter (λ h, h_at h < before) (d_hist db))) in
  inr (Z.of_nat (length sel), set_hist (filter (λ h, h ∉ sel) (d_hist db)) db).

(** SELECT event_type, status, COUNT of rows GROUP BY event_type, status: a group is
    named by one of the texts its collation identifies. *)
Definition stats_group (groups : gmap (string * Status) (string * Z)) (ir : UUID * row)
    : gmap (string * Status) (string * Z) :=
  partial_alter (λ o, let '(et, n) := default (r_event_type ir.2, 0) o in Some (et, n + 1))
    (sv_collate sv (r_event_type ir.2), r_status ir.2) groups.

Definition statsSQL : stmt (list (string * Status * Z)) := λ se db,
  let groups := foldl stats_group ∅ (SQL.scan_rows se (map_to_list (d_msgs db))) in
  inr ((λ g : (string * Status) * (string * Z), ((g.2.1, g.1.2), g.2.2)) <$> map_to_list groups,
       db).

End Stmt.
End Stmt.

(** ** Transactions *)

Definition is_deadlock {A} (res : error + A) : bool :=
  match res with inl (MySQLError n _) => n =? mysql_deadlock | _ => false end.

(** A transaction of the adapter: the committed database, the transaction's
    view of it ([None] once a deadlock has rolled it back: from then on the
    session is in auto-commit mode), the tick. *)
Record TxS := mkTxS { ts_db : DB; ts_view : option DB; ts_tick : nat }.

Abbreviation TxM := (State TxS) (only parsing).

Definition tx_exec {A} (env : Env) (st : stmt A) : TxM (error + A) := λ t,
  let n := ts_tick t in
  match ts_view t with
  | Some view =>
    let '(res, view') := run_stmt env n n st view in
    (res, mkTxS (ts_db t) (if is_deadlock res then None else Some view') (S n))
  | None =>
    let '(res, db') := run_stmt env n n st (ts_db t) in
    (res, mkTxS db' None (S n))
  end.

Definition tx_now (env : Env) : TxM Time := λ t, (e_now env (ts_tick t), t).

Definition tx_rand (env : Env) (n : Z) : TxM Z := λ t,
  (e_rand env (ts_tick t) mod n, mkTxS (ts_db t) (ts_view t) (S (ts_tick t))).

(** How the body of a transaction ends: an early return, after which the
    deferred Rollback undoes it, or Commit, whose error decides the result. *)
Inductive TxEnd (B : Type) :=
| TxReturn (b : B)
| TxCommit (k : option error → B).
Arguments TxReturn {B} b.
Arguments TxCommit {B} k.

(** [BeginTx; defer Rollback; body] *)
Definition tx_run {B} (env : Env) (on_begin : error → B) (body : TxM (TxEnd B)) : State World B := λ w,
  match e_fault env (w_tick w) with
  | FailBefore e | FailAfter e => (on_begin e, tick w)
  | NoFault =>
    let '(r, t) := body (mkTxS (w_db w) (Some (w_db w)) (S (w_tick w))) in
    match r with
    | TxReturn b => (b, mkWorld (ts_db t) (w_tx w) (ts_tick t))
    | TxCommit k =>
      let committed := default (ts_db t) (ts_view t) in
      match e_fault env (ts_tick t) with
      | NoFault => (k None, mkWorld committed (w_tx w) (S (ts_tick t)))
      | FailBefore e => (k (Some e), mkWorld (ts_db t) (w_tx w) (S (ts_tick t)))
      | FailAfter e => (k (Some e), mkWorld committed (w_tx w) (S (ts_tick t)))
      end
    end
  end.

Definition in_tx {B} (env : Env) (on_begin : error → B) (body : TxM (TxEnd B)) : M B :=
  atomically (tx_run env on_begin body).

(** Statements in the caller's transaction.  A write sees the committed rows
    and its own; a plain read sees its snapshot, taken by the first one. *)
Definition err_tx_done : error :=
  sentinel "sql: transaction has already been committed or rolled back".

Definition tx_dead (t : TxState) : TxState :=
  mkTxState (t_begin t) ∅ [] true (t_snap t).

Definition tx_write {A} (env : Env) (st : stmt A) : State World (error + A) := λ w,
  match w_tx w with
  | None => (inl err_tx_done, tick w)
  | Some t =>
    if t_aborted t then pool_action env st w
    else
      let '(res, view) := run_stmt env (w_tick w) (w_tick w) st (tx_view (w_db w) t) in
      (res, set_tx (Some (if is_deadlock res then tx_dead t
                          else tx_update (w_db w) view false t)) (tick w))
  end.

Definition snapshot (sv : Server) (db : DB) (t : TxState) : gmap UUID row :=
  if sv_repeatable sv then default (d_msgs db) (t_snap t) else d_msgs db.

Definition with_snap (m : gmap UUID row) (t : TxState) : TxState :=
  mkTxState (t_begin t) (t_msgs t) (t_notify t) (t_aborted t) (Some m).

Definition tx_read {A} (env : Env) (sv : Server) (st : stmt A) : State World (error + A) := λ w,
  match w_tx w with
  | None => (inl err_tx_done, tick w)
  | Some t =>
    if t_aborted t then pool_action env st w
    else
      let snap := snapshot sv (w_db w) t in
      let '(res, _) := run_stmt env (w_tick w) (w_tick w) st (set_msgs (snap ∪ t_msgs t) (w_db w)) in
      (res, set_tx (Some (if is_deadlock res then tx_dead t else with_snap snap t)) (tick w))
  end.

Definition exec_write {A} (env : Env) (q : querier) (st : stmt A) : M (error + A) :=
  match q with poolQuerier => exec_pool env st | txQuerier => atomically (tx_write env st) end.
Definition exec_read {A} (env : Env) (sv : Server) (q : querier) (st : stmt A) : M (error + A) :=
  match q with poolQuerier => exec_pool env st | txQuerier => atomically (tx_read env sv st) end.

(** ** Operations of Store *)

Definition encodeHeaders (h : Headers) : gmap string string :=
  match h with None => ∅ | Some m => m end.
Definition decodeHeaders (b : gmap string string) : Headers :=
  if bool_decide (b = ∅) then None else Some b.

(** Status is scanned and not copied: it stays "". *)
Definition scanMessage (id : UUID) (r : row) : InboundMessage :=
  {| im_ID := id;
     im_Type := r_event_type r;
     im_Payload := r_payload r;
     im_Headers := decodeHeaders (r_headers r);
     im_IdempotencyKey := coalesce_empty (r_idempotency_key r);
     im_Attempt := r_attempt r;
     im_MaxAttempts := r_max_attempts r;
     im_EnqueuedAt := r_created_at r;
     im_ScheduledAt := r_process_at r;
     im_LastError := coalesce_empty (r_last_error r);
     im_Status := None |}.

Definition as_mysql (e : error) : option Z :=
  match e with MySQLError n _ => Some n | _ => None end.

Definition isDuplicateErr (err : error) : bool :=
  match errors_As as_mysql (Some err) with Some n => n =? mysqlErrDupEntry | None => false end.

Definition wrapErr (prefix : string) (err : option error) : option error :=
  match err with
  | None => None
  | Some e => if errors_Is (Some e) "sql: no rows in result set" then Some e
              else Some (Errorf_w prefix e)
  end.

Section Store.
Context (env : Env) (sv : Server).

(** [s.execer(tx)] *)
Definition execer (tx : Tx) : querier :=
  if Tx_IsZero tx then poolQuerier
  else match tx with TxOwn => txQuerier | _ => poolQuerier end.

Definition newID : M UUID := atomically (λ w,
  (match e_v7 env (w_tick w) with Some u => u | None => e_v4 env (w_tick w) end, tick w)).

Definition pickShard : M Z := rand_IntN env numClaimShards.

(** *** Enqueue *)

Definition findByIdempotency (q : querier) (eventType key : string) : M (error + InboundMessage) :=
  r ← exec_read env sv q (Stmt.findByIdemSQL sv eventType key);
  mret (match r with
        | inl e => inl (Errorf_w "tickr/mysql: fetch by idempotency key" e)
        | inr None => inl (Errorf_w "tickr/mysql: fetch by idempotency key" sql_ErrNoRows)
        | inr (Some (id, r)) => inr (scanMessage id r)
        end).

Definition findByID (q : querier) (id : MessageID) : M (error + InboundMessage) :=
  r ← exec_read env sv q (Stmt.findByIDSQL sv id);
  mret (match r with
        | inl e => inl e
        | inr None => inl sql_ErrNoRows
        | inr (Some (id, r)) => inr (scanMessage id r)
        end).

Definition Enqueue (tx : Tx) (p : EnqueueParams) : M (option InboundMessage * option error) :=
  let ex := execer tx in
  id ← newID;
  processAt ← (if IsZero (ep_ProcessAt p) then time_Now env else mret (ep_ProcessAt p));
  let maxAttempts := if ep_MaxAttempts p <=? 0 then 10 else ep_MaxAttempts p in
  shard ← pickShard;
  r ← exec_write env ex (Stmt.enqueueSQL sv id (ep_EventType p) (ep_Payload p)
        (encodeHeaders (ep_Headers p)) (nullif_empty (ep_IdempotencyKey p))
        maxAttempts processAt shard);
  match r with
  | inl err =>
    if isDuplicateErr err && negb (bool_decide (ep_IdempotencyKey p = ""%string)) then
      existing ← findByIdempotency ex (ep_EventType p) (ep_IdempotencyKey p);
      mret (match existing with
            | inl ferr => (None, Some ferr)
            | inr m => (Some m, Some (ErrDuplicate (im_ID m) (ep_EventType p) (ep_IdempotencyKey p)))
            end)
    else mret (None, Some (Errorf_w "tickr/mysql: enqueue" err))
  | inr _ =>
    found ← findByID ex id;
    mret (match found with inl e => (None, Some e) | inr m => (Some m, None) end)
  end.

Fixpoint enqueue_loop (tx : Tx) (ps : list EnqueueParams) (out : list (option InboundMessage))
    (firstErr : option error) : M (list (option InboundMessage) * option error) :=
  match ps with
  | [] => mret (out, firstErr)
  | p :: ps =>
    '(msg, err) ← Enqueue tx p;
    match err with
    | Some e =>
      if IsDuplicate (Some e) then enqueue_loop tx ps (out ++ [msg]) firstErr
      else enqueue_loop tx ps (out ++ [None])
             (match firstErr with None => Some e | Some _ => firstErr end)
    | None => enqueue_loop tx ps (out ++ [msg]) firstErr
    end
  end.

Definition EnqueueBatch (tx : Tx) (ps : list EnqueueParams)
    : M (list (option InboundMessage) * option error) := enqueue_loop tx ps [] None.

(** *** Claim *)

(** The error of appendHistory is dropped. *)
Definition appendHistory (id : MessageID) (from to : Status) (attempt : Z)
    (errStr workerID : string) : TxM unit :=
  _ ← tx_exec env (Stmt.appendHistorySQL sv id from to attempt errStr workerID);
  mret ().

Definition selectClaimIDs (p : ClaimParams) (batch : Z) (shard : option Z)
    : TxM (error + list UUID) :=
  now ← tx_now env;
  r ← tx_exec env (Stmt.selectClaimSQL sv now (cp_EventTypes p) shard batch);
  mret (match r with
        | inl e => inl (Errorf_w "tickr/mysql: claim select" e)
        | inr ids => inr ids
        end).

(** From the UPDATE of the selected ids to the commit. *)
Definition claim_ids (p : ClaimParams) (ids : list UUID)
    : TxM (TxEnd (list InboundMessage * option error)) :=
  now ← tx_now env;
  let until := now + cp_Lease p in
  r ← tx_exec env (Stmt.claimUpdateSQL sv (cp_WorkerID p) until ids);
  match r with
  | inl e => mret (TxReturn ([], Some (Errorf_w "tickr/mysql: claim update" e)))
  | inr _ =>
    f ← tx_exec env (Stmt.claimFetchSQL sv ids);
    match f with
    | inl e => mret (TxReturn ([], Some (Errorf_w "tickr/mysql: claim fetch" e)))
    | inr rows =>
      let out := (λ ir, scanMessage ir.1 ir.2) <$> rows in
      _ ← for_each (λ msg, appendHistory (im_ID msg) StatusHandling StatusHandling
                     (im_Attempt msg) "" (cp_WorkerID p)) out;
      mret (TxCommit (λ err, match err with
                             | Some e => ([], Some (Errorf_w "tickr/mysql: claim commit" e))
                             | None => (out, None)
                             end))
    end
  end.

Definition claim_body (p : ClaimParams) (batch : Z)
    : TxM (TxEnd (list InboundMessage * option error)) :=
  shard ← tx_rand env numClaimShards;
  r1 ← selectClaimIDs p batch (Some shard);
  match r1 with
  | inl e => mret (TxReturn ([], Some e))
  | inr ids1 =>
    r ← match ids1 with
        | [] => selectClaimIDs p batch None
        | _ => mret (inr ids1)
        end;
    match r with
    | inl e => mret (TxReturn ([], Some e))
    | inr [] => mret (TxCommit (λ err, ([], err)))
    | inr ids => claim_ids p ids
    end
  end.

Definition Claim (p : ClaimParams) : M (list InboundMessage * option error) :=
  let batch := if cp_Batch p <=? 0 then 100 else cp_Batch p in
  match cp_EventTypes p with
  | [] => mret ([], None)
  | _ => in_tx env (λ e, ([], Some (Errorf_w "tickr/mysql: begin claim tx" e))) (claim_body p batch)
  end.

(** *** Acknowledgement *)

Fixpoint batch_succeed_loop (ps : list BatchSucceedParam) : TxM (TxEnd (option error)) :=
  match ps with
  | [] => mret (TxCommit id)
  | p :: ps =>
    r ← tx_exec env (Stmt.batchSucceedSQL sv (bs_MessageID p) (bs_Attempt p));
    match r with
    | inl e => mret (TxReturn (Some (Errorf_w "tickr/mysql: batch succeed update" e)))
    | inr _ =>
      _ ← appendHistory (bs_MessageID p) StatusHandling StatusSuccess (bs_Attempt p) ""
            (bs_WorkerID p);
      batch_succeed_loop ps
    end
  end.

Definition BatchSucceed (params : list BatchSucceedParam) : M (option error) :=
  match params with
  | [] => mret None
  | _ => in_tx env (λ e, Some (Errorf_w "tickr/mysql: batch succeed begin" e))
           (batch_succeed_loop params)
  end.

(** The shape of the single acknowledgements: one UPDATE, one history row,
    commit. *)
Definition update_and_log (pfx : string) (st : stmt unit) (id : MessageID) (from to : Status)
    (attempt : Z) (errStr workerID : string) : TxM (TxEnd (option error)) :=
  r ← tx_exec env st;
  match r with
  | inl e => mret (TxReturn (Some (Errorf_w pfx e)))
  | inr _ =>
    _ ← appendHistory id from to attempt errStr workerID;
    mret (TxCommit (λ err, err))
  end.

Definition Succeed (id : MessageID) (attempt : Z) (workerID : string) : M (option error) :=
  in_tx env (λ e, Some (Errorf_w "tickr/mysql: succeed begin" e))
    (update_and_log "tickr/mysql: succeed update" (Stmt.succeedSQL sv id workerID)
       id StatusHandling StatusSuccess attempt "" workerID).

Definition Fail_ (p : FailParams) : M (option error) :=
  in_tx env (λ e, Some (Errorf_w "tickr/mysql: fail begin" e))
    (if fp_Dead p then
       update_and_log "tickr/mysql: fail->dead"
         (Stmt.failDeadSQL sv (fp_MessageID p) (fp_WorkerID p) (fp_Err p))
         (fp_MessageID p) StatusHandling StatusDead (fp_Attempt p) (fp_Err p) (fp_WorkerID p)
     else
       update_and_log "tickr/mysql: fail->retry"
         (Stmt.failRetrySQL sv (fp_MessageID p) (fp_WorkerID p) (fp_Err p) (fp_NextRetryAt p))
         (fp_MessageID p) StatusHandling StatusRetrying (fp_Attempt p) (fp_Err p) (fp_WorkerID p)).

Definition ReleaseShutdown (id : MessageID) (attempt : Z) (workerID reason : string)
    : M (option error) :=
  in_tx env Some
    (update_and_log "tickr/mysql: release-shutdown" (Stmt.releaseShutdownSQL sv id workerID)
       id StatusHandling StatusRetrying attempt reason workerID).

Definition Extend (id : MessageID) (workerID : string) (until : Time) : M (bool * option error) :=
  r ← exec_pool env (Stmt.extendSQL sv id workerID until);
  mret (match r with
        | inl e => (false, Some (Errorf_w "tickr/mysql: extend" e))
        | inr n => (0 <? n, None)
        end).

(** *** History, dead letters, maintenance *)

Definition scanTransition (h : hist) : Transition :=
  {| tr_MessageID := h_message_id h; tr_Seq := h_seq h; tr_From := h_from_status h;
     tr_To := h_to_status h; tr_Attempt := h_attempt h;
     tr_Error := coalesce_empty (h_error h); tr_WorkerID := coalesce_empty (h_worker_id h);
     tr_At := h_at h |}.

Definition History (id : MessageID) : M (list Transition * option error) :=
  r ← exec_pool env (Stmt.historySQL sv id);
  mret (match r with
        | inl e => ([], Some (Errorf_w "tickr/mysql: history" e))
        | inr hs => (scanTransition <$> hs, None)
        end).

Definition ListDead (eventType : string) (after : Time) (limit : Z)
    : M (list InboundMessage * option error) :=
  let limit := if limit <=? 0 then 50 else limit in
  r ← exec_pool env (Stmt.listDeadSQL sv eventType after limit);
  mret (match r with
        | inl e => ([], Some (Errorf_w "tickr/mysql: list dead" e))
        | inr rows => ((λ ir, scanMessage ir.1 ir.2) <$> rows, None)
        end).

Definition Requeue (id : MessageID) (processAt : Time) : M (option error) :=
  in_tx env Some
    (update_and_log "tickr/mysql: requeue" (Stmt.requeueSQL sv id processAt)
       id StatusDead StatusCreated 0 "admin requeue" "").

Definition exec_count (pfx : string) (st : stmt Z) : M (Z * option error) :=
  r ← exec_pool env st;
  mret (match r with inl e => (0, Some (Errorf_w pfx e)) | inr n => (n, None) end).

Definition ReclaimExpired (limit : Z) : M (Z * option error) :=
  exec_count "tickr/mysql: reclaim" (Stmt.reclaimSQL sv (if limit <=? 0 then 500 else limit)).

Definition PurgeTerminal (before : Time) (limit : Z) : M (Z * option error) :=
  exec_count "tickr/mysql: purge" (Stmt.purgeSQL before (if limit <=? 0 then 5000 else limit)).

Definition PurgeHistory (before : Time) (limit : Z) : M (Z * option error) :=
  exec_count "tickr/mysql: purge history"
    (Stmt.purgeHistorySQL before (if limit <=? 0 then 5000 else limit)).

(** The loop of Stats over the groups. *)
Definition stats_add (acc : Stats) (g : string * Status * Z) : Stats :=
  let '(et, st, n) := g in
  {| ByStatus := <[st := default 0 (ByStatus acc !! st) + n]> (ByStatus acc);
     ByEventType := <[et := <[st := n]> (default ∅ (ByEventType acc !! et))]> (ByEventType acc);
     SampledAt := SampledAt acc |}.

Definition GetStats : M (Stats * option error) :=
  r ← exec_pool env (Stmt.statsSQL sv);
  now ← time_Now env;
  mret (match r with
        | inl e => (mkStats ∅ ∅ 0, Some (Errorf_w "tickr/mysql: stats" e))
        | inr groups => (foldl stats_add (mkStats ∅ ∅ now) groups, None)
        end).
End Store.
