(* ===== verification/MySQLFacts.v ===== *)
(** * The MySQL adapter: row moves, column types, transactions

    [row_move] is what the adapter's statements do to one row, under the labels
    of file Lifecycle; [mysql_step] adds the strict column check.  [evolves L]
    says that a database changed along such steps with labels in [L] and is
    still well formed and typed; every statement whose labels are in [L] evolves
    the database, a transaction of the adapter does so whichever statements
    fail, and so does every action of every operation, under the labels the
    operation promises ([mysql_safe_op]). *)

From S2P Require Import Prelude GoErrors GoFloat Message World Postgres Lifecycle PostgresLogic PostgresFacts Demo Fleet MySQL.

(** ** Moves of one row *)

Inductive row_move : label → row → row → Prop :=
| mv_claim now worker until r :
    pending (r_status r) = true → row_move (LClaim worker) r (Stmt.claim_row now worker until r)
| mv_succeed now r :
    r_status r = StatusHandling → row_move (LSucceed (r_attempt r)) r (Stmt.success_row now r)
| mv_retry now err at_ r :
    r_status r = StatusHandling →
    row_move (LRetry (r_attempt r)) r (Stmt.retry_row now err at_ r)
| mv_dead now err r :
    r_status r = StatusHandling → row_move (LDead (r_attempt r)) r (Stmt.dead_row now err r)
| mv_release now r :
    r_status r = StatusHandling → row_move (LRelease (r_attempt r)) r (Stmt.release_row now r)
| mv_extend worker now until r :
    r_status r = StatusHandling → row_move (LExtend worker) r (Stmt.extend_row now until r)
| mv_reclaim now r until :
    r_status r = StatusHandling → r_claimed_until r = Some until → until < now →
    row_move (LReclaim now) r (Stmt.reclaim_row now r)
| mv_requeue now at_ r :
    r_status r = StatusDead → row_move LRequeue r (Stmt.requeue_row now at_ r).

Inductive mysql_step : label → option row → option row → Prop :=
| ms_enqueue et payload hdrs idem maxAttempts processAt shard now :
    0 < maxAttempts → idem ≠ Some ""%string →
    row_error (SQL.new_row et payload hdrs idem maxAttempts processAt shard now) = None →
    mysql_step LEnqueue None
      (Some (SQL.new_row et payload hdrs idem maxAttempts processAt shard now))
| ms_move l r r' : row_move l r r' → row_error r' = None → mysql_step l (Some r) (Some r')
| ms_purge before r t :
    Terminal (r_status r) = true → r_completed_at r = Some t → t < before →
    mysql_step (LPurge before) (Some r) None.

#[export] Hint Constructors row_move mysql_step : tickr.

(** Any number of steps whose labels satisfy [L]. *)
Definition mysql_steps (L : label → Prop) : option row → option row → Prop :=
  rtc (λ x y, ∃ l, L l ∧ mysql_step l x y).

Lemma mysql_steps_once (L : label → Prop) l x y : L l → mysql_step l x y → mysql_steps L x y.
Proof. intros. apply rtc_once. eauto. Qed.

(** The documented status machine, but for the release, which restores CREATED
    when it gives back the first attempt. *)
Inductive mysql_life : label → view → view → Prop :=
| ml_step l x y : (∀ n, l ≠ LRelease n) → life_step l x y → mysql_life l x y
| ml_release n :
    mysql_life (LRelease n) (Some (StatusHandling, n))
      (Some (if 1 <? n then StatusRetrying else StatusCreated, Z.max 0 (n - 1))).

Lemma mysql_step_life l x y :
  mysql_step l x y → mysql_life l (row_view x) (row_view y) ∨ row_view x = row_view y.
Proof.
  destruct 1 as [| l r r' Hm _|]; simpl; [by left; constructor; [|constructor]| |].
  2:{ left. constructor; [done|]. constructor. by apply terminal_cases. }
  destruct Hm; simpl; try match goal with H : r_status _ = _ |- _ => rewrite H end; [..|by right| |];
    try (left; constructor; [done|]; by eauto with tickr).
  left. rewrite Z.max_comm. apply ml_release.
Qed.

(** ** Well-formed, typed rows *)

(** As in the PostgreSQL adapter, except that a terminal row keeps the worker
    and the lease of its last attempt. *)
Definition mysql_wf (r : row) : Prop :=
  0 ≤ r_attempt r ∧ 0 < r_max_attempts r ∧ r_idempotency_key r ≠ Some ""%string ∧
  match r_status r with
  | StatusCreated | StatusRetrying =>
    r_claimed_by r = None ∧ r_claimed_until r = None ∧ r_completed_at r = None
  | StatusHandling =>
    1 ≤ r_attempt r ∧ is_Some (r_claimed_by r) ∧ is_Some (r_claimed_until r) ∧
    r_completed_at r = None
  | StatusSuccess | StatusDead =>
    is_Some (r_claimed_by r) ∧ is_Some (r_claimed_until r) ∧ is_Some (r_completed_at r)
  | StatusFailed => False
  end.

Definition row_ok (r : row) : Prop := mysql_wf r ∧ row_error r = None.

Definition opt_ok (o : option row) : Prop := ∀ r, o = Some r → row_ok r.

Lemma row_move_wf l r r' : row_move l r r' → mysql_wf r → mysql_wf r'.
Proof.
  unfold mysql_wf. destruct 1; intros Hwf.
  all: try match goal with H : pending _ = true |- _ => apply pending_cases in H as [H|H] end.
  all: try match goal with H : r_status _ = _ |- _ => rewrite H in * end.
  all: simpl; destruct_and?; try (split_and!; eauto; lia).
  - destruct (Z.ltb_spec 1 (r_attempt r)); split_and!; done || lia.
  - match goal with H : r_status _ = _ |- _ => rewrite H end. split_and!; eauto.
Qed.

Lemma mysql_step_ok l x y : mysql_step l x y → opt_ok x → opt_ok y.
Proof.
  destruct 1; intros Hx r0 [= <-]; (split; [|done]).
  - unfold mysql_wf. simpl. split_and!; done || lia.
  - eapply row_move_wf; [done|]. by apply (Hx r).
Qed.

Lemma mysql_steps_ok L x y : mysql_steps L x y → opt_ok x → opt_ok y.
Proof. induction 1 as [|a b c (l & _ & ?) _ IH]; eauto using mysql_step_ok. Qed.

(** What a move keeps: the columns of the unique key. *)
Definition row_key (r : row) := (r_event_type r, r_idempotency_key r).

Lemma row_move_key l r r' : row_move l r r' → row_key r' = row_key r.
Proof. by destruct 1. Qed.

(** ** Evolution of the database *)

Section Evolves.
Context (sv : Server).

(** Rows are pairwise distinct on both unique keys. *)
Definition keys_unique (m : gmap UUID row) : Prop :=
  ∀ i j ri rj, i ≠ j → m !! i = Some ri → m !! j = Some rj →
    Stmt.ci sv i j = false ∧ Stmt.key_collides sv ri rj = false.

Definition msgs_ok (m : gmap UUID row) : Prop :=
  (∀ i, opt_ok (m !! i)) ∧ keys_unique m.

Definition evolves (L : labels) (db db' : DB) : Prop :=
  (∀ i, mysql_steps (L i) (d_msgs db !! i) (d_msgs db' !! i)) ∧
  (msgs_ok (d_msgs db) → msgs_ok (d_msgs db')).

Context (L : labels).

#[export] Instance evolves_preorder : PreOrder (evolves L).
Proof.
  split; [by intros db; split|]. intros a b c [H1 H2] [H3 H4]. split; [|auto].
  intros i. unfold mysql_steps in *. by etrans; [apply H1|apply H3].
Qed.

Lemma same_msgs_evolves db db' : d_msgs db' = d_msgs db → evolves L db db'.
Proof. intros E. unfold evolves. rewrite E. split; [reflexivity|done]. Qed.

Lemma key_collides_ext r1 r2 r1' r2' :
  row_key r1 = row_key r1' → row_key r2 = row_key r2' →
  Stmt.key_collides sv r1 r2 = Stmt.key_collides sv r1' r2'.
Proof. unfold row_key, Stmt.key_collides. by intros [= -> ->] [= -> ->]. Qed.

(** Every row moved once or stayed. *)
Lemma moves_evolve db m' :
  dom m' = dom (d_msgs db) →
  (∀ i r r', d_msgs db !! i = Some r → m' !! i = Some r' →
     r' = r ∨ ∃ l, L i l ∧ row_move l r r' ∧ row_error r' = None) →
  evolves L db (set_msgs m' db).
Proof.
  intros Hdom H.
  assert (∀ i r', m' !! i = Some r' → ∃ r, d_msgs db !! i = Some r) as Hback.
  { intros i r' Hi. apply elem_of_dom_2 in Hi. rewrite Hdom in Hi. by apply elem_of_dom in Hi. }
  assert (∀ i, mysql_steps (L i) (d_msgs db !! i) (m' !! i)) as Hsteps.
  { intros i. destruct (m' !! i) as [r'|] eqn:E'.
    - destruct (Hback i r' E') as [r E]. rewrite E.
      destruct (H i r r' E E') as [->|(l & ? & ? & ?)]; [reflexivity|].
      eapply mysql_steps_once; eauto with tickr.
    - apply not_elem_of_dom in E'. rewrite Hdom in E'. apply not_elem_of_dom in E'. rewrite E'. reflexivity. }
  split; [done|]. intros [Hok Hu]. split.
  - intros i. eapply mysql_steps_ok; eauto.
  - intros i j ri' rj' Hij Hi Hj.
    destruct (Hback i ri' Hi) as [ri Ei]. destruct (Hback j rj' Hj) as [rj Ej].
    destruct (Hu i j ri rj Hij Ei Ej) as [? Hk]. split; [done|]. rewrite <- Hk.
    apply key_collides_ext.
    + destruct (H i ri ri' Ei Hi) as [->|(l & _ & ? & _)]; [done|by eapply row_move_key].
    + destruct (H j rj rj' Ej Hj) as [->|(l & _ & ? & _)]; [done|by eapply row_move_key].
Qed.

(** ** Statements *)

Lemma first_error_None l : first_error l = None → ∀ o, o ∈ l → o = None.
Proof.
  unfold first_error. induction l as [|[e|] l IH]; simpl.
  - intros _ o Ho. by apply elem_of_nil in Ho.
  - done.
  - intros H o [->|Ho]%elem_of_cons; auto.
Qed.

Lemma update_rows_inr p f db n db' :
  Stmt.update_rows sv p f db = inr (n, db') →
  db' = set_msgs (update_where p f (d_msgs db)) db ∧
  ∀ i r, d_msgs db !! i = Some r → p i r = true → row_error (f r) = None.
Proof.
  unfold Stmt.update_rows. destruct (first_error _) eqn:E; [done|]. intros [= _ <-].
  split; [done|]. intros i r Hi Hp. apply (first_error_None _ E), list_elem_of_fmap.
  exists (i, r). split; [done|]. by apply elem_of_select_where.
Qed.

Lemma update_rows_evolves p f db n db' :
  (∀ i r, d_msgs db !! i = Some r → p i r = true → ∃ l, L i l ∧ row_move l r (f r)) →
  Stmt.update_rows sv p f db = inr (n, db') → evolves L db db'.
Proof.
  intros Hp [-> Herr]%update_rows_inr. apply moves_evolve; [apply dom_update_where|].
  intros i r r' Hi. rewrite lookup_update_where, Hi. simpl. intros [= <-].
  destruct (p i r) eqn:E; [|by left]. right. destruct (Hp i r Hi E) as (l & ? & ?). eauto.
Qed.

Lemma select_where_nil p (m : gmap UUID row) :
  select_where p m = [] → ∀ i r, m !! i = Some r → p i r = false.
Proof.
  intros Hn i r Hi. destruct (p i r) eqn:E; [|done].
  assert ((i, r) ∈ select_where p m) as H by (by apply elem_of_select_where).
  rewrite Hn in H. by apply elem_of_nil in H.
Qed.

Lemma ci_refl a : Stmt.ci sv a a = true.
Proof. by apply bool_decide_eq_true_2. Qed.

Lemma ci_sym a b : Stmt.ci sv a b = Stmt.ci sv b a.
Proof. unfold Stmt.ci. apply bool_decide_ext. split; congruence. Qed.

Lemma key_collides_sym r r' : Stmt.key_collides sv r r' = Stmt.key_collides sv r' r.
Proof.
  unfold Stmt.key_collides. rewrite ci_sym.
  destruct (r_idempotency_key r), (r_idempotency_key r'); [by rewrite (ci_sym s)|done..].
Qed.

(** What a successful INSERT checked. *)
Lemma enqueueSQL_inr id et pl hd idem ma pa sh se db u db' :
  Stmt.enqueueSQL sv id et pl hd idem ma pa sh se db = inr (u, db') →
  let r := SQL.new_row et pl hd idem ma pa sh (s_now se) in
  row_error r = None ∧ db' = set_msgs (<[id := r]> (d_msgs db)) db ∧
  ∀ i r', d_msgs db !! i = Some r' →
    Stmt.ci sv id i = false ∧ Stmt.key_collides sv r r' = false.
Proof.
  unfold Stmt.enqueueSQL. destruct (first_error _) eqn:E; [done|].
  unfold Stmt.duplicate_entry. case_bool_decide as Hn; [|done]. simpl. intros [= _ <-].
  split_and!; [|done|].
  - apply (first_error_None _ E). by right; left.
  - intros i r' Hi. apply orb_false_iff. by apply (select_where_nil _ _ Hn i r').
Qed.

(** The id of an inserted row is new. *)
Lemma unique_fresh (m : gmap UUID row) id (r : row) :
  (∀ i r', m !! i = Some r' → Stmt.ci sv id i = false ∧ Stmt.key_collides sv r r' = false) →
  m !! id = None.
Proof.
  intros H. destruct (m !! id) as [r'|] eqn:E; [|done].
  destruct (H id r' E) as [Hc _]. by rewrite ci_refl in Hc.
Qed.

Lemma keys_unique_insert (m : gmap UUID row) id (r : row) :
  (∀ i r', m !! i = Some r' → Stmt.ci sv id i = false ∧ Stmt.key_collides sv r r' = false) →
  keys_unique m → keys_unique (<[id := r]> m).
Proof.
  intros Hn Hu i j ri rj Hij Hi Hj.
  apply lookup_insert_Some in Hi as [[<- <-]|[Hi0 Hi]];
    apply lookup_insert_Some in Hj as [[<- <-]|[Hj0 Hj]]; [done|by apply Hn| |by apply (Hu i j)].
  rewrite ci_sym, key_collides_sym. by apply Hn.
Qed.

Lemma enqueueSQL_evolves id et pl hd idem ma pa sh se db u db' :
  L id LEnqueue → 0 < ma → idem ≠ Some ""%string →
  Stmt.enqueueSQL sv id et pl hd idem ma pa sh se db = inr (u, db') → evolves L db db'.
Proof.
  intros HL Hma Hid (Herr & -> & Hn)%enqueueSQL_inr.
  pose proof (unique_fresh _ _ _ Hn) as Hfresh.
  assert (∀ i, mysql_steps (L i) (d_msgs db !! i)
    (<[id := SQL.new_row et pl hd idem ma pa sh (s_now se)]> (d_msgs db) !! i)) as Hsteps.
  { intros i. destruct (decide (i = id)) as [->|Hne]; [|rewrite lookup_insert_ne by done; reflexivity].
    rewrite lookup_insert_eq, Hfresh. by eapply mysql_steps_once; [|constructor]. }
  split; [done|]. intros [Hok Hu]. split; [|by apply keys_unique_insert].
  intros i. eapply mysql_steps_ok; eauto.
Qed.

Lemma limited_elem se limit p m i r :
  (∀ l, s_scan se l ≡ₚ l) → i ∈ Stmt.limited se limit p m → m !! i = Some r → p i r = true.
Proof.
  unfold Stmt.limited. intros Hscan Hi%elem_of_take_1 Hr. rewrite Hscan in Hi.
  apply list_elem_of_fmap in Hi as ([i' r'] & -> & [Hi Hp]%elem_of_select_where).
  by simplify_eq/=.
Qed.

Lemma purgeSQL_evolves before limit se db n db' :
  (∀ l, s_scan se l ≡ₚ l) → (∀ i, L i (LPurge before)) →
  Stmt.purgeSQL before limit se db = inr (n, db') → evolves L db db'.
Proof.
  unfold Stmt.purgeSQL. intros Hscan HL [= _ <-].
  assert (∀ i, delete_where (λ i _, bool_decide (i ∈ Stmt.limited se limit (SQL.purgeable before)
    (d_msgs db))) (d_msgs db) !! i = None ∨ delete_where (λ i _, bool_decide (i ∈ Stmt.limited se
    limit (SQL.purgeable before) (d_msgs db))) (d_msgs db) !! i = d_msgs db !! i) as Hsub.
  { intros i. rewrite lookup_delete_where. destruct (d_msgs db !! i); simpl; [|auto].
    case_bool_decide; auto. }
  split; simpl.
  - intros i. rewrite lookup_delete_where. destruct (d_msgs db !! i) as [r|] eqn:E; simpl; [|reflexivity].
    case_bool_decide as Hi; [|reflexivity]. apply (mysql_steps_once _ (LPurge before)); [done|].
    apply (limited_elem _ _ _ _ _ _ Hscan Hi) in E. unfold SQL.purgeable, lt_opt in E. bools.
    destruct (r_completed_at r) eqn:?; [|done]. eapply ms_purge; [done..|lia].
  - intros [Hok Hu]. split.
    + intros i. destruct (Hsub i) as [->| ->]; [by intros ? [=]|done].
    + intros i j ri rj Hij Hi Hj. destruct (Hsub i) as [E|E], (Hsub j) as [E'|E']; try congruence.
      apply (Hu i j); congruence.
Qed.
End Evolves.

(** ** Transactions of the adapter

    [tx_keeps P body]: the body, started in a transaction state with [P],
    ends in one, whatever its result; [tx_gives P body Q] adds a
    postcondition on the result and the state. *)

Definition tx_gives {A} (P : TxS → Prop) (body : TxM A) (Q : A → TxS → Prop) : Prop :=
  ∀ t, P t → Q (body t).1 (body t).2.
Definition tx_keeps {A} (P : TxS → Prop) (body : TxM A) : Prop := tx_gives P body (λ _, P).

Lemma tx_gives_bind {A B} (P : TxS → Prop) (c : TxM A) (k : A → TxM B) (Q : A → TxS → Prop)
    (S : B → TxS → Prop) :
  tx_gives P c Q → (∀ a, tx_gives (Q a) (k a) S) → tx_gives P (c ≫= k) S.
Proof.
  intros Hc Hk t Ht. specialize (Hc t Ht). unfold mbind, State_bind.
  destruct (c t) as [a t'] eqn:E. by apply Hk.
Qed.

Lemma tx_gives_ret {A} (P : TxS → Prop) (a : A) (Q : A → TxS → Prop) :
  (∀ t, P t → Q a t) → tx_gives P (mret a) Q.
Proof. intros H t. apply H. Qed.

Lemma tx_keeps_for_each {A} (P : TxS → Prop) (f : A → TxM unit) l :
  (∀ x, tx_keeps P (f x)) → tx_keeps P (for_each f l).
Proof. intros Hf t. apply for_each_inv. intros x s _. apply Hf. Qed.

Section Ops.
Context (env : Env) `{!EnvOK env} (sv : Server) (L : labels).

Definition stmt_ok {A} (st : stmt A) : Prop := ∀ b n db a db',
  msgs_ok sv (d_msgs db) → st (sql_env env b n) db = inr (a, db') → evolves sv L db db'.

Lemma read_ok {A} (st : stmt A) :
  (∀ se db a db', st se db = inr (a, db') → d_msgs db' = d_msgs db) → stmt_ok st.
Proof. intros H b n db a db' _ Hst. eapply same_msgs_evolves, H, Hst. Qed.

Lemma exec_update_ok p f :
  (∀ now i r, p i r = true → ∃ l, L i l ∧ row_move l r (f now r)) → stmt_ok (Stmt.exec_update sv p f).
Proof.
  intros H b n db [] db' _. unfold Stmt.exec_update.
  destruct (Stmt.update_rows _ _ _ _) as [?|[k db1]] eqn:E; [done|]. intros [= <-].
  eapply update_rows_evolves; [|done]. eauto.
Qed.

(** An UPDATE of the rows of one id in HANDLING, labelled by their attempt. *)
Lemma handling_update_ok p (f : Time → row → row) (lab : Z → label) :
  (∀ i r, p i r = true → r_status r = StatusHandling ∧ L i (lab (r_attempt r))) →
  (∀ now r, r_status r = StatusHandling → row_move (lab (r_attempt r)) r (f now r)) →
  stmt_ok (Stmt.exec_update sv p f).
Proof.
  intros Hp Hf. apply exec_update_ok. intros now i r Hi. destruct (Hp i r Hi) as [? ?].
  exists (lab (r_attempt r)). auto.
Qed.

(** The labels of the rows a guard selects. *)
Lemma owned_label id wk (lab : Z → label) :
  (∀ i n, Stmt.ci sv i id = true → L i (lab n)) →
  ∀ i r, Stmt.owned sv id wk i r = true → r_status r = StatusHandling ∧ L i (lab (r_attempt r)).
Proof. intros HL i r. unfold Stmt.owned. intros. bools. auto. Qed.

Lemma held_label id n (lab : Z → label) :
  (∀ i, Stmt.ci sv i id = true → L i (lab n)) →
  ∀ i r, Stmt.held sv id n i r = true → r_status r = StatusHandling ∧ L i (lab (r_attempt r)).
Proof.
  intros HL i r. unfold Stmt.held. intros. bools.
  replace (r_attempt r) with n by lia. auto.
Qed.

Lemma batchSucceedSQL_ok id n :
  (∀ i, Stmt.ci sv i id = true → L i (LSucceed n)) → stmt_ok (Stmt.batchSucceedSQL sv id n).
Proof. intros. apply (handling_update_ok _ _ LSucceed); [by apply held_label|auto with tickr]. Qed.

Lemma succeedSQL_ok id wk :
  (∀ i n, Stmt.ci sv i id = true → L i (LSucceed n)) → stmt_ok (Stmt.succeedSQL sv id wk).
Proof. intros. apply (handling_update_ok _ _ LSucceed); [by apply owned_label|auto with tickr]. Qed.

Lemma failDeadSQL_ok id wk e :
  (∀ i n, Stmt.ci sv i id = true → L i (LDead n)) → stmt_ok (Stmt.failDeadSQL sv id wk e).
Proof. intros. apply (handling_update_ok _ _ LDead); [by apply owned_label|auto with tickr]. Qed.

Lemma failRetrySQL_ok id wk e at_ :
  (∀ i n, Stmt.ci sv i id = true → L i (LRetry n)) → stmt_ok (Stmt.failRetrySQL sv id wk e at_).
Proof. intros. apply (handling_update_ok _ _ LRetry); [by apply owned_label|auto with tickr]. Qed.

Lemma releaseShutdownSQL_ok id wk :
  (∀ i n, Stmt.ci sv i id = true → L i (LRelease n)) → stmt_ok (Stmt.releaseShutdownSQL sv id wk).
Proof. intros. apply (handling_update_ok _ _ LRelease); [by apply owned_label|auto with tickr]. Qed.

Lemma requeueSQL_ok id at_ :
  (∀ i, Stmt.ci sv i id = true → L i LRequeue) → stmt_ok (Stmt.requeueSQL sv id at_).
Proof. intros HL. apply exec_update_ok. intros now i r H. bools. eauto with tickr. Qed.

Lemma extendSQL_ok id wk until :
  (∀ i, Stmt.ci sv i id = true → L i (LExtend wk)) → stmt_ok (Stmt.extendSQL sv id wk until).
Proof.
  intros HL b n db a db' _ H. eapply update_rows_evolves; [|exact H]. intros i r _ Hi.
  destruct (owned_label id wk (λ _, LExtend wk) (λ i _, HL i) i r Hi). eauto with tickr.
Qed.

Lemma reclaimSQL_ok limit : (∀ i t, L i (LReclaim t)) → stmt_ok (Stmt.reclaimSQL sv limit).
Proof.
  intros HL b n db a db' _ H. eapply update_rows_evolves; [|exact H].
  intros i r Hr Hi. cbv beta in Hi. bools.
  apply (limited_elem (sql_env env b n) limit _ _ _ _ (λ l, scan_perm n l) Hi) in Hr.
  unfold Stmt.expired, lt_opt in Hr. bools. destruct (r_claimed_until r) eqn:E; [|done].
  eexists. split; [apply HL|]. eapply mv_reclaim; [done|done|]. simpl in *. lia.
Qed.

Lemma purgeSQL_ok before limit :
  (∀ i, L i (LPurge before)) → stmt_ok (Stmt.purgeSQL before limit).
Proof. intros HL b n db a db' _ H. eapply purgeSQL_evolves; [|done|exact H]. intros l. apply scan_perm. Qed.

Lemma appendHistorySQL_ok id f to n e wk : stmt_ok (Stmt.appendHistorySQL sv id f to n e wk).
Proof.
  apply read_ok. intros se db [] db'. unfold Stmt.appendHistorySQL.
  destruct (hist_error _); [done|]. by intros [= <-].
Qed.

(** *** The state of a transaction begun at [db0] *)

Definition tx_inv (db0 : DB) (t : TxS) : Prop :=
  evolves sv L db0 (ts_db t) ∧ ∀ v, ts_view t = Some v → evolves sv L db0 v.

Context (db0 : DB) (Hdb0 : msgs_ok sv (d_msgs db0)).

Lemma run_stmt_evolves {A} (st : stmt A) b n db :
  stmt_ok st → evolves sv L db0 db → evolves sv L db0 (run_stmt env b n st db).2.
Proof.
  intros Hst Hdb. assert (msgs_ok sv (d_msgs db)) as Hok by (by apply Hdb).
  unfold run_stmt. destruct (e_fault env n); simpl; [|done|].
  all: destruct (st _ _) as [?|[a db']] eqn:E; simpl; [done|]; etrans; eauto.
Qed.

Lemma tx_exec_keeps {A} (st : stmt A) : stmt_ok st → tx_keeps (tx_inv db0) (tx_exec env st).
Proof.
  intros Hst [d [v|] n] [H1 H2]; unfold tx_exec, tx_inv in *; simpl in *.
  - pose proof (run_stmt_evolves st n n v Hst (H2 v eq_refl)).
    destruct (run_stmt env n n st v) as [res v']; simpl in *. split; [done|].
    destruct (is_deadlock res); [done|]. by intros ? [= <-].
  - pose proof (run_stmt_evolves st n n d Hst H1). by destruct (run_stmt env n n st d).
Qed.

Lemma tx_now_keeps : tx_keeps (tx_inv db0) (tx_now env).
Proof. by intros t. Qed.

Lemma tx_rand_keeps k : tx_keeps (tx_inv db0) (tx_rand env k).
Proof. by intros t. Qed.

Lemma appendHistory_keeps id f to n e wk :
  tx_keeps (tx_inv db0) (appendHistory env sv id f to n e wk).
Proof.
  eapply tx_gives_bind; [apply tx_exec_keeps, appendHistorySQL_ok|].
  intros a. by apply tx_gives_ret.
Qed.

Lemma update_and_log_keeps pfx st id f to n e wk :
  stmt_ok st → tx_keeps (tx_inv db0) (update_and_log env sv pfx st id f to n e wk).
Proof.
  intros Hst. eapply tx_gives_bind; [by apply tx_exec_keeps|].
  intros [e'|u]; [by apply tx_gives_ret|].
  eapply tx_gives_bind; [apply appendHistory_keeps|]. intros a. by apply tx_gives_ret.
Qed.

Lemma batch_succeed_keeps ps :
  (∀ p i, p ∈ ps → Stmt.ci sv i (bs_MessageID p) = true → L i (LSucceed (bs_Attempt p))) →
  tx_keeps (tx_inv db0) (batch_succeed_loop env sv ps).
Proof.
  induction ps as [|p ps IH]; intros HL; [by apply tx_gives_ret|].
  eapply tx_gives_bind; [apply tx_exec_keeps, batchSucceedSQL_ok; intros i; apply HL; left|].
  intros [e'|u]; [by apply tx_gives_ret|].
  eapply tx_gives_bind; [apply appendHistory_keeps|]. intros a. apply IH.
  intros q i Hq. apply HL. by right.
Qed.

(** *** Claim

    The UPDATE names ids only; that it moves pending rows follows from the
    SELECT of the same transaction, whose view it sees. *)

Definition picked (ids : list UUID) (v : DB) : Prop :=
  ∀ i, i ∈ ids → ∃ r, d_msgs v !! i = Some r ∧ pending (r_status r) = true.

Definition tx_live (t : TxS) : Prop := tx_inv db0 t ∧ is_Some (ts_view t).

Definition tx_picked (ids : list UUID) (t : TxS) : Prop :=
  tx_inv db0 t ∧ ∃ v, ts_view t = Some v ∧ picked ids v.

Lemma ci_in_elem i l : Stmt.ci_in sv i l = true → ∃ j, j ∈ l ∧ Stmt.ci sv i j = true.
Proof.
  unfold Stmt.ci_in. rewrite existsb_exists. intros (j & Hj & ?). exists j.
  by rewrite list_elem_of_In.
Qed.

(** An IN list of ids of the table selects just these rows. *)
Lemma ci_in_ids m ids i r :
  keys_unique sv m → (∀ j, j ∈ ids → is_Some (m !! j)) → m !! i = Some r →
  Stmt.ci_in sv i ids = true → i ∈ ids.
Proof.
  intros Hu Hids Hi (j & Hj & Hc)%ci_in_elem. destruct (Hids j Hj) as [r' Hr'].
  destruct (decide (i = j)) as [->|Hne]; [done|].
  destruct (Hu i j r r' Hne Hi Hr') as [Hf _]. congruence.
Qed.

Lemma ci_in_picked ids v i r :
  msgs_ok sv (d_msgs v) → picked ids v → d_msgs v !! i = Some r →
  Stmt.ci_in sv i ids = true → pending (r_status r) = true.
Proof.
  intros [_ Hu] Hp Hi Hin.
  assert (i ∈ ids) as Hm.
  { eapply ci_in_ids; [done| |done|done]. intros j Hj. destruct (Hp j Hj) as (? & ? & _). eauto. }
  destruct (Hp i Hm) as (r' & ? & ?). by simplify_eq.
Qed.

Lemma selectClaim_picked se now types sh batch db ids db' :
  Stmt.selectClaimSQL sv now types sh batch se db = inr (ids, db') → db' = db ∧ picked ids db.
Proof.
  unfold Stmt.selectClaimSQL. intros [= <- <-]. split; [done|]. intros i Hi.
  apply list_elem_of_fmap in Hi as ([i' r] & -> & Hin%elem_of_take_1).
  rewrite merge_sort_Permutation in Hin. apply elem_of_select_where in Hin as [? Hc].
  unfold Stmt.claimable in Hc. bools. eauto.
Qed.

Lemma selectClaimIDs_gives p batch sh :
  tx_gives tx_live (selectClaimIDs env sv p batch sh)
    (λ r t, match r with inr ids => tx_live t ∧ tx_picked ids t | inl _ => tx_inv db0 t end).
Proof.
  intros [d v n] [[H1 H2] [v0 Hv]]. simpl in *. subst v.
  unfold selectClaimIDs, tx_now, mbind, State_bind, tx_exec, run_stmt. simpl.
  assert (evolves sv L db0 v0) as Hv0 by auto.
  destruct (e_fault env n); simpl.
  - assert (tx_inv db0 (mkTxS d (Some v0) (S n))) as Hi by (split; [done|by intros ? [= <-]]).
    split; [by split|]. split; [done|]. exists v0. split; [done|].
    by eapply (selectClaim_picked (sql_env env n n)).
  - split; [done|]. intros v. simpl. repeat case_match; by intros [= <-].
  - split; [done|]. intros v. simpl. repeat case_match; by intros [= <-].
Qed.

Lemma claimUpdate_keeps wk until ids :
  (∀ i, L i (LClaim wk)) →
  tx_gives (tx_picked ids) (tx_exec env (Stmt.claimUpdateSQL sv wk until ids)) (λ _, tx_inv db0).
Proof.
  intros HL [d v n] [[H1 H2] (v0 & Hv & Hp)]. simpl in *. subst v.
  specialize (H2 v0 eq_refl). assert (msgs_ok sv (d_msgs v0)) as Hok by (by apply H2).
  assert (evolves sv L db0 (run_stmt env n n (Stmt.claimUpdateSQL sv wk until ids) v0).2) as Hrun.
  { unfold run_stmt, Stmt.claimUpdateSQL. destruct (e_fault env n); simpl; [|done|].
    all: destruct (Stmt.update_rows _ _ _ _) as [?|[k db1]] eqn:E; simpl; [done|].
    all: etrans; [done|]; eapply update_rows_evolves; [|done].
    all: intros i r Hi Hin; exists (LClaim wk); split; [done|]; apply mv_claim; by eapply ci_in_picked. }
  unfold tx_exec; simpl. destruct (run_stmt _ _ _ _ _) as [res v']; simpl in *.
  split; simpl; [done|]. destruct (is_deadlock res); [done|]. by intros ? [= <-].
Qed.

Lemma claimFetchSQL_ok ids : stmt_ok (Stmt.claimFetchSQL sv ids).
Proof. apply read_ok. by intros se db a db' [= <- <-]. Qed.

Lemma claim_ids_keeps p ids :
  (∀ i, L i (LClaim (cp_WorkerID p))) →
  tx_gives (tx_picked ids) (claim_ids env sv p ids) (λ _, tx_inv db0).
Proof.
  intros HL. eapply (tx_gives_bind _ _ _ (λ _, tx_picked ids)); [by intros t|]. intros now.
  eapply tx_gives_bind; [by apply claimUpdate_keeps|].
  intros [e|u]; [by apply tx_gives_ret|].
  eapply tx_gives_bind; [apply tx_exec_keeps, claimFetchSQL_ok|].
  intros [e|rows]; [by apply tx_gives_ret|].
  eapply tx_gives_bind; [apply tx_keeps_for_each; intros; apply appendHistory_keeps|].
  intros a. by apply tx_gives_ret.
Qed.

Lemma tx_live_inv t : tx_live t → tx_inv db0 t.
Proof. by intros [? _]. Qed.

Lemma claim_body_keeps p batch :
  (∀ i, L i (LClaim (cp_WorkerID p))) →
  tx_gives tx_live (claim_body env sv p batch) (λ _, tx_inv db0).
Proof.
  intros HL. eapply (tx_gives_bind _ _ _ (λ _, tx_live)); [by intros t|]. intros shard.
  eapply tx_gives_bind; [apply selectClaimIDs_gives|].
  intros [e|ids1]; [by apply tx_gives_ret|].
  destruct ids1 as [|i1 ids1]; cbv beta iota.
  - eapply (tx_gives_bind _ _ _ (λ r t, match r with
      | inr ids => tx_live t ∧ tx_picked ids t | inl _ => tx_inv db0 t end)).
    + intros t [Ht _]. by apply selectClaimIDs_gives.
    + intros [e|[|i2 ids2]]; [by apply tx_gives_ret| |].
      * apply tx_gives_ret. intros t [Ht _]. by apply tx_live_inv.
      * intros t [_ Ht]. by apply claim_ids_keeps.
  - eapply (tx_gives_bind _ _ _ (λ r t, r = inr (i1 :: ids1) ∧ tx_picked (i1 :: ids1) t)).
    + apply tx_gives_ret. by intros t [_ Ht].
    + intros r t [-> Ht]. by apply claim_ids_keeps.
Qed.
End Ops.
