(* ===== verification/MySQLFleet.v ===== *)
(** * Any number of processes over one MySQL database

    [mysql_prog] runs the storage API on the MySQL adapter and [mysql_label] is
    what it promises of an operation: the labels it may put on a row.  Every
    atomic action of every operation (a statement on the pool or in the caller's
    transaction, or a whole transaction of the adapter) keeps the tables well
    formed, typed and unique on their keys, and moves rows along [mysql_step]
    under these labels; so does every step of every interleaving of any number
    of operations ([mysql_step_fleet]). *)

From S2P Require Import Prelude GoErrors GoFloat Message World Postgres Lifecycle PostgresLogic PostgresFacts Demo Fleet MySQL MySQLFacts.

(** The storage API on this adapter, which has no Notifier. *)
Definition mysql_prog (env : Env) (sv : Server) (o : op) : prog unit :=
  match o with
  | OpEnqueue tx p => discard (Enqueue env sv tx p)
  | OpEnqueueBatch tx ps => discard (EnqueueBatch env sv tx ps)
  | OpClaim p => discard (Claim env sv p)
  | OpBatchSucceed ps => discard (BatchSucceed env sv ps)
  | OpSucceed id n w => discard (Succeed env sv id n w)
  | OpFail p => discard (Fail_ env sv p)
  | OpReleaseShutdown id n w reason => discard (ReleaseShutdown env sv id n w reason)
  | OpExtend id w until => discard (Extend env sv id w until)
  | OpHistory id => discard (History env sv id)
  | OpListDead et after limit => discard (ListDead env sv et after limit)
  | OpRequeue id at_ => discard (Requeue env sv id at_)
  | OpReclaimExpired limit => discard (ReclaimExpired env sv limit)
  | OpPurgeTerminal before limit => discard (PurgeTerminal env before limit)
  | OpPurgeHistory before limit => discard (PurgeHistory env before limit)
  | OpStats => discard (GetStats env sv)
  | OpNotify _ _ => mret ()
  end.

(** The labels an operation may put on row [i].  Ids are compared by the
    collation; an acknowledgement of the worker's own claim does not look at
    the attempt, a batched one does. *)
Inductive mysql_label (sv : Server) (i : UUID) : op → label → Prop :=
| mol_enqueue tx p : mysql_label sv i (OpEnqueue tx p) LEnqueue
| mol_enqueueBatch tx ps : mysql_label sv i (OpEnqueueBatch tx ps) LEnqueue
| mol_claim p : mysql_label sv i (OpClaim p) (LClaim (cp_WorkerID p))
| mol_batchSucceed ps p :
    p ∈ ps → Stmt.ci sv i (bs_MessageID p) = true →
    mysql_label sv i (OpBatchSucceed ps) (LSucceed (bs_Attempt p))
| mol_succeed id n w k :
    Stmt.ci sv i id = true → mysql_label sv i (OpSucceed id n w) (LSucceed k)
| mol_fail p k :
    Stmt.ci sv i (fp_MessageID p) = true →
    mysql_label sv i (OpFail p) (if fp_Dead p then LDead k else LRetry k)
| mol_release id n w reason k :
    Stmt.ci sv i id = true → mysql_label sv i (OpReleaseShutdown id n w reason) (LRelease k)
| mol_extend id w until :
    Stmt.ci sv i id = true → mysql_label sv i (OpExtend id w until) (LExtend w)
| mol_requeue id at_ :
    Stmt.ci sv i id = true → mysql_label sv i (OpRequeue id at_) LRequeue
| mol_reclaim limit now : mysql_label sv i (OpReclaimExpired limit) (LReclaim now)
| mol_purge before limit : mysql_label sv i (OpPurgeTerminal before limit) (LPurge before).

#[export] Hint Constructors mysql_label : tickr.

Abbreviation mysql_labels sv o := (λ i, mysql_label sv i o).

Lemma mysql_life_cases l u v :
  mysql_life l u v →
  match l with
  | LRelease n => u = Some (StatusHandling, n) ∧ ∃ st k, v = Some (st, k) ∧ st ≠ StatusHandling
  | _ => life_step l u v
  end.
Proof.
  destruct 1 as [l u v Hne H|n].
  - destruct l; try done. by destruct (Hne attempt).
  - split; [done|]. do 2 eexists. split; [done|]. by destruct (1 <? n).
Qed.

(** The labels of one operation make at most one edge of the lifecycle. *)
Lemma mysql_label_one_shot sv i o : one_shot mysql_life (mysql_label sv i o).
Proof.
  intros l l' u v v' H H' Hs%mysql_life_cases Hs'%mysql_life_cases.
  destruct H; inversion H'; subst; repeat case_match; subst;
    first [destruct Hs as (-> & ? & ? & -> & ?); destruct Hs' as ([= ? ?] & _); done
          |inversion Hs; subst; inversion Hs'; intuition congruence].
Qed.

Section Safe.
Context (env : Env) `{HE : !EnvOK env} (sv : Server) (L : labels).

(** The caller's transaction holds fresh rows with distinct keys. *)
Definition tx_rows_ok (t : TxState) : Prop :=
  (∀ i r, t_msgs t !! i = Some r → mysql_step LEnqueue None (Some r)) ∧ keys_unique sv (t_msgs t).

Definition mysql_inv (w : World) : Prop :=
  msgs_ok sv (d_msgs (w_db w)) ∧ ∀ t, w_tx w = Some t → tx_rows_ok t.

Definition mysql_rel (w w' : World) : Prop := evolves sv L (w_db w) (w_db w').

#[export] Instance mysql_worldrel : WorldRel mysql_inv mysql_rel.
Proof.
  split; [|by intros w Hw; split].
  split; [intros w; unfold mysql_rel; reflexivity|].
  intros a b c. unfold mysql_rel. intros. by etrans.
Qed.

Abbreviation ok := (ok mysql_inv mysql_rel).

Lemma inv_db w db n : mysql_inv w → evolves sv L (w_db w) db →
  mysql_inv (mkWorld db (w_tx w) n) ∧ mysql_rel w (mkWorld db (w_tx w) n).
Proof. intros [H1 H2] He. split; [split; [by apply He|done]|done]. Qed.

Lemma inv_tx w t n : mysql_inv w → (∀ t', t = Some t' → tx_rows_ok t') →
  mysql_inv (mkWorld (w_db w) t n) ∧ mysql_rel w (mkWorld (w_db w) t n).
Proof. intros [H1 H2] He. split; [done|]. unfold mysql_rel; simpl. reflexivity. Qed.

Lemma inv_tick w : mysql_inv w → mysql_inv (tick w) ∧ mysql_rel w (tick w).
Proof. by apply wr_tick. Qed.

Lemma stmt_ok_in {A} (st : stmt A) : stmt_ok env sv L st → stmt_in env mysql_inv mysql_rel st.
Proof. intros Hst w b a db' Hw _ H. apply (inv_db w); [done|]. eapply Hst; [apply Hw|done]. Qed.

Lemma ok_pool {A} (st : stmt A) : stmt_ok env sv L st → ok (exec_pool env st).
Proof. intros H. by apply (safe_exec_pool env mysql_inv mysql_rel), stmt_ok_in. Qed.

Lemma pool_action_ok {A} (st : stmt A) w : stmt_ok env sv L st → mysql_inv w →
  mysql_inv (pool_action env st w).2 ∧ mysql_rel w (pool_action env st w).2.
Proof.
  intros H Hw. pose proof (run_stmt_in env mysql_inv mysql_rel st (w_tick w) w (stmt_ok_in st H) Hw (le_n _)).
  unfold pool_action. by destruct (run_stmt _ _ _ _ _).
Qed.

(** A transaction of the adapter. *)
Lemma ok_in_tx {B} (on_begin : error → B) body :
  (∀ db, msgs_ok sv (d_msgs db) → tx_gives (tx_live sv L db) body (λ _, tx_inv sv L db)) →
  ok (in_tx env on_begin body).
Proof.
  intros Hbody. apply safe_atomically. intros w Hw.
  assert (∀ v, mysql_inv v ∧ mysql_rel w v → mysql_inv v ∧ mysql_rel w v ∧ True) as aux by tauto.
  unfold tx_run. destruct (e_fault env (w_tick w)); [|by apply aux, inv_tick..].
  set (t0 := mkTxS (w_db w) (Some (w_db w)) (S (w_tick w))).
  assert (tx_live sv L (w_db w) t0) as Ht0.
  { split; [split; [reflexivity|]|done]. intros v [= <-]. reflexivity. }
  destruct (Hbody (w_db w) (proj1 Hw) t0 Ht0) as [H1 H2].
  destruct (body t0) as [r t]; simpl in *.
  assert (evolves sv L (w_db w) (default (ts_db t) (ts_view t))) as Hc.
  { destruct (ts_view t); simpl; auto. }
  destruct r as [b|k]; [by apply aux, inv_db|].
  destruct (e_fault env (ts_tick t)); apply aux, inv_db; done.
Qed.

Lemma ok_in_tx' {B} (on_begin : error → B) body :
  (∀ db, msgs_ok sv (d_msgs db) → tx_keeps (tx_inv sv L db) body) → ok (in_tx env on_begin body).
Proof. intros H. apply ok_in_tx. intros db Hdb t [Ht _]. by apply H. Qed.

(** The caller's transaction. *)
Lemma keys_unique_sub (m m' : gmap UUID row) :
  (∀ i r, m' !! i = Some r → m !! i = Some r) → keys_unique sv m → keys_unique sv m'.
Proof. intros Hs Hu i j ri rj Hij Hi Hj. apply (Hu i j ri rj); auto. Qed.

Lemma tx_rows_update db view failed t :
  tx_rows_ok t →
  view = tx_view db t ∨
  (∃ id r, mysql_step LEnqueue None (Some r) ∧ view = set_msgs (<[id := r]> (d_msgs (tx_view db t))) (tx_view db t) ∧
     ∀ i r', d_msgs (tx_view db t) !! i = Some r' →
       Stmt.ci sv id i = false ∧ Stmt.key_collides sv r r' = false) →
  tx_rows_ok (tx_update db view failed t).
Proof.
  intros [Hf Hu] Hview. unfold tx_update, tx_rows_ok; simpl.
  assert (∀ i r, (d_msgs (tx_view db t) ∖ d_msgs db) !! i = Some r → t_msgs t !! i = Some r) as Hold.
  { intros i r [Hv Hn]%lookup_difference_Some. simpl in Hv. by rewrite lookup_union_r in Hv. }
  destruct Hview as [->|(id & r & Hr & -> & Hnew)].
  { split; [eauto|by eapply keys_unique_sub]. }
  assert (d_msgs db !! id = None) as Hid.
  { pose proof (unique_fresh sv _ _ _ Hnew) as H. simpl in H.
    by apply lookup_union_None in H as [? _]. }
  assert (<[id:=r]> (d_msgs (tx_view db t)) ∖ d_msgs db =
    <[id:=r]> (d_msgs (tx_view db t) ∖ d_msgs db)) as E.
  { symmetry. by apply insert_difference'. }
  simpl in *. rewrite E. split.
  - intros i r' [[<- <-]|[_ Hi]]%lookup_insert_Some; eauto.
  - apply keys_unique_insert.
    + intros i r' Hi. apply (Hnew i). by apply lookup_difference_Some in Hi as [Hi _].
    + by eapply keys_unique_sub.
Qed.

Lemma tx_dead_ok t : tx_rows_ok (tx_dead t).
Proof.
  split; simpl; [intros i r|intros i j ri rj _]; by rewrite lookup_empty.
Qed.

Lemma ok_write q id et pl hd idem ma pa sh : L id LEnqueue → 0 < ma → idem ≠ Some ""%string →
  ok (exec_write env q (Stmt.enqueueSQL sv id et pl hd idem ma pa sh)).
Proof.
  intros HL Hma Hid. set (st := Stmt.enqueueSQL sv id et pl hd idem ma pa sh).
  assert (stmt_ok env sv L st) as Hst.
  { intros b n db [] db' _ H. by eapply enqueueSQL_evolves. }
  destruct q; [by apply ok_pool|]. apply safe_atomically. intros w Hw.
  assert (∀ v, mysql_inv v ∧ mysql_rel w v → mysql_inv v ∧ mysql_rel w v ∧ True) as aux by tauto.
  unfold tx_write. destruct (w_tx w) as [t|] eqn:Ht; [|by apply aux, inv_tick].
  destruct (t_aborted t); [by apply aux, pool_action_ok|].
  pose proof (proj2 Hw t Ht) as Hrows.
  assert (tx_rows_ok (tx_update (w_db w)
    (run_stmt env (w_tick w) (w_tick w) st (tx_view (w_db w) t)).2 false t)) as Hup.
  { apply tx_rows_update; [done|]. unfold run_stmt.
    destruct (e_fault env (w_tick w)); simpl; [|by left|].
    all: destruct (st _ _) as [?|[[] view]] eqn:E; simpl; [by left|].
    all: apply enqueueSQL_inr in E as (Herr & -> & Hn); right; do 2 eexists.
    all: split_and!; [|done|done]; by constructor. }
  destruct (run_stmt _ _ _ _ _) as [res view]; simpl in *.
  apply aux, (inv_tx w); [done|]. intros t' [= <-]. destruct (is_deadlock res); [|done].
  apply tx_dead_ok.
Qed.

Lemma ok_read {A} q (st : stmt A) : stmt_ok env sv L st → ok (exec_read env sv q st).
Proof.
  intros Hst. destruct q; [by apply ok_pool|]. apply safe_atomically. intros w Hw.
  assert (∀ v, mysql_inv v ∧ mysql_rel w v → mysql_inv v ∧ mysql_rel w v ∧ True) as aux by tauto.
  unfold tx_read. destruct (w_tx w) as [t|] eqn:Ht; [|by apply aux, inv_tick].
  destruct (t_aborted t); [by apply aux, pool_action_ok|].
  destruct (run_stmt _ _ _ _ _) as [res view]. apply aux, (inv_tx w); [done|].
  intros t' [= <-]. destruct (is_deadlock res); [apply tx_dead_ok|]. exact (proj2 Hw t Ht).
Qed.

(** ** Operations *)

Lemma reads_ok {A} (f : SqlEnv → DB → A) : stmt_ok env sv L (λ se db, inr (f se db, db)).
Proof. apply read_ok. by intros se db a db' [= <- <-]. Qed.

Lemma mysql_ok_findByIdempotency q et k : ok (findByIdempotency env sv q et k).
Proof. apply ok_map, ok_read, reads_ok. Qed.

Lemma ok_findByID q id : ok (findByID env sv q id).
Proof. apply ok_map, ok_read, reads_ok. Qed.

Lemma mysql_ok_Enqueue tx p : (∀ i, L i LEnqueue) → ok (Enqueue env sv tx p).
Proof.
  intros HL. unfold Enqueue. apply ok_seq; [apply safe_atomically; intros w Hw; destruct (inv_tick w Hw); done|].
  intros id. apply ok_seq.
  { destruct (IsZero _); [apply (safe_time_Now env mysql_inv mysql_rel)|apply ok_ret]. }
  intros pa. apply ok_seq; [apply (safe_rand env mysql_inv mysql_rel)|]. intros sh.
  apply ok_seq; [apply ok_write; [done|apply default_attempts|apply nullif_not_empty]|].
  intros [e|u]; [|by apply ok_map, ok_findByID].
  destruct (_ && _); [by apply ok_map, mysql_ok_findByIdempotency|apply ok_ret].
Qed.

Lemma ok_enqueue_loop tx ps out err :
  (∀ i, L i LEnqueue) → ok (enqueue_loop env sv tx ps out err).
Proof.
  intros HL. revert out err. induction ps as [|p ps IH]; intros out err; [apply ok_ret|].
  cbn [enqueue_loop]. apply ok_seq; [by apply mysql_ok_Enqueue|].
  intros [msg [e|]]; [destruct (IsDuplicate _)|]; apply IH.
Qed.

(** Rows may be labelled as [o] promises. *)
Definition mysql_permits (o : op) : Prop := ∀ i l, mysql_label sv i o l → L i l.

Lemma mysql_ok_Claim p : mysql_permits (OpClaim p) → ok (Claim env sv p).
Proof.
  intros HL. unfold Claim. destruct (cp_EventTypes p); [apply ok_ret|].
  apply ok_in_tx. intros db Hdb. apply claim_body_keeps; auto with tickr.
Qed.

Lemma mysql_ok_BatchSucceed ps : mysql_permits (OpBatchSucceed ps) → ok (BatchSucceed env sv ps).
Proof.
  intros HL. unfold BatchSucceed. destruct ps; [apply ok_ret|].
  apply ok_in_tx'. intros db Hdb. apply batch_succeed_keeps; auto with tickr.
Qed.

(** The operations made of one UPDATE and its history row. *)
Lemma ok_update_and_log on_begin pfx st id f to n e wk :
  stmt_ok env sv L st → ok (in_tx env on_begin (update_and_log env sv pfx st id f to n e wk)).
Proof. intros Hst. apply ok_in_tx'. intros db Hdb. by apply update_and_log_keeps. Qed.

Lemma mysql_ok_Fail p : mysql_permits (OpFail p) → ok (Fail_ env sv p).
Proof.
  intros HL. assert (∀ i k l, Stmt.ci sv i (fp_MessageID p) = true →
    (if fp_Dead p then LDead k else LRetry k) = l → L i l) as HL'
    by (intros i k l Hi <-; apply HL; by constructor).
  unfold Fail_. destruct (fp_Dead p);
    apply ok_update_and_log; [apply failDeadSQL_ok|apply failRetrySQL_ok]; eauto.
Qed.

Lemma purgeHistorySQL_ok before limit : stmt_ok env sv L (Stmt.purgeHistorySQL before limit).
Proof. apply read_ok. unfold Stmt.purgeHistorySQL. by intros se db a db' [= _ <-]. Qed.

Lemma mysql_ok_GetStats : ok (GetStats env sv).
Proof.
  unfold GetStats. apply ok_seq; [apply ok_pool, reads_ok|]. intros r.
  apply ok_map, (safe_time_Now env mysql_inv mysql_rel).
Qed.

Theorem mysql_safe_op o : mysql_permits o → ok (mysql_prog env sv o).
Proof.
  intros HL. destruct o; simpl; try apply ok_map.
  - apply mysql_ok_Enqueue. auto with tickr.
  - apply ok_enqueue_loop. auto with tickr.
  - by apply mysql_ok_Claim.
  - by apply mysql_ok_BatchSucceed.
  - apply ok_update_and_log, succeedSQL_ok. auto with tickr.
  - by apply mysql_ok_Fail.
  - apply ok_update_and_log, releaseShutdownSQL_ok. auto with tickr.
  - apply ok_map, ok_pool, extendSQL_ok. auto with tickr.
  - apply ok_map, ok_pool, reads_ok.
  - apply ok_map, ok_pool, reads_ok.
  - apply ok_update_and_log, requeueSQL_ok. auto with tickr.
  - apply ok_map, ok_pool, reclaimSQL_ok; auto with tickr.
  - apply ok_map, ok_pool, purgeSQL_ok; auto with tickr.
  - apply ok_map, ok_pool, purgeHistorySQL_ok.
  - apply mysql_ok_GetStats.
  - apply ok_ret.
Qed.
End Safe.

(** ** Interleavings *)

(** The unique keys make the commit of the caller's transaction fail, after a
    wait, when a row it inserted collides with one committed meanwhile. *)
Definition mysql_commit_conflict (sv : Server) (w : World) : bool :=
  match w_tx w with
  | Some t => negb (bool_decide (map_Forall
      (λ i r, Stmt.duplicate_entry sv i r (d_msgs (w_db w)) = false) (t_msgs t)))
  | None => false
  end.

(** A read of the caller's own takes the snapshot of its transaction. *)
Definition caller_read (w : World) : World :=
  set_tx ((λ t, with_snap (default (d_msgs (w_db w)) (t_snap t)) t) <$> w_tx w) w.

Inductive mysql_fleet_step (env : Env) (sv : Server) : actor → fleet → fleet → Prop :=
| mf_call o w ts :
    mysql_fleet_step env sv Silent (mkFleet w ts) (mkFleet w ((o, mysql_prog env sv o) :: ts))
| mf_act o B (c : State World B) k w ts1 ts2 :
    mysql_fleet_step env sv (ByOp o) (mkFleet w (ts1 ++ (o, Act c k) :: ts2))
      (mkFleet (c w).2 (ts1 ++ (o, k (c w).1) :: ts2))
| mf_lose o p w ts1 ts2 :
    mysql_fleet_step env sv Silent (mkFleet w (ts1 ++ (o, p) :: ts2)) (mkFleet w (ts1 ++ ts2))
| mf_idle w ts : mysql_fleet_step env sv Silent (mkFleet w ts) (mkFleet (tick w) ts)
| mf_begin w ts :
    w_tx w = None → mysql_fleet_step env sv Silent (mkFleet w ts) (mkFleet (caller_begin w) ts)
| mf_read w ts : mysql_fleet_step env sv Silent (mkFleet w ts) (mkFleet (caller_read w) ts)
| mf_rollback w ts : mysql_fleet_step env sv Silent (mkFleet w ts) (mkFleet (caller_rollback w) ts)
| mf_commit w ts :
    mysql_commit_conflict sv w = false →
    mysql_fleet_step env sv ByCommit (mkFleet w ts) (mkFleet (caller_commit w) ts).

Definition mysql_fleet_steps (env : Env) (sv : Server) : fleet → fleet → Prop :=
  rtc (λ f f', ∃ a, mysql_fleet_step env sv a f f').

Lemma mysql_fleet_steps_l env sv a f g f' :
  mysql_fleet_step env sv a f g → mysql_fleet_steps env sv g f' → mysql_fleet_steps env sv f f'.
Proof. intros. eapply rtc_l; [by eexists|done]. Qed.

Section Fleet.
Context (env : Env) `{HE : !EnvOK env} (sv : Server).

Abbreviation inv := (mysql_inv sv).
Abbreviation fresh_only := (λ (_ : UUID) l, l = LEnqueue).

(** What each actor may do. *)
Definition mysql_acts (a : actor) : World → World → Prop :=
  match a with
  | ByOp o => mysql_rel sv (mysql_labels sv o)
  | ByCommit => mysql_rel sv fresh_only
  | Silent => λ w w', w_db w' = w_db w
  end.

Lemma mysql_commit_ok w :
  inv w → mysql_commit_conflict sv w = false →
  inv (caller_commit w) ∧ mysql_rel sv fresh_only w (caller_commit w).
Proof.
  intros Hw. unfold mysql_commit_conflict, caller_commit. pose proof Hw as [Hok Htx].
  destruct (w_tx w) as [t|] eqn:Ht.
  2:{ intros _. split; [done|]. unfold mysql_rel. reflexivity. }
  intros Hc. apply negb_false_iff, bool_decide_eq_true_1 in Hc.
  destruct (t_aborted t).
  { apply (inv_tx sv _ w None (w_tick w) Hw). done. }
  destruct (Htx t eq_refl) as [Hfresh Hu].
  assert (∀ i r, t_msgs t !! i = Some r → ∀ j r', d_msgs (w_db w) !! j = Some r' →
    Stmt.ci sv i j = false ∧ Stmt.key_collides sv r r' = false) as Hnew.
  { intros i r Hi j r' Hj. specialize (Hc i r Hi). unfold Stmt.duplicate_entry in Hc.
    apply negb_false_iff, bool_decide_eq_true_1 in Hc. apply orb_false_iff.
    by apply (select_where_nil _ _ Hc j r'). }
  assert (evolves sv fresh_only (w_db w) (tx_view (w_db w) t)) as He.
  { assert (∀ i, mysql_steps (λ l, l = LEnqueue) (d_msgs (w_db w) !! i) ((d_msgs (w_db w) ∪ t_msgs t) !! i)) as Hs.
    { intros i. destruct (d_msgs (w_db w) !! i) as [r|] eqn:E.
      - rewrite (lookup_union_Some_l _ _ i r) by done. reflexivity.
      - rewrite lookup_union_r by done. destruct (t_msgs t !! i) eqn:E'; [|reflexivity].
        eapply mysql_steps_once; eauto. }
    split; [done|]. intros [Hrows Hkeys]. split; simpl.
    - intros i. eapply mysql_steps_ok; eauto.
    - intros i j ri rj Hij Hi Hj.
      apply lookup_union_Some_raw in Hi as [Hi|[_ Hi]], Hj as [Hj|[_ Hj]]; eauto.
      rewrite ci_sym, key_collides_sym. eauto. }
  split; [split; [by apply He|done]|done].
Qed.

Definition mysql_fleet_ok (f : fleet) : Prop :=
  inv (f_world f) ∧ Forall (λ t, ok inv (mysql_acts (ByOp t.1)) t.2) (f_flight f).

Lemma mysql_step_fleet a f f' :
  mysql_fleet_step env sv a f f' → mysql_fleet_ok f →
  mysql_fleet_ok f' ∧ mysql_acts a (f_world f) (f_world f').
Proof.
  destruct 1 as [o w ts|o B c k w ts1 ts2|o p w ts1 ts2|w ts|w ts Hw|w ts|w ts|w ts Hw];
    intros [HI Hts]; unfold mysql_fleet_ok; simpl in *.
  - split; [split; [done|]|done]. constructor; [|done].
    apply (mysql_safe_op env sv (mysql_labels sv o)). by intros i l.
  - apply Forall_app in Hts as [H1 [Hc H2]%Forall_cons].
    destruct (Hc w HI) as (? & ? & ?). split; [split; [done|]|done].
    apply Forall_app. split; [done|]. by constructor.
  - apply Forall_app in Hts as [H1 [Hc H2]%Forall_cons].
    split; [split; [done|by apply Forall_app]|done].
  - by destruct (inv_tick sv all_labels w HI).
  - destruct (inv_tx sv all_labels w (Some (mkTxState (w_tick w) ∅ [] false None)) (w_tick w) HI);
      [|done].
    intros t [= <-]. apply (tx_dead_ok sv (mkTxState 0 ∅ [] false None)).
  - destruct (inv_tx sv all_labels w (w_tx (caller_read w)) (w_tick w) HI); [|done].
    unfold caller_read; simpl. intros t Ht. destruct (w_tx w) as [t0|] eqn:E; simplify_eq/=.
    exact (proj2 HI t0 E).
  - by destruct (inv_tx sv all_labels w None (w_tick w) HI).
  - by destruct (mysql_commit_ok w HI Hw).
Qed.

Lemma mysql_fleet_steps_ok f f' :
  mysql_fleet_steps env sv f f' → mysql_fleet_ok f → mysql_fleet_ok f'.
Proof. induction 1 as [|x y z [a Hs] _ IH]; [done|]. intros Hok. by eapply IH, mysql_step_fleet. Qed.

Lemma mysql_init_ok : mysql_fleet_ok init_fleet.
Proof.
  split; [|constructor]. split; [|done]. split.
  - intros i r. simpl. by rewrite lookup_empty.
  - intros i j ri rj _. simpl. by rewrite lookup_empty.
Qed.

Lemma mysql_reachable_ok f : mysql_fleet_steps env sv init_fleet f → mysql_fleet_ok f.
Proof. intros H. eapply mysql_fleet_steps_ok; [exact H|apply mysql_init_ok]. Qed.

(** The labels an actor may put on row [i]. *)
Definition mysql_may_label (a : actor) (i : UUID) (l : label) : Prop :=
  match a with
  | ByOp o => mysql_label sv i o l
  | ByCommit => l = LEnqueue
  | Silent => False
  end.

(** An actor's changes to a row make at most one edge, under its labels. *)
Lemma mysql_acts_life a w w' i :
  mysql_acts a w w' →
  row_view (d_msgs (w_db w') !! i) = row_view (d_msgs (w_db w) !! i) ∨
  ∃ l, mysql_may_label a i l ∧
    mysql_life l (row_view (d_msgs (w_db w) !! i)) (row_view (d_msgs (w_db w') !! i)).
Proof.
  destruct a as [o| |]; simpl.
  - intros [H _]. eapply one_edge; [apply mysql_step_life|apply mysql_label_one_shot|apply (H i)].
  - intros [H _]. apply (one_edge mysql_step mysql_life (λ l, l = LEnqueue));
      [apply mysql_step_life| |apply (H i)].
    intros l l' u v v' -> -> H1%mysql_life_cases H2%mysql_life_cases.
    inversion H1; subst; inversion H2.
  - intros ->. by left.
Qed.
End Fleet.

(** An operation run alone is a sequence of steps. *)
Lemma mysql_fleet_run env sv o (p : prog unit) w ts :
  mysql_fleet_steps env sv (mkFleet w ((o, p) :: ts)) (mkFleet (run p w).2 ts).
Proof.
  revert w. induction p as [a|B c k IH]; intros w; simpl.
  - eapply mysql_fleet_steps_l; [apply (mf_lose env sv o (Ret a) w [] ts)|reflexivity].
  - eapply mysql_fleet_steps_l; [apply (mf_act env sv o B c k w [] ts)|]. simpl.
    specialize (IH (c w).1 (c w).2). by destruct (c w).
Qed.

Lemma mysql_fleet_op env sv o w ts :
  mysql_fleet_steps env sv (mkFleet w ts) (mkFleet (run (mysql_prog env sv o) w).2 ts).
Proof. eapply mysql_fleet_steps_l; [apply mf_call|]. apply mysql_fleet_run. Qed.

(** C32: The MySQL adapter refines the status machine step by step.  Whatever
    operations any number of processes start on one database, however their
    statements and transactions interleave, fail, deadlock or are lost in a
    crash, and whatever the caller's transaction does, each single step (a
    statement, a whole transaction of the adapter, a commit, a crash, a tick)
    either leaves the status and attempt of a message alone, or moves it along
    exactly one edge, and that edge is one the operation that acted promises:
    only Enqueue and EnqueueBatch (or the commit of a transaction they ran in)
    create a row, CREATED with attempt 0; only Claim enters HANDLING, from
    CREATED or RETRYING, adding one to the attempt; an acknowledgement moves
    only HANDLING, to its own target; a release gives the attempt back, to
    RETRYING or, when it was the first, to CREATED; only ReclaimExpired takes
    HANDLING to RETRYING keeping the attempt; only Requeue leaves DEAD; only
    PurgeTerminal removes a row, and only from SUCCESS or DEAD. *)
Theorem mysql_refines_lifecycle env `{!EnvOK env} sv a f f' i :
  mysql_fleet_steps env sv init_fleet f → mysql_fleet_step env sv a f f' →
  row_view (f_rows f' !! i) = row_view (f_rows f !! i) ∨
  ∃ l, mysql_may_label sv a i l ∧
    mysql_life l (row_view (f_rows f !! i)) (row_view (f_rows f' !! i)).
Proof.
  intros H0 Hs. apply mysql_acts_life. by apply (mysql_step_fleet env sv), (mysql_reachable_ok env sv).
Qed.

(** What the schema says of a row, column by column. *)
Record row_typed (r : row) : Prop := mkRowTyped {
  rt_event_type : utf8_length (r_event_type r) ≤ 255;
  rt_key : ∀ k, r_idempotency_key r = Some k → utf8_length k ≤ 255;
  rt_attempt : - 2 ^ 31 ≤ r_attempt r < 2 ^ 31;
  rt_max_attempts : - 2 ^ 31 ≤ r_max_attempts r < 2 ^ 31;
  rt_process_at : IsZero (r_process_at r) = false;
  rt_shard : - 2 ^ 7 ≤ r_shard r < 2 ^ 7;
  rt_claimed_until : ∀ t, r_claimed_until r = Some t → IsZero t = false;
  rt_claimed_by : ∀ k, r_claimed_by r = Some k → utf8_length k ≤ 255;
  rt_last_error : ∀ k, r_last_error r = Some k → byte_length k ≤ 65535;
}.

Lemma refuse_none ok e l : first_error (refuse ok e :: l) = None → ok = true ∧ first_error l = None.
Proof. unfold first_error, refuse. by destruct ok. Qed.

Lemma row_error_typed r : row_error r = None → row_typed r.
Proof.
  unfold row_error. intros H. repeat (apply refuse_none in H as [? H]).
  unfold varchar, text, int32, tinyint, datetime, nullable in *.
  constructor; try lia; try (by apply Z.leb_le); try (by apply negb_true_iff);
    try (by intros k Hk; rewrite Hk in *; apply Z.leb_le);
    try (by intros k Hk; rewrite Hk in *; apply negb_true_iff).
Qed.

(** C33: Every column keeps its type.  In every database the adapter can reach,
    under any interleaving, faults and deadlocks, each row of tickr_messages
    fits the schema (texts within VARCHAR(255) and TEXT, INT and TINYINT
    ranges, no zero date) and is well formed for its status: unleased and not
    completed while CREATED or RETRYING, leased to a worker with at least one
    attempt and not completed while HANDLING, completed once SUCCESS or DEAD,
    never FAILED; and no two rows agree, as the collation compares texts, on
    the id or on event type and idempotency key. *)
Theorem mysql_tables_typed env `{!EnvOK env} sv f :
  mysql_fleet_steps env sv init_fleet f →
  (∀ i r, f_rows f !! i = Some r → row_typed r ∧ mysql_wf r) ∧
  keys_unique sv (f_rows f).
Proof.
  intros H0. destruct (mysql_reachable_ok env sv _ H0) as [[[Hok Hu] _] _].
  split; [|done]. intros i r Hi. destruct (Hok i r Hi) as [? ?]. by split; [apply row_error_typed|].
Qed.

(** Servers comparing ASCII letters without case, as the default collation of
    utf8mb4 does. *)
Definition lower_ascii (c : Ascii.ascii) : Ascii.ascii :=
  let n := Ascii.N_of_ascii c in
  if (N.leb 65 n && N.leb n 90)%N then Ascii.ascii_of_N (n + 32) else c.

Fixpoint lower (s : string) : string :=
  match s with EmptyString => EmptyString | String c s => String (lower_ascii c) (lower s) end.

Definition demo_server : Server := mkServer lower false true.

Definition demo_mysql_claim : ClaimParams :=
  {| cp_WorkerID := "w-1"; cp_Batch := 10; cp_Lease := 30 * Second;
     cp_EventTypes := ["order.paid"%string] |}.

(** A message enqueued and claimed. *)
Definition demo_mysql_queue : World :=
  (run (mysql_prog demo_env demo_server (OpEnqueue TxZero demo_params)) init_world).2.
Definition demo_mysql_leased : World :=
  (run (mysql_prog demo_env demo_server (OpClaim demo_mysql_claim)) demo_mysql_queue).2.

Lemma demo_mysql_steps :
  mysql_fleet_steps demo_env demo_server init_fleet (mkFleet demo_mysql_leased []).
Proof. eapply rtc_trans; apply mysql_fleet_op. Qed.

(** The release of its first attempt, in flight. *)
Definition demo_release : op := OpReleaseShutdown (demo_id 0) 1 "w-1" "shutdown".
Definition demo_mysql_releasing : fleet :=
  mkFleet demo_mysql_leased [(demo_release, mysql_prog demo_env demo_server demo_release)].

Definition mysql_next_action (f : fleet) : fleet :=
  match f_flight f with
  | (o, Act c k) :: ts => mkFleet (c (f_world f)).2 ((o, k (c (f_world f)).1) :: ts)
  | _ => f
  end.

Lemma mysql_refines_lifecycle_witness :
  let f := demo_mysql_releasing in let f' := mysql_next_action f in
  row_view (f_rows f !! demo_id 0) = Some (StatusHandling, 1) ∧
  row_view (f_rows f' !! demo_id 0) = Some (StatusCreated, 0) ∧
  ∃ l, mysql_may_label demo_server (ByOp demo_release) (demo_id 0) l ∧
    mysql_life l (row_view (f_rows f !! demo_id 0)) (row_view (f_rows f' !! demo_id 0)).
Proof.
  intros f f'. split; [vm_compute; reflexivity|]. split; [vm_compute; reflexivity|].
  destruct (mysql_refines_lifecycle demo_env demo_server (ByOp demo_release) f f' (demo_id 0))
    as [H|H].
  - eapply rtc_trans; [apply demo_mysql_steps|].
    eapply mysql_fleet_steps_l;
      [exact (mf_call demo_env demo_server demo_release demo_mysql_leased [])|reflexivity].
  - apply (mf_act demo_env demo_server demo_release _ _ _ demo_mysql_leased [] []).
  - vm_compute in H. discriminate.
  - exact H.
Defined.

Lemma mysql_tables_typed_witness :
  (∃ r, d_msgs (w_db demo_mysql_leased) !! demo_id 0 = Some r) ∧
  (∀ i r, d_msgs (w_db demo_mysql_leased) !! i = Some r → row_typed r ∧ mysql_wf r) ∧
  keys_unique demo_server (d_msgs (w_db demo_mysql_leased)).
Proof.
  split; [eexists; vm_compute; reflexivity|].
  apply (mysql_tables_typed demo_env demo_server (mkFleet demo_mysql_leased [])
    demo_mysql_steps).
Defined.
