(* ===== verification/MySQLOps.v ===== *)
(** * What the operations of the MySQL adapter do

    The functional specification of Claim, of the acknowledgements and of
    Enqueue, on every path; and what the adapter does not promise: its
    acknowledgements do not look at the attempt, an error text that does not
    fit its column is never recorded, and a history insert chosen as the victim
    of a deadlock undoes the transaction without being reported. *)

From S2P Require Import Prelude GoErrors GoFloat Message World Postgres Lifecycle PostgresLogic PostgresFacts Demo Fleet PostgresClaim MySQL MySQLFacts MySQLFleet.

(** ** Transactions that no deadlock undoes *)

Definition no_deadlock (env : Env) : Prop := ∀ n e,
  e_fault env n = FailBefore e ∨ e_fault env n = FailAfter e →
  is_deadlock (inl e : error + unit) = false.

(** A transaction over the committed database [d] that sees the messages [m],
    at tick [n]. *)
Definition tx_at (d : DB) (m : gmap UUID row) (n : nat) (t : TxS) : Prop :=
  ∃ v, t = mkTxS d (Some v) n ∧ d_msgs v = m.

Section Ops.
Context (env : Env) (sv : Server).

(** Statements do not themselves report a deadlock. *)
Definition calm {A} (st : stmt A) : Prop := ∀ se db e,
  st se db = inl e → is_deadlock (inl e : error + unit) = false.

Lemma first_error_elem l e : first_error l = Some e → Some e ∈ l.
Proof.
  unfold first_error. induction l as [|[e'|] l IH]; simpl; [done| |].
  - intros [= <-]. by left.
  - intros H. right. auto.
Qed.

Lemma first_error_calm l :
  Forall (λ o, ∀ e, o = Some e → is_deadlock (inl e : error + unit) = false) l →
  ∀ e, first_error l = Some e → is_deadlock (inl e : error + unit) = false.
Proof. rewrite Forall_forall. intros H e He%first_error_elem. by eapply H. Qed.

Lemma refuse_calm b e0 e :
  is_deadlock (inl e0 : error + unit) = false → refuse b e0 = Some e →
  is_deadlock (inl e : error + unit) = false.
Proof. unfold refuse. destruct b; [done|]. by intros ? [= <-]. Qed.

Lemma row_error_calm r e : row_error r = Some e → is_deadlock (inl e : error + unit) = false.
Proof. apply first_error_calm. repeat constructor; intros ?; by apply refuse_calm. Qed.

Lemma hist_error_calm h e : hist_error h = Some e → is_deadlock (inl e : error + unit) = false.
Proof. apply first_error_calm. repeat constructor; intros ?; by apply refuse_calm. Qed.

Lemma update_rows_calm p f db e :
  Stmt.update_rows sv p f db = inl e → is_deadlock (inl e : error + unit) = false.
Proof.
  unfold Stmt.update_rows. destruct (first_error _) as [e'|] eqn:E; [|done]. intros [= ->].
  apply first_error_elem, list_elem_of_fmap in E as (ir & E & _). by eapply row_error_calm.
Qed.

Lemma exec_update_calm p f : calm (Stmt.exec_update sv p f).
Proof.
  intros se db e. unfold Stmt.exec_update.
  destruct (Stmt.update_rows _ _ _ _) as [?|[]] eqn:E; [|done]. intros [= ->].
  by eapply update_rows_calm.
Qed.

Lemma appendHistorySQL_calm id f to n e wk : calm (Stmt.appendHistorySQL sv id f to n e wk).
Proof.
  intros se db e'. unfold Stmt.appendHistorySQL. destruct (hist_error _) eqn:E; [|done].
  intros [= ->]. by eapply hist_error_calm.
Qed.

Context (Hcalm : no_deadlock env).

(** One statement of a live transaction. *)
Lemma tx_exec_live {A} (st : stmt A) d v n :
  calm st → tx_exec env st (mkTxS d (Some v) n) =
    ((run_stmt env n n st v).1, mkTxS d (Some (run_stmt env n n st v).2) (S n)).
Proof.
  intros Hst. unfold tx_exec; simpl.
  assert (is_deadlock (run_stmt env n n st v).1 = false) as Hd.
  { unfold run_stmt. destruct (e_fault env n) as [|e|e] eqn:E.
    - destruct (st _ _) as [e|[a db]] eqn:E'; [exact (Hst _ _ _ E')|done].
    - exact (Hcalm n e (or_introl E)).
    - destruct (st _ _) as [e'|[a db]] eqn:E'; [exact (Hst _ _ _ E')|].
      exact (Hcalm n e (or_intror E)). }
  destruct (run_stmt env n n st v) as [res v']; simpl in *. by rewrite Hd.
Qed.

(** A statement that leaves the messages alone. *)
Lemma tx_exec_same {A} (st : stmt A) d m n :
  calm st → (∀ se db a db', st se db = inr (a, db') → d_msgs db' = d_msgs db) →
  tx_gives (tx_at d m n) (tx_exec env st) (λ _, tx_at d m (S n)).
Proof.
  intros Hst Hs t (v & -> & <-). rewrite tx_exec_live by done. simpl.
  exists (run_stmt env n n st v).2. split; [done|].
  unfold run_stmt. destruct (e_fault env n); [|done|].
  all: destruct (st _ _) as [?|[a db]] eqn:E; [done|]; simpl; by eapply Hs.
Qed.

Lemma appendHistory_same d m n id f to k e wk :
  tx_gives (tx_at d m n) (appendHistory env sv id f to k e wk) (λ _, tx_at d m (S n)).
Proof.
  eapply tx_gives_bind; [apply tx_exec_same; [apply appendHistorySQL_calm|]|].
  - intros se db [] db'. unfold Stmt.appendHistorySQL. destruct (hist_error _); [done|]. by intros [= <-].
  - intros a. by apply tx_gives_ret.
Qed.

Lemma history_loop_same {A} (f : A → MessageID * Z) from to e wk l d m :
  tx_gives (λ t, ∃ n, tx_at d m n t)
    (for_each (λ x, appendHistory env sv (f x).1 from to (f x).2 e wk) l)
    (λ _ t, ∃ n, tx_at d m n t).
Proof.
  apply tx_keeps_for_each. intros x t [n Ht]. exists (S n). by apply appendHistory_same.
Qed.

(** *** One UPDATE *)

(** The UPDATE applied: every row [p] matches became [f] of it, and fits. *)
Definition applied (p : UUID → row → bool) (f : row → row) (m m' : gmap UUID row) : Prop :=
  m' = update_where p f m ∧ ∀ i r, m !! i = Some r → p i r = true → row_error (f r) = None.

Lemma run_update p f n v :
  let '(res, v') := run_stmt env n n (Stmt.exec_update sv p f) v in
  match res with
  | inr _ => applied p (f (e_dbnow env n)) (d_msgs v) (d_msgs v')
  | inl _ => True
  end.
Proof.
  unfold run_stmt, Stmt.exec_update. destruct (e_fault env n); [|done|].
  all: destruct (Stmt.update_rows _ _ _ _) as [?|[k db]] eqn:E; try done.
  by apply update_rows_inr in E as [-> ?].
Qed.

(** One UPDATE, its history row, commit: applied, or nothing changed; applied
    whenever success is reported. *)
Definition ack_outcome (p : UUID → row → bool) (f : row → row) (w : World)
    (r : option error * World) : Prop :=
  (d_msgs (w_db r.2) = d_msgs (w_db w) ∨ applied p f (d_msgs (w_db w)) (d_msgs (w_db r.2))) ∧
  (r.1 = None → applied p f (d_msgs (w_db w)) (d_msgs (w_db r.2))).

Lemma update_and_log_outcome ob pfx p f id from to k e wk w :
  (∀ e, ob e ≠ None) →
  ack_outcome p (f (e_dbnow env (S (w_tick w)))) w
    (run (in_tx env ob (update_and_log env sv pfx (Stmt.exec_update sv p f) id from to k e wk)) w).
Proof.
  intros Hob. unfold ack_outcome, in_tx, atomically, tx_run. simpl.
  destruct (e_fault env (w_tick w)); simpl; [|by split; [left|intros ?%Hob]..].
  unfold update_and_log, mbind, State_bind. rewrite tx_exec_live by apply exec_update_calm.
  pose proof (run_update p f (S (w_tick w)) (w_db w)) as Hup.
  destruct (run_stmt _ _ _ _ _) as [[e'|u] v']; simpl; [by split; [left|]|].
  assert (tx_at (w_db w) (d_msgs v') (S (S (w_tick w)))
    (mkTxS (w_db w) (Some v') (S (S (w_tick w))))) as Ht by (by exists v').
  pose proof (appendHistory_same _ _ _ id from to k e wk _ Ht) as (v2 & Ht2 & Hv2).
  destruct (appendHistory _ _ _ _ _ _ _ _ _) as [u2 t2]; simpl in *. subst t2; simpl.
  rewrite <- Hv2 in Hup.
  destruct (e_fault env (S (S (S (w_tick w))))); simpl; split; auto; try done.
Qed.
End Ops.

(** The UPDATE refused by a column: whatever else happens, the error is
    reported and the database is as before. *)
Lemma update_and_log_refused env sv ob pfx p f id from to k e wk w i r :
  (∀ e, ob e ≠ None) → d_msgs (w_db w) !! i = Some r → p i r = true →
  row_error (f (e_dbnow env (S (w_tick w))) r) ≠ None →
  let res := run (in_tx env ob
    (update_and_log env sv pfx (Stmt.exec_update sv p f) id from to k e wk)) w in
  res.1 ≠ None ∧ w_db res.2 = w_db w.
Proof.
  intros Hob Hi Hp Herr. unfold in_tx, atomically, tx_run. simpl.
  destruct (e_fault env (w_tick w)); simpl; [|by split..].
  assert (∀ n, ∃ e', Stmt.exec_update sv p f (sql_env env (S (w_tick w)) n) (w_db w) = inl e') as Hst.
  { intros n. unfold Stmt.exec_update.
    destruct (Stmt.update_rows _ _ _ _) as [e'|[m db']] eqn:E; [eauto|].
    apply update_rows_inr in E as [_ E]. by destruct (Herr (E i r Hi Hp)). }
  destruct (Hst (S (w_tick w))) as [e' He'].
  unfold update_and_log, mbind, State_bind, tx_exec, run_stmt. simpl. rewrite He'.
  destruct (e_fault env (S (w_tick w))); simpl; by repeat case_match; simplify_eq/=.
Qed.

(** ** Acknowledgements *)

(** *** What the API documents, column by column

    As in file Lifecycle, without reference to the statements; on MySQL a
    terminal row keeps the worker and the lease of its last attempt, a release
    records no reason and restores CREATED when it gives back the first
    attempt, and a requeue is an ending too: of the row's death. *)
Inductive mysql_ending :=
| MEndSuccess
| MEndRetry (err : string) (at_ : Time)
| MEndDead (err : string)
| MEndRelease
| MRevive (at_ : Time).

Definition mysql_ended (e : mysql_ending) (now : Time) (r r' : row) : Prop :=
  row_identity r' = row_identity r ∧ r_updated_at r' = now ∧
  match e with
  | MEndSuccess =>
    r_status r' = StatusSuccess ∧ r_attempt r' = r_attempt r ∧
    r_process_at r' = r_process_at r ∧ r_last_error r' = r_last_error r ∧
    r_completed_at r' = Some now ∧
    r_claimed_by r' = r_claimed_by r ∧ r_claimed_until r' = r_claimed_until r
  | MEndDead err =>
    r_status r' = StatusDead ∧ r_attempt r' = r_attempt r ∧
    r_process_at r' = r_process_at r ∧ r_last_error r' = Some err ∧
    r_completed_at r' = Some now ∧
    r_claimed_by r' = r_claimed_by r ∧ r_claimed_until r' = r_claimed_until r
  | MEndRetry err at_ =>
    r_status r' = StatusRetrying ∧ r_attempt r' = r_attempt r ∧
    r_process_at r' = at_ ∧ r_last_error r' = Some err ∧
    r_completed_at r' = r_completed_at r ∧
    r_claimed_by r' = None ∧ r_claimed_until r' = None
  | MEndRelease =>
    (1 < r_attempt r → r_status r' = StatusRetrying) ∧
    (r_attempt r ≤ 1 → r_status r' = StatusCreated) ∧
    r_attempt r' = Z.max 0 (r_attempt r - 1) ∧
    r_process_at r' = r_process_at r ∧ r_last_error r' = r_last_error r ∧
    r_completed_at r' = r_completed_at r ∧
    r_claimed_by r' = None ∧ r_claimed_until r' = None
  | MRevive at_ =>
    r_status r' = StatusCreated ∧ r_attempt r' = 0 ∧
    r_process_at r' = at_ ∧ r_last_error r' = None ∧ r_completed_at r' = None ∧
    r_claimed_by r' = None ∧ r_claimed_until r' = None
  end.

(** The row is HANDLING for worker [wk] under an id equal to [id], as the
    collation compares texts. *)
Definition held_by (sv : Server) (id : MessageID) (wk : string) (i : UUID) (r : row) : Prop :=
  sv_collate sv i = sv_collate sv id ∧ r_status r = StatusHandling ∧
  ∃ k, r_claimed_by r = Some k ∧ sv_collate sv k = sv_collate sv wk.

Definition dead_under (sv : Server) (id : MessageID) (i : UUID) (r : row) : Prop :=
  sv_collate sv i = sv_collate sv id ∧ r_status r = StatusDead.

(** The rows [P] selects ended as [e] says; every other one is as it was, and
    none was added. *)
Definition ends_rows (P : UUID → row → Prop) (e : mysql_ending) (now : Time)
    (m m' : gmap UUID row) : Prop :=
  (∀ i r, m !! i = Some r → P i r → ∃ r', m' !! i = Some r' ∧ mysql_ended e now r r') ∧
  (∀ i r, m !! i = Some r → ¬ P i r → m' !! i = Some r) ∧
  (∀ i, m !! i = None → m' !! i = None).

(** All or nothing, and success reported only for all. *)
Definition ack_contract (P : UUID → row → Prop) (e : mysql_ending) (now : Time) (w : World)
    (res : option error * World) : Prop :=
  (d_msgs (w_db res.2) = d_msgs (w_db w) ∨ ends_rows P e now (d_msgs (w_db w)) (d_msgs (w_db res.2))) ∧
  (res.1 = None → ends_rows P e now (d_msgs (w_db w)) (d_msgs (w_db res.2))).

Lemma applied_ends (P : UUID → row → Prop) p f e now m m' :
  (∀ i r, p i r = true ↔ P i r) → (∀ i r, P i r → mysql_ended e now r (f r)) →
  applied p f m m' → ends_rows P e now m m'.
Proof.
  intros Hp Hf [-> _]. split_and!.
  - intros i r Hi HP. exists (f r). split; [|by eapply Hf].
    rewrite lookup_update_where, Hi. simpl. by rewrite (proj2 (Hp i r) HP).
  - intros i r Hi HP. rewrite lookup_update_where, Hi. simpl.
    destruct (p i r) eqn:E; [|done]. by destruct HP; apply Hp.
  - intros i Hi. by rewrite lookup_update_where, Hi.
Qed.

Lemma outcome_contract (P : UUID → row → Prop) p f e now w res :
  (∀ i r, p i r = true ↔ P i r) → (∀ i r, P i r → mysql_ended e now r (f r)) →
  ack_outcome p f w res → ack_contract P e now w res.
Proof.
  intros Hp Hf [[H|H] H']; (split; [|intros E; by eapply applied_ends; [| |apply H']]).
  - by left.
  - right. by eapply applied_ends.
Qed.

Lemma owned_iff sv id wk i r : Stmt.owned sv id wk i r = true ↔ held_by sv id wk i r.
Proof.
  unfold Stmt.owned, Stmt.ci_opt, Stmt.ci, held_by. rewrite !andb_true_iff, !bool_decide_eq_true.
  destruct (r_claimed_by r); [rewrite bool_decide_eq_true|]; naive_solver.
Qed.

Lemma dead_iff sv id i r :
  Stmt.ci sv i id && bool_decide (r_status r = StatusDead) = true ↔ dead_under sv id i r.
Proof. unfold Stmt.ci, dead_under. by rewrite andb_true_iff, !bool_decide_eq_true. Qed.

(** The UPDATEs write the documented columns. *)
Lemma mysql_rows_ended now r :
  mysql_ended MEndSuccess now r (Stmt.success_row now r) ∧
  (∀ e, mysql_ended (MEndDead e) now r (Stmt.dead_row now e r)) ∧
  (∀ e at_, mysql_ended (MEndRetry e at_) now r (Stmt.retry_row now e at_ r)) ∧
  mysql_ended MEndRelease now r (Stmt.release_row now r) ∧
  (∀ at_, mysql_ended (MRevive at_) now r (Stmt.requeue_row now at_ r)).
Proof.
  unfold mysql_ended; simpl. split_and!; try done; try lia.
  - intros. by rewrite (proj2 (Z.ltb_lt _ _)).
  - intros. by rewrite (proj2 (Z.ltb_ge _ _)).
Qed.

(** C34: On MySQL, too, an acknowledgement is atomic and fenced by the worker.
    If no statement fails with a deadlock, Succeed, Fail, ReleaseShutdown and
    Requeue either leave the messages as they were or apply their whole UPDATE,
    and report success only in the second case.  The UPDATE changes exactly the
    rows HANDLING for this worker (DEAD, for Requeue) under the id given: to
    SUCCESS, completed; to DEAD with the error text, completed; to RETRYING at
    the given time with the error text, unleased; to RETRYING (CREATED if it was
    the first attempt) with the attempt given back, unleased; or to CREATED at
    the given time with no attempts ([mysql_ended]).  A row that is not this
    worker's, and another message, never change. *)
Theorem mysql_acknowledgements env sv w :
  no_deadlock env →
  let now := e_dbnow env (S (w_tick w)) in
  (∀ id n wk, ack_contract (held_by sv id wk) MEndSuccess now w (run (Succeed env sv id n wk) w)) ∧
  (∀ p, ack_contract (held_by sv (fp_MessageID p) (fp_WorkerID p))
     (if fp_Dead p then MEndDead (fp_Err p) else MEndRetry (fp_Err p) (fp_NextRetryAt p)) now w
     (run (Fail_ env sv p) w)) ∧
  (∀ id n wk reason, ack_contract (held_by sv id wk) MEndRelease now w
     (run (ReleaseShutdown env sv id n wk reason) w)) ∧
  (∀ id at_, ack_contract (dead_under sv id) (MRevive at_) now w (run (Requeue env sv id at_) w)).
Proof.
  intros Hc now. split_and!; intros.
  - eapply outcome_contract; [intros; apply owned_iff|intros i r _; apply (mysql_rows_ended now r)|].
    by apply update_and_log_outcome.
  - unfold Fail_. destruct (fp_Dead p).
    + eapply outcome_contract; [intros; apply owned_iff|intros i r _; apply (mysql_rows_ended now r)|].
      by apply (update_and_log_outcome env sv Hc _ _ _ (λ now, Stmt.dead_row now (fp_Err p))).
    + eapply outcome_contract; [intros; apply owned_iff|intros i r _; apply (mysql_rows_ended now r)|].
      by apply (update_and_log_outcome env sv Hc _ _ _
        (λ now, Stmt.retry_row now (fp_Err p) (fp_NextRetryAt p))).
  - eapply outcome_contract; [intros; apply owned_iff|intros i r _; apply (mysql_rows_ended now r)|].
    by apply update_and_log_outcome.
  - eapply outcome_contract; [intros; apply dead_iff|intros i r _; apply (mysql_rows_ended now r)|].
    by apply (update_and_log_outcome env sv Hc _ _ _ (λ now, Stmt.requeue_row now at_)).
Qed.

Lemma mysql_acknowledgements_witness :
  let res := run (Succeed demo_env demo_server (demo_id 0) 1 "w-1") demo_mysql_leased in
  no_deadlock demo_env ∧
  row_view (d_msgs (w_db demo_mysql_leased) !! demo_id 0) = Some (StatusHandling, 1) ∧
  res.1 = None ∧ row_view (d_msgs (w_db res.2) !! demo_id 0) = Some (StatusSuccess, 1) ∧
  ack_contract (held_by demo_server (demo_id 0) "w-1") MEndSuccess
    (e_dbnow demo_env (S (w_tick demo_mysql_leased))) demo_mysql_leased res.
Proof.
  intros res. assert (no_deadlock demo_env) as H by (intros n e [[=]|[=]]).
  split; [done|]. split; [vm_compute; reflexivity|]. split; [vm_compute; reflexivity|].
  split; [vm_compute; reflexivity|].
  destruct (mysql_acknowledgements demo_env demo_server demo_mysql_leased H) as [Hs _].
  exact (Hs (demo_id 0) 1 "w-1"%string).
Defined.

(** C35: The attempt is not a fencing token on MySQL.  A message HANDLING for
    this worker is completed by a Succeed of the worker under any attempt
    number, also that of an attempt whose lease expired before the worker
    claimed the message again; only another worker's acknowledgement is
    refused. *)
Theorem mysql_ack_ignores_attempt env sv w id n wk i r :
  no_deadlock env →
  d_msgs (w_db w) !! i = Some r → Stmt.owned sv id wk i r = true →
  (run (Succeed env sv id n wk) w).1 = None →
  d_msgs (w_db (run (Succeed env sv id n wk) w).2) !! i =
    Some (Stmt.success_row (e_dbnow env (S (w_tick w))) r).
Proof.
  intros Hc Hi Ho Herr.
  pose proof (update_and_log_outcome env sv Hc (λ e, Some (Errorf_w "tickr/mysql: succeed begin" e))
    "tickr/mysql: succeed update" (Stmt.owned sv id wk) Stmt.success_row id StatusHandling
    StatusSuccess n "" wk w ltac:(done)) as [_ H].
  destruct (H Herr) as [Hm _]. fold (Stmt.succeedSQL sv id wk) in Hm.
  fold (Succeed env sv id n wk) in Hm. rewrite Hm, lookup_update_where, Hi. simpl. by rewrite Ho.
Qed.

(** The first attempt's lease expires, the message is reclaimed and claimed
    again by the same worker; then the first attempt acknowledges. *)
Definition demo_mysql_second : World :=
  let w1 := (run (mysql_prog (mkEnv demo_clock (λ n, demo_clock n + 60 * Second) (λ _, NoFault)
    (λ _, ∅) (λ _ l, l) Z.of_nat (λ n, Some (demo_id n)) demo_id Some errorString None)
    demo_server (OpReclaimExpired 10)) demo_mysql_leased).2 in
  set_db (w_db (run (mysql_prog (mkEnv (λ n, demo_clock n + 120 * Second)
    (λ n, demo_clock n + 120 * Second) (λ _, NoFault)
    (λ _, ∅) (λ _ l, l) Z.of_nat (λ n, Some (demo_id n)) demo_id Some errorString None)
    demo_server (OpClaim demo_mysql_claim)) w1).2) w1.

Lemma mysql_ack_ignores_attempt_witness :
  ∃ r, d_msgs (w_db demo_mysql_second) !! demo_id 0 = Some r ∧
    r_status r = StatusHandling ∧ r_attempt r = 2 ∧
    d_msgs (w_db (run (Succeed demo_env demo_server (demo_id 0) 1 "w-1") demo_mysql_second).2)
      !! demo_id 0 = Some (Stmt.success_row (e_dbnow demo_env (S (w_tick demo_mysql_second))) r).
Proof.
  eexists. split; [vm_compute; reflexivity|]. split; [reflexivity|]. split; [reflexivity|].
  apply (mysql_ack_ignores_attempt demo_env demo_server demo_mysql_second (demo_id 0) 1 "w-1").
  - intros n e [[=]|[=]].
  - vm_compute. reflexivity.
  - vm_compute. reflexivity.
  - vm_compute. reflexivity.
Defined.

(** An error text that does not fit last_error is never recorded.  When a
    handler fails with a text longer than the 65535 bytes of its TEXT column,
    Fail reports an error and leaves the database as it was, dead-lettering
    included: the message stays HANDLING under its attempt until the lease
    expires. *)
Theorem mysql_fail_too_long env sv p w i r :
  d_msgs (w_db w) !! i = Some r →
  Stmt.owned sv (fp_MessageID p) (fp_WorkerID p) i r = true →
  65535 < byte_length (fp_Err p) →
  (run (Fail_ env sv p) w).1 ≠ None ∧ w_db (run (Fail_ env sv p) w).2 = w_db w.
Proof.
  intros Hi Ho Hlen.
  assert (text (fp_Err p) = false) as Ht by (apply Z.leb_gt; lia).
  assert (∀ r', r_last_error r' = Some (fp_Err p) → row_error r' ≠ None) as Hbig.
  { intros r' He H. unfold row_error in H. rewrite He in H. simpl nullable in H. rewrite Ht in H.
    assert (Some err_data_too_long = None) as [=].
    apply (first_error_None _ H). do 8 right. by left. }
  unfold Fail_. destruct (fp_Dead p).
  - apply (update_and_log_refused env sv _ _ _ (λ now, Stmt.dead_row now (fp_Err p)) _ _ _ _ _ _ _ i r);
      [done..|]. by apply Hbig.
  - apply (update_and_log_refused env sv _ _ _
      (λ now, Stmt.retry_row now (fp_Err p) (fp_NextRetryAt p)) _ _ _ _ _ _ _ i r); [done..|].
    by apply Hbig.
Qed.

Definition demo_long_error : string :=
  Nat.iter 16 (λ s, String.append s s) "x".

Definition demo_long_fail : FailParams :=
  mkFailParams (demo_id 0) 1 "w-1" demo_long_error 0 true.

Lemma mysql_fail_too_long_witness :
  w_db (run (Fail_ demo_env demo_server demo_long_fail) demo_mysql_leased).2 =
    w_db demo_mysql_leased.
Proof.
  eapply (mysql_fail_too_long demo_env demo_server demo_long_fail demo_mysql_leased (demo_id 0)).
  - vm_compute. reflexivity.
  - vm_compute. reflexivity.
  - vm_compute. reflexivity.
Defined.

(** A deadlock in the history insert loses an acknowledgement silently.
    appendHistory drops the error of its INSERT; when the server chose that
    statement as the victim of a deadlock it has rolled the transaction back,
    and the COMMIT that follows succeeds on nothing: Succeed reports success
    and the database is as it was, the message still HANDLING. *)
Theorem mysql_deadlock_loses_ack env sv w id n wk text :
  let t := w_tick w in
  e_fault env t = NoFault → e_fault env (S t) = NoFault →
  e_fault env (S (S t)) = FailBefore (MySQLError mysql_deadlock text) →
  e_fault env (S (S (S t))) = NoFault →
  (∀ i r, d_msgs (w_db w) !! i = Some r → row_error r = None) →
  run (Succeed env sv id n wk) w = (None, mkWorld (w_db w) (w_tx w) (S (S (S (S t))))).
Proof.
  intros t F0 F1 F2 F3 Hrows. subst t. unfold Succeed, in_tx, atomically, tx_run. simpl.
  rewrite F0. unfold update_and_log, mbind, State_bind, tx_exec at 1, run_stmt. simpl. rewrite F1.
  destruct (Stmt.succeedSQL sv id wk _ _) as [e|[[] db]] eqn:E; simpl.
  - exfalso. unfold Stmt.succeedSQL, Stmt.exec_update, Stmt.update_rows in E.
    destruct (first_error _) as [e'|] eqn:E'; simplify_eq/=.
    apply first_error_elem, list_elem_of_fmap in E' as ([i r] & E' & [Hi _]%elem_of_select_where).
    simpl in *. pose proof (Hrows i r Hi) as E. unfold row_error in E, E'. simpl in E, E'. congruence.
  - unfold appendHistory, mbind, State_bind, tx_exec, run_stmt. simpl. rewrite F2. simpl.
    by rewrite F3.
Qed.

Definition demo_deadlock (n : nat) : Env :=
  mkEnv demo_clock demo_clock
    (λ k, if bool_decide (k = n) then FailBefore (MySQLError mysql_deadlock "Deadlock found") else NoFault)
    (λ _, ∅) (λ _ l, l) Z.of_nat (λ n, Some (demo_id n)) demo_id Some errorString None.

Lemma mysql_deadlock_loses_ack_witness :
  run (Succeed (demo_deadlock (S (S (w_tick demo_mysql_leased)))) demo_server (demo_id 0) 1 "w-1")
    demo_mysql_leased =
  (None, mkWorld (w_db demo_mysql_leased) None (S (S (S (S (w_tick demo_mysql_leased)))))).
Proof.
  apply (mysql_deadlock_loses_ack (demo_deadlock (S (S (w_tick demo_mysql_leased)))) demo_server
    demo_mysql_leased (demo_id 0) 1 "w-1" "Deadlock found").
  - vm_compute. reflexivity.
  - vm_compute. reflexivity.
  - vm_compute. reflexivity.
  - vm_compute. reflexivity.
  - intros i r Hi. apply (map_Forall_lookup_1 (λ _ r, row_error r = None) _ i r) in Hi; [exact Hi|].
    apply (bool_decide_eq_true_1 _). vm_compute. reflexivity.
Defined.

(** Claim loses its UPDATE the same way: it returns a message that is still
    CREATED, which another worker's Claim returns again. *)
Lemma mysql_deadlock_loses_claim :
  let '((out, err), w') :=
    run (Claim (demo_deadlock 10) demo_server demo_mysql_claim) demo_mysql_queue in
  let '((out2, err2), _) :=
    run (Claim demo_env demo_server (mkClaimParams "w-2" 10 (30 * Second) ["order.paid"%string])) w' in
  err = None ∧ (im_ID <$> out) = [demo_id 0] ∧
  r_status <$> (d_msgs (w_db w') !! demo_id 0) = Some StatusCreated ∧
  err2 = None ∧ (im_ID <$> out2) = [demo_id 0].
Proof. vm_compute. split_and!; reflexivity. Qed.
