(* ===== verification/MySQLClaim.v ===== *)
(** * What Claim of the MySQL adapter returns and leases

    Claim is a SELECT ... FOR UPDATE SKIP LOCKED, an UPDATE of the ids selected
    and a SELECT of the updated rows, in one transaction.  Unless a deadlock
    undoes that transaction, it has the same specification as the single
    statement of the PostgreSQL adapter. *)

From S2P Require Import Prelude GoErrors GoFloat Message World Postgres Lifecycle PostgresLogic PostgresFacts Demo Fleet PostgresClaim MySQL MySQLFacts MySQLFleet MySQLOps.

(** [now] and [dbnow]: the process's clock at the SELECT and the server's at the
    UPDATE; [until]: the lease. *)
Record mysql_claim_spec (sv : Server) (now dbnow until : Time) (types : list string)
    (shard : option Z) (locked : gset UUID) (batch : Z) (worker : string)
    (m m' : gmap UUID row) (out : list InboundMessage) : Prop := {
  mc_nodup : NoDup (im_ID <$> out);
  mc_length : Z.of_nat (length out) ≤ batch;
  mc_leased : ∀ msg, msg ∈ out → ∃ r,
    m !! im_ID msg = Some r ∧
    Stmt.claimable sv now types shard locked (im_ID msg) r = true ∧
    m' !! im_ID msg = Some (Stmt.claim_row dbnow worker until r) ∧
    msg = scanMessage (im_ID msg) (Stmt.claim_row dbnow worker until r);
  mc_frame : ∀ i, i ∉ (im_ID <$> out) → m' !! i = m !! i;
  mc_priority : ∀ i r, m !! i = Some r →
    Stmt.claimable sv now types shard locked i r = true → i ∉ (im_ID <$> out) →
    Z.of_nat (length out) = batch ∧
    ∀ msg r', msg ∈ out → m !! im_ID msg = Some r' →
      key_le (r_process_at r', sv_collate sv (im_ID msg)) (r_process_at r, sv_collate sv i);
}.

Section Claim.
Context (env : Env) `{!EnvOK env} (sv : Server) (Hcalm : no_deadlock env) (p : ClaimParams).

#[local] Instance claim_order_total : Total (Stmt.claim_order sv).
Proof.
  intros a b. apply (key_le_total (r_process_at a.2, sv_collate sv a.1)
    (r_process_at b.2, sv_collate sv b.1)).
Qed.

#[local] Instance claim_order_trans : Transitive (Stmt.claim_order sv).
Proof. intros a b c. apply (key_le_trans (r_process_at a.2, sv_collate sv a.1)). Qed.

(** ** The rows of an IN list of ids of the table *)

Abbreviation in_list ids := (λ (i : UUID) (_ : row), Stmt.ci_in sv i ids) (only parsing).

Definition picks (m : gmap UUID row) (sel : list (UUID * row)) : Prop :=
  NoDup sel.*1 ∧ ∀ i r, (i, r) ∈ sel → m !! i = Some r.

Lemma picks_in m sel i r :
  keys_unique sv m → picks m sel → m !! i = Some r →
  Stmt.ci_in sv i sel.*1 = true ↔ i ∈ sel.*1.
Proof.
  intros Hu [_ Hs] Hi. split.
  - intros Hc. eapply (ci_in_ids sv m); [done| |done|done].
    intros j Hj. apply list_elem_of_fmap in Hj as ([j' r'] & -> & Hin). eauto.
  - intros Hin. unfold Stmt.ci_in. apply existsb_exists. exists i.
    rewrite <- list_elem_of_In. split; [done|]. apply ci_refl.
Qed.

(** Fetching the updated rows enumerates exactly the picked ones. *)
Lemma fetch_perm m sel (f : row → row) se :
  (∀ l, s_scan se l ≡ₚ l) → keys_unique sv m → picks m sel →
  SQL.scan_rows se (select_where (in_list sel.*1) (update_where (in_list sel.*1) f m))
    ≡ₚ prod_map id f <$> sel.
Proof.
  intros Hscan Hu Hs. rewrite scan_rows_perm; [|done|apply NoDup_fst_select_where].
  assert (NoDup (prod_map id f <$> sel).*1) as Hnd.
  { rewrite <- list_fmap_compose. apply Hs. }
  apply NoDup_Permutation; [eapply NoDup_fmap_1, NoDup_fst_select_where|by eapply NoDup_fmap_1|].
  intros [i r']. rewrite elem_of_select_where, lookup_update_where, list_elem_of_fmap. split.
  - intros [Hi Hc]. destruct (m !! i) as [r|] eqn:E; [|done]. simpl in Hi.
    rewrite Hc in Hi. simplify_eq. pose proof Hc as Hc'. apply (picks_in m sel i r Hu Hs E) in Hc.
    apply list_elem_of_fmap in Hc as ([i0 r0] & -> & Hin). simpl in *.
    assert (r0 = r) as -> by (apply (proj2 Hs) in Hin; congruence). by exists (i0, r).
  - intros ([i0 r] & [= -> ->] & Hin). pose proof (proj2 Hs _ _ Hin) as Hr. rewrite Hr. simpl.
    assert (Stmt.ci_in sv i0 sel.*1 = true) as Hc.
    { apply (picks_in m sel i0 r Hu Hs Hr), list_elem_of_fmap. by exists (i0, r). }
    by rewrite Hc.
Qed.

Lemma limited_picks now types sh locked batch m :
  let sel := take (Z.to_nat batch) (@merge_sort _ (Stmt.claim_order sv) (Stmt.claim_order_dec sv)
    (select_where (Stmt.claimable sv now types sh locked) m)) in
  picks m sel ∧ ∀ i r, (i, r) ∈ sel → Stmt.claimable sv now types sh locked i r = true.
Proof.
  intros sel.
  assert (∀ i r, (i, r) ∈ sel → m !! i = Some r ∧
    Stmt.claimable sv now types sh locked i r = true) as Hsel.
  { intros i r Hin%elem_of_take_1. rewrite merge_sort_Permutation in Hin.
    by apply elem_of_select_where in Hin. }
  split; [|by intros i r [_ ?]%Hsel]. split; [|by intros i r [? _]%Hsel].
  eapply sublist_NoDup; [|apply fmap_sublist, sublist_take].
  rewrite merge_sort_Permutation. apply NoDup_fst_select_where.
Qed.

(** What the three statements do together. *)
Lemma claim_statements now dbnow until types sh locked batch worker m out se :
  0 ≤ batch → (∀ l, s_scan se l ≡ₚ l) → keys_unique sv m →
  let sel := take (Z.to_nat batch) (@merge_sort _ (Stmt.claim_order sv) (Stmt.claim_order_dec sv)
    (select_where (Stmt.claimable sv now types sh locked) m)) in
  let m' := update_where (in_list sel.*1) (Stmt.claim_row dbnow worker until) m in
  out = (λ ir, scanMessage ir.1 ir.2) <$> SQL.scan_rows se (select_where (in_list sel.*1) m') →
  mysql_claim_spec sv now dbnow until types sh locked batch worker m m' out.
Proof.
  intros Hb Hscan Hu sel m' Hout. set (f := Stmt.claim_row dbnow worker until) in *.
  destruct (limited_picks now types sh locked batch m) as [Hp Hel]. fold sel in Hp, Hel.
  assert (∀ i r, (i, r) ∈ sel → m !! i = Some r ∧
    Stmt.claimable sv now types sh locked i r = true) as Hsel by (split; [by apply Hp|auto]).
  assert (out ≡ₚ (λ ir, scanMessage ir.1 ir.2) <$> (prod_map id f <$> sel)) as Ho.
  { rewrite Hout. unfold m'. by rewrite (fetch_perm m sel f se Hscan Hu Hp). }
  assert (im_ID <$> out ≡ₚ sel.*1) as Hids.
  { rewrite Ho, <- !list_fmap_compose. done. }
  assert (∀ msg, msg ∈ out → ∃ i r, (i, r) ∈ sel ∧ msg = scanMessage i (f r)) as Hmsg.
  { intros msg Hin. rewrite Ho in Hin. apply list_elem_of_fmap in Hin as ([i r'] & -> & Hin).
    apply list_elem_of_fmap in Hin as ([i0 r] & [= -> ->] & Hin). by exists i0, r. }
  split.
  - rewrite Hids. apply Hp.
  - rewrite Ho, !length_fmap. by apply take_Z_length.
  - intros msg (i & r & Hin & ->)%Hmsg. destruct (Hsel i r Hin) as [Hi Hc].
    exists r. simpl. split_and!; [done..| |done]. unfold m'. rewrite lookup_update_where, Hi. simpl.
    assert (Stmt.ci_in sv i sel.*1 = true) as ->; [|done].
    apply (picks_in m sel i r Hu Hp Hi), list_elem_of_fmap. by exists (i, r).
  - intros i Hi. rewrite Hids in Hi. unfold m'. rewrite lookup_update_where.
    destruct (m !! i) as [r|] eqn:E; [|done]. simpl.
    destruct (Stmt.ci_in sv i sel.*1) eqn:Ec; [|done].
    by apply (picks_in m sel i r Hu Hp E) in Ec.
  - intros i r Hi Hcl Hn. rewrite Hids in Hn.
    destruct (@sorted_limit_rest _ (Stmt.claim_order sv) (Stmt.claim_order_dec sv) _ _
      (Z.to_nat batch) (select_where (Stmt.claimable sv now types sh locked) m) (i, r))
      as [Hlen Hbefore].
    { by apply elem_of_select_where. }
    { intros Hin. apply Hn, list_elem_of_fmap. by exists (i, r). }
    change (length sel = Z.to_nat batch) in Hlen.
    split; [rewrite Ho, !length_fmap; lia|].
    intros msg r' (j & r0 & Hin & ->)%Hmsg Hr'. simpl in *.
    destruct (Hsel j r0 Hin) as [Hj _]. simplify_eq. by apply (Hbefore (j, r')).
Qed.

(** ** The transaction *)

Lemma run_stmt_inr {A} (st : stmt A) b n v a v' :
  run_stmt env b n st v = (inr a, v') → st (sql_env env b n) v = inr (a, v').
Proof.
  unfold run_stmt. destruct (e_fault env n); [|done|];
    by destruct (st _ _) as [?|[]]; intros [= -> ->] || intros [=].
Qed.

Lemma claimUpdateSQL_calm wk until ids : calm (Stmt.claimUpdateSQL sv wk until ids).
Proof.
  intros se db e. unfold Stmt.claimUpdateSQL.
  destruct (Stmt.update_rows _ _ _ _) as [?|[]] eqn:E; [|done]. intros [= ->].
  by eapply update_rows_calm.
Qed.

Lemma claimUpdateSQL_msgs wk until ids se v u v' :
  Stmt.claimUpdateSQL sv wk until ids se v = inr (u, v') →
  d_msgs v' = update_where (in_list ids) (Stmt.claim_row (s_now se) wk until) (d_msgs v).
Proof.
  unfold Stmt.claimUpdateSQL. destruct (Stmt.update_rows _ _ _ _) as [?|[k db]] eqn:E; [done|].
  intros [= _ <-]. by apply update_rows_inr in E as [-> _].
Qed.

Definition claim_lease (n : nat) : Time := e_now env n + cp_Lease p.

(** How the part after the selection ends: with an error and nothing kept, or
    at a commit that returns the rows as updated. *)
Lemma claim_ids_run ids d v n :
  let '(r, t) := claim_ids env sv p ids (mkTxS d (Some v) n) in
  ts_db t = d ∧
  match r with
  | TxReturn (out, err) => out = [] ∧ err ≠ None
  | TxCommit k =>
    let m' := update_where (in_list ids)
      (Stmt.claim_row (e_dbnow env n) (cp_WorkerID p) (claim_lease n)) (d_msgs v) in
    let out := (λ ir, scanMessage ir.1 ir.2) <$>
      SQL.scan_rows (sql_env env (S n) (S n)) (select_where (in_list ids) m') in
    (∃ v', ts_view t = Some v' ∧ d_msgs v' = m') ∧
    k None = (out, None) ∧ ∀ e, (k (Some e)).1 = [] ∧ (k (Some e)).2 ≠ None
  end.
Proof.
  unfold claim_ids, mbind, State_bind, tx_now. simpl.
  rewrite (tx_exec_live env Hcalm) by apply claimUpdateSQL_calm.
  destruct (run_stmt env n n _ v) as [[e|u] v1] eqn:E1; simpl; [done|].
  apply run_stmt_inr, claimUpdateSQL_msgs in E1.
  rewrite (tx_exec_live env Hcalm) by done.
  destruct (run_stmt env (S n) (S n) _ v1) as [[e|rows] v2] eqn:E2; simpl; [done|].
  apply run_stmt_inr in E2. injection E2 as Hrows <-.
  set (out := (λ ir, scanMessage ir.1 ir.2) <$> rows).
  pose proof (history_loop_same env sv Hcalm (λ msg, (im_ID msg, im_Attempt msg)) StatusHandling
    StatusHandling "" (cp_WorkerID p) out d (d_msgs v1)
    (mkTxS d (Some v1) (S (S n)))) as Hloop.
  destruct Hloop as (n' & v3 & Ht & Hv3); [by exists (S (S n)), v1|]. simpl in Ht.
  destruct (for_each _ _ _) as [u' t]; simpl in *. subst t. simpl. split; [done|]. split_and!.
  - exists v3. split; [done|]. rewrite Hv3, E1. done.
  - unfold out. rewrite <- Hrows, E1. done.
  - done.
Qed.

(** ** The operation *)

Definition mysql_batch : Z := if cp_Batch p <=? 0 then 100 else cp_Batch p.

Lemma mysql_batch_pos : 0 < mysql_batch.
Proof. unfold mysql_batch. destruct (Z.leb_spec (cp_Batch p) 0); lia. Qed.

(** The tick of the SELECT and the shard filter: one random shard first, then
    all of them. *)
Definition mysql_pass (w : World) (second : bool) : nat * option Z :=
  if second then (w_tick w + 3, None)%nat
  else ((w_tick w + 2)%nat, Some (e_rand env (w_tick w + 1) mod numClaimShards)).

Definition mysql_claimed (w w' : World) (second : bool) (out : list InboundMessage) : Prop :=
  let '(n, sh) := mysql_pass w second in
  mysql_claim_spec sv (e_now env n) (e_dbnow env (S n)) (claim_lease (S n)) (cp_EventTypes p) sh
    (e_locked env n) mysql_batch (cp_WorkerID p) (d_msgs (w_db w)) (d_msgs (w_db w')) out.

Definition selection (n : nat) (sh : option Z) (m : gmap UUID row) : list (UUID * row) :=
  take (Z.to_nat mysql_batch) (@merge_sort _ (Stmt.claim_order sv) (Stmt.claim_order_dec sv)
    (select_where (Stmt.claimable sv (e_now env n) (cp_EventTypes p) sh (e_locked env n)) m)).

Lemma selection_full n sh m i r :
  m !! i = Some r →
  Stmt.claimable sv (e_now env n) (cp_EventTypes p) sh (e_locked env n) i r = true →
  (i, r) ∉ selection n sh m → length (selection n sh m) = Z.to_nat mysql_batch.
Proof.
  intros Hi Hc Hn. eapply (sorted_limit_rest (Stmt.claim_order sv)); [|exact Hn].
  by apply elem_of_select_where.
Qed.

Lemma select_run sh d v n :
  let '(r, t) := selectClaimIDs env sv p mysql_batch sh (mkTxS d (Some v) n) in
  t = mkTxS d (Some v) (S n) ∧
  match r with inr ids => ids = (selection n sh (d_msgs v)).*1 | inl _ => True end.
Proof.
  unfold selectClaimIDs, mbind, State_bind, tx_now. simpl.
  rewrite (tx_exec_live env Hcalm) by done. unfold run_stmt. by destruct (e_fault env n).
Qed.

(** The transaction from the selection on, run to its end. *)
Definition finish {B} (w : World) (rt : TxEnd B * TxS) : B * World :=
  let '(r, t) := rt in
  match r with
  | TxReturn b => (b, mkWorld (ts_db t) (w_tx w) (ts_tick t))
  | TxCommit k =>
    let committed := default (ts_db t) (ts_view t) in
    match e_fault env (ts_tick t) with
    | NoFault => (k None, mkWorld committed (w_tx w) (S (ts_tick t)))
    | FailBefore e => (k (Some e), mkWorld (ts_db t) (w_tx w) (S (ts_tick t)))
    | FailAfter e => (k (Some e), mkWorld committed (w_tx w) (S (ts_tick t)))
    end
  end.

Definition claim_outcome (w : World) (r : (list InboundMessage * option error) * World) : Prop :=
  (r.1.2 = None → ∃ second, (second = false → r.1.1 ≠ []) ∧ mysql_claimed w r.2 second r.1.1) ∧
  (r.1.2 ≠ None → r.1.1 = [] ∧
    (d_msgs (w_db r.2) = d_msgs (w_db w) ∨ ∃ second out, mysql_claimed w r.2 second out)).

(** The selection of a pass, updated and fetched. *)
Lemma finish_pass w second n sh :
  keys_unique sv (d_msgs (w_db w)) → mysql_pass w second = (n, sh) →
  (second = false → (selection n sh (d_msgs (w_db w))).*1 ≠ []) →
  claim_outcome w (finish w (claim_ids env sv p (selection n sh (d_msgs (w_db w))).*1
    (mkTxS (w_db w) (Some (w_db w)) (S n)))).
Proof.
  intros Hu Hpass Hne. pose proof mysql_batch_pos.
  pose proof (claim_ids_run (selection n sh (d_msgs (w_db w))).*1 (w_db w) (w_db w) (S n)) as Hrun.
  destruct (claim_ids _ _ _ _ _) as [r t]. destruct Hrun as [Hdb Hr].
  unfold finish. destruct r as [[out err]|k].
  { destruct Hr as [-> Herr]. split; simpl; [done|]. intros _. split; [done|]. left. by rewrite Hdb. }
  destruct Hr as ((v' & Hv & Hm) & Hk & Hke).
  set (out := (λ ir, scanMessage ir.1 ir.2) <$> _) in Hk.
  assert (mysql_claim_spec sv (e_now env n) (e_dbnow env (S n)) (claim_lease (S n))
    (cp_EventTypes p) sh (e_locked env n) mysql_batch (cp_WorkerID p) (d_msgs (w_db w))
    (d_msgs v') out) as Hspec.
  { rewrite Hm. eapply claim_statements; [lia| |done|reflexivity]. intros l. apply scan_perm. }
  assert (∀ tk, mysql_claimed w (mkWorld v' (w_tx w) tk) second out) as Hcl.
  { intros tk. unfold mysql_claimed. by rewrite Hpass. }
  rewrite Hv, Hdb. simpl. destruct (e_fault env (ts_tick t)) as [|e|e]; unfold claim_outcome; simpl.
  - rewrite Hk. split; [|done]. intros _. exists second. split; [|apply Hcl].
    intros Hs Ho. apply (Hne Hs). change (out = []) in Ho. apply (f_equal length) in Ho.
    unfold out in Ho.
    rewrite length_fmap, (fetch_perm _ (selection n sh (d_msgs (w_db w))) _
      (sql_env env (S (S n)) (S (S n))) (λ l, scan_perm _ l) Hu
      (proj1 (limited_picks _ _ _ _ _ _))), length_fmap in Ho.
    by apply length_zero_iff_nil in Ho as ->.
  - destruct (Hke e) as [-> ?]. split; [done|]. intros _. auto.
  - destruct (Hke e) as [-> ?]. split; [done|]. intros _. split; [done|]. right. eauto.
Qed.

Lemma tx_run_finish {B} (ob : error → B) body w :
  e_fault env (w_tick w) = NoFault →
  tx_run env ob body w = finish w (body (mkTxS (w_db w) (Some (w_db w)) (S (w_tick w)))).
Proof. unfold tx_run. intros ->. by destruct (body _) as [[b|k] t]. Qed.

(** Nothing selected: the commit of an unchanged database. *)
Lemma finish_empty w n t :
  (selection n None (d_msgs (w_db w))).*1 = [] → mysql_pass w true = (n, None) →
  ts_db t = w_db w → ts_view t = Some (w_db w) →
  claim_outcome w (finish w (TxCommit (λ err, ([], err)), t)).
Proof.
  intros Hsel Hpass Hdb Hv. pose proof mysql_batch_pos.
  assert (mysql_claimed w (mkWorld (w_db w) (w_tx w) (S (ts_tick t))) true []) as Hc.
  { unfold mysql_claimed. rewrite Hpass. split; simpl.
    - constructor.
    - lia.
    - by intros msg ?%elem_of_nil.
    - done.
    - intros i r Hi Hcl _. exfalso.
      apply fmap_nil_inv in Hsel.
      pose proof (selection_full n None (d_msgs (w_db w)) i r Hi Hcl) as Hlen.
      rewrite Hsel in Hlen. specialize (Hlen (not_elem_of_nil _)). simpl in Hlen. lia. }
  unfold finish. rewrite Hdb, Hv. simpl.
  destruct (e_fault env (ts_tick t)); unfold claim_outcome; simpl.
  - split; [|done]. intros _. by exists true.
  - split; [done|]. auto.
  - split; [done|]. auto.
Qed.

Lemma mysql_Claim_outcome w :
  cp_EventTypes p ≠ [] → keys_unique sv (d_msgs (w_db w)) →
  claim_outcome w (run (Claim env sv p) w).
Proof.
  intros Hty Hu. unfold Claim. fold mysql_batch.
  destruct (cp_EventTypes p) as [|ty tys] eqn:Ety; [done|]. clear Hty.
  unfold in_tx, atomically. cbn [run].
  destruct (tx_run env _ (claim_body env sv p mysql_batch) w) as [b w'] eqn:Erun.
  change (claim_outcome w (b, w')). rewrite <- Erun. clear Erun b w'.
  destruct (e_fault env (w_tick w)) as [|e|e] eqn:E.
  2,3: unfold tx_run; rewrite E; split; [done|]; intros _; split; [done|by left].
  rewrite tx_run_finish by done. unfold claim_body, mbind, State_bind, tx_rand. simpl.
  pose proof (select_run (Some (e_rand env (S (w_tick w)) mod numClaimShards)) (w_db w) (w_db w)
    (S (S (w_tick w)))) as H1.
  destruct (selectClaimIDs _ _ _ _ (Some _) _) as [[e1|ids1] t1]; destruct H1 as [-> H1]; simpl.
  { split; [done|]. intros _. split; [done|by left]. }
  assert (mysql_pass w false = (S (S (w_tick w)),
    Some (e_rand env (S (w_tick w)) mod numClaimShards))) as P1.
  { unfold mysql_pass. by rewrite !Nat.add_succ_r, Nat.add_0_r. }
  assert (mysql_pass w true = (S (S (S (w_tick w))), None)) as P2.
  { unfold mysql_pass. by rewrite !Nat.add_succ_r, Nat.add_0_r. }
  destruct ids1 as [|i1 ids1]; cbv beta iota.
  - pose proof (select_run None (w_db w) (w_db w) (S (S (S (w_tick w))))) as H2.
    destruct (selectClaimIDs _ _ _ _ None _) as [[e2|ids2] t2]; destruct H2 as [-> H2]; simpl.
    { split; [done|]. intros _. split; [done|by left]. }
    destruct ids2 as [|i2 ids2].
    + by eapply finish_empty.
    + rewrite H2. by eapply finish_pass.
  - simpl. rewrite H1. eapply finish_pass; [done|done|]. intros _. by rewrite <- H1.
Qed.
End Claim.

(** What Claim of the MySQL adapter returns is what it leased.  Unless a
    deadlock undoes its transaction, a Claim that reports no error has, in one
    of its two passes, leased exactly the messages it returns: they are
    distinct, at most [Batch] many (100 when not positive), were CREATED or
    RETRYING, due by the process's clock, of a requested type (as the collation
    compares texts) and not locked; each is HANDLING under this worker with one
    more attempt and a lease until the process's clock plus [Lease], and is
    returned as stored; no other row changed, and an eligible row was left out
    only because the batch is full of rows that precede it.  A Claim that
    reports an error returns nothing, and the messages are unchanged unless the
    error was that of the commit itself. *)
Theorem mysql_Claim_leases env `{!EnvOK env} sv p w out err w' :
  no_deadlock env → cp_EventTypes p ≠ [] → keys_unique sv (d_msgs (w_db w)) →
  run (Claim env sv p) w = ((out, err), w') →
  (err = None → mysql_claimed env sv p w w' false out ∨ mysql_claimed env sv p w w' true out) ∧
  (err ≠ None → out = [] ∧
    (d_msgs (w_db w') = d_msgs (w_db w) ∨ ∃ second out', mysql_claimed env sv p w w' second out')).
Proof.
  intros Hc Hty Hu Hrun. destruct (mysql_Claim_outcome env sv Hc p w Hty Hu) as [H1 H2].
  rewrite Hrun in H1, H2. simpl in *. split; [|done]. intros Herr.
  destruct (H1 Herr) as ([] & _ & H); auto.
Qed.

Lemma mysql_Claim_leases_witness :
  ∃ out w', run (Claim demo_env demo_server demo_mysql_claim) demo_mysql_queue = ((out, None), w') ∧
    (im_ID <$> out) = [demo_id 0] ∧
    (mysql_claimed demo_env demo_server demo_mysql_claim demo_mysql_queue w' false out ∨
     mysql_claimed demo_env demo_server demo_mysql_claim demo_mysql_queue w' true out).
Proof.
  do 2 eexists. split; [vm_compute; reflexivity|]. split; [vm_compute; reflexivity|].
  eapply (mysql_Claim_leases demo_env demo_server demo_mysql_claim demo_mysql_queue).
  - intros n e [[=]|[=]].
  - done.
  - exact (proj2 (proj1 (proj1 (mysql_fleet_steps_ok demo_env demo_server _ _
      (mysql_fleet_op demo_env demo_server (OpEnqueue TxZero demo_params) init_world [])
      (mysql_init_ok demo_server))))).
  - vm_compute. reflexivity.
  - reflexivity.
Defined.
