(* ===== verification/MySQLEnqueue.v ===== *)
(** * Enqueue on MySQL

    An INSERT, then a SELECT of the row inserted or, when the server reports a
    duplicate entry, of the row that has the key. *)

From S2P Require Import Prelude GoErrors GoFloat Message World Postgres Lifecycle PostgresLogic PostgresFacts Demo Fleet PostgresClaim MySQL MySQLFacts MySQLFleet MySQLOps.

Section Enqueue.
Context (env : Env) (sv : Server) (p : EnqueueParams).

(** The id, process_at, shard and row an Enqueue at [w] inserts. *)
Definition eq_id (w : World) : UUID :=
  match e_v7 env (w_tick w) with Some u => u | None => e_v4 env (w_tick w) end.

Definition eq_row (w : World) : row :=
  SQL.new_row (ep_EventType p) (ep_Payload p) (encodeHeaders (ep_Headers p))
    (nullif_empty (ep_IdempotencyKey p)) (if ep_MaxAttempts p <=? 0 then 10 else ep_MaxAttempts p)
    (if IsZero (ep_ProcessAt p) then e_now env (S (w_tick w)) else ep_ProcessAt p)
    (e_rand env (S (w_tick w)) mod numClaimShards) (e_dbnow env (S (S (w_tick w)))).

Abbreviation t2 w := (S (S (w_tick w))) (only parsing).

(** Before the INSERT, Enqueue only draws. *)
Lemma mysql_run_Enqueue tx w :
  run (Enqueue env sv tx p) w =
  run (r ← exec_write env (execer tx) (Stmt.enqueueSQL sv (eq_id w) (ep_EventType p)
         (ep_Payload p) (encodeHeaders (ep_Headers p)) (nullif_empty (ep_IdempotencyKey p))
         (if ep_MaxAttempts p <=? 0 then 10 else ep_MaxAttempts p)
         (if IsZero (ep_ProcessAt p) then e_now env (S (w_tick w)) else ep_ProcessAt p)
         (e_rand env (S (w_tick w)) mod numClaimShards));
       match r with
       | inl err =>
         if isDuplicateErr err && negb (bool_decide (ep_IdempotencyKey p = ""%string)) then
           existing ← findByIdempotency env sv (execer tx) (ep_EventType p) (ep_IdempotencyKey p);
           mret (match existing with
                 | inl ferr => (None, Some ferr)
                 | inr m => (Some m, Some (ErrDuplicate (im_ID m) (ep_EventType p) (ep_IdempotencyKey p)))
                 end)
         else mret (None, Some (Errorf_w "tickr/mysql: enqueue" err))
       | inr _ =>
         found ← findByID env sv (execer tx) (eq_id w);
         mret (match found with inl e => (None, Some e) | inr m => (Some m, None) end)
       end) (mkWorld (w_db w) (w_tx w) (t2 w)).
Proof.
  unfold Enqueue. rewrite run_bind. cbn [run newID atomically]. rewrite run_bind.
  destruct (IsZero (ep_ProcessAt p)); cbn [run time_Now atomically mret prog_mret];
    rewrite run_bind; reflexivity.
Qed.

(** The first row of a query of the pool. *)
Lemma scan_head se (q : UUID → row → bool) (m : gmap UUID row) i r :
  (∀ l, s_scan se l ≡ₚ l) → head (SQL.scan_rows se (select_where q m)) = Some (i, r) →
  m !! i = Some r ∧ q i r = true.
Proof.
  intros Hscan Hh. apply elem_of_select_where.
  rewrite <- (elem_of_scan_rows se); [|done|apply NoDup_fst_select_where].
  destruct (SQL.scan_rows _ _); simplify_eq/=. by left.
Qed.

Lemma scan_head_None se (q : UUID → row → bool) (m : gmap UUID row) i r :
  (∀ l, s_scan se l ≡ₚ l) → head (SQL.scan_rows se (select_where q m)) = None →
  m !! i = Some r → q i r = false.
Proof.
  intros Hscan Hh Hi. destruct (q i r) eqn:E; [|done].
  assert ((i, r) ∈ SQL.scan_rows se (select_where q m)) as Hin.
  { apply elem_of_scan_rows; [done|apply NoDup_fst_select_where|by apply elem_of_select_where]. }
  destruct (SQL.scan_rows _ _); [by apply elem_of_nil in Hin|done].
Qed.

Lemma run_pool_inr {A} (st : stmt A) w :
  match run (exec_pool env st) w with
  | (inr a, w') => ∃ db', st (sql_env env (w_tick w) (w_tick w)) (w_db w) = inr (a, db') ∧
                     w' = mkWorld db' (w_tx w) (S (w_tick w))
  | (inl e, w') => (e_fault env (w_tick w) = NoFault → w' = mkWorld (w_db w) (w_tx w) (S (w_tick w)))
  end.
Proof.
  unfold exec_pool, atomically, pool_action, run_stmt. simpl.
  destruct (e_fault env (w_tick w)); simpl; [|by intros [=]|].
  - destruct (st _ _) as [e|[a db]]; simpl; [done|]. eauto.
  - destruct (st _ _) as [e'|[a db]]; simpl; by intros [=].
Qed.
End Enqueue.

(** What Enqueue stores on MySQL, outside a transaction.  When it reports no
    error, one row was added to the table under the generated id, CREATED with
    no attempt, with the parameters given (10 attempts and the process's clock
    by default), and the message returned is that row; no other row changed.
    When it reports a duplicate, nothing changed, and the message returned is
    a row of the table whose event type and idempotency key equal those given
    as the collation compares texts. *)
Theorem mysql_Enqueue_stores env `{!EnvOK env} sv p w m err w' :
  (∀ n, e_fault env n = NoFault) →
  run (Enqueue env sv TxZero p) w = ((Some m, err), w') →
  match err with
  | None =>
    d_msgs (w_db w) !! eq_id env w = None ∧
    d_msgs (w_db w') = <[eq_id env w := eq_row env p w]> (d_msgs (w_db w)) ∧
    m = scanMessage (eq_id env w) (eq_row env p w)
  | Some e =>
    w_db w' = w_db w ∧ e = ErrDuplicate (im_ID m) (ep_EventType p) (ep_IdempotencyKey p) ∧
    ∃ r, d_msgs (w_db w) !! im_ID m = Some r ∧ m = scanMessage (im_ID m) r ∧
      Stmt.ci sv (r_event_type r) (ep_EventType p) = true ∧
      Stmt.ci_opt sv (r_idempotency_key r) (ep_IdempotencyKey p) = true
  end.
Proof.
  intros Hnf. rewrite mysql_run_Enqueue, run_bind. change (execer TxZero) with poolQuerier.
  cbn [exec_write]. set (st := Stmt.enqueueSQL _ _ _ _ _ _ _ _ _).
  pose proof (run_pool_inr env st (mkWorld (w_db w) (w_tx w) (S (S (w_tick w))))) as H1.
  destruct (run (exec_pool env st) _) as [[e1|u] w1]; simpl in H1.
  - rewrite (H1 (Hnf _)). destruct (_ && _); [|by intros [=]].
    unfold findByIdempotency. cbn [exec_read]. rewrite !run_bind.
    match goal with |- context [run (exec_pool env ?st2) ?w2] =>
      pose proof (run_pool_inr env st2 w2) as H2; destruct (run (exec_pool env st2) w2) as [[e2|o] w3] end;
      [by intros [=]|]. destruct H2 as (db' & [= Ho <-] & ->).
    destruct o as [[i r]|]; simpl; [|by intros [=]]. intros [= <- <- <-]. simpl.
    apply scan_head in Ho as [Hi Hq]; [|intros l; apply scan_perm]. bools.
    split_and!; [done..|]. exists r. by split_and!.
  - destruct H1 as (db' & Hst & ->). apply enqueueSQL_inr in Hst as (_ & -> & Hn). simpl in Hn.
    pose proof (unique_fresh sv _ _ _ Hn) as Hfresh.
    unfold findByID. cbn [exec_read]. rewrite !run_bind.
    match goal with |- context [run (exec_pool env ?st2) ?w2] =>
      pose proof (run_pool_inr env st2 w2) as H2; destruct (run (exec_pool env st2) w2) as [[e2|o] w3] end;
      [by intros [=]|]. destruct H2 as (db' & [= Ho <-] & ->).
    destruct o as [[i r]|]; simpl; [|by intros [=]]. intros [= <- <- <-]. simpl.
    apply scan_head in Ho as [Hi Hq]; [|intros l; apply scan_perm].
    apply lookup_insert_Some in Hi as [[<- <-]|[Hne Hi]]; [by split_and!|].
    destruct (Hn i r Hi) as [Hc _]. by rewrite ci_sym, Hq in Hc.
Qed.

Lemma mysql_Enqueue_stores_witness :
  ∃ m w', run (Enqueue demo_env demo_server TxZero demo_params) demo_mysql_queue =
      ((Some m, Some (ErrDuplicate (demo_id 0) "order.paid" "k-1")), w') ∧
    w_db w' = w_db demo_mysql_queue.
Proof.
  do 2 eexists. split; [vm_compute; reflexivity|].
  apply (mysql_Enqueue_stores demo_env demo_server demo_params demo_mysql_queue
    (default (scanMessage "" (SQL.new_row "" "" ∅ None 1 1 1 1))
      (run (Enqueue demo_env demo_server TxZero demo_params) demo_mysql_queue).1.1)
    (Some (ErrDuplicate (demo_id 0) "order.paid" "k-1"))
    (run (Enqueue demo_env demo_server TxZero demo_params) demo_mysql_queue).2).
  - done.
  - vm_compute. reflexivity.
Defined.

(** Statements of the caller's transaction, without faults. *)
Lemma run_tx_write env {A} (st : stmt A) w t :
  e_fault env (w_tick w) = NoFault → w_tx w = Some t → t_aborted t = false →
  (∃ e, st (sql_env env (w_tick w) (w_tick w)) (tx_view (w_db w) t) = inl e ∧
     is_deadlock (inl e : error + unit) = false ∧
     run (exec_write env txQuerier st) w =
       (inl e, mkWorld (w_db w) (Some (tx_update (w_db w) (tx_view (w_db w) t) false t)) (S (w_tick w)))) ∨
  (∃ e, st (sql_env env (w_tick w) (w_tick w)) (tx_view (w_db w) t) = inl e ∧
     is_deadlock (inl e : error + unit) = true) ∨
  (∃ a view, st (sql_env env (w_tick w) (w_tick w)) (tx_view (w_db w) t) = inr (a, view)).
Proof.
  intros Hf Ht Ha. unfold exec_write, atomically, tx_write, run_stmt. simpl. rewrite Ht, Ha, Hf.
  destruct (st _ _) as [e|[a view]]; [|by right; right; eauto].
  destruct (is_deadlock (inl e : error + unit)) eqn:E; [by right; left; eauto|].
  left. exists e. split_and!; [done..|]. 
  change (is_deadlock (inl e)) with (is_deadlock (inl e : error + unit)). by rewrite E.
Qed.

(** The INSERT of a row that fits, whose key is taken, reports errno 1062. *)
Lemma enqueueSQL_dup sv id et pl hd k ma pa sh se db i r :
  varchar 36 id = true →
  row_error (SQL.new_row et pl hd (Some k) ma pa sh (s_now se)) = None →
  d_msgs db !! i = Some r → Stmt.ci sv et (r_event_type r) = true →
  (∃ k', r_idempotency_key r = Some k' ∧ Stmt.ci sv k k' = true) →
  Stmt.enqueueSQL sv id et pl hd (Some k) ma pa sh se db = inl err_dup_entry.
Proof.
  intros Hid Hrow Hi Het (k' & Hk & Hkk). unfold Stmt.enqueueSQL.
  unfold first_error at 1. rewrite Hid, Hrow. simpl.
  assert (Stmt.duplicate_entry sv id (SQL.new_row et pl hd (Some k) ma pa sh (s_now se))
    (d_msgs db) = true) as ->; [|done].
  unfold Stmt.duplicate_entry. apply negb_true_iff, bool_decide_eq_false_2. intros Hn.
  pose proof (select_where_nil _ _ Hn i r Hi) as H. cbv beta in H.
  apply orb_false_iff in H as [_ H]. unfold Stmt.key_collides in H. simpl in H.
  by rewrite Het, Hk, Hkk in H.
Qed.

(** Under REPEATABLE READ a duplicate may not be recognised.  When the
    caller's transaction has read before, so that it holds a snapshot, and a
    row with the same event type and idempotency key was committed since,
    Enqueue in that transaction reports no ErrDuplicate: the INSERT finds the
    duplicate entry, the SELECT of the existing row does not see it, and the
    error is that of a query without rows. *)
Theorem mysql_snapshot_hides_duplicate env `{!EnvOK env} sv p w t snap i r k' :
  (∀ n, e_fault env n = NoFault) → sv_repeatable sv = true →
  w_tx w = Some t → t_aborted t = false → t_snap t = Some snap → ep_IdempotencyKey p ≠ ""%string →
  varchar 36 (eq_id env w) = true → row_error (eq_row env p w) = None →
  d_msgs (w_db w) !! i = Some r → Stmt.ci sv (ep_EventType p) (r_event_type r) = true →
  r_idempotency_key r = Some k' → Stmt.ci sv (ep_IdempotencyKey p) k' = true →
  (∀ j r', (snap ∪ (d_msgs (tx_view (w_db w) t) ∖ d_msgs (w_db w))) !! j = Some r' →
     Stmt.ci sv (r_event_type r') (ep_EventType p) &&
     Stmt.ci_opt sv (r_idempotency_key r') (ep_IdempotencyKey p) = false) →
  ∃ w', run (Enqueue env sv TxOwn p) w =
    ((None, Some (Errorf_w "tickr/mysql: fetch by idempotency key" sql_ErrNoRows)), w') ∧
    w_db w' = w_db w.
Proof.
  intros Hnf Hrr Ht Ha Hsnap Hk Hid Hrow Hi Het Hk' Hkk Hnone.
  rewrite mysql_run_Enqueue, run_bind. change (execer TxOwn) with txQuerier.
  unfold eq_row in Hrow. unfold nullif_empty in *. rewrite bool_decide_eq_false_2 in * by done.
  set (w2 := mkWorld (w_db w) (w_tx w) (S (S (w_tick w)))).
  set (st := Stmt.enqueueSQL _ _ _ _ _ _ _ _ _).
  assert (st (sql_env env (w_tick w2) (w_tick w2)) (tx_view (w_db w2) t) = inl err_dup_entry) as Hst.
  { eapply (enqueueSQL_dup sv _ _ _ _ _ _ _ _ _ _ i r); eauto. simpl.
    by apply lookup_union_Some_l. }
  destruct (run_tx_write env st w2 t (Hnf _) Ht Ha) as [(e & He & _ & ->)|[(e & He & Hd)|(a & v & He)]];
    rewrite Hst in He; simplify_eq.
  change (isDuplicateErr err_dup_entry) with true. cbn [negb andb].
  unfold findByIdempotency, exec_read, atomically, tx_read. rewrite !run_bind. cbn [run w_tx w_db w_tick].
  cbn [tx_update t_aborted]. unfold run_stmt. rewrite Hnf. cbn beta iota.
  unfold Stmt.findByIdemSQL, snapshot. cbn [t_snap tx_update]. rewrite Hrr, Hsnap. simpl.
  destruct (head _) as [[j r']|] eqn:Eh.
  - apply scan_head in Eh as [Hj Hq]; [|intros l; apply scan_perm].
    rewrite (Hnone j r') in Hq; [done|]. exact Hj.
  - eexists. split; [reflexivity|done].
Qed.

(** Another process enqueues the key after the caller's first read. *)
Definition demo_stale_snapshot : World :=
  set_tx (Some (mkTxState 0 ∅ [] false (Some ∅))) demo_mysql_queue.

Lemma mysql_snapshot_hides_duplicate_witness :
  ∃ w', run (Enqueue demo_env demo_server TxOwn demo_params) demo_stale_snapshot =
    ((None, Some (Errorf_w "tickr/mysql: fetch by idempotency key" sql_ErrNoRows)), w') ∧
    w_db w' = w_db demo_stale_snapshot.
Proof.
  eapply (mysql_snapshot_hides_duplicate demo_env demo_server demo_params demo_stale_snapshot
    (mkTxState 0 ∅ [] false (Some ∅)) ∅ (demo_id 0)).
  1-12: try (vm_compute; reflexivity); try done.
  intros j r' H. apply lookup_union_Some_raw in H as [H|[_ H]].
  - by rewrite lookup_empty in H.
  - simpl in H. rewrite map_union_empty, map_difference_diag in H. by rewrite lookup_empty in H.
Defined.
