(* ===== verification/Migrations.v ===== *)
(** * Schema migrations (ApplyMigrations of storage/postgres/postgres.go,
      storage/mysql/mysql.go and storage/cockroach/cockroach.go)

    A migration is an embedded file whose name starts with its version.  The
    runner executes the scripts whose versions the version table does not
    list, in the order of their names, and records each.  What a script does to
    the schema is the server's: [ddl] executes one text on a schema.  On
    PostgreSQL a script and its record are one transaction; on MySQL every
    statement of a script commits by itself. *)

From S2P Require Import Prelude GoErrors GoStrings World Postgres.
From Stdlib Require Import Ascii.

(** ** File names *)

(** The value of at most [width] leading digits, on top of [acc]. *)
Fixpoint scan_digits (width : nat) (acc : Z) (s : string) : Z :=
  match width, s with
  | S w, String c s =>
    match digit_of c with Some d => scan_digits w (acc * 10 + d) s | None => acc end
  | _, _ => acc
  end.

(** [fmt.Sscanf(name, "%04d_", &version)], errors dropped: up to four
    characters of an optionally signed number, 0 when there is none.  Embedded
    file names hold no white space. *)
Definition scan_version (name : string) : Z :=
  match name with
  | String "-" s => - scan_digits 3 0 s
  | String "+" s => scan_digits 3 0 s
  | s => scan_digits 4 0 s
  end.

Definition name_le (a b : string) : Prop := String.leb a b = true.

#[export] Instance name_le_dec : RelDecision name_le.
Proof. intros a b. unfold name_le. apply _. Defined.

#[export] Instance name_le_total : Total name_le.
Proof. intros a b. unfold name_le. apply String.leb_total. Qed.

#[export] Instance name_le_trans : Transitive name_le.
Proof. intros a b c. unfold name_le. apply leb_trans. Qed.

(** An embedded file system. *)
Record Embed := mkEmbed {
  fs_ReadDir : string → error + list string;
  fs_ReadFile : string → error + string;
}.

(** [s.migrationSource()] *)
Definition migrationSource (s : Store) (migrationsFS partitionedMigrationsFS : Embed)
    : Embed * string :=
  if partitioned s then (partitionedMigrationsFS, "migrations_partitioned"%string)
  else (migrationsFS, "migrations"%string).

(** [splitSQL] of the MySQL adapter *)
Definition splitSQL (s : string) : list string := TrimSpace <$> Split ";" s.

Section Migrations.
Context {S : Type} (ddl : string → S → error + S).

(** The schema, and the version table when it exists. *)
Record Tables := mkTables { tb_schema : S; tb_versions : option (gset Z) }.

Record MigState := mkMig { mg_tables : Tables; mg_tick : nat }.

(** Faults by tick, and the versions a read of the version table yields: its
    rows end early, unnoticed, when the connection breaks. *)
Record MigEnv := mkMigEnv { me_fault : nat → Fault; me_seen : nat → gset Z → gset Z }.

Context (env : MigEnv).

Abbreviation Mig := (State MigState) (only parsing).

Definition faulted {A} (n : nat) (st : Tables → error + (A * Tables)) (tb : Tables)
    : (error + A) * Tables :=
  match me_fault env n with
  | FailBefore e => (inl e, tb)
  | NoFault => match st tb with inl e => (inl e, tb) | inr (a, tb') => (inr a, tb') end
  | FailAfter e => match st tb with inl e' => (inl e', tb) | inr (_, tb') => (inl e, tb') end
  end.

(** One auto-committed statement. *)
Definition mig_exec {A} (st : Tables → error + (A * Tables)) : Mig (error + A) := λ s,
  let '(res, tb) := faulted (mg_tick s) st (mg_tables s) in (res, mkMig tb (1 + mg_tick s)).

Definition err_no_table : error := errorString "relation tickr_schema_version does not exist".

(** CREATE TABLE IF NOT EXISTS tickr_schema_version *)
Definition create_versions (tb : Tables) : error + (unit * Tables) :=
  inr ((), mkTables (tb_schema tb) (Some (default ∅ (tb_versions tb)))).

(** SELECT version FROM tickr_schema_version, read to the end *)
Definition select_versions (n : nat) (tb : Tables) : error + (gset Z * Tables) :=
  match tb_versions tb with
  | Some vs => inr (me_seen env n vs, tb)
  | None => inl err_no_table
  end.

(** INSERT ... ON CONFLICT DO NOTHING, INSERT IGNORE *)
Definition insert_version (v : Z) (tb : Tables) : error + (unit * Tables) :=
  match tb_versions tb with
  | Some vs => inr ((), mkTables (tb_schema tb) (Some ({[v]} ∪ vs)))
  | None => inl err_no_table
  end.

Definition run_ddl (script : string) (tb : Tables) : error + (unit * Tables) :=
  match ddl script (tb_schema tb) with
  | inl e => inl e
  | inr s => inr ((), mkTables s (tb_versions tb))
  end.

Definition read_versions : Mig (error + gset Z) := λ s,
  mig_exec (select_versions (mg_tick s)) s.

(** *** PostgreSQL *)

Inductive PgStep := PgBegin | PgApply | PgRecord | PgCommit.

(** Begin, Exec(script), INSERT, Commit: nothing is kept unless Commit takes
    effect. *)
Definition pg_migration_tx (script : string) (v : Z) : Mig (option (PgStep * error)) := λ s,
  let n := mg_tick s in
  let fail st e k := (Some (st, e), mkMig (mg_tables s) (k + n)) in
  match me_fault env n with
  | FailBefore e | FailAfter e => fail PgBegin e 1%nat
  | NoFault =>
    match faulted (1 + n) (run_ddl script) (mg_tables s) with
    | (inl e, _) => fail PgApply e 2%nat
    | (inr _, tb1) =>
      match faulted (2 + n) (insert_version v) tb1 with
      | (inl e, _) => fail PgRecord e 3%nat
      | (inr _, tb2) =>
        match me_fault env (3 + n) with
        | NoFault => (None, mkMig tb2 (4 + n))
        | FailBefore e => fail PgCommit e 4%nat
        | FailAfter e => (Some (PgCommit, e), mkMig tb2 (4 + n))
        end
      end
    end
  end.

Definition pg_migration_error (name : string) (r : PgStep * error) : error :=
  let verb := match r.1 with
              | PgBegin => "begin migration " | PgApply => "apply migration "
              | PgRecord => "record migration " | PgCommit => "commit migration "
              end%string in
  Errorf_w ("tickr/postgres: " ++ verb ++ name)%string r.2.

(** The loop over the sorted entries. *)
Fixpoint pg_apply_loop (fs : Embed) (dir : string) (applied : gset Z) (names : list string)
    : Mig (option error) :=
  match names with
  | [] => mret None
  | name :: names =>
    if negb (HasSuffix name ".sql") then pg_apply_loop fs dir applied names
    else
      let version := scan_version name in
      if (version =? 0) || bool_decide (version ∈ applied) then pg_apply_loop fs dir applied names
      else
        match fs_ReadFile fs (dir ++ "/" ++ name)%string with
        | inl e => mret (Some (Errorf_w ("tickr/postgres: read migration " ++ name)%string e))
        | inr b =>
          r ← pg_migration_tx b version;
          match r with
          | Some f => mret (Some (pg_migration_error name f))
          | None => pg_apply_loop fs dir applied names
          end
        end
  end.

Definition ApplyMigrations (fs : Embed) (dir : string) : Mig (option error) :=
  match fs_ReadDir fs dir with
  | inl e => mret (Some (Errorf_w "tickr/postgres: read migrations" e))
  | inr entries =>
    let entries := merge_sort name_le entries in
    r ← mig_exec create_versions;
    match r with
    | inl e => mret (Some (Errorf_w "tickr/postgres: bootstrap version table" e))
    | inr _ =>
      q ← read_versions;
      match q with
      | inl e => mret (Some (Errorf_w "tickr/postgres: read versions" e))
      | inr applied => pg_apply_loop fs dir applied entries
      end
    end
  end.

(** *** CockroachDB: then the lock table *)

Definition Cockroach_ApplyMigrations (fs : Embed) (dir lock_table : string) : Mig (option error) :=
  err ← ApplyMigrations fs dir;
  match err with
  | Some e => mret (Some e)
  | None =>
    r ← mig_exec (run_ddl lock_table);
    mret (match r with
          | inl e => Some (Errorf_w "tickr/cockroach: create lock table" e)
          | inr _ => None
          end)
  end.

(** *** MySQL *)

(** The statements of one script, empty ones skipped. *)
Fixpoint mysql_statements (stmts : list string) : Mig (option error) :=
  match stmts with
  | [] => mret None
  | st :: stmts =>
    if bool_decide (TrimSpace st = ""%string) then mysql_statements stmts
    else
      r ← mig_exec (run_ddl st);
      match r with
      | inl e => mret (Some e)
      | inr _ => mysql_statements stmts
      end
  end.

Fixpoint mysql_apply_loop (fs : Embed) (applied : gset Z) (names : list string)
    : Mig (option error) :=
  match names with
  | [] => mret None
  | name :: names =>
    if negb (HasSuffix name ".sql") then mysql_apply_loop fs applied names
    else
      let version := scan_version name in
      if (version =? 0) || bool_decide (version ∈ applied) then mysql_apply_loop fs applied names
      else
        match fs_ReadFile fs ("migrations/" ++ name)%string with
        | inl e => mret (Some (Errorf_w ("tickr/mysql: read " ++ name)%string e))
        | inr b =>
          err ← mysql_statements (splitSQL b);
          match err with
          | Some e => mret (Some (Errorf_w ("tickr/mysql: apply " ++ name)%string e))
          | None =>
            r ← mig_exec (insert_version version);
            match r with
            | inl e => mret (Some (Errorf_w ("tickr/mysql: record " ++ name)%string e))
            | inr _ => mysql_apply_loop fs applied names
            end
          end
        end
  end.

Definition MySQL_ApplyMigrations (fs : Embed) : Mig (option error) :=
  match fs_ReadDir fs "migrations" with
  | inl e => mret (Some (Errorf_w "tickr/mysql: read migrations" e))
  | inr entries =>
    let entries := merge_sort name_le entries in
    r ← mig_exec create_versions;
    match r with
    | inl e => mret (Some (Errorf_w "tickr/mysql: bootstrap version table" e))
    | inr _ =>
      q ← read_versions;
      match q with
      | inl e => mret (Some e)
      | inr applied => mysql_apply_loop fs applied entries
      end
    end
  end.

(** ** What the runners do *)

(** The entries a run applies, given the versions it read. *)
Definition pending_migration (applied : gset Z) (name : string) : bool :=
  HasSuffix name ".sql" && negb (scan_version name =? 0) &&
  negb (bool_decide (scan_version name ∈ applied)).

Definition pending_names (applied : gset Z) (names : list string) : list string :=
  filter (λ n, pending_migration applied n = true) names.

(** The scripts of some entries, one after the other. *)
Fixpoint exec_names (fs : Embed) (dir : string) (names : list string) (s : S) : option S :=
  match names with
  | [] => Some s
  | name :: names =>
    match fs_ReadFile fs (dir ++ "/" ++ name)%string with
    | inl _ => None
    | inr b => match ddl b s with inl _ => None | inr s' => exec_names fs dir names s' end
    end
  end.

Definition recorded (tb : Tables) : gset Z := default ∅ (tb_versions tb).

Definition versions_of (names : list string) : gset Z := list_to_set (scan_version <$> names).

Lemma skip_not_pending applied name :
  negb (HasSuffix name ".sql") = true ∨
  (scan_version name =? 0) || bool_decide (scan_version name ∈ applied) = true →
  pending_migration applied name = false.
Proof.
  unfold pending_migration. destruct (HasSuffix name ".sql"); [|done].
  intros [|H]; [done|]. apply orb_true_iff in H as [->| ->]; [done|]. by rewrite andb_false_r.
Qed.

Lemma not_skip_pending applied name :
  negb (HasSuffix name ".sql") = false →
  (scan_version name =? 0) || bool_decide (scan_version name ∈ applied) = false →
  pending_migration applied name = true.
Proof.
  unfold pending_migration. intros ->%negb_false_iff [-> ->]%orb_false_iff. done.
Qed.

(** What one transaction of the PostgreSQL runner leaves. *)
Lemma pg_migration_tx_cases b v s :
  let '(r, s') := pg_migration_tx b v s in
  (mg_tables s' = mg_tables s ∧ r ≠ None) ∨
  (∃ s1, ddl b (tb_schema (mg_tables s)) = inr s1 ∧ is_Some (tb_versions (mg_tables s)) ∧
     mg_tables s' = mkTables s1 (Some ({[v]} ∪ recorded (mg_tables s)))).
Proof.
  unfold pg_migration_tx.
  destruct (me_fault env (mg_tick s)); [|by left..].
  destruct (faulted (1 + _) (run_ddl b) _) as [[e|[]] tb1] eqn:E1; [by left|].
  destruct (faulted (2 + _) (insert_version v) tb1) as [[e|[]] tb2] eqn:E2; [by left|].
  assert (∃ s1, ddl b (tb_schema (mg_tables s)) = inr s1 ∧
    tb1 = mkTables s1 (tb_versions (mg_tables s))) as (s1 & Hs1 & ->).
  { unfold faulted, run_ddl in E1. destruct (me_fault _ _); [|done|];
      destruct (ddl _ _); simplify_eq; eauto. }
  assert (∃ vs, tb_versions (mg_tables s) = Some vs ∧ tb2 = mkTables s1 (Some ({[v]} ∪ vs)))
    as (vs & Hvs & ->).
  { unfold faulted, insert_version in E2. destruct (me_fault _ _); [|done|];
      destruct (tb_versions _) as [vs|]; simplify_eq/=; eauto. }
  assert (∃ s1', ddl b (tb_schema (mg_tables s)) = inr s1' ∧ is_Some (tb_versions (mg_tables s)) ∧
    mkTables s1 (Some ({[v]} ∪ vs)) = mkTables s1' (Some ({[v]} ∪ recorded (mg_tables s)))) as H.
  { exists s1. unfold recorded. rewrite Hvs. by split_and!. }
  destruct (me_fault env (3 + _)); simpl; [by right|by left|by right].
Qed.

(** From [tb] to [tb'] exactly the migrations [done] took effect, in this order:
    their scripts were run on the schema and their versions recorded. *)
Definition migrated (fs : Embed) (dir : string) (done : list string) (tb tb' : Tables) : Prop :=
  exec_names fs dir done (tb_schema tb) = Some (tb_schema tb') ∧
  recorded tb' = recorded tb ∪ versions_of done.

Lemma migrated_nil fs dir tb tb' :
  tb_schema tb' = tb_schema tb → recorded tb' = recorded tb → migrated fs dir [] tb tb'.
Proof.
  intros Hs Hr. split; [by rewrite Hs|]. unfold versions_of. simpl.
  by rewrite (right_id_L ∅ (∪)).
Qed.

Lemma migrated_cons fs dir name b s done tb tb' :
  fs_ReadFile fs (dir ++ "/" ++ name)%string = inr b → ddl b (tb_schema tb) = inr s →
  migrated fs dir done (mkTables s (Some ({[scan_version name]} ∪ recorded tb))) tb' →
  migrated fs dir (name :: done) tb tb'.
Proof.
  intros Hb Hs [He Hr]. split; [cbn [exec_names]; by rewrite Hb, Hs|].
  rewrite Hr. unfold versions_of, recorded at 1. simpl.
  by rewrite (assoc_L (∪)), (comm_L (∪) _ {[scan_version name]}).
Qed.

(** However the loop ends, a prefix of the pending entries took effect, all of
    them when it ends without an error. *)
Lemma pg_loop_prefix fs dir applied names s :
  let '(r, s') := pg_apply_loop fs dir applied names s in
  ∃ done rest, done ++ rest = pending_names applied names ∧
    migrated fs dir done (mg_tables s) (mg_tables s') ∧ (r = None → rest = []).
Proof.
  revert s. induction names as [|name names IH]; intros s.
  { exists [], []. split_and!; [done|by apply migrated_nil|done]. }
  cbn [pg_apply_loop]. unfold pending_names. rewrite filter_cons.
  fold (pending_names applied names).
  destruct (negb (HasSuffix name ".sql")) eqn:E1.
  { rewrite (skip_not_pending applied name) by auto. apply IH. }
  destruct ((_ =? 0) || _) eqn:E2.
  { rewrite (skip_not_pending applied name) by auto. apply IH. }
  rewrite (not_skip_pending applied name) by done. rewrite decide_True by done.
  destruct (fs_ReadFile _ _) as [e|b] eqn:Eb.
  { exists [], (name :: pending_names applied names).
    split_and!; [done|by apply migrated_nil|done]. }
  unfold mbind, State_bind.
  pose proof (pg_migration_tx_cases b (scan_version name) s) as Hc.
  destruct (pg_migration_tx b (scan_version name) s) as [[f|] s'].
  - destruct Hc as [[Ht _]|(s1 & Hd & _ & Ht)]; cbn; rewrite Ht.
    + exists [], (name :: pending_names applied names).
      split_and!; [done|by apply migrated_nil|done].
    + exists [name], (pending_names applied names). split_and!; [done| |done].
      eapply migrated_cons; [done|done|by apply migrated_nil].
  - destruct Hc as [[_ ?]|(s1 & Hd & _ & Ht)]; [done|]. specialize (IH s').
    destruct (pg_apply_loop fs dir applied names s') as [r s2].
    destruct IH as (done & rest & Hp & Hm & Hr). rewrite Ht in Hm.
    exists (name :: done), rest. split_and!; [simpl; by rewrite Hp| |done].
    by eapply migrated_cons.
Qed.

(** Nothing pending: nothing happens. *)
Lemma pg_loop_idle fs dir applied names s :
  pending_names applied names = [] → pg_apply_loop fs dir applied names s = (None, s).
Proof.
  induction names as [|name names IH]; [done|]. unfold pending_names. rewrite filter_cons.
  fold (pending_names applied names). cbn [pg_apply_loop]. case_decide as Hp; [done|].
  intros H. specialize (IH H).
  destruct (negb _) eqn:E1; [done|]. destruct (_ || _) eqn:E2; [done|].
  destruct (Hp (not_skip_pending applied name E1 E2)).
Qed.

(** The entries of a directory that are migrations. *)
Definition migration_names (names : list string) : list string := pending_names ∅ names.

Lemma pending_covered applied names :
  versions_of (migration_names names) ⊆ applied → pending_names applied names = [].
Proof.
  intros H. apply elem_of_nil_inv. intros n [Hp Hn]%list_elem_of_filter.
  unfold pending_migration in Hp. bools.
  match goal with Hn : scan_version n ∉ _ |- _ => apply Hn end. apply H, elem_of_list_to_set, list_elem_of_fmap. exists n. split; [done|].
  apply list_elem_of_filter. split; [|done]. unfold pending_migration.
  by rewrite !andb_true_iff, !negb_true_iff, bool_decide_eq_false_2 by set_solver.
Qed.

Lemma pending_done applied names :
  versions_of (migration_names names) ⊆ applied ∪ versions_of (pending_names applied names).
Proof.
  intros v. unfold versions_of. rewrite elem_of_union, !elem_of_list_to_set, !list_elem_of_fmap.
  intros (n & -> & [Hp Hn]%list_elem_of_filter). unfold pending_migration in Hp. bools.
  destruct (decide (scan_version n ∈ applied)) as [|Hna]; [by left|right].
  exists n. split; [done|]. apply list_elem_of_filter. split; [|done].
  unfold pending_migration. by rewrite !andb_true_iff, !negb_true_iff, bool_decide_eq_false_2.
Qed.

Lemma pg_loop_versions fs dir applied names s :
  is_Some (tb_versions (mg_tables s)) →
  is_Some (tb_versions (mg_tables (pg_apply_loop fs dir applied names s).2)).
Proof.
  revert s. induction names as [|name names IH]; intros s Hs; [done|]. cbn [pg_apply_loop].
  destruct (negb _); [by apply IH|]. destruct (_ || _); [by apply IH|].
  destruct (fs_ReadFile _ _) as [e|b]; [done|]. unfold mbind, State_bind.
  pose proof (pg_migration_tx_cases b (scan_version name) s) as Hc.
  destruct (pg_migration_tx b (scan_version name) s) as [r s'].
  assert (is_Some (tb_versions (mg_tables s'))) as Hs'.
  { destruct Hc as [[-> _]|(s1 & _ & _ & ->)]; [done|]. eauto. }
  destruct r; [done|]. by apply IH.
Qed.

(** Up to the loop: the version table exists and was read. *)
Lemma mig_exec_create s :
  let '(r, s') := mig_exec create_versions s in
  tb_schema (mg_tables s') = tb_schema (mg_tables s) ∧
  recorded (mg_tables s') = recorded (mg_tables s) ∧
  (is_Some (tb_versions (mg_tables s)) → mg_tables s' = mg_tables s) ∧
  match r with
  | inr _ => is_Some (tb_versions (mg_tables s'))
  | inl _ => ∃ e, me_fault env (mg_tick s) = FailBefore e ∨ me_fault env (mg_tick s) = FailAfter e
  end.
Proof.
  unfold mig_exec, faulted, create_versions. destruct s as [[sc vs] n]; simpl.
  destruct (me_fault env n); simpl; split_and!; eauto.
  all: by intros [vs' ->].
Qed.

Lemma read_versions_same s :
  let '(r, s') := read_versions s in
  mg_tables s' = mg_tables s ∧
  match r with
  | inr vs => tb_versions (mg_tables s) = Some (recorded (mg_tables s)) ∧
              vs = me_seen env (mg_tick s) (recorded (mg_tables s))
  | inl _ => is_Some (tb_versions (mg_tables s)) →
             ∃ e, me_fault env (mg_tick s) = FailBefore e ∨ me_fault env (mg_tick s) = FailAfter e
  end.
Proof.
  unfold read_versions, mig_exec, faulted, select_versions, recorded.
  destruct (tb_versions (mg_tables s)) as [vs|] eqn:E, (me_fault env (mg_tick s)); simpl;
    split; eauto; by intros [].
Qed.
End Migrations.

Arguments mkTables {S} _ _.
Arguments mkMig {S} _ _.

(** ApplyMigrations up to and with its loop. *)
Lemma pg_migrations_prefix {S} (ddl : string → S → error + S) env fs dir entries st :
  fs_ReadDir fs dir = inr entries →
  let '(r, st') := ApplyMigrations ddl env fs dir st in
  ∃ n done rest,
    done ++ rest = pending_names (me_seen env n (recorded (mg_tables st))) (merge_sort name_le entries) ∧
    migrated ddl fs dir done (mg_tables st) (mg_tables st') ∧ (r = None → rest = []).
Proof.
  intros Hdir. unfold ApplyMigrations. rewrite Hdir. unfold mbind, State_bind.
  pose proof (mig_exec_create (S:=S) env st) as Hc.
  destruct (mig_exec env create_versions st) as [r st1]. destruct Hc as (Hs & Hr & _ & _).
  assert (∀ st2 (q : option error), q ≠ None → mg_tables st2 = mg_tables st1 → ∃ n done rest,
    done ++ rest = pending_names (me_seen env n (recorded (mg_tables st))) (merge_sort name_le entries) ∧
    migrated ddl fs dir done (mg_tables st) (mg_tables st2) ∧ (q = None → rest = [])) as Hearly.
  { intros st2 q Hq E. exists 0%nat, [], (pending_names
      (me_seen env 0 (recorded (mg_tables st))) (merge_sort name_le entries)).
    split_and!; [done| |done]. apply migrated_nil; by rewrite E. }
  destruct r as [e|[]]; [by apply Hearly|].
  pose proof (read_versions_same (S:=S) env st1) as Hv.
  destruct (read_versions env st1) as [q st2]. destruct Hv as [Ht Hq].
  destruct q as [e|vs]; [by apply Hearly|]. destruct Hq as [_ ->].
  pose proof (pg_loop_prefix ddl env fs dir (me_seen env (mg_tick st1) (recorded (mg_tables st1)))
    (merge_sort name_le entries) st2) as Hl.
  destruct (pg_apply_loop _ _ _ _ _ _ _) as [r st'].
  destruct Hl as (done & rest & Hp & [He Hrec] & Hn). rewrite Hr in Hp.
  exists (mg_tick st1), done, rest. split_and!; [done| |done].
  rewrite Ht, Hs in He. rewrite Ht, Hr in Hrec. by split.
Qed.

(** C36: On PostgreSQL migrations are applied in order, each once and whole.
    Whichever step of whichever migration fails, before or after taking effect,
    there is a first part [done] of the pending entries of the directory, taken
    in the order of their file names, such that the schema after ApplyMigrations
    is the one before after exactly the scripts of [done], in that order, and
    the recorded versions are those before and exactly those of [done]; without
    an error, [done] is all of them.  Pending are the entries ending in .sql
    with a version other than 0 that is not among the versions the run read
    ([me_seen]: all those recorded, unless the read broke off unnoticed).  So no
    script is ever half applied, applied without being recorded, recorded
    without being applied, applied out of order or skipped. *)
Theorem pg_migrations_atomic {S} (ddl : string → S → error + S) env fs dir entries st :
  fs_ReadDir fs dir = inr entries →
  let '(r, st') := ApplyMigrations ddl env fs dir st in
  ∃ n names done rest,
    names ≡ₚ entries ∧ Sorted (λ a b, String.leb a b = true) names ∧
    done ++ rest = filter (λ f, HasSuffix f ".sql" = true ∧ scan_version f ≠ 0 ∧
      scan_version f ∉ me_seen env n (recorded (mg_tables st))) names ∧
    exec_names ddl fs dir done (tb_schema (mg_tables st)) = Some (tb_schema (mg_tables st')) ∧
    recorded (mg_tables st') = recorded (mg_tables st) ∪ versions_of done ∧
    (r = None → rest = []).
Proof.
  intros Hdir. pose proof (pg_migrations_prefix ddl env fs dir entries st Hdir) as H.
  destruct (ApplyMigrations _ _ _ _ _) as [r st']. destruct H as (n & done & rest & Hp & [He Hr] & Hn).
  exists n, (merge_sort name_le entries), done, rest.
  split_and!; [apply merge_sort_Permutation|apply Sorted_merge_sort; apply _| |done..].
  rewrite Hp. apply list_filter_iff. intros f. unfold pending_migration.
  rewrite !andb_true_iff, !negb_true_iff, Z.eqb_neq, bool_decide_eq_false. tauto.
Qed.

(** A concrete server, whose schema is the list of scripts run, none twice. *)
Definition demo_ddl (script : string) (s : list string) : error + list string :=
  if bool_decide (script ∈ s) then inl (errorString "already exists") else inr (s ++ [script]).

Definition demo_fs : Embed :=
  mkEmbed (λ _, inr ["0002_b.sql"; "0001_a.sql"; "README"]%string)
    (λ n, if bool_decide (n = "migrations/0001_a.sql"%string) then inr "create a; create aa;"%string
          else inr "create b"%string).

Definition demo_mig_env : MigEnv := mkMigEnv (λ _, NoFault) (λ _ vs, vs).
Definition demo_mig_state : MigState (S := list string) := mkMig (mkTables [] None) 0.

(** The commit of the second migration is not reported. *)
Definition demo_mig_faults : MigEnv :=
  mkMigEnv (λ n, if bool_decide (n = 9%nat) then FailAfter (errorString "conn") else NoFault)
    (λ _ vs, vs).

Lemma pg_migrations_atomic_witness :
  let r := ApplyMigrations demo_ddl demo_mig_faults demo_fs "migrations" demo_mig_state in
  r.1 = Some (Errorf_w "tickr/postgres: commit migration 0002_b.sql" (errorString "conn")) ∧
  tb_schema (mg_tables r.2) = ["create a; create aa;"; "create b"]%string ∧
  ∃ n names done rest,
    names ≡ₚ ["0002_b.sql"; "0001_a.sql"; "README"]%string ∧
    Sorted (λ a b, String.leb a b = true) names ∧
    done ++ rest = filter (λ f, HasSuffix f ".sql" = true ∧ scan_version f ≠ 0 ∧
      scan_version f ∉ me_seen demo_mig_faults n ∅) names ∧
    exec_names demo_ddl demo_fs "migrations" done [] = Some (tb_schema (mg_tables r.2)) ∧
    recorded (mg_tables r.2) = ∅ ∪ versions_of done.
Proof.
  cbv zeta. split; [vm_compute; reflexivity|]. split; [vm_compute; reflexivity|].
  pose proof (pg_migrations_atomic demo_ddl demo_mig_faults demo_fs "migrations"
    ["0002_b.sql"; "0001_a.sql"; "README"]%string demo_mig_state eq_refl) as H.
  destruct (ApplyMigrations _ _ _ _ _) as [r st'].
  destruct H as (n & names & done & rest & H1 & H2 & H3 & H4 & H5 & _).
  exists n, names, done, rest. split_and!; [exact H1|exact H2| |exact H4|exact H5].
  rewrite H3. apply list_filter_iff. intros f. reflexivity.
Defined.

(** Each migration runs once, in order.  When ApplyMigrations reports no error
    and read the version table completely, it has executed exactly the scripts
    not recorded before, in the order of their names, on top of the old schema,
    and recorded their versions; and running it again, without faults, reports
    no error and changes nothing. *)
Theorem pg_migrations_once {S} (ddl : string → S → error + S) env fs dir entries st st' :
  (∀ n vs, me_seen env n vs = vs) → fs_ReadDir fs dir = inr entries →
  ApplyMigrations ddl env fs dir st = (None, st') →
  let todo := pending_names (recorded (mg_tables st)) (merge_sort name_le entries) in
  exec_names ddl fs dir todo (tb_schema (mg_tables st)) = Some (tb_schema (mg_tables st')) ∧
  recorded (mg_tables st') = recorded (mg_tables st) ∪ versions_of todo ∧
  ∀ env2, (∀ n, me_fault env2 n = NoFault) → (∀ n vs, me_seen env2 n vs = vs) →
    let r := ApplyMigrations ddl env2 fs dir st' in
    r.1 = None ∧ mg_tables r.2 = mg_tables st'.
Proof.
  intros Hseen Hdir Hrun todo.
  pose proof (pg_migrations_prefix ddl env fs dir entries st Hdir) as Hp. rewrite Hrun in Hp.
  destruct Hp as (n & done & rest & Hp & [He Hrec] & Hn). rewrite (Hn eq_refl), app_nil_r, Hseen in Hp.
  fold todo in Hp. subst done. split; [done|]. split; [done|]. intros env2 Hnf Hseen2.
  assert (is_Some (tb_versions (mg_tables st'))) as Hvs.
  { unfold ApplyMigrations in Hrun. rewrite Hdir in Hrun. unfold mbind, State_bind in Hrun.
    pose proof (mig_exec_create (S:=S) env st) as Hc.
    destruct (mig_exec env create_versions st) as [[e|[]] st1]; [done|].
    destruct Hc as (_ & _ & _ & Hsome).
    pose proof (read_versions_same (S:=S) env st1) as Hv.
    destruct (read_versions env st1) as [[e|vs] st2]; [done|]. destruct Hv as [Ht _].
    pose proof (pg_loop_versions ddl env fs dir vs (merge_sort name_le entries) st2) as Hl.
    rewrite Hrun, Ht in Hl. by apply Hl. }
  unfold ApplyMigrations. rewrite Hdir. unfold mbind, State_bind.
  pose proof (mig_exec_create (S:=S) env2 st') as Hc2.
  destruct (mig_exec env2 create_versions st') as [[e|[]] st3].
  { destruct Hc2 as (_ & _ & _ & e' & [H|H]); by rewrite Hnf in H. }
  destruct Hc2 as (_ & _ & Hsame & _). specialize (Hsame Hvs).
  pose proof (read_versions_same (S:=S) env2 st3) as Hv2. rewrite Hsame in Hv2.
  destruct (read_versions env2 st3) as [[e|vs] st4].
  { destruct Hv2 as [_ H]. destruct (H Hvs) as (e' & [H'|H']); by rewrite Hnf in H'. }
  destruct Hv2 as [Ht2 [_ ->]]. rewrite Hseen2, pg_loop_idle; [by split|].
  apply pending_covered. rewrite Hrec. apply pending_done.
Qed.

Lemma pg_migrations_once_witness :
  ∃ st', ApplyMigrations demo_ddl demo_mig_env demo_fs "migrations" demo_mig_state = (None, st') ∧
    exec_names demo_ddl demo_fs "migrations" ["0001_a.sql"; "0002_b.sql"]%string []
      = Some (tb_schema (mg_tables st')).
Proof.
  eexists. split; [vm_compute; reflexivity|].
  apply (pg_migrations_once demo_ddl demo_mig_env demo_fs "migrations"
    ["0002_b.sql"; "0001_a.sql"; "README"]%string demo_mig_state
    (ApplyMigrations demo_ddl demo_mig_env demo_fs "migrations" demo_mig_state).2).
  - done.
  - reflexivity.
  - vm_compute. reflexivity.
Defined.

(** ** MySQL *)

(** A script of statements without ';', each ended by one, is run statement by
    statement. *)
Fixpoint script_of (stmts : list string) : string :=
  match stmts with
  | [] => ""
  | st :: stmts => (st ++ String ";" (String "010" (script_of stmts)))%string
  end.

(** Splitting a MySQL script recovers its statements: for statements without a
    semicolon, each followed by one and a line end, splitSQL returns the
    statements, trimmed, and an empty rest that the runner skips; and whatever
    the script, joining the untrimmed pieces with ';' gives it back, so no text
    is lost or duplicated. *)
Theorem splitSQL_roundtrip (stmts : list string) (s : string) :
  (Forall (λ st, has_byte ";" st = false) stmts →
   splitSQL (script_of stmts) = (TrimSpace <$> stmts) ++ [""%string]) ∧
  Join ";" (Split ";" s) = s ∧ Forall (λ x, has_byte ";" x = false) (Split ";" s).
Proof.
  split; [|split; [apply Join_Split|apply Forall_forall; intros x; apply Split_no_sep]].
  intros Hs. unfold splitSQL.
  assert (∀ pre, has_byte ";" pre = false → Forall (λ c, is_space c = true) (String.list_ascii_of_string pre) →
    TrimSpace <$> Split ";" (pre ++ script_of stmts)%string = (TrimSpace <$> stmts) ++ [""%string]) as H;
    [|by apply (H ""%string)].
  induction stmts as [|st stmts IH]; intros pre Hpre Hsp.
  - cbn [script_of]. rewrite (app_empty_r pre), Split_one by done. simpl. f_equal.
    rewrite <- (app_empty_r pre). by rewrite TrimSpace_spaces.
  - apply Forall_cons in Hs as [Hst Hs]. cbn [script_of].
    rewrite string_app_assoc, Split_cons by (by rewrite has_byte_app, Hpre).
    rewrite !fmap_cons, TrimSpace_spaces by done. cbn [app]. f_equal.
    apply (IH Hs (String "010" "")); [done|by constructor].
Qed.

Lemma splitSQL_roundtrip_witness :
  splitSQL (script_of ["CREATE TABLE a"; " CREATE INDEX b"]%string)
    = ["CREATE TABLE a"; "CREATE INDEX b"; ""]%string.
Proof.
  apply (proj1 (splitSQL_roundtrip ["CREATE TABLE a"; " CREATE INDEX b"]%string ""%string)).
  repeat constructor.
Defined.

(** The loop comes to the first pending entry; an error in its script ends it. *)
Lemma mysql_loop_first {S} (ddl : string → S → error + S) env fs applied names name rest b e s s' :
  pending_names applied names = name :: rest →
  fs_ReadFile fs ("migrations/" ++ name)%string = inr b →
  mysql_statements ddl env (splitSQL b) s = (Some e, s') →
  mysql_apply_loop ddl env fs applied names s =
    (Some (Errorf_w ("tickr/mysql: apply " ++ name)%string e), s').
Proof.
  intros Hp Hb He. induction names as [|n names IH]; [done|].
  unfold pending_names in Hp. rewrite filter_cons in Hp. fold (pending_names applied names) in Hp.
  cbn [mysql_apply_loop]. case_decide as Hn.
  - injection Hp as -> _. unfold pending_migration in Hn. bools.
    destruct (HasSuffix name ".sql") eqn:E1; [|done]. cbn [negb].
    rewrite bool_decide_eq_false_2 by done.
    destruct (scan_version name =? 0); [done|]. cbn [orb]. rewrite Hb.
    unfold mbind, State_bind. by rewrite He.
  - destruct (negb _) eqn:E1; [by apply IH|]. destruct (_ || _) eqn:E2; [by apply IH|].
    destruct (Hn (not_skip_pending applied n E1 E2)).
Qed.

(** Up to the loop, without faults. *)
Lemma mysql_run_to_loop {S} (ddl : string → S → error + S) env fs entries st :
  me_fault env (mg_tick st) = NoFault → me_fault env (1 + mg_tick st) = NoFault →
  (∀ n vs, me_seen env n vs = vs) → fs_ReadDir fs "migrations" = inr entries →
  MySQL_ApplyMigrations ddl env fs st =
    mysql_apply_loop ddl env fs (recorded (mg_tables st)) (merge_sort name_le entries)
      (mkMig (mkTables (tb_schema (mg_tables st)) (Some (recorded (mg_tables st)))) (2 + mg_tick st)).
Proof.
  intros F1 F2 Hs Hd. unfold MySQL_ApplyMigrations. rewrite Hd. unfold mbind, State_bind.
  unfold mig_exec, faulted. rewrite F1. simpl.
  unfold read_versions, mig_exec, faulted. simpl. simpl in F2. rewrite F2. simpl. by rewrite Hs.
Qed.

(** On MySQL an interrupted migration blocks all later ones.  When the
    connection fails after the first statement of a pending script, that
    statement's effect stays while its version is not recorded, because every
    DDL statement commits by itself; and when the statement cannot run twice
    (CREATE TABLE, CREATE INDEX), every later ApplyMigrations fails on it,
    without faults and without changing anything. *)
Theorem mysql_partial_migration_stuck {S} (ddl : string → S → error + S) env fs entries st
    name rest b st1 st2 stmts s1 e e1 :
  let t := mg_tick st in
  fs_ReadDir fs "migrations" = inr entries →
  pending_names (recorded (mg_tables st)) (merge_sort name_le entries) = name :: rest →
  fs_ReadFile fs ("migrations/" ++ name)%string = inr b →
  splitSQL b = st1 :: st2 :: stmts → TrimSpace st1 ≠ ""%string → TrimSpace st2 ≠ ""%string →
  ddl st1 (tb_schema (mg_tables st)) = inr s1 → ddl st1 s1 = inl e1 →
  (∀ n vs, me_seen env n vs = vs) → (∀ n, (n < 3 + t)%nat → me_fault env n = NoFault) →
  me_fault env (3 + t) = FailBefore e →
  let '(r, st') := MySQL_ApplyMigrations ddl env fs st in
  r = Some (Errorf_w ("tickr/mysql: apply " ++ name)%string e) ∧
  tb_schema (mg_tables st') = s1 ∧ recorded (mg_tables st') = recorded (mg_tables st) ∧
  ∀ env2, (∀ n, me_fault env2 n = NoFault) → (∀ n vs, me_seen env2 n vs = vs) →
    let '(r2, st'') := MySQL_ApplyMigrations ddl env2 fs st' in
    r2 = Some (Errorf_w ("tickr/mysql: apply " ++ name)%string e1) ∧
    mg_tables st'' = mg_tables st'.
Proof.
  intros t Hdir Hp Hb Hsplit H1 H2 Hd1 Hd2 Hseen Hnf He. subst t.
  rewrite (mysql_run_to_loop ddl env fs entries) by (done || apply Hnf; lia).
  erewrite mysql_loop_first; [|exact Hp|exact Hb|].
  2:{ rewrite Hsplit. cbn [mysql_statements]. rewrite !bool_decide_eq_false_2 by done.
    unfold mbind, State_bind, mig_exec, faulted. cbn [mg_tick mg_tables].
    rewrite Hnf by lia. unfold run_ddl. simpl. rewrite Hd1. simpl. simpl in He. by rewrite He. }
  split_and!; [done..|]. intros env2 Hnf2 Hseen2.
  rewrite (mysql_run_to_loop ddl env2 fs entries) by done.
  erewrite mysql_loop_first; [|exact Hp|exact Hb|].
  2:{ rewrite Hsplit. cbn [mysql_statements]. rewrite bool_decide_eq_false_2 by done.
    unfold mbind, State_bind, mig_exec, faulted. cbn [mg_tick mg_tables].
    rewrite Hnf2. unfold run_ddl. simpl. by rewrite Hd2. }
  by split.
Qed.

Definition demo_mig_cut : MigEnv :=
  mkMigEnv (λ n, if bool_decide (n = 3%nat) then FailBefore (errorString "conn") else NoFault)
    (λ _ vs, vs).

Lemma mysql_partial_migration_stuck_witness :
  let '(r, st') := MySQL_ApplyMigrations demo_ddl demo_mig_cut demo_fs demo_mig_state in
  r = Some (Errorf_w "tickr/mysql: apply 0001_a.sql" (errorString "conn")) ∧
  tb_schema (mg_tables st') = ["create a"%string] ∧ recorded (mg_tables st') = ∅ ∧
  ∀ env2, (∀ n, me_fault env2 n = NoFault) → (∀ n vs, me_seen env2 n vs = vs) →
    let '(r2, st'') := MySQL_ApplyMigrations demo_ddl env2 demo_fs st' in
    r2 = Some (Errorf_w "tickr/mysql: apply 0001_a.sql" (errorString "already exists")) ∧
    mg_tables st'' = mg_tables st'.
Proof.
  apply (mysql_partial_migration_stuck demo_ddl demo_mig_cut demo_fs
    ["0002_b.sql"; "0001_a.sql"; "README"]%string demo_mig_state "0001_a.sql"
    ["0002_b.sql"%string] "create a; create aa;" "create a" "create aa" [""%string]).
  1-8: try (vm_compute; reflexivity); try done.
  - done.
  - intros n Hn. unfold demo_mig_cut. simpl in *. by rewrite bool_decide_eq_false_2 by lia.
  - reflexivity.
Defined.
