(* ===== verification/Calendar.v ===== *)
(** * Dates: what the adapters use of Go's [time] package

    Years, months and days of the proleptic Gregorian calendar in UTC, and
    [time.Parse] for the layouts the code parses.  A month is numbered
    [12 * year + month - 1]; [month_start] is its first instant. *)

From S2P Require Import Prelude GoStrings.
From Stdlib Require Import Ascii.

Definition Day : Duration := 24 * Hour.

Definition is_leap (y : Z) : bool :=
  (y mod 4 =? 0) && (negb (y mod 100 =? 0) || (y mod 400 =? 0)).

(** Days from January 1 of year 1 to January 1 of year [y]. *)
Definition year_days (y : Z) : Z := 365 * (y - 1) + (y - 1) / 4 - (y - 1) / 100 + (y - 1) / 400.

(** Days from January 1 to the first of month [m], counted from 0. *)
Definition month_offset (leap : bool) (m : Z) : Z :=
  nth (Z.to_nat m) [0; 31; 59; 90; 120; 151; 181; 212; 243; 273; 304; 334] 334 +
  (if leap && (2 <=? m) then 1 else 0).

Definition month_days (k : Z) : Z := year_days (k / 12) + month_offset (is_leap (k / 12)) (k mod 12).

Definition month_start (k : Z) : Time := month_days k * Day.

Definition days_in (k : Z) : Z := month_days (k + 1) - month_days k.

(** The month of a day: a search through the 400-year era the day is in. *)
Fixpoint month_search (fuel : nat) (k days : Z) : Z :=
  match fuel with
  | O => k
  | S f => if days <? month_days (k + 1) then k else month_search f (k + 1) days
  end.

Definition era_days : Z := 146097.

Definition month_of_day (days : Z) : Z :=
  month_search (Z.to_nat 4800) (12 * (400 * (days / era_days) + 1)) days.

(** [t.Year()], [t.Month()] and [t.Day()] of a time in UTC. *)
Definition day_of (t : Time) : Z := t / Day.
Definition month_of (t : Time) : Z := month_of_day (day_of t).
Definition Year (t : Time) : Z := month_of t / 12.
Definition Month (t : Time) : Z := month_of t mod 12 + 1.
Definition DayOfMonth (t : Time) : Z := day_of t - month_days (month_of t) + 1.

(** ** The calendar is a partition of time into months *)

Lemma div_step n y : 0 < n → y / n = (y - 1) / n + (if y mod n =? 0 then 1 else 0).
Proof.
  intros Hn. pose proof (Z.div_mod y n). pose proof (Z.mod_pos_bound y n).
  pose proof (Z.div_mod (y - 1) n). pose proof (Z.mod_pos_bound (y - 1) n).
  destruct (Z.eqb_spec (y mod n) 0); nia.
Qed.

Lemma mod_of_mod y a b : 0 < a → 0 < b → y mod (a * b) = 0 → y mod a = 0.
Proof. intros Ha Hb H. apply Z.mod_divide in H as [q ->]; [|lia]. apply Z.mod_divide; [lia|]. exists (q * b). lia. Qed.

Lemma year_days_succ y : year_days (y + 1) = year_days y + 365 + (if is_leap y then 1 else 0).
Proof.
  unfold year_days, is_leap. replace (y + 1 - 1) with y by lia.
  rewrite (div_step 4 y), (div_step 100 y), (div_step 400 y) by lia.
  assert (y mod 100 = 0 → y mod 4 = 0) by exact (mod_of_mod y 4 25 eq_refl eq_refl).
  assert (y mod 400 = 0 → y mod 100 = 0) by exact (mod_of_mod y 100 4 eq_refl eq_refl).
  destruct (Z.eqb_spec (y mod 4) 0), (Z.eqb_spec (y mod 100) 0), (Z.eqb_spec (y mod 400) 0); simpl; lia.
Qed.

Lemma month_split k : ∃ y m, k = 12 * y + m ∧ 0 ≤ m < 12.
Proof.
  exists (k / 12), (k mod 12). split; [apply Z.div_mod; lia|apply Z.mod_pos_bound; lia].
Qed.

Lemma month_days_eq y m : 0 ≤ m < 12 →
  month_days (12 * y + m) = year_days y + month_offset (is_leap y) m.
Proof.
  intros Hm. unfold month_days.
  rewrite <- (Z.div_unique (12 * y + m) 12 y m), <- (Z.mod_unique (12 * y + m) 12 y m) by lia.
  done.
Qed.

Lemma days_in_bounds k : 28 ≤ days_in k ≤ 31.
Proof.
  destruct (month_split k) as (y & m & -> & Hm). unfold days_in.
  destruct (decide (m = 11)) as [->|Hne].
  - replace (12 * y + 11 + 1) with (12 * (y + 1) + 0) by lia.
    rewrite !month_days_eq by lia. rewrite year_days_succ. unfold month_offset; simpl.
    destruct (is_leap y), (is_leap (y + 1)); simpl; lia.
  - replace (12 * y + m + 1) with (12 * y + (m + 1)) by lia.
    rewrite !month_days_eq by lia. unfold month_offset.
    assert (m = 0 ∨ m = 1 ∨ m = 2 ∨ m = 3 ∨ m = 4 ∨ m = 5 ∨ m = 6 ∨ m = 7 ∨ m = 8 ∨ m = 9 ∨ m = 10)
      as Hcases by lia.
    destruct (is_leap y); destruct_or! Hcases; subst m; simpl; lia.
Qed.

Lemma month_days_lt k j : k < j → month_days k < month_days j.
Proof.
  intros H. replace j with (k + 1 + Z.of_nat (Z.to_nat (j - k - 1))) by lia.
  induction (Z.to_nat (j - k - 1)) as [|n IH].
  - pose proof (days_in_bounds k). unfold days_in in *. replace (k + 1 + Z.of_nat 0) with (k + 1) by lia. lia.
  - pose proof (days_in_bounds (k + 1 + Z.of_nat n)). unfold days_in in *.
    replace (k + 1 + Z.of_nat (S n)) with (k + 1 + Z.of_nat n + 1) by lia. lia.
Qed.

Lemma month_search_spec fuel k days :
  month_days k ≤ days < month_days (k + Z.of_nat fuel) →
  let r := month_search fuel k days in month_days r ≤ days < month_days (r + 1).
Proof.
  revert k. induction fuel as [|f IH]; intros k H; simpl.
  - replace (k + Z.of_nat 0) with k in H by lia. lia.
  - destruct (Z.ltb_spec days (month_days (k + 1))); [lia|]. apply IH.
    replace (k + 1 + Z.of_nat f) with (k + Z.of_nat (S f)) by lia. lia.
Qed.

Lemma era_start e : month_days (12 * (400 * e + 1)) = era_days * e.
Proof.
  replace (12 * (400 * e + 1)) with (12 * (400 * e + 1) + 0) by lia.
  rewrite month_days_eq by lia. unfold year_days, month_offset, era_days. simpl.
  rewrite andb_false_r. Z.to_euclidean_division_equations. lia.
Qed.

Lemma month_of_day_spec d : month_days (month_of_day d) ≤ d < month_days (month_of_day d + 1).
Proof.
  unfold month_of_day. set (k := 12 * (400 * (d / era_days) + 1)).
  apply (month_search_spec (Z.to_nat 4800) k d). rewrite Z2Nat.id by lia. subst k.
  replace (12 * (400 * (d / era_days) + 1) + 4800) with (12 * (400 * (d / era_days + 1) + 1)) by lia.
  rewrite !era_start. unfold era_days. pose proof (Z.div_mod d 146097 ltac:(lia)).
  pose proof (Z.mod_pos_bound d 146097 ltac:(lia)). lia.
Qed.

(** Every time lies in the month it is said to be in. *)
Lemma month_of_spec t : month_start (month_of t) ≤ t < month_start (month_of t + 1).
Proof.
  unfold month_start, month_of, day_of. pose proof (month_of_day_spec (t / Day)) as [H1 H2].
  unfold Day, Hour, Minute, Second in *. Z.to_euclidean_division_equations. lia.
Qed.

Lemma month_start_lt k j : k < j → month_start k < month_start j.
Proof. intros H%month_days_lt. unfold month_start, Day, Hour, Minute, Second. lia. Qed.

(** The month of a day is the only one it lies in. *)
Lemma month_of_day_unique d k : month_days k ≤ d < month_days (k + 1) → month_of_day d = k.
Proof.
  intros H. pose proof (month_of_day_spec d) as H'.
  destruct (Z.lt_trichotomy (month_of_day d) k) as [Hlt|[->|Hlt]]; [|done|].
  - pose proof (month_days_lt (month_of_day d + 1) (k + 1)).
    destruct (decide (month_of_day d + 1 = k)) as [E|]; [rewrite E in *; lia|].
    pose proof (month_days_lt (month_of_day d + 1) k). lia.
  - destruct (decide (k + 1 = month_of_day d)) as [E|]; [rewrite E in *; lia|].
    pose proof (month_days_lt (k + 1) (month_of_day d)). lia.
Qed.

(** ** Format and Parse *)

(** [t.Format("2006-01-02")] in UTC *)
Definition format_date (t : Time) : string :=
  (pad4 (Year t) ++ "-" ++ pad2 (Month t) ++ "-" ++ pad2 (DayOfMonth t))%string.

(** The chunks of the layouts parsed. *)
Inductive chunk :=
| Lit (c : ascii) | LongYear | ZeroMonth | ZeroDay | Hour24 | ZeroMinute | ZeroSecond | NumShortTZ
| ISO8601ColonTZ.

Record fields := mkFields {
  p_year : Z; p_month : Z; p_day : Z; p_hour : Z; p_min : Z; p_sec : Z; p_nsec : Z; p_zone : Z;
}.

Definition getnum (fixed : bool) (s : string) : option (Z * string) :=
  match s with
  | String a r =>
    match digit_of a, r with
    | Some x, String b r' =>
      match digit_of b with
      | Some y => Some (10 * x + y, r')
      | None => if fixed then None else Some (x, r)
      end
    | Some x, EmptyString => if fixed then None else Some (x, r)
    | None, _ => None
    end
  | EmptyString => None
  end.

Fixpoint take_digits (s : string) : list Z * string :=
  match s with
  | String c r =>
    match digit_of c with
    | Some d => let '(ds, rest) := take_digits r in (d :: ds, rest)
    | None => ([], s)
    end
  | EmptyString => ([], s)
  end.

(** A fraction after the seconds: at most nine digits count. *)
Definition fraction (s : string) : Z * string :=
  match s with
  | String c r =>
    if bool_decide (c = "."%char) || bool_decide (c = ","%char) then
      let '(ds, rest) := take_digits r in
      match ds with
      | [] => (0, s)
      | _ => (foldl (λ n d, 10 * n + d) 0 (take 9 (ds ++ replicate 9 0)), rest)
      end
    else (0, s)
  | EmptyString => (0, s)
  end.

Fixpoint skip_blanks (s : string) : string :=
  match s with String " " s => skip_blanks s | _ => s end.

(** A chunk consumed: [None] is an error of the parse. *)
Definition parse_chunk (c : chunk) (f : fields) (s : string) : option (fields * string) :=
  let '(mkFields y mo d h mi sc ns z) := f in
  match c with
  | Lit " " =>
    match s with
    | EmptyString => Some (f, s)
    | String " " _ => Some (f, skip_blanks s)
    | _ => None
    end
  | Lit c => match s with String c' r => if ascii_dec c c' then Some (f, r) else None | _ => None end
  | LongYear =>
    '(a, s1) ← getnum true s; '(b, s2) ← getnum true s1;
    Some (mkFields (100 * a + b) mo d h mi sc ns z, s2)
  | ZeroMonth =>
    '(n, r) ← getnum true s;
    if (1 <=? n) && (n <=? 12) then Some (mkFields y n d h mi sc ns z, r) else None
  | ZeroDay => '(n, r) ← getnum true s; Some (mkFields y mo n h mi sc ns z, r)
  | Hour24 =>
    '(n, r) ← getnum false s;
    if n <? 24 then Some (mkFields y mo d n mi sc ns z, r) else None
  | ZeroMinute =>
    '(n, r) ← getnum true s;
    if n <? 60 then Some (mkFields y mo d h n sc ns z, r) else None
  | ZeroSecond =>
    '(n, r) ← getnum true s;
    if n <? 60 then let '(fr, r') := fraction r in Some (mkFields y mo d h mi n fr z, r') else None
  | NumShortTZ =>
    match s with
    | String sg r =>
      '(n, r') ← getnum true r;
      if 24 <? n then None
      else if ascii_dec sg "+" then Some (mkFields y mo d h mi sc ns (n * Hour), r')
      else if ascii_dec sg "-" then Some (mkFields y mo d h mi sc ns (- (n * Hour)), r')
      else None
    | EmptyString => None
    end
  | ISO8601ColonTZ =>
    match s with
    | String "Z" r => Some (mkFields y mo d h mi sc ns 0, r)
    | String sg r =>
      '(n, r1) ← getnum true r;
      match r1 with
      | String ":" r2 =>
        '(m, r') ← getnum true r2;
        if (24 <? n) || (60 <? m) then None
        else if ascii_dec sg "+" then Some (mkFields y mo d h mi sc ns (n * Hour + m * Minute), r')
        else if ascii_dec sg "-" then Some (mkFields y mo d h mi sc ns (- (n * Hour + m * Minute)), r')
        else None
      | _ => None
      end
    | EmptyString => None
    end
  end.

Fixpoint parse_chunks (l : list chunk) (f : fields) (s : string) : option (fields * string) :=
  match l with
  | [] => Some (f, s)
  | c :: l => '(f', s') ← parse_chunk c f s; parse_chunks l f' s'
  end.

(** [time.Parse(layout, s)]: no text may be left, and the day must exist. *)
Definition time_Parse (layout : list chunk) (s : string) : option Time :=
  '(f, rest) ← parse_chunks layout (mkFields 0 1 1 0 0 0 0 0) s;
  let k := 12 * p_year f + (p_month f - 1) in
  if bool_decide (rest = ""%string) && (1 <=? p_day f) && (p_day f <=? days_in k) then
    Some (month_start k + (p_day f - 1) * Day + p_hour f * Hour + p_min f * Minute
          + p_sec f * Second + p_nsec f - p_zone f)
  else None.

(** "2006-01-02", "2006-01-02 15:04:05", "2006-01-02 15:04:05-07" *)
Definition layout_date : list chunk :=
  [LongYear; Lit "-"; ZeroMonth; Lit "-"; ZeroDay].
Definition layout_datetime : list chunk :=
  layout_date ++ [Lit " "; Hour24; Lit ":"; ZeroMinute; Lit ":"; ZeroSecond].
Definition layout_timestamptz : list chunk := layout_datetime ++ [NumShortTZ].

(** time.RFC3339, "2006-01-02T15:04:05Z07:00" *)
Definition layout_RFC3339 : list chunk :=
  layout_date ++ [Lit "T"; Hour24; Lit ":"; ZeroMinute; Lit ":"; ZeroSecond; ISO8601ColonTZ].

(** The time of day, and a whole second as a server in UTC prints it. *)
Definition HourOf (t : Time) : Z := t mod Day / Hour.
Definition MinuteOf (t : Time) : Z := t mod Hour / Minute.
Definition SecondOf (t : Time) : Z := t mod Minute / Second.

Definition format_timestamptz (t : Time) : string :=
  (format_date t ++ " " ++ pad2 (HourOf t) ++ ":" ++ pad2 (MinuteOf t) ++ ":"
    ++ pad2 (SecondOf t) ++ "+00")%string.

(** [t.UTC().Format(time.RFC3339)] *)
Definition format_RFC3339 (t : Time) : string :=
  (format_date t ++ "T" ++ pad2 (HourOf t) ++ ":" ++ pad2 (MinuteOf t) ++ ":"
    ++ pad2 (SecondOf t) ++ "Z")%string.

Lemma getnum_pad2 fixed n r : 0 ≤ n < 100 → getnum fixed (pad2 n ++ r)%string = Some (n, r).
Proof.
  intros Hn. unfold pad2.
  change (getnum fixed (String (digit_char (n / 10)) (String (digit_char (n mod 10)) r)) = Some (n, r)).
  simpl. rewrite !digit_of_char; [|pose proof (Z.mod_pos_bound n 10); lia|].
  2:{ split; [apply Z.div_pos; lia|apply Z.div_lt_upper_bound; lia]. }
  by rewrite <- (Z.div_mod n 10).
Qed.

Lemma parse_year f y r : 0 ≤ y < 10000 →
  parse_chunk LongYear f (pad4 y ++ r)%string =
    Some (mkFields y (p_month f) (p_day f) (p_hour f) (p_min f) (p_sec f) (p_nsec f) (p_zone f), r).
Proof.
  intros Hy. unfold pad4. assert ((0 <=? y) && (y <? 10000) = true) as -> by lia.
  destruct f as [y0 mo d h mi sc ns z]. cbn [parse_chunk]. rewrite <- string_app_assoc.
  pose proof (Z.mod_pos_bound y 100). rewrite getnum_pad2.
  2:{ split; [apply Z.div_pos; lia|apply Z.div_lt_upper_bound; lia]. }
  cbn [mbind option_bind]. rewrite getnum_pad2 by lia. cbn [mbind option_bind].
  by rewrite <- (Z.div_mod y 100).
Qed.

Lemma parse_lit c f r : c ≠ " "%char → parse_chunk (Lit c) f (String c "" ++ r)%string = Some (f, r).
Proof.
  intros Hc. change (String c "" ++ r)%string with (String c r). destruct f. unfold parse_chunk.
  destruct (ascii_dec c c); [|done]. destruct c as [[] [] [] [] [] [] [] []]; try done.
Qed.

Lemma parse_blank f r :
  match r with String c _ => c ≠ " "%char | _ => True end →
  parse_chunk (Lit " ") f (" " ++ r)%string = Some (f, r).
Proof.
  change (" " ++ r)%string with (String " " r). destruct f. simpl.
  destruct r as [|[[] [] [] [] [] [] [] []] r]; done.
Qed.

Lemma parse_blank_pad2 f n r : 0 ≤ n < 100 →
  parse_chunk (Lit " ") f (" " ++ (pad2 n ++ r))%string = Some (f, pad2 n ++ r)%string.
Proof.
  intros Hn. apply parse_blank. change (digit_char (n / 10) ≠ " "%char). intros E.
  pose proof (digit_of_char (n / 10)) as H. rewrite E in H.
  assert (0 ≤ n / 10 < 10) as Hd by (split; [apply Z.div_pos; lia|apply Z.div_lt_upper_bound; lia]).
  by specialize (H Hd).
Qed.

Lemma parse_month f n r : 1 ≤ n ≤ 12 → parse_chunk ZeroMonth f (pad2 n ++ r)%string =
  Some (mkFields (p_year f) n (p_day f) (p_hour f) (p_min f) (p_sec f) (p_nsec f) (p_zone f), r).
Proof.
  intros Hn. destruct f. cbn [parse_chunk]. rewrite getnum_pad2 by lia. simpl.
  by assert ((1 <=? n) && (n <=? 12) = true) as -> by lia.
Qed.

Lemma parse_day f n r : 0 ≤ n < 100 → parse_chunk ZeroDay f (pad2 n ++ r)%string =
  Some (mkFields (p_year f) (p_month f) n (p_hour f) (p_min f) (p_sec f) (p_nsec f) (p_zone f), r).
Proof. intros Hn. destruct f. cbn [parse_chunk]. by rewrite getnum_pad2. Qed.

Lemma parse_hour f n r : 0 ≤ n < 24 → parse_chunk Hour24 f (pad2 n ++ r)%string =
  Some (mkFields (p_year f) (p_month f) (p_day f) n (p_min f) (p_sec f) (p_nsec f) (p_zone f), r).
Proof.
  intros Hn. destruct f. cbn [parse_chunk]. rewrite getnum_pad2 by lia. simpl.
  by assert ((n <? 24) = true) as -> by lia.
Qed.

Lemma parse_minute f n r : 0 ≤ n < 60 → parse_chunk ZeroMinute f (pad2 n ++ r)%string =
  Some (mkFields (p_year f) (p_month f) (p_day f) (p_hour f) n (p_sec f) (p_nsec f) (p_zone f), r).
Proof.
  intros Hn. destruct f. cbn [parse_chunk]. rewrite getnum_pad2 by lia. simpl.
  by assert ((n <? 60) = true) as -> by lia.
Qed.

Lemma parse_second f n r : 0 ≤ n < 60 → parse_chunk ZeroSecond f (pad2 n ++ String "+" r)%string =
  Some (mkFields (p_year f) (p_month f) (p_day f) (p_hour f) (p_min f) n 0 (p_zone f), String "+" r).
Proof.
  intros Hn. destruct f. cbn [parse_chunk]. rewrite getnum_pad2 by lia. simpl.
  by assert ((n <? 60) = true) as -> by lia.
Qed.

Lemma parse_utc f : parse_chunk NumShortTZ f "+00" =
  Some (mkFields (p_year f) (p_month f) (p_day f) (p_hour f) (p_min f) (p_sec f) (p_nsec f) 0, ""%string).
Proof. by destruct f. Qed.

(** The fields of a date. *)
Lemma date_fields t : 1 ≤ Month t ≤ 12 ∧ 1 ≤ DayOfMonth t ≤ days_in (month_of t) ∧
  month_of t = 12 * Year t + (Month t - 1).
Proof.
  pose proof (Z.mod_pos_bound (month_of t) 12). pose proof (Z.div_mod (month_of t) 12).
  unfold Month, DayOfMonth, Year, days_in, month_of in *.
  pose proof (month_of_day_spec (day_of t)). lia.
Qed.

Lemma time_fields t :
  0 ≤ HourOf t < 24 ∧ 0 ≤ MinuteOf t < 60 ∧ 0 ≤ SecondOf t < 60 ∧
  t = day_of t * Day + HourOf t * Hour + MinuteOf t * Minute + SecondOf t * Second + t mod Second.
Proof.
  unfold HourOf, MinuteOf, SecondOf, day_of, Day, Hour, Minute, Second.
  Z.to_euclidean_division_equations. lia.
Qed.

Lemma parse_date_chunks t rest chunks : 0 ≤ Year t < 10000 →
  parse_chunks (layout_date ++ chunks) (mkFields 0 1 1 0 0 0 0 0) (format_date t ++ rest)%string =
  parse_chunks chunks (mkFields (Year t) (Month t) (DayOfMonth t) 0 0 0 0 0) rest.
Proof.
  intros Hy. destruct (date_fields t) as (Hm & Hd & _). pose proof (days_in_bounds (month_of t)).
  unfold format_date, layout_date. rewrite <- !string_app_assoc. cbn [app parse_chunks].
  rewrite parse_year by done. cbn [mbind option_bind].
  rewrite parse_lit by done. cbn [mbind option_bind]. rewrite parse_month by lia.
  cbn [mbind option_bind]. rewrite parse_lit by done. cbn [mbind option_bind].
  rewrite parse_day by lia. reflexivity.
Qed.

(** Reading back a whole second as a server in UTC prints it. *)
Lemma parse_timestamptz t :
  0 ≤ Year t < 10000 → t mod Second = 0 →
  time_Parse layout_timestamptz (format_timestamptz t) = Some t.
Proof.
  intros Hy Hs. unfold time_Parse, layout_timestamptz, layout_datetime, format_timestamptz.
  rewrite <- app_assoc, parse_date_chunks by done.
  destruct (time_fields t) as (Hh & Hm & Hsec & Ht). destruct (date_fields t) as (Hmo & Hd & Hk).
  pose proof (days_in_bounds (month_of t)). cbn [app parse_chunks].
  rewrite parse_blank_pad2 by lia. cbn [mbind option_bind]. rewrite parse_hour by lia.
  cbn [mbind option_bind]. rewrite parse_lit by done. cbn [mbind option_bind].
  rewrite parse_minute by lia. cbn [mbind option_bind]. rewrite parse_lit by done.
  cbn [mbind option_bind]. change "+00"%string with (String "+" "00").
  rewrite parse_second by lia.
  cbn [mbind option_bind]. rewrite parse_utc.
  cbn [mbind option_bind p_year p_month p_day p_hour p_min p_sec p_nsec p_zone].
  rewrite <- Hk.
  rewrite bool_decide_eq_true_2 by done. cbn [andb].
  assert ((1 <=? DayOfMonth t) && (DayOfMonth t <=? days_in (month_of t)) = true) as -> by lia.
  f_equal. unfold DayOfMonth, month_start in *. lia.
Qed.

(** ** First days of months *)

Lemma day_of_start k : day_of (month_start k) = month_days k.
Proof. unfold day_of, month_start. by rewrite Z.div_mul. Qed.

Lemma month_of_start k : month_of (month_start k) = k.
Proof.
  unfold month_of. rewrite day_of_start. apply month_of_day_unique.
  pose proof (month_days_lt k (k + 1)). lia.
Qed.

Lemma Year_start k : Year (month_start k) = k / 12.
Proof. unfold Year. by rewrite month_of_start. Qed.

Lemma Month_start k : Month (month_start k) = k mod 12 + 1.
Proof. unfold Month. by rewrite month_of_start. Qed.

Lemma parse_format_date k : 0 ≤ k < 120000 →
  time_Parse layout_date (format_date (month_start k)) = Some (month_start k).
Proof.
  intros Hk. unfold time_Parse. rewrite <- (app_nil_r layout_date), <- (app_empty_r (format_date _)).
  rewrite parse_date_chunks.
  2:{ rewrite Year_start. split; [apply Z.div_pos; lia|apply Z.div_lt_upper_bound; lia]. }
  cbn [parse_chunks mbind option_bind p_year p_month p_day p_hour p_min p_sec p_nsec p_zone].
  assert (DayOfMonth (month_start k) = 1) as ->.
  { unfold DayOfMonth. rewrite month_of_start, day_of_start. lia. }
  destruct (date_fields (month_start k)) as (_ & _ & <-). rewrite month_of_start.
  pose proof (days_in_bounds k). rewrite bool_decide_eq_true_2 by done.
  assert ((true && (1 <=? 1) && (1 <=? days_in k)) = true) as -> by lia. f_equal. lia.
Qed.

(** A time of the months [k] to [k + n - 1] is in one of them. *)
Lemma month_cover k n t : 0 ≤ n → month_start k ≤ t < month_start (k + n) →
  ∃ j, k ≤ j < k + n ∧ month_start j ≤ t < month_start (j + 1).
Proof.
  intros Hn Ht. exists (month_of t). pose proof (month_of_spec t) as Hm. split; [|done]. split.
  - destruct (Z.lt_ge_cases (month_of t) k) as [Hlt|]; [|done].
    destruct (decide (month_of t + 1 = k)) as [E|]; [rewrite E in Hm; lia|].
    pose proof (month_start_lt (month_of t + 1) k). lia.
  - destruct (Z.lt_ge_cases (month_of t) (k + n)) as [|Hge]; [done|].
    destruct (decide (month_of t = k + n)) as [E|]; [rewrite E in Hm; lia|].
    pose proof (month_start_lt (k + n) (month_of t)). lia.
Qed.
