(* ===== verification/Partitions.v ===== *)
(** * Partition maintenance of the PostgreSQL adapter
      (EnsurePartitions, DropPartitionsBefore and parseUpperBound of
      storage/postgres/postgres.go)

    In the partitioned schema [tickr_messages] is divided by [created_at] into
    monthly tables.  The state is the server's catalog of partitions and the
    rows; dropping a partition removes the rows in its range.  How the server
    prints the bounds of a partition (pg_get_expr) is a parameter; file text
    is read back by [parseUpperBound]. *)

From S2P Require Import Prelude GoErrors GoStrings Calendar Message World Postgres.
From Stdlib Require Import Ascii.

(** ** parseUpperBound *)

Definition parseUpperBound (bound : string) : option Time :=
  match IndexCut "TO (" bound with
  | None => None
  | Some (_, rest) =>
    match IndexCut "'" rest with
    | None => None
    | Some (_, rest) =>
      match IndexCut "'" rest with
      | None => None
      | Some (tsStr, _) =>
        match time_Parse layout_timestamptz tsStr with
        | Some t => Some t
        | None =>
          match time_Parse layout_datetime tsStr with
          | Some t => Some t
          | None => time_Parse layout_date tsStr
          end
        end
      end
    end
  end.

(** The bounds of a range partition, as a session in UTC prints them. *)
Definition bound_text (from to : Time) : string :=
  ("FOR VALUES FROM ('" ++ format_timestamptz from ++ "') TO ('"
    ++ format_timestamptz to ++ "')")%string.

Lemma timestamptz_no_byte c t :
  0 ≤ Year t < 10000 → digit_of c = None →
  c ≠ "-"%char → c ≠ " "%char → c ≠ ":"%char → c ≠ "+"%char →
  has_byte c (format_timestamptz t) = false.
Proof.
  intros Hy Hc H1 H2 H3 H4.
  destruct (time_fields t) as (Hh & Hm & Hs & _). destruct (date_fields t) as (Hmo & Hd & _).
  pose proof (days_in_bounds (month_of t)).
  assert (∀ d, d ≠ c → has_byte c (String d "") = false) as Hone.
  { intros d Hne. simpl. by destruct (ascii_dec d c). }
  assert (has_byte c "+00" = false) as Hutc.
  { cbn [has_byte]. by repeat (destruct (ascii_dec _ c) as [E|_]; [by subst c|]). }
  unfold format_timestamptz, format_date. rewrite !has_byte_app.
  rewrite has_byte_pad4, !has_byte_pad2 by (done || lia).
  by rewrite Hutc, !Hone.
Qed.

Lemma parse_bound from to :
  0 ≤ Year from < 10000 → 0 ≤ Year to < 10000 → to mod Second = 0 →
  parseUpperBound (bound_text from to) = Some to.
Proof.
  intros Hf Ht Hs. unfold parseUpperBound, bound_text.
  assert (("FOR VALUES FROM ('" ++ format_timestamptz from ++ "') TO ('" ++ format_timestamptz to ++ "')")%string
    = (("FOR VALUES FROM ('" ++ format_timestamptz from ++ "') ") ++
       ("TO (" ++ ("'" ++ (format_timestamptz to ++ "')"))))%string) as ->.
  { rewrite <- !string_app_assoc. reflexivity. }
  rewrite (IndexCut_first "T" "O (") by (rewrite !has_byte_app, timestamptz_no_byte; done).
  change ("'" ++ (format_timestamptz to ++ "')"))%string
    with ("" ++ (String "'" "" ++ (format_timestamptz to ++ "')")))%string.
  rewrite IndexCut_first by done.
  change "')"%string with (String "'" "" ++ ")")%string.
  rewrite IndexCut_first by (by apply timestamptz_no_byte). by rewrite parse_timestamptz.
Qed.

(** The bound of a partition is read back exactly.  For every lower bound and
    every whole-second upper bound of the years 0 to 9999, parsing the text the
    server prints for the partition in a UTC session yields the upper bound. *)
Theorem parseUpperBound_roundtrip from to :
  0 ≤ Year from < 10000 → 0 ≤ Year to < 10000 → to mod Second = 0 →
  parseUpperBound (bound_text from to) = Some to.
Proof. apply parse_bound. Qed.

Lemma parseUpperBound_roundtrip_witness :
  bound_text (month_start (12 * 2026)) (month_start (12 * 2026 + 1)) =
    "FOR VALUES FROM ('2026-01-01 00:00:00+00') TO ('2026-02-01 00:00:00+00')"%string ∧
  parseUpperBound (bound_text (month_start (12 * 2026)) (month_start (12 * 2026 + 1)))
    = Some (month_start (12 * 2026 + 1)).
Proof.
  split; [vm_compute; reflexivity|].
  apply (parseUpperBound_roundtrip (month_start (12 * 2026)) (month_start (12 * 2026 + 1)));
    vm_compute; (split; congruence) || reflexivity.
Defined.

(** A session east of Greenwich by half an hour prints "+05:30", which no layout
    reads: such a partition is skipped. *)
Example half_hour_zone :
  parseUpperBound "FOR VALUES FROM ('2026-01-01 05:30:00+05:30') TO ('2026-02-01 05:30:00+05:30')"
    = None.
Proof. vm_compute. reflexivity. Qed.

(** ** The catalog *)

(** A partition: its name and its range, [None] for the DEFAULT partition. *)
Record part := mkPart { pt_name : string; pt_range : option (Time * Time) }.

Definition in_range (t : Time) (r : Time * Time) : bool := (r.1 <=? t) && (t <? r.2).

Record PartState := mkPartState {
  ps_parts : list part;
  ps_msgs : gmap UUID row;
  ps_tick : nat;
}.

Abbreviation PartM := (State PartState) (only parsing).

(** The server: faults, the process's clock, the order of the catalog query and
    the text of pg_get_expr. *)
Record PartEnv := mkPartEnv {
  pe_fault : nat → Fault;
  pe_now : nat → Time;
  pe_order : nat → list part → list part;
  pe_bound : part → string;
}.

Definition err_overlap : error := errorString "partition would overlap another partition".
Definition err_default_rows : error :=
  errorString "updated partition constraint for default partition would be violated by some row".
Definition err_bad_date : error := errorString "invalid input syntax for type timestamp".

Definition overlaps (f t : Time) (p : part) : bool :=
  match pt_range p with Some (f', t') => (f <? t') && (f' <? t) | None => false end.

(** CREATE TABLE IF NOT EXISTS name PARTITION OF tickr_messages FOR VALUES FROM
    ('from') TO ('to'): the name decides whether it exists; rows of the new range,
    which are in the default partition, make it fail. *)
Definition create_partition (name from to : string) (s : PartState) : error + PartState :=
  if existsb (λ p, bool_decide (pt_name p = name)) (ps_parts s) then inr s
  else
    match time_Parse layout_date from, time_Parse layout_date to with
    | Some f, Some t =>
      if existsb (overlaps f t) (ps_parts s) then inl err_overlap
      else if negb (bool_decide (select_where (λ _ r, in_range (r_created_at r) (f, t)) (ps_msgs s) = []))
      then inl err_default_rows
      else inr (mkPartState (ps_parts s ++ [mkPart name (Some (f, t))]) (ps_msgs s) (ps_tick s))
    | _, _ => inl err_bad_date
    end.

(** DROP TABLE IF EXISTS name *)
Definition drop_partition (name : string) (s : PartState) : error + PartState :=
  let gone := filter (λ p, pt_name p = name) (ps_parts s) in
  let hit := λ (_ : UUID) r,
    existsb (λ p, match pt_range p with Some rg => in_range (r_created_at r) rg | None => false end) gone in
  inr (mkPartState (filter (λ p, pt_name p ≠ name) (ps_parts s))
         (delete_where hit (ps_msgs s)) (ps_tick s)).

Section Maintenance.
Context (env : PartEnv).

Definition next (s : PartState) : PartState :=
  mkPartState (ps_parts s) (ps_msgs s) (S (ps_tick s)).

Definition part_exec (st : PartState → error + PartState) : PartM (option error) := λ s,
  match pe_fault env (ps_tick s) with
  | FailBefore e => (Some e, next s)
  | NoFault => match st s with inl e => (Some e, next s) | inr s' => (None, next s') end
  | FailAfter e => match st s with inl e' => (Some e', next s) | inr s' => (Some e, next s') end
  end.

(** *** EnsurePartitions *)

Definition partition_name (k : Z) : string :=
  ("tickr_messages_" ++ pad4 (Year (month_start k)) ++ "_" ++ pad2 (Month (month_start k)))%string.

(** The loop from month [k] on, [n] times; [start.AddDate(0, i, 0)] of the first
    of a month is the first of a month. *)
Fixpoint ensure_loop (n : nat) (k : Z) : PartM (option error) :=
  match n with
  | O => mret None
  | S n =>
    r ← part_exec (create_partition (partition_name k) (format_date (month_start k))
                     (format_date (month_start (k + 1))));
    match r with
    | Some e => mret (Some (Errorf_w ("tickr/postgres: create partition " ++ partition_name k)%string e))
    | None => ensure_loop n (k + 1)
    end
  end.

Definition EnsurePartitions (st : Store) (monthsAhead : Z) : PartM (option error) := λ s,
  if negb (partitioned st) then (None, s)
  else
    let monthsAhead := if monthsAhead <? 0 then 0 else monthsAhead in
    ensure_loop (Z.to_nat (monthsAhead + 1)) (month_of (pe_now env (ps_tick s))) s.

(** *** DropPartitionsBefore *)

(** The candidates: not the default partition, readable, ended by the cutoff. *)
Definition droppable (cutoff : Time) (p : part) : bool :=
  let bound := pe_bound env p in
  negb (Contains bound "DEFAULT") &&
  match parseUpperBound bound with Some upper => upper <=? cutoff | None => false end.

Fixpoint drop_loop (cutoff : Time) (ps : list part) (dropped : Z) : PartM (Z * option error) :=
  match ps with
  | [] => mret (dropped, None)
  | p :: ps =>
    if droppable cutoff p then
      r ← part_exec (drop_partition (pt_name p));
      match r with
      | Some e => mret (dropped, Some (Errorf_w ("tickr/postgres: drop partition " ++ pt_name p)%string e))
      | None => drop_loop cutoff ps (dropped + 1)
      end
    else drop_loop cutoff ps dropped
  end.

Definition DropPartitionsBefore (st : Store) (cutoff : Time) : PartM (Z * option error) := λ s,
  if negb (partitioned st) then ((0, None), s)
  else
    match pe_fault env (ps_tick s) with
    | FailBefore e | FailAfter e => ((0, Some (Errorf_w "tickr/postgres: list partitions" e)), next s)
    | NoFault => drop_loop cutoff (pe_order env (ps_tick s) (ps_parts s)) 0 (next s)
    end.
End Maintenance.

(** ** EnsurePartitions *)

(** Partitions that bear the name of a month have its range; the years whose
    names have four digits. *)
Definition named_ok (ps : list part) : Prop := ∀ p k, p ∈ ps → 0 ≤ k < 120000 →
  pt_name p = partition_name k → pt_range p = Some (month_start k, month_start (k + 1)).

Definition has_month (ps : list part) (k : Z) : Prop :=
  ∃ p, p ∈ ps ∧ pt_range p = Some (month_start k, month_start (k + 1)).

Lemma partition_name_inj k j : 0 ≤ k < 120000 → 0 ≤ j < 120000 →
  partition_name k = partition_name j → k = j.
Proof.
  intros Hk Hj. unfold partition_name. rewrite !Year_start, !Month_start.
  rewrite <- (app_empty_r (pad2 (k mod 12 + 1))), <- (app_empty_r (pad2 (j mod 12 + 1))).
  intros E.
  assert (∀ a b, ("tickr_messages_" ++ a)%string = ("tickr_messages_" ++ b)%string → a = b) as Hpre.
  { intros a b H. by injection H. }
  apply Hpre, pad4_inj in E as [Ey E];
    [|split; [apply Z.div_pos; lia|apply Z.div_lt_upper_bound; lia]..].
  assert (∀ a b, ("_" ++ a)%string = ("_" ++ b)%string → a = b) as Hund.
  { intros a b H. by injection H. }
  pose proof (Z.mod_pos_bound k 12). pose proof (Z.mod_pos_bound j 12).
  apply Hund, pad2_inj in E as [Em _]; [|lia..].
  rewrite (Z.div_mod k 12), (Z.div_mod j 12) by lia. rewrite Ey. lia.
Qed.

(** One successful CREATE. *)
Lemma create_month k s s' :
  0 ≤ k → k + 1 < 120000 → named_ok (ps_parts s) →
  create_partition (partition_name k) (format_date (month_start k))
    (format_date (month_start (k + 1))) s = inr s' →
  named_ok (ps_parts s') ∧ has_month (ps_parts s') k ∧ ps_msgs s' = ps_msgs s ∧
  ∀ p, p ∈ ps_parts s → p ∈ ps_parts s'.
Proof.
  intros Hk1 Hk2 Hok. unfold create_partition. rewrite !parse_format_date by lia.
  destruct (existsb _ _) eqn:E.
  - intros [= <-]. apply existsb_exists in E as (p & Hp & Hn). bools.
    apply list_elem_of_In in Hp. split_and!; [done| |done|done]. exists p. split; [done|].
    apply Hok; [done|lia|done].
  - destruct (existsb (overlaps _ _) _); [done|]. destruct (negb _); [done|]. intros [= <-]. simpl.
    split_and!; [|exists (mkPart (partition_name k) (Some (month_start k, month_start (k + 1))));
      split; [set_solver|done]|done|set_solver].
    intros p j [Hp| ->%list_elem_of_singleton]%elem_of_app Hj Hn; [by apply Hok|].
    simpl in *. apply partition_name_inj in Hn as ->; [done|lia..].
Qed.

Lemma part_exec_None env st s s' :
  part_exec env st s = (None, s') → ∃ s1, st s = inr s1 ∧ s' = next s1.
Proof.
  unfold part_exec. destruct (pe_fault env (ps_tick s)); [|done|];
    destruct (st s) as [e'|s1]; intros [=]; eauto.
Qed.

Lemma ensure_loop_spec env n k s s' :
  0 ≤ k → k + Z.of_nat n < 120000 → named_ok (ps_parts s) →
  ensure_loop env n k s = (None, s') →
  named_ok (ps_parts s') ∧ (∀ j, k ≤ j < k + Z.of_nat n → has_month (ps_parts s') j) ∧
  ps_msgs s' = ps_msgs s ∧ ∀ p, p ∈ ps_parts s → p ∈ ps_parts s'.
Proof.
  revert k s. induction n as [|n IH]; intros k s Hk Hn Hok; cbn [ensure_loop].
  { intros [= <-]. split_and!; [done| |done|done]. intros j. lia. }
  unfold mbind, State_bind. destruct (part_exec env _ s) as [[e|] s1] eqn:E; [done|].
  apply part_exec_None in E as (s2 & Hc & ->).
  apply create_month in Hc as (H1 & H2 & H3 & H4); [|lia..|done].
  intros Hl. destruct (IH (k + 1) (next s2)) as (H5 & H6 & H7 & H8); [lia..|done|done|].
  simpl in *. split_and!; [done| |congruence|auto].
  intros j Hj. destruct (decide (j = k)) as [->|]; [|apply H6; lia].
  destruct H2 as (p & Hp & Hr). exists p. auto.
Qed.

(** EnsurePartitions covers the months it is asked for.  When it reports no
    error in the partitioned mode, every creation time from the first of the
    current month (in UTC) to the end of the month [monthsAhead] months later
    (the current one if that is negative) falls into a partition of its month;
    partitions that existed are kept, and no row is touched. *)
Theorem EnsurePartitions_covers env st ahead s s' :
  partitioned st = true → named_ok (ps_parts s) →
  let k := month_of (pe_now env (ps_tick s)) in
  let n := Z.max 0 ahead + 1 in
  0 ≤ k → k + n < 120000 →
  EnsurePartitions env st ahead s = (None, s') →
  (∀ t, month_start k ≤ t < month_start (k + n) →
     ∃ p r, p ∈ ps_parts s' ∧ pt_range p = Some r ∧ in_range t r = true ∧
       r = (month_start (month_of t), month_start (month_of t + 1))) ∧
  named_ok (ps_parts s') ∧ ps_msgs s' = ps_msgs s ∧ (∀ p, p ∈ ps_parts s → p ∈ ps_parts s').
Proof.
  intros Hp Hok k n Hk Hn. unfold EnsurePartitions. rewrite Hp. cbn [negb].
  fold k. intros Hl.
  assert (Z.to_nat ((if ahead <? 0 then 0 else ahead) + 1) = Z.to_nat n) as En
    by (unfold n; destruct (Z.ltb_spec ahead 0); lia).
  rewrite En in Hl. apply ensure_loop_spec in Hl as (H1 & H2 & H3 & H4); [|lia..|done].
  split_and!; [|done..]. intros t Ht.
  assert (0 ≤ n) as Hn0 by (unfold n; lia).
  destruct (month_cover k n t Hn0 Ht) as (j & Hj & Htj).
  destruct (H2 j ltac:(lia)) as (p & Hin & Hr).
  assert (month_of t = j) as <-.
  { pose proof (month_of_spec t). destruct (Z.lt_trichotomy (month_of t) j) as [Hlt|[|Hlt]]; [|done|].
    - destruct (decide (month_of t + 1 = j)) as [E|]; [rewrite E in *; lia|].
      pose proof (month_start_lt (month_of t + 1) j). lia.
    - destruct (decide (j + 1 = month_of t)) as [E|]; [rewrite E in *; lia|].
      pose proof (month_start_lt (j + 1) (month_of t)). lia. }
  do 2 eexists. split_and!; [exact Hin|exact Hr| |done]. unfold in_range. simpl. lia.
Qed.

Definition demo_part_env : PartEnv :=
  {| pe_fault := λ _, NoFault;
     pe_now := λ _, month_start (12 * 2026 + 4) + 10 * Day;
     pe_order := λ _ l, l;
     pe_bound := λ p, match pt_range p with Some (f, t) => bound_text f t | None => "DEFAULT"%string end |}.

Definition demo_part_state : PartState :=
  mkPartState [] ∅ 0.

Lemma EnsurePartitions_covers_witness :
  ∃ s', EnsurePartitions demo_part_env (WithPartitioning (New [])) 2 demo_part_state = (None, s') ∧
    (pt_name <$> ps_parts s') = ["tickr_messages_2026_05"; "tickr_messages_2026_06";
      "tickr_messages_2026_07"]%string ∧
    (∀ p, p ∈ ps_parts demo_part_state → p ∈ ps_parts s').
Proof.
  eexists. split; [vm_compute; reflexivity|]. split; [vm_compute; reflexivity|].
  eapply (EnsurePartitions_covers demo_part_env (WithPartitioning (New [])) 2 demo_part_state).
  - reflexivity.
  - intros p k Hp. by apply elem_of_nil in Hp.
  - vm_compute. congruence.
  - vm_compute. congruence.
  - vm_compute. reflexivity.
Defined.

(** ** DropPartitionsBefore *)

(** A session in UTC, whose catalog query returns every partition. *)
Class UtcServer (env : PartEnv) : Prop := {
  utc_order : ∀ n l, pe_order env n l ≡ₚ l;
  utc_bound : ∀ p, pe_bound env p =
    match pt_range p with Some (f, t) => bound_text f t | None => "DEFAULT"%string end;
}.

(** Bounds as the adapter creates them, and one partition per name. *)
Definition parts_ok (ps : list part) : Prop :=
  NoDup (pt_name <$> ps) ∧
  ∀ p f t, p ∈ ps → pt_range p = Some (f, t) →
    0 ≤ Year f < 10000 ∧ 0 ≤ Year t < 10000 ∧ t mod Second = 0.

(** A partition that ends at or before the cutoff. *)
Definition ended (cutoff : Time) (p : part) : bool :=
  match pt_range p with Some (_, t) => t <=? cutoff | None => false end.

(** The creation times of some partitions. *)
Definition within (ps : list part) (t : Time) : bool :=
  existsb (λ p, match pt_range p with Some rg => in_range t rg | None => false end) ps.

Lemma droppable_ended env `{!UtcServer env} cutoff p :
  (∀ f t, pt_range p = Some (f, t) → 0 ≤ Year f < 10000 ∧ 0 ≤ Year t < 10000 ∧ t mod Second = 0) →
  droppable env cutoff p = ended cutoff p.
Proof.
  intros Hp. unfold droppable, ended. rewrite utc_bound.
  destruct (pt_range p) as [[f t]|]; [|by vm_compute].
  destruct (Hp f t eq_refl) as (Hf & Ht & Hs).
  assert (Contains (bound_text f t) "DEFAULT" = false) as ->.
  { unfold Contains. destruct (IndexCut _ _) as [[b r]|] eqn:E; [|done]. exfalso.
    apply IndexCut_Some, (f_equal (has_byte "D")) in E. unfold bound_text in E.
    rewrite !has_byte_app, !timestamptz_no_byte in E by done.
    rewrite orb_comm in E. by destruct (has_byte "D" b). }
  cbn [negb andb].
  by rewrite parse_bound.
Qed.

(** One DROP. *)
Lemma drop_partition_msgs name s s' : drop_partition name s = inr s' →
  ps_parts s' = filter (λ p, pt_name p ≠ name) (ps_parts s) ∧
  ∀ i, ps_msgs s' !! i = ps_msgs s !! i ≫= λ r,
    if within (filter (λ p, pt_name p = name) (ps_parts s)) (r_created_at r) then None else Some r.
Proof. unfold drop_partition. intros [= <-]. split; [done|]. intros i. apply lookup_delete_where. Qed.

(** The rows left when the partitions of the names [N] are gone. *)
Definition without (N : list string) (ps : list part) (o : option row) : option row :=
  o ≫= λ r, if within (filter (λ p, pt_name p ∈ N) ps) (r_created_at r) then None else Some r.

Lemma within_filter (P : part → Prop) `{!∀ p, Decision (P p)} ps t :
  within (filter P ps) t = true ↔
  ∃ p rg, p ∈ ps ∧ P p ∧ pt_range p = Some rg ∧ in_range t rg = true.
Proof.
  unfold within. rewrite existsb_exists. setoid_rewrite <- list_elem_of_In.
  setoid_rewrite list_elem_of_filter. split.
  - intros (p & [HP Hp] & Hin). destruct (pt_range p) as [rg|] eqn:E; [|done]. eauto 6.
  - intros (p & rg & Hp & HP & Hr & Hin). exists p. by rewrite Hr.
Qed.

Lemma without_cons a N ps o :
  without N (filter (λ p, pt_name p ≠ a) ps)
    (o ≫= λ r, if within (filter (λ p, pt_name p = a) ps) (r_created_at r) then None else Some r)
  = without (a :: N) ps o.
Proof.
  unfold without. destruct o as [r|]; [|done]. simpl.
  destruct (within (filter (λ p, pt_name p = a) ps) (r_created_at r)) eqn:E1; simpl.
  - apply within_filter in E1 as (p & rg & Hp & Ha & Hr & Hin).
    assert (within (filter (λ p, pt_name p ∈ a :: N) ps) (r_created_at r) = true) as ->; [|done].
    apply within_filter. exists p, rg. split_and!; [done|rewrite Ha; by left|done|done].
  - destruct (within (filter (λ p, pt_name p ∈ a :: N) ps) (r_created_at r)) eqn:E2.
    + apply within_filter in E2 as (p & rg & Hp & HN & Hr & Hin).
      assert (within (filter (λ p, pt_name p ∈ N) (filter (λ p, pt_name p ≠ a) ps)) (r_created_at r)
        = true) as ->; [|done].
      apply within_filter. exists p, rg.
      assert (pt_name p ≠ a) as Hne.
      { intros Ha. apply not_true_iff_false in E1. apply E1, within_filter. eauto 6. }
      apply elem_of_cons in HN as [|HN]; [done|]. split_and!; [by apply list_elem_of_filter|done..].
    + destruct (within (filter _ (filter _ ps)) _) eqn:E3; [|done]. exfalso.
      apply within_filter in E3 as (p & rg & [_ Hp]%list_elem_of_filter & HN & Hr & Hin).
      apply not_true_iff_false in E2. apply E2, within_filter. exists p, rg.
      split_and!; [done|by right|done|done].
Qed.

Lemma filter_all {A} (P : A → Prop) `{!∀ x, Decision (P x)} (l : list A) :
  (∀ x, P x) → filter P l = l.
Proof. intros Hall. induction l as [|x l IH]; [done|]. by rewrite filter_cons, decide_True, IH. Qed.

Lemma without_nil ps o : without [] ps o = o.
Proof.
  unfold without. destruct o as [r|]; [|done]. simpl. destruct (within _ _) eqn:E; [|done].
  by apply within_filter in E as (? & ? & _ & ?%elem_of_nil & _).
Qed.

Lemma drop_loop_spec env cutoff ps n s :
  let '((n', err), s') := drop_loop env cutoff ps n s in
  ∃ N, (∀ x, x ∈ N → ∃ p, p ∈ ps ∧ droppable env cutoff p = true ∧ pt_name p = x) ∧
    ps_parts s' = filter (λ p, pt_name p ∉ N) (ps_parts s) ∧
    (∀ i, ps_msgs s' !! i = without N (ps_parts s) (ps_msgs s !! i)) ∧
    (err = None → N = pt_name <$> filter (λ p, droppable env cutoff p = true) ps ∧
       n' = n + Z.of_nat (length N)).
Proof.
  revert n s. induction ps as [|p ps IH]; intros n s; cbn [drop_loop].
  { exists []. split_and!.
    - by intros x ?%elem_of_nil.
    - symmetry. apply filter_all. intros. apply not_elem_of_nil.
    - intros i. by rewrite without_nil.
    - intros _. split; [done|]. simpl. lia. }
  destruct (droppable env cutoff p) eqn:Ed.
  2:{ specialize (IH n s). destruct (drop_loop env cutoff ps n s) as [[n' err] s'].
    destruct IH as (N & H1 & H2 & H3 & H4). exists N. split_and!; [|done..|].
    - intros x Hx. destruct (H1 x Hx) as (q & Hq & ?). exists q. split; [by right|done].
    - intros He. rewrite filter_cons, decide_False by (by rewrite Ed). auto. }
  unfold mbind, State_bind.
  set (s1 := mkPartState (filter (λ q, pt_name q ≠ pt_name p) (ps_parts s))
    (ps_msgs (mkPartState (ps_parts s) (delete_where (λ (_ : UUID) r,
       within (filter (λ q, pt_name q = pt_name p) (ps_parts s)) (r_created_at r)) (ps_msgs s)) 0))
    (S (ps_tick s))).
  assert (∀ i, ps_msgs s1 !! i = ps_msgs s !! i ≫= λ r,
    if within (filter (λ q, pt_name q = pt_name p) (ps_parts s)) (r_created_at r)
    then None else Some r) as Hs1 by (intros i; apply lookup_delete_where).
  assert (part_exec env (drop_partition (pt_name p)) s = (None, s1) ∨
    (∃ e, part_exec env (drop_partition (pt_name p)) s = (Some e, s1)) ∨
    (∃ e, part_exec env (drop_partition (pt_name p)) s = (Some e, next s))) as Hcases.
  { unfold part_exec. destruct (pe_fault env (ps_tick s)); eauto. }
  destruct Hcases as [->|[[e ->]|[e ->]]].
  - specialize (IH (n + 1) s1). destruct (drop_loop env cutoff ps (n + 1) s1) as [[n' err] s'].
    destruct IH as (N & H1 & H2 & H3 & H4). exists (pt_name p :: N). split_and!.
    + intros x [->|Hx]%elem_of_cons; [exists p; split; [by left|done]|].
      destruct (H1 x Hx) as (q & Hq & ?). exists q. split; [by right|done].
    + rewrite H2. unfold s1. simpl. rewrite list_filter_filter. apply list_filter_iff.
      intros q. rewrite not_elem_of_cons. tauto.
    + intros i. rewrite H3, Hs1. apply without_cons.
    + intros He. destruct (H4 He) as [-> ->].
      rewrite filter_cons, decide_True by done. split; [done|]. simpl length. lia.
  - exists [pt_name p]. split_and!; [| | |done].
    + intros x ->%list_elem_of_singleton. exists p. split; [by left|done].
    + unfold s1. simpl. apply list_filter_iff. intros q. by rewrite list_elem_of_singleton.
    + intros i. by rewrite Hs1, <- (without_cons _ []), without_nil.
  - exists []. split_and!; [by intros x ?%elem_of_nil| | |done].
    + symmetry. apply filter_all. intros. apply not_elem_of_nil.
    + intros i. by rewrite without_nil.
Qed.

Lemma filter_ext_in {A} (P Q : A → Prop) `{!∀ x, Decision (P x), !∀ x, Decision (Q x)} (l : list A) :
  (∀ x, x ∈ l → P x ↔ Q x) → filter P l = filter Q l.
Proof.
  induction l as [|x l IH]; intros Hall; [done|].
  assert (P x ↔ Q x) as Hx by (apply Hall; by left).
  rewrite !filter_cons, (IH (λ y Hy, Hall y (list_elem_of_further y x l Hy))).
  by destruct (decide (P x)), (decide (Q x)); try tauto.
Qed.

Lemma name_unique ps p q :
  NoDup (pt_name <$> ps) → p ∈ ps → q ∈ ps → pt_name p = pt_name q → p = q.
Proof.
  intros Hnd [i Hi]%list_elem_of_lookup [j Hj]%list_elem_of_lookup E.
  assert (i = j) as ->; [|congruence].
  eapply NoDup_lookup; [exact Hnd| |]; rewrite list_lookup_fmap.
  - rewrite Hi. reflexivity.
  - rewrite Hj. simpl. by rewrite E.
Qed.

(** C39: DropPartitionsBefore removes old partitions and nothing newer.  Whatever
    fails on the way, a row it removes was created before the cutoff, and the
    other rows are untouched; and when it reports no error, exactly the
    partitions that end at or before the cutoff are gone, their number is
    returned, and exactly the rows created in their ranges are gone, whatever
    their status. *)
Theorem DropPartitionsBefore_spec env `{!UtcServer env} st cutoff s n err s' :
  partitioned st = true → parts_ok (ps_parts s) →
  DropPartitionsBefore env st cutoff s = ((n, err), s') →
  (∀ i r, ps_msgs s !! i = Some r →
     ps_msgs s' !! i = Some r ∨ (ps_msgs s' !! i = None ∧ r_created_at r < cutoff)) ∧
  (∀ i, ps_msgs s !! i = None → ps_msgs s' !! i = None) ∧
  (err = None →
     ps_parts s' = filter (λ p, ended cutoff p = false) (ps_parts s) ∧
     n = Z.of_nat (length (filter (λ p, ended cutoff p = true) (ps_parts s))) ∧
     ∀ i r, ps_msgs s !! i = Some r →
       (ps_msgs s' !! i = None ↔
        within (filter (λ p, ended cutoff p = true) (ps_parts s)) (r_created_at r) = true)).
Proof.
  intros Hpart [Hnd Hok]. unfold DropPartitionsBefore. rewrite Hpart. cbn [negb].
  destruct (pe_fault env (ps_tick s)).
  2,3: intros [= <- <- <-]; simpl; split_and!; [auto|done|done].
  pose proof (drop_loop_spec env cutoff (pe_order env (ps_tick s) (ps_parts s)) 0 (next s)) as Hl.
  destruct (drop_loop _ _ _ _ _) as [[n' err'] s1]. intros [= -> -> ->]. simpl in Hl.
  destruct Hl as (N & HN & Hparts & Hmsgs & Hdone).
  assert (∀ x, x ∈ N → ∃ p, p ∈ ps_parts s ∧ ended cutoff p = true ∧ pt_name p = x) as HN'.
  { intros x Hx. destruct (HN x Hx) as (p & Hp & Hd & Hname). rewrite utc_order in Hp.
    exists p. rewrite (droppable_ended env) in Hd by eauto. done. }
  split_and!.
  - intros i r Hi. rewrite Hmsgs, Hi. unfold without. simpl.
    destruct (within _ _) eqn:E; [right|by left]. split; [done|].
    apply within_filter in E as (p & rg & Hp & HpN & Hr & Hin).
    destruct (HN' _ HpN) as (q & Hq & He & Hname).
    assert (q = p) as -> by (by eapply name_unique).
    unfold ended in He. rewrite Hr in He. destruct rg as [f t]. unfold in_range in Hin. simpl in Hin. lia.
  - intros i Hi. by rewrite Hmsgs, Hi.
  - intros Herr. destruct (Hdone Herr) as [-> ->].
    assert (filter (λ p, droppable env cutoff p = true) (pe_order env (ps_tick s) (ps_parts s))
      ≡ₚ filter (λ p, ended cutoff p = true) (ps_parts s)) as Hperm.
    { rewrite (utc_order (ps_tick s) (ps_parts s)). 
      rewrite (filter_ext_in _ (λ p, ended cutoff p = true) (ps_parts s)); [done|].
      intros p Hp. by rewrite (droppable_ended env) by eauto. }
    assert (∀ p, p ∈ ps_parts s → pt_name p ∈ (pt_name <$> filter (λ p, droppable env cutoff p = true)
      (pe_order env (ps_tick s) (ps_parts s))) ↔ ended cutoff p = true) as Hmem.
    { intros p Hp. rewrite Hperm, list_elem_of_fmap. split.
      - intros (q & Hname & [He Hq]%list_elem_of_filter).
        by assert (p = q) as -> by (by eapply name_unique).
      - intros He. exists p. split; [done|]. by apply list_elem_of_filter. }
    split_and!.
    + rewrite Hparts. apply filter_ext_in. intros p Hp. rewrite (Hmem p Hp).
      by destruct (ended cutoff p).
    + by rewrite length_fmap, Hperm.
    + intros i r Hi. rewrite Hmsgs, Hi. unfold without. simpl.
      rewrite (filter_ext_in _ (λ p, ended cutoff p = true)) by exact Hmem.
      by destruct (within _ _).
Qed.

(** A partition of a month long gone, with a message never delivered. *)
Definition demo_old_row : row :=
  SQL.new_row "order.paid" "{}" ∅ None 3 (month_start (12 * 2026)) 0 (month_start (12 * 2026)).

Definition demo_drop_state : PartState :=
  mkPartState [mkPart "tickr_messages_2026_01" (Some (month_start (12 * 2026), month_start (12 * 2026 + 1)));
               mkPart "tickr_messages_2026_02" (Some (month_start (12 * 2026 + 1), month_start (12 * 2026 + 2)))]
    {["id-0"%string := demo_old_row]} 0.

#[export] Instance demo_part_utc : UtcServer demo_part_env.
Proof. split; done. Defined.

Lemma DropPartitionsBefore_spec_witness :
  let '((n, err), s') := DropPartitionsBefore demo_part_env (WithPartitioning (New []))
    (month_start (12 * 2026 + 1)) demo_drop_state in
  n = 1 ∧ err = None ∧ (pt_name <$> ps_parts s') = ["tickr_messages_2026_02"%string] ∧
  r_status demo_old_row = StatusCreated ∧ ps_msgs s' !! "id-0"%string = None ∧
  (∀ i r, ps_msgs demo_drop_state !! i = Some r →
     ps_msgs s' !! i = Some r ∨ (ps_msgs s' !! i = None ∧ r_created_at r < month_start (12 * 2026 + 1))).
Proof.
  destruct (DropPartitionsBefore _ _ _ _) as [[n err] s'] eqn:E.
  assert (n = 1 ∧ err = None ∧ (pt_name <$> ps_parts s') = ["tickr_messages_2026_02"%string] ∧
    ps_msgs s' !! "id-0"%string = None) as (-> & -> & Hp & Hm).
  { vm_compute in E. injection E as <- <- <-. split_and!; reflexivity. }
  split_and!; [done..|reflexivity|done|].
  apply (DropPartitionsBefore_spec demo_part_env (WithPartitioning (New []))
    (month_start (12 * 2026 + 1)) demo_drop_state 1 None s').
  - reflexivity.
  - split; [apply NoDup_cons; split; [|apply NoDup_singleton]; by intros [= H]%list_elem_of_singleton|].
    intros p f t Hin Hr.
    apply elem_of_cons in Hin as [->|Hin]; [|apply list_elem_of_singleton in Hin as ->];
      injection Hr as <- <-; vm_compute; split_and!; congruence.
  - exact E.
Defined.
