(* ===== verification/LeaderLocks.v ===== *)
(** * Leader locks of sessions (TryLeaderLock of storage/postgres/postgres.go
      and storage/mysql/mysql.go)

    Both adapters take a lock that the server ties to a session: an advisory
    lock keyed by a hash on PostgreSQL, a named lock on MySQL.  A granted lock
    keeps its connection checked out of the pool until it is released; the
    server releases a session's locks when the session ends. *)

From S2P Require Import Prelude GoErrors GoStrings World.
From Stdlib Require Import Ascii.

(** ** Lock names *)

(** [fnv.New64a] over the bytes of the key, and [int64] of the sum. *)
Definition fnv_offset : Z := 14695981039346656037.
Definition fnv_prime : Z := 1099511628211.

Fixpoint fnv64a (h : Z) (s : string) : Z :=
  match s with
  | EmptyString => h
  | String c s => fnv64a ((Z.lxor h (Z.of_N (N_of_ascii c)) * fnv_prime) mod 2 ^ 64) s
  end.

Definition advisory_key (key : string) : Z := wrap64 (fnv64a fnv_offset key).

Definition mysql_lock_name (key : string) : string := ("tickr:" ++ key)%string.

Example fnv_empty : advisory_key "" = wrap64 14695981039346656037.
Proof. reflexivity. Qed.

Example fnv_a : fnv64a fnv_offset "a" = 0xaf63dc4c8601ec8c.
Proof. reflexivity. Qed.

(** ** One server, many connections *)

Section Locks.
Context {L : Type} `{Countable L}.

Abbreviation Conn := nat (only parsing).

(** [lk_held]: the session that holds a lock and how many times it took it;
    [lk_out]: the connections checked out of their pools, with the lock whose
    unlock function has not been called yet; [lk_dead]: connections whose
    session the server has ended. *)
Record lock_state := mkLockState {
  lk_held : gmap L (Conn * nat);
  lk_out : gmap Conn L;
  lk_dead : gset Conn;
}.

(** pg_try_advisory_lock, GET_LOCK with timeout 0: a session may take a lock it
    holds again. *)
Definition try_lock (c : Conn) (l : L) (s : lock_state) : bool * lock_state :=
  match lk_held s !! l with
  | None => (true, mkLockState (<[l := (c, 1%nat)]> (lk_held s)) (lk_out s) (lk_dead s))
  | Some (c', n) =>
    if bool_decide (c' = c)
    then (true, mkLockState (<[l := (c, S n)]> (lk_held s)) (lk_out s) (lk_dead s))
    else (false, s)
  end.

(** pg_advisory_unlock, RELEASE_LOCK *)
Definition release_lock (c : Conn) (l : L) (s : lock_state) : lock_state :=
  match lk_held s !! l with
  | Some (c', S (S n)) =>
    if bool_decide (c' = c)
    then mkLockState (<[l := (c, S n)]> (lk_held s)) (lk_out s) (lk_dead s) else s
  | Some (c', _) =>
    if bool_decide (c' = c) then mkLockState (delete l (lk_held s)) (lk_out s) (lk_dead s) else s
  | None => s
  end.

Definition checkout (c : Conn) (l : L) (s : lock_state) : lock_state :=
  mkLockState (lk_held s) (<[c := l]> (lk_out s)) (lk_dead s).
Definition checkin (c : Conn) (s : lock_state) : lock_state :=
  mkLockState (lk_held s) (delete c (lk_out s)) (lk_dead s).

(** The result of the query as the driver delivers it: MySQL's GET_LOCK may
    also return NULL, which counts as not granted. *)
Inductive Answer := Delivered | NullAnswer | QueryFails (e : error) (taken : bool).

(** TryLeaderLock on the connection [c] that the pool hands out ([acquire_err]
    when it hands out none): on success the connection stays checked out. *)
Definition TryLeaderLock (pfx_acquire pfx_query : string) (acquire_err : option error)
    (a : Answer) (c : Conn) (l : L) : State lock_state (bool * option error) := λ s,
  match acquire_err with
  | Some e => ((false, Some (Errorf_w pfx_acquire e)), s)
  | None =>
    let '(got, s') := try_lock c l s in
    match a with
    | QueryFails e taken => ((false, Some (Errorf_w pfx_query e)), if taken then s' else s)
    | NullAnswer => ((false, None), s)
    | Delivered => if got then ((true, None), checkout c l s') else ((false, None), s')
    end
  end.

Definition Postgres_TryLeaderLock := TryLeaderLock "tickr/postgres: acquire conn"
  "tickr/postgres: try advisory lock".
Definition MySQL_TryLeaderLock := TryLeaderLock "tickr/mysql: acquire conn"
  "tickr/mysql: get_lock".

(** The unlock function: the release may fail, the connection is returned. *)
Definition unlock (ok : bool) (c : Conn) (l : L) (s : lock_state) : lock_state :=
  checkin c (if ok then release_lock c l s else s).

(** The server ends a session. *)
Definition end_session (c : Conn) (s : lock_state) : lock_state :=
  mkLockState (filter (λ x, x.2.1 ≠ c) (lk_held s)) (lk_out s) ({[c]} ∪ lk_dead s).

(** A pool hands out only connections that are not checked out and alive. *)
Inductive locks_step : lock_state → lock_state → Prop :=
| lk_try p1 p2 aerr a c l s :
    lk_out s !! c = None → c ∉ lk_dead s →
    locks_step s (TryLeaderLock p1 p2 aerr a c l s).2
| lk_unlock ok c l s :
    lk_out s !! c = Some l → locks_step s (unlock ok c l s)
| lk_end c s : locks_step s (end_session c s).

Definition no_locks : lock_state := mkLockState ∅ ∅ ∅.

(** A live grant holds its lock at the server. *)
Definition grants_held (s : lock_state) : Prop := ∀ c l,
  lk_out s !! c = Some l → c ∉ lk_dead s → ∃ n, lk_held s !! l = Some (c, S n).

Lemma try_lock_grants c l s : grants_held s → lk_out s !! c = None →
  let '(got, s') := try_lock c l s in
  grants_held s' ∧ lk_out s' = lk_out s ∧ lk_dead s' = lk_dead s ∧
  (got = true → ∃ n, lk_held s' !! l = Some (c, S n)).
Proof.
  intros Hs Hc. unfold try_lock.
  assert (∀ n, (∀ c' n', lk_held s !! l = Some (c', n') → c' = c) →
    grants_held (mkLockState (<[l := (c, S n)]> (lk_held s)) (lk_out s) (lk_dead s))) as Hins.
  { intros n Hl c0 l0 H0 Hd. simpl in *. destruct (Hs c0 l0 H0 Hd) as [m Hm].
    destruct (decide (l0 = l)) as [->|Hne]; [|by rewrite lookup_insert_ne; eauto].
    apply Hl in Hm as ->. congruence. }
  destruct (lk_held s !! l) as [[c' n]|] eqn:E.
  - case_bool_decide as Hcc; [subst c'|done].
    split_and!; [|done|done|intros _; exists n; apply lookup_insert_eq].
    apply Hins. intros c' n' [= -> ->]. done.
  - split_and!; [|done|done|intros _; exists 0%nat; apply lookup_insert_eq].
    apply (Hins 0%nat). done.
Qed.

Lemma release_grants c l s : grants_held s → lk_out s !! c = Some l →
  grants_held (checkin c (release_lock c l s)).
Proof.
  intros Hs Hc c0 l0 H0 Hd.
  assert (lk_out (release_lock c l s) = lk_out s ∧ lk_dead (release_lock c l s) = lk_dead s) as [Eo Ed].
  { unfold release_lock. destruct (lk_held s !! l) as [[c' [|[|n]]]|]; [..|done];
      by case_bool_decide. }
  simpl in *. rewrite Eo in H0. rewrite Ed in Hd. apply lookup_delete_Some in H0 as [Hne H0].
  destruct (Hs c0 l0 H0 Hd) as [m Hm]. exists m. unfold release_lock.
  destruct (lk_held s !! l) as [[c' n']|] eqn:E; [|done].
  assert (l0 = l → c' ≠ c) as Hl by (intros ->; congruence).
  destruct n' as [|[|n']]; case_bool_decide as Hcc; simpl; try done; subst c'.
  - rewrite lookup_delete_ne; [done|]. naive_solver.
  - rewrite lookup_delete_ne; [done|]. naive_solver.
  - rewrite lookup_insert_ne; [done|]. naive_solver.
Qed.

Lemma locks_step_grants s s' : locks_step s s' → grants_held s → grants_held s'.
Proof.
  destruct 1 as [p1 p2 aerr a c l s Hc Hd|ok c l s Hc|c s]; intros Hs.
  - unfold TryLeaderLock. destruct aerr as [e|]; [done|].
    pose proof (try_lock_grants c l s Hs Hc) as Ht. destruct (try_lock c l s) as [got s1].
    destruct Ht as (H1 & H2 & H3 & H4).
    destruct a as [| |e taken]; [|done|by destruct taken].
    destruct got; [|done]. simpl. intros c0 l0 H0 Hd0. simpl in *.
    apply lookup_insert_Some in H0 as [[<- <-]|[_ H0]]; [by apply H4|]. by apply H1.
  - unfold unlock. destruct ok; [by apply release_grants|].
    intros c0 l0 H0 Hd0. simpl in *. apply lookup_delete_Some in H0 as [_ H0]. by apply Hs.
  - intros c0 l0 H0 Hd0. simpl in *. apply not_elem_of_union in Hd0 as [Hne%not_elem_of_singleton Hd0].
    destruct (Hs c0 l0 H0 Hd0) as [n Hn]. exists n. by apply map_lookup_filter_Some.
Qed.
End Locks.
Arguments lock_state L {_ _}.

(** C40: A session lock has one holder.  However any number of processes try,
    release and lose their connections, a lock is granted to at most one live
    connection at a time: when two unlock functions for the same lock are
    outstanding on connections whose sessions the server has not ended, they
    belong to the same connection. *)
Theorem session_lock_exclusive {L} `{Countable L} (s : lock_state L) c1 c2 l :
  rtc locks_step no_locks s →
  lk_out s !! c1 = Some l → lk_out s !! c2 = Some l → c1 ∉ lk_dead s → c2 ∉ lk_dead s → c1 = c2.
Proof.
  intros Hs. assert (grants_held s) as Hg.
  { assert (∀ s0, rtc locks_step s0 s → grants_held s0 → grants_held s) as Hinv.
    { induction 1; eauto using locks_step_grants. }
    apply (Hinv _ Hs). intros c l0 H0. simpl in H0. by rewrite lookup_empty in H0. }
  intros H1 H2 D1 D2. destruct (Hg c1 l H1 D1) as [n1 E1], (Hg c2 l H2 D2) as [n2 E2]. congruence.
Qed.

(** Connection 1 is granted the reclaimer's lock, connection 2 is not; when the
    first session ends, connection 2 is. *)
Definition demo_locks : lock_state Z :=
  (Postgres_TryLeaderLock None Delivered 2%nat (advisory_key "reclaimer")
    (end_session 1%nat
      (Postgres_TryLeaderLock None Delivered 2%nat (advisory_key "reclaimer")
        (Postgres_TryLeaderLock None Delivered 1%nat (advisory_key "reclaimer") no_locks).2).2)).2.

Lemma session_lock_exclusive_witness :
  lk_out demo_locks !! 1%nat = Some (advisory_key "reclaimer") ∧
  lk_out demo_locks !! 2%nat = Some (advisory_key "reclaimer") ∧
  ∀ c, lk_out demo_locks !! c = Some (advisory_key "reclaimer") → c ∉ lk_dead demo_locks → c = 2%nat.
Proof.
  split; [vm_compute; reflexivity|]. split; [vm_compute; reflexivity|].
  intros c Hc Hd.
  apply (session_lock_exclusive demo_locks c 2 (advisory_key "reclaimer")).
  - unfold demo_locks, Postgres_TryLeaderLock.
    eapply rtc_r; [eapply rtc_r; [eapply rtc_r; [eapply rtc_r; [reflexivity|]|]|]|];
      [eapply (lk_try _ _ None Delivered 1) | eapply (lk_try _ _ None Delivered 2) | eapply (lk_end 1)
      |eapply (lk_try _ _ None Delivered 2)];
      try (vm_compute; reflexivity); apply (bool_decide_eq_true_1 _); vm_compute; reflexivity.
  - exact Hc.
  - vm_compute. reflexivity.
  - exact Hd.
  - apply (bool_decide_eq_true_1 _). vm_compute. reflexivity.
Defined.
