(* ===== verification/Codecs.v ===== *)
(** * The codec packages (codec/json/codec.go, codec/proto/codec.go)

    Typed handlers over a codec of the caller's choice: unlike [tickr.On] they
    return a decode failure as an ordinary error, which is retried.  The two
    libraries' Marshal and Unmarshal are parameters; [zero] is the zero value of
    the type, for protobuf a new empty message. *)

From S2P Require Import Prelude GoErrors Message Effects Registry.

Section Codec.
Context {T : Type} (Marshal : T → error + bytes) (Unmarshal : bytes → error + T) (zero : T).

(** The handler returned by [Wrap]; [pkg] is the package's error prefix. *)
Definition codec_Wrap (pkg : string) (h : InboundMessage → T → handler_result) (msg : InboundMessage)
    : handler_result :=
  if bool_decide (im_Payload msg = ""%string) then h msg zero
  else match Unmarshal (im_Payload msg) with
       | inl err => Returned (Some (Errorf_w (pkg ++ ": decode payload") err))
       | inr body => h msg body
       end.

Definition codec_Encode (pkg : string) (body : T) : error + bytes :=
  match Marshal body with
  | inl err => inl (Errorf_w (pkg ++ ": encode payload") err)
  | inr b => inr b
  end.

Definition JsonWrap := codec_Wrap "tickr/codec/json".
Definition JsonEncode := codec_Encode "tickr/codec/json".
Definition ProtoWrap := codec_Wrap "tickr/codec/proto".
Definition ProtoEncode := codec_Encode "tickr/codec/proto".

(** What the libraries document: a value that was marshalled is read back, and
    only the zero value has an empty encoding. *)
Definition reads_back : Prop :=
  ∀ x b, Marshal x = inr b → if bool_decide (b = ""%string) then x = zero else Unmarshal b = inr x.

(** The consumer's handler gets the value the producer encoded, through each of
    the three wrappers. *)
Lemma codec_roundtrip x b h msg :
  reads_back → im_Payload msg = b →
  (Encode Marshal x = inr b → wrapJSON Unmarshal zero h msg = h msg x) ∧
  (JsonEncode x = inr b → JsonWrap h msg = h msg x) ∧
  (ProtoEncode x = inr b → ProtoWrap h msg = h msg x).
Proof.
  intros Hr Hb. specialize (Hr x b).
  unfold Encode, wrapJSON, decode_body, JsonEncode, JsonWrap, ProtoEncode, ProtoWrap, codec_Encode, codec_Wrap.
  rewrite Hb. destruct (Marshal x) as [e|b']; split_and!; try done; intros [= ->];
    specialize (Hr eq_refl); destruct (bool_decide _); subst; try done; by rewrite Hr.
Qed.

(** A decode failure is dead-lettered by [tickr.On] and retried by the codec
    packages, unless the library's own error says otherwise. *)
Lemma codec_decode_failure h msg err :
  im_Payload msg ≠ ""%string → Unmarshal (im_Payload msg) = inl err →
  (∃ e, wrapJSON Unmarshal zero h msg = Returned (Some e) ∧ IsDeadLetter (Some e) = true) ∧
  (∃ e, JsonWrap h msg = Returned (Some e) ∧ IsDeadLetter (Some e) = IsDeadLetter (Some err)) ∧
  (∃ e, ProtoWrap h msg = Returned (Some e) ∧ IsDeadLetter (Some e) = IsDeadLetter (Some err)).
Proof.
  intros Hp Hu. unfold wrapJSON, decode_body, JsonWrap, ProtoWrap, codec_Wrap.
  rewrite !bool_decide_eq_false_2, Hu by done. split_and!; by eexists.
Qed.
End Codec.
