(* ===== verification/TypedDelivery.v ===== *)
(** * Typed handlers in the engine

    A handler registered with [tickr.On], run by the engine against the
    PostgreSQL adapter: what a producer encoded reaches the handler as the value
    it was, and what cannot be decoded is dead-lettered at once. *)

From S2P Require Import Prelude GoErrors GoFloat Retry Message World Postgres Lifecycle PostgresLogic PostgresFacts Demo Fleet FleetSafety PostgresClaim PostgresEnqueue PostgresAck Effects Registry Codecs Engine EngineFacts EndToEnd Delivery.

(** A successful registration is found under its type. *)
Lemma typed_On_found {T} (closure : (InboundMessage → T → handler_result) → Handler) et h opts r r' :
  typed_On closure et (Some h) opts r = (None, r') →
  ∃ c, lookup_handler r' et = Some (mkRegistration (Some (closure h)) None c).
Proof.
  unfold typed_On, On, register, lookup_handler. case_bool_decide; [done|].
  destruct (r !! et); [done|]. intros [= <-]. eexists. apply lookup_insert_eq.
Qed.

Section TypedDelivery.
Context (env : Env) (s : Store) (oracle : ∀ B, eff B → B) (e : engineConfig).
Context (Hnf : ∀ n, e_fault env n = NoFault).

(** Handlers answer as the oracle says. *)
Definition as_oracle (B : Type) (ef : eff B) : B → Prop :=
  match ef in eff B' return B' → Prop with
  | Invoke h m => λ r, r = oracle _ (Invoke h m)
  | _ => λ _, True
  end.

Lemma attempt_invokes m reg h res w :
  handler reg = Some h → invoked (attempt_then_flush env s oracle e m reg w).1 reg m res →
  res = oracle _ (Invoke h m).
Proof.
  unfold invoked. intros -> Hin. unfold attempt_then_flush in Hin. simpl in Hin.
  assert (∀ B (ef : eff B) st, as_oracle B ef (pg_handler env s oracle B ef st).1) as Hok.
  { by intros B [] st. }
  pose proof (every_erun as_oracle _ _ _ (w, []) Hok (every_answers as_oracle (runHandler e m reg))) as H.
  rewrite Forall_forall in H. by specialize (H _ Hin).
Qed.

(** What the engine makes of the oracle's answer to the one invocation. *)
Lemma attempt_of_handler m reg h mid w :
  handler reg = Some h → e_uuid_Parse env (im_ID m) = Some mid →
  let '(t, w') := attempt_then_flush env s oracle e m reg w in
  ∃ k now, verdict t (workerID e) m (cfg reg) (safeInvoke (oracle _ (Invoke h m))) k ∧
    acked_as mid (im_Attempt m) (ack_row k now) (d_msgs (w_db w)) (d_msgs (w_db w')).
Proof using Hnf.
  intros Hh Hid. pose proof (attempt_settled env s oracle e m reg mid w Hnf Hid) as H.
  pose proof (λ res, attempt_invokes m reg h res w Hh) as Hinv.
  destruct (attempt_then_flush _ _ _ _ _ _ _) as [t w']. destruct H as (res & k & now & Hi & Hv & Ha).
  exists k, now. split; [|done]. by rewrite <- (Hinv res Hi).
Qed.

(** A handler's nil is a success; a dead letter that is neither a skip nor a
    cancellation is a dead row, whatever the configuration. *)
Lemma verdict_nil t w m c k : verdict t w m c None k → k = AckSuccess.
Proof. by inversion 1. Qed.

Lemma verdict_dead t w m c er k :
  IsDeadLetter (Some er) = true → IsSkip (Some er) = false → is_Canceled (Some er) = false →
  verdict t w m c (Some er) k →
  k = AckFail (mkFailParams (im_ID m) (im_Attempt m) w (Error er) 0 true).
Proof.
  intros Hd Hs Hc. inversion 1 as [? [?|?]|? ? Hc'|? ? ? Hcause|? ? ? ? ? Hcause]; subst; try congruence.
  destruct Hcause. by left.
Qed.
End TypedDelivery.

(** The error of a payload that cannot be decoded. *)
Definition decode_error (err : error) : error :=
  DeadLetter (Some (Errorf_w "tickr: decode payload" err)).

(** C8: What a producer encoded reaches the typed handler; what cannot be
    decoded dies at once.  Register [h] with On, whatever the options, and let
    the engine run an attempt of a claimed message of its type against the
    adapter, with the database answering.  If the payload was produced by Encode
    from [x] and [h] accepts [x], the row becomes SUCCESS; if the payload does not
    decode (with an error that is not itself a skip or a cancellation), the row
    becomes DEAD under this very attempt with the decode error as its last error,
    however many attempts are left and whatever [h] is.  In both cases a row that
    is no longer held under this attempt, and every other row, is left alone. *)
Theorem typed_delivery env s (oracle : ∀ B, eff B → B) (e : engineConfig) {T} (Marshal : T → error + bytes) Unmarshal (zero : T)
    closure h opts rg rg' m mid (w : World) :
  (∀ n, e_fault env n = NoFault) → e_uuid_Parse env (im_ID m) = Some mid →
  typed_On closure (im_Type m) (Some h) opts rg = (None, rg') →
  oracle _ (Invoke (closure h) m) = wrapJSON Unmarshal zero h m →
  ∃ reg, lookup_handler rg' (im_Type m) = Some reg ∧
  let w' := (attempt_then_flush env s oracle e m reg w).2 in
  (∀ x, reads_back Marshal Unmarshal zero → Encode Marshal x = inr (im_Payload m) →
     h m x = Returned None →
     ∃ now, acked_as mid (im_Attempt m) (SQL.success_row now) (d_msgs (w_db w)) (d_msgs (w_db w'))) ∧
  (∀ err, im_Payload m ≠ ""%string → Unmarshal (im_Payload m) = inl err →
     IsSkip (Some err) = false → is_Canceled (Some err) = false →
     ∃ now, acked_as mid (im_Attempt m) (SQL.dead_row now (Error (decode_error err)))
       (d_msgs (w_db w)) (d_msgs (w_db w'))).
Proof.
  intros Hnf Hid Hon Ho. destruct (typed_On_found _ _ _ _ _ _ Hon) as [c Hl].
  eexists. split; [exact Hl|].
  pose proof (attempt_of_handler env s oracle e Hnf m _ (closure h) mid w
    (eq_refl : handler (mkRegistration (Some (closure h)) None c) = _) Hid) as H.
  destruct (attempt_then_flush _ _ _ _ _ _ _) as [t w']. destruct H as (k & now & Hv & Ha).
  rewrite Ho in Hv. split.
  - intros x Hr Henc Hh. destruct (codec_roundtrip Marshal Unmarshal zero x _ h m Hr eq_refl) as [Hw _].
    rewrite (Hw Henc), Hh in Hv. apply verdict_nil in Hv as ->. by exists now.
  - intros err Hp Hu Hs Hc. unfold wrapJSON, decode_body in Hv.
    rewrite bool_decide_eq_false_2, Hu in Hv by done.
    apply (verdict_dead _ _ _ _ (decode_error err)) in Hv as ->; [by exists now|done..].
Qed.

(** A string codec whose only malformed text is an opening brace, and a handler
    that accepts everything, against the message leased in [demo_claimed]. *)
Definition demo_unmarshal (b : bytes) : error + string :=
  if bool_decide (b = "{"%string) then inl (errorString "unexpected end of JSON input") else inr b.
Definition demo_marshal (x : string) : error + bytes :=
  if bool_decide (x = "{"%string) then inl (errorString "unsupported") else inr x.
Definition demo_typed (_ : InboundMessage) (_ : string) : handler_result := Returned None.
Definition demo_payload (b : bytes) : InboundMessage :=
  mkInbound (demo_id 0) "order.paid" b None "" 1 3 0 0 "" (Some StatusHandling).
Definition demo_typed_oracle (B : Type) (ef : eff B) : B :=
  match ef in eff B' return B' with
  | Invoke _ m => wrapJSON demo_unmarshal ""%string demo_typed m
  | ef' => (failing_world _ ef' ()).1
  end.
Definition demo_closure (_ : InboundMessage → string → handler_result) : Handler := mkHandler "orders".

Lemma demo_reads_back : reads_back demo_marshal demo_unmarshal ""%string.
Proof.
  intros x b. unfold demo_marshal, demo_unmarshal. case_bool_decide; [done|]. intros [= <-].
  case_bool_decide; [done|]. by rewrite bool_decide_eq_false_2.
Qed.

Lemma typed_delivery_witness : ∃ reg,
  let after b := (attempt_then_flush demo_env demo_store demo_typed_oracle demo_engine
    (demo_payload b) reg demo_claimed).2 in
  (∃ now, acked_as (demo_id 0) 1 (SQL.success_row now)
    (d_msgs (w_db demo_claimed)) (d_msgs (w_db (after "{}"%string)))) ∧
  r_status <$> d_msgs (w_db (after "{"%string)) !! demo_id 0 = Some StatusDead.
Proof.
  destruct (typed_delivery demo_env demo_store demo_typed_oracle demo_engine demo_marshal demo_unmarshal
    ""%string demo_closure demo_typed [WithMaxAttempts 5] NewRegistry
    (typed_On demo_closure "order.paid" (Some demo_typed) [WithMaxAttempts 5] NewRegistry).2
    (demo_payload "{}") (demo_id 0) demo_claimed) as (reg & Hl & Hs & _).
  - reflexivity.
  - reflexivity.
  - reflexivity.
  - reflexivity.
  - exists reg. split; [apply (Hs "{}"%string); [apply demo_reads_back|reflexivity|reflexivity]|].
    vm_compute in Hl. injection Hl as <-. vm_compute. reflexivity.
Defined.
