(* ===== verification/Observe.v ===== *)
(** * Alerts and trace propagation (observe.go, tracing/otel/otel.go, the
      tracing calls of client.go)

    The optional hooks and their defaults.  Go maps are references: a tracer
    writes the trace context into the very headers map the caller passed, so
    the headers live in a store of maps.  The OpenTelemetry API is a parameter:
    what a started span's context is, what a propagator sets in a carrier and
    what it reads from one. *)

From S2P Require Import Prelude GoErrors Message World Postgres Effects.

#[local] Open Scope string_scope.

(** ** Alerts *)

(** A user's Alerter: [Some r] when OnError panics with [r]. *)
Inductive Alerter :=
| nopAlerter
| userAlerter (OnError : ErrorEvent → option string).

Definition defaultedAlerter (a : option Alerter) : Alerter := default nopAlerter a.

Definition kind_text (k : ErrorKind) : string :=
  match k with
  | ErrorKindHandler => "handler" | ErrorKindDeadLetter => "dead_letter"
  | ErrorKindNoHandler => "no_handler" | ErrorKindClaim => "claim"
  | ErrorKindStorage => "storage" | ErrorKindLease => "lease"
  | ErrorKindJanitor => "janitor" | ErrorKindReclaimer => "reclaimer"
  end.

(** A context: whether it is cancelled, and when it will be. *)
Record context := mkContext { cx_cancelled : bool; cx_deadline : option Time }.

Definition WithoutCancel (c : context) : context := mkContext false None.
Definition WithTimeout (now : Time) (d : Duration) (c : context) : context :=
  mkContext (cx_cancelled c)
    (Some (match cx_deadline c with Some t => Z.min t (now + d) | None => (now + d)%Z end)).

(** What one alert does: the context OnError gets, and what is logged.
    [None]: no goroutine is started. *)
Record alert_run := mkAlertRun { al_ctx : context; al_logged : list (string * string * string) }.

Definition fireAlert (a : Alerter) (now : Time) (ctx : context) (ev : ErrorEvent) : option alert_run :=
  match a with
  | nopAlerter => None
  | userAlerter OnError =>
    Some (mkAlertRun (WithTimeout now (30 * Second) (WithoutCancel ctx))
            (match OnError ev with
             | Some r => [("tickr: alerter panic", kind_text (ev_Kind ev), r)]
             | None => []
             end))
  end.

(** An alert outlives the caller's context and is bounded by 30 seconds; a panic
    in it is logged and goes no further. *)
Lemma alert_detached a now ctx ev r :
  fireAlert a now ctx ev = Some r →
  al_ctx r = mkContext false (Some (now + 30 * Second)%Z) ∧ (length (al_logged r) <= 1)%nat.
Proof. destruct a as [|f]; simpl; [done|]. intros [= <-]. simpl. destruct (f ev); simpl; split; done || lia. Qed.

(** ** Tracers *)

Inductive SpanKind := SpanKindProducer | SpanKindInternal | SpanKindConsumer.

Inductive attribute := AttrString (k v : string) | AttrInt (k : string) (n : Z).

Section Tracing.
Context {Ctx SpanCtx : Type}.

(** The calls of the OpenTelemetry API, spans numbered in the order of Start. *)
Inductive otel_call :=
| Start (n : nat) (parent : Ctx) (name : string) (kind : SpanKind) (attrs : list attribute)
| RecordError (n : nat) (e : error)
| SetStatus (n : nat) (text : string)
| End (n : nat).

(** The maps that are reachable, by reference, and the calls so far. *)
Record tstate := mkTState {
  ts_maps : gmap nat (gmap string string);
  ts_spans : nat;
  ts_calls : list otel_call;
}.

Definition set_map (l : nat) (m : gmap string string) (s : tstate) : tstate :=
  mkTState (<[l := m]> (ts_maps s)) (ts_spans s) (ts_calls s).
Definition log_call (c : otel_call) (s : tstate) : tstate :=
  mkTState (ts_maps s) (ts_spans s) (ts_calls s ++ [c])%list.

(** A reference to a headers map; [None] is nil. *)
Abbreviation ref := (option nat) (only parsing).

Definition deref (s : tstate) (h : ref) : Headers := h ≫= λ l, ts_maps s !! l.

Definition EndSpanFunc : Type := option error → State tstate unit.

Record Tracer := mkTracer {
  StartEnqueueSpan : Ctx → string → State tstate (Ctx * EndSpanFunc);
  StartClaimSpan : Ctx → State tstate (Ctx * EndSpanFunc);
  StartHandlerSpan : Ctx → InboundMessage → State tstate (Ctx * EndSpanFunc);
  InjectHeaders : Ctx → ref → State tstate ref;
}.

Definition nopTracer : Tracer := {|
  StartEnqueueSpan ctx _ := mret (ctx, λ _, mret ());
  StartClaimSpan ctx := mret (ctx, λ _, mret ());
  StartHandlerSpan ctx _ := mret (ctx, λ _, mret ());
  InjectHeaders _ h := mret h;
|}.

Definition defaultedTracer (t : option Tracer) : Tracer := default nopTracer t.

(** *** OpenTelemetry *)

(** The API: the context of the [n]-th started span, the span a context
    carries, what the propagator sets in a carrier and what it makes of one. *)
Record api := mkApi {
  api_Start : nat → Ctx → Ctx;
  api_current : Ctx → option SpanCtx;
  api_Inject : Ctx → list (string * string);
  api_Extract : Ctx → gmap string string → Ctx;
}.

(** The options of [New] replace the global tracer and the global propagator. *)
Definition WithTracer (t : nat → Ctx → Ctx) (o : api) : api :=
  mkApi t (api_current o) (api_Inject o) (api_Extract o).
Definition WithPropagator (inject : Ctx → list (string * string))
    (extract : Ctx → gmap string string → Ctx) (o : api) : api :=
  mkApi (api_Start o) (api_current o) inject extract.
Definition otel_New (globals : api) (opts : list (api → api)) : api :=
  foldl (λ o opt, opt o) globals opts.

Context (otel : api).

Definition t_Start (ctx : Ctx) (name : string) (kind : SpanKind) (attrs : list attribute)
    : State tstate (Ctx * nat) := λ s,
  ((api_Start otel (ts_spans s) ctx, ts_spans s),
   mkTState (ts_maps s) (S (ts_spans s)) (ts_calls s ++ [Start (ts_spans s) ctx name kind attrs])%list).

Definition finisher (span : nat) : EndSpanFunc := λ err s,
  let s := match err with
           | Some e => log_call (SetStatus span (Error e)) (log_call (RecordError span e) s)
           | None => s
           end in
  ((), log_call (End span) s).

(** The carrier the propagator reads and writes: a headers map, a missing key
    reading as the empty string, the keys in no particular order. *)
Definition Get_ (m : gmap string string) (key : string) : string := default ""%string (m !! key).
Definition Set_ (m : gmap string string) (kv : string * string) : gmap string string := <[kv.1 := kv.2]> m.
Definition Keys (m : gmap string string) : list string := (map_to_list m).*1.

Lemma elem_of_Keys m k : k ∈ Keys m ↔ k ∈ dom m.
Proof.
  unfold Keys. rewrite elem_of_dom, list_elem_of_fmap. split.
  - intros ([k' v] & -> & Hkv%elem_of_map_to_list). by exists v.
  - intros [v Hv]. exists (k, v). by rewrite elem_of_map_to_list.
Qed.

Lemma Get_Set_ m kv k : Get_ (Set_ m kv) k = if decide (k = kv.1) then kv.2 else Get_ m k.
Proof.
  unfold Get_, Set_. destruct (decide (k = kv.1)) as [->|Hne]; [by rewrite lookup_insert_eq|].
  by rewrite lookup_insert_ne.
Qed.

Definition otelTracer : Tracer := {|
  StartEnqueueSpan ctx eventType :=
    '(ctx, span) ← t_Start ctx "tickr.enqueue" SpanKindProducer
       [AttrString "messaging.system" "tickr"; AttrString "messaging.operation" "publish";
        AttrString "messaging.destination.name" eventType];
    mret (ctx, finisher span);
  StartClaimSpan ctx :=
    '(ctx, span) ← t_Start ctx "tickr.claim" SpanKindInternal [AttrString "messaging.system" "tickr"];
    mret (ctx, finisher span);
  StartHandlerSpan ctx msg :=
    let parent := api_Extract otel ctx (default ∅ (im_Headers msg)) in
    '(ctx, span) ← t_Start parent "tickr.handler" SpanKindConsumer
       [AttrString "messaging.system" "tickr"; AttrString "messaging.operation" "process";
        AttrString "messaging.destination.name" (im_Type msg);
        AttrString "messaging.message.id" (im_ID msg);
        AttrInt "tickr.attempt" (im_Attempt msg); AttrInt "tickr.max_attempts" (im_MaxAttempts msg)];
    mret (ctx, finisher span);
  InjectHeaders ctx headers := λ s,
    let l := default (fresh (dom (ts_maps s))) headers in
    (Some l, set_map l (foldl Set_ (default ∅ (ts_maps s !! l)) (api_Inject otel ctx)) s);
|}.

(** ** The client's tracing calls *)

Section Client.
Context (tr : Tracer).

(** Around the storage call of Enqueue, whose answer is [store]. *)
Definition traced_enqueue (ctx : Ctx) (eventType : string) (headers : ref)
    (store : Headers → option error) : State tstate (option error) :=
  '(ctx, end_) ← StartEnqueueSpan tr ctx eventType;
  headers ← InjectHeaders tr ctx headers;
  err ← (λ s, (store (deref s headers), s));
  _ ← end_ (if isSome err && negb (IsDuplicate err) then err else None);
  mret err.

(** The loop of EnqueueBatch from item [k] on: the headers of [params], or the
    error of the first message without a type. *)
Fixpoint traced_batch (ctx : Ctx) (k : nat) (msgs : list (string * ref))
    : State tstate (error + list ref) :=
  match msgs with
  | [] => mret (inr [])
  | (eventType, headers) :: msgs =>
    if bool_decide (eventType = "") then
      mret (inl (errorString ("tickr: batch item " ++ pretty k ++ ": Message.Type required")))
    else
      '(ctxIter, end_) ← StartEnqueueSpan tr ctx eventType;
      headers ← InjectHeaders tr ctxIter headers;
      _ ← end_ None;
      rest ← traced_batch ctx (S k) msgs;
      mret (match rest with inl e => inl e | inr hs => inr (headers :: hs) end)
  end.
End Client.

(** ** A span per message, linked across processes *)

(** What OpenTelemetry documents: the context Start returns carries the new
    span, and a carrier that holds what a propagator set for a span yields that
    span; each key is set once. *)
Class OtelOK (ident : nat → SpanCtx) : Prop := {
  start_current : ∀ n c, api_current otel (api_Start otel n c) = Some (ident n);
  inject_once : ∀ c, NoDup (api_Inject otel c).*1;
  extract_injected : ∀ c sc c' m, api_current otel c = Some sc →
    (∀ kv, kv ∈ api_Inject otel c → m !! kv.1 = Some kv.2) →
    api_current otel (api_Extract otel c' m) = Some sc;
}.

Lemma foldl_Set_ kvs m kv :
  NoDup kvs.*1 → kv ∈ kvs → foldl Set_ m kvs !! kv.1 = Some kv.2.
Proof.
  intros Hnd Hin. induction kvs as [|x kvs IH] using rev_ind; [by apply elem_of_nil in Hin|].
  rewrite foldl_app. simpl. unfold Set_ at 1. rewrite fmap_app in Hnd.
  apply NoDup_app in Hnd as (Hnd & Hni & _). apply elem_of_app in Hin as [Hin| ->%list_elem_of_singleton].
  - rewrite lookup_insert_ne; [by apply IH|]. intros E. apply (Hni kv.1); [by apply list_elem_of_fmap_2|].
    rewrite <- E. by left.
  - apply lookup_insert_eq.
Qed.

(** A map that holds what the propagator sets for a context. *)
Definition holds (c : Ctx) (m : gmap string string) : Prop :=
  ∀ kv, kv ∈ api_Inject otel c → m !! kv.1 = Some kv.2.

(** The last message from [i] on that passed the same map as message [i]. *)
Definition last_sharer (msgs : list (string * ref)) (i j : nat) : Prop :=
  ∃ et h, msgs !! i = Some (et, h) ∧ (i <= j)%nat ∧
    (j = i ∨ h ≠ None ∧ msgs.*2 !! j = Some h) ∧
    (h ≠ None → ∀ k, (j < k)%nat → msgs.*2 !! k ≠ Some h).

(** The references point into the store. *)
Definition refs_ok (s : tstate) (msgs : list (string * ref)) : Prop :=
  ∀ l, Some l ∈ msgs.*2 → l ∈ dom (ts_maps s).

(** One iteration of the loop: the state after it, and the map it wrote. *)
Definition batch_step (ctx : Ctx) (eventType : string) (h : ref) (s : tstate) : nat * tstate :=
  let l := default (fresh (dom (ts_maps s))) h in
  let c := api_Start otel (ts_spans s) ctx in
  (l, mkTState (<[l := foldl Set_ (default ∅ (ts_maps s !! l)) (api_Inject otel c)]> (ts_maps s))
        (S (ts_spans s))
        (ts_calls s ++ [Start (ts_spans s) ctx "tickr.enqueue" SpanKindProducer
           [AttrString "messaging.system" "tickr"; AttrString "messaging.operation" "publish";
            AttrString "messaging.destination.name" eventType]; End (ts_spans s)])%list).

(** One message of a batch that is accepted. *)
Lemma traced_batch_cons ctx k et h msgs s hs s' :
  traced_batch otelTracer ctx k ((et, h) :: msgs) s = (inr hs, s') →
  ∃ hs1, hs = Some (batch_step ctx et h s).1 :: hs1 ∧
    traced_batch otelTracer ctx (S k) msgs (batch_step ctx et h s).2 = (inr hs1, s').
Proof.
  cbn [traced_batch]. case_bool_decide; [done|].
  unfold batch_step, otelTracer. cbv [mbind State_bind mret State_ret t_Start finisher log_call set_map].
  cbn. rewrite <- app_assoc. cbn. destruct (traced_batch _ _ _ _ _) as [[e|hs1] s2]; [done|].
  intros [= <- <-]. by exists hs1.
Qed.

Lemma last_sharer_cons x msgs i j : last_sharer msgs i j → last_sharer (x :: msgs) (S i) (S j).
Proof.
  intros (et & h & Hi & Hle & Hj & Hk). exists et, h. split_and!; [done|lia| |].
  - destruct Hj as [->|Hj]; [by left|by right].
  - intros Hh [|k] Hlt; [lia|]. apply Hk; [done|lia].
Qed.

(** The first message, shared by a later one or not. *)
Lemma last_sharer_first_later et l msgs i j :
  last_sharer msgs i j → msgs.*2 !! i = Some (Some l) → last_sharer ((et, Some l) :: msgs) 0 (S j).
Proof.
  intros (et' & h & Hi & Hle & Hj & Hk) Hl. rewrite list_lookup_fmap, Hi in Hl. injection Hl as ->.
  exists et, (Some l). split_and!; [done|lia| |].
  - right. split; [done|]. simpl. destruct Hj as [->|[_ Hj]]; [by rewrite list_lookup_fmap, Hi|done].
  - intros Hh [|k] Hlt; [lia|]. apply Hk; [done|lia].
Qed.

Lemma last_sharer_first et h msgs : (h ≠ None → h ∉ msgs.*2) → last_sharer ((et, h) :: msgs) 0 0.
Proof.
  intros Hn. exists et, h. split_and!; [done|lia|by left|].
  intros Hh [|k] Hlt E; [lia|]. apply (Hn Hh), list_elem_of_lookup. by exists k.
Qed.

Section Laws.
Context (ident : nat → SpanCtx) `{!OtelOK ident}.

(** Where the iteration writes: another message's map only if it is shared. *)
Lemma batch_step_target ctx et h s l s1 msgs :
  batch_step ctx et h s = (l, s1) → refs_ok s ((et, h) :: msgs) →
  (h = None ∨ h = Some l) ∧ refs_ok s1 msgs ∧ (∃ m, ts_maps s1 !! l = Some m ∧
     holds (api_Start otel (ts_spans s) ctx) m) ∧ ts_spans s1 = S (ts_spans s) ∧
  (∀ l', Some l' ∈ msgs.*2 → l' = l → h = Some l) ∧
  (∀ l' m, Some l' ≠ h → ts_maps s !! l' = Some m → ts_maps s1 !! l' = Some m).
Proof using All.
  intros [= <- <-] Hr. set (l := default _ h). cbn [ts_maps ts_spans].
  assert (∀ l', l' ∈ dom (ts_maps s) → l' = l → h = Some l) as Hd.
  { intros l' Hin ->. subst l. destruct h as [l|]; [done|]. simpl in Hin. by apply is_fresh in Hin. }
  split_and!.
  - subst l. destruct h; auto.
  - intros l' Hl'. cbn [ts_maps]. rewrite dom_insert. apply elem_of_union_r, Hr, elem_of_cons. by right.
  - eexists. split; [apply lookup_insert_eq|]. intros kv Hkv. apply foldl_Set_; [apply (inject_once (ident := ident))|done].
  - done.
  - intros l' Hl'. apply Hd, Hr, elem_of_cons. by right.
  - intros l' m Hne Hm. rewrite lookup_insert_ne; [done|]. intros E. apply Hne.
    rewrite <- E. symmetry. apply (Hd l'); [by apply elem_of_dom_2 in Hm|done].
Qed.

(** The store after the loop: other maps are as they were, and the map of
    message [i] holds the context of its last sharer. *)
Lemma traced_batch_maps ctx k msgs s hs s' :
  traced_batch otelTracer ctx k msgs s = (inr hs, s') → refs_ok s msgs →
  (∀ l m, Some l ∉ msgs.*2 → ts_maps s !! l = Some m → ts_maps s' !! l = Some m) ∧
  ∀ i et h, msgs !! i = Some (et, h) → ∃ l m j, hs !! i = Some (Some l) ∧ (h = None ∨ h = Some l) ∧
    last_sharer msgs i j ∧ ts_maps s' !! l = Some m ∧ holds (api_Start otel (ts_spans s + j) ctx) m.
Proof using All.
  revert k s hs. induction msgs as [|[et h] msgs IH]; intros k s hs.
  { intros [= <- <-] _. split; [done|]. by intros i et h E. }
  intros (hs1 & -> & Et)%traced_batch_cons Hr.
  destruct (batch_step ctx et h s) as [l s1] eqn:Es. cbn [fst snd] in *.
  destruct (batch_step_target _ _ _ _ _ _ _ Es Hr) as (Hh & Hr1 & (m1 & Hm1 & Hm1') & Hsp & Hl & Hfr).
  destruct (IH (S k) s1 hs1 Et Hr1) as [Hframe Htail]. rewrite Hsp in Htail. split.
  - intros l' m Hni Hm. apply Hframe; [by intros ?; apply Hni; right|].
    apply Hfr; [|done]. intros E. apply Hni. rewrite E. by left.
  - intros [|i] et' h' Hi.
    + injection Hi as <- <-. destruct (decide (Some l ∈ msgs.*2)) as [Hin|Hin].
      * rewrite (Hl l Hin eq_refl) in *. apply list_elem_of_lookup in Hin as [i Hi].
        rewrite list_lookup_fmap in Hi. destruct (msgs !! i) as [[et' h']|] eqn:Ei; [|done].
        injection Hi as ->. destruct (Htail i et' (Some l) Ei) as (l' & m & j & _ & [|[= <-]] & Hj & Hm & Hc);
          [done|]. exists l, m, (S j). split_and!; auto.
        -- eapply last_sharer_first_later; [done|]. by rewrite list_lookup_fmap, Ei.
        -- by rewrite Nat.add_succ_r.
      * exists l, m1, 0%nat. rewrite Nat.add_0_r. split_and!; auto.
        apply last_sharer_first. by destruct Hh as [->| ->].
    + destruct (Htail i et' h' Hi) as (l' & m & j & Hi' & Hh' & Hj & Hm & Hc).
      exists l', m, (S j). rewrite Nat.add_succ_r. split_and!; auto using last_sharer_cons.
Qed.
End Laws.

(** *** Calls *)

Definition enqueue_start (n : nat) (ctx : Ctx) (eventType : string) : otel_call :=
  Start n ctx "tickr.enqueue" SpanKindProducer
    [AttrString "messaging.system" "tickr"; AttrString "messaging.operation" "publish";
     AttrString "messaging.destination.name" eventType].

(** A span per message, each ended before the next one starts. *)
Fixpoint batch_calls (n : nat) (ctx : Ctx) (msgs : list (string * ref)) : list otel_call :=
  match msgs with
  | [] => []
  | (et, _) :: msgs => enqueue_start n ctx et :: End n :: batch_calls (S n) ctx msgs
  end.

Lemma traced_batch_calls ctx k msgs s hs s' :
  traced_batch otelTracer ctx k msgs s = (inr hs, s') →
  ts_calls s' = (ts_calls s ++ batch_calls (ts_spans s) ctx msgs)%list.
Proof.
  revert k s hs. induction msgs as [|[et h] msgs IH]; intros k s hs.
  { intros [= _ <-]. by rewrite app_nil_r. }
  intros (hs1 & _ & Et)%traced_batch_cons. rewrite (IH _ _ _ Et). simpl. by rewrite <- app_assoc.
Qed.

(** Enqueue ends its span once, with the error unless that is a duplicate, and
    stores headers that hold the span's context. *)
Lemma traced_enqueue_calls ctx et h store s :
  let c := api_Start otel (ts_spans s) ctx in
  let hdrs := foldl Set_ (default ∅ (deref s h)) (api_Inject otel c) in
  let '(err, s') := traced_enqueue otelTracer ctx et h store s in
  err = store (Some hdrs) ∧
  ts_calls s' = (ts_calls s ++ enqueue_start (ts_spans s) ctx et ::
    (if isSome err && negb (IsDuplicate err) then
       match err with Some e => [RecordError (ts_spans s) e; SetStatus (ts_spans s) (Error e)] | None => [] end
     else []) ++ [End (ts_spans s)])%list.
Proof.
  intros c hdrs. unfold traced_enqueue.
  cbv [mbind State_bind mret State_ret otelTracer StartEnqueueSpan InjectHeaders t_Start set_map]. cbn.
  rewrite lookup_insert_eq.
  assert (default ∅ (ts_maps s !! default (fresh (dom (ts_maps s))) h) = default ∅ (deref s h)) as ->.
  { destruct h as [l|]; [done|]. simpl. rewrite (proj1 (not_elem_of_dom _ _)); [done|apply is_fresh]. }
  change (foldl Set_ _ _) with hdrs. split; [done|].
  destruct (store (Some hdrs)) as [e|]; cbn; [destruct (IsDuplicate (Some e)); cbn|]; by rewrite <- ?app_assoc.
Qed.

(** What the consumer reads back from the headers column. *)
Lemma carrier_roundtrip h : default ∅ (decodeHeaders (encodeHeaders h)) = default ∅ h.
Proof.
  unfold decodeHeaders, encodeHeaders. case_bool_decide as E; [by rewrite E|]. done.
Qed.

(** C37: Whose trace a consumer joins.  EnqueueBatch starts one span per message
    and ends each; the handler span of the message that a worker later claims is
    a child of the enqueue span of the LAST message of the batch that was given
    the same headers map: its own span when no map is shared, another message's
    span when one is. *)
Theorem batch_handler_joins_last_sharer ident ctx msgs s hs s' i et h l msg cctx s2 :
  OtelOK ident → refs_ok s msgs → traced_batch otelTracer ctx 0 msgs s = (inr hs, s') →
  msgs !! i = Some (et, h) → hs !! i = Some l →
  im_Headers msg = decodeHeaders (encodeHeaders (deref s' l)) →
  ts_calls s' = (ts_calls s ++ batch_calls (ts_spans s) ctx msgs)%list ∧
  ∃ j parent attrs, last_sharer msgs i j ∧
    ts_calls (StartHandlerSpan otelTracer cctx msg s2).2 =
      (ts_calls s2 ++ [Start (ts_spans s2) parent "tickr.handler" SpanKindConsumer attrs])%list ∧
    api_current otel parent = Some (ident (ts_spans s + j)%nat).
Proof.
  intros Hok Hr Et Hi Hl Hm. split; [by eapply traced_batch_calls|].
  destruct (proj2 (traced_batch_maps ident ctx 0 msgs s hs s' Et Hr) i et h Hi)
    as (l' & m & j & Hl' & _ & Hj & Hm' & Hc).
  rewrite Hl in Hl'. injection Hl' as ->. simpl in Hm. rewrite Hm' in Hm.
  do 3 eexists. split; [exact Hj|]. split; [reflexivity|].
  rewrite Hm, carrier_roundtrip. eapply extract_injected; [apply start_current|exact Hc].
Qed.
End Tracing.

(** An API whose contexts are the number of the span they carry, sent in unary. *)
Fixpoint unary (n : nat) : string := match n with O => "" | S n => "1" ++ unary n end.

Definition demo_otel : api (Ctx := option nat) (SpanCtx := nat) := {|
  api_Start n _ := Some n;
  api_current c := c;
  api_Inject c := match c with Some n => [("traceparent", unary n)] | None => [] end;
  api_Extract c m := match m !! "traceparent" with Some t => Some (String.length t) | None => c end;
|}.

Lemma unary_length n : String.length (unary n) = n.
Proof. induction n as [|n IH]; [done|]. change (S (String.length (unary n)) = S n). by rewrite IH. Qed.

#[export] Instance demo_otel_ok : OtelOK demo_otel (λ n, n).
Proof.
  split.
  - done.
  - intros [n|]; simpl; repeat constructor. apply not_elem_of_nil.
  - intros c sc c' m [= ->] Hm. specialize (Hm ("traceparent", unary sc) ltac:(left)).
    simpl in *. rewrite Hm. by rewrite unary_length.
Defined.

(** Two messages with one headers map, and one with none: the first message's
    handler span becomes a child of the second message's enqueue span. *)
Definition demo_batch : list (string * option nat) := [("a", Some 0%nat); ("b", Some 0%nat); ("c", None)].
Definition demo_tstate : tstate (Ctx := option nat) := mkTState {[0%nat := {["k" := "v"]}]} 5 [].
Definition demo_traced := traced_batch (otelTracer demo_otel) None 0 demo_batch demo_tstate.
Definition demo_delivered : InboundMessage :=
  mkInbound "id-1" "a" "" (decodeHeaders (encodeHeaders (deref demo_traced.2 (Some 0%nat)))) "" 1 3 0 0 "" None.

Lemma batch_handler_joins_last_sharer_witness :
  ∃ j parent attrs, last_sharer demo_batch 0 j ∧
    ts_calls (StartHandlerSpan (otelTracer demo_otel) None demo_delivered demo_tstate).2 =
      [Start 5 parent "tickr.handler" SpanKindConsumer attrs] ∧
    api_current demo_otel parent = Some (5 + j)%nat ∧ j = 1%nat.
Proof.
  destruct (batch_handler_joins_last_sharer demo_otel (λ n, n) None demo_batch demo_tstate
    [Some 0%nat; Some 0%nat; Some 1%nat] demo_traced.2 0 "a" (Some 0%nat) (Some 0%nat) demo_delivered None demo_tstate)
    as (_ & j & parent & attrs & Hj & Hc & Hp).
  - apply demo_otel_ok.
  - intros l Hl. apply list_elem_of_lookup in Hl as [[|[|[|i]]] E]; simpl in E; try done;
      injection E as <-; vm_compute; by eexists.
  - vm_compute. reflexivity.
  - reflexivity.
  - vm_compute. reflexivity.
  - reflexivity.
  - exists j, parent, attrs. split_and!; [exact Hj|exact Hc|exact Hp|].
    vm_compute in Hc. injection Hc as E _. subst parent. vm_compute in Hp. injection Hp as E. lia.
Defined.
