(* ===== verification/GoFlag.v ===== *)
(** * Command-line flags: what tickrctl uses of Go's [flag], [strconv] and [time]
      packages

    [FlagSet.Parse] with flag.ContinueOnError, and the texts that the kinds of
    flags accept.  What the package prints on a failure is left out. *)

From S2P Require Import Prelude GoErrors GoStrings GoFloat.
From Stdlib Require Import Ascii.

#[local] Open Scope string_scope.

(** ** strconv *)

Definition ErrSyntax : error := sentinel "invalid syntax".
Definition ErrRange : error := sentinel "value out of range".

Definition code (c : ascii) : Z := Z.of_N (N_of_ascii c).

(** The byte in lower case, as [lower] of package strconv: [c | 0x20]. *)
Definition to_lower (c : ascii) : ascii := ascii_of_N (N.lor (N_of_ascii c) 32).

(** The value of a digit or letter. *)
Definition digit_value (c : ascii) : option Z :=
  if ((48 <=? code c) && (code c <=? 57))%Z then Some (code c - 48)%Z
  else let l := code (to_lower c) in
       if ((97 <=? l) && (l <=? 122))%Z then Some (l - 97 + 10)%Z else None.

Definition max_uint64 : Z := 2 ^ 64 - 1.

(** The digits of [ParseUint], base prefix apart; underscores are skipped when
    the base was found in the text. *)
Fixpoint uint_digits (base0 : bool) (base : Z) (s : string) (n : Z) (underscores : bool)
    : error + (Z * bool) :=
  match s with
  | EmptyString => inr (n, underscores)
  | String c s =>
    if ascii_dec c "_" then
      if base0 then uint_digits base0 base s n true else inl ErrSyntax
    else
      match digit_value c with
      | Some d =>
        if (base <=? d)%Z then inl ErrSyntax
        else if (max_uint64 <? n * base + d)%Z then inl ErrRange
        else uint_digits base0 base s (n * base + d)%Z underscores
      | None => inl ErrSyntax
      end
  end.

(** [underscoreOK]: underscores only between digits, or after the prefix. *)
Inductive saw := SawStart | SawDigit | SawUnderscore | SawOther.

Fixpoint underscore_scan (hex : bool) (s : string) (last : saw) : bool :=
  match s with
  | EmptyString => match last with SawUnderscore => false | _ => true end
  | String c s =>
    let l := code (to_lower c) in
    if ((48 <=? code c) && (code c <=? 57) || (hex && (97 <=? l) && (l <=? 102)))%Z
    then underscore_scan hex s SawDigit
    else if ascii_dec c "_" then
      match last with SawDigit => underscore_scan hex s SawUnderscore | _ => false end
    else match last with SawUnderscore => false | _ => underscore_scan hex s SawOther end
  end.

Definition base_of (c : ascii) : option Z :=
  let l := to_lower c in
  if ascii_dec l "b" then Some 2%Z else if ascii_dec l "o" then Some 8%Z
  else if ascii_dec l "x" then Some 16%Z else None.

Definition underscoreOK (s : string) : bool :=
  match s with
  | String "0" (String c r) =>
    match base_of c with
    | Some b => underscore_scan (b =? 16)%Z r SawDigit
    | None => underscore_scan false s SawStart
    end
  | _ => underscore_scan false s SawStart
  end.

(** [ParseUint(s, 0, 64)] *)
Definition ParseUint0 (s : string) : error + Z :=
  let '(base, body) :=
    match s with
    | String "0" r =>
      match r with
      | String c (String _ _ as r') =>
        match base_of c with Some b => (b, r') | None => (8%Z, r) end
      | _ => (8%Z, r)
      end
    | _ => (10%Z, s)
    end in
  match s with
  | EmptyString => inl ErrSyntax
  | _ =>
    match uint_digits true base body 0 false with
    | inl e => inl e
    | inr (n, us) => if us && negb (underscoreOK s) then inl ErrSyntax else inr n
    end
  end.

(** [ParseInt(s, 0, 64)] *)
Definition ParseInt0 (s : string) : error + Z :=
  let '(neg, body) :=
    match s with
    | String "+" r => (false, r)
    | String "-" r => (true, r)
    | _ => (false, s)
    end in
  match ParseUint0 body with
  | inl e => inl e
  | inr n =>
    if neg then if (2 ^ 63 <? n)%Z then inl ErrRange else inr (- n)%Z
    else if (2 ^ 63 <=? n)%Z then inl ErrRange else inr n
  end.

Definition ParseBool (s : string) : option bool :=
  if bool_decide (s ∈ ["1"; "t"; "T"; "true"; "TRUE"; "True"]) then Some true
  else if bool_decide (s ∈ ["0"; "f"; "F"; "false"; "FALSE"; "False"]) then Some false
  else None.

(** ** time.ParseDuration *)

Definition is_digit (c : ascii) : bool := ((48 <=? code c) && (code c <=? 57))%Z.

(** [leadingInt]: [None] is an overflow. *)
Fixpoint leadingInt (s : string) (x : Z) : option (Z * string) :=
  match s with
  | String c r =>
    if is_digit c then
      if (2 ^ 63 / 10 <? x)%Z then None
      else let x := (x * 10 + (code c - 48))%Z in
           if (2 ^ 63 <? x)%Z then None else leadingInt r x
    else Some (x, s)
  | EmptyString => Some (x, s)
  end.

(** [leadingFraction]: the digits that fit, and their scale. *)
Fixpoint leadingFraction (s : string) (x : Z) (scale : float64) (overflow : bool) : Z * float64 * string :=
  match s with
  | String c r =>
    if is_digit c then
      let y := (x * 10 + (code c - 48))%Z in
      if overflow || ((2 ^ 63 - 1) / 10 <? x)%Z || (2 ^ 63 <? y)%Z then leadingFraction r x scale true
      else leadingFraction r y (f64_mul scale (f64_of_int 10)) false
    else (x, scale, s)
  | EmptyString => (x, scale, s)
  end.

(** The unit: everything up to the next digit or period. *)
Fixpoint leadingUnit (s : string) : string * string :=
  match s with
  | String c r =>
    if is_digit c || bool_decide (c = "."%char) then ("", s) else let '(u, r') := leadingUnit r in (String c u, r')
  | EmptyString => ("", "")
  end.

(** The micro sign and the Greek letter mu, in UTF-8. *)
Definition micro : string := String (ascii_of_nat 194) (String (ascii_of_nat 181) "s").
Definition mu : string := String (ascii_of_nat 206) (String (ascii_of_nat 188) "s").

Definition unitMap (u : string) : option Z :=
  if bool_decide (u = "ns") then Some 1%Z
  else if bool_decide (u ∈ ["us"; micro; mu]) then Some Microsecond
  else if bool_decide (u = "ms") then Some Millisecond
  else if bool_decide (u = "s") then Some Second
  else if bool_decide (u = "m") then Some Minute
  else if bool_decide (u = "h") then Some Hour else None.

(** One number with its unit. *)
Definition duration_part (s : string) : option (Z * string) :=
  match s with
  | String c _ =>
    if is_digit c || bool_decide (c = "."%char) then
      '(v, s1) ← leadingInt s 0;
      let pre := negb (bool_decide (s1 = s)) in
      let '(f, scale, s2, post) :=
        match s1 with
        | String "." r =>
          let '(f, scale, r') := leadingFraction r 0 f64_1 false in (f, scale, r', negb (bool_decide (r' = r)))
        | _ => (0%Z, f64_1, s1, false)
        end in
      if negb pre && negb post then None
      else
        let '(u, s3) := leadingUnit s2 in
        unit_ ← (if bool_decide (u = "") then None else unitMap u);
        if (2 ^ 63 / unit_ <? v)%Z then None
        else
          let v := (v * unit_)%Z in
          let v := if (0 <? f)%Z
                   then (v + default 0%Z (f64_trunc (f64_mul (f64_of_int f) (f64_div (f64_of_int unit_) scale))))%Z
                   else v in
          if (2 ^ 63 <? v)%Z then None else Some (v, s3)
    else None
  | EmptyString => None
  end.

(** Each part consumes a byte, so the length of the text is enough fuel. *)
Fixpoint duration_parts (fuel : nat) (s : string) (d : Z) : option Z :=
  match s with
  | EmptyString => Some d
  | _ =>
    match fuel with
    | O => None
    | S fuel =>
      '(v, r) ← duration_part s;
      if (2 ^ 63 <? d + v)%Z then None else duration_parts fuel r (d + v)%Z
    end
  end.

Definition ParseDuration (s : string) : option Duration :=
  let '(neg, body) :=
    match s with
    | String "+" r => (false, r)
    | String "-" r => (true, r)
    | _ => (false, s)
    end in
  if bool_decide (body = "0") then Some 0%Z
  else if bool_decide (body = "") then None
  else
    d ← duration_parts (String.length body) body 0;
    if neg then Some (- d)%Z else if (2 ^ 63 - 1 <? d)%Z then None else Some d.

Example ParseDuration_5m : ParseDuration "5m" = Some (5 * Minute)%Z.
Proof. vm_compute. reflexivity. Qed.
Example ParseDuration_mixed : ParseDuration "-1h2.5s" = Some (- (Hour + 2 * Second + 500 * Millisecond))%Z.
Proof. vm_compute. reflexivity. Qed.
Example ParseDuration_half : ParseDuration ".5" = None.
Proof. vm_compute. reflexivity. Qed.

(** ** flag *)

Inductive flag_value :=
| VBool (b : bool)
| VInt (n : Z)
| VString (s : string)
| VDuration (d : Duration).

Definition errParse : error := errorString "parse error".
Definition errRange : error := errorString "value out of range".
Definition ErrHelp : error := errorString "flag: help requested".

(** [Set] of each kind of value. *)
Definition set_value (old : flag_value) (s : string) : error + flag_value :=
  match old with
  | VBool _ => match ParseBool s with Some b => inr (VBool b) | None => inl errParse end
  | VInt _ =>
    match ParseInt0 s with
    | inr n => inr (VInt n)
    | inl e => inl (if bool_decide (Error e = Error ErrRange) then errRange else errParse)
    end
  | VString _ => inr (VString s)
  | VDuration _ => match ParseDuration s with Some d => inr (VDuration d) | None => inl errParse end
  end.

Abbreviation FlagSet := (gmap string flag_value) (only parsing).

(** The first '=' that is not the first byte. *)
Fixpoint cut_value (s : string) : string * option string :=
  match s with
  | EmptyString => ("", None)
  | String c r =>
    if ascii_dec c "=" then ("", Some r) else let '(n, v) := cut_value r in (String c n, v)
  end.

(** A flag with the arguments after it: the flags and arguments left. *)
Definition parse_flag (fs : FlagSet) (name : string) (value : option string) (args : list string)
    : error + (gmap string flag_value * list string) :=
  match fs !! name with
  | None =>
    if bool_decide (name ∈ ["help"; "h"]) then inl ErrHelp
    else inl (errorString ("flag provided but not defined: -" ++ name))
  | Some (VBool _ as old) =>
    match set_value old (default "true" value) with
    | inr v => inr (<[name := v]> fs, args)
    | inl e => inl (errorString ("invalid boolean value " ++ GoFmt.Quote (default "true" value) ++
                 " for -" ++ name ++ ": " ++ Error e))
    end
  | Some old =>
    let taken :=
      match value, args with
      | Some v, _ => Some (v, args)
      | None, a :: args => Some (a, args)
      | None, [] => None
      end in
    match taken with
    | None => inl (errorString ("flag needs an argument: -" ++ name))
    | Some (text, args) =>
      match set_value old text with
      | inr v => inr (<[name := v]> fs, args)
      | inl e => inl (errorString ("invalid value " ++ GoFmt.Quote text ++ " for flag -" ++ name ++
                   ": " ++ Error e))
      end
    end
  end.

(** The name of a flag argument without its minus signs; [None]: not a flag. *)
Definition flag_name (s : string) : option string :=
  match s with
  | String "-" (String "-" r) => Some r
  | String "-" (String c r) => Some (String c r)
  | _ => None
  end.

(** [FlagSet.Parse]: flags up to the first argument that is none, or "--". *)
Fixpoint Parse (fuel : nat) (fs : FlagSet) (args : list string)
    : error + (gmap string flag_value * list string) :=
  match fuel, args with
  | _, [] => inr (fs, [])
  | O, _ => inr (fs, args)
  | S fuel, s :: rest =>
    match flag_name s with
    | None => inr (fs, args)
    | Some name =>
      match name with
      | EmptyString => inr (fs, rest)
      | String c tl =>
        if bool_decide (c = "-"%char) || bool_decide (c = "="%char)
        then inl (errorString ("bad flag syntax: " ++ s))
        else
          let '(n, value) := cut_value tl in
          match parse_flag fs (String c n) value rest with
          | inl e => inl e
          | inr (fs, args) => Parse fuel fs args
          end
      end
    end
  end.

(** Every flag takes an argument away. *)
Definition parse_flags (fs : FlagSet) (args : list string) : error + (gmap string flag_value * list string) :=
  Parse (length args) fs args.

Definition int_flag (fs : FlagSet) (name : string) : Z :=
  match fs !! name with Some (VInt n) => n | _ => 0%Z end.
Definition string_flag (fs : FlagSet) (name : string) : string :=
  match fs !! name with Some (VString s) => s | _ => "" end.
Definition bool_flag (fs : FlagSet) (name : string) : bool :=
  match fs !! name with Some (VBool b) => b | _ => false end.
Definition duration_flag (fs : FlagSet) (name : string) : Duration :=
  match fs !! name with Some (VDuration d) => d | _ => 0%Z end.
