(* ===== verification/Ctl.v ===== *)
(** * tickrctl (cmd/tickrctl/main.go, commands.go)

    The command line, the dispatch of the subcommands, and each command as a
    program over the PostgreSQL adapter.  What a command writes to standard
    output is a list of lines, tables (rows of cells, before tabwriter aligns
    them) and values handed to the JSON encoder; standard error is left out. *)

From S2P Require Import Prelude GoErrors GoStrings GoFlag Message World Postgres Migrations Calendar Partitions.

#[local] Open Scope string_scope.

Inductive output :=
| Line (s : string)
| Table (rows : list (list string))
| JsonStats (s : Stats)
| JsonMessages (ms : list InboundMessage).

Abbreviation result := (list output * option error)%type (only parsing).

(** [truncate]: the ellipsis is three bytes. *)
Definition ellipsis : string :=
  String (Ascii.ascii_of_nat 226) (String (Ascii.ascii_of_nat 128) (String (Ascii.ascii_of_nat 166) "")).

Definition truncate (s : string) (n : nat) : string :=
  if (String.length s <=? n)%nat then s else String.substring 0 n s ++ ellipsis.

(** A status read from a row: "" is Go's zero value. *)
Definition status_cell (o : option Status) : string :=
  match o with Some s => status_text s | None => "" end.

Section Commands.
Context (env : Env).

(** The error of writing to standard output, if any, and [time.Parse]'s error
    on a text. *)
Context (stdout : option error) (parse_error : string → error).

(** ** stats *)

(** The rows in the order in which Go ranges over the two maps. *)
Definition stats_rows (order : Stats → list (string * Status * Z)) (s : Stats) : list (list string) :=
  (λ x : string * Status * Z, [x.1.1; status_text x.1.2; pretty (x.2 : Z)]) <$> order s.

Definition cmdStats (order : Stats → list (string * Status * Z)) (args : list string) : M result :=
  match parse_flags {["json" := VBool false]} args with
  | inl e => mret ([], Some e)
  | inr (fs, _) =>
    '(stats, err) ← GetStats env;
    match err with
    | Some e => mret ([], Some e)
    | None =>
      if bool_flag fs "json" then mret ([JsonStats stats], stdout)
      else mret ([Table (["EVENT_TYPE"; "STATUS"; "DEPTH"] :: stats_rows order stats)], stdout)
    end
  end.

(** ** dlq *)

Definition dead_row_cells (m : InboundMessage) : list string :=
  [im_ID m; im_Type m; pretty (im_Attempt m : Z); format_RFC3339 (im_EnqueuedAt m);
   truncate (im_LastError m) 80].

Definition cmdDLQList (args : list string) : M result :=
  match parse_flags (<["type" := VString ""]> (<["limit" := VInt 50]> (<["since" := VString ""]>
          {["json" := VBool false]}))) args with
  | inl e => mret ([], Some e)
  | inr (fs, _) =>
    after ← (if bool_decide (string_flag fs "since" = "") then
               now ← time_Now env; mret (inr (now - 24 * Hour)%Z)
             else match time_Parse layout_RFC3339 (string_flag fs "since") with
                  | Some t => mret (inr t)
                  | None => mret (inl (Errorf_w "invalid --since" (parse_error (string_flag fs "since"))))
                  end);
    match after with
    | inl e => mret ([], Some e)
    | inr after =>
      '(msgs, err) ← ListDead env (string_flag fs "type") after (int_flag fs "limit");
      match err with
      | Some e => mret ([], Some e)
      | None =>
        if bool_flag fs "json" then mret ([JsonMessages msgs], stdout)
        else mret ([Table (["ID"; "EVENT_TYPE"; "ATTEMPT"; "ENQUEUED_AT"; "LAST_ERROR"] ::
                      (dead_row_cells <$> msgs))], stdout)
      end
    end
  end.

Definition cmdDLQRequeue (args : list string) : M result :=
  match args with
  | [] => mret ([], Some (errorString "dlq requeue: missing message id"))
  | id :: _ =>
    now ← time_Now env;
    err ← Requeue env id now;
    match err with
    | Some e => mret ([], Some e)
    | None => mret ([Line ("requeued " ++ id)], None)
    end
  end.

Definition cmdDLQ (args : list string) : M result :=
  match args with
  | [] => mret ([], Some (errorString "dlq: missing action (list|requeue)"))
  | a :: args =>
    if bool_decide (a = "list") then cmdDLQList args
    else if bool_decide (a = "requeue") then cmdDLQRequeue args
    else mret ([], Some (errorString ("dlq: unknown action " ++ GoFmt.Quote a)))
  end.

(** ** history *)

Definition transition_cells (t : Transition) : list string :=
  [pretty (tr_Seq t : Z); status_cell (tr_From t); status_text (tr_To t);
   pretty (tr_Attempt t : Z); format_RFC3339 (tr_At t); tr_WorkerID t; truncate (tr_Error t) 80].

Definition cmdHistory (args : list string) : M result :=
  match args with
  | [] => mret ([], Some (errorString "history: missing message id"))
  | id :: _ =>
    '(hist, err) ← History env id;
    match err with
    | Some e => mret ([], Some e)
    | None => mret ([Table (["SEQ"; "FROM"; "TO"; "ATTEMPT"; "AT"; "WORKER"; "ERROR"] ::
                       (transition_cells <$> hist))], stdout)
    end
  end.

(** ** drain *)

(** The statuses that count as pending. *)
Definition is_pending (s : Status) : bool :=
  bool_decide (s ∈ [StatusCreated; StatusRetrying; StatusHandling; StatusFailed]).

Definition pending (s : Stats) : Z :=
  zsum (λ kv : string * gmap Status Z,
    zsum (λ sn : Status * Z, if is_pending sn.1 then sn.2 else 0%Z) (map_to_list kv.2))
    (map_to_list (ByEventType s)).

(** Wait for the poll interval: meanwhile the workers do their work on the
    database, [others k] in round [k].  How much time passes is the clock's
    business: the duration of --poll is not an input of the model, the theorem
    on drain assumes that the clock advances by some positive amount per
    round. *)
Definition poll_wait (others : nat → DB → DB) (k : nat) : M unit :=
  atomically (λ w, ((), set_db (others k (w_db w)) w)).

(** The loop from round [k] on; [interrupted k]: the context is done at the
    wait of that round.  [None]: out of fuel. *)
Fixpoint drain_loop (fuel k : nat) (others : nat → DB → DB) (interrupted : nat → bool)
    (deadline : Time) (out : list output) : M (option result) :=
  match fuel with
  | O => mret None
  | S fuel =>
    '(stats, err) ← GetStats env;
    match err with
    | Some e => mret (Some (out, Some e))
    | None =>
      if (pending stats =? 0)%Z then mret (Some ((out ++ [Line "drained"])%list, None))
      else
        now ← time_Now env;
        if (deadline <? now)%Z then
          mret (Some (out, Some (errorString ("drain timeout: " ++ pretty (pending stats) ++
                  " messages still pending"))))
        else
          let out := (out ++ [Line ("waiting: " ++ pretty (pending stats) ++ " pending")])%list in
          if interrupted k then mret (Some (out, Some context_Canceled))
          else _ ← poll_wait others k; drain_loop fuel (S k) others interrupted deadline out
    end
  end.

Definition drain_flags : gmap string flag_value :=
  <["wait" := VDuration (5 * Minute)]> {["poll" := VDuration (2 * Second)]}.

Definition cmdDrain (fuel : nat) (others : nat → DB → DB) (interrupted : nat → bool)
    (args : list string) : M (option result) :=
  match parse_flags drain_flags args with
  | inl e => mret (Some ([], Some e))
  | inr (fs, _) =>
    now ← time_Now env;
    drain_loop fuel 0 others interrupted (now + duration_flag fs "wait")%Z []
  end.
End Commands.

(** ** migrate, ensure-partitions *)

Definition cmdMigrate {T : Type} (ddl : string → T → error + T) (menv : MigEnv)
    (migrationsFS partitionedMigrationsFS : Embed) (store : Store) (s : MigState (S:=T))
    : result * MigState (S:=T) :=
  let '(fs, dir) := migrationSource store migrationsFS partitionedMigrationsFS in
  let '(err, s) := ApplyMigrations ddl menv fs dir s in
  (match err with Some e => ([], Some e) | None => ([Line "migrations applied"], None) end, s).

Definition cmdEnsurePartitions (penv : PartEnv) (store : Store) (args : list string) (s : PartState)
    : result * PartState :=
  match parse_flags {["ahead" := VInt 3]} args with
  | inl e => (([], Some e), s)
  | inr (fs, _) =>
    let '(err, s) := EnsurePartitions penv store (int_flag fs "ahead") s in
    (match err with
     | Some e => ([], Some e)
     | None => ([Line ("ensured partitions for current month + " ++ pretty (int_flag fs "ahead") ++
                  " months ahead")], None)
     end, s)
  end.

(** ** run *)

(** What the command line asks for: the DSN, the partitioned variant, the
    subcommand and its arguments. *)
Record invocation := mkInvocation {
  iv_dsn : string; iv_partitioned : bool; iv_sub : string; iv_args : list string;
}.

(** [run] up to the connection; [envDSN] is the variable TICKR_DSN. *)
Definition read_command_line (envDSN : string) (argv : list string) : error + invocation :=
  match parse_flags (<["dsn" := VString envDSN]> {["partitioned" := VBool false]}) argv with
  | inl e => inl e
  | inr (fs, args) =>
    match args with
    | [] => inl (errorString "missing subcommand")
    | sub :: args =>
      if bool_decide (string_flag fs "dsn" = "") then inl (errorString "missing --dsn (or TICKR_DSN env)")
      else inr (mkInvocation (string_flag fs "dsn") (bool_flag fs "partitioned") sub args)
    end
  end.

(** The three parts of the database that the commands work on. *)
Record ctl_state (T : Type) := mkCtl { ct_world : World; ct_mig : MigState (S:=T); ct_part : PartState }.
Arguments mkCtl {T} _ _ _.
Arguments ct_world {T} _.
Arguments ct_mig {T} _.
Arguments ct_part {T} _.

Section Run.
Context {T : Type} (ddl : string → T → error + T) (menv : MigEnv) (penv : PartEnv) (env : Env).
Context (migrationsFS partitionedMigrationsFS : Embed).

(** Standard output, [time.Parse]'s errors, Go's map order, what happens
    during a drain, and the driver's error of opening the pool. *)
Context (stdout : option error) (parse_error : string → error)
        (order : Stats → list (string * Status * Z))
        (fuel : nat) (others : nat → DB → DB) (interrupted : nat → bool)
        (pool_New : string → option error).

Definition on_world {A} (m : M A) (s : ctl_state T) : A * ctl_state T :=
  let '(a, w) := run m (ct_world s) in (a, mkCtl w (ct_mig s) (ct_part s)).
Definition on_migrations {A} (m : MigState (S:=T) → A * MigState (S:=T)) (s : ctl_state T) : A * ctl_state T :=
  let '(a, g) := m (ct_mig s) in (a, mkCtl (ct_world s) g (ct_part s)).
Definition on_partitions {A} (m : PartState → A * PartState) (s : ctl_state T) : A * ctl_state T :=
  let '(a, p) := m (ct_part s) in (a, mkCtl (ct_world s) (ct_mig s) p).

Definition dispatch (iv : invocation) (s : ctl_state T) : option result * ctl_state T :=
  let store := New (if iv_partitioned iv then [WithPartitioning] else []) in
  let returns (r : result * ctl_state T) := (Some r.1, r.2) in
  if bool_decide (iv_sub iv = "migrate") then
    returns (on_migrations (cmdMigrate ddl menv migrationsFS partitionedMigrationsFS store) s)
  else if bool_decide (iv_sub iv = "ensure-partitions") then
    returns (on_partitions (cmdEnsurePartitions penv store (iv_args iv)) s)
  else if bool_decide (iv_sub iv = "stats") then returns (on_world (cmdStats env stdout order (iv_args iv)) s)
  else if bool_decide (iv_sub iv = "dlq") then
    returns (on_world (cmdDLQ env stdout parse_error (iv_args iv)) s)
  else if bool_decide (iv_sub iv = "history") then returns (on_world (cmdHistory env stdout (iv_args iv)) s)
  else if bool_decide (iv_sub iv = "drain") then
    on_world (cmdDrain env fuel others interrupted (iv_args iv)) s
  else (Some ([], Some (errorString ("unknown subcommand: " ++ iv_sub iv))), s).

(** [run]; [argv] is os.Args without the program's name. *)
Definition run_ctl (envDSN : string) (argv : list string) (s : ctl_state T)
    : option result * ctl_state T :=
  match read_command_line envDSN argv with
  | inl e => (Some ([], Some e), s)
  | inr iv =>
    match pool_New (iv_dsn iv) with
    | Some e => (Some ([], Some (Errorf_w "connect" e)), s)
    | None => dispatch iv s
    end
  end.
End Run.
