(* ===== verification/CtlFacts.v ===== *)
(** * What tickrctl does to the queue

    [drain] waits until nothing is pending: its verdicts are right and it ends
    by its deadline.  Every command but the three that write leaves the
    database as it was. *)

From S2P Require Import Prelude GoErrors GoFlag Message World Postgres PostgresClaim PostgresAdmin Demo Migrations Partitions Ctl.

(** ** Commands that only read *)

(** A statement that leaves the database as it was. *)
Definition reads {A} (st : stmt A) : Prop := ∀ se db a db', st se db = inr (a, db') → db' = db.

Lemma run_reads env {A} (st : stmt A) w :
  reads st → ∃ r, run (exec_pool env st) w = (r, tick w).
Proof.
  intros Hr. unfold exec_pool, atomically, pool_action, run_stmt. simpl.
  destruct (st (sql_env env (w_tick w) (w_tick w)) (w_db w)) as [e|[a db']] eqn:E;
    [|apply Hr in E as ->]; destruct (e_fault env (w_tick w)); eexists; by destruct w.
Qed.

Lemma reads_stats : reads SQL.statsSQL.
Proof. by intros se db a db' [= _ <-]. Qed.
Lemma reads_dead et after limit : reads (SQL.listDeadSQL et after limit).
Proof. by intros se db a db' [= _ <-]. Qed.
Lemma reads_history id : reads (SQL.historySQL id).
Proof. by intros se db a db' [= _ <-]. Qed.

(** A program that leaves the database as it was, on every path. *)
Definition keeps {A} (p : M A) : Prop := ∀ w, w_db (run p w).2 = w_db w.

Lemma keeps_ret {A} (a : A) : keeps (mret a).
Proof. done. Qed.

Lemma keeps_bind {A B} (p : M A) (k : A → M B) : keeps p → (∀ a, keeps (k a)) → keeps (p ≫= k).
Proof.
  intros Hp Hk w. rewrite run_bind. specialize (Hp w). destruct (run p w) as [a w1]. simpl in Hp.
  by rewrite Hk.
Qed.

Lemma keeps_now env : keeps (time_Now env).
Proof. done. Qed.

Lemma keeps_exec env {A} (st : stmt A) : reads st → keeps (exec_pool env st).
Proof. intros Hr w. by destruct (run_reads env st w Hr) as [r ->]. Qed.

Create HintDb ctl.
#[export] Hint Resolve reads_stats reads_dead reads_history keeps_ret keeps_now keeps_exec : ctl.

(** Decide [keeps] by the shape of the program. *)
Ltac keeps :=
  repeat first
    [ progress (eauto with ctl) | apply keeps_bind; [|intros ?]
    | match goal with |- keeps (match ?x with _ => _ end) => destruct x end
    | match goal with |- keeps (if ?x then _ else _) => destruct x end ].

Lemma keeps_GetStats env : keeps (GetStats env).
Proof. unfold GetStats. keeps. Qed.
Lemma keeps_ListDead env et after limit : keeps (ListDead env et after limit).
Proof. unfold ListDead. keeps. Qed.
Lemma keeps_History env id : keeps (History env id).
Proof. unfold History. keeps. Qed.
#[export] Hint Resolve keeps_GetStats keeps_ListDead keeps_History : ctl.

Lemma keeps_cmdStats env out order args : keeps (cmdStats env out order args).
Proof. unfold cmdStats. keeps. Qed.
Lemma keeps_cmdHistory env out args : keeps (cmdHistory env out args).
Proof. unfold cmdHistory. keeps. Qed.
Lemma keeps_cmdDLQList env out pe args : keeps (cmdDLQList env out pe args).
Proof. unfold cmdDLQList. keeps. Qed.
#[export] Hint Resolve keeps_cmdStats keeps_cmdHistory keeps_cmdDLQList : ctl.

Lemma keeps_poll_wait k : keeps (poll_wait (λ _ db, db) k).
Proof. by intros []. Qed.
#[export] Hint Resolve keeps_poll_wait : ctl.

Lemma keeps_drain_loop env fuel k stop deadline out :
  keeps (drain_loop env fuel k (λ _ db, db) stop deadline out).
Proof.
  revert k out. induction fuel as [|fuel IH]; intros k out; cbn [drain_loop]; [apply keeps_ret|].
  keeps.
Qed.

(** ** drain *)

Abbreviation pending_group := (λ g : string * Status * Z, if is_pending g.1.2 then g.2 else 0) (only parsing).

(** A group that the maps do not have yet adds its depth. *)
Lemma pending_add acc et st n :
  (ByEventType acc !! et ≫= λ mm, mm !! st) = None →
  pending (stats_add acc (et, st, n)) = pending acc + pending_group (et, st, n).
Proof.
  intros Hnew. unfold pending, stats_add. cbn [ByEventType].
  rewrite zsum_map_insert, (zsum_map_delete _ et (ByEventType acc)). cbn [fst snd]. rewrite zsum_map_insert.
  destruct (ByEventType acc !! et) as [mm|] eqn:E; simpl in *.
  - rewrite (delete_id mm st) by done. lia.
  - rewrite delete_empty, map_to_list_empty. simpl. lia.
Qed.

Lemma pending_fold acc l :
  NoDup l.*1 → (∀ k, k ∈ l.*1 → (ByEventType acc !! k.1 ≫= λ mm, mm !! k.2) = None) →
  pending (foldl stats_add acc l) = pending acc + zsum pending_group l.
Proof.
  revert acc. induction l as [|[[et st] n] l IH]; intros acc Hnd Hnew; cbn [foldl]; [simpl; lia|].
  apply NoDup_cons in Hnd as [Hni Hnd]. rewrite IH; [|done|].
  - rewrite pending_add by (apply (Hnew (et, st)); left). simpl. lia.
  - intros [et' st'] Hk. simpl. destruct (decide (et' = et)) as [->|Hne];
      [rewrite lookup_insert_eq|rewrite lookup_insert_ne by done; by apply (Hnew (et', st')); right].
    simpl. rewrite lookup_insert_ne by (by intros ->). pose proof (Hnew (et, st') ltac:(by right)) as Ho.
    simpl in Ho. by destruct (ByEventType acc !! et).
Qed.

(** The rows that are neither SUCCESS nor DEAD; drain's four statuses are these. *)
Definition unfinished (m : gmap UUID row) : Z := count_rows (λ r, negb (Terminal (r_status r))) m.

Lemma is_pending_unfinished st : is_pending st = negb (Terminal st).
Proof. by destruct st. Qed.

Lemma count_rows_ext p q m : (∀ r, p r = q r) → count_rows p m = count_rows q m.
Proof.
  intros H. unfold count_rows, select_where. do 2 f_equal. apply list_filter_iff. intros x. by rewrite H.
Qed.

Lemma pending_counts env w st w' :
  run (GetStats env) w = ((st, None), w') → pending st = unfinished (d_msgs (w_db w)) ∧ w' = tick w.
Proof.
  unfold GetStats. rewrite run_bind.
  destruct (run (exec_pool env SQL.statsSQL) w) as [[e|gs] w1] eqn:E; [done|].
  rewrite run_bind. cbn [run time_Now atomically]. intros [= <- <-].
  apply run_exec_pool_inr in E as (db' & [= <- <-] & ->). split; [|by destruct w].
  destruct (stats_groups (d_msgs (w_db w))) as [_ Hs]. set (c := map_fold _ _ _) in *.
  rewrite pending_fold; [|apply NoDup_fst_map_to_list|by intros [et st] _].
  unfold unfinished. rewrite <- (count_rows_ext _ _ _ (λ r, is_pending_unfinished (r_status r))). apply Hs.
Qed.

Lemma GetStats_error env w st e w' :
  run (GetStats env) w = ((st, Some e), w') → ∃ e', e = Errorf_w "tickr/postgres: stats" e'.
Proof.
  unfold GetStats. rewrite run_bind. destruct (run (exec_pool env SQL.statsSQL) w) as [[e'|gs] w1].
  - rewrite run_bind. cbn [run time_Now atomically]. intros [= _ <- _]. by eexists.
  - rewrite run_bind. by cbn [run time_Now atomically].
Qed.

(** What a drain that has stopped in [w'] may say.  The statistics it judged by
    are those of the database it left. *)
Definition drain_verdict env (interrupted : nat → bool) (deadline : Time) (w' : World) (r : result) : Prop :=
  match r.2 with
  | None => unfinished (d_msgs (w_db w')) = 0 ∧ ∃ out, r.1 = (out ++ [Line "drained"])%list
  | Some e =>
    (∃ e', e = Errorf_w "tickr/postgres: stats" e') ∨
    unfinished (d_msgs (w_db w')) ≠ 0 ∧
    ((e = context_Canceled ∧ ∃ k, interrupted k = true) ∨
     (deadline < e_now env (w_tick w') ∧
      e = errorString ("drain timeout: " ++ pretty (unfinished (d_msgs (w_db w'))) ++
            " messages still pending")))
  end%string.

Section Drain.
Context (env : Env) (others : nat → DB → DB) (interrupted : nat → bool).

(** The clock advances by at least [poll] from one round to the next. *)
Context (poll : Z) (Hpoll : 0 < poll).
Hypothesis Hclock : ∀ n, e_now env n + poll ≤ e_now env (S n).

(** One round per tick: the loop stops within as many rounds as fit before the
    deadline, and one more. *)
Lemma drain_loop_stops fuel k deadline out w :
  deadline < e_now env (w_tick w) + Z.of_nat fuel * poll →
  ∃ r w', run (drain_loop env (S fuel) k others interrupted deadline out) w = (Some r, w') ∧
    drain_verdict env interrupted deadline w' r.
Proof using Hclock Hpoll.
  revert k out w. induction fuel as [|fuel IH]; intros k out w Hf; cbn [drain_loop];
    rewrite run_bind; destruct (run (GetStats env) w) as [[st [e|]] w1] eqn:E.
  1, 3: do 2 eexists; split; [reflexivity|]; left; by eapply GetStats_error.
  all: apply pending_counts in E as [-> ->].
  all: assert (unfinished (d_msgs (w_db (tick w))) = unfinished (d_msgs (w_db w))) as Hdb by done.
  all: destruct (Z.eqb_spec (unfinished (d_msgs (w_db w))) 0) as [Hz|Hz];
    [do 2 eexists; split; [reflexivity|]; split; [done|by eexists]|].
  all: rewrite run_bind; cbn [run time_Now atomically]; specialize (Hclock (w_tick w)) as Hc;
    destruct (Z.ltb_spec deadline (e_now env (w_tick (tick w)))) as [Hd|Hd];
    [do 2 eexists; split; [reflexivity|]; right; split; [done|]; right; by split
    |simpl in Hd].
  - lia.
  - destruct (interrupted k) eqn:Ei;
      [do 2 eexists; split; [reflexivity|]; right; split; [done|]; left; eauto|].
    rewrite run_bind. cbn [run poll_wait atomically]. apply IH. simpl. lia.
Qed.
End Drain.

(** C38: Drain ends by its deadline and its verdict is right.  When the clock
    advances by at least [poll] per round, [tickrctl drain --wait=w] stops within
    w/poll + 1 rounds whatever the workers do to the database meanwhile: it says
    "drained" only when every message is SUCCESS or DEAD, and otherwise reports
    the failed query, the interrupt, or, past the deadline, the exact number of
    unfinished messages. *)
Theorem drain_stops_with_right_verdict env others interrupted poll args fs rest fuel w :
  0 < poll → (∀ n, e_now env n + poll ≤ e_now env (S n)) →
  parse_flags drain_flags args = inr (fs, rest) →
  duration_flag fs "wait" < Z.of_nat fuel * poll →
  ∃ r w', run (cmdDrain env (S fuel) others interrupted args) w = (Some r, w') ∧
    drain_verdict env interrupted (e_now env (w_tick w) + duration_flag fs "wait") w' r.
Proof.
  intros Hpoll Hclock Hf Hfuel. unfold cmdDrain. rewrite Hf, run_bind. cbn [run time_Now atomically].
  apply (drain_loop_stops env others interrupted poll); [done..|lia].
Qed.

(** Four rounds over the demo queue, whose rows a worker finishes in the third. *)
Definition demo_workers (k : nat) (db : DB) : DB :=
  if (2 <=? k)%nat then set_msgs (with_status StatusSuccess <$> d_msgs db) db else db.

Lemma drain_stops_with_right_verdict_witness :
  ∃ r w', run (cmdDrain demo_env 12 demo_workers (λ _, false) ["--wait=10s"%string]) demo_queue = (Some r, w') ∧
    r = ([Line "waiting: 3 pending"; Line "waiting: 3 pending"; Line "waiting: 3 pending"; Line "drained"]%string, None) ∧
    drain_verdict demo_env (λ _, false) (e_now demo_env (w_tick demo_queue) + 10 * Second) w' r.
Proof.
  destruct (drain_stops_with_right_verdict demo_env demo_workers (λ _, false) Second ["--wait=10s"%string]
    (<["wait"%string := VDuration (10 * Second)]> drain_flags) [] 11 demo_queue) as (r & w' & E & H).
  - done.
  - intros n. simpl. unfold demo_clock. lia.
  - vm_compute. reflexivity.
  - vm_compute. reflexivity.
  - exists r, w'. split; [exact E|]. split; [|exact H].
    vm_compute in E. by injection E as <- _.
Defined.

(** ** The commands that write *)

Definition writes (iv : invocation) : bool :=
  bool_decide (iv_sub iv ∈ ["migrate"; "ensure-partitions"]%string) ||
  bool_decide (iv_sub iv = "dlq"%string) && bool_decide (head (iv_args iv) = Some "requeue"%string).

Lemma keeps_cmdDLQ env out pe args :
  head args ≠ Some "requeue"%string → keeps (cmdDLQ env out pe args).
Proof.
  intros Hn. unfold cmdDLQ. destruct args as [|a args]; [apply keeps_ret|].
  destruct (bool_decide (a = "list"%string)); [apply keeps_cmdDLQList|].
  rewrite bool_decide_eq_false_2 by (intros ->; by apply Hn). apply keeps_ret.
Qed.

Lemma keeps_cmdDrain env fuel stop args : keeps (cmdDrain env fuel (λ _ db, db) stop args).
Proof.
  unfold cmdDrain. destruct (parse_flags _ _) as [e|[fs rest]]; [apply keeps_ret|].
  apply keeps_bind; [apply keeps_now|]. intros now. apply keeps_drain_loop.
Qed.
#[export] Hint Resolve keeps_cmdDrain : ctl.

(** The parts of the state that a command leaves as they were. *)
Definition untouched {T} (s s' : ctl_state T) : Prop :=
  w_db (ct_world s') = w_db (ct_world s) ∧ ct_mig s' = ct_mig s ∧ ct_part s' = ct_part s.

Lemma on_world_untouched {T A} (m : M A) (s : ctl_state T) : keeps m → untouched s (on_world m s).2.
Proof.
  intros H. unfold on_world, untouched. specialize (H (ct_world s)). by destruct (run m (ct_world s)).
Qed.
#[export] Hint Resolve on_world_untouched : ctl.

(** Only migrate, ensure-partitions and dlq requeue write.  Whatever the
    command line, every other invocation of tickrctl, the malformed ones
    included, leaves the messages, the history, the schema and the partitions as
    they were, even when its queries fail. *)
Theorem only_three_commands_write {T} ddl menv penv env fs pfs out pe order fuel stop pool envDSN argv
    (s : ctl_state T) :
  (∀ iv, read_command_line envDSN argv = inr iv → writes iv = false) →
  untouched s (run_ctl ddl menv penv env fs pfs out pe order fuel (λ _ db, db) stop pool envDSN argv s).2.
Proof.
  intros Hw. unfold run_ctl. destruct (read_command_line envDSN argv) as [e|iv] eqn:E; [done|].
  destruct (pool (iv_dsn iv)); [done|]. specialize (Hw iv eq_refl). unfold writes in Hw.
  apply orb_false_iff in Hw as [H1 H2]. apply bool_decide_eq_false in H1. unfold dispatch.
  rewrite bool_decide_eq_false_2 by (intros E'; apply H1; rewrite E'; set_solver).
  rewrite bool_decide_eq_false_2 by (intros E'; apply H1; rewrite E'; set_solver).
  destruct (bool_decide (iv_sub iv = "stats"%string)); [eauto with ctl|].
  destruct (bool_decide (iv_sub iv = "dlq"%string)).
  { apply on_world_untouched, keeps_cmdDLQ. by apply bool_decide_eq_false in H2. }
  destruct (bool_decide (iv_sub iv = "history"%string)); [eauto with ctl|].
  destruct (bool_decide (iv_sub iv = "drain"%string)); [eauto with ctl|done].
Qed.

Definition demo_ctl : ctl_state unit := mkCtl demo_queue (mkMig (mkTables () None) 0) (mkPartState [] ∅ 0).

Definition demo_run (argv : list string) : option result * ctl_state unit :=
  run_ctl (λ _ s, inr s) (mkMigEnv (λ _, NoFault) (λ _ vs, vs))
    (mkPartEnv (λ _, NoFault) demo_clock (λ _ ps, ps) (λ _, ""%string)) demo_env
    (mkEmbed (λ _, inr []) (λ _, inr ""%string)) (mkEmbed (λ _, inr []) (λ _, inr ""%string))
    None errorString (λ _, []) 5 (λ _ db, db) (λ _, true) (λ _, None) "postgres://"%string argv demo_ctl.

Lemma only_three_commands_write_witness :
  (demo_run ["dlq"; "list"; "--limit=2"; "--json"]%string).1 = Some ([JsonMessages []], None) ∧
  untouched demo_ctl (demo_run ["dlq"; "list"; "--limit=2"; "--json"]%string).2.
Proof.
  split; [vm_compute; reflexivity|]. apply only_three_commands_write. intros iv E.
  vm_compute in E. injection E as <-. reflexivity.
Defined.
