(* ===== verification/Suite.v ===== *)
(** * The storage conformance suite (storage/internal/storagetest/suite.go)

    The repository's own tests of a storage adapter, as programs over the class
    [StorageImpl] of the Storage interface, and the models of the adapters put
    through them.  A test collects the messages of t.Errorf; t.Fatal ends it. *)

From S2P Require Import Prelude GoErrors GoStrings Message World Postgres MySQL MySQLFacts MySQLFleet Demo Fleet Calendar Listen LeaderLocks Cockroach.

#[local] Open Scope string_scope.
#[local] Open Scope Z_scope.

(** ** The interface *)

Class StorageImpl := {
  st_Enqueue : Tx → EnqueueParams → prog (option InboundMessage * option error);
  st_Claim : ClaimParams → prog (list InboundMessage * option error);
  st_Succeed : MessageID → Z → string → prog (option error);
  st_Fail : FailParams → prog (option error);
  st_History : MessageID → prog (list Transition * option error);
  st_ListDead : string → Time → Z → prog (list InboundMessage * option error);
  st_Requeue : MessageID → Time → prog (option error);
  st_ReclaimExpired : Z → prog (Z * option error);
  st_PurgeTerminal : Time → Z → prog (Z * option error);
  st_PurgeHistory : option (Time → Z → prog (Z * option error));     (* tickr.HistoryPurger *)
  st_Stats : prog (Stats * option error);
}.

(** TryLeaderLock and the unlock function it returns, by the number of the call:
    a call runs on a connection, or under a holder id, of its own. *)
Record LockImpl := mkLockImpl {
  lock_state_of : Type;
  lock_init : lock_state_of;
  lock_try : nat → string → lock_state_of → (bool * option error) * lock_state_of;
  lock_release : nat → string → lock_state_of → lock_state_of;
}.

(** ** Tests *)

(** What t.Errorf logged, and the value unless t.Fatal ended the test. *)
Inductive test (A : Type) := mkTest (run_test : prog (list string * option A)).
Arguments mkTest {A} run_test.

Definition run_test {A} (t : test A) : prog (list string * option A) := match t with mkTest p => p end.

#[export] Instance test_mret : MRet test := λ A a, mkTest (mret ([], Some a)).
#[export] Instance test_mbind : MBind test := λ A B k t, mkTest (
  '(l, o) ← run_test t;
  match o with
  | None => mret (l, None)
  | Some a => '(l', b) ← run_test (k a); mret ((l ++ l')%list, b)
  end).

Definition do_ {A} (p : prog A) : test A := mkTest (a ← p; mret ([], Some a)).
Definition Errorf (s : string) : test unit := mkTest (mret ([s], Some ())).
Definition Fatal {A} (s : string) : test A := mkTest (mret ([s], None)).

(** [if err != nil { t.Fatalf(what, err) }] *)
Definition check (what : string) (err : option error) : test unit :=
  match err with Some e => Fatal (what ++ ": " ++ Error e) | None => mret () end.

(** A field of a nil message. *)
Definition deref (m : option InboundMessage) : test InboundMessage :=
  match m with Some m => mret m | None => Fatal "panic: nil pointer dereference" end.

Section Suite.
Context (env : Env) `{StorageImpl}.

Definition now : test Time := do_ (time_Now env).

(** EnqueueParams with the fields a test sets. *)
Definition params (eventType payload key : string) (maxAttempts : Z) : EnqueueParams :=
  mkEnqueueParams eventType payload None key maxAttempts 0.

Definition mustEnqueue (p : EnqueueParams) : test (option InboundMessage) :=
  at_ ← (if IsZero (ep_ProcessAt p) then now else mret (ep_ProcessAt p));
  let max := if ep_MaxAttempts p =? 0 then 3 else ep_MaxAttempts p in
  '(m, err) ← do_ (st_Enqueue TxZero (mkEnqueueParams (ep_EventType p) (ep_Payload p) (ep_Headers p)
                     (ep_IdempotencyKey p) max at_));
  _ ← check "enqueue" (if IsDuplicate err then None else err);
  mret m.

(** The loop until the deadline; [fuel] rounds at most. *)
Fixpoint claim_loop (fuel : nat) (eventType : string) (want : MessageID) (workerID : string)
    (deadline : Time) : test InboundMessage :=
  match fuel with
  | O => Fatal "out of fuel"
  | S fuel =>
    t ← now;
    if t <? deadline then
      '(msgs, err) ← do_ (st_Claim (mkClaimParams workerID 50 (30 * Second) [eventType]));
      _ ← check "claim" err;
      match filter (λ m, im_ID m = want) msgs with
      | m :: _ => mret m
      | [] => claim_loop fuel eventType want workerID deadline
      end
    else Fatal ("claim: timed out waiting for " ++ want)
  end.

Definition claimUntil (eventType : string) (want : MessageID) (workerID : string) : test InboundMessage :=
  t ← now; claim_loop 100 eventType want workerID (t + 5 * Second).

Definition testEnqueueAndClaim : test unit :=
  m ← mustEnqueue (params "test.enqueue_claim" "{hello: world}" "" 0);
  m ← deref m;
  _ ← (if bool_decide (im_ID m = "") then Fatal "enqueue: empty ID" else mret ());
  '(msgs, err) ← do_ (st_Claim (mkClaimParams "w1" 10 (30 * Second) ["test.enqueue_claim"]));
  _ ← check "claim" err;
  if bool_decide (msgs = []) then Fatal "claim returned no messages"
  else
    let found := filter (λ c, im_ID c = im_ID m) msgs in
    _ ← (if bool_decide (Exists (λ c, im_Attempt c ≠ 1) found) then Errorf "claim: want attempt=1" else mret ());
    if bool_decide (found = []) then Errorf ("claim: enqueued message " ++ im_ID m ++ " not in batch") else mret ().

(** [time.Now().Format("150405.000000000")] *)
Definition clock_text (t : Time) : string :=
  let digits := pretty (1000000000 + t mod Second)%Z in
  pad2 (HourOf t) ++ pad2 (MinuteOf t) ++ pad2 (SecondOf t) ++ "." ++ String.substring 1 9 digits.

Definition testIdempotency : test unit :=
  t ← now;
  let key := "idem-" ++ clock_text t in
  _ ← mustEnqueue (params "test.idem" "{}" key 0);
  '(_, err) ← do_ (st_Enqueue TxZero (params "test.idem" "{}" key 0));
  _ ← (if IsDuplicate err then mret () else Fatal "second enqueue: want IsDuplicate");
  if IsDuplicate err then mret () else Fatal "expected ErrDuplicate".

Definition testSucceed : test unit :=
  m ← mustEnqueue (params "test.success" "{}" "" 0);
  m ← deref m;
  claimed ← claimUntil "test.success" (im_ID m) "w-success";
  err ← do_ (st_Succeed (im_ID claimed) (im_Attempt claimed) "w-success");
  check "succeed" err.

Definition testFailRetryDead : test unit :=
  m ← mustEnqueue (params "test.fail" "{}" "" 2);
  m ← deref m;
  claimed ← claimUntil "test.fail" (im_ID m) "w-fail";
  t ← now;
  err ← do_ (st_Fail (mkFailParams (im_ID claimed) (im_Attempt claimed) "w-fail" "boom" t false));
  _ ← check "fail-retry" err;
  claimed2 ← claimUntil "test.fail" (im_ID m) "w-fail";
  err ← do_ (st_Fail (mkFailParams (im_ID claimed2) (im_Attempt claimed2) "w-fail" "boom-final" 0 true));
  _ ← check "fail-dead" err;
  t ← now;
  '(dead, err) ← do_ (st_ListDead "test.fail" (t - Hour) 10);
  _ ← check "list dead" err;
  if bool_decide (filter (λ d, im_ID d = im_ID m) dead = []) then Fatal ("dead message " ++ im_ID m ++ " not listed")
  else mret ().

Definition testRequeueFromDead : test unit :=
  m ← mustEnqueue (params "test.requeue" "{}" "" 1);
  m ← deref m;
  claimed ← claimUntil "test.requeue" (im_ID m) "w-rq";
  err ← do_ (st_Fail (mkFailParams (im_ID claimed) (im_Attempt claimed) "w-rq" "boom" 0 true));
  _ ← check "fail-dead" err;
  t ← now;
  err ← do_ (st_Requeue (im_ID m) t);
  _ ← check "requeue" err;
  _ ← claimUntil "test.requeue" (im_ID m) "w-rq-2";
  mret ().

Definition testReclaimExpired : test unit :=
  _ ← mustEnqueue (params "test.reclaim" "{}" "" 0);
  '(_, err) ← do_ (st_Claim (mkClaimParams "w-died" 10 (-1 * Second) ["test.reclaim"]));
  _ ← check "claim w/ expired lease" err;
  '(n, err) ← do_ (st_ReclaimExpired 100);
  _ ← check "reclaim" err;
  if n <? 1 then Errorf ("expected at least 1 reclaim, got " ++ pretty (n : Z)) else mret ().

Definition testPurgeTerminal : test unit :=
  m ← mustEnqueue (params "test.purge" "{}" "" 0);
  m ← deref m;
  claimed ← claimUntil "test.purge" (im_ID m) "w-p";
  err ← do_ (st_Succeed (im_ID claimed) (im_Attempt claimed) "w-p");
  _ ← check "succeed" err;
  t ← now;
  '(n, err) ← do_ (st_PurgeTerminal (t + Hour) 100);
  _ ← check "purge" err;
  if n <? 1 then Errorf ("expected at least 1 row purged, got " ++ pretty (n : Z)) else mret ().

Definition testPurgeHistory : test unit :=
  match st_PurgeHistory with
  | None => mret ()
  | Some PurgeHistory =>
    m ← mustEnqueue (params "test.purge_history" "{}" "" 0);
    m ← deref m;
    claimed ← claimUntil "test.purge_history" (im_ID m) "w-ph";
    err ← do_ (st_Succeed (im_ID claimed) (im_Attempt claimed) "w-ph");
    _ ← check "succeed" err;
    '(before, err) ← do_ (st_History (im_ID m));
    _ ← check "history before" err;
    t ← now;
    '(n, err) ← do_ (PurgeHistory (t + Hour) 1000);
    _ ← check "purge history" err;
    _ ← (if (0 <? length before)%nat && (n <? Z.of_nat (length before))
         then Errorf "expected more history rows purged" else mret ());
    '(after, err) ← do_ (st_History (im_ID m));
    _ ← check "history after" err;
    if bool_decide (length after ≠ 0%nat) then Errorf "expected empty history after purge" else mret ()
  end.

Definition testStats : test unit :=
  _ ← mustEnqueue (params "test.stats" "{}" "" 0);
  '(s, err) ← do_ st_Stats;
  _ ← check "stats" err;
  if bool_decide (ByEventType s = ∅) then Fatal "stats: no event types reported" else mret ().

(** The listener's channel gets what the database notifies after Listen. *)
Definition testNotifier : test unit :=
  match Listen None None with
  | inl e => Fatal ("Listen: " ++ Error e)
  | inr l =>
    seen ← do_ (atomically (λ w, (length (d_notify (w_db w)), w)));
    _ ← mustEnqueue (params "test.notify" "{}" "" 0);
    sent ← do_ (atomically (λ w, (drop seen (d_notify (w_db w)), w)));
    match receive (foldl (λ l _, WaitForNotification None l) l sent) with
    | Some _ => mret ()
    | None => Fatal "did not receive notification within 2s of enqueue"
    end
  end.
End Suite.

(** The acquisitions and releases; no test of the suite touches messages and
    locks. *)
Definition testLeaderLock (lk : LockImpl) : list string :=
  let key := "test-leader" in
  let '((got1, err1), s1) := lock_try lk 1 key (lock_init lk) in
  let '((got2, err2), s2) := lock_try lk 2 key s1 in
  let '((got3, err3), _) := lock_try lk 3 key (lock_release lk 1 key s2) in
  if isSome err1 then ["first acquire"] else if negb got1 then ["first acquire returned false"]
  else if isSome err2 then ["second acquire"]
  else if (got2 : bool) then ["second acquire should have failed while first holds"]
  else if isSome err3 then ["third acquire"]
  else if negb got3 then ["third acquire should succeed after first unlocked"] else [].

(** [RunSuite]: the tests in order on one database, each with its failures. *)
Definition RunSuite (env : Env) `{StorageImpl} (lk : LockImpl) (SupportsNotifier : bool)
    : prog (list (string * list string)) :=
  let tests := ([("enqueue_and_claim", testEnqueueAndClaim env); ("idempotency", testIdempotency env);
     ("succeed", testSucceed env); ("fail_retry_then_dead", testFailRetryDead env);
     ("requeue_from_dead", testRequeueFromDead env); ("reclaim_expired", testReclaimExpired env);
     ("purge_terminal", testPurgeTerminal env); ("purge_history", testPurgeHistory env);
     ("stats", testStats env)] ++ (if SupportsNotifier then [("notifier", testNotifier env)] else []))%list in
  rs ← foldr (λ (t : string * test unit) rest, r ← run_test t.2; rs ← rest; mret ((t.1, r.1) :: rs)) (mret []) tests;
  mret ((rs ++ [("leader_lock_exclusion", testLeaderLock lk)])%list).

(** ** The adapters *)

#[local] Instance postgres_storage (env : Env) (s : Store) : StorageImpl := {|
  st_Enqueue := Postgres.Enqueue env s;
  st_Claim := Postgres.Claim env s;
  st_Succeed := Postgres.Succeed env s;
  st_Fail := Postgres.Fail_ env s;
  st_History := Postgres.History env;
  st_ListDead := Postgres.ListDead env;
  st_Requeue := Postgres.Requeue env;
  st_ReclaimExpired := Postgres.ReclaimExpired env;
  st_PurgeTerminal := Postgres.PurgeTerminal env;
  st_PurgeHistory := Some (Postgres.PurgeHistory env);
  st_Stats := Postgres.GetStats env;
|}.

#[local] Instance mysql_storage (env : Env) (sv : Server) : StorageImpl := {|
  st_Enqueue := MySQL.Enqueue env sv;
  st_Claim := MySQL.Claim env sv;
  st_Succeed := MySQL.Succeed env sv;
  st_Fail := MySQL.Fail_ env sv;
  st_History := MySQL.History env sv;
  st_ListDead := MySQL.ListDead env sv;
  st_Requeue := MySQL.Requeue env sv;
  st_ReclaimExpired := MySQL.ReclaimExpired env sv;
  st_PurgeTerminal := MySQL.PurgeTerminal env;
  st_PurgeHistory := Some (MySQL.PurgeHistory env);
  st_Stats := MySQL.GetStats env sv;
|}.

(** Session locks, a connection per call; and the table of CockroachDB, a holder
    id per call, all within its time to live. *)
Definition session_locks : LockImpl := {|
  lock_state_of := @lock_state string _ _;
  lock_init := no_locks;
  lock_try k := Postgres_TryLeaderLock None Delivered k;
  lock_release k := LeaderLocks.unlock true k;
|}.

Definition table_locks : LockImpl := {|
  lock_state_of := Locks;
  lock_init := ∅;
  lock_try k key := Cockroach.TryLeaderLock NoFault key (pretty (Z.of_nat k)) (Z.of_nat k * Second);
  lock_release k key := Cockroach.unlock NoFault key (pretty (Z.of_nat k));
|}.

Definition passes (rs : list (string * list string)) : bool := forallb (λ r, bool_decide (r.2 = [])) rs.


(** The models of the adapters pass the repository's suite: PostgreSQL in each
    schema and with each history policy, CockroachDB's configuration of it with
    the lock table, and MySQL. *)
Theorem adapters_pass_suite :
  (∀ part hist, passes (run (RunSuite demo_env (H:=postgres_storage demo_env (mkStore part false hist))
     session_locks true) init_world).1 = true) ∧
  (∀ hist, passes (run (RunSuite demo_env (H:=postgres_storage demo_env (mkStore false true hist))
     table_locks false) init_world).1 = true) ∧
  passes (run (RunSuite demo_env (H:=mysql_storage demo_env demo_server) session_locks false) init_world).1 = true.
Proof. split_and!; [intros [] []|intros []|]; vm_compute; reflexivity. Qed.
