(* ===== verification/Bench.v ===== *)
(** * The throughput benchmarks (storage/internal/storagetest/bench.go)

    What the benchmarks do to the store and how they configure the worker: the
    options' defaults, the chunked load both begin with, the enqueue benchmark
    and the set-up of the drain benchmark.  The drain itself is a worker (file
    WorkerLife) that is stopped once its handler has run b.N times. *)

From S2P Require Import Prelude GoErrors GoFloat Retry Message World Postgres PostgresLogic PostgresEnqueue PostgresBatch Demo Fleet Effects Registry Engine Worker.

Record BenchOptions := mkBenchOptions {
  bo_Payload : option bytes;
  bo_EnqueueBatch : Z;
  bo_BatchSize : Z;
  bo_PoolSize : Z;
  bo_PollInterval : Duration;
  bo_MaxWait : Duration;
}.

Definition default_payload : bytes :=
  let q := String (Ascii.ascii_of_nat 34) EmptyString in
  ("{" ++ q ++ "k" ++ q ++ ":" ++ q ++ "bench" ++ q ++ "," ++ q ++ "note" ++ q ++ ":" ++ q ++
   "drain-throughput-default-payload-64b" ++ q ++ "}")%string.

Definition withDefaults (o : BenchOptions) : BenchOptions := {|
  bo_Payload := Some (default default_payload (bo_Payload o));
  bo_EnqueueBatch := if bo_EnqueueBatch o <=? 0 then 500 else bo_EnqueueBatch o;
  bo_BatchSize := if bo_BatchSize o <=? 0 then 100 else bo_BatchSize o;
  bo_PoolSize := if bo_PoolSize o <=? 0 then 64 else bo_PoolSize o;
  bo_PollInterval := if bo_PollInterval o <=? 0 then 10 * Millisecond else bo_PollInterval o;
  bo_MaxWait := if bo_MaxWait o <=? 0 then 5 * Minute else bo_MaxWait o;
|}.

(** How a benchmark ends: b.Fatalf, or the metric it reports, if any. *)
Inductive bench_result :=
| OutOfFuel
| Fatalf (text : string)
| Reported (msgs_per_sec : option float64).

Section Bench.
Context (env : Env) (store_EnqueueBatch : Tx → list EnqueueParams → prog (list (option InboundMessage) * option error)).
Context (N : Z) (opts : BenchOptions).

Definition bench_chunk (enqueued : Z) : Z := Z.min (bo_EnqueueBatch opts) (N - enqueued).

(** The loop [for enqueued < b.N]; [what] is the prefix of its failure. *)
Fixpoint load (what eventType : string) (fuel : nat) (enqueued : Z) : prog bench_result :=
  match fuel with
  | O => mret OutOfFuel
  | S fuel =>
    if enqueued <? N then
      now ← time_Now env;
      r ← store_EnqueueBatch TxZero (replicate (Z.to_nat (bench_chunk enqueued))
            (mkEnqueueParams eventType (default ""%string (bo_Payload opts)) None "" 1 now));
      match r.2 with
      | Some e => mret (Fatalf (what ++ ": " ++ Error e)%string)
      | None => load what eventType fuel (enqueued + bench_chunk enqueued)
      end
    else mret (Reported None)
  end.

(** The metric [float64(b.N)/elapsed.Seconds()]. *)
Definition throughput (elapsed : Duration) : float64 :=
  f64_div (f64_of_int N) (Duration_Seconds elapsed).
End Bench.

Section Run.
Context (env : Env) (store_EnqueueBatch : Tx → list EnqueueParams → prog (list (option InboundMessage) * option error)).
Context (N : Z) (opts : BenchOptions).
(** Whether the store is a BatchAcker, a HistoryPurger and a Notifier. *)
Context (acker purger notifier : bool).

Abbreviation bench_load := (load env store_EnqueueBatch N (withDefaults opts)).

Definition RunEnqueueBenchmark : prog bench_result :=
  if N =? 0 then mret (Reported None)
  else
    t ← time_Now env;
    start ← time_Now env;
    r ← bench_load "enqueue" ("bench.enqueue." ++ pretty (t : Z))%string (S (Z.to_nat N)) 0;
    match r with
    | Reported _ => stop ← time_Now env; mret (Reported (Some (throughput N (stop - start))))
    | r => mret r
    end.

(** The drain benchmark up to the start of its worker: the loaded store, the
    registry with the counting handler and the worker's configuration. *)
Definition drain_registry (eventType : string) (counting : Handler) : option error * gmap string registration :=
  On eventType (Some counting) [WithMaxAttempts 1] NewRegistry.

Definition drain_worker (reg : gmap string registration) (t : Time) : WorkerConfig :=
  {| wc_HasStorage := true; wc_Registry := Some reg; wc_WorkerID := "bench-" ++ pretty (t : Z);
     wc_PollInterval := bo_PollInterval (withDefaults opts); wc_PollMaxBackoff := 0; wc_BatchSize := bo_BatchSize (withDefaults opts);
     wc_PoolSize := bo_PoolSize (withDefaults opts); wc_Lease := 0; wc_ShutdownGrace := 0;
     wc_Retention := mkRetentionPolicy 0 0 0 0 0; wc_StatsInterval := 0; wc_ReclaimInterval := 0;
     DisableReclaimer := true; DisableJanitor := true; DisableNotifier := false;
     wc_BatchAcker := acker; wc_HistoryPurger := purger; wc_Notifier := notifier |}.

Definition drain_setup (counting : Handler) : prog (bench_result * option WorkerConfig) :=
  if N =? 0 then mret (Reported None, None)
  else
  t ← time_Now env;
  let eventType := ("bench.drain." ++ pretty (t : Z))%string in
  r ← bench_load "pre-enqueue" eventType (S (Z.to_nat N)) 0;
  match r with
  | Reported _ =>
    match drain_registry eventType counting with
    | (Some e, _) => mret (Fatalf ("register handler: " ++ Error e)%string, None)
    | (None, reg) => t ← time_Now env; mret (Reported None, Some (drain_worker reg t))
    end
  | r => mret (r, None)
  end.
End Run.

(** ** The load *)

(** A message of the load. *)
Definition bench_row (eventType payload : string) (r : row) : Prop :=
  r_event_type r = eventType ∧ r_payload r = payload ∧ r_status r = StatusCreated ∧
  r_attempt r = 0 ∧ r_max_attempts r = 1.

(** [m'] is [m] and [n] new messages of the load, under [ids]. *)
Definition loaded (eventType payload : string) (n : Z) (m m' : gmap UUID row) (ids : list UUID) : Prop :=
  NoDup ids ∧ Z.of_nat (length ids) = n ∧
  (∀ i, i ∈ ids → m !! i = None ∧ ∃ r, m' !! i = Some r ∧ bench_row eventType payload r) ∧
  ∀ i, i ∉ ids → m' !! i = m !! i.

Lemma loaded_none et pl m : loaded et pl 0 m m [].
Proof. split_and!; try done; [apply NoDup_nil_2|]. by intros i Hi%elem_of_nil. Qed.

Lemma loaded_app et pl n1 n2 m1 m2 m3 l1 l2 :
  loaded et pl n1 m1 m2 l1 → loaded et pl n2 m2 m3 l2 → loaded et pl (n1 + n2) m1 m3 (l1 ++ l2).
Proof.
  intros (Hd1 & Hl1 & Hin1 & Hout1) (Hd2 & Hl2 & Hin2 & Hout2).
  assert (∀ i, i ∈ l1 → i ∉ l2) as Hdisj.
  { intros i H1 H2. destruct (Hin1 i H1) as (_ & r & Hr & _), (Hin2 i H2) as (Hn & _). congruence. }
  split_and!.
  - by apply NoDup_app.
  - rewrite length_app. lia.
  - intros i [Hi|Hi]%elem_of_app.
    + destruct (Hin1 i Hi) as (Hn & r & Hr & Hb). split; [done|]. exists r. split; [|done].
      rewrite (Hout2 i (Hdisj i Hi)). done.
    + destruct (Hin2 i Hi) as (Hn & Hr). split; [|done]. rewrite <- (Hout1 i); [done|].
      intros Hi1. by apply (Hdisj i).
  - intros i [Hi1 Hi2]%not_elem_of_app. rewrite (Hout2 i Hi2). by apply Hout1.
Qed.

(** What a batch of the load stores. *)
Lemma enqueued_all_loaded s n et pl at_ now db db' ms :
  enqueued_all s (replicate n (mkEnqueueParams et pl None "" 1 at_)) now db db' ms →
  loaded et pl (Z.of_nat n) (d_msgs db) (d_msgs db') (im_ID <$> ms).
Proof.
  intros (Hnd & Hall & Hout & _). split_and!; try done.
  - rewrite length_fmap, <- (Forall2_length _ _ _ Hall), length_replicate. done.
  - intros i (m & -> & Hm)%list_elem_of_fmap. apply list_elem_of_lookup in Hm as [j Hj].
    destruct (Forall2_lookup_r _ _ _ _ _ Hall Hj) as (p & Hp & Hn & r & Hr & Hs & Hf & _ & Hst).
    apply lookup_replicate in Hp as [-> _]. split; [done|]. exists r. split; [done|].
    rewrite Hs in Hf. unfold scanMessage, fresh_message in Hf. injection Hf as Ht Hpl _ _ Hat Hma _ _ _.
    simpl in *. by repeat split.
Qed.

Section PostgresLoad.
Context (env : Env) `{!EnvOK env} (s : Store) (N : Z) (opts : BenchOptions).
Context (Hids : unique_ids env) (Hbatch : 0 < bo_EnqueueBatch opts).

Abbreviation pg_load := (load env (Postgres.EnqueueBatch env s) N opts).

(** The load ends, with [S b.N] rounds as fuel; without an error it has stored
    exactly the messages that were missing. *)
Lemma load_stores what et fuel enqueued w :
  (Z.to_nat (N - enqueued) < fuel)%nat → enqueued ≤ N →
  let '(r, w') := run (pg_load what et fuel enqueued) w in
  r ≠ OutOfFuel ∧
  (∀ f, r = Reported f → ∃ ids, loaded et (default ""%string (bo_Payload opts)) (N - enqueued)
     (d_msgs (w_db w)) (d_msgs (w_db w')) ids).
Proof using All.
  revert enqueued w. induction fuel as [|fuel IH]; intros enqueued w Hf Hle; [lia|]. cbn [load].
  destruct (Z.ltb_spec enqueued N) as [Hlt|Hge].
  2:{ simpl. split; [done|]. intros f _. exists []. replace (N - enqueued) with 0 by lia.
      apply loaded_none. }
  pose proof (eq_refl : bench_chunk N opts enqueued = Z.min (bo_EnqueueBatch opts) (N - enqueued)) as Hc.
  rewrite run_bind. cbn [run time_Now atomically]. rewrite run_bind.
  destruct (run (Postgres.EnqueueBatch _ _ _ _) w) as [[out [e|]] w1] eqn:E; cbn [snd]; [done|].
  apply (EnqueueBatch_stored env s) in E as (ms & _ & Hms); [|done..].
  specialize (IH (enqueued + bench_chunk N opts enqueued) w1 ltac:(lia) ltac:(lia)).
  destruct (run (load _ _ _ _ _ _ _ _) w1) as [r w2]. destruct IH as [Hr Hl]. split; [done|].
  intros f ->. destruct (Hl f eq_refl) as [ids Hids2].
  apply enqueued_all_loaded in Hms. exists ((im_ID <$> ms) ++ ids).
  replace (N - enqueued) with (Z.of_nat (Z.to_nat (bench_chunk N opts enqueued)) +
    (N - (enqueued + bench_chunk N opts enqueued))) by lia.
  by eapply loaded_app.
Qed.
End PostgresLoad.

(** The enqueue benchmark on PostgreSQL ends, whatever the faults; when it
    reports a throughput the table has gained exactly [N] messages, each with the
    payload and one attempt, and nothing else changed. *)
Theorem RunEnqueueBenchmark_stores env `{!EnvOK env} s N o w :
  unique_ids env → 0 ≤ N →
  let '(r, w') := run (RunEnqueueBenchmark env (Postgres.EnqueueBatch env s) N o) w in
  r ≠ OutOfFuel ∧
  ∀ f, r = Reported f → ∃ et ids, loaded et (default default_payload (bo_Payload o)) N
    (d_msgs (w_db w)) (d_msgs (w_db w')) ids.
Proof.
  intros Hu HN. unfold RunEnqueueBenchmark. destruct (Z.eqb_spec N 0) as [->|Hne].
  { simpl. split; [done|]. intros f _. exists ""%string, []. apply loaded_none. }
  rewrite run_bind. cbn [run time_Now atomically]. rewrite run_bind. cbn [run time_Now atomically].
  rewrite run_bind.
  pose proof (load_stores env s N (withDefaults o) Hu
    ltac:(simpl; destruct (Z.leb_spec (bo_EnqueueBatch o) 0); lia)
    "enqueue" ("bench.enqueue." ++ pretty (e_now env (w_tick w) : Z))%string (S (Z.to_nat N)) 0 w
    ltac:(lia) HN) as H.
  destruct (run (load _ _ _ _ _ _ _ _) w) as [r w1]. destruct H as [Hr Hl].
  destruct r as [|t|f]; simpl; [done|by split|]. split; [done|]. intros f' [= <-].
  destruct (Hl f eq_refl) as [ids Hids]. rewrite Z.sub_0_r in Hids. eauto.
Qed.

(** Three messages in chunks of two, into an empty table. *)
Example bench_three :
  let '(r, w) := run (RunEnqueueBenchmark demo_env (Postgres.EnqueueBatch demo_env demo_store) 3
    (mkBenchOptions None 2 0 0 0 0)) init_world in
  match r with Reported (Some f) => true | _ => false end = true ∧ size (d_msgs (w_db w)) = 3%nat.
Proof. vm_compute. split; reflexivity. Qed.
